(* ===== verification/_CoqProject ===== *)
-Q . S2P
Prelude.v
Bytes.v
Crc32.v
ReaderTracker.v
Segment.v
SegmentFacts.v
SegmentScan.v
SegmentSpec.v
SegmentRefs.v
WALog.v
WALogFacts.v
WALogRecovery.v
WALogReader.v
WALogRetention.v
KeyCodec.v
KVKeys.v
KVStore.v
KVBolt.v
KVLmdb.v
KVSpec.v
KVReads.v
KVQueue.v
KVBoltQueue.v
KVLmdbQueue.v
KVQueueFacts.v
Splitter.v
LogCodec.v
WalIO.v
WalIOFacts.v
Overlay.v
BTree.v
BTreeLmdb.v
MemTable.v
Samples.v
MemTableFacts.v
TxnLog.v
WalTail.v
FlushFacts.v
FlushSpec.v
Notify.v
NotifyFacts.v
Paths.v
Base64.v
GrpcUtils.v
KVSnapshot.v
Replicator.v
ReplicatorFacts.v
ReplicatorProgress.v
Streamer.v
StreamerFacts.v
StreamClient.v
Replication.v
Engine.v
Txn.v
Recovery.v
Replica.v
Relayer.v
RelayerLoop.v
LogMeaning.v
EngineFacts.v
EngineWrites.v
TxnFacts.v
EngineReads.v
EngineFlush.v
EngineSpec.v
RecoveryFacts.v
ReplicaFacts.v
RelayerFacts.v
EngineAux.v
HttpApi.v
HttpSpec.v
LogNumbers.v
Fuzzer.v
EngineLimits.v
GrpcStats.v
Crdt.v
Config.v
Server.v
ServerFacts.v
ZeroMq.v
