(* ===== verification/Prelude.v ===== *)
(** A verification development for UnisonDB, a log-structured multi-modal
    database that streams its log to replicas.

    The program.  A write of an engine (src/dbkernel/engine.go) is encoded
    (src/internal/logcodec), appended to a segmented write-ahead log
    (src/pkg/walfs through src/dbkernel/internal/wal), and put into a memory
    table (src/dbkernel/internal/memtable).  Full tables are sealed and flushed
    in the background to a B-tree store, bbolt or LMDB (src/pkg/kvdrivers).  A
    checkpoint in the store says how far the flush has come; opening an engine
    replays the log from there (src/dbkernel/internal/recovery).  Transactions
    (src/dbkernel/txn.go) are chains of records in the log that take effect
    with the last one.  A leader serves its log: a replicator (src/pkg/replicator)
    follows the tail, the streamer (src/internal/services/streamer) sends the
    records over gRPC, the client of a follower receives them and its relayer
    (src/internal/services/relayer) gives them to the replica
    (src/dbkernel/replica.go), which appends them to its own log and applies
    them.  Clients use the HTTP API (src/internal/services/httpapi) and are told
    of changes by a ZeroMQ notifier (src/plugin/notifier/zeromq).  The command
    (src/cmd/unisondb) reads a configuration, sets everything up, runs the
    services and shuts them down; in one of its modes it fuzzes its own engines
    (src/internal/services/fuzzer).

    Conventions.  Go functions are Gallina functions with explicit state.  A
    call that can panic returns [outcome] ([Ret], [Panic], and [NoFuel] for a
    loop whose fuel is used up); a Go error is the [Err] of [result].
    [log.Fatal] ends the process and is [Panic].  Integers are [Z] with the
    wrap-around of their width written out; byte slices are lists of bytes.
    Goroutines are step relations; a method that holds its lock throughout is
    one step.  What comes from outside (the clock, random numbers, the order in
    which a map is ranged over, whether a system call fails) is an argument, and
    the theorems quantify over it.  Libraries outside the repository are type
    classes of operations with a class of laws, their documented behaviour;
    every law class has an instance, so that no theorem rests on an assumption
    that cannot hold.

    The files.
    - The base: this file (outcomes, results, generic lemmas, hints), [Bytes]
      (slices, encoding/binary), [Crc32] (hash/crc32), [Base64]
      (encoding/base64, encoding/hex).
    - src/pkg/walfs: [ReaderTracker] (util.go); [Segment] is the model of
      segment.go, [SegmentFacts] its layout and writes, [SegmentScan] opening
      and the recovery scan, [SegmentSpec] the refinement of a bounded list of
      records, [SegmentRefs] the interleavings of readers, closing and
      deletion; [WALog] is the model of walog.go with a heap of shared
      segments, [WALogFacts] the refinement of the whole log, [WALogRecovery]
      starting up, [WALogReader] readers across segments, [WALogRetention]
      cleanup.
    - src/internal/keycodec and src/pkg/kvdrivers: [KeyCodec] and [KVKeys] (the
      storage keys), [KVStore] (the classes for bbolt and LMDB), [KVBolt],
      [KVLmdb] (bolt.go, lmdb.go), [KVSpec] and [KVReads] (both refine a map of
      typed keys), [KVQueue], [KVBoltQueue], [KVLmdbQueue], [KVQueueFacts] (the
      transaction queues), [KVSnapshot] (opening, closing, snapshots and
      restores of the database files).
    - src/pkg/splitter: [Splitter].  src/internal/logcodec: [LogCodec], with
      flatbuffers as a class.
    - src/dbkernel/internal: [WalIO] and [WalIOFacts] (wal.go, common.go of
      internal/wal, and metadata.go); [WalTail] (readers that follow the log);
      [BTree] and [BTreeLmdb] (common.go, the interface of the store, and both
      drivers as instances); [MemTable] and [MemTableFacts] (the memory table as
      the list of its puts); [Overlay] (the effect of operations key by key),
      [TxnLog], [FlushFacts], [FlushSpec] (a flush); [Samples] (concrete
      libraries).
    - src/dbkernel: [Engine] (engine.go, engine_public.go, common.go), [Txn]
      (txn.go), [Recovery] (wal_recovery.go and opening), [Replica]
      (replica.go), [EngineAux] (readers, backups, goroutines, hlc.go), [Notify]
      and [NotifyFacts] (waiting for appends), [Paths] (backup paths).  Their
      theorems: [LogMeaning] says what a log means, [EngineFacts] states the
      invariant, [EngineWrites], [TxnFacts], [EngineReads], [EngineFlush] show
      what each operation does under it, [EngineSpec] the refinement,
      [RecoveryFacts] crashes, [ReplicaFacts] replication, [LogNumbers] the
      numbers of the records, [EngineLimits] the inputs after which an engine
      gets stuck.
    - Replication: [Replicator], [ReplicatorFacts], [ReplicatorProgress]
      (src/pkg/replicator); [Streamer], [StreamerFacts], [StreamClient]
      (grpc_streamer.go, grpc_streamer_client.go); [Replication] composes log,
      streams, network and follower; [Relayer], [RelayerLoop], [RelayerFacts]
      (src/internal/services/relayer) put the replica at the end.
    - Services: [HttpApi] and [HttpSpec] (src/internal/services/httpapi),
      [GrpcUtils] and [GrpcStats] (src/internal/grpcutils), [ZeroMq]
      (src/plugin/notifier/zeromq, src/pkg/notifier), [Fuzzer]
      (src/internal/services/fuzzer), [Crdt] (the data types of the example
      client, src/cmd/examples/crdt-multi-dc).
    - The command: [Config] (src/cmd/unisondb/config, src/pkg/svcutils,
      src/internal/etc/parse.go), [Server] and [ServerFacts]
      (src/cmd/unisondb/cliapp/server.go, src/cmd/unisondb/main.go).

    What is shown.
    - The engine refines a map with transactions: writes are all or nothing, a
      transaction shows nothing before its commit, reads answer from the map,
      flushes and syncs are invisible ([EngineSpec]).  The invariant behind it
      says where each operation of the log is: in the store, in a sealed table
      or in the active one.  It holds under the load of the fuzzer, however its
      goroutines interleave ([Fuzzer]), and for every request of the HTTP API,
      which is refused or is a number of calls on one engine ([HttpSpec]).
    - An engine that is opened after a crash, between operations, in the middle
      of a flush or of saving a checkpoint, stands for the map it stood for
      before, with all or nothing of the interrupted call ([RecoveryFacts]).
    - Whatever streams, network and writers do, a follower receives the records
      of its leader's log in order, without gaps or repetitions, streams do not
      touch each other's records, a replicator left alone catches up, retries
      are bounded ([Replication], [ReplicatorProgress]); a replica has the log
      and the map of its leader up to the last record it accepted
      ([ReplicaFacts], [RelayerFacts]).  The numbers that replicas and local
      relayers check increase, without gaps while no append fails
      ([LogNumbers]).
    - The log, its segments and its recovery refine lists of records; damaged
      bytes are never returned as records; reference counting never unmaps
      under a reader; retention deletes oldest first and never the active
      segment.  No wake-up of a waiting reader is lost ([NotifyFacts]).
    - Both drivers and their queues refine the same map of typed keys, a restore
      replaces the database or keeps it, the storage keys are unambiguous, and
      codecs round-trip.
    - The server opens engines with settings in range, relays over the
      connection that is configured, runs until it is told to stop or a service
      fails, then winds down in a bounded number of steps and closes what it
      opened in the right order ([ServerFacts]).  The metrics of calls are
      exact ([GrpcStats]), the socket of the notifier is used by one thread at a
      time ([ZeroMq]), and replicas of the data types converge ([Crdt]).
    - Deviations are theorems too: each says on which input the code does
      something other than its comments or its other parts expect.

    Fuel.  Scans of a segment and walks of a reader get the size of the segment
    as fuel, since every record takes at least one aligned unit; cursor loops of
    a driver get the number of keys in the store; the walk back through a
    transaction and the replay of a log get more than the number of records of
    the log.  The theorems state that the result is reached ([Ret]), for every
    such fuel, so none of them holds because a loop was cut short.  A number [n]
    in an invariant says how many more records the log, its segment ids and its
    counter have room for.

    Not modelled.  Generated code (flatbuffers accessors, protobuf messages and
    stubs) and third-party libraries are parameters.  JSON, durations, hashes,
    certificates, dialing and listening are arguments.  Log lines, tracing,
    metrics other than those of gRPC calls (driver, process and I/O statistics),
    the banner and the report files of the fuzzer only write, and nothing reads
    them back.  Tickers are events without a rate.  Benchmarks, the example
    clients and the test helpers are not part of the database.  The deletion of
    segments is modelled for the log ([WALogRetention], [SegmentRefs]), but is
    not a step of the system of log and streams.  A crash of the process keeps
    the committed transactions of the store and the records written to the
    mapped log; power failures are outside the model. *)

From stdpp Require Import prelude list numbers.
From Stdlib Require Import ZArith Lia.

#[global] Open Scope Z_scope.

Declare Scope unison_scope.
Delimit Scope unison_scope with unison.
#[global] Open Scope unison_scope.

(** * Outcomes of Go code

    A Go call either returns, panics (a slice or index out of range, a nil
    dereference), or -- in the model only -- runs out of the fuel that bounds
    a loop.  [NoFuel] is kept apart from [Panic] so that "the loop returns"
    is a theorem and never an accident of the encoding. *)

Inductive outcome (A : Type) : Type :=
| Ret (a : A)
| Panic
| NoFuel.
Arguments Ret {A} a.
Arguments Panic {A}.
Arguments NoFuel {A}.

#[global] Instance outcome_ret : MRet outcome := fun A a => Ret a.
#[global] Instance outcome_bind : MBind outcome := fun A B f m =>
  match m with
  | Ret a => f a
  | Panic => Panic
  | NoFuel => NoFuel
  end.
#[global] Instance outcome_fmap : FMap outcome := fun A B f m =>
  match m with
  | Ret a => Ret (f a)
  | Panic => Panic
  | NoFuel => NoFuel
  end.

Lemma bind_Ret_inv {A B} (f : A -> outcome B) (m : outcome A) (b : B) :
  m ≫= f = Ret b -> exists a, m = Ret a /\ f a = Ret b.
Proof. destruct m; cbn; naive_solver. Qed.

Lemma bind_of_Ret {A B} (f : A -> outcome B) (a : A) : (Ret a ≫= f) = f a.
Proof. reflexivity. Qed.

(** A Go result [(T, error)] in which the value is meaningful exactly when the
    error is nil. *)
Inductive result (E A : Type) : Type :=
| Ok (a : A)
| Err (e : E).
Arguments Ok {E A} a.
Arguments Err {E A} e.

Definition is_ok {E A} (r : result E A) : bool :=
  match r with Ok _ => true | Err _ => false end.

(** * Machine integers *)

Definition u32 (z : Z) : Z := z mod 2 ^ 32.
Definition u64 (z : Z) : Z := z mod 2 ^ 64.
Definition i64 (z : Z) : Z := (z + 2 ^ 63) mod 2 ^ 64 - 2 ^ 63.

Lemma u32_small z : 0 <= z < 2 ^ 32 -> u32 z = z.
Proof. apply Z.mod_small. Qed.
Lemma u32_range z : 0 <= u32 z < 2 ^ 32.
Proof. apply Z.mod_pos_bound. lia. Qed.
Lemma u64_small z : 0 <= z < 2 ^ 64 -> u64 z = z.
Proof. apply Z.mod_small. Qed.
Lemma u64_range z : 0 <= u64 z < 2 ^ 64.
Proof. apply Z.mod_pos_bound. lia. Qed.
Lemma i64_small z : - 2 ^ 63 <= z < 2 ^ 63 -> i64 z = z.
Proof. intros. unfold i64. rewrite Z.mod_small; lia. Qed.
Lemma i64_u64 z : - 2 ^ 63 <= z < 2 ^ 63 -> i64 (u64 z) = z.
Proof.
  intros. unfold i64, u64.
  rewrite Zplus_mod_idemp_l, Z.mod_small; lia.
Qed.

(** * Automation *)

Create HintDb unison.
#[export] Hint Resolve u32_range u64_range : unison.

(** Invert a hypothesis [m ≫= f = Ret b] as far as it goes. *)
Ltac inv_ret :=
  repeat match goal with
  | H : (_ ≫= _) = Ret _ |- _ =>
      let x := fresh "x" in let H1 := fresh "Hm" in
      apply bind_Ret_inv in H as (x & H1 & H)
  | H : Ret _ = Ret _ |- _ => injection H as H; try subst
  | H : Panic = Ret _ |- _ => discriminate H
  | H : NoFuel = Ret _ |- _ => discriminate H
  | H : Ok _ = Ok _ |- _ => injection H as H; try subst
  | H : Err _ = Err _ |- _ => injection H as H; try subst
  | H : Ok _ = Err _ |- _ => discriminate H
  | H : Err _ = Ok _ |- _ => discriminate H
  end.

(** Split every conditional in the goal, turning boolean comparisons into
    hypotheses that [lia] understands. *)
Ltac case_if :=
  match goal with
  | |- context [if ?b then _ else _] =>
      let E := fresh "E" in destruct b eqn:E
  end.
Ltac case_if_in H :=
  match type of H with
  | context [if ?b then _ else _] =>
      let E := fresh "E" in destruct b eqn:E
  end.

(** Decide the next conditional of the goal by arithmetic. *)
Ltac if_true :=
  match goal with
  | |- context [if ?b then _ else _] => replace b with true by lia
  end; cbn beta iota.
Ltac if_false :=
  match goal with
  | |- context [if ?b then _ else _] => replace b with false by lia
  end; cbn beta iota.
