(* ===== verification/Bytes.v ===== *)
(** Byte slices as the Go code uses them.

    [byte] is the kernel's 256-constructor type, so every byte string is in
    range by construction.  The file models what the sources use of Go's
    standard library on [[]byte]: slice expressions and index assignments with
    their bounds checks (out of range is [Panic]), [copy], and
    [encoding/binary]'s fixed-width little- and big-endian accessors. *)

From stdpp Require Import prelude list numbers countable.
From Stdlib Require Import ZArith Lia.
From Stdlib Require Strings.Byte.
From S2P Require Import Prelude.

Abbreviation byte := Byte.byte.
Abbreviation bytes := (list Byte.byte).

Create Rewrite HintDb blen.

#[global] Instance byte_eq_dec : EqDecision byte := Byte.byte_eq_dec.
#[global] Program Instance byte_countable : Countable byte :=
  inj_countable Byte.to_N Byte.of_N _.
Next Obligation. intros b. apply Byte.of_to_N. Qed.

(** ** Bytes and integers *)

Definition u8 (b : byte) : Z := Z.of_N (Byte.to_N b).
Definition to_byte (z : Z) : byte :=
  default Byte.x00 (Byte.of_N (Z.to_N (z mod 256))).

Lemma u8_range b : 0 <= u8 b < 256.
Proof. unfold u8. pose proof (Byte.to_N_bounded b). lia. Qed.

Lemma to_byte_u8 b : to_byte (u8 b) = b.
Proof.
  unfold to_byte. pose proof (u8_range b). rewrite Z.mod_small by lia.
  unfold u8. by rewrite N2Z.id, Byte.of_to_N.
Qed.

Lemma u8_to_byte z : u8 (to_byte z) = z mod 256.
Proof.
  unfold to_byte, u8.
  pose proof (Z.mod_pos_bound z 256 ltac:(lia)).
  destruct (Byte.of_N (Z.to_N (z mod 256))) as [b|] eqn:E; cbn.
  - apply Byte.to_of_N in E. lia.
  - apply Byte.of_N_None_iff in E. lia.
Qed.

Lemma u8_inj b1 b2 : u8 b1 = u8 b2 -> b1 = b2.
Proof. intros H. by rewrite <- (to_byte_u8 b1), H, to_byte_u8. Qed.

(** ** Length as a Go [int] *)

Definition blen {A} (l : list A) : Z := Z.of_nat (length l).

Lemma blen_nonneg {A} (l : list A) : 0 <= blen l.
Proof. unfold blen. lia. Qed.
Lemma blen_app {A} (l1 l2 : list A) : blen (l1 ++ l2) = blen l1 + blen l2.
Proof. unfold blen. rewrite length_app. lia. Qed.
Lemma blen_cons {A} (x : A) l : blen (x :: l) = 1 + blen l.
Proof. unfold blen. cbn. lia. Qed.
Lemma blen_nil {A} : blen (@nil A) = 0.
Proof. reflexivity. Qed.
Lemma blen_replicate {A} n (x : A) : blen (replicate n x) = Z.of_nat n.
Proof. unfold blen. by rewrite length_replicate. Qed.
Lemma blen_zero_nil {A} (l : list A) : blen l = 0 -> l = [].
Proof. destruct l; unfold blen; cbn; [done | lia]. Qed.

#[export] Hint Rewrite @blen_app @blen_cons @blen_nil @blen_replicate : blen.
#[export] Hint Resolve blen_nonneg u8_range : unison.

(** ** Fixed-width integers *)

Fixpoint le_bytes (n : nat) (z : Z) : bytes :=
  match n with
  | O => []
  | S n' => to_byte z :: le_bytes n' (z / 256)
  end.

Fixpoint le_val (l : bytes) : Z :=
  match l with
  | [] => 0
  | b :: l' => u8 b + 256 * le_val l'
  end.

Definition be_bytes (n : nat) (z : Z) : bytes := reverse (le_bytes n z).
Definition be_val (l : bytes) : Z := le_val (reverse l).

Lemma length_le_bytes n z : length (le_bytes n z) = n.
Proof. revert z. induction n; intros; cbn; auto. Qed.
Lemma blen_le_bytes n z : blen (le_bytes n z) = Z.of_nat n.
Proof. unfold blen. by rewrite length_le_bytes. Qed.
Lemma length_be_bytes n z : length (be_bytes n z) = n.
Proof. unfold be_bytes. by rewrite length_reverse, length_le_bytes. Qed.
#[export] Hint Rewrite blen_le_bytes : blen.

Lemma le_val_range l : 0 <= le_val l < 256 ^ blen l.
Proof.
  induction l as [|b l IH]; [by vm_compute|].
  rewrite blen_cons, Z.pow_add_r, Z.pow_1_r by auto with unison zarith.
  cbn [le_val]. pose proof (u8_range b).
  generalize dependent (256 ^ blen l). intros p IH. lia.
Qed.

Lemma le_val_le_bytes n z : le_val (le_bytes n z) = z mod 256 ^ Z.of_nat n.
Proof.
  revert z. induction n as [|n IH]; intros z.
  - cbn. by rewrite Z.mod_1_r.
  - cbn [le_bytes le_val]. rewrite IH, u8_to_byte.
    rewrite Nat2Z.inj_succ, Z.pow_succ_r by lia.
    rewrite Z.rem_mul_r by lia. lia.
Qed.

Lemma le_bytes_le_val l : le_bytes (length l) (le_val l) = l.
Proof.
  induction l as [|b l IH]; [done|].
  cbn [length le_bytes le_val]. pose proof (u8_range b).
  replace (u8 b + 256 * le_val l) with (u8 b + le_val l * 256) by lia.
  f_equal.
  - apply u8_inj. by rewrite u8_to_byte, Z_mod_plus_full, Z.mod_small.
  - by rewrite Z.div_add, Z.div_small by lia.
Qed.

Lemma le_val_inj l1 l2 : length l1 = length l2 -> le_val l1 = le_val l2 -> l1 = l2.
Proof.
  intros Hl Hv. rewrite <- (le_bytes_le_val l1), <- (le_bytes_le_val l2).
  by rewrite Hl, Hv.
Qed.

Lemma le_bytes_mod n z : le_bytes n (z mod 256 ^ Z.of_nat n) = le_bytes n z.
Proof.
  apply le_val_inj; [by rewrite !length_le_bytes|].
  rewrite !le_val_le_bytes. apply Z.mod_mod. lia.
Qed.

Lemma be_val_be_bytes n z : be_val (be_bytes n z) = z mod 256 ^ Z.of_nat n.
Proof. unfold be_val, be_bytes. by rewrite reverse_involutive, le_val_le_bytes. Qed.

Lemma be_bytes_inj n z1 z2 :
  0 <= z1 < 256 ^ Z.of_nat n -> 0 <= z2 < 256 ^ Z.of_nat n ->
  be_bytes n z1 = be_bytes n z2 -> z1 = z2.
Proof.
  intros H1 H2 H%(f_equal be_val). rewrite !be_val_be_bytes in H.
  by rewrite !Z.mod_small in H.
Qed.

(** ** Slice expressions, index assignment and [copy] *)

(** [b[lo:hi]]. *)
Definition slice {A} (b : list A) (lo hi : Z) : outcome (list A) :=
  if (0 <=? lo) && (lo <=? hi) && (hi <=? blen b)
  then Ret (take (Z.to_nat (hi - lo)) (drop (Z.to_nat lo) b))
  else Panic.

(** [b[i] = x]. *)
Definition set_index {A} (b : list A) (i : Z) (x : A) : outcome (list A) :=
  if (0 <=? i) && (i <? blen b) then Ret (<[Z.to_nat i := x]> b) else Panic.

(** Overwrite [b] from [off] with [src]; used only where it fits. *)
Definition splice {A} (b : list A) (off : nat) (src : list A) : list A :=
  take off b ++ src ++ drop (off + length src) b.

(** [copy(b[off:], src)]: as many bytes as fit. *)
Definition copy_at {A} (b : list A) (off : Z) (src : list A) : outcome (list A) :=
  if (0 <=? off) && (off <=? blen b)
  then let n := Z.to_nat off in
       Ret (splice b n (take (length b - n) src))
  else Panic.

(** [binary.LittleEndian.Uint32(b[off:off+4])] and its relatives. *)
Definition get_le (n : nat) (b : bytes) (off : Z) : outcome Z :=
  s ← slice b off (off + Z.of_nat n); mret (le_val s).
Definition get_u32 (b : bytes) (off : Z) : outcome Z := get_le 4 b off.
Definition get_u64 (b : bytes) (off : Z) : outcome Z := get_le 8 b off.

(** [binary.LittleEndian.PutUint32(b[off:off+4], v)] and its relatives. *)
Definition put_le (n : nat) (b : bytes) (off : Z) (v : Z) : outcome bytes :=
  if (0 <=? off) && (off + Z.of_nat n <=? blen b)
  then Ret (splice b (Z.to_nat off) (le_bytes n v))
  else Panic.
Definition put_u32 (b : bytes) (off : Z) (v : Z) : outcome bytes := put_le 4 b off v.
Definition put_u64 (b : bytes) (off : Z) (v : Z) : outcome bytes := put_le 8 b off v.

(** ** How they act on a concatenation *)

Lemma to_nat_blen {A} (l : list A) : Z.to_nat (blen l) = length l.
Proof. unfold blen. lia. Qed.

Lemma slice_app {A} (a b c : list A) lo hi :
  lo = blen a -> hi = blen a + blen b ->
  slice (a ++ b ++ c) lo hi = Ret b.
Proof.
  intros -> ->. unfold slice. autorewrite with blen.
  pose proof (blen_nonneg a). pose proof (blen_nonneg b). pose proof (blen_nonneg c).
  if_true.
  replace (blen a + blen b - blen a) with (blen b) by lia.
  rewrite !to_nat_blen, drop_app_length, take_app_length. done.
Qed.

Lemma splice_app {A} (a b b' c : list A) :
  length b' = length b -> splice (a ++ b ++ c) (length a) b' = a ++ b' ++ c.
Proof.
  intros H. unfold splice. rewrite take_app_length, H.
  by rewrite (app_assoc a b c), <- length_app, drop_app_length.
Qed.

Lemma length_splice {A} (b : list A) off src :
  (off + length src <= length b)%nat -> length (splice b off src) = length b.
Proof.
  intros. unfold splice. rewrite !length_app, length_take, length_drop. lia.
Qed.

Lemma copy_at_app {A} (a b b' c : list A) off :
  off = blen a -> length b' = length b ->
  copy_at (a ++ b ++ c) off b' = Ret (a ++ b' ++ c).
Proof.
  intros -> Hl. unfold copy_at. autorewrite with blen.
  pose proof (blen_nonneg a). pose proof (blen_nonneg b). pose proof (blen_nonneg c).
  if_true.
  cbn zeta. rewrite to_nat_blen, take_ge by (rewrite !length_app; lia).
  by rewrite splice_app.
Qed.

Lemma put_le_app n (a b c : bytes) off v :
  off = blen a -> length b = n ->
  put_le n (a ++ b ++ c) off v = Ret (a ++ le_bytes n v ++ c).
Proof.
  intros -> Hl. unfold put_le. autorewrite with blen.
  pose proof (blen_nonneg a). pose proof (blen_nonneg b). pose proof (blen_nonneg c).
  assert (blen b = Z.of_nat n) by (unfold blen; lia).
  if_true.
  rewrite to_nat_blen, splice_app by (rewrite length_le_bytes; lia). done.
Qed.

Lemma get_le_app n (a b c : bytes) off :
  off = blen a -> length b = n -> get_le n (a ++ b ++ c) off = Ret (le_val b).
Proof.
  intros -> Hl. unfold get_le.
  erewrite slice_app; [done | done | unfold blen; lia].
Qed.
