(* ===== verification/Crc32.v ===== *)
(** Go's [hash/crc32], as the sources use it.

    [MakeTable], [Update] and [Checksum] follow the table-driven algorithm of
    the standard library ([simpleMakeTable], [simpleUpdate]); a table is a
    list of 256 words.  [crcTable] is the Castagnoli table of
    src/pkg/walfs/segment.go, [IEEETable] the one src/dbkernel/txn.go and
    src/pkg/splitter/chunk.go use. *)

From stdpp Require Import prelude list numbers.
From Stdlib Require Import ZArith Lia.
From S2P Require Import Prelude Bytes.

Module crc32.

Definition Castagnoli : Z := 0x82f63b78.
Definition IEEE : Z := 0xedb88320.

(** One step of the bit loop of [simpleMakeTable]. *)
Definition table_step (poly crc : Z) : Z :=
  if Z.testbit crc 0 then Z.lxor (Z.shiftr crc 1) poly else Z.shiftr crc 1.

Definition MakeTable (poly : Z) : list Z :=
  (fun i => Nat.iter 8 (table_step poly) (Z.of_nat i)) <$> seq 0 256.

Definition step (tab : list Z) (crc : Z) (v : byte) : Z :=
  Z.lxor (nth (Z.to_nat (Z.lxor (Z.land crc 255) (u8 v))) tab 0) (Z.shiftr crc 8).

Definition Update (crc : Z) (tab : list Z) (p : bytes) : Z :=
  Z.lxor (foldl (step tab) (Z.lxor crc 0xffffffff) p) 0xffffffff.

Definition Checksum (data : bytes) (tab : list Z) : Z := Update 0 tab data.

Definition CastagnoliTable : list Z := Eval vm_compute in MakeTable Castagnoli.
Definition IEEETable : list Z := Eval vm_compute in MakeTable IEEE.
Definition ChecksumIEEE (data : bytes) : Z := Update 0 IEEETable data.

(** The check value of the CRC catalogue: the digits "123456789". *)
Definition check_input : bytes := to_byte <$> [49; 50; 51; 52; 53; 54; 55; 56; 57].
Example castagnoli_check : Checksum check_input CastagnoliTable = 0xe3069283.
Proof. vm_compute. reflexivity. Qed.
Example ieee_check : ChecksumIEEE check_input = 0xcbf43926.
Proof. vm_compute. reflexivity. Qed.

Lemma lxor_involutive a m : Z.lxor (Z.lxor a m) m = a.
Proof. by rewrite Z.lxor_assoc, Z.lxor_nilpotent, Z.lxor_0_r. Qed.

(** Checksumming in two pieces is checksumming the concatenation. *)
Lemma Update_app crc tab p q : Update (Update crc tab p) tab q = Update crc tab (p ++ q).
Proof. unfold Update. by rewrite lxor_involutive, foldl_app. Qed.

(** ** The checksum is a 32-bit word *)

Lemma word_lxor a b : 0 <= a < 2 ^ 32 -> 0 <= b < 2 ^ 32 -> 0 <= Z.lxor a b < 2 ^ 32.
Proof.
  intros Ha Hb. split; [apply Z.lxor_nonneg; lia|].
  destruct (decide (Z.lxor a b = 0)) as [->|Hne]; [lia|].
  assert (0 <= Z.lxor a b) by (apply Z.lxor_nonneg; lia).
  apply Z.log2_lt_pow2; [lia|].
  eapply Z.le_lt_trans; [apply Z.log2_lxor; lia|].
  assert (forall x, 0 <= x < 2 ^ 32 -> Z.log2 x < 32) as Hlog.
  { intros x Hx. destruct (decide (x = 0)) as [->|]; [by vm_compute|].
    apply Z.log2_lt_pow2; lia. }
  pose proof (Hlog a Ha). pose proof (Hlog b Hb). lia.
Qed.

Definition word_table (tab : list Z) : Prop := Forall (fun w => 0 <= w < 2 ^ 32) tab.

Lemma step_range tab crc v :
  word_table tab -> 0 <= crc < 2 ^ 32 -> 0 <= step tab crc v < 2 ^ 32.
Proof.
  intros Ht Hc. apply word_lxor.
  - destruct (nth_in_or_default (Z.to_nat (Z.lxor (Z.land crc 255) (u8 v))) tab 0)
      as [Hin | ->]; [|lia].
    unfold word_table in Ht. rewrite List.Forall_forall in Ht. by apply Ht.
  - rewrite Z.shiftr_div_pow2 by lia. split.
    + apply Z.div_pos; lia.
    + apply Z.div_lt_upper_bound; lia.
Qed.

Lemma Update_range crc tab p :
  word_table tab -> 0 <= crc < 2 ^ 32 -> 0 <= Update crc tab p < 2 ^ 32.
Proof.
  intros Ht Hc. apply word_lxor; [|lia].
  assert (0 <= Z.lxor crc 0xffffffff < 2 ^ 32) as H by (apply word_lxor; lia).
  revert H. generalize (Z.lxor crc 0xffffffff). induction p as [|v p IH]; intros c Hc'; cbn.
  - done.
  - apply IH. by apply step_range.
Qed.

Lemma word_table_check tab :
  forallb (fun w => (0 <=? w) && (w <? 2 ^ 32)) tab = true -> word_table tab.
Proof.
  intros H. unfold word_table. rewrite List.Forall_forall. intros w Hw.
  rewrite forallb_forall in H. specialize (H w Hw). lia.
Qed.

Lemma CastagnoliTable_word : word_table CastagnoliTable.
Proof. apply word_table_check. vm_compute. reflexivity. Qed.
Lemma IEEETable_word : word_table IEEETable.
Proof. apply word_table_check. vm_compute. reflexivity. Qed.

End crc32.
