(* ===== verification/ReaderTracker.v ===== *)
(** The sharded set of active reader ids (src/pkg/walfs/util.go).

    The array of 32 mutex-protected maps is a list of 32 finite sets; every
    method locks exactly the shards it touches one at a time, so a method call
    is one atomic step here.  The abstract specification is a single set of
    ids, [ids]; the file proves that the sharded implementation refines it. *)

From stdpp Require Import prelude list numbers gmap.
From Stdlib Require Import ZArith Lia.
From S2P Require Import Prelude.

Definition readerShardCount : nat := 32.
Definition readerShardMask : Z := 31.

Record readerTracker := mkTracker { shards : list (gset Z) }.

Definition newReaderTracker : readerTracker :=
  mkTracker (replicate readerShardCount ∅).

(** [id & readerShardMask]: the index of the shard that owns [id]. *)
Definition shard (id : Z) : nat := Z.to_nat (Z.land id readerShardMask).

Definition items (rt : readerTracker) (id : Z) : gset Z :=
  default ∅ (shards rt !! shard id).

Definition Add (rt : readerTracker) (id : Z) : readerTracker :=
  mkTracker (<[shard id := {[id]} ∪ items rt id]> (shards rt)).

Definition Remove (rt : readerTracker) (id : Z) : readerTracker * bool :=
  let exists_ := bool_decide (id ∈ items rt id) in
  (if exists_
   then mkTracker (<[shard id := items rt id ∖ {[id]}]> (shards rt))
   else rt,
   exists_).

Definition HasAny (rt : readerTracker) : bool :=
  existsb (fun sh => bool_decide (0 < size sh)%nat) (shards rt).

Definition Contains (rt : readerTracker) (id : Z) : bool :=
  bool_decide (id ∈ items rt id).

(** ** Representation invariant and abstraction *)

Definition wf (rt : readerTracker) : Prop :=
  length (shards rt) = readerShardCount /\
  forall i s id, shards rt !! i = Some s -> id ∈ s -> shard id = i.

(** The abstract state: the one set of tracked ids. *)
Definition ids (rt : readerTracker) : gset Z := ⋃ shards rt.

Lemma shard_lt id : (shard id < readerShardCount)%nat.
Proof.
  unfold shard, readerShardMask, readerShardCount.
  change 31 with (Z.ones 5). rewrite Z.land_ones by lia.
  pose proof (Z.mod_pos_bound id (2 ^ 5) ltac:(lia)). lia.
Qed.

Lemma items_lookup rt id : wf rt -> shards rt !! shard id = Some (items rt id).
Proof.
  intros [Hl _]. unfold items.
  destruct (lookup_lt_is_Some_2 (shards rt) (shard id)) as [s ->]; [|done].
  rewrite Hl. apply shard_lt.
Qed.

Lemma elem_of_ids rt id : wf rt -> id ∈ ids rt <-> id ∈ items rt id.
Proof.
  intros Hwf. unfold ids. rewrite elem_of_union_list. split.
  - intros (s & Hs & Hid). apply list_elem_of_lookup in Hs as [i Hi].
    destruct Hwf as [Hl Hsh]. pose proof (Hsh _ _ _ Hi Hid) as Heq. subst i.
    unfold items. by rewrite Hi.
  - intros Hid. exists (items rt id). split; [|done].
    apply list_elem_of_lookup. eexists. by apply items_lookup.
Qed.

(** Updating the owning shard with ids that belong there keeps [wf]. *)
Lemma wf_set_shard rt id s :
  wf rt -> (forall x, x ∈ s -> x = id \/ x ∈ items rt id) ->
  wf (mkTracker (<[shard id := s]> (shards rt))).
Proof.
  intros Hwf Hs. destruct (Hwf) as [Hl Hsh]. split; cbn.
  - by rewrite length_insert.
  - intros i s' x Hi Hx.
    apply list_lookup_insert_Some in Hi as [(<- & <- & _) | (Hne & Hi)].
    + destruct (Hs x Hx) as [-> | Hx']; [done|].
      eapply Hsh; [by apply items_lookup | done].
    + by eapply Hsh.
Qed.

Lemma items_set_shard rt id s x :
  wf rt ->
  items (mkTracker (<[shard id := s]> (shards rt))) x =
  if decide (shard x = shard id) then s else items rt x.
Proof.
  intros [Hl _]. unfold items; cbn. case_decide as Heq.
  - rewrite Heq, list_lookup_insert_eq; [done|]. rewrite Hl. apply shard_lt.
  - by rewrite list_lookup_insert_ne.
Qed.

Lemma new_wf : wf newReaderTracker.
Proof.
  split; [done|]. intros i s id Hi Hid.
  apply lookup_replicate_1 in Hi as [-> _]. set_solver.
Qed.

Lemma new_ids : ids newReaderTracker = ∅.
Proof.
  apply set_eq. intros id. rewrite (elem_of_ids _ _ new_wf).
  unfold items, newReaderTracker, shards.
  destruct (_ !! shard id) as [s|] eqn:E; cbn; [|set_solver].
  apply lookup_replicate_1 in E as [-> _]. set_solver.
Qed.

Lemma Add_wf rt id : wf rt -> wf (Add rt id).
Proof. intros. apply wf_set_shard; set_solver. Qed.

Lemma ids_set_shard rt id s :
  wf rt -> (forall x, x ∈ s -> x = id \/ x ∈ items rt id) ->
  (forall x, x <> id -> x ∈ items rt id -> x ∈ s) ->
  ids (mkTracker (<[shard id := s]> (shards rt))) =
  if decide (id ∈ s) then {[id]} ∪ ids rt else ids rt ∖ {[id]}.
Proof.
  intros Hwf H1 H2. pose proof (wf_set_shard rt id s Hwf H1) as Hwf'.
  apply set_eq. intros x. rewrite (elem_of_ids _ _ Hwf').
  rewrite (items_set_shard _ _ _ _ Hwf).
  assert (shard x = shard id -> items rt x = items rt id) as Hitems
    by (unfold items; by intros ->).
  pose proof (elem_of_ids rt x Hwf) as Hx.
  destruct (decide (x = id)) as [->|Hne].
  - rewrite decide_True by done. case_decide; set_solver.
  - case_decide as Hsh; [rewrite Hitems in Hx by done|]; case_decide; set_solver.
Qed.

Lemma Add_ids rt id : wf rt -> ids (Add rt id) = {[id]} ∪ ids rt.
Proof.
  intros Hwf. unfold Add. rewrite ids_set_shard by set_solver.
  by rewrite decide_True by set_solver.
Qed.

Lemma Remove_wf rt id : wf rt -> wf (Remove rt id).1.
Proof.
  intros Hwf. unfold Remove; cbn. case_bool_decide; [|done].
  apply wf_set_shard; [done|set_solver].
Qed.

Lemma Remove_ids rt id : wf rt -> ids (Remove rt id).1 = ids rt ∖ {[id]}.
Proof.
  intros Hwf. unfold Remove; cbn. case_bool_decide as Hin.
  - rewrite ids_set_shard by set_solver. by rewrite decide_False by set_solver.
  - rewrite <- (elem_of_ids rt id Hwf) in Hin. set_solver.
Qed.

Lemma Remove_found rt id : wf rt -> (Remove rt id).2 = bool_decide (id ∈ ids rt).
Proof. intros Hwf. apply bool_decide_ext. symmetry. by apply elem_of_ids. Qed.

Lemma Contains_spec rt id : wf rt -> Contains rt id = bool_decide (id ∈ ids rt).
Proof. intros Hwf. apply bool_decide_ext. symmetry. by apply elem_of_ids. Qed.

Lemma HasAny_spec rt : wf rt -> HasAny rt = bool_decide (ids rt <> ∅).
Proof.
  intros Hwf. apply eq_true_iff_eq. rewrite bool_decide_eq_true. unfold HasAny.
  rewrite existsb_exists. split.
  - intros (s & Hs & Hsz%bool_decide_eq_true). rewrite <- list_elem_of_In in Hs.
    apply size_pos_elem_of in Hsz as [x Hx]. intros Hemp.
    assert (x ∈ ids rt); [|set_solver]. apply elem_of_union_list. eauto.
  - intros [x Hx]%set_choose_L. apply elem_of_union_list in Hx as (s & Hs & Hx).
    exists s. rewrite <- list_elem_of_In. split; [done|].
    apply bool_decide_eq_true. assert (size s <> 0%nat); [|lia].
    apply size_non_empty_iff. set_solver.
Qed.

#[export] Hint Resolve new_wf Add_wf Remove_wf : unison.

(** ** Sequences of calls *)

Inductive tracker_op := TAdd (id : Z) | TRemove (id : Z) | THasAny | TContains (id : Z).

Definition tracker_call (rt : readerTracker) (o : tracker_op) : readerTracker * option bool :=
  match o with
  | TAdd id => (Add rt id, None)
  | TRemove id => let '(rt', b) := Remove rt id in (rt', Some b)
  | THasAny => (rt, Some (HasAny rt))
  | TContains id => (rt, Some (Contains rt id))
  end.

(** The same calls on one plain set. *)
Definition set_call (s : gset Z) (o : tracker_op) : gset Z * option bool :=
  match o with
  | TAdd id => ({[id]} ∪ s, None)
  | TRemove id => (s ∖ {[id]}, Some (bool_decide (id ∈ s)))
  | THasAny => (s, Some (bool_decide (s <> ∅)))
  | TContains id => (s, Some (bool_decide (id ∈ s)))
  end.

Fixpoint run_calls {S} (call : S -> tracker_op -> S * option bool) (s : S) (ops : list tracker_op)
  : S * list (option bool) :=
  match ops with
  | [] => (s, [])
  | o :: rest =>
      let '(s1, r) := call s o in
      let '(s2, rs) := run_calls call s1 rest in (s2, r :: rs)
  end.

Lemma tracker_call_sim rt o :
  wf rt -> wf (tracker_call rt o).1 /\
    (ids (tracker_call rt o).1, (tracker_call rt o).2) = set_call (ids rt) o.
Proof.
  intros Hwf. destruct o as [id|id| |id]; cbn [tracker_call set_call].
  - split; [by apply Add_wf|]. cbn [fst snd]. by rewrite Add_ids.
  - pose proof (Remove_wf rt id Hwf) as Hw. pose proof (Remove_ids rt id Hwf) as Hi.
    pose proof (Remove_found rt id Hwf) as Hf. destruct (Remove rt id) as [rt' b]. cbn [fst snd] in *.
    by rewrite Hi, Hf.
  - by rewrite HasAny_spec.
  - by rewrite Contains_spec.
Qed.

(** The 32 sharded maps of the reader tracker behave as one set: every
    sequence of [Add], [Remove], [HasAny] and [Contains] calls on a new tracker
    answers what the same calls answer on a plain set. *)
Theorem tracker_refines_set ops :
  (run_calls tracker_call newReaderTracker ops).2 = (run_calls set_call ∅ ops).2 /\
  ids (run_calls tracker_call newReaderTracker ops).1 = (run_calls set_call ∅ ops).1.
Proof.
  rewrite <- new_ids. generalize new_wf. generalize newReaderTracker.
  induction ops as [|o ops IH]; intros rt Hwf; [done|]. cbn [run_calls].
  destruct (tracker_call_sim rt o Hwf) as [Hw Heq]. rewrite <- Heq.
  destruct (tracker_call rt o) as [rt1 r]. cbn [fst snd] in *.
  destruct (IH rt1 Hw) as [H1 H2].
  destruct (run_calls tracker_call rt1 ops), (run_calls set_call (ids rt1) ops). cbn in *. by subst.
Qed.
