(* ===== verification/Segment.v ===== *)
(** One write-ahead-log segment (src/pkg/walfs/segment.go): the model.

    A [Segment] is the Go struct: the memory-mapped bytes, the write offset,
    the life-cycle flags and the reader bookkeeping.  Every method is a
    function on it.  What the operating system or the mmap library decides
    (the clock, whether a flush or an unmap fails) is an argument, an [IO]
    record; the theorems quantify over it.  A method holds the segment's
    mutexes for its whole body, so a call is one atomic step. *)

From stdpp Require Import prelude list numbers gmap.
From Stdlib Require Import ZArith Lia.
From S2P Require Import Prelude Bytes Crc32 ReaderTracker.

(** ** Errors *)

Inductive error :=
(* sentinels of segment.go *)
| ErrClosed | ErrInvalidCRC | ErrCorruptHeader | ErrIncompleteChunk
| ErrSegmentSealed | ErrSegmentReaderClosed | ErrNoNewData | ErrSegmentFull
(* sentinels of walog.go *)
| ErrSegmentNotFound | ErrOffsetOutOfBounds | ErrOffsetBeforeHeader
| ErrFsync | ErrRecordTooLarge
(* io *)
| EOF | ErrUnexpectedEOF
(* errors made in place with errors.New or fmt.Errorf *)
| ErrWriteExceedsSegment | ErrExceedsCapacity | ErrHeaderCRCMismatch
| ErrSegmentSizeLimit | ErrNoActiveSegment | ErrUnexpectedState
(* errors of the operating system and the mmap library *)
| ErrFlush | ErrFdSync | ErrUnmap | ErrFdClose
| ErrStat | ErrOpenFile | ErrTruncate | ErrMmap | ErrSyncDir.

#[global] Instance error_eq_dec : EqDecision error.
Proof. solve_decision. Defined.

(** ** Constants *)

Definition trailerMarker : bytes :=
  [Byte.xde; Byte.xad; Byte.xbe; Byte.xef; Byte.xfe; Byte.xed; Byte.xfa; Byte.xce].
Definition trailerWord : Z := 0xCEFAEDFEEFBEADDE.

(** [FlagActive] is [1 << iota] in the fourth position of its block, so 8. *)
Definition FlagActive : Z := Z.shiftl 1 3.
Definition FlagSealed : Z := Z.shiftl 1 1.

Definition maxSegmentSize : Z := 4 * 1024 * 1024 * 1024.
Definition segmentHeaderSize : Z := 64.
Definition segmentMagicNumber : Z := 0x5557414C.
Definition segmentHeaderVersion : Z := 1.
Definition recordHeaderSize : Z := 8.
Definition segmentSize : Z := 16 * 1024 * 1024.
Definition recordTrailerMarkerSize : Z := 8.
Definition alignSize : Z := 8.
Definition alignMask : Z := alignSize - 1.

Inductive MsyncOption := MsyncNone | MsyncOnWrite.
Inductive SegState := StateOpen | StateClosing.

(** ** The segment header *)

Record SegmentHeader := mkSegmentHeader {
  Magic : Z; Version : Z; CreatedAt : Z; LastModifiedAt : Z;
  WriteOffsetField : Z; EntryCount : Z; Flags : Z
}.

Definition crcTable : list Z := crc32.CastagnoliTable.

Definition decodeSegmentHeader (buf : bytes) : outcome (result error SegmentHeader) :=
  if blen buf <? 64 then Ret (Err ErrUnexpectedEOF) else
  crc ← get_u32 buf 56;
  covered ← slice buf 0 56;
  if negb (crc =? crc32.Checksum covered crcTable) then Ret (Err ErrHeaderCRCMismatch) else
  magic ← get_u32 buf 0;
  version ← get_u32 buf 4;
  createdAt ← get_u64 buf 8;
  lastModifiedAt ← get_u64 buf 16;
  writeOffset ← get_u64 buf 24;
  entryCount ← get_u64 buf 32;
  flags ← get_u32 buf 40;
  Ret (Ok (mkSegmentHeader magic version (i64 createdAt) (i64 lastModifiedAt)
             (i64 writeOffset) (i64 entryCount) flags)).

Definition IsSealed (flags : Z) : bool := negb (Z.land flags FlagSealed =? 0).
Definition IsActive (flags : Z) : bool := negb (Z.land flags FlagActive =? 0).

(** ** Record positions *)

Record RecordPosition := mkPos { SegmentID : Z; Offset : Z }.
Definition NilRecordPosition : RecordPosition := mkPos 0 0.

#[global] Instance RecordPosition_eq_dec : EqDecision RecordPosition.
Proof. solve_decision. Defined.

Definition Encode (rp : RecordPosition) : bytes :=
  le_bytes 4 (SegmentID rp) ++ le_bytes 8 (u64 (Offset rp)).

(** The buffer is reused when it is long enough, so the result aliases it; its
    old contents are overwritten completely. *)
Definition EncodeRecordPositionTo (pos : RecordPosition) (buf : bytes) : outcome bytes :=
  let buf := if blen buf <? 12 then replicate 12 Byte.x00 else take 12 buf in
  buf ← put_u32 buf 0 (SegmentID pos);
  put_u64 buf 4 (u64 (Offset pos)).

Definition IsZero (rp : RecordPosition) : bool :=
  (SegmentID rp =? 0) && (Offset rp =? 0).

Definition DecodeRecordPosition (data : bytes) : outcome (result error RecordPosition) :=
  if blen data <? 12 then Ret (Err ErrUnexpectedEOF) else
  segID ← get_u32 data 0;
  offset ← get_u64 data 4;
  Ret (Ok (mkPos segID (i64 offset))).

(** ** The segment *)

Record Segment := mkSegment {
  id : Z;
  mmapData : bytes;
  mmapSize : Z;
  writeOffset : Z;
  closed : bool;
  header : bytes;
  refCount : Z;
  state : SegState;
  markedForDeletion : bool;
  readerIDCounter : Z;
  activeReaders : readerTracker;
  isSealed : bool;
  inMemorySealed : bool;
  syncOption : MsyncOption;
  (** whether the directory entry [seg.path] exists *)
  onDisk : bool
}.

(** What the outside world answers during one call. *)
Record IO := mkIO {
  io_now : Z;           (* time.Now().UnixNano() *)
  io_flush : bool;      (* mmap Flush succeeds *)
  io_fsync : bool;      (* fd.Sync succeeds *)
  io_unmap : bool;      (* mmap Unmap succeeds *)
  io_fdclose : bool;    (* fd.Close succeeds *)
  io_remove : bool;     (* os.Remove succeeds *)
  io_stat : bool;       (* os.Stat answers (present or absent) *)
  io_open : bool;       (* os.OpenFile succeeds *)
  io_truncate : bool;   (* fd.Truncate succeeds *)
  io_mmap : bool;       (* mmap.Map succeeds *)
  io_syncdir : bool     (* SyncDir succeeds *)
}.

(** Every call succeeds, at time [now]. *)
Definition okIO (now : Z) : IO :=
  mkIO now true true true true true true true true true true.

(** Field updates. *)
Definition set_mmapData (v : bytes) (s : Segment) : Segment :=
  mkSegment (id s) v (mmapSize s) (writeOffset s) (closed s) (header s)
    (refCount s) (state s) (markedForDeletion s) (readerIDCounter s)
    (activeReaders s) (isSealed s) (inMemorySealed s) (syncOption s) (onDisk
    s).
Definition set_mmapSize (v : Z) (s : Segment) : Segment :=
  mkSegment (id s) (mmapData s) v (writeOffset s) (closed s) (header s)
    (refCount s) (state s) (markedForDeletion s) (readerIDCounter s)
    (activeReaders s) (isSealed s) (inMemorySealed s) (syncOption s) (onDisk
    s).
Definition set_writeOffset (v : Z) (s : Segment) : Segment :=
  mkSegment (id s) (mmapData s) (mmapSize s) v (closed s) (header s)
    (refCount s) (state s) (markedForDeletion s) (readerIDCounter s)
    (activeReaders s) (isSealed s) (inMemorySealed s) (syncOption s) (onDisk
    s).
Definition set_closed (v : bool) (s : Segment) : Segment :=
  mkSegment (id s) (mmapData s) (mmapSize s) (writeOffset s) v (header s)
    (refCount s) (state s) (markedForDeletion s) (readerIDCounter s)
    (activeReaders s) (isSealed s) (inMemorySealed s) (syncOption s) (onDisk
    s).
Definition set_header (v : bytes) (s : Segment) : Segment :=
  mkSegment (id s) (mmapData s) (mmapSize s) (writeOffset s) (closed s) v
    (refCount s) (state s) (markedForDeletion s) (readerIDCounter s)
    (activeReaders s) (isSealed s) (inMemorySealed s) (syncOption s) (onDisk
    s).
Definition set_refCount (v : Z) (s : Segment) : Segment :=
  mkSegment (id s) (mmapData s) (mmapSize s) (writeOffset s) (closed s)
    (header s) v (state s) (markedForDeletion s) (readerIDCounter s)
    (activeReaders s) (isSealed s) (inMemorySealed s) (syncOption s) (onDisk
    s).
Definition set_state (v : SegState) (s : Segment) : Segment :=
  mkSegment (id s) (mmapData s) (mmapSize s) (writeOffset s) (closed s)
    (header s) (refCount s) v (markedForDeletion s) (readerIDCounter s)
    (activeReaders s) (isSealed s) (inMemorySealed s) (syncOption s) (onDisk
    s).
Definition set_markedForDeletion (v : bool) (s : Segment) : Segment :=
  mkSegment (id s) (mmapData s) (mmapSize s) (writeOffset s) (closed s)
    (header s) (refCount s) (state s) v (readerIDCounter s) (activeReaders
    s) (isSealed s) (inMemorySealed s) (syncOption s) (onDisk s).
Definition set_readerIDCounter (v : Z) (s : Segment) : Segment :=
  mkSegment (id s) (mmapData s) (mmapSize s) (writeOffset s) (closed s)
    (header s) (refCount s) (state s) (markedForDeletion s) v (activeReaders
    s) (isSealed s) (inMemorySealed s) (syncOption s) (onDisk s).
Definition set_activeReaders (v : readerTracker) (s : Segment) : Segment :=
  mkSegment (id s) (mmapData s) (mmapSize s) (writeOffset s) (closed s)
    (header s) (refCount s) (state s) (markedForDeletion s) (readerIDCounter
    s) v (isSealed s) (inMemorySealed s) (syncOption s) (onDisk s).
Definition set_isSealed (v : bool) (s : Segment) : Segment :=
  mkSegment (id s) (mmapData s) (mmapSize s) (writeOffset s) (closed s)
    (header s) (refCount s) (state s) (markedForDeletion s) (readerIDCounter
    s) (activeReaders s) v (inMemorySealed s) (syncOption s) (onDisk s).
Definition set_inMemorySealed (v : bool) (s : Segment) : Segment :=
  mkSegment (id s) (mmapData s) (mmapSize s) (writeOffset s) (closed s)
    (header s) (refCount s) (state s) (markedForDeletion s) (readerIDCounter
    s) (activeReaders s) (isSealed s) v (syncOption s) (onDisk s).
Definition set_syncOption (v : MsyncOption) (s : Segment) : Segment :=
  mkSegment (id s) (mmapData s) (mmapSize s) (writeOffset s) (closed s)
    (header s) (refCount s) (state s) (markedForDeletion s) (readerIDCounter
    s) (activeReaders s) (isSealed s) (inMemorySealed s) v (onDisk s).
Definition set_onDisk (v : bool) (s : Segment) : Segment :=
  mkSegment (id s) (mmapData s) (mmapSize s) (writeOffset s) (closed s)
    (header s) (refCount s) (state s) (markedForDeletion s) (readerIDCounter
    s) (activeReaders s) (isSealed s) (inMemorySealed s) (syncOption s) v.

(** ** Alignment and checksums *)

Definition alignUp (n : Z) : Z := Z.land (n + alignMask) (Z.lnot alignMask).

Definition crc32Checksum (header data : bytes) : Z :=
  let sum := crc32.Checksum header crcTable in
  crc32.Update sum crcTable data.

(** Recompute the checksum of the first 56 header bytes and store it. *)
Definition put_header_crc (d : bytes) : outcome bytes :=
  covered ← slice d 0 56;
  put_u32 d 56 (crc32.Checksum covered crcTable).

Definition writeInitialMetadata (io : IO) (d : bytes) : outcome bytes :=
  d ← put_u32 d 0 segmentMagicNumber;
  d ← put_u32 d 4 segmentHeaderVersion;
  let now := u64 (io_now io) in
  d ← put_u64 d 8 now;
  d ← put_u64 d 16 now;
  d ← put_u64 d 24 segmentHeaderSize;
  d ← put_u64 d 32 0;
  d ← put_u32 d 40 FlagActive;
  put_header_crc d.

(** ** Opening *)

(** The scan that finds the end of the valid records.  [length] is a uint32,
    so the record size is computed modulo 2^32 as in the source. *)
Fixpoint scan_loop (fuel : nat) (size : Z) (d : bytes) (offset : Z) : outcome Z :=
  match fuel with
  | O => NoFuel
  | S fuel' =>
      if negb (offset + recordHeaderSize <=? size) then Ret offset else
      let offset := alignUp offset in
      if size <? offset + recordHeaderSize then Ret offset else
      header ← slice d offset (offset + recordHeaderSize);
      length ← get_u32 header 4;
      let entrySize :=
        alignUp (u32 (recordHeaderSize + length + recordTrailerMarkerSize)) in
      if size <? offset + entrySize then Ret offset else
      data ← slice d (offset + recordHeaderSize) (offset + recordHeaderSize + length);
      trailer ← slice d (offset + recordHeaderSize + length)
                  (offset + recordHeaderSize + length + recordTrailerMarkerSize);
      savedSum ← get_u32 header 0;
      sumInput ← slice header 4 8;
      let computedSum := crc32Checksum sumInput data in
      if (savedSum =? 0) && (length =? 0) then Ret offset else
      if (savedSum =? 0) || negb (savedSum =? computedSum)
         || negb (bool_decide (trailer = trailerMarker)) then Ret offset else
      scan_loop fuel' size d (offset + entrySize)
  end.

(** One loop turn per record; [scan_terminates] shows that this fuel is enough. *)
Definition scan_fuel (d : bytes) : nat := S (length d).

Definition scanForLastOffset (seg : Segment) (d : bytes) : outcome Z :=
  scan_loop (scan_fuel d) (mmapSize seg) d segmentHeaderSize.

(** [fd.Truncate(size)]: cut, or extend with zero bytes. *)
Definition truncate_file (size : Z) (content : bytes) : bytes :=
  let n := Z.to_nat size in
  take n content ++ replicate (n - length content) Byte.x00.

(** [os.OpenFile], [Truncate] and [mmap.Map] on the file with the given
    contents: the mapped bytes, and what the file holds afterwards. *)
Definition prepareSegmentFile (io : IO) (seg : Segment) (file : option bytes)
  : option bytes * result error bytes :=
  if negb (io_open io) then (file, Err ErrOpenFile) else
  let content := default [] file in
  if negb (io_truncate io) || (mmapSize seg <? 0) then (Some content, Err ErrTruncate) else
  let d := truncate_file (mmapSize seg) content in
  if negb (io_mmap io) then (Some d, Err ErrMmap) else
  (Some d, Ok d).

Definition isNewSegment (io : IO) (file : option bytes) : result error bool :=
  match file with
  | None => if io_stat io then Ok true else Err ErrStat
  | Some _ => if io_stat io then Ok false else Err ErrStat
  end.

(** Functional options. *)
Definition WithSyncOption (opt : MsyncOption) (s : Segment) : Segment := set_syncOption opt s.
Definition WithSegmentSize (size : Z) (s : Segment) : Segment := set_mmapSize size s.

(** The literal [&Segment{...}] before the options run. *)
Definition blankSegment (segID : Z) : Segment :=
  mkSegment segID [] segmentSize 0 false (replicate 8 Byte.x00) 0 StateOpen false 0
    newReaderTracker false false MsyncNone false.

Definition OpenSegmentFile (io : IO) (file : option bytes) (segID : Z)
    (opts : list (Segment -> Segment)) : outcome (option bytes * result error Segment) :=
  match isNewSegment io file with
  | Err e => Ret (file, Err e)
  | Ok isNew =>
      let s := foldl (fun s opt => opt s) (blankSegment segID) opts in
      if maxSegmentSize <? mmapSize s then Ret (file, Err ErrSegmentSizeLimit) else
      match prepareSegmentFile io s file with
      | (file', Err e) => Ret (file', Err e)
      | (_, Ok d) =>
          if isNew then
            d ← writeInitialMetadata io d;
            let s := set_onDisk true (set_writeOffset segmentHeaderSize (set_mmapData d s)) in
            Ret (Some d, Ok s)
          else
            hdr ← slice d 0 segmentHeaderSize;
            meta ← decodeSegmentHeader hdr;
            match meta with
            | Err e => Ret (Some d, Err e)
            | Ok meta =>
                let s := set_onDisk true (set_mmapData d s) in
                if IsSealed (Flags meta) then
                  Ret (Some d, Ok (set_writeOffset (WriteOffsetField meta) (set_isSealed true s)))
                else
                  offset ← scanForLastOffset s d;
                  Ret (Some d, Ok (set_writeOffset offset s))
            end
      end
  end.

(** ** Sealing *)

Definition SealSegment (io : IO) (seg : Segment) : outcome (Segment * option error) :=
  if closed seg then Ret (seg, Some ErrClosed) else
  d ← put_u64 (mmapData seg) 16 (u64 (io_now io));
  d ← put_u64 d 24 (u64 (writeOffset seg));
  flags ← get_u32 d 40;
  let flags := Z.ldiff flags FlagActive in
  let flags := Z.lor flags FlagSealed in
  d ← put_u32 d 40 flags;
  d ← put_header_crc d;
  Ret (set_isSealed true (set_mmapData d seg), None).

Definition MarkSealedInMemory (seg : Segment) : Segment := set_inMemorySealed true seg.
Definition IsInMemorySealed (seg : Segment) : bool := inMemorySealed seg.

(** ** Writing *)

(** [for i := lo; i < lo+n; i++ { d[i] = 0 }]. *)
Fixpoint zero_loop (n : nat) (i : Z) (d : bytes) : outcome bytes :=
  match n with
  | O => Ret d
  | S n' => d ← set_index d i Byte.x00; zero_loop n' (i + 1) d
  end.

Definition rawSize (dataSize : Z) : Z :=
  recordHeaderSize + dataSize + recordTrailerMarkerSize.
Definition entrySize (dataSize : Z) : Z := alignUp (rawSize dataSize).

(** Header, payload, trailer and padding of one record at [offset]; the
    scratch header buffer [h] of the segment is overwritten. *)
Definition write_record (h d : bytes) (offset : Z) (data : bytes) : outcome (bytes * bytes) :=
  let dataSize := blen data in
  h ← put_u32 h 4 (u32 (blen data));
  sumInput ← slice h 4 (blen h);
  h ← put_u32 h 0 (crc32Checksum sumInput data);
  d ← copy_at d offset h;
  d ← copy_at d (offset + recordHeaderSize) data;
  d ← copy_at d (offset + recordHeaderSize + dataSize) trailerMarker;
  d ← zero_loop (Z.to_nat (entrySize dataSize - rawSize dataSize))
        (offset + rawSize dataSize) d;
  Ret (h, d).

(** The header fields after [n] more records, [newOffset] being the end.
    Only the low 32 bits of the offset field are written. *)
Definition update_metadata (io : IO) (d : bytes) (newOffset n : Z) : outcome bytes :=
  d ← put_u32 d 24 (u32 newOffset);
  prevCount ← get_u64 d 32;
  d ← put_u64 d 32 (u64 (prevCount + n));
  d ← put_u64 d 16 (u64 (io_now io));
  put_header_crc d.

Definition Write (io : IO) (seg : Segment) (data : bytes)
  : outcome (Segment * result error RecordPosition) :=
  if closed seg || (if state seg is StateOpen then false else true)
  then Ret (seg, Err ErrClosed) else
  flags ← get_u32 (mmapData seg) 40;
  if IsSealed flags then Ret (seg, Err ErrSegmentSealed) else
  let offset := writeOffset seg in
  let entrySize := entrySize (blen data) in
  if mmapSize seg <? offset + entrySize then Ret (seg, Err ErrWriteExceedsSegment) else
  '(h, d) ← write_record (header seg) (mmapData seg) offset data;
  let newOffset := offset + entrySize in
  d ← update_metadata io d newOffset 1;
  let seg := set_writeOffset newOffset (set_mmapData d (set_header h seg)) in
  if (if syncOption seg is MsyncOnWrite then true else false) && negb (io_flush io)
  then Ret (seg, Err ErrFlush)
  else Ret (seg, Ok (mkPos (id seg) offset)).

(** First loop of [WriteBatch]: how many records fit, and where they go. *)
Fixpoint plan_batch (segID size : Z) (currentOffset : Z) (i : nat) (records : list bytes)
    (positions : list RecordPosition) (recordsToWrite : nat)
  : result error (list RecordPosition * nat) :=
  match records with
  | [] => Ok (positions, recordsToWrite)
  | data :: rest =>
      let entrySize := entrySize (blen data) in
      if size - segmentHeaderSize <? entrySize then Err ErrExceedsCapacity else
      if size <? currentOffset + entrySize then Ok (positions, i) else
      plan_batch segID size (currentOffset + entrySize) (S i) rest
        (positions ++ [mkPos segID currentOffset]) (S i)
  end.

(** Second loop: write the records one after the other. *)
Fixpoint write_records (h d : bytes) (currentOffset : Z) (records : list bytes)
  : outcome (bytes * bytes * Z) :=
  match records with
  | [] => Ret (h, d, currentOffset)
  | data :: rest =>
      '(h, d) ← write_record h d currentOffset data;
      write_records h d (currentOffset + entrySize (blen data)) rest
  end.

Definition WriteBatch (io : IO) (seg : Segment) (records : list bytes)
  : outcome (Segment * (list RecordPosition * nat * option error)) :=
  if bool_decide (records = []) then Ret (seg, ([], O, None)) else
  if closed seg || (if state seg is StateOpen then false else true)
  then Ret (seg, ([], O, Some ErrClosed)) else
  flags ← get_u32 (mmapData seg) 40;
  if IsSealed flags then Ret (seg, ([], O, Some ErrSegmentSealed)) else
  let startOffset := writeOffset seg in
  match plan_batch (id seg) (mmapSize seg) startOffset 0 records [] 0 with
  | Err e => Ret (seg, ([], O, Some e))
  | Ok (positions, recordsToWrite) =>
      if bool_decide (recordsToWrite = O) then Ret (seg, ([], O, Some ErrSegmentFull)) else
      '(h, d, newOffset) ←
        write_records (header seg) (mmapData seg) startOffset (take recordsToWrite records);
      d ← update_metadata io d newOffset (Z.of_nat recordsToWrite);
      let seg := set_writeOffset newOffset (set_mmapData d (set_header h seg)) in
      if (if syncOption seg is MsyncOnWrite then true else false) && negb (io_flush io)
      then Ret (seg, (positions, recordsToWrite, Some ErrFlush))
      else Ret (seg, (positions, recordsToWrite,
                      if (recordsToWrite <? length records)%nat then Some ErrSegmentFull else None))
  end.

(** ** Reading *)

Definition WriteOffset (seg : Segment) : Z := writeOffset seg.

Definition Read (seg : Segment) (offset : Z)
  : outcome (result error (bytes * RecordPosition)) :=
  if closed seg then Ret (Err ErrClosed) else
  if mmapSize seg <? i64 (offset + recordHeaderSize) then Ret (Err EOF) else
  header ← slice (mmapData seg) offset (offset + recordHeaderSize);
  length ← get_u32 header 4;
  let dataSize := length in
  let entrySize := alignUp (recordHeaderSize + dataSize + recordTrailerMarkerSize) in
  if u32 (WriteOffset seg - offset - recordHeaderSize) <? length
  then Ret (Err ErrCorruptHeader) else
  if WriteOffset seg <? offset + entrySize then Ret (Err EOF) else
  let trailerOffset := offset + recordHeaderSize + dataSize in
  let end_ := trailerOffset + recordTrailerMarkerSize in
  if mmapSize seg <? end_ then Ret (Err ErrIncompleteChunk) else
  word ← get_u64 (mmapData seg) trailerOffset;
  if negb (word =? trailerWord) then Ret (Err ErrIncompleteChunk) else
  data ← slice (mmapData seg) (offset + recordHeaderSize) (offset + recordHeaderSize + dataSize);
  let next := mkPos (id seg) (offset + entrySize) in
  if isSealed seg && negb (inMemorySealed seg) then
    savedSum ← get_u32 header 0;
    sumInput ← slice header 4 8;
    if negb (savedSum =? crc32Checksum sumInput data) then Ret (Err ErrInvalidCRC)
    else Ret (Ok (data, next))
  else Ret (Ok (data, next)).

(** ** Syncing and sizes *)

Definition Sync (io : IO) (seg : Segment) : option error :=
  if closed seg then Some ErrClosed else
  if negb (io_flush io) then Some ErrFlush else
  if negb (io_fsync io) then Some ErrFdSync else None.

Definition MSync (io : IO) (seg : Segment) : option error :=
  if closed seg then Some ErrClosed else
  if negb (io_flush io) then Some ErrFlush else None.

Definition WillExceed (seg : Segment) (dataSize : Z) : bool :=
  mmapSize seg <? writeOffset seg + entrySize dataSize.

Definition HasActiveReaders (seg : Segment) : bool := HasAny (activeReaders seg).

(** The header accessors panic on a header that does not decode. *)
Definition decoded_header (seg : Segment) : outcome SegmentHeader :=
  hdr ← slice (mmapData seg) 0 segmentHeaderSize;
  meta ← decodeSegmentHeader hdr;
  match meta with Ok m => Ret m | Err _ => Panic end.

Definition GetLastModifiedAt (seg : Segment) : outcome Z :=
  m ← decoded_header seg; Ret (LastModifiedAt m).
Definition GetEntryCount (seg : Segment) : outcome Z :=
  m ← decoded_header seg; Ret (EntryCount m).
Definition GetFlags (seg : Segment) : outcome Z :=
  m ← decoded_header seg; Ret (Flags m).
Definition GetSegmentSize (seg : Segment) : Z := mmapSize seg.

(** ** Closing, references and deletion *)

(** [Close] waits on a condition variable while readers hold references; a
    caller that has to wait is at [CloseWaiting], with the state already
    switched to closing. *)
Inductive close_outcome :=
| CloseReturned (seg : Segment) (err : option error)
| CloseWaiting (seg : Segment).

(** The part of [Close] after the wait.  A failed sync returns before
    [closed] is set, although the deferred function unmaps the file. *)
Definition close_finish (io : IO) (seg : Segment) : close_outcome :=
  match Sync io seg with
  | Some e => CloseReturned (set_mmapData [] seg) (Some e)
  | None =>
      let seg := set_mmapData [] (set_closed true seg) in
      if negb (io_unmap io) then CloseReturned seg (Some ErrUnmap) else
      if negb (io_fdclose io) then CloseReturned seg (Some ErrFdClose) else
      CloseReturned seg None
  end.

Definition Close (io : IO) (seg : Segment) : close_outcome :=
  match state seg with
  | StateClosing => CloseReturned seg None
  | StateOpen =>
      let seg := set_state StateClosing seg in
      if 0 <? refCount seg then CloseWaiting seg else close_finish io seg
  end.

(** [cleanup] logs errors and goes on; it removes the file. *)
Definition cleanup (io : IO) (seg : Segment) : Segment :=
  let seg := match Close io seg with
             | CloseReturned s _ => s
             | CloseWaiting s => s
             end in
  if io_remove io then set_onDisk false seg else seg.

Definition incrRef (seg : Segment) : Segment := set_refCount (refCount seg + 1) seg.

Definition releaseRef (io : IO) (seg : Segment) : Segment :=
  let seg := set_refCount (refCount seg - 1) seg in
  if (refCount seg =? 0) && markedForDeletion seg then cleanup io seg else seg.

Definition decrRef (io : IO) (rid : Z) (seg : Segment) : Segment :=
  let '(readers, ok) := Remove (activeReaders seg) rid in
  let seg := set_activeReaders readers seg in
  if ok then releaseRef io seg else seg.

Definition MarkForDeletion (io : IO) (seg : Segment) : Segment :=
  if markedForDeletion seg then seg else
  let seg := set_markedForDeletion true seg in
  if refCount seg =? 0 then cleanup io seg else seg.

(** ** Segment readers *)

Record SegmentReader := mkSegmentReader {
  reader_id : Z;
  readOffset : Z;
  lastRecordOffset : Z;
  reader_closed : bool
}.

(** [None] is the nil reader.  The garbage-collector hook registered here
    calls [decrRef] with the same id some time later. *)
Definition NewReader (seg : Segment) : option (Segment * SegmentReader) :=
  if markedForDeletion seg || (if state seg is StateOpen then false else true) then None else
  let rid := u64 (readerIDCounter seg + 1) in
  let seg := set_readerIDCounter rid seg in
  let seg := set_activeReaders (Add (activeReaders seg) rid) seg in
  let seg := incrRef seg in
  Some (seg, mkSegmentReader rid segmentHeaderSize 0 false).

Definition reader_Close (io : IO) (seg : Segment) (r : SegmentReader) : Segment * SegmentReader :=
  if reader_closed r then (seg, r) else
  (decrRef io (reader_id r) seg,
   mkSegmentReader (reader_id r) (readOffset r) (lastRecordOffset r) true).

Definition reader_Next (seg : Segment) (r : SegmentReader)
  : outcome (SegmentReader * result error (bytes * RecordPosition)) :=
  if reader_closed r then Ret (r, Err ErrSegmentReaderClosed) else
  let isSealed := isSealed seg in
  let writeOffset := WriteOffset seg in
  if writeOffset <=? readOffset r then
    Ret (r, Err (if isSealed then EOF else ErrNoNewData))
  else
  let currentOffset := readOffset r in
  res ← Read seg (readOffset r);
  match res with
  | Err e =>
      if negb isSealed && bool_decide (e = EOF) then Ret (r, Err ErrNoNewData)
      else Ret (r, Err e)
  | Ok (data, next) =>
      Ret (mkSegmentReader (reader_id r) (Offset next) currentOffset (reader_closed r),
           Ok (data, mkPos (id seg) currentOffset))
  end.

Definition LastRecordPosition (seg : Segment) (r : SegmentReader) : RecordPosition :=
  mkPos (id seg) (lastRecordOffset r).
