(* ===== verification/SegmentFacts.v ===== *)
(** One write-ahead-log segment: the theorems.

    The abstract view of a segment is the list of its records; [seg_repr]
    relates it to the bytes.  The file proves the layout lemmas (header
    fields, one record) and from them that [Write], [WriteBatch], [Read],
    sealing and the recovery scan implement the list operations append,
    lookup and length. *)

From stdpp Require Import prelude list numbers gmap.
From Stdlib Require Import ZArith Lia.
From S2P Require Import Prelude Bytes Crc32 ReaderTracker Segment.

(** ** Alignment *)

Lemma alignUp_div n : alignUp n = 8 * ((n + 7) / 8).
Proof.
  unfold alignUp, alignMask, alignSize. change (8 - 1) with (Z.ones 3).
  rewrite <- Z.ldiff_land, Z.ldiff_ones_r by lia.
  rewrite Z.shiftl_mul_pow2, Z.shiftr_div_pow2 by lia.
  change (Z.ones 3) with 7. change (2 ^ 3) with 8. lia.
Qed.

Lemma alignUp_bounds n : n <= alignUp n < n + 8.
Proof. rewrite alignUp_div. pose proof (Z.div_mod (n + 7) 8). pose proof (Z.mod_pos_bound (n + 7) 8). lia. Qed.

Lemma alignUp_multiple n : (8 | alignUp n).
Proof. rewrite alignUp_div. apply Z.divide_factor_l. Qed.

Lemma alignUp_id n : (8 | n) -> alignUp n = n.
Proof.
  intros [k ->]. rewrite alignUp_div.
  replace (k * 8 + 7) with (7 + k * 8) by lia.
  rewrite Z.div_add by lia. change (7 / 8) with 0. lia.
Qed.

Lemma alignUp_add_16 n : alignUp (8 + n + 8) = alignUp n + 16.
Proof.
  rewrite !alignUp_div. replace (8 + n + 8 + 7) with (n + 7 + 2 * 8) by lia.
  rewrite Z.div_add; lia.
Qed.

Lemma entrySize_bounds n : 0 <= n -> 16 + n <= entrySize n < 24 + n.
Proof.
  intros. unfold entrySize, rawSize, recordHeaderSize, recordTrailerMarkerSize.
  pose proof (alignUp_bounds (8 + n + 8)). lia.
Qed.

Lemma entrySize_multiple n : (8 | entrySize n).
Proof. apply alignUp_multiple. Qed.

(** ** Reading and updating fields of a concatenation *)

Lemma le_bytes_app n m z :
  le_bytes (n + m) z = le_bytes n z ++ le_bytes m (z / 256 ^ Z.of_nat n).
Proof.
  revert z. induction n as [|n IH]; intros z; cbn [Nat.add le_bytes app].
  - by rewrite Z.div_1_r.
  - rewrite IH, Nat2Z.inj_succ, Z.pow_succ_r, Z.div_div by lia. done.
Qed.

Lemma slice_skip {A} (a r : list A) lo hi :
  blen a <= lo -> slice (a ++ r) lo hi = slice r (lo - blen a) (hi - blen a).
Proof.
  intros H. unfold slice. rewrite blen_app. pose proof (blen_nonneg a).
  destruct (decide (lo <= hi /\ hi <= blen a + blen r)) as [[H1 H2]|Hn].
  - if_true.
    if_true.
    replace (hi - blen a - (lo - blen a)) with (hi - lo) by lia.
    replace (Z.to_nat lo) with (length a + Z.to_nat (lo - blen a))%nat by (unfold blen in *; lia).
    by rewrite <- drop_drop, drop_app_length.
  - if_false.
    by if_false.
Qed.

Lemma slice_app_l {A} (a r : list A) lo hi :
  hi <= blen a -> slice (a ++ r) lo hi = slice a lo hi.
Proof.
  intros H. unfold slice. rewrite blen_app.
  pose proof (blen_nonneg r) as Hr. pose proof (blen_nonneg a) as Ha.
  destruct (decide (0 <= lo /\ lo <= hi)) as [[H1 H2]|Hn].
  - if_true.
    if_true.
    f_equal. rewrite !take_drop_commute. f_equal. apply take_app_le. unfold blen in *. lia.
  - if_false.
    by if_false.
Qed.

Lemma slice_all {A} (a : list A) hi : hi = blen a -> slice a 0 hi = Ret a.
Proof.
  intros ->. unfold slice. pose proof (blen_nonneg a).
  if_true.
  by rewrite Z.sub_0_r, to_nat_blen, drop_0, take_ge.
Qed.

Lemma slice_head {A} (a r : list A) hi : hi = blen a -> slice (a ++ r) 0 hi = Ret a.
Proof. intros ->. rewrite slice_app_l by lia. by apply slice_all. Qed.

Lemma get_le_skip n (a r : bytes) off :
  blen a <= off -> get_le n (a ++ r) off = get_le n r (off - blen a).
Proof.
  intros H. unfold get_le. rewrite slice_skip by done. by rewrite Z.add_sub_swap.
Qed.

Lemma get_le_app_l n (a r : bytes) off :
  off + Z.of_nat n <= blen a -> get_le n (a ++ r) off = get_le n a off.
Proof. intros H. unfold get_le. by rewrite slice_app_l. Qed.

Lemma get_le_head n z (r : bytes) :
  get_le n (le_bytes n z ++ r) 0 = Ret (z mod 256 ^ Z.of_nat n).
Proof.
  unfold get_le. rewrite slice_head by (rewrite blen_le_bytes; lia).
  cbn. by rewrite le_val_le_bytes.
Qed.

Lemma put_le_skip n (a r : bytes) off v :
  blen a <= off ->
  put_le n (a ++ r) off v = (fun r' => a ++ r') <$> put_le n r (off - blen a) v.
Proof.
  intros H. unfold put_le. rewrite blen_app. pose proof (blen_nonneg a).
  destruct (decide (off + Z.of_nat n <= blen a + blen r)) as [H1|Hn].
  - if_true.
    if_true.
    cbn. f_equal. unfold splice.
    replace (Z.to_nat off) with (length a + Z.to_nat (off - blen a))%nat by (unfold blen in *; lia).
    rewrite take_app_add, <- !app_assoc. do 2 f_equal.
    by rewrite <- Nat.add_assoc, drop_app_add.
  - if_false.
    by if_false.
Qed.

Lemma put_le_app_l n (a r : bytes) off v :
  off + Z.of_nat n <= blen a ->
  put_le n (a ++ r) off v = (fun a' => a' ++ r) <$> put_le n a off v.
Proof.
  intros H. unfold put_le. rewrite blen_app.
  pose proof (blen_nonneg r) as Hr. pose proof (blen_nonneg a) as Ha.
  destruct (decide (0 <= off)) as [H1|Hn].
  - if_true.
    if_true.
    cbn. f_equal. unfold splice. rewrite length_le_bytes.
    rewrite take_app_le, drop_app_le by (unfold blen in *; lia).
    by rewrite <- !app_assoc.
  - if_false.
    by if_false.
Qed.

Lemma put_le_head n z (r : bytes) v :
  put_le n (le_bytes n z ++ r) 0 v = Ret (le_bytes n v ++ r).
Proof.
  apply (put_le_app n [] (le_bytes n z) r); [done | apply length_le_bytes].
Qed.

(** Step over the fixed-width fields in front of a constant offset. *)
Ltac skip_field :=
  first [ rewrite put_le_skip by (rewrite blen_le_bytes; lia)
        | rewrite get_le_skip by (rewrite blen_le_bytes; lia) ];
  rewrite blen_le_bytes;
  match goal with
  | |- context [?a - Z.of_nat ?n] =>
      let v := eval vm_compute in (a - Z.of_nat n) in
      change (a - Z.of_nat n) with v
  end.
Ltac at_field :=
  repeat skip_field; rewrite ?put_le_head, ?get_le_head; cbn [fmap outcome_fmap].

(** ** The header *)

Definition hdr_pre (m : SegmentHeader) (rsv : bytes) : bytes :=
  le_bytes 4 (Magic m) ++ le_bytes 4 (Version m) ++ le_bytes 8 (CreatedAt m) ++
  le_bytes 8 (LastModifiedAt m) ++ le_bytes 8 (WriteOffsetField m) ++
  le_bytes 8 (EntryCount m) ++ le_bytes 4 (Flags m) ++ rsv.

Definition header_bytes (m : SegmentHeader) (rsv pad : bytes) : bytes :=
  hdr_pre m rsv ++ le_bytes 4 (crc32.Checksum (hdr_pre m rsv) crcTable) ++ pad.

Definition i64_range (z : Z) : Prop := - 2 ^ 63 <= z < 2 ^ 63.
Definition u32_word (z : Z) : Prop := 0 <= z < 2 ^ 32.

Record wf_header (m : SegmentHeader) : Prop := {
  wf_magic : u32_word (Magic m);
  wf_version : u32_word (Version m);
  wf_created : i64_range (CreatedAt m);
  wf_modified : i64_range (LastModifiedAt m);
  wf_woff : i64_range (WriteOffsetField m);
  wf_count : i64_range (EntryCount m);
  wf_flags : u32_word (Flags m)
}.

Lemma blen_hdr_pre m rsv : blen rsv = 12 -> blen (hdr_pre m rsv) = 56.
Proof. intros. unfold hdr_pre. autorewrite with blen. lia. Qed.

Lemma blen_header_bytes m rsv pad :
  blen rsv = 12 -> blen pad = 4 -> blen (header_bytes m rsv pad) = 64.
Proof.
  intros. unfold header_bytes. autorewrite with blen. rewrite blen_hdr_pre by done. lia.
Qed.

Lemma Checksum_word (d : bytes) : u32_word (crc32.Checksum d crcTable).
Proof. apply crc32.Update_range; [apply crc32.CastagnoliTable_word | lia]. Qed.

Lemma mod_word z : u32_word z -> z mod 256 ^ Z.of_nat 4 = z.
Proof. apply Z.mod_small. Qed.
Lemma i64_mod_word z : i64_range z -> i64 (z mod 256 ^ Z.of_nat 8) = z.
Proof. apply i64_u64. Qed.

Lemma get_crc m rsv t :
  blen rsv = 12 ->
  get_u32 (hdr_pre m rsv ++ le_bytes 4 (crc32.Checksum (hdr_pre m rsv) crcTable) ++ t) 56
  = Ret (crc32.Checksum (hdr_pre m rsv) crcTable).
Proof.
  intros. unfold get_u32. rewrite get_le_skip; rewrite blen_hdr_pre by done; [|lia].
  change (56 - 56) with 0. rewrite get_le_head. by rewrite (mod_word _ (Checksum_word _)).
Qed.

(** The fields in front of the reserved bytes, with their offsets. *)
Definition header_fields (m : SegmentHeader) : list (Z * (nat * Z)) :=
  [(0, (4%nat, Magic m)); (4, (4%nat, Version m)); (8, (8%nat, CreatedAt m));
   (16, (8%nat, LastModifiedAt m)); (24, (8%nat, WriteOffsetField m));
   (32, (8%nat, EntryCount m)); (40, (4%nat, Flags m))].

Lemma get_le_field m rsv t off n v :
  (off, (n, v)) ∈ header_fields m ->
  get_le n (hdr_pre m rsv ++ t) off = Ret (v mod 256 ^ Z.of_nat n).
Proof.
  unfold hdr_pre. rewrite <- !app_assoc. unfold header_fields.
  rewrite !elem_of_cons, elem_of_nil.
  intros [[= -> -> ->]|[[= -> -> ->]|[[= -> -> ->]|[[= -> -> ->]|[[= -> -> ->]|[[= -> -> ->]|[[= -> -> ->]|[]]]]]]]]; at_field; done.
Qed.

(** A header block decodes to the header it was made from. *)
Lemma decode_header_bytes m rsv pad :
  wf_header m -> blen rsv = 12 -> blen pad = 4 ->
  decodeSegmentHeader (header_bytes m rsv pad) = Ret (Ok m).
Proof.
  intros [] Hr Hp. unfold decodeSegmentHeader.
  rewrite blen_header_bytes by done. if_false.
  unfold header_bytes. rewrite get_crc by done. cbn [mbind outcome_bind].
  rewrite slice_head by (by rewrite blen_hdr_pre). cbn [mbind outcome_bind].
  rewrite Z.eqb_refl. cbn [negb].
  unfold get_u32, get_u64.
  do 7 (erewrite get_le_field by (unfold header_fields; repeat constructor); cbn [mbind outcome_bind]).
  rewrite !mod_word, !i64_mod_word by done. by destruct m.
Qed.

(** Field updates of a header block. *)
Definition hdr_modified (v : Z) (m : SegmentHeader) : SegmentHeader :=
  mkSegmentHeader (Magic m) (Version m) (CreatedAt m) v (WriteOffsetField m) (EntryCount m) (Flags m).
Definition hdr_woff (v : Z) (m : SegmentHeader) : SegmentHeader :=
  mkSegmentHeader (Magic m) (Version m) (CreatedAt m) (LastModifiedAt m) v (EntryCount m) (Flags m).
Definition hdr_count (v : Z) (m : SegmentHeader) : SegmentHeader :=
  mkSegmentHeader (Magic m) (Version m) (CreatedAt m) (LastModifiedAt m) (WriteOffsetField m) v (Flags m).
Definition hdr_flags (v : Z) (m : SegmentHeader) : SegmentHeader :=
  mkSegmentHeader (Magic m) (Version m) (CreatedAt m) (LastModifiedAt m) (WriteOffsetField m) (EntryCount m) v.

Definition hdr_magic (v : Z) (m : SegmentHeader) : SegmentHeader :=
  mkSegmentHeader v (Version m) (CreatedAt m) (LastModifiedAt m) (WriteOffsetField m) (EntryCount m) (Flags m).
Definition hdr_version (v : Z) (m : SegmentHeader) : SegmentHeader :=
  mkSegmentHeader (Magic m) v (CreatedAt m) (LastModifiedAt m) (WriteOffsetField m) (EntryCount m) (Flags m).
Definition hdr_created (v : Z) (m : SegmentHeader) : SegmentHeader :=
  mkSegmentHeader (Magic m) (Version m) v (LastModifiedAt m) (WriteOffsetField m) (EntryCount m) (Flags m).

Lemma put_magic m rsv v :
  put_u32 (hdr_pre m rsv) 0 v = Ret (hdr_pre (hdr_magic v m) rsv).
Proof. unfold put_u32, hdr_pre. at_field. done. Qed.
Lemma put_version m rsv v :
  put_u32 (hdr_pre m rsv) 4 v = Ret (hdr_pre (hdr_version v m) rsv).
Proof. unfold put_u32, hdr_pre. at_field. done. Qed.
Lemma put_created m rsv v :
  put_u64 (hdr_pre m rsv) 8 v = Ret (hdr_pre (hdr_created v m) rsv).
Proof. unfold put_u64, hdr_pre. at_field. done. Qed.
Lemma put_modified m rsv v :
  put_u64 (hdr_pre m rsv) 16 v = Ret (hdr_pre (hdr_modified v m) rsv).
Proof. unfold put_u64, hdr_pre. at_field. done. Qed.
Lemma put_woff m rsv v :
  put_u64 (hdr_pre m rsv) 24 v = Ret (hdr_pre (hdr_woff v m) rsv).
Proof. unfold put_u64, hdr_pre. at_field. done. Qed.
Lemma put_count m rsv v :
  put_u64 (hdr_pre m rsv) 32 v = Ret (hdr_pre (hdr_count v m) rsv).
Proof. unfold put_u64, hdr_pre. at_field. done. Qed.
Lemma put_flags m rsv v :
  put_u32 (hdr_pre m rsv) 40 v = Ret (hdr_pre (hdr_flags v m) rsv).
Proof. unfold put_u32, hdr_pre. at_field. done. Qed.

(** Writing only the low half of the offset field. *)
Lemma put_woff_low m rsv v :
  0 <= WriteOffsetField m < 2 ^ 32 ->
  put_u32 (hdr_pre m rsv) 24 v = Ret (hdr_pre (hdr_woff (u32 v) m) rsv).
Proof.
  intros Hlow. unfold put_u32, hdr_pre. do 4 skip_field.
  assert (forall z, 0 <= z < 2 ^ 32 -> le_bytes 8 z = le_bytes 4 z ++ le_bytes 4 0) as Hsplit.
  { intros z Hz. change 8%nat with (4 + 4)%nat. rewrite le_bytes_app.
    by rewrite Z.div_small. }
  cbn [hdr_woff WriteOffsetField].
  rewrite (Hsplit (WriteOffsetField m)), (Hsplit (u32 v)) by auto using u32_range. rewrite <- !app_assoc.
  rewrite put_le_head. cbn [fmap outcome_fmap].
  change (u32 v) with (v mod 256 ^ Z.of_nat 4). by rewrite le_bytes_mod.
Qed.

(** Recomputing the checksum of a header block that stores the fields of [m']. *)
Lemma put_header_crc_layout m m' rsv c pad t :
  hdr_pre m rsv = hdr_pre m' rsv -> blen rsv = 12 -> blen c = 4 ->
  put_header_crc (hdr_pre m rsv ++ c ++ pad ++ t) = Ret (header_bytes m' rsv pad ++ t).
Proof.
  intros Heq Hr Hc. unfold put_header_crc, header_bytes.
  rewrite slice_head by (by rewrite blen_hdr_pre). rewrite Heq, <- !app_assoc.
  cbn [mbind outcome_bind]. apply put_le_app; [by rewrite blen_hdr_pre | unfold blen in *; lia].
Qed.

(** Project a field out of an updated header. *)
Ltac hdr_cbn :=
  cbn [Magic Version CreatedAt LastModifiedAt WriteOffsetField EntryCount Flags hdr_magic hdr_version
       hdr_created hdr_modified hdr_woff hdr_count hdr_flags].

(** Lift an update of the header block to the whole mapping. *)
Lemma put_u32_hdr m m' rsv t off v :
  put_u32 (hdr_pre m rsv) off v = Ret (hdr_pre m' rsv) -> off + 4 <= blen (hdr_pre m rsv) ->
  put_u32 (hdr_pre m rsv ++ t) off v = Ret (hdr_pre m' rsv ++ t).
Proof. unfold put_u32. intros H1 H2. rewrite put_le_app_l by lia. by rewrite H1. Qed.
Lemma put_u64_hdr m m' rsv t off v :
  put_u64 (hdr_pre m rsv) off v = Ret (hdr_pre m' rsv) -> off + 8 <= blen (hdr_pre m rsv) ->
  put_u64 (hdr_pre m rsv ++ t) off v = Ret (hdr_pre m' rsv ++ t).
Proof. unfold put_u64. intros H1 H2. rewrite put_le_app_l by lia. by rewrite H1. Qed.

(** The next store into the header of a mapping. *)
Ltac put_field :=
  first
    [ erewrite put_u32_hdr by
        (rewrite ?blen_hdr_pre by done;
         solve [eauto using put_magic, put_version, put_flags, put_woff_low | done])
    | erewrite put_u64_hdr by
        (rewrite ?blen_hdr_pre by done;
         solve [eauto using put_created, put_modified, put_woff, put_count | done]) ];
  cbn [mbind outcome_bind].

Lemma le_bytes_i64 z : le_bytes 8 (i64 z) = le_bytes 8 z.
Proof.
  rewrite <- (le_bytes_mod 8 (i64 z)), <- (le_bytes_mod 8 z). f_equal.
  change (256 ^ Z.of_nat 8) with (2 ^ 64). unfold i64.
  rewrite Zminus_mod_idemp_l. f_equal. lia.
Qed.
Lemma le_bytes_u64 z : le_bytes 8 (u64 z) = le_bytes 8 z.
Proof. apply (le_bytes_mod 8). Qed.

Lemma i64_in_range z : i64_range (i64 z).
Proof. unfold i64_range, i64. pose proof (Z.mod_pos_bound (z + 2 ^ 63) (2 ^ 64)). lia. Qed.

(** The header after [n] more records that end at [newOffset]. *)
Definition hdr_written (now newOffset n : Z) (m : SegmentHeader) : SegmentHeader :=
  mkSegmentHeader (Magic m) (Version m) (CreatedAt m) (i64 now) (u32 newOffset)
    (i64 (EntryCount m + n)) (Flags m).

Lemma hdr_written_wf now o n m : wf_header m -> wf_header (hdr_written now o n m).
Proof.
  intros []. constructor; cbn; auto using i64_in_range.
  unfold i64_range. pose proof (u32_range o). lia.
Qed.

Lemma update_metadata_layout io m rsv pad rest newOffset n :
  0 <= WriteOffsetField m < 2 ^ 32 -> blen rsv = 12 ->
  update_metadata io (header_bytes m rsv pad ++ rest) newOffset n =
  Ret (header_bytes (hdr_written (io_now io) newOffset n m) rsv pad ++ rest).
Proof.
  intros Hlow Hr. unfold update_metadata. unfold header_bytes at 1. rewrite <- !app_assoc.
  put_field. unfold get_u64.
  erewrite get_le_field by (unfold header_fields; repeat constructor).
  cbn [mbind outcome_bind EntryCount hdr_woff].
  put_field. put_field.
  apply put_header_crc_layout; [|done|by rewrite blen_le_bytes].
  unfold hdr_pre, hdr_written. hdr_cbn.
  rewrite !le_bytes_i64, !le_bytes_u64.
  rewrite <- (le_bytes_mod 8 (_ mod _ + n)), Zplus_mod_idemp_l, le_bytes_mod.
  by rewrite (u32_small (u32 newOffset)) by apply u32_range.
Qed.

(** ** One record *)

Definition record_header (data : bytes) : bytes :=
  le_bytes 4 (crc32Checksum (le_bytes 4 (blen data)) data) ++ le_bytes 4 (blen data).

Definition record_padding (n : Z) : bytes :=
  replicate (Z.to_nat (entrySize n - rawSize n)) Byte.x00.

(** The bytes of a record: the layout drawn in segment.go. *)
Definition encode_record (data : bytes) : bytes :=
  record_header data ++ data ++ trailerMarker ++ record_padding (blen data).

Definition encode_records (recs : list bytes) : bytes := concat (encode_record <$> recs).

Lemma rawSize_le n : rawSize n <= entrySize n < rawSize n + 8.
Proof. apply alignUp_bounds. Qed.

Lemma blen_record_header data : blen (record_header data) = 8.
Proof. unfold record_header. by autorewrite with blen. Qed.

Lemma blen_encode_record data : blen (encode_record data) = entrySize (blen data).
Proof.
  unfold encode_record, record_padding. autorewrite with blen.
  rewrite blen_record_header. pose proof (rawSize_le (blen data)).
  change (blen trailerMarker) with 8. unfold rawSize, recordHeaderSize, recordTrailerMarkerSize in *.
  lia.
Qed.

Lemma encode_records_app r1 r2 :
  encode_records (r1 ++ r2) = encode_records r1 ++ encode_records r2.
Proof. unfold encode_records. by rewrite fmap_app, concat_app. Qed.

Lemma encode_records_cons d rs : encode_records (d :: rs) = encode_record d ++ encode_records rs.
Proof. reflexivity. Qed.

Lemma encode_records_multiple recs : (8 | blen (encode_records recs)).
Proof.
  induction recs as [|d recs IH]; [by exists 0|].
  rewrite encode_records_cons, blen_app, blen_encode_record.
  apply Z.divide_add_r; auto using entrySize_multiple.
Qed.

Lemma zero_loop_layout (a b c : bytes) :
  zero_loop (length b) (blen a) (a ++ b ++ c) = Ret (a ++ replicate (length b) Byte.x00 ++ c).
Proof.
  revert a. induction b as [|x b IH]; intros a; [done|]. cbn [length zero_loop replicate].
  unfold set_index. autorewrite with blen.
  pose proof (blen_nonneg a). pose proof (blen_nonneg b). pose proof (blen_nonneg c).
  if_true. cbn [mbind outcome_bind].
  rewrite to_nat_blen.
  replace (length a) with (length a + 0)%nat by lia. rewrite insert_app_r. cbn [insert list_insert app].
  specialize (IH (a ++ [Byte.x00])). rewrite <- !app_assoc in IH. cbn [app] in IH.
  rewrite blen_app in IH. exact IH.
Qed.

(** Cut a list in front of position [n]. *)
Lemma split_blen {A} (l : list A) n :
  0 <= n <= blen l -> exists l1 l2, l = l1 ++ l2 /\ blen l1 = n /\ blen l2 = blen l - n.
Proof.
  intros H. exists (take (Z.to_nat n) l), (drop (Z.to_nat n) l).
  rewrite take_drop. unfold blen in *. rewrite length_take, length_drop. split; [done|lia].
Qed.

Lemma blen_length {A B} (l1 : list A) (l2 : list B) : blen l1 = blen l2 -> length l1 = length l2.
Proof. unfold blen. lia. Qed.

Lemma put_record_header (h data : bytes) :
  blen h = 8 ->
  (h ← put_u32 h 4 (u32 (blen data));
   sumInput ← slice h 4 (blen h);
   put_u32 h 0 (crc32Checksum sumInput data)) = Ret (record_header data).
Proof.
  intros Hh. destruct (split_blen h 4) as (h1 & h2 & -> & H1 & H2); [lia|]. rewrite Hh in H2.
  unfold put_u32. rewrite <- (app_nil_r h2), put_le_app by (unfold blen in *; lia).
  cbn [mbind outcome_bind]. unfold u32. rewrite le_bytes_mod.
  rewrite slice_app by (autorewrite with blen; lia). cbn [mbind outcome_bind].
  rewrite <- (app_nil_l (h1 ++ _)), put_le_app by (unfold blen in *; done || lia).
  by rewrite app_nil_r.
Qed.

(** Lengths of the pieces of an entry. *)
Ltac entry_lengths :=
  try apply blen_length; rewrite ?blen_app, ?blen_record_header;
  try change (blen trailerMarker) with 8; lia.

(** Writing one record replaces exactly the bytes of its entry. *)
Lemma write_record_layout h (a b c data : bytes) :
  blen h = 8 -> blen b = entrySize (blen data) ->
  write_record h (a ++ b ++ c) (blen a) data = Ret (record_header data, a ++ encode_record data ++ c).
Proof.
  intros Hh Hb. pose proof (put_record_header h data Hh) as Hput.
  apply bind_Ret_inv in Hput as (h1 & Hp1 & Hput).
  apply bind_Ret_inv in Hput as (s & Hs & Hp2).
  unfold write_record. rewrite Hp1. cbn [mbind outcome_bind]. rewrite Hs. cbn [mbind outcome_bind].
  rewrite Hp2. cbn [mbind outcome_bind].
  pose proof (rawSize_le (blen data)) as Hraw. pose proof (blen_nonneg data).
  unfold rawSize, recordHeaderSize, recordTrailerMarkerSize in *.
  destruct (split_blen b 8) as (b1 & b' & -> & Hb1 & Hb'); [lia|].
  destruct (split_blen b' (blen data)) as (b2 & b'' & -> & Hb2 & Hb''); [lia|].
  destruct (split_blen b'' 8) as (b3 & b4 & -> & Hb3 & Hb4); [lia|].
  rewrite <- !app_assoc.
  rewrite copy_at_app by entry_lengths.
  cbn [mbind outcome_bind]. rewrite (app_assoc a).
  rewrite copy_at_app by entry_lengths.
  cbn [mbind outcome_bind]. rewrite (app_assoc _ data).
  rewrite copy_at_app by entry_lengths.
  cbn [mbind outcome_bind]. rewrite (app_assoc _ trailerMarker).
  replace (Z.to_nat (entrySize (blen data) - (8 + blen data + 8))) with (length b4)
    by (unfold blen in *; lia).
  replace (blen a + (8 + blen data + 8))
    with (blen (((a ++ record_header data) ++ data) ++ trailerMarker))
    by entry_lengths.
  rewrite zero_loop_layout. cbn [mbind outcome_bind].
  unfold encode_record, record_padding, rawSize, recordHeaderSize, recordTrailerMarkerSize.
  rewrite <- !app_assoc.
  replace (Z.to_nat (entrySize (blen data) - (8 + blen data + 8))) with (length b4)
    by (unfold blen in *; lia).
  done.
Qed.

(** ** The entries of a segment *)

(** [entries body recs]: the bytes [body] are the entries of [recs], one
    after the other.  The padding of an entry is what the writer zeroes; the
    recovery scan accepts any padding, and so does the relation. *)
Inductive entries : bytes -> list bytes -> Prop :=
| entries_nil : entries [] []
| entries_cons data pad body recs :
    blen pad = entrySize (blen data) - rawSize (blen data) ->
    entries body recs ->
    entries (record_header data ++ data ++ trailerMarker ++ pad ++ body) (data :: recs).

(** The bytes taken by [recs], and where the record behind them begins. *)
Definition entries_size (recs : list bytes) : Z :=
  foldr (fun d n => entrySize (blen d) + n) 0 recs.
Definition end_offset (recs : list bytes) : Z := segmentHeaderSize + entries_size recs.

Lemma entries_size_app r1 r2 : entries_size (r1 ++ r2) = entries_size r1 + entries_size r2.
Proof. induction r1; cbn [app entries_size foldr] in *; [done|]. unfold entries_size in *. lia. Qed.

Lemma entrySize_pos n : 0 <= n -> 16 <= entrySize n.
Proof. intros. pose proof (entrySize_bounds n). lia. Qed.

Lemma entries_size_nonneg recs : 0 <= entries_size recs.
Proof.
  induction recs as [|d recs IH]; cbn [entries_size foldr]; [done|].
  pose proof (entrySize_pos (blen d) (blen_nonneg d)). unfold entries_size in IH. lia.
Qed.

Lemma entries_size_multiple recs : (8 | entries_size recs).
Proof.
  induction recs as [|d recs IH]; [by exists 0|].
  apply Z.divide_add_r; auto using entrySize_multiple.
Qed.

Lemma end_offset_app r1 r2 : end_offset (r1 ++ r2) = end_offset r1 + entries_size r2.
Proof. unfold end_offset. rewrite entries_size_app. lia. Qed.

Lemma end_offset_snoc recs d : end_offset (recs ++ [d]) = end_offset recs + entrySize (blen d).
Proof. rewrite end_offset_app. cbn. lia. Qed.

Lemma end_offset_ge recs : 64 <= end_offset recs.
Proof. unfold end_offset, segmentHeaderSize. pose proof (entries_size_nonneg recs). lia. Qed.

Lemma entries_blen body recs : entries body recs -> blen body = entries_size recs.
Proof.
  induction 1 as [|data pad body recs Hp _ IH]; [done|].
  rewrite !blen_app, blen_record_header, IH, Hp. change (blen trailerMarker) with 8.
  unfold rawSize, recordHeaderSize, recordTrailerMarkerSize.
  cbn [entries_size foldr]. unfold entries_size. lia.
Qed.

Lemma entries_app b1 r1 b2 r2 :
  entries b1 r1 -> entries b2 r2 -> entries (b1 ++ b2) (r1 ++ r2).
Proof.
  induction 1 as [|data pad body recs Hp _ IH]; intros H2; [done|].
  rewrite <- !app_assoc. constructor; auto.
Qed.

Lemma entries_split body r1 r2 :
  entries body (r1 ++ r2) -> exists b1 b2, body = b1 ++ b2 /\ entries b1 r1 /\ entries b2 r2.
Proof.
  revert body. induction r1 as [|d r1 IH]; intros body H.
  - exists [], body. by repeat constructor.
  - inversion H as [|data pad body' recs Hp Hb]; subst.
    destruct (IH body' Hb) as (b1 & b2 & -> & H1 & H2).
    exists (record_header d ++ d ++ trailerMarker ++ pad ++ b1), b2.
    rewrite <- !app_assoc. by repeat constructor.
Qed.

Lemma entries_encode recs : entries (encode_records recs) recs.
Proof.
  induction recs as [|d recs IH]; [constructor|].
  rewrite encode_records_cons. unfold encode_record. rewrite <- !app_assoc. constructor; [|done].
  unfold record_padding. rewrite blen_replicate. pose proof (rawSize_le (blen d)). lia.
Qed.

(** ** The representation of a segment *)

(** [recs] are the records of the segment, [m] its header.  What lies behind
    the write offset is arbitrary. *)
Record seg_repr (seg : Segment) (m : SegmentHeader) (recs : list bytes) : Prop := {
  sr_layout : exists rsv pad body tl,
    mmapData seg = header_bytes m rsv pad ++ body ++ tl /\
    blen rsv = 12 /\ blen pad = 4 /\ entries body recs;
  sr_header : wf_header m;
  sr_low : IsSealed (Flags m) = false -> 0 <= WriteOffsetField m < 2 ^ 32;
  sr_offset : writeOffset seg = end_offset recs;
  sr_size : mmapSize seg = blen (mmapData seg) /\ mmapSize seg <= maxSegmentSize;
  sr_scratch : blen (header seg) = 8
}.

(** Open for reads and writes. *)
Definition seg_open (seg : Segment) : Prop := closed seg = false /\ state seg = StateOpen.

Lemma sr_end seg m recs : seg_repr seg m recs -> 64 <= end_offset recs <= mmapSize seg.
Proof.
  intros [(rsv & pad & body & tl & Hd & Hr & Hp & He) _ _ _ [Hs _] _]. rewrite Hs, Hd.
  rewrite !blen_app, blen_header_bytes, (entries_blen _ _ He) by done.
  pose proof (end_offset_ge recs). pose proof (blen_nonneg tl).
  unfold end_offset, segmentHeaderSize in *. lia.
Qed.

Lemma sr_flags seg m recs : seg_repr seg m recs -> get_u32 (mmapData seg) 40 = Ret (Flags m).
Proof.
  intros [(rsv & pad & body & tl & Hd & Hr & Hp & He) [] _ _ _ _]. rewrite Hd. unfold header_bytes.
  rewrite <- !app_assoc. unfold get_u32.
  erewrite get_le_field by (unfold header_fields; repeat constructor). by rewrite mod_word.
Qed.

(** Everything but the mapped bytes, the write offset and the scratch buffer. *)
Definition data_erased (seg : Segment) : Segment :=
  set_writeOffset 0 (set_mmapData [] (set_header [] seg)).

(** The error a write returns when the configured flush fails. *)
Definition flush_fails (io : IO) (seg : Segment) : bool :=
  (if syncOption seg is MsyncOnWrite then true else false) && negb (io_flush io).

(** Project a field out of an updated segment. *)
Ltac seg_cbn :=
  cbn [id mmapData mmapSize writeOffset closed header refCount state markedForDeletion
       readerIDCounter activeReaders isSealed inMemorySealed syncOption onDisk
       set_mmapData set_mmapSize set_writeOffset set_closed set_header set_refCount set_state
       set_markedForDeletion set_readerIDCounter set_activeReaders set_isSealed
       set_inMemorySealed set_syncOption set_onDisk].

(** A segment with new contents; every other field is that of [seg]. *)
Definition with_contents (seg : Segment) (h hdr body c : bytes) : Segment :=
  set_writeOffset (segmentHeaderSize + blen body) (set_mmapData (hdr ++ body ++ c) (set_header h seg)).

(** Replacing the header and appending entries keeps the representation. *)
Lemma repr_extend seg m m' recs recs' rsv pad body c h :
  seg_repr seg m recs -> wf_header m' -> 0 <= WriteOffsetField m' < 2 ^ 32 ->
  blen rsv = 12 -> blen pad = 4 -> blen h = 8 -> entries body recs' ->
  end_offset recs' + blen c = mmapSize seg ->
  seg_repr (with_contents seg h (header_bytes m' rsv pad) body c) m' recs'.
Proof.
  intros [_ _ _ _ [_ Hmax] _] Hwf Hlow Hr Hp Hh He Hsz.
  pose proof (entries_blen _ _ He) as Hbl. unfold with_contents. constructor; seg_cbn; try done.
  - by exists rsv, pad, body, c.
  - by rewrite Hbl.
  - rewrite !blen_app, blen_header_bytes, Hbl by done. split; [|done].
    unfold end_offset, segmentHeaderSize in Hsz. lia.
Qed.

Lemma seg_open_guard seg : seg_open seg ->
  closed seg || (if state seg is StateOpen then false else true) = false.
Proof. intros [-> ->]. done. Qed.

(** What [seg_repr] says of the bytes behind the last record. *)
Lemma repr_tail seg m recs :
  seg_repr seg m recs -> exists rsv pad body tl,
    mmapData seg = header_bytes m rsv pad ++ body ++ tl /\
    blen rsv = 12 /\ blen pad = 4 /\ entries body recs /\
    blen tl = mmapSize seg - end_offset recs.
Proof.
  intros [(rsv & pad & body & tl & Hd & Hrsv & Hpad & Hent) _ _ _ [Hsz _] _].
  exists rsv, pad, body, tl. repeat split; try done.
  rewrite Hsz, Hd, !blen_app, blen_header_bytes, (entries_blen _ _ Hent) by done.
  unfold end_offset, segmentHeaderSize. lia.
Qed.

(** The bytes a write of [data] produces. *)
Lemma Write_exact io seg m recs rsv pad body b c data :
  seg_repr seg m recs -> seg_open seg -> IsSealed (Flags m) = false ->
  mmapData seg = header_bytes m rsv pad ++ body ++ b ++ c ->
  blen rsv = 12 -> blen pad = 4 -> entries body recs -> blen b = entrySize (blen data) ->
  Write io seg data =
  Ret (with_contents seg (record_header data)
         (header_bytes (hdr_written (io_now io) (end_offset (recs ++ [data])) 1 m) rsv pad)
         (body ++ encode_record data) c,
       if flush_fails io seg then Err ErrFlush else Ok (mkPos (id seg) (end_offset recs))).
Proof.
  intros Hr Ho Hs Hd Hrsv Hpad Hent Hb. pose proof Hr as [_ _ Hlow Hoff [Hsz _] Hh].
  unfold Write. rewrite (seg_open_guard _ Ho), (sr_flags _ _ _ Hr).
  cbn [mbind outcome_bind]. rewrite Hs.
  pose proof (end_offset_snoc recs data) as Hsnoc. pose proof (entries_blen _ _ Hent) as Hbl.
  pose proof (blen_nonneg c) as Hc.
  assert (mmapSize seg = end_offset recs + entrySize (blen data) + blen c) as Htl.
  { rewrite Hsz, Hd, !blen_app, blen_header_bytes, Hbl by done.
    unfold end_offset, segmentHeaderSize. lia. }
  if_false.
  pose proof (write_record_layout (header seg) (header_bytes m rsv pad ++ body)
                b c data Hh Hb) as Hwr.
  rewrite blen_app, blen_header_bytes, Hbl, <- !app_assoc, <- Hd in Hwr by done.
  change (64 + entries_size recs) with (end_offset recs) in Hwr. rewrite Hoff, Hwr.
  cbn [mbind outcome_bind].
  rewrite update_metadata_layout by auto. cbn [mbind outcome_bind]. rewrite <- Hsnoc.
  unfold with_contents. rewrite <- app_assoc, blen_app, Hbl, blen_encode_record, Z.add_assoc.
  fold (end_offset recs). rewrite <- Hsnoc.
  unfold flush_fails. seg_cbn. by destruct (_ && _).
Qed.

(** [Write] on every branch of an open segment. *)
Lemma Write_sealed io seg m recs data :
  seg_repr seg m recs -> seg_open seg -> IsSealed (Flags m) = true ->
  Write io seg data = Ret (seg, Err ErrSegmentSealed).
Proof.
  intros Hr Ho Hs. unfold Write. rewrite (seg_open_guard _ Ho), (sr_flags _ _ _ Hr).
  cbn [mbind outcome_bind]. by rewrite Hs.
Qed.

Lemma Write_exceeds io seg m recs data :
  seg_repr seg m recs -> seg_open seg -> IsSealed (Flags m) = false ->
  WillExceed seg (blen data) = true ->
  Write io seg data = Ret (seg, Err ErrWriteExceedsSegment).
Proof.
  intros Hr Ho Hs Hw. unfold Write. rewrite (seg_open_guard _ Ho), (sr_flags _ _ _ Hr).
  cbn [mbind outcome_bind]. rewrite Hs. unfold WillExceed in Hw. by rewrite Hw.
Qed.

Lemma Write_appends io seg m recs data :
  seg_repr seg m recs -> seg_open seg -> IsSealed (Flags m) = false ->
  WillExceed seg (blen data) = false ->
  exists seg',
    Write io seg data =
      Ret (seg', if flush_fails io seg then Err ErrFlush else Ok (mkPos (id seg) (end_offset recs))) /\
    seg_repr seg' (hdr_written (io_now io) (end_offset (recs ++ [data])) 1 m) (recs ++ [data]) /\
    data_erased seg' = data_erased seg.
Proof.
  intros Hr Ho Hs Hw. pose proof (sr_offset _ _ _ Hr) as Hoff. unfold WillExceed in Hw.
  destruct (repr_tail _ _ _ Hr) as (rsv & pad & body & tl & Hd & Hrsv & Hpad & Hent & Htl).
  pose proof (entrySize_pos _ (blen_nonneg data)) as He.
  destruct (split_blen tl (entrySize (blen data))) as (b & c & -> & Hb & Hc); [lia|].
  eexists. split; [by apply (Write_exact _ _ m recs rsv pad body b c)|]. split; [|done].
  eapply repr_extend; try done.
  - by apply hdr_written_wf, (sr_header _ _ _ Hr).
  - apply u32_range.
  - apply entries_app; [done|]. pose proof (entries_encode [data]) as E.
    by rewrite encode_records_cons, app_nil_r in E.
  - rewrite end_offset_snoc. lia.
Qed.

(** ** Batches *)

(** How many records fit when the next one begins at [offset]. *)
Fixpoint fit_count (size offset : Z) (records : list bytes) : nat :=
  match records with
  | [] => O
  | d :: rest =>
      if size <? offset + entrySize (blen d) then O
      else S (fit_count size (offset + entrySize (blen d)) rest)
  end.

(** The positions of consecutive records, the first one at [offset]. *)
Fixpoint positions_from (segID offset : Z) (records : list bytes) : list RecordPosition :=
  match records with
  | [] => []
  | d :: rest => mkPos segID offset :: positions_from segID (offset + entrySize (blen d)) rest
  end.

(** No segment of this size can hold the record. *)
Definition oversized (size : Z) (data : bytes) : bool :=
  size - segmentHeaderSize <? entrySize (blen data).

Definition first_unfit_oversized (size offset : Z) (records : list bytes) : bool :=
  match records !! fit_count size offset records with
  | Some d => oversized size d
  | None => false
  end.

Lemma plan_batch_spec segID size records : forall offset i pos,
  64 <= offset ->
  plan_batch segID size offset i records pos i =
  if first_unfit_oversized size offset records then Err ErrExceedsCapacity
  else Ok (pos ++ positions_from segID offset (take (fit_count size offset records) records),
           (i + fit_count size offset records)%nat).
Proof.
  unfold first_unfit_oversized, oversized, segmentHeaderSize.
  induction records as [|d rest IH]; intros offset i pos Ho; cbn [plan_batch fit_count].
  - cbn. by rewrite app_nil_r, Nat.add_0_r.
  - pose proof (entrySize_pos (blen d) (blen_nonneg d)). unfold segmentHeaderSize.
    destruct (size <? offset + entrySize (blen d)) eqn:E.
    + cbn. by rewrite app_nil_r, Nat.add_0_r.
    + if_false. rewrite IH by lia. cbn [lookup list_lookup take positions_from].
      by rewrite <- app_assoc, Nat.add_succ_r.
Qed.

Lemma fit_count_le size records : forall offset, (fit_count size offset records <= length records)%nat.
Proof. induction records as [|d r IH]; intros o; cbn; [lia|]. case_if; [lia|]. specialize (IH (o + entrySize (blen d))). lia. Qed.

Lemma fit_count_fits size records : forall offset,
  offset <= size ->
  offset + entries_size (take (fit_count size offset records) records) <= size.
Proof.
  induction records as [|d r IH]; intros o Ho; cbn [fit_count]; [cbn; lia|].
  destruct (_ <? _) eqn:E; [cbn; lia|]. cbn [take entries_size foldr].
  specialize (IH (o + entrySize (blen d))). unfold entries_size in IH. lia.
Qed.

Lemma encode_records_blen recs : blen (encode_records recs) = entries_size recs.
Proof. apply entries_blen, entries_encode. Qed.

Lemma write_records_layout records : forall h (a b c : bytes),
  blen h = 8 -> blen b = entries_size records ->
  write_records h (a ++ b ++ c) (blen a) records =
  Ret (default h (record_header <$> last records), a ++ encode_records records ++ c,
       blen a + entries_size records).
Proof.
  induction records as [|d r IH]; intros h a b c Hh Hb.
  - assert (b = []) as -> by (by apply blen_zero_nil). cbn. by rewrite Z.add_0_r.
  - cbn [entries_size foldr] in Hb. fold (entries_size r) in Hb.
    pose proof (entrySize_pos _ (blen_nonneg d)). pose proof (entries_size_nonneg r).
    destruct (split_blen b (entrySize (blen d))) as (b1 & b2 & -> & H1 & H2); [lia|].
    cbn [write_records]. rewrite <- app_assoc, write_record_layout by done. cbn [mbind outcome_bind].
    rewrite app_assoc, <- blen_encode_record, <- blen_app.
    rewrite IH by (rewrite ?blen_record_header; lia).
    rewrite encode_records_cons, <- !app_assoc, blen_app, blen_encode_record.
    cbn [entries_size foldr]. fold (entries_size r). rewrite <- Z.add_assoc.
    destruct r as [|x r]; [done|]. rewrite last_cons_cons.
    destruct (last (x :: r)) eqn:El; [done | by apply last_None in El].
Qed.

(** The result of a batch of which [n] records fit. *)
Definition batch_error (n : nat) (records : list bytes) : option error :=
  if (n <? length records)%nat then Some ErrSegmentFull else None.

(** The bytes a batch produces. *)
Lemma WriteBatch_exact io seg m recs rsv pad body b c records :
  let n := fit_count (mmapSize seg) (end_offset recs) records in
  let ns := take n records in
  seg_repr seg m recs -> seg_open seg -> IsSealed (Flags m) = false ->
  mmapData seg = header_bytes m rsv pad ++ body ++ b ++ c ->
  blen rsv = 12 -> blen pad = 4 -> entries body recs -> blen b = entries_size ns ->
  n <> O -> first_unfit_oversized (mmapSize seg) (end_offset recs) records = false ->
  WriteBatch io seg records =
  Ret (with_contents seg (default (header seg) (record_header <$> last ns))
         (header_bytes (hdr_written (io_now io) (end_offset (recs ++ ns)) (Z.of_nat n) m) rsv pad)
         (body ++ encode_records ns) c,
       (positions_from (id seg) (end_offset recs) ns, n,
        if flush_fails io seg then Some ErrFlush else batch_error n records)).
Proof.
  intros n ns Hr Ho Hs Hd Hrsv Hpad Hent Hb Hn Hov. pose proof Hr as [_ _ Hlow Hoff [Hsz _] Hh].
  unfold WriteBatch. rewrite bool_decide_false.
  2: { intros ->. by apply Hn. }
  rewrite (seg_open_guard _ Ho), (sr_flags _ _ _ Hr). cbn [mbind outcome_bind]. rewrite Hs, Hoff.
  rewrite plan_batch_spec by apply end_offset_ge. rewrite Hov. cbn [app Nat.add].
  fold n. fold ns. rewrite bool_decide_false by done.
  pose proof (entries_blen _ _ Hent) as Hbl.
  pose proof (write_records_layout ns (header seg) (header_bytes m rsv pad ++ body) b c Hh Hb) as Hwr.
  rewrite blen_app, blen_header_bytes, Hbl, <- !app_assoc, <- Hd in Hwr by done.
  change (64 + entries_size recs) with (end_offset recs) in Hwr. rewrite Hwr.
  cbn [mbind outcome_bind].
  rewrite update_metadata_layout by auto. cbn [mbind outcome_bind]. rewrite <- end_offset_app.
  unfold with_contents. rewrite <- app_assoc, blen_app, Hbl, encode_records_blen, Z.add_assoc.
  fold (end_offset recs). rewrite <- end_offset_app.
  unfold flush_fails, batch_error. seg_cbn. by destruct (_ && _).
Qed.

Lemma default_record_header h (ns : list bytes) :
  blen h = 8 -> blen (default h (record_header <$> last ns)) = 8.
Proof. intros. destruct (last ns); cbn [fmap option_fmap option_map default]; auto using blen_record_header. Qed.

Lemma WriteBatch_appends io seg m recs records :
  let n := fit_count (mmapSize seg) (end_offset recs) records in
  let ns := take n records in
  seg_repr seg m recs -> seg_open seg -> IsSealed (Flags m) = false ->
  n <> O -> first_unfit_oversized (mmapSize seg) (end_offset recs) records = false ->
  exists seg',
    WriteBatch io seg records =
      Ret (seg', (positions_from (id seg) (end_offset recs) ns, n,
                  if flush_fails io seg then Some ErrFlush else batch_error n records)) /\
    seg_repr seg' (hdr_written (io_now io) (end_offset (recs ++ ns)) (Z.of_nat n) m) (recs ++ ns) /\
    data_erased seg' = data_erased seg.
Proof.
  intros n ns Hr Ho Hs Hn Hov.
  destruct (repr_tail _ _ _ Hr) as (rsv & pad & body & tl & Hd & Hrsv & Hpad & Hent & Htl).
  pose proof (fit_count_fits (mmapSize seg) records (end_offset recs)) as Hfit.
  fold n ns in Hfit. pose proof (sr_end _ _ _ Hr). pose proof (entries_size_nonneg ns).
  destruct (split_blen tl (entries_size ns)) as (b & c & -> & Hb & Hc); [lia|].
  eexists. split; [by apply (WriteBatch_exact io seg m recs rsv pad body b c records)|].
  split; [|done]. eapply repr_extend; try done.
  - by apply hdr_written_wf, (sr_header _ _ _ Hr).
  - apply u32_range.
  - apply default_record_header, (sr_scratch _ _ _ Hr).
  - apply entries_app; [done | apply entries_encode].
  - rewrite end_offset_app. lia.
Qed.

(** [Write] called once per record, stopping at the first error. *)
Fixpoint write_each (io : IO) (seg : Segment) (records : list bytes)
  : outcome (Segment * result error (list RecordPosition)) :=
  match records with
  | [] => Ret (seg, Ok [])
  | d :: rest =>
      '(seg, res) ← Write io seg d;
      match res with
      | Err e => Ret (seg, Err e)
      | Ok p =>
          '(seg, res) ← write_each io seg rest;
          Ret (seg, match res with Ok ps => Ok (p :: ps) | Err e => Err e end)
      end
  end.

Lemma i64_add_idemp a b : i64 (i64 a + b) = i64 (a + b).
Proof.
  unfold i64. replace ((a + 2 ^ 63) mod 2 ^ 64 - 2 ^ 63 + b + 2 ^ 63)
    with ((a + 2 ^ 63) mod 2 ^ 64 + b) by lia.
  rewrite Zplus_mod_idemp_l. do 2 f_equal. lia.
Qed.

Lemma hdr_written_twice now o1 n1 o2 n2 m :
  hdr_written now o2 n2 (hdr_written now o1 n1 m) = hdr_written now o2 (n1 + n2) m.
Proof. unfold hdr_written. cbn. by rewrite i64_add_idemp, Z.add_assoc. Qed.

Lemma write_each_exact io rsv pad c ns : forall seg m recs body b,
  seg_repr seg m recs -> seg_open seg -> IsSealed (Flags m) = false ->
  flush_fails io seg = false ->
  mmapData seg = header_bytes m rsv pad ++ body ++ b ++ c ->
  blen rsv = 12 -> blen pad = 4 -> entries body recs -> blen b = entries_size ns -> ns <> [] ->
  write_each io seg ns =
  Ret (with_contents seg (default (header seg) (record_header <$> last ns))
         (header_bytes (hdr_written (io_now io) (end_offset (recs ++ ns)) (blen ns) m) rsv pad)
         (body ++ encode_records ns) c,
       Ok (positions_from (id seg) (end_offset recs) ns)).
Proof.
  induction ns as [|d rest IH]; [done|].
  intros seg m recs body b Hr Ho Hs Hf Hd Hrsv Hpad Hent Hb _.
  cbn [entries_size foldr] in Hb. fold (entries_size rest) in Hb.
  pose proof (entrySize_pos _ (blen_nonneg d)) as Hpos. pose proof (entries_size_nonneg rest) as Hrest.
  destruct (split_blen b (entrySize (blen d))) as (b1 & b2 & -> & H1 & H2); [lia|].
  rewrite <- app_assoc in Hd. cbn [write_each].
  rewrite (Write_exact io seg m recs rsv pad body b1 (b2 ++ c) d) by done. rewrite Hf.
  cbn [mbind outcome_bind]. rewrite encode_records_cons, app_assoc.
  assert (entries (body ++ encode_record d) (recs ++ [d])) as Hent1.
  { apply entries_app; [done|]. pose proof (entries_encode [d]) as E.
    by rewrite encode_records_cons, app_nil_r in E. }
  assert (blen (b2 ++ c) = mmapSize seg - end_offset (recs ++ [d])) as Hsz.
  { destruct (sr_size _ _ _ Hr) as [-> _]. rewrite Hd, end_offset_snoc, !blen_app,
      blen_header_bytes, (entries_blen _ _ Hent) by done. unfold end_offset, segmentHeaderSize. lia. }
  destruct rest as [|d' rest].
  { assert (b2 = []) as -> by (apply blen_zero_nil; cbn in Hb; lia).
    cbn [write_each mbind outcome_bind app encode_records fmap list_fmap concat]. by rewrite app_nil_r. }
  rewrite (IH (with_contents seg _ _ _ _) (hdr_written (io_now io) (end_offset (recs ++ [d])) 1 m)
             (recs ++ [d]) (body ++ encode_record d) b2); try done; try lia.
  - cbn [mbind outcome_bind]. rewrite hdr_written_twice, <- app_assoc, last_cons_cons.
    destruct (last (d' :: rest)) eqn:El; [|by apply last_None in El].
    cbn [app fmap option_fmap option_map default positions_from]. rewrite end_offset_snoc.
    rewrite (blen_cons d). done.
  - eapply repr_extend; try done; [by apply hdr_written_wf, (sr_header _ _ _ Hr) | apply u32_range | lia].
Qed.

(** ** Reading *)

Lemma blen_lt_entry (data : bytes) : blen data + 16 <= entrySize (blen data).
Proof. pose proof (entrySize_bounds (blen data) (blen_nonneg data)). lia. Qed.

(** The bytes of one entry inside a segment. *)
Lemma repr_entry seg m pre data post :
  seg_repr seg m (pre ++ data :: post) ->
  exists a rest, mmapData seg = a ++ record_header data ++ data ++ trailerMarker ++ rest /\
    blen a = end_offset pre.
Proof.
  intros [(rsv & pad & body & tl & Hd & Hr & Hp & He) _ _ _ _ _].
  apply entries_split in He as (b1 & b2 & -> & H1 & H2).
  inversion H2 as [|? pad2 body2 ? Hpd Hb2]; subst.
  exists (header_bytes m rsv pad ++ b1), (pad2 ++ body2 ++ tl).
  rewrite Hd, <- !app_assoc. split; [done|].
  by rewrite blen_app, blen_header_bytes, (entries_blen _ _ H1) by done.
Qed.

Lemma record_header_len data :
  0 <= blen data < 2 ^ 32 -> get_u32 (record_header data) 4 = Ret (blen data).
Proof.
  intros H. unfold get_u32, record_header. rewrite <- (app_nil_r (le_bytes 4 (blen data))) at 2.
  skip_field. rewrite get_le_head. by rewrite mod_word.
Qed.

Lemma crc32Checksum_word h data : u32_word (crc32Checksum h data).
Proof. apply crc32.Update_range; [apply crc32.CastagnoliTable_word | apply Checksum_word]. Qed.

Lemma record_header_crc data :
  get_u32 (record_header data) 0 = Ret (crc32Checksum (le_bytes 4 (blen data)) data).
Proof. unfold get_u32, record_header. rewrite get_le_head. by rewrite (mod_word _ (crc32Checksum_word _ _)). Qed.

Lemma record_header_sum_input data : slice (record_header data) 4 8 = Ret (le_bytes 4 (blen data)).
Proof.
  unfold record_header. rewrite <- (app_nil_r (le_bytes 4 (blen data))) at 2.
  by rewrite slice_app by (rewrite ?blen_le_bytes; done).
Qed.

Lemma trailer_word (a b : bytes) off :
  off = blen a -> get_u64 (a ++ trailerMarker ++ b) off = Ret trailerWord.
Proof. intros ->. unfold get_u64. by rewrite get_le_app. Qed.

(** A record that the segment holds is read back, whatever has been appended
    since, sealed or not, and the position of the next record with it. *)
Lemma Read_record seg m pre data post :
  seg_repr seg m (pre ++ data :: post) -> closed seg = false ->
  Read seg (end_offset pre) =
  Ret (Ok (data, mkPos (id seg) (end_offset (pre ++ [data])))).
Proof.
  intros Hr Hc. pose proof (sr_end _ _ _ Hr) as Hend. destruct (sr_size _ _ _ Hr) as [Hsz Hmax].
  destruct (repr_entry _ _ _ _ _ Hr) as (a & rest & Hd & Ha).
  pose proof (sr_offset _ _ _ Hr) as Hoff. pose proof (blen_lt_entry data) as Hdl.
  rewrite cons_middle, app_assoc in Hoff, Hend. rewrite end_offset_app in Hoff, Hend.
  pose proof (entries_size_nonneg post) as Hpost. pose proof (blen_nonneg data) as Hdn.
  pose proof (end_offset_ge pre) as Hpre. pose proof (end_offset_snoc pre data) as Hsn.
  change maxSegmentSize with (2 ^ 32) in Hmax. unfold segmentHeaderSize in *.
  unfold Read, WriteOffset, recordHeaderSize, recordTrailerMarkerSize. rewrite Hc.
  rewrite i64_small by lia. if_false.
  rewrite Hd. rewrite slice_app by (rewrite ?blen_record_header; lia). cbn [mbind outcome_bind].
  rewrite record_header_len by lia. cbn [mbind outcome_bind].
  change (alignUp (8 + blen data + 8)) with (entrySize (blen data)).
  rewrite u32_small by lia. if_false. if_false. if_false.
  rewrite (app_assoc a), (app_assoc _ data), trailer_word
    by (rewrite ?blen_app, ?blen_record_header; lia).
  cbn [mbind outcome_bind]. rewrite Z.eqb_refl. cbn [negb].
  rewrite <- (app_assoc _ data), slice_app by (rewrite ?blen_app, ?blen_record_header; lia).
  cbn [mbind outcome_bind]. rewrite <- Hsn.
  destruct (isSealed seg && negb (inMemorySealed seg)); [|done].
  rewrite record_header_crc, record_header_sum_input. cbn [mbind outcome_bind].
  by rewrite Z.eqb_refl.
Qed.

Lemma slice_ok {A} (b : list A) lo hi :
  0 <= lo <= hi -> hi <= blen b -> exists s, slice b lo hi = Ret s /\ blen s = hi - lo.
Proof.
  intros H1 H2. unfold slice. if_true. eexists. split; [done|].
  unfold blen in *. rewrite length_take, length_drop. lia.
Qed.

Lemma get_le_ok n (b : bytes) off :
  0 <= off -> off + Z.of_nat n <= blen b ->
  exists v, get_le n b off = Ret v /\ 0 <= v < 256 ^ Z.of_nat n.
Proof.
  intros H1 H2. unfold get_le.
  destruct (slice_ok b off (off + Z.of_nat n)) as (s & -> & Hs); [lia..|].
  exists (le_val s). split; [done|]. pose proof (le_val_range s) as Hv.
  replace (blen s) with (Z.of_nat n) in Hv by lia. done.
Qed.

Lemma get_u32_ok (b : bytes) off :
  0 <= off -> off + 4 <= blen b -> exists v, get_u32 b off = Ret v /\ u32_word v.
Proof. apply (get_le_ok 4). Qed.
Lemma get_u64_ok (b : bytes) off :
  0 <= off -> off + 8 <= blen b -> exists v, get_u64 b off = Ret v /\ 0 <= v < 2 ^ 64.
Proof. apply (get_le_ok 8). Qed.

(** The sizes of a usable mapping: all that safety of reads depends on. *)
Definition seg_sized (seg : Segment) : Prop :=
  mmapSize seg = blen (mmapData seg) /\ mmapSize seg <= maxSegmentSize /\
  0 <= writeOffset seg <= mmapSize seg.

Lemma repr_sized seg m recs : seg_repr seg m recs -> seg_sized seg.
Proof.
  intros Hr. pose proof (sr_end _ _ _ Hr). destruct Hr as [_ _ _ Hoff [Hsz Hmax] _].
  unfold seg_sized. rewrite Hoff. lia.
Qed.

(** A read never leaves the mapping, whatever the bytes are; and a record it
    returns ends in front of the write offset. *)
Lemma Read_safe seg offset :
  closed seg = false -> seg_sized seg -> 0 <= offset < 2 ^ 63 - 8 ->
  exists r, Read seg offset = Ret r /\
    forall data next, r = Ok (data, next) ->
      SegmentID next = id seg /\ Offset next = offset + entrySize (blen data) /\ Offset next <= writeOffset seg.
Proof.
  intros Hc (Hsz & Hmax & Hw) Ho. unfold Read, recordHeaderSize, recordTrailerMarkerSize, WriteOffset.
  rewrite Hc, i64_small by lia. case_if; [by eexists|].
  destruct (slice_ok (mmapData seg) offset (offset + 8)) as (h & -> & Hh); [lia..|].
  cbn [mbind outcome_bind].
  destruct (get_u32_ok h 4) as (len & -> & Hlr); [lia..|]. unfold u32_word in Hlr.
  cbn [mbind outcome_bind].
  case_if; [by eexists|]. case_if; [by eexists|].
  pose proof (alignUp_bounds (8 + len + 8)) as Hal.
  case_if; [by eexists|].
  destruct (get_u64_ok (mmapData seg) (offset + 8 + len)) as (w & -> & _); [lia..|].
  cbn [mbind outcome_bind]. case_if; [by eexists|].
  destruct (slice_ok (mmapData seg) (offset + 8) (offset + 8 + len)) as (d & -> & Hdl); [lia..|].
  cbn [mbind outcome_bind].
  assert (forall data next,
    Ok (d, mkPos (id seg) (offset + alignUp (8 + len + 8))) = Ok (data, next) :> result error _ ->
    SegmentID next = id seg /\ Offset next = offset + entrySize (blen data) /\ Offset next <= writeOffset seg) as Hok.
  { intros data next [= <- <-]. cbn. split; [done|].
    unfold entrySize, rawSize, recordHeaderSize, recordTrailerMarkerSize.
    replace (blen d) with len by lia. split; [done|lia]. }
  destruct (isSealed seg && negb (inMemorySealed seg)); [|by eexists].
  destruct (get_u32_ok h 0) as (saved & -> & _); [lia..|].
  destruct (slice_ok h 4 8) as (si & -> & _); [lia..|]. cbn [mbind outcome_bind].
  case_if; by eexists.
Qed.
