(* ===== verification/SegmentScan.v ===== *)
(** One write-ahead-log segment: recovery.

    What the scan of [scanForLastOffset] finds, on any bytes whatsoever; that
    it ends; and what [OpenSegmentFile] makes of a new file, of a file an
    earlier process wrote, and of a damaged one. *)

From stdpp Require Import prelude list numbers gmap.
From Stdlib Require Import ZArith Lia.
From S2P Require Import Prelude Bytes Crc32 ReaderTracker Segment SegmentFacts.

(** ** One turn of the scan *)

(** The checksum the writer stores in front of a record. *)
Definition record_crc (data : bytes) : Z := crc32Checksum (le_bytes 4 (blen data)) data.

(** The record is recognisable by the scan, which takes a zero checksum for
    the end of the log. *)
Definition scannable (data : bytes) : Prop := record_crc data <> 0.

#[global] Instance scannable_dec data : Decision (scannable data).
Proof. unfold scannable. apply _. Defined.

(** The length field at the head of [tl] overflows the 32-bit size computation. *)
Definition huge_length (tl : bytes) : Prop :=
  exists len, get_u32 tl 4 = Ret len /\ 2 ^ 32 - 16 <= len.

Lemma le_val_word (s : bytes) : blen s = 4 -> u32_word (le_val s).
Proof. intros H. pose proof (le_val_range s) as Hv. rewrite H in Hv. exact Hv. Qed.

Lemma le_bytes_le_val4 (s : bytes) : blen s = 4 -> le_bytes 4 (le_val s) = s.
Proof. intros H. rewrite <- (le_bytes_le_val s) at 2. f_equal. unfold blen in H. lia. Qed.

(** The parts of a scanned entry. *)
Lemma scan_step fuel size a (c l x t pad rest : bytes) :
  let d := a ++ (c ++ l) ++ x ++ t ++ pad ++ rest in
  size = blen d -> size <= 2 ^ 32 -> 64 <= blen a -> (8 | blen a) ->
  blen c = 4 -> blen l = 4 -> blen x = le_val l -> blen t = 8 ->
  blen pad = entrySize (le_val l) - rawSize (le_val l) ->
  scan_loop (S fuel) size d (blen a) =
  if (le_val c =? 0) || negb (le_val c =? crc32Checksum l x) || negb (bool_decide (t = trailerMarker))
  then Ret (blen a)
  else scan_loop fuel size d (blen a + entrySize (le_val l)).
Proof.
  intros d Hsz Hmax Ha Hal Hc Hl Hx Ht Hpad. pose proof (blen_nonneg rest) as Hrest.
  pose proof (rawSize_le (le_val l)) as Hraw. pose proof (le_val_word _ Hl) as Hlw.
  assert (blen a + entrySize (le_val l) + blen rest = size) as Htot.
  { subst size d. rewrite !blen_app. unfold rawSize, recordHeaderSize, recordTrailerMarkerSize in *. lia. }
  unfold rawSize, recordHeaderSize, recordTrailerMarkerSize, u32_word in *.
  assert (slice d (blen a) (blen a + 8) = Ret (c ++ l)) as S1
    by (unfold d; apply slice_app; rewrite ?blen_app; lia).
  assert (slice d (blen a + 8) (blen a + 8 + le_val l) = Ret x) as S2
    by (unfold d; rewrite (app_assoc a); apply slice_app; rewrite ?blen_app; lia).
  assert (slice d (blen a + 8 + le_val l) (blen a + 8 + le_val l + 8) = Ret t) as S3
    by (unfold d; rewrite (app_assoc a), (app_assoc _ x); apply slice_app; rewrite ?blen_app; lia).
  assert (get_u32 (c ++ l) 4 = Ret (le_val l)) as S4
    by (rewrite <- (app_nil_r l) at 1; apply get_le_app; unfold blen in *; lia).
  assert (get_u32 (c ++ l) 0 = Ret (le_val c)) as S5
    by (apply (get_le_app 4 [] c l); unfold blen in *; done || lia).
  assert (slice (c ++ l) 4 8 = Ret l) as S6
    by (rewrite <- (app_nil_r l) at 1; apply slice_app; lia).
  cbn [scan_loop]. unfold recordHeaderSize, recordTrailerMarkerSize.
  rewrite (alignUp_id (blen a)) by done. if_false. if_false.
  rewrite S1. cbn [mbind outcome_bind]. rewrite S4. cbn [mbind outcome_bind]. rewrite u32_small by lia.
  change (alignUp (8 + le_val l + 8)) with (entrySize (le_val l)). if_false.
  rewrite S2, S3. cbn [mbind outcome_bind]. rewrite S5, S6. cbn [mbind outcome_bind].
  destruct (le_val c =? 0); cbn [andb orb]; [|done]. by destruct (_ =? _).
Qed.

(** A valid entry is stepped over. *)
Lemma scan_entry fuel size a data pad rest :
  let d := a ++ record_header data ++ data ++ trailerMarker ++ pad ++ rest in
  size = blen d -> size <= 2 ^ 32 -> 64 <= blen a -> (8 | blen a) -> scannable data ->
  blen pad = entrySize (blen data) - rawSize (blen data) ->
  scan_loop (S fuel) size d (blen a) = scan_loop fuel size d (blen a + entrySize (blen data)).
Proof.
  intros d Hsz Hmax Ha Hal Hcrc Hpad. pose proof (blen_nonneg data) as Hn.
  assert (u32_word (blen data)) as Hw.
  { subst size d. rewrite !blen_app in Hmax. pose proof (blen_nonneg pad). pose proof (blen_nonneg rest).
    rewrite blen_record_header in Hmax. change (blen trailerMarker) with 8 in Hmax. unfold u32_word. lia. }
  assert (le_val (le_bytes 4 (blen data)) = blen data) as Hlv
    by (rewrite le_val_le_bytes; by apply mod_word).
  assert (le_val (le_bytes 4 (record_crc data)) = record_crc data) as Hcv
    by (rewrite le_val_le_bytes; apply mod_word, crc32Checksum_word).
  pose proof (scan_step fuel size a (le_bytes 4 (record_crc data)) (le_bytes 4 (blen data))
                data trailerMarker pad rest) as Hst.
  cbv zeta in Hst. rewrite Hlv, Hcv in Hst.
  change (le_bytes 4 (record_crc data) ++ le_bytes 4 (blen data)) with (record_header data) in Hst.
  unfold d. rewrite Hst by (done || by rewrite blen_le_bytes).
  rewrite bool_decide_true by done.
  assert (record_crc data =? 0 = false) as -> by (apply Z.eqb_neq, Hcrc).
  unfold record_crc. by rewrite Z.eqb_refl.
Qed.

Lemma scan_entries size recs : forall fuel a body tl,
  let d := a ++ body ++ tl in
  entries body recs -> Forall scannable recs ->
  size = blen d -> size <= 2 ^ 32 -> 64 <= blen a -> (8 | blen a) ->
  scan_loop (length recs + fuel) size d (blen a) = scan_loop fuel size d (blen a + entries_size recs).
Proof.
  induction recs as [|data recs IH]; intros fuel a body tl d He Hf Hsz Hmax Ha Hal.
  - cbn [length Nat.add entries_size foldr]. by rewrite Z.add_0_r.
  - inversion He as [|? pad body' ? Hpad He']; subst data0 recs0 body. apply Forall_cons in Hf as [Hc Hf].
    cbn [length Nat.add entries_size foldr]. fold (entries_size recs).
    assert (d = a ++ record_header data ++ data ++ trailerMarker ++ pad ++ body' ++ tl) as Hd
      by (unfold d; by rewrite <- !app_assoc).
    rewrite Hd, scan_entry by (done || by rewrite <- Hd).
    set (a' := a ++ record_header data ++ data ++ trailerMarker ++ pad).
    assert (blen a' = blen a + entrySize (blen data)) as Ha'.
    { unfold a'. rewrite !blen_app, blen_record_header, Hpad. change (blen trailerMarker) with 8.
      unfold rawSize, recordHeaderSize, recordTrailerMarkerSize. lia. }
    pose proof (entrySize_pos _ (blen_nonneg data)).
    assert (a' ++ body' ++ tl = d) as Hd' by (unfold a'; rewrite Hd, <- !app_assoc; done).
    rewrite <- Hd, <- Hd', <- Ha'. rewrite IH; rewrite ?Hd'; try done.
    + rewrite Ha'. f_equal. lia.
    + lia.
    + rewrite Ha'. apply Z.divide_add_r; [done | apply entrySize_multiple].
Qed.

(** ** The scan on arbitrary bytes *)

(** [tl] begins with a valid entry. *)
Definition entry_head (tl : bytes) : Prop :=
  exists data pad rest,
    tl = record_header data ++ data ++ trailerMarker ++ pad ++ rest /\
    blen pad = entrySize (blen data) - rawSize (blen data) /\ scannable data /\ u32_word (blen data).

Lemma entry_head_inv (c l r : bytes) :
  blen c = 4 -> blen l = 4 -> entry_head ((c ++ l) ++ r) ->
  exists data pad rest, r = data ++ trailerMarker ++ pad ++ rest /\
    c = le_bytes 4 (record_crc data) /\ l = le_bytes 4 (blen data) /\ le_val l = blen data /\
    blen pad = entrySize (blen data) - rawSize (blen data) /\ scannable data.
Proof.
  intros Hc Hl (data & pad & rest & Heq & Hpad & Hs & Hw). unfold record_header in Heq.
  apply app_inj_1 in Heq as [Hh ->].
  2: { rewrite !length_app, !length_le_bytes. unfold blen in *. lia. }
  apply app_inj_1 in Hh as [-> ->].
  2: { rewrite length_le_bytes. unfold blen in *. lia. }
  exists data, pad, rest. repeat split; try done.
  rewrite le_val_le_bytes. by apply mod_word.
Qed.

Lemma entry_head_blen tl : entry_head tl -> 16 <= blen tl.
Proof.
  intros (data & pad & rest & -> & _ & _ & _). rewrite !blen_app, blen_record_header.
  change (blen trailerMarker) with 8.
  pose proof (blen_nonneg data). pose proof (blen_nonneg pad). pose proof (blen_nonneg rest). lia.
Qed.

(** With a length field that overflows, the scan panics, or it is so close to
    the end of the mapping that it stops. *)
Lemma scan_huge fuel size a (c l r : bytes) :
  let d := a ++ (c ++ l) ++ r in
  size = blen d -> size <= 2 ^ 32 -> 64 <= blen a -> (8 | blen a) ->
  blen c = 4 -> blen l = 4 -> 2 ^ 32 - 16 <= le_val l ->
  scan_loop (S fuel) size d (blen a) =
  if size <? blen a + alignUp (le_val l + 16 - 2 ^ 32) then Ret (blen a) else Panic.
Proof.
  intros d Hsz Hmax Ha Hal Hc Hl Hlen. pose proof (le_val_word _ Hl) as Hlw. unfold u32_word in Hlw.
  pose proof (blen_nonneg r). assert (size = blen a + 8 + blen r) by (subst size d; rewrite !blen_app; lia).
  assert (slice d (blen a) (blen a + 8) = Ret (c ++ l)) as S1
    by (unfold d; apply slice_app; rewrite ?blen_app; lia).
  assert (get_u32 (c ++ l) 4 = Ret (le_val l)) as S4
    by (rewrite <- (app_nil_r l) at 1; apply get_le_app; unfold blen in *; lia).
  cbn [scan_loop]. unfold recordHeaderSize, recordTrailerMarkerSize.
  rewrite (alignUp_id (blen a)) by done. if_false. if_false.
  rewrite S1. cbn [mbind outcome_bind]. rewrite S4. cbn [mbind outcome_bind].
  replace (u32 (8 + le_val l + 8)) with (le_val l + 16 - 2 ^ 32)
    by (unfold u32; rewrite (Z.mod_unique (8 + le_val l + 8) (2 ^ 32) 1 (le_val l + 16 - 2 ^ 32)); lia).
  destruct (size <? _) eqn:E; [done|].
  assert (slice d (blen a + 8) (blen a + 8 + le_val l) = Panic) as -> by (unfold slice; by if_false).
  done.
Qed.

Lemma scan_short (fuel : nat) size d off :
  size < off + 8 -> scan_loop (S fuel) size d off = Ret off.
Proof. intros. cbn [scan_loop]. unfold recordHeaderSize. by if_true. Qed.

(** The entry would not fit into the mapping. *)
Lemma scan_cut fuel size a (c l r : bytes) :
  let d := a ++ (c ++ l) ++ r in
  size = blen d -> 64 <= blen a -> (8 | blen a) -> blen c = 4 -> blen l = 4 ->
  le_val l < 2 ^ 32 - 16 -> size < blen a + entrySize (le_val l) ->
  scan_loop (S fuel) size d (blen a) = Ret (blen a).
Proof.
  intros d Hsz Ha Hal Hc Hl Hlen Hcut. pose proof (le_val_word _ Hl) as Hlw. unfold u32_word in Hlw.
  pose proof (blen_nonneg r). assert (size = blen a + 8 + blen r) by (subst size d; rewrite !blen_app; lia).
  assert (slice d (blen a) (blen a + 8) = Ret (c ++ l)) as S1
    by (unfold d; apply slice_app; rewrite ?blen_app; lia).
  assert (get_u32 (c ++ l) 4 = Ret (le_val l)) as S4
    by (rewrite <- (app_nil_r l) at 1; apply get_le_app; unfold blen in *; lia).
  cbn [scan_loop]. unfold recordHeaderSize, recordTrailerMarkerSize.
  rewrite (alignUp_id (blen a)) by done. if_false. if_false.
  rewrite S1. cbn [mbind outcome_bind]. rewrite S4. cbn [mbind outcome_bind]. rewrite u32_small by lia.
  change (alignUp (8 + le_val l + 8)) with (entrySize (le_val l)). by if_true.
Qed.

(** What the scan makes of [rest], the bytes behind [a]: it returns the end of
    the longest run of valid entries, except that it panics at a length field
    of [2^32 - 16] or more. *)
Definition scan_result (fuel : nat) (a rest : bytes) : Prop :=
  exists recs body tl,
    rest = body ++ tl /\ entries body recs /\ Forall scannable recs /\
    (scan_loop fuel (blen (a ++ rest)) (a ++ rest) (blen a) = Ret (blen a + entries_size recs) /\
       ~ entry_head tl \/
     scan_loop fuel (blen (a ++ rest)) (a ++ rest) (blen a) = Panic /\ huge_length tl).

Lemma scan_result_stop fuel a rest :
  scan_loop fuel (blen (a ++ rest)) (a ++ rest) (blen a) = Ret (blen a) -> ~ entry_head rest ->
  scan_result fuel a rest.
Proof.
  intros H1 H2. exists [], [], rest. split_and!; [done|constructor|constructor|].
  left. change (entries_size []) with 0. by rewrite Z.add_0_r.
Qed.

(** The bytes of an entry at the head of [(c ++ l) ++ r]. *)
Lemma entry_head_fits (c l r : bytes) :
  blen c = 4 -> blen l = 4 -> entry_head ((c ++ l) ++ r) ->
  le_val l + 8 <= blen r /\ entrySize (le_val l) <= 8 + blen r.
Proof.
  intros Hc Hl (data & pad & rest' & Hreq & _ & Hlv & Hv & Hpad & _)%entry_head_inv; try done.
  assert (blen r = blen data + 8 + blen pad + blen rest') as Hbr
    by (rewrite Hreq, !blen_app; change (blen trailerMarker) with 8; lia).
  pose proof (blen_nonneg pad). pose proof (blen_nonneg rest').
  unfold rawSize, recordHeaderSize, recordTrailerMarkerSize in Hpad. rewrite Hv. lia.
Qed.

Lemma scan_result_huge fuel a (c l r : bytes) :
  blen (a ++ (c ++ l) ++ r) <= 2 ^ 32 -> 64 <= blen a -> (8 | blen a) ->
  blen c = 4 -> blen l = 4 -> 2 ^ 32 - 16 <= le_val l ->
  scan_result (S fuel) a ((c ++ l) ++ r).
Proof.
  intros Hmax Ha Hal Hc Hl Hhuge.
  pose proof (scan_huge fuel _ a c l r eq_refl Hmax Ha Hal Hc Hl Hhuge) as Hs.
  case_if_in Hs.
  - apply scan_result_stop; [done|]. intros [H _]%entry_head_fits; try done.
    rewrite !blen_app in Hmax. lia.
  - exists [], [], ((c ++ l) ++ r). split_and!; [done|constructor|constructor|].
    right. split; [done|]. exists (le_val l). split; [|done]. rewrite <- app_assoc.
    unfold get_u32. apply get_le_app; unfold blen in *; lia.
Qed.

(** What the checks of one turn establish. *)
Lemma entry_valid (c l x t : bytes) :
  blen c = 4 -> blen l = 4 -> blen x = le_val l ->
  (le_val c =? 0) || negb (le_val c =? crc32Checksum l x) || negb (bool_decide (t = trailerMarker)) = false
  <-> c ++ l = record_header x /\ t = trailerMarker /\ scannable x.
Proof.
  intros Hc Hl Hx. rewrite !orb_false_iff, !negb_false_iff, bool_decide_eq_true, Z.eqb_eq, Z.eqb_neq.
  unfold record_header, scannable, record_crc. rewrite Hx, (le_bytes_le_val4 l Hl). split.
  - intros [[Hnz <-] ->]. by rewrite le_bytes_le_val4.
  - intros (Heq & -> & Hs). apply app_inv_tail in Heq as ->.
    by rewrite le_val_le_bytes, (mod_word _ (crc32Checksum_word _ _)).
Qed.

(** A whole entry is there: either it is valid and the scan goes on behind it,
    or the scan stops. *)
Lemma scan_result_step fuel a (c l r : bytes) :
  blen (a ++ (c ++ l) ++ r) <= 2 ^ 32 -> 64 <= blen a -> (8 | blen a) ->
  blen c = 4 -> blen l = 4 -> entrySize (le_val l) <= 8 + blen r ->
  (forall e rest, r = e ++ rest -> blen e = entrySize (le_val l) - 8 ->
     scan_result fuel (a ++ (c ++ l) ++ e) rest) ->
  scan_result (S fuel) a ((c ++ l) ++ r).
Proof.
  intros Hmax Ha Hal Hc Hl Hin Hrec. pose proof (le_val_word _ Hl) as Hlw. unfold u32_word in Hlw.
  pose proof (rawSize_le (le_val l)) as Hraw.
  assert (rawSize (le_val l) = le_val l + 16) as Hrs
    by (unfold rawSize, recordHeaderSize, recordTrailerMarkerSize; lia).
  destruct (split_blen r (le_val l)) as (x & r1 & -> & Hx & Hr1); [lia|].
  destruct (split_blen r1 8) as (t & r2 & -> & Ht & Hr2); [lia|].
  destruct (split_blen r2 (entrySize (le_val l) - rawSize (le_val l))) as (pad & rest & -> & Hpad & Hr3); [lia|].
  pose proof (scan_step fuel _ a c l x t pad rest eq_refl Hmax Ha Hal Hc Hl Hx Ht Hpad) as Hst.
  destruct (_ || _) eqn:Ebad in Hst.
  - apply scan_result_stop; [done|].
    intros (data & pad' & rest' & Hreq & Hcc & Hll & Hv & _ & Hsc)%entry_head_inv; try done.
    rewrite Hv in Hx. apply app_inj_1 in Hreq as [-> Hreq]; [|by apply blen_length].
    apply app_inj_1 in Hreq as [-> _]; [|by apply blen_length].
    rewrite (proj2 (entry_valid c l data trailerMarker Hc Hl (eq_sym Hv))) in Ebad; [done|].
    by rewrite Hcc, Hll.
  - apply (entry_valid c l x t Hc Hl Hx) in Ebad as (Hrh & Htr & Hsc).
    destruct (Hrec (x ++ t ++ pad) rest) as (recs & body & tl & -> & He & Hf & Hres).
    { by rewrite <- !app_assoc. }
    { rewrite !blen_app, Hpad. lia. }
    exists (x :: recs), ((c ++ l) ++ x ++ t ++ pad ++ body), tl.
    split_and!; [by rewrite <- !app_assoc | | by constructor | ].
    + rewrite Hrh, Htr. constructor; [by rewrite Hx | done].
    + replace (a ++ (c ++ l) ++ x ++ t ++ pad ++ body ++ tl)
        with ((a ++ (c ++ l) ++ x ++ t ++ pad) ++ body ++ tl) in * by (by rewrite <- !app_assoc).
      assert (blen (a ++ (c ++ l) ++ x ++ t ++ pad) = blen a + entrySize (le_val l)) as Hbl
        by (rewrite !blen_app, Hpad; lia).
      rewrite Hst, <- Hbl. cbn [entries_size foldr]. fold (entries_size recs).
      by rewrite Hx, Z.add_assoc, <- Hbl.
Qed.

Lemma scan_total fuel : forall a rest,
  blen (a ++ rest) <= 2 ^ 32 -> 64 <= blen a -> (8 | blen a) ->
  (0 < fuel)%nat -> blen rest < Z.of_nat fuel ->
  scan_result fuel a rest.
Proof.
  induction fuel as [|fuel IH]; [lia|]. intros a rest Hmax Ha Hal _ Hfuel.
  destruct (decide (blen rest < 8)) as [Hshort|Hlong].
  { apply scan_result_stop; [apply scan_short; rewrite blen_app; lia|]. intros H%entry_head_blen. lia. }
  destruct (split_blen rest 8) as (h & r & -> & Hh & Hr); [lia|].
  destruct (split_blen h 4) as (c & l & -> & Hc & Hl); [lia|]. rewrite Hh in Hl. change (8 - 4) with 4 in Hl.
  pose proof (le_val_word _ Hl) as Hlw. unfold u32_word in Hlw.
  destruct (decide (2 ^ 32 - 16 <= le_val l)); [by apply scan_result_huge|].
  destruct (decide (8 + blen r < entrySize (le_val l))).
  - apply scan_result_stop.
    + apply scan_cut; try done; [lia | rewrite !blen_app; lia].
    + intros [_ H]%entry_head_fits; try done. lia.
  - pose proof (entrySize_pos (le_val l)). apply scan_result_step; try done; [lia|].
    intros e rest -> He.
    assert (blen (a ++ (c ++ l) ++ e) = blen a + entrySize (le_val l)) as Hbl by (rewrite !blen_app; lia).
    rewrite app_assoc, app_assoc, blen_app, <- app_assoc, Hbl in Hmax. rewrite !blen_app in Hfuel.
    pose proof (blen_nonneg rest).
    apply IH; rewrite ?(blen_app _ rest), ?Hbl; try lia.
    apply Z.divide_add_r; [done | apply entrySize_multiple].
Qed.

(** ** Opening *)

Definition io_opens (io : IO) : Prop :=
  io_stat io = true /\ io_open io = true /\ io_truncate io = true /\ io_mmap io = true.

(** The segment as the options leave it. *)
Definition configured (segID size : Z) (opt : MsyncOption) : Segment :=
  WithSyncOption opt (WithSegmentSize size (blankSegment segID)).

Lemma truncate_file_same size (d : bytes) : blen d = size -> truncate_file size d = d.
Proof.
  intros <-. unfold truncate_file. rewrite to_nat_blen, take_ge by lia.
  by rewrite Nat.sub_diag, app_nil_r.
Qed.

Lemma truncate_file_new size : truncate_file size [] = replicate (Z.to_nat size) Byte.x00.
Proof. unfold truncate_file. by rewrite take_nil, Nat.sub_0_r. Qed.

(** The header a new file gets. *)
Definition initial_header (now : Z) : SegmentHeader :=
  mkSegmentHeader segmentMagicNumber segmentHeaderVersion (i64 now) (i64 now)
    segmentHeaderSize 0 FlagActive.

Lemma initial_header_wf now : wf_header (initial_header now).
Proof. constructor; cbn; try apply i64_in_range; unfold u32_word, i64_range; by vm_compute. Qed.

Lemma writeInitialMetadata_layout io rest :
  writeInitialMetadata io (replicate 64 Byte.x00 ++ rest) =
  Ret (header_bytes (initial_header (io_now io)) (replicate 12 Byte.x00) (replicate 4 Byte.x00) ++ rest).
Proof.
  change (replicate 64 Byte.x00) with
    (hdr_pre (mkSegmentHeader 0 0 0 0 0 0 0) (replicate 12 Byte.x00) ++
     replicate 4 Byte.x00 ++ replicate 4 Byte.x00).
  rewrite <- !app_assoc. unfold writeInitialMetadata. do 7 put_field.
  apply put_header_crc_layout; [|done..]. unfold hdr_pre, initial_header. hdr_cbn.
  by rewrite !le_bytes_i64, !le_bytes_u64.
Qed.

Definition seg_opts (size : Z) (opt : MsyncOption) : list (Segment -> Segment) :=
  [WithSegmentSize size; WithSyncOption opt].

(** The segment [OpenSegmentFile] builds on the mapped bytes [d]. *)
Definition opened (segID size : Z) (opt : MsyncOption) (d : bytes) (offset : Z) (sealed : bool) : Segment :=
  let s := set_onDisk true (set_mmapData d (configured segID size opt)) in
  set_writeOffset offset (if sealed then set_isSealed true s else s).

Lemma opened_open segID size opt d o b : seg_open (opened segID size opt d o b).
Proof. by destruct b. Qed.

(** A new file: an empty segment. *)
Lemma Open_new io segID size opt :
  io_opens io -> 64 <= size <= maxSegmentSize ->
  exists d, OpenSegmentFile io None segID (seg_opts size opt) =
      Ret (Some d, Ok (opened segID size opt d segmentHeaderSize false)) /\
    seg_repr (opened segID size opt d segmentHeaderSize false) (initial_header (io_now io)) [].
Proof.
  intros (Hst & Hop & Htr & Hmm) [Hmin Hmax].
  unfold OpenSegmentFile, isNewSegment. rewrite Hst. cbn [foldl seg_opts].
  unfold WithSegmentSize at 1 2 3, WithSyncOption at 1 2 3. seg_cbn. if_false.
  unfold prepareSegmentFile. rewrite Hop, Htr, Hmm. cbn [negb orb default]. seg_cbn. if_false.
  rewrite truncate_file_new.
  assert (replicate (Z.to_nat size) Byte.x00 =
          replicate 64 Byte.x00 ++ replicate (Z.to_nat (size - 64)) Byte.x00) as ->
    by (rewrite <- replicate_add; f_equal; lia).
  rewrite writeInitialMetadata_layout. cbn [mbind outcome_bind].
  exists (header_bytes (initial_header (io_now io)) (replicate 12 Byte.x00) (replicate 4 Byte.x00) ++
          replicate (Z.to_nat (size - 64)) Byte.x00).
  split; [reflexivity|]. constructor; unfold opened; seg_cbn.
  - exists (replicate 12 Byte.x00), (replicate 4 Byte.x00), [], (replicate (Z.to_nat (size - 64)) Byte.x00).
    by repeat constructor.
  - apply initial_header_wf.
  - intros _. by vm_compute.
  - done.
  - rewrite blen_app, blen_header_bytes, blen_replicate by done. cbn. lia.
  - done.
Qed.

Lemma header_slice m rsv pad rest :
  blen rsv = 12 -> blen pad = 4 ->
  slice (header_bytes m rsv pad ++ rest) 0 segmentHeaderSize = Ret (header_bytes m rsv pad).
Proof. intros. apply slice_head. by rewrite blen_header_bytes. Qed.

(** An existing file of the configured size, up to the recovery of the offset. *)
Lemma Open_existing io segID size opt m rsv pad rest :
  let d := header_bytes m rsv pad ++ rest in
  io_opens io -> size = blen d -> size <= maxSegmentSize -> wf_header m ->
  blen rsv = 12 -> blen pad = 4 ->
  OpenSegmentFile io (Some d) segID (seg_opts size opt) =
  if IsSealed (Flags m)
  then Ret (Some d, Ok (opened segID size opt d (WriteOffsetField m) true))
  else offset ← scan_loop (scan_fuel d) size d segmentHeaderSize;
       Ret (Some d, Ok (opened segID size opt d offset false)).
Proof.
  intros d (Hst & Hop & Htr & Hmm) Hsz Hmax Hwf Hr Hp.
  assert (0 <= size) by (rewrite Hsz; apply blen_nonneg).
  unfold OpenSegmentFile, isNewSegment. rewrite Hst. cbn [foldl seg_opts].
  unfold WithSegmentSize at 1 2 3, WithSyncOption at 1 2 3. seg_cbn. if_false.
  unfold prepareSegmentFile. rewrite Hop, Htr, Hmm. cbn [negb orb default]. seg_cbn. if_false.
  rewrite truncate_file_same by done. change (Datatypes.id d) with d.
  assert (slice d 0 segmentHeaderSize = Ret (header_bytes m rsv pad)) as -> by (by apply header_slice).
  cbn [mbind outcome_bind]. rewrite decode_header_bytes by done. cbn [mbind outcome_bind].
  destruct (IsSealed (Flags m)); [reflexivity|].
  unfold scanForLastOffset. seg_cbn. by destruct (scan_loop _ _ _ _).
Qed.

(** The result of reopening an unsealed image: the records in front of the
    first thing that is not a valid entry. *)
Lemma Open_unsealed io segID size opt m rsv pad rest :
  let d := header_bytes m rsv pad ++ rest in
  io_opens io -> size = blen d -> size <= maxSegmentSize -> wf_header m ->
  blen rsv = 12 -> blen pad = 4 ->
  IsSealed (Flags m) = false -> 0 <= WriteOffsetField m < 2 ^ 32 ->
  exists recs body tl, rest = body ++ tl /\ entries body recs /\ Forall scannable recs /\
    (~ entry_head tl /\
     OpenSegmentFile io (Some d) segID (seg_opts size opt) =
       Ret (Some d, Ok (opened segID size opt d (end_offset recs) false)) /\
     seg_repr (opened segID size opt d (end_offset recs) false) m recs
     \/ huge_length tl /\ OpenSegmentFile io (Some d) segID (seg_opts size opt) = Panic).
Proof.
  intros d Hio Hsz Hmax Hwf Hr Hp Hs Hlow. unfold d. rewrite Open_existing, Hs by done. fold d.
  assert (blen (header_bytes m rsv pad) = 64) as Hh by (by apply blen_header_bytes).
  destruct (scan_total (scan_fuel d) (header_bytes m rsv pad) rest)
    as (recs & body & tl & Hrest & He & Hf & Hres); fold d.
  { by rewrite <- Hsz. }
  { lia. }
  { rewrite Hh. by exists 8. }
  { unfold scan_fuel. lia. }
  { unfold scan_fuel, d. rewrite length_app. unfold blen in *. lia. }
  exists recs, body, tl. split_and!; [done..|]. fold d in Hres. rewrite Hh, <- Hsz in Hres.
  change (64 + entries_size recs) with (end_offset recs) in Hres.
  change (scan_loop (scan_fuel d) size d segmentHeaderSize) with (scan_loop (scan_fuel d) size d 64).
  destruct Hres as [[Hscan Hne]|[Hscan Hhuge]]; [left|right]; rewrite Hscan; [|done].
  split_and!; [done..|]. constructor; unfold opened; seg_cbn; try done.
  - exists rsv, pad, body, tl. by rewrite <- Hrest.
Qed.

(** ** Reopening *)

Lemma entries_length body recs : entries body recs -> 16 * blen recs <= blen body.
Proof.
  intros He. rewrite (entries_blen _ _ He). clear He.
  induction recs as [|d recs IH]; [done|]. cbn [entries_size foldr]. fold (entries_size recs).
  rewrite blen_cons. pose proof (entrySize_pos _ (blen_nonneg d)). lia.
Qed.

Lemma entries_head_inv body recs tl :
  entries body recs -> Forall scannable recs -> blen body <= 2 ^ 32 -> ~ entry_head (body ++ tl) -> recs = [].
Proof.
  intros He Hf Hmax Hne. destruct He as [|data pad body recs Hp He]; [done|]. exfalso. apply Hne.
  apply Forall_cons in Hf as [Hs _]. exists data, pad, (body ++ tl). rewrite <- !app_assoc.
  split_and!; try done. rewrite !blen_app, blen_record_header in Hmax.
  change (blen trailerMarker) with 8 in Hmax. pose proof (blen_nonneg data).
  pose proof (blen_nonneg pad). pose proof (blen_nonneg body). unfold u32_word. lia.
Qed.

(** The scan finds exactly the records that are there. *)
Lemma scan_exact a body recs tl :
  let d := a ++ body ++ tl in
  entries body recs -> Forall scannable recs -> ~ entry_head tl -> ~ huge_length tl ->
  blen d <= 2 ^ 32 -> blen a = 64 ->
  scan_loop (scan_fuel d) (blen d) d 64 = Ret (end_offset recs).
Proof.
  intros d He Hf Hne Hnh Hmax Ha. pose proof (entries_length _ _ He) as Hlen.
  assert (length d = (64 + length body + length tl)%nat) as Hd.
  { unfold d. rewrite !length_app. unfold blen in Ha. lia. }
  set (fuel := (scan_fuel d - length recs)%nat).
  replace (scan_fuel d) with (length recs + fuel)%nat by (unfold fuel, scan_fuel, blen in *; lia).
  assert (blen (a ++ body) = end_offset recs) as Hab.
  { rewrite blen_app, (entries_blen _ _ He), Ha. done. }
  assert ((a ++ body) ++ tl = d) as Hassoc by (unfold d; by rewrite app_assoc).
  destruct (scan_total fuel (a ++ body) tl) as (recs2 & body2 & tl2 & -> & He2 & Hf2 & Hres).
  { by rewrite Hassoc. }
  { rewrite Hab. apply end_offset_ge. }
  { rewrite Hab. apply Z.divide_add_r; [by exists 8 | apply entries_size_multiple]. }
  { unfold fuel, scan_fuel, blen in *; lia. }
  { unfold fuel, scan_fuel, blen in *; lia. }
  assert (blen body2 <= 2 ^ 32) as Hb2.
  { unfold d in Hmax. rewrite !blen_app in Hmax. pose proof (blen_nonneg body). pose proof (blen_nonneg tl2). lia. }
  pose proof (entries_head_inv _ _ _ He2 Hf2 Hb2 Hne) as ->. inversion He2; subst body2. cbn [app] in *.
  rewrite Hassoc, Hab in Hres. change (entries_size []) with 0 in Hres. rewrite Z.add_0_r in Hres.
  pose proof (scan_entries (blen d) recs fuel a body tl2) as Hse. cbv zeta in Hse. fold d in Hse.
  rewrite Ha in Hse. rewrite Hse; try done; [|by exists 8].
  change (64 + entries_size recs) with (end_offset recs).
  by destruct Hres as [[-> _]|[_ ?]].
Qed.

(** The bytes behind the write offset. *)
Definition tail_of (seg : Segment) : bytes := drop (Z.to_nat (writeOffset seg)) (mmapData seg).

(** The scan stops at the write offset of [seg]: nothing behind it looks like a record. *)
Definition tail_ends (seg : Segment) : Prop := ~ entry_head (tail_of seg) /\ ~ huge_length (tail_of seg).

Lemma repr_tail_of seg m recs rsv pad body tl :
  seg_repr seg m recs -> mmapData seg = header_bytes m rsv pad ++ body ++ tl ->
  blen rsv = 12 -> blen pad = 4 -> entries body recs -> tail_of seg = tl.
Proof.
  intros Hr Hd Hrsv Hpad He. unfold tail_of. rewrite Hd, (sr_offset _ _ _ Hr), app_assoc.
  rewrite drop_app_length'; [done|]. apply Nat2Z.inj. rewrite Z2Nat.id by (pose proof (end_offset_ge recs); lia).
  symmetry. change (blen (header_bytes m rsv pad ++ body) = end_offset recs).
  by rewrite blen_app, blen_header_bytes, (entries_blen _ _ He) by done.
Qed.

(** Reopening the image of a segment brings its records back. *)
Lemma Reopen_unsealed io segID opt seg m recs :
  io_opens io -> seg_repr seg m recs -> IsSealed (Flags m) = false ->
  Forall scannable recs -> tail_ends seg ->
  let seg' := opened segID (mmapSize seg) opt (mmapData seg) (end_offset recs) false in
  OpenSegmentFile io (Some (mmapData seg)) segID (seg_opts (mmapSize seg) opt) =
    Ret (Some (mmapData seg), Ok seg') /\ seg_repr seg' m recs.
Proof.
  intros Hio Hr Hs Hf [Hne Hnh]. pose proof Hr as [(rsv & pad & body & tl & Hd & Hrsv & Hpad & He) Hwf Hlow Hoff [Hsz Hmax] _].
  rewrite (repr_tail_of _ _ _ _ _ _ _ Hr Hd Hrsv Hpad He) in Hne, Hnh. cbv zeta.
  split.
  - rewrite Hd at 1. rewrite Open_existing by (try done; by rewrite <- Hd). rewrite Hs, <- Hd, Hsz, Hd.
    change segmentHeaderSize with 64. rewrite (scan_exact _ body recs tl); try done.
    + by rewrite <- Hd, <- Hsz.
    + by rewrite blen_header_bytes.
  - constructor; unfold opened; seg_cbn; try done. by exists rsv, pad, body, tl.
Qed.

(** A sealed image is not scanned; its header carries the offset. *)
Lemma Reopen_sealed io segID opt seg m recs :
  io_opens io -> seg_repr seg m recs -> IsSealed (Flags m) = true ->
  WriteOffsetField m = writeOffset seg ->
  let seg' := opened segID (mmapSize seg) opt (mmapData seg) (end_offset recs) true in
  OpenSegmentFile io (Some (mmapData seg)) segID (seg_opts (mmapSize seg) opt) =
    Ret (Some (mmapData seg), Ok seg') /\ seg_repr seg' m recs.
Proof.
  intros Hio Hr Hs Hw. pose proof Hr as [(rsv & pad & body & tl & Hd & Hrsv & Hpad & He) Hwf _ Hoff [Hsz Hmax] _].
  cbv zeta. split.
  - rewrite Hd at 1. rewrite Open_existing by (try done; by rewrite <- Hd). by rewrite Hs, <- Hd, Hw, Hoff.
  - constructor; unfold opened; seg_cbn; try done; [by exists rsv, pad, body, tl | by rewrite Hs].
Qed.
