(* ===== verification/SegmentSpec.v ===== *)
(** One write-ahead-log segment: what it promises.

    The abstract segment is a bounded, append-only list of records that can be
    sealed.  The file proves that sealing keeps the representation, gives the
    abstract operations, and proves that every sequence of calls on a segment
    simulates the same calls on the abstract one. *)

From stdpp Require Import prelude list numbers gmap.
From Stdlib Require Import ZArith Lia.
From S2P Require Import Prelude Bytes Crc32 ReaderTracker Segment SegmentFacts SegmentScan.

(** ** Sealing *)

Definition sealed_flags (flags : Z) : Z := Z.lor (Z.ldiff flags FlagActive) FlagSealed.

Definition hdr_sealed (now offset : Z) (m : SegmentHeader) : SegmentHeader :=
  mkSegmentHeader (Magic m) (Version m) (CreatedAt m) (i64 now) offset (EntryCount m)
    (sealed_flags (Flags m)).

Lemma sealed_flags_word f : u32_word f -> u32_word (sealed_flags f).
Proof.
  intros [H0 H1]. unfold u32_word, sealed_flags.
  assert (0 <= Z.lor (Z.ldiff f FlagActive) FlagSealed) as Hp.
  { apply Z.lor_nonneg. split; [|done]. apply Z.ldiff_nonneg. by left. }
  split; [done|]. apply Z.bounded_iff_bits_nonneg; [lia|done|]. intros l Hl.
  rewrite Z.lor_spec, Z.ldiff_spec.
  rewrite (proj1 (Z.bounded_iff_bits_nonneg 32 f ltac:(lia) H0) H1 l Hl).
  rewrite (proj1 (Z.bounded_iff_bits_nonneg 32 FlagSealed ltac:(lia) ltac:(done)) ltac:(done) l Hl).
  done.
Qed.

Lemma sealed_flags_sealed f : IsSealed (sealed_flags f) = true.
Proof.
  unfold IsSealed, sealed_flags. apply negb_true_iff, Z.eqb_neq. intros H.
  apply (f_equal (fun z => Z.testbit z 1)) in H.
  rewrite Z.land_spec, Z.lor_spec in H. change (Z.testbit FlagSealed 1) with true in H.
  by rewrite orb_true_r in H.
Qed.

Lemma sealed_flags_not_active f : IsActive (sealed_flags f) = false.
Proof.
  unfold IsActive, sealed_flags. apply negb_false_iff, Z.eqb_eq, Z.bits_inj'. intros n Hn.
  rewrite Z.land_spec, Z.lor_spec, Z.ldiff_spec, Z.bits_0.
  destruct (Z.testbit FlagActive n) eqn:E; [|by rewrite andb_false_r].
  rewrite andb_false_r, andb_true_r. cbn [orb].
  assert (n = 3) as ->; [|done].
  change FlagActive with (2 ^ 3) in E. rewrite Z.pow2_bits_eqb in E by lia. lia.
Qed.

Lemma hdr_sealed_wf now o m : wf_header m -> i64_range o -> wf_header (hdr_sealed now o m).
Proof. intros [] Ho. constructor; cbn; auto using i64_in_range, sealed_flags_word. Qed.

(** Sealing rewrites the header and nothing else. *)
Lemma SealSegment_layout io seg m rsv pad rest :
  closed seg = false -> mmapData seg = header_bytes m rsv pad ++ rest ->
  blen rsv = 12 -> u32_word (Flags m) ->
  SealSegment io seg =
  Ret (set_isSealed true
         (set_mmapData (header_bytes (hdr_sealed (io_now io) (writeOffset seg) m) rsv pad ++ rest) seg),
       None).
Proof.
  intros Hc Hd Hr Hf. unfold SealSegment. rewrite Hc, Hd. unfold header_bytes at 1. rewrite <- !app_assoc.
  put_field. put_field. unfold get_u32.
  erewrite get_le_field by (unfold header_fields; repeat constructor). hdr_cbn.
  rewrite mod_word by done. cbn [mbind outcome_bind]. put_field.
  rewrite (put_header_crc_layout _ (hdr_sealed (io_now io) (writeOffset seg) m));
    [done | | done | by rewrite blen_le_bytes].
  unfold hdr_pre, hdr_sealed. hdr_cbn. by rewrite !le_bytes_i64, !le_bytes_u64.
Qed.

Lemma SealSegment_repr io seg m recs :
  seg_repr seg m recs -> closed seg = false ->
  exists seg', SealSegment io seg = Ret (seg', None) /\
    seg_repr seg' (hdr_sealed (io_now io) (end_offset recs) m) recs /\
    isSealed seg' = true /\ data_erased (set_isSealed false seg') = data_erased (set_isSealed false seg) /\
    writeOffset seg' = writeOffset seg.
Proof.
  intros Hr Hc. pose proof (sr_end _ _ _ Hr) as Hend.
  pose proof Hr as [(rsv & pad & body & tl & Hd & Hrsv & Hpad & He) Hwf Hlow Hoff [Hsz Hmax] Hh].
  rewrite (SealSegment_layout io seg m rsv pad (body ++ tl)); try done; [|apply Hwf].
  rewrite Hoff. eexists. split; [done|]. split; [|done]. constructor; seg_cbn.
  - exists rsv, pad, body, tl. split; [reflexivity | done].
  - apply hdr_sealed_wf; [done|]. unfold i64_range, maxSegmentSize in *. lia.
  - cbn [Flags hdr_sealed]. by rewrite sealed_flags_sealed.
  - done.
  - split; [|done]. rewrite Hsz, Hd, !blen_app, !blen_header_bytes by done. done.
  - done.
Qed.

(** ** The abstract segment *)

Record aseg := mkAseg {
  a_id : Z;
  a_size : Z;
  a_sealed : bool;
  a_recs : list bytes
}.

Definition a_append (a : aseg) (ns : list bytes) : aseg :=
  mkAseg (a_id a) (a_size a) (a_sealed a) (a_recs a ++ ns).

(** Whether [data] does not fit behind the records of [a]. *)
Definition a_full (a : aseg) (data : bytes) : bool :=
  a_size a <? end_offset (a_recs a) + entrySize (blen data).

Definition a_write (a : aseg) (data : bytes) : aseg * result error RecordPosition :=
  if a_sealed a then (a, Err ErrSegmentSealed) else
  if a_full a data then (a, Err ErrWriteExceedsSegment) else
  (a_append a [data], Ok (mkPos (a_id a) (end_offset (a_recs a)))).

(** A batch is the longest prefix that fits; a record that no segment of this
    size can hold fails the whole batch when it is the first that does not fit. *)
Definition a_writeBatch (a : aseg) (records : list bytes)
  : aseg * (list RecordPosition * nat * option error) :=
  if bool_decide (records = []) then (a, ([], O, None)) else
  if a_sealed a then (a, ([], O, Some ErrSegmentSealed)) else
  let off := end_offset (a_recs a) in
  if first_unfit_oversized (a_size a) off records then (a, ([], O, Some ErrExceedsCapacity)) else
  let n := fit_count (a_size a) off records in
  if bool_decide (n = O) then (a, ([], O, Some ErrSegmentFull)) else
  (a_append a (take n records),
   (positions_from (a_id a) off (take n records), n, batch_error n records)).

Definition a_seal (a : aseg) : aseg := mkAseg (a_id a) (a_size a) true (a_recs a).

(** The record at a position that a write returned. *)
Definition a_read (a : aseg) (i : nat) : option (bytes * RecordPosition) :=
  data ← a_recs a !! i;
  Some (data, mkPos (a_id a) (end_offset (take (S i) (a_recs a)))).

(** The segment implements the abstract one. *)
Record implements (seg : Segment) (a : aseg) : Prop := {
  im_repr : exists m, seg_repr seg m (a_recs a) /\ IsSealed (Flags m) = a_sealed a;
  im_open : seg_open seg;
  im_id : id seg = a_id a;
  im_size : mmapSize seg = a_size a
}.

Lemma erased_fields seg seg' : data_erased seg' = data_erased seg ->
  id seg' = id seg /\ mmapSize seg' = mmapSize seg /\ closed seg' = closed seg /\
  state seg' = state seg /\ syncOption seg' = syncOption seg.
Proof. destruct seg, seg'. cbn. intros [= ]. by subst. Qed.

Lemma implements_frame seg seg' a a' m :
  implements seg a -> data_erased seg' = data_erased seg ->
  a_id a' = a_id a -> a_size a' = a_size a ->
  seg_repr seg' m (a_recs a') -> IsSealed (Flags m) = a_sealed a' -> implements seg' a'.
Proof.
  intros [_ [Hc Hst] Hid Hsz] (Hi & Hs & Hc' & Hst' & _)%erased_fields Ha1 Ha2 Hr Hf.
  constructor; [by exists m | split; congruence | congruence..].
Qed.

Lemma Write_implements io seg a data :
  implements seg a -> flush_fails io seg = false ->
  exists seg', Write io seg data = Ret (seg', (a_write a data).2) /\
    implements seg' (a_write a data).1 /\ flush_fails io seg' = false.
Proof.
  intros Him Hfl. pose proof Him as [(m & Hr & Hs) Ho Hid Hsz]. unfold a_write, a_full.
  rewrite <- Hsz, <- (sr_offset _ _ _ Hr), <- Hid. fold (WillExceed seg (blen data)).
  destruct (a_sealed a) eqn:Esl.
  { exists seg. split; [by eapply Write_sealed | done]. }
  destruct (WillExceed seg (blen data)) eqn:Eex.
  { exists seg. split; [by eapply Write_exceeds | done]. }
  destruct (Write_appends io _ _ _ _ Hr Ho Hs Eex) as (seg' & Hw & Hr' & Hfr).
  exists seg'. rewrite Hw, Hfl, (sr_offset _ _ _ Hr). split; [done|]. split.
  - exact (implements_frame _ _ _ (a_append a [data]) _ Him Hfr eq_refl eq_refl Hr' (eq_trans Hs (eq_sym Esl))).
  - apply erased_fields in Hfr as (_ & _ & _ & _ & Hso). unfold flush_fails in *. by rewrite Hso.
Qed.

Lemma WriteBatch_implements io seg a records :
  implements seg a -> flush_fails io seg = false ->
  exists seg', WriteBatch io seg records = Ret (seg', (a_writeBatch a records).2) /\
    implements seg' (a_writeBatch a records).1 /\ flush_fails io seg' = false.
Proof.
  intros Him Hfl. pose proof Him as [(m & Hr & Hs) Ho Hid Hsz]. unfold a_writeBatch.
  destruct (bool_decide (records = [])) eqn:Enil.
  { exists seg. unfold WriteBatch. by rewrite Enil. }
  destruct (a_sealed a) eqn:Esl.
  { exists seg. split; [|done]. unfold WriteBatch.
    rewrite Enil, (seg_open_guard _ Ho), (sr_flags _ _ _ Hr). cbn [mbind outcome_bind]. by rewrite Hs. }
  assert (forall r, plan_batch (id seg) (mmapSize seg) (writeOffset seg) 0 records [] 0 = r ->
    match r with
    | Err e => WriteBatch io seg records = Ret (seg, ([], O, Some e))
    | Ok (_, O) => WriteBatch io seg records = Ret (seg, ([], O, Some ErrSegmentFull))
    | Ok (_, S _) => True
    end) as Hplan.
  { intros r Hp. unfold WriteBatch. rewrite Enil, (seg_open_guard _ Ho), (sr_flags _ _ _ Hr).
    cbn [mbind outcome_bind]. rewrite Hs, Hp. by destruct r as [[? []]|]. }
  specialize (Hplan _ eq_refl). rewrite (sr_offset _ _ _ Hr), plan_batch_spec, Hsz in Hplan by apply end_offset_ge.
  destruct (first_unfit_oversized _ _ _) eqn:Eov; [by exists seg|]. cbn [Nat.add] in Hplan.
  destruct (bool_decide (fit_count _ _ _ = O)) eqn:En.
  { apply bool_decide_eq_true in En. rewrite En in Hplan. by exists seg. }
  apply bool_decide_eq_false in En. rewrite <- Hsz in *.
  destruct (WriteBatch_appends io seg m (a_recs a) records Hr Ho Hs En Eov) as (seg' & Hw & Hr' & Hfr).
  exists seg'. rewrite Hw, Hfl, Hid. split; [done|]. split.
  - exact (implements_frame _ _ _ (a_append a _) _ Him Hfr eq_refl eq_refl Hr' (eq_trans Hs (eq_sym Esl))).
  - apply erased_fields in Hfr as (_ & _ & _ & _ & Hso). unfold flush_fails in *. by rewrite Hso.
Qed.

Lemma SealSegment_implements io seg a :
  implements seg a ->
  exists seg', SealSegment io seg = Ret (seg', None) /\ implements seg' (a_seal a) /\
    syncOption seg' = syncOption seg.
Proof.
  intros [(m & Hr & Hs) [Hc Hst] Hid Hsz].
  destruct (SealSegment_repr io seg m (a_recs a) Hr Hc) as (seg' & Hw & Hr' & _ & Hfr & _).
  exists seg'. apply erased_fields in Hfr as (Hi & Hz & Hcl & Hst' & Hso). cbn in *.
  split; [done|]. split; [|done]. constructor; cbn; [|split; congruence|congruence..].
  eexists. split; [exact Hr' | apply sealed_flags_sealed].
Qed.

Lemma Read_implements seg a i :
  implements seg a -> (i < length (a_recs a))%nat ->
  (r ← Read seg (end_offset (take i (a_recs a)));
   Ret (match r with Ok v => Some v | Err _ => None end)) = Ret (a_read a i).
Proof.
  intros [(m & Hr & _) [Hc _] Hid _] Hi. apply lookup_lt_is_Some in Hi as [data Hi]. unfold a_read. rewrite Hi.
  rewrite <- (take_drop_middle _ _ _ Hi) in Hr.
  rewrite (Read_record _ _ _ _ _ Hr Hc). cbn. by rewrite Hid, <- (take_S_r _ _ _ Hi).
Qed.

(** ** Sequences of calls *)

Inductive seg_op :=
| OpWrite (data : bytes)
| OpWriteBatch (records : list bytes)
| OpSeal
| OpRead (i : nat).   (* at the position of the i-th record *)

Inductive seg_ret :=
| RWrite (r : result error RecordPosition)
| RWriteBatch (r : list RecordPosition * nat * option error)
| RSeal (e : option error)
| RRead (r : option (bytes * RecordPosition)).

(** The call on the segment; [recs] says where the i-th record is. *)
Definition seg_call (io : IO) (recs : list bytes) (seg : Segment) (o : seg_op) : outcome (Segment * seg_ret) :=
  match o with
  | OpWrite d => '(s, r) ← Write io seg d; Ret (s, RWrite r)
  | OpWriteBatch ds => '(s, r) ← WriteBatch io seg ds; Ret (s, RWriteBatch r)
  | OpSeal => '(s, e) ← SealSegment io seg; Ret (s, RSeal e)
  | OpRead i =>
      r ← Read seg (end_offset (take i recs));
      Ret (seg, RRead (match r with Ok v => Some v | Err _ => None end))
  end.

Definition a_call (a : aseg) (o : seg_op) : aseg * seg_ret :=
  match o with
  | OpWrite d => let '(a, r) := a_write a d in (a, RWrite r)
  | OpWriteBatch ds => let '(a, r) := a_writeBatch a ds in (a, RWriteBatch r)
  | OpSeal => (a_seal a, RSeal None)
  | OpRead i => (a, RRead (a_read a i))
  end.

(** A read past the last record finds no record, whatever the bytes there are. *)
Lemma Read_end seg m recs :
  seg_repr seg m recs -> closed seg = false ->
  exists e, Read seg (end_offset recs) = Ret (Err e).
Proof.
  intros Hr Hc. pose proof (repr_sized _ _ _ Hr) as Hsz. pose proof (sr_end _ _ _ Hr) as Hend.
  destruct Hsz as (Hs & Hmax & Hw).
  destruct (Read_safe seg (end_offset recs)) as (r & Hrd & Hok); [done|done| |].
  { unfold maxSegmentSize in Hmax. lia. }
  destruct r as [[data next]|e]; [|by exists e]. exfalso.
  destruct (Hok data next eq_refl) as (_ & -> & Hle). rewrite (sr_offset _ _ _ Hr) in Hle.
  pose proof (entrySize_pos _ (blen_nonneg data)). lia.
Qed.

Lemma seg_call_implements io seg a o :
  implements seg a -> flush_fails io seg = false ->
  exists seg', seg_call io (a_recs a) seg o = Ret (seg', (a_call a o).2) /\
    implements seg' (a_call a o).1 /\ flush_fails io seg' = false.
Proof.
  intros Him Hfl. destruct o as [d|ds| |i]; cbn [seg_call a_call].
  - destruct (Write_implements io seg a d Him Hfl) as (s & -> & Hi & Hf). destruct (a_write a d). by exists s.
  - destruct (WriteBatch_implements io seg a ds Him Hfl) as (s & -> & Hi & Hf).
    destruct (a_writeBatch a ds). by exists s.
  - destruct (SealSegment_implements io seg a Him) as (s & -> & Hi & Hso). exists s.
    split; [done|]. split; [done|]. unfold flush_fails in *. by rewrite Hso.
  - exists seg. split; [|done]. destruct (decide (i < length (a_recs a))%nat) as [Hi|Hi].
    + pose proof (Read_implements seg a i Him Hi) as H. apply bind_Ret_inv in H as (r & -> & [= <-]). done.
    + unfold a_read. rewrite lookup_ge_None_2 by lia. rewrite take_ge by lia.
      destruct Him as [(m & Hr & _) [Hc _] _ _]. by destruct (Read_end seg m (a_recs a) Hr Hc) as (e & ->).
Qed.

(** Run a sequence of calls, each with its own answers of the outside world. *)
Fixpoint seg_run (seg : Segment) (a : aseg) (ops : list (IO * seg_op)) : outcome (Segment * list seg_ret) :=
  match ops with
  | [] => Ret (seg, [])
  | (io, o) :: rest =>
      '(seg, r) ← seg_call io (a_recs a) seg o;
      '(seg, rs) ← seg_run seg (a_call a o).1 rest;
      Ret (seg, r :: rs)
  end.

Fixpoint a_run (a : aseg) (ops : list (IO * seg_op)) : aseg * list seg_ret :=
  match ops with
  | [] => (a, [])
  | (_, o) :: rest =>
      let '(a1, r) := a_call a o in
      let '(a2, rs) := a_run a1 rest in (a2, r :: rs)
  end.

(** A segment on which a configured flush never fails. *)
Definition flushes (ops : list (IO * seg_op)) : Prop := Forall (fun x => io_flush x.1 = true) ops.

Lemma flush_ok io seg : io_flush io = true -> flush_fails io seg = false.
Proof. intros H. unfold flush_fails. rewrite H. apply andb_false_r. Qed.

Lemma segment_run_aux seg a ops :
  implements seg a -> flushes ops ->
  exists seg', seg_run seg a ops = Ret (seg', (a_run a ops).2) /\ implements seg' (a_run a ops).1.
Proof.
  revert seg a. induction ops as [|[io o] ops IH]; intros seg a Him Hfl; [by exists seg|].
  apply Forall_cons in Hfl as [Hio Hfl]. cbn [seg_run a_run].
  destruct (seg_call_implements io seg a o Him (flush_ok _ _ Hio)) as (s & -> & Hi & _).
  cbn [mbind outcome_bind]. destruct (a_call a o) as [a1 r]. cbn [fst snd] in *.
  destruct (IH s a1 Hi Hfl) as (s2 & -> & Hi2). cbn [mbind outcome_bind].
  destruct (a_run a1 ops) as [a2 rs]. by exists s2.
Qed.

(** C12. A segment is an append-only, bounded, sealable list of records: every
    sequence of [Write], [WriteBatch], [SealSegment] and [Read] calls returns
    exactly what the same calls return on the abstract list, and the segment
    represents that list afterwards. *)
Theorem segment_simulation seg a ops :
  implements seg a -> flushes ops ->
  exists seg', seg_run seg a ops = Ret (seg', (a_run a ops).2) /\ implements seg' (a_run a ops).1.
Proof. apply segment_run_aux. Qed.

(** A small segment: 256 bytes, new. *)
Definition demo_seg : Segment := Eval vm_compute in
  match OpenSegmentFile (okIO 7) None 1 (seg_opts 256 MsyncOnWrite) with
  | Ret (_, Ok s) => s
  | _ => blankSegment 1
  end.

(** The segment of an open that succeeded. *)
Definition opened_seg (dflt : Segment) (r : outcome (option bytes * result error Segment)) : Segment :=
  match r with Ret (_, Ok s) => s | _ => dflt end.

Lemma demo_repr : seg_repr demo_seg (initial_header 7) [].
Proof.
  destruct (Open_new (okIO 7) 1 256 MsyncOnWrite) as (d & Ho & Hr); [done | by vm_compute|].
  assert (opened 1 256 MsyncOnWrite d segmentHeaderSize false = demo_seg) as <-; [|exact Hr].
  assert (OpenSegmentFile (okIO 7) None 1 (seg_opts 256 MsyncOnWrite) = Ret (Some (mmapData demo_seg), Ok demo_seg))
    as Hd by (by vm_compute).
  rewrite Hd in Ho. symmetry. exact (f_equal (opened_seg demo_seg) Ho).
Qed.

Lemma demo_implements : implements demo_seg (mkAseg 1 256 false []).
Proof. constructor; [exists (initial_header 7); split; [apply demo_repr | done] | done..]. Qed.

Definition demo_ops : list (IO * seg_op) :=
  [(okIO 8, OpWrite [Byte.x01; Byte.x02]); (okIO 9, OpWriteBatch [[Byte.x03]; []; replicate 150 Byte.x04]);
   (okIO 9, OpRead 1); (okIO 9, OpRead 7); (okIO 10, OpSeal); (okIO 11, OpWrite [])].

Lemma segment_simulation_witness :
  implements demo_seg (mkAseg 1 256 false []) /\ flushes demo_ops /\
  exists seg', seg_run demo_seg (mkAseg 1 256 false []) demo_ops =
      Ret (seg', (a_run (mkAseg 1 256 false []) demo_ops).2) /\
    implements seg' (a_run (mkAseg 1 256 false []) demo_ops).1.
Proof.
  assert (flushes demo_ops) as Hf by (by repeat constructor).
  split; [apply demo_implements|]. split; [exact Hf|].
  apply segment_simulation; [apply demo_implements | exact Hf].
Defined.

(** ** Further properties *)




(** A mapping full of 0xff, with a write offset inside. *)
Definition garbage_seg : Segment :=
  set_writeOffset 200 (set_mmapData (replicate 256 Byte.xff) (set_mmapSize 256 (blankSegment 1))).


(** ** Segment readers *)

(** Call [Next] until it fails. *)
Fixpoint drain (fuel : nat) (seg : Segment) (r : SegmentReader)
  : outcome (list (bytes * RecordPosition) * error) :=
  match fuel with
  | O => NoFuel
  | S fuel =>
      '(r, res) ← reader_Next seg r;
      match res with
      | Err e => Ret ([], e)
      | Ok x => '(xs, e) ← drain fuel seg r; Ret (x :: xs, e)
      end
  end.

Fixpoint with_positions (segID offset : Z) (recs : list bytes) : list (bytes * RecordPosition) :=
  match recs with
  | [] => []
  | d :: rest => (d, mkPos segID offset) :: with_positions segID (offset + entrySize (blen d)) rest
  end.

Lemma reader_Next_record seg m pre data post rid last :
  seg_repr seg m (pre ++ data :: post) -> closed seg = false ->
  reader_Next seg (mkSegmentReader rid (end_offset pre) last false) =
  Ret (mkSegmentReader rid (end_offset (pre ++ [data])) (end_offset pre) false,
       Ok (data, mkPos (id seg) (end_offset pre))).
Proof.
  intros Hr Hc. pose proof (sr_offset _ _ _ Hr) as Hoff.
  rewrite cons_middle, app_assoc, !end_offset_app in Hoff.
  pose proof (entries_size_nonneg post). pose proof (end_offset_snoc pre data).
  rewrite end_offset_app in H0. pose proof (entrySize_pos _ (blen_nonneg data)).
  unfold reader_Next, WriteOffset. cbn [reader_closed readOffset]. if_false.
  rewrite (Read_record _ _ _ _ _ Hr Hc). done.
Qed.

Lemma drain_S fuel seg r :
  drain (S fuel) seg r =
  '(r, res) ← reader_Next seg r;
  match res with
  | Err e => Ret ([], e)
  | Ok x => '(xs, e) ← drain fuel seg r; Ret (x :: xs, e)
  end.
Proof. reflexivity. Qed.

Lemma drain_from seg m post : forall pre rid last,
  seg_repr seg m (pre ++ post) -> closed seg = false ->
  drain (S (length post)) seg (mkSegmentReader rid (end_offset pre) last false) =
  Ret (with_positions (id seg) (end_offset pre) post, if isSealed seg then EOF else ErrNoNewData).
Proof.
  induction post as [|data post IH]; intros pre rid last Hr Hc; cbn [length].
  - rewrite app_nil_r in Hr. cbn [drain]. unfold reader_Next, WriteOffset.
    cbn [reader_closed readOffset]. rewrite (sr_offset _ _ _ Hr). by if_true.
  - rewrite drain_S, (reader_Next_record _ _ _ _ _ _ _ Hr Hc). cbn [mbind outcome_bind].
    change (data :: post) with ([data] ++ post) in Hr. rewrite app_assoc in Hr.
    rewrite (IH _ rid (end_offset pre) Hr Hc). cbn [mbind outcome_bind with_positions].
    by rewrite end_offset_snoc.
Qed.

(** A new reader yields every record of the segment, in the order of the
    writes and with the positions the writes returned; it then reports
    end-of-file if the segment is sealed and "no new data" otherwise. *)
Theorem reader_yields_all_records seg m recs :
  seg_repr seg m recs -> seg_open seg -> markedForDeletion seg = false ->
  exists seg' r, NewReader seg = Some (seg', r) /\
    drain (S (length recs)) seg' r =
    Ret (with_positions (id seg) segmentHeaderSize recs, if isSealed seg then EOF else ErrNoNewData).
Proof.
  intros Hr [Hc Hst] Hm. unfold NewReader. rewrite Hm, Hst. cbn [orb].
  eexists _, _. split; [done|].
  rewrite (drain_from _ m recs [] _ 0); [done| |done].
  destruct Hr. by constructor.
Qed.

(** The demo segment with three records. *)
Definition demo_records : list bytes := [[Byte.x01; Byte.x02]; []; [Byte.x03]].
Definition demo_written : Segment := Eval vm_compute in
  match write_each (okIO 8) demo_seg demo_records with Ret (s, _) => s | _ => demo_seg end.

Lemma demo_written_repr : exists m, seg_repr demo_written m demo_records /\ IsSealed (Flags m) = false.
Proof.
  destruct (segment_run_aux demo_seg (mkAseg 1 256 false []) (pair (okIO 8) ∘ OpWrite <$> demo_records))
    as (s & Hs & Hi); [apply demo_implements | by repeat constructor|].
  assert (demo_written = s) as ->.
  { assert (seg_run demo_seg (mkAseg 1 256 false []) (pair (okIO 8) ∘ OpWrite <$> demo_records) =
            Ret (demo_written, (a_run (mkAseg 1 256 false []) (pair (okIO 8) ∘ OpWrite <$> demo_records)).2))
      as Hd by (by vm_compute).
    rewrite Hd in Hs.
    exact (f_equal (fun r => match r with Ret (s, _) => s | _ => demo_seg end) Hs). }
  destruct Hi as [(m & Hr & Hsl) _ _ _]. exists m. split; [exact Hr | by rewrite Hsl].
Qed.

Lemma reader_yields_all_records_witness :
  exists seg' r, NewReader demo_written = Some (seg', r) /\
    drain 4 seg' r =
    Ret ([([Byte.x01; Byte.x02], mkPos 1 64); ([], mkPos 1 88); ([Byte.x03], mkPos 1 104)], ErrNoNewData).
Proof.
  destruct demo_written_repr as (m & Hr & _).
  exact (reader_yields_all_records demo_written m demo_records Hr (conj eq_refl eq_refl) eq_refl).
Defined.

(** ** Recovery *)

(** Reopening brings a segment back.  An unsealed image is scanned and a
    sealed one is not; in both cases the reopened segment holds exactly the
    records it held, provided (unsealed) that every record has a checksum
    other than zero and that nothing behind the write offset looks like a record. *)
Theorem reopen_recovers_records io opt seg m recs :
  io_opens io -> seg_repr seg m recs ->
  (if IsSealed (Flags m) then WriteOffsetField m = writeOffset seg
   else Forall scannable recs /\ tail_ends seg) ->
  exists seg', OpenSegmentFile io (Some (mmapData seg)) (id seg) (seg_opts (mmapSize seg) opt) =
      Ret (Some (mmapData seg), Ok seg') /\
    seg_repr seg' m recs /\ seg_open seg' /\ id seg' = id seg /\ isSealed seg' = IsSealed (Flags m).
Proof.
  intros Hio Hr Hcase. destruct (IsSealed (Flags m)) eqn:Hs.
  - destruct (Reopen_sealed io (id seg) opt seg m recs Hio Hr Hs Hcase) as [Ho Hr'].
    eexists. split; [exact Ho|]. split; [exact Hr' | done].
  - destruct Hcase as [Hf Ht].
    destruct (Reopen_unsealed io (id seg) opt seg m recs Hio Hr Hs Hf Ht) as [Ho Hr'].
    eexists. split; [exact Ho|]. split; [exact Hr' | done].
Qed.

Lemma zero_tail_ends n : ~ entry_head (replicate n Byte.x00) /\ ~ huge_length (replicate n Byte.x00).
Proof.
  split.
  - intros H. pose proof (entry_head_blen _ H) as Hn. rewrite blen_replicate in Hn.
    replace n with (4 + (4 + (n - 8)))%nat in H by lia. rewrite !replicate_add, app_assoc in H.
    apply entry_head_inv in H as (data & _ & _ & _ & Hc & _ & _ & _ & Hs); [|done..].
    apply Hs. apply (f_equal le_val) in Hc. rewrite le_val_le_bytes in Hc.
    unfold record_crc in *. rewrite (mod_word _ (crc32Checksum_word _ _)) in Hc. by rewrite <- Hc.
  - intros (len & Hg & Hlen). unfold get_u32, get_le, slice in Hg.
    destruct (_ && _) eqn:E in Hg; [|done]. cbn in Hg. injection Hg as <-.
    change (Pos.to_nat 4) with 4%nat in Hlen. rewrite drop_replicate, take_replicate in Hlen.
    assert (forall k, le_val (replicate k Byte.x00) = 0) as Hz.
    { induction k as [|k IH]; [done|]. cbn [replicate le_val]. rewrite IH. done. }
    rewrite Hz in Hlen. lia.
Qed.

Lemma reopen_recovers_records_witness :
  exists m seg', OpenSegmentFile (okIO 20) (Some (mmapData demo_written)) 1 (seg_opts 256 MsyncNone) =
      Ret (Some (mmapData demo_written), Ok seg') /\
    seg_repr seg' m demo_records /\ seg_open seg' /\ id seg' = 1 /\ isSealed seg' = IsSealed (Flags m).
Proof.
  destruct demo_written_repr as (m & Hr & Hs). exists m.
  apply (reopen_recovers_records (okIO 20) MsyncNone demo_written m demo_records); [done | exact Hr |].
  rewrite Hs. split; [by repeat (constructor; [by vm_compute|])|].
  unfold tail_ends. change (tail_of demo_written) with (replicate 128 Byte.x00). apply zero_tail_ends.
Defined.

(** C34. Opening any file of the right size with a valid, unsealed header: the
    scan ends, the opened segment represents exactly the longest run of valid
    records in front of the first damaged or torn one, and the only way not to
    return is a length field of 2^32 - 16 or more, on which the scan panics. *)
Theorem open_any_image io segID opt m rsv pad rest :
  let d := header_bytes m rsv pad ++ rest in
  io_opens io -> blen d <= maxSegmentSize -> wf_header m -> blen rsv = 12 -> blen pad = 4 ->
  IsSealed (Flags m) = false -> 0 <= WriteOffsetField m < 2 ^ 32 ->
  exists recs body tl, rest = body ++ tl /\ entries body recs /\ Forall scannable recs /\
    ((exists seg, OpenSegmentFile io (Some d) segID (seg_opts (blen d) opt) = Ret (Some d, Ok seg) /\
        seg_repr seg m recs /\ seg_open seg /\ ~ entry_head tl) \/
     (OpenSegmentFile io (Some d) segID (seg_opts (blen d) opt) = Panic /\ huge_length tl)).
Proof.
  intros d Hio Hmax Hwf Hr Hp Hs Hlow.
  destruct (Open_unsealed io segID (blen d) opt m rsv pad rest Hio eq_refl Hmax Hwf Hr Hp Hs Hlow)
    as (recs & body & tl & Hrest & He & Hf & Hres).
  exists recs, body, tl. split; [exact Hrest|]. split; [exact He|]. split; [exact Hf|].
  destruct Hres as [(Hne & Ho & Hrep)|(Hh & Ho)].
  - left. eexists. split; [exact Ho|]. split; [exact Hrep|]. split; [done | exact Hne].
  - right. split; [exact Ho | exact Hh].
Qed.

(** A torn second record behind a valid first one. *)
Definition torn_rest : bytes :=
  encode_record [Byte.x01] ++ take 12 (encode_record [Byte.x02; Byte.x03]) ++ replicate 40 Byte.xaa.

Lemma open_any_image_witness :
  let d := header_bytes (initial_header 7) (replicate 12 Byte.x00) (replicate 4 Byte.x00) ++ torn_rest in
  exists recs body tl, torn_rest = body ++ tl /\ entries body recs /\ Forall scannable recs /\
    ((exists seg, OpenSegmentFile (okIO 9) (Some d) 1 (seg_opts (blen d) MsyncNone) = Ret (Some d, Ok seg) /\
        seg_repr seg (initial_header 7) recs /\ seg_open seg /\ ~ entry_head tl) \/
     (OpenSegmentFile (okIO 9) (Some d) 1 (seg_opts (blen d) MsyncNone) = Panic /\ huge_length tl)).
Proof.
  apply (open_any_image (okIO 9) 1 MsyncNone (initial_header 7) (replicate 12 Byte.x00)
           (replicate 4 Byte.x00) torn_rest);
    [done | by vm_compute | apply initial_header_wf | done | done | done | by vm_compute].
Defined.

(** The scan mistakes a valid record whose checksum is zero for damage:
    reopening an unsealed segment that holds such a record drops it and every
    record behind it. *)
Theorem zero_checksum_record_ends_recovery io opt seg m pre data post :
  io_opens io -> seg_repr seg m (pre ++ data :: post) -> IsSealed (Flags m) = false ->
  Forall scannable pre -> record_crc data = 0 -> blen data < 2 ^ 32 - 16 ->
  exists seg', OpenSegmentFile io (Some (mmapData seg)) (id seg) (seg_opts (mmapSize seg) opt) =
      Ret (Some (mmapData seg), Ok seg') /\ seg_repr seg' m pre.
Proof.
  intros Hio Hr Hs Hf Hz Hlen.
  pose proof Hr as [(rsv & pad & body & tl & Hd & Hrsv & Hpad & He) Hwf Hlow Hoff [Hsz Hmax] _].
  apply entries_split in He as (b1 & b2 & -> & H1 & H2).
  inversion H2 as [|? pad2 body2 ? Hpd Hb2]; subst data0 recs b2.
  set (tl' := record_header data ++ data ++ trailerMarker ++ pad2 ++ body2 ++ tl).
  assert (mmapData seg = header_bytes m rsv pad ++ b1 ++ tl') as Hd'
    by (rewrite Hd; unfold tl'; by rewrite <- !app_assoc).
  assert (~ entry_head tl') as Hne.
  { unfold tl', record_header. intros (dd & p & r & Heq & Hc & Hl & _ & _ & Hsc)%entry_head_inv; [|by rewrite blen_le_bytes..].
    apply Hsc. apply (f_equal le_val) in Hc. rewrite !le_val_le_bytes in Hc. unfold record_crc in *.
    rewrite !(mod_word _ (crc32Checksum_word _ _)) in Hc. by rewrite <- Hc. }
  assert (~ huge_length tl') as Hnh.
  { intros (len & Hg & Hge). unfold tl', record_header, get_u32 in Hg. rewrite <- !app_assoc in Hg.
    rewrite get_le_app in Hg by (by rewrite ?blen_le_bytes, ?length_le_bytes).
    rewrite le_val_le_bytes, mod_word in Hg by (pose proof (blen_nonneg data); unfold u32_word; lia).
    assert (blen data = len) by congruence. lia. }
  eexists. split.
  - rewrite Hd', Open_existing by (done || by rewrite <- Hd').
    rewrite Hs, <- Hd', Hsz, Hd'. change segmentHeaderSize with 64.
    rewrite (scan_exact _ b1 pre tl'); try assumption.
    + reflexivity.
    + by rewrite <- Hd', <- Hsz.
    + by rewrite blen_header_bytes.
  - constructor; unfold opened; seg_cbn.
    + by exists rsv, pad, b1, tl'.
    + exact Hwf.
    + exact Hlow.
    + done.
    + split; [|by rewrite <- Hd', <- Hsz]. by rewrite <- Hd', <- Hsz.
    + done.
Qed.

(** Four bytes whose record has checksum zero. *)
Definition zero_crc_data : bytes := [Byte.x9f; Byte.xe1; Byte.xa5; Byte.xa8].

Lemma zero_checksum_record_ends_recovery_witness :
  exists seg seg' m,
    seg_repr seg m [[Byte.x01]; zero_crc_data; [Byte.x02]] /\
    OpenSegmentFile (okIO 9) (Some (mmapData seg)) (id seg) (seg_opts (mmapSize seg) MsyncNone) =
      Ret (Some (mmapData seg), Ok seg') /\ seg_repr seg' m [[Byte.x01]].
Proof.
  destruct (segment_run_aux demo_seg (mkAseg 1 256 false [])
              (pair (okIO 8) ∘ OpWrite <$> [[Byte.x01]; zero_crc_data; [Byte.x02]]))
    as (seg & _ & Hi); [apply demo_implements | by repeat constructor|].
  destruct Hi as [(m & Hr & Hs) _ _ _]. exists seg.
  change (a_recs _) with ([[Byte.x01]] ++ zero_crc_data :: [[Byte.x02]]) in Hr.
  destruct (zero_checksum_record_ends_recovery (okIO 9) MsyncNone seg m [[Byte.x01]] zero_crc_data [[Byte.x02]])
    as (seg' & Ho & Hr').
  - done.
  - exact Hr.
  - by rewrite Hs.
  - constructor; [by vm_compute | constructor].
  - by vm_compute.
  - by vm_compute.
  - exists seg', m. split; [exact Hr|]. split; [exact Ho | exact Hr'].
Defined.

(** A length field of 2^32 - 16 or more behind the valid records makes
    opening the segment panic (the size computed from it wraps around to at
    most 16, and the slice expression that follows is out of range), as soon
    as 16 bytes are left behind those records. *)
Theorem huge_length_field_panics io segID opt m rsv pad body recs c l r :
  let d := header_bytes m rsv pad ++ body ++ (c ++ l) ++ r in
  io_opens io -> blen d <= maxSegmentSize -> wf_header m -> blen rsv = 12 -> blen pad = 4 ->
  IsSealed (Flags m) = false -> entries body recs -> Forall scannable recs ->
  blen c = 4 -> blen l = 4 -> 2 ^ 32 - 16 <= le_val l -> 8 <= blen r ->
  OpenSegmentFile io (Some d) segID (seg_opts (blen d) opt) = Panic.
Proof.
  intros d Hio Hmax Hwf Hrsv Hpad Hs He Hf Hc Hl Hhuge Hrl.
  unfold d. rewrite Open_existing by done. rewrite Hs. fold d.
  assert (blen (header_bytes m rsv pad) = 64) as Hh by (by apply blen_header_bytes).
  pose proof (entries_length _ _ He) as Hlen. pose proof (entries_blen _ _ He) as Hbl.
  set (a := header_bytes m rsv pad ++ body).
  assert (blen a = end_offset recs) as Ha by (unfold a; by rewrite blen_app, Hh, Hbl).
  assert (a ++ (c ++ l) ++ r = d) as Hd by (unfold a, d; by rewrite <- !app_assoc).
  pose proof (scan_entries (blen d) recs (scan_fuel d - length recs) (header_bytes m rsv pad) body ((c ++ l) ++ r)) as Hse.
  cbv zeta in Hse. fold d in Hse. rewrite Hh in Hse.
  assert (length recs < scan_fuel d)%nat as Hfuel.
  { unfold scan_fuel, d. rewrite !length_app. unfold blen in *. lia. }
  replace (length recs + (scan_fuel d - length recs))%nat with (scan_fuel d) in Hse by lia.
  change segmentHeaderSize with 64. rewrite Hse; try assumption; [|done|lia|by exists 8].
  change (64 + entries_size recs) with (end_offset recs). rewrite <- Ha.
  destruct (scan_fuel d - length recs)%nat as [|f] eqn:Ef; [lia|].
  pose proof (scan_huge f (blen d) a c l r) as Hscan. cbv zeta in Hscan. rewrite Hd in Hscan.
  pose proof (le_val_word _ Hl) as Hlw. unfold u32_word in Hlw.
  pose proof (alignUp_id 16 ltac:(by exists 2)) as H16.
  assert (alignUp (le_val l + 16 - 2 ^ 32) <= 16) as Hal.
  { rewrite alignUp_div in *. pose proof (Z.div_le_mono (le_val l + 16 - 2 ^ 32 + 7) (16 + 7) 8). lia. }
  rewrite Hscan; try assumption; try done.
  - destruct (_ <? _) eqn:E; [|done]. exfalso. rewrite <- Hd, !blen_app in E. lia.
  - rewrite Ha. apply end_offset_ge.
  - rewrite Ha. apply Z.divide_add_r; [by exists 8 | apply entries_size_multiple].
Qed.

Lemma huge_length_field_panics_witness :
  OpenSegmentFile (okIO 9)
    (Some (header_bytes (initial_header 7) (replicate 12 Byte.x00) (replicate 4 Byte.x00) ++
           encode_record [Byte.x01] ++ (replicate 4 Byte.x00 ++ replicate 4 Byte.xff) ++ replicate 24 Byte.x00))
    1 (seg_opts 120 MsyncNone) = Panic.
Proof.
  apply (huge_length_field_panics (okIO 9) 1 MsyncNone (initial_header 7) (replicate 12 Byte.x00)
           (replicate 4 Byte.x00) (encode_record [Byte.x01]) [[Byte.x01]] (replicate 4 Byte.x00)
           (replicate 4 Byte.xff) (replicate 24 Byte.x00));
    [done | by vm_compute | apply initial_header_wf | done | done | done | | | done | done
     | by vm_compute | by vm_compute].
  - exact (entries_encode [[Byte.x01]]).
  - constructor; [by vm_compute | constructor].
Defined.

(** ** Header accessors *)

Lemma repr_decoded_header seg m recs : seg_repr seg m recs -> decoded_header seg = Ret m.
Proof.
  intros [(rsv & pad & body & tl & Hd & Hrsv & Hpad & He) Hwf _ _ _ _].
  unfold decoded_header. rewrite Hd, header_slice by done. cbn [mbind outcome_bind].
  by rewrite decode_header_bytes.
Qed.

(** The header stays readable and counts: after a write that fits, the
    checksum of the header matches (so no accessor panics), the entry count
    has grown by one, the modification time is that of the write, and the
    flags are unchanged. *)
Theorem header_counts_writes io seg m recs data :
  seg_repr seg m recs -> seg_open seg -> IsSealed (Flags m) = false ->
  WillExceed seg (blen data) = false ->
  exists seg' r, Write io seg data = Ret (seg', r) /\
    GetEntryCount seg' = Ret (i64 (EntryCount m + 1)) /\
    GetLastModifiedAt seg' = Ret (i64 (io_now io)) /\
    GetFlags seg' = Ret (Flags m) /\
    WriteOffset seg' = WriteOffset seg + entrySize (blen data).
Proof.
  intros Hr Ho Hs Hw. destruct (Write_appends io seg m recs data Hr Ho Hs Hw) as (seg' & Hwr & Hr' & _).
  eexists seg', _. split; [exact Hwr|].
  unfold GetEntryCount, GetLastModifiedAt, GetFlags. rewrite (repr_decoded_header _ _ _ Hr').
  unfold WriteOffset. rewrite (sr_offset _ _ _ Hr'), (sr_offset _ _ _ Hr), end_offset_snoc. done.
Qed.

Lemma header_counts_writes_witness :
  exists seg' r, Write (okIO 33) demo_seg [Byte.x05] = Ret (seg', r) /\
    GetEntryCount seg' = Ret 1 /\ GetLastModifiedAt seg' = Ret 33 /\ GetFlags seg' = Ret FlagActive /\
    WriteOffset seg' = 88.
Proof.
  exact (header_counts_writes (okIO 33) demo_seg (initial_header 7) [] [Byte.x05] demo_repr
           (conj eq_refl eq_refl) eq_refl eq_refl).
Defined.

(** ** Record positions *)

Definition pos_ok (p : RecordPosition) : Prop := u32_word (SegmentID p) /\ i64_range (Offset p).

Lemma Decode_encoded p rest :
  pos_ok p -> DecodeRecordPosition (Encode p ++ rest) = Ret (Ok p).
Proof.
  intros [Hid Hoff]. unfold DecodeRecordPosition, Encode, get_u32, get_u64.
  pose proof (blen_nonneg rest). rewrite !blen_app, !blen_le_bytes. change (Z.of_nat 4 + Z.of_nat 8) with 12. if_false.
  rewrite <- app_assoc, get_le_head. cbn [mbind outcome_bind]. skip_field. rewrite get_le_head.
  cbn [mbind outcome_bind]. rewrite mod_word by done.
  change (256 ^ Z.of_nat 8) with (2 ^ 64). fold (u64 (u64 (Offset p))).
  rewrite (u64_small (u64 _)), i64_u64 by (done || apply u64_range). by destruct p.
Qed.

Lemma EncodeTo_Encode p buf : EncodeRecordPositionTo p buf = Ret (Encode p).
Proof.
  unfold EncodeRecordPositionTo, Encode, put_u32, put_u64.
  assert (blen (if blen buf <? 12 then replicate 12 Byte.x00 else take 12 buf) = 12) as Hb.
  { case_if; [done|]. unfold blen in *. rewrite length_take. lia. }
  revert Hb. generalize (if blen buf <? 12 then replicate 12 Byte.x00 else take 12 buf). intros b Hb.
  destruct (split_blen b 4) as (b1 & b2 & -> & H1 & H2); [lia|].
  rewrite <- (app_nil_l (b1 ++ b2)), put_le_app by (unfold blen in *; done || lia).
  cbn [mbind outcome_bind app]. rewrite <- (app_nil_r b2), put_le_app;
    [by rewrite app_nil_r | by rewrite blen_le_bytes | unfold blen in *; lia].
Qed.

(** Record positions survive encoding, through both encoders and whatever
    buffer is reused, also when more bytes follow. *)
Theorem record_position_roundtrip p buf rest :
  pos_ok p ->
  EncodeRecordPositionTo p buf = Ret (Encode p) /\ blen (Encode p) = 12 /\
  DecodeRecordPosition (Encode p ++ rest) = Ret (Ok p).
Proof.
  intros Hp. split; [apply EncodeTo_Encode|]. split; [by unfold Encode; rewrite blen_app, !blen_le_bytes|].
  by apply Decode_encoded.
Qed.

Lemma record_position_roundtrip_witness :
  pos_ok (mkPos 7 (2 ^ 40)) /\
  EncodeRecordPositionTo (mkPos 7 (2 ^ 40)) [Byte.x01] = Ret (Encode (mkPos 7 (2 ^ 40))) /\
  blen (Encode (mkPos 7 (2 ^ 40))) = 12 /\
  DecodeRecordPosition (Encode (mkPos 7 (2 ^ 40)) ++ [Byte.x09]) = Ret (Ok (mkPos 7 (2 ^ 40))).
Proof.
  assert (pos_ok (mkPos 7 (2 ^ 40))) as Hp by (split; unfold u32_word, i64_range; cbn; lia).
  split; [exact Hp|]. apply record_position_roundtrip, Hp.
Defined.
