(* ===== verification/SegmentRefs.v ===== *)
(** One write-ahead-log segment: references, closing and deletion.

    Readers, backups, [Close] and [MarkForDeletion] run in different
    goroutines.  [lstep] interleaves them: a reader's guard and its
    registration are two steps, a [Close] that has to wait resumes when the
    reference count reaches zero, a reader may be released by its own [Close]
    and again by the garbage-collector hook.  The invariant is proved by rule
    induction over every interleaving. *)

From stdpp Require Import prelude list numbers gmap.
From Stdlib Require Import ZArith Lia.
From S2P Require Import Prelude Bytes Crc32 ReaderTracker Segment SegmentFacts.

(** ** The two halves of [NewReader] *)

Definition reader_refused (seg : Segment) : bool :=
  markedForDeletion seg || (if state seg is StateOpen then false else true).

Definition reader_register (seg : Segment) : Segment :=
  let rid := u64 (readerIDCounter seg + 1) in
  incrRef (set_activeReaders (Add (activeReaders seg) rid) (set_readerIDCounter rid seg)).

Lemma NewReader_split seg :
  NewReader seg =
  if reader_refused seg then None
  else Some (reader_register seg,
             mkSegmentReader (u64 (readerIDCounter seg + 1)) segmentHeaderSize 0 false).
Proof. reflexivity. Qed.

(** ** Interleavings *)

Record lstate := mkL {
  l_seg : Segment;
  l_pending : nat;   (* readers between their guard and their registration *)
  l_backups : nat;   (* backups that hold a reference *)
  l_waiting : bool   (* a Close that waits for references to go away *)
}.

(** The outside world does what it is asked to. *)
Definition io_fine (io : IO) : Prop := io_flush io = true /\ io_fsync io = true /\ io_remove io = true.

Inductive lstep : lstate -> lstate -> Prop :=
| L_guard seg p b w :
    reader_refused seg = false ->
    lstep (mkL seg p b w) (mkL seg (S p) b w)
| L_register seg p b w :
    readerIDCounter seg + 1 < 2 ^ 64 ->
    lstep (mkL seg (S p) b w) (mkL (reader_register seg) p b w)
| L_decrRef io rid seg p b w :
    io_fine io ->
    lstep (mkL seg p b w) (mkL (decrRef io rid seg) p b w)
| L_backup seg p b w :
    lstep (mkL seg p b w) (mkL (incrRef seg) p (S b) w)
| L_backup_done io seg p b w :
    io_fine io ->
    lstep (mkL seg p (S b) w) (mkL (releaseRef io seg) p b w)
| L_mark io seg p b w :
    io_fine io ->
    lstep (mkL seg p b w) (mkL (MarkForDeletion io seg) p b w)
| L_close io seg seg' e p b w :
    io_fine io -> Close io seg = CloseReturned seg' e ->
    lstep (mkL seg p b w) (mkL seg' p b w)
| L_close_wait io seg seg' p b w :
    io_fine io -> Close io seg = CloseWaiting seg' ->
    lstep (mkL seg p b w) (mkL seg' p b true)
| L_close_resume io seg seg' e p b :
    io_fine io -> refCount seg <= 0 -> close_finish io seg = CloseReturned seg' e ->
    lstep (mkL seg p b true) (mkL seg' p b false)
| L_write io data seg seg' r p b w :
    Write io seg data = Ret (seg', r) ->
    lstep (mkL seg p b w) (mkL seg' p b w)
| L_seal io seg seg' e p b w :
    SealSegment io seg = Ret (seg', e) ->
    lstep (mkL seg p b w) (mkL seg' p b w).

(** ** What data operations leave alone *)

Lemma put_le_length n b off v b' : put_le n b off v = Ret b' -> length b' = length b.
Proof.
  unfold put_le. case_if; [|done]. intros [= <-]. apply length_splice.
  rewrite length_le_bytes. unfold blen in *. lia.
Qed.
Lemma put_u32_length b off v b' : put_u32 b off v = Ret b' -> length b' = length b.
Proof. apply put_le_length. Qed.
Lemma put_u64_length b off v b' : put_u64 b off v = Ret b' -> length b' = length b.
Proof. apply put_le_length. Qed.

Lemma copy_at_length {A} (b : list A) off src b' : copy_at b off src = Ret b' -> length b' = length b.
Proof.
  unfold copy_at. case_if; [|done]. intros [= <-]. apply length_splice.
  rewrite length_take. unfold blen in *. lia.
Qed.

Lemma zero_loop_length n : forall i d d', zero_loop n i d = Ret d' -> length d' = length d.
Proof.
  induction n as [|n IH]; intros i d d' H; cbn [zero_loop] in H; [by injection H as ->|].
  apply bind_Ret_inv in H as (d1 & H1 & H). apply IH in H. rewrite H. clear H.
  unfold set_index in H1. case_if_in H1; [|done]. injection H1 as <-. apply length_insert.
Qed.

Lemma put_header_crc_length d d' : put_header_crc d = Ret d' -> length d' = length d.
Proof. unfold put_header_crc. intros (s & _ & H)%bind_Ret_inv. by eapply put_u32_length. Qed.

Lemma write_record_length h d off data h' d' :
  write_record h d off data = Ret (h', d') -> length d' = length d.
Proof.
  unfold write_record.
  intros (h1 & _ & (s & _ & (h2 & _ & (d1 & H1 & (d2 & H2 & (d3 & H3 & (d4 & H4 & [= -> ->])%bind_Ret_inv)%bind_Ret_inv)%bind_Ret_inv)%bind_Ret_inv)%bind_Ret_inv)%bind_Ret_inv)%bind_Ret_inv.
  apply copy_at_length in H1, H2, H3. apply zero_loop_length in H4. congruence.
Qed.

Lemma update_metadata_length io d o n d' : update_metadata io d o n = Ret d' -> length d' = length d.
Proof.
  unfold update_metadata.
  intros (d1 & H1 & (c & _ & (d2 & H2 & (d3 & H3 & H4)%bind_Ret_inv)%bind_Ret_inv)%bind_Ret_inv)%bind_Ret_inv.
  apply put_u32_length in H1. apply put_u64_length in H2, H3. apply put_header_crc_length in H4. congruence.
Qed.

Lemma Write_frame io seg data seg' r :
  Write io seg data = Ret (seg', r) ->
  data_erased seg' = data_erased seg /\ length (mmapData seg') = length (mmapData seg) /\
  (0 <= writeOffset seg <= mmapSize seg -> 0 <= writeOffset seg' <= mmapSize seg).
Proof.
  unfold Write. case_if; [by intros [= -> _]|].
  intros (f & _ & H)%bind_Ret_inv. case_if_in H; [by injection H as -> _|].
  case_if_in H; [by injection H as -> _|].
  pose proof (entrySize_pos _ (blen_nonneg data)).
  apply bind_Ret_inv in H as ([h d] & H1 & H). apply bind_Ret_inv in H as (d2 & H2 & H).
  apply write_record_length in H1. apply update_metadata_length in H2.
  case_if_in H; injection H as <- _; (split; [done|]); seg_cbn; (split; [congruence | lia]).
Qed.

Lemma SealSegment_frame io seg seg' e :
  SealSegment io seg = Ret (seg', e) ->
  data_erased (set_isSealed false seg') = data_erased (set_isSealed false seg) /\
  length (mmapData seg') = length (mmapData seg) /\ writeOffset seg' = writeOffset seg.
Proof.
  unfold SealSegment. case_if; [by intros [= -> _]|].
  intros (d1 & H1 & (d2 & H2 & (f & _ & (d3 & H3 & (d4 & H4 & [= <- _])%bind_Ret_inv)%bind_Ret_inv)%bind_Ret_inv)%bind_Ret_inv)%bind_Ret_inv.
  split; [done|]. seg_cbn. apply put_u64_length in H1, H2. apply put_u32_length in H3.
  apply put_header_crc_length in H4. split; [congruence | done].
Qed.

(** ** The invariant *)

(** All but the last clause, which is broken while a reference is dropped. *)
Record lbase (l : lstate) : Prop := {
  i_wf : wf (activeReaders (l_seg l));
  i_ids : forall i, i ∈ ids (activeReaders (l_seg l)) -> i <= readerIDCounter (l_seg l);
  i_counter : 0 <= readerIDCounter (l_seg l) < 2 ^ 64;
  i_refs : refCount (l_seg l) = Z.of_nat (size (ids (activeReaders (l_seg l)))) + Z.of_nat (l_backups l);
  i_mapped : closed (l_seg l) = false -> blen (mmapData (l_seg l)) = mmapSize (l_seg l);
  i_sized : 0 <= writeOffset (l_seg l) <= mmapSize (l_seg l) /\ mmapSize (l_seg l) <= maxSegmentSize;
  i_state : state (l_seg l) = StateOpen -> closed (l_seg l) = false /\ l_waiting l = false;
  i_wait : l_waiting l = true -> closed (l_seg l) = false;
  i_disk : onDisk (l_seg l) = false -> markedForDeletion (l_seg l) = true /\ state (l_seg l) = StateClosing
}.

(** A marked segment that nobody refers to is deleted. *)
Definition lgone (l : lstate) : Prop :=
  markedForDeletion (l_seg l) = true -> refCount (l_seg l) = 0 -> onDisk (l_seg l) = false.

Definition linv (l : lstate) : Prop := lbase l /\ lgone l.

Lemma close_finish_fine io seg :
  io_fine io -> closed seg = false ->
  exists e, close_finish io seg = CloseReturned (set_mmapData [] (set_closed true seg)) e.
Proof.
  intros (Hf & Hs & _) Hc. unfold close_finish, Sync. rewrite Hc, Hf, Hs. cbn [negb].
  destruct (io_unmap io); cbn; [|by eexists]. destruct (io_fdclose io); by eexists.
Qed.

(** Deleting a segment that nobody refers to. *)
Lemma cleanup_fine io seg :
  io_fine io -> refCount seg = 0 -> (state seg = StateOpen -> closed seg = false) ->
  cleanup io seg =
  set_onDisk false
    (match state seg with
     | StateOpen => set_mmapData [] (set_closed true (set_state StateClosing seg))
     | StateClosing => seg
     end).
Proof.
  intros Hio Hr Hst. pose proof Hio as (_ & _ & Hrm). unfold cleanup, Close.
  destruct (state seg) eqn:E; cbn.
  - rewrite Hr. if_false.
    destruct (close_finish_fine io (set_state StateClosing seg) Hio (Hst eq_refl)) as (e & ->). by rewrite Hrm.
  - by rewrite Hrm.
Qed.

(** Close the clauses an operation does not touch. *)
Ltac clauses := try assumption; try (intuition congruence).

Lemma linv_maybe_cleanup io seg p b w :
  io_fine io -> lbase (mkL seg p b w) ->
  linv (mkL (if (refCount seg =? 0) && markedForDeletion seg then cleanup io seg else seg) p b w).
Proof.
  intros Hio Hb. destruct ((refCount seg =? 0) && markedForDeletion seg) eqn:E.
  - apply andb_prop in E as [Hr%Z.eqb_eq Hm]. destruct Hb; cbn in *.
    rewrite (cleanup_fine io seg Hio Hr) by (intros; clauses).
    destruct (state seg) eqn:Est; (split; [constructor; cbn; clauses | by intros _ _]).
  - split; [done|]. intros Hm Hr. cbn in *. by rewrite Hm, Hr in E.
Qed.

Lemma releaseRef_inv io seg p b w :
  io_fine io -> lbase (mkL (set_refCount (refCount seg - 1) seg) p b w) ->
  linv (mkL (releaseRef io seg) p b w).
Proof. intros Hio Hb. exact (linv_maybe_cleanup io _ p b w Hio Hb). Qed.

Lemma MarkForDeletion_inv io seg p b w :
  io_fine io -> linv (mkL seg p b w) -> linv (mkL (MarkForDeletion io seg) p b w).
Proof.
  intros Hio [Hb Hg]. unfold MarkForDeletion. destruct (markedForDeletion seg) eqn:Em; [done|].
  cbn zeta. rewrite <- (andb_true_r (_ =? 0)).
  apply (linv_maybe_cleanup io (set_markedForDeletion true seg) p b w Hio).
  destruct Hb; constructor; cbn in *; clauses.
Qed.

Lemma decrRef_inv io rid seg p b w :
  io_fine io -> linv (mkL seg p b w) -> linv (mkL (decrRef io rid seg) p b w).
Proof.
  intros Hio [Hb Hg]. unfold decrRef. pose proof (i_wf _ Hb) as Hwf. cbn [l_seg] in Hwf.
  pose proof (Remove_wf (activeReaders seg) rid Hwf) as Hw. pose proof (Remove_ids _ rid Hwf) as Hi.
  pose proof (Remove_found _ rid Hwf) as Hf. destruct (Remove _ rid) as [rt ok]. cbn [fst snd] in *.
  destruct ok.
  - symmetry in Hf. apply bool_decide_eq_true in Hf. apply releaseRef_inv; [done|].
    destruct Hb; constructor; cbn in *; clauses; rewrite Hi.
    + intros i Hin. apply i_ids0. set_solver.
    + rewrite size_difference, size_singleton by set_solver.
      assert (size (ids (activeReaders seg)) <> 0%nat) by (apply size_non_empty_iff; set_solver). lia.
  - symmetry in Hf. apply bool_decide_eq_false in Hf.
    assert (ids rt = ids (activeReaders seg)) as Hids by set_solver.
    split; [|exact Hg]. destruct Hb; constructor; cbn in *; rewrite ?Hids; clauses.
Qed.

Lemma Close_inv io seg seg' e p b w :
  io_fine io -> linv (mkL seg p b w) -> Close io seg = CloseReturned seg' e -> linv (mkL seg' p b w).
Proof.
  intros Hio [Hb Hg] Hc. unfold Close in Hc. destruct (state seg) eqn:Est; [|by injection Hc as <- _].
  case_if_in Hc; [done|]. destruct (i_state _ Hb Est) as [Hcl Hw]. cbn in Hcl, Hw.
  destruct (close_finish_fine io (set_state StateClosing seg) Hio Hcl) as (e' & He').
  rewrite He' in Hc. injection Hc as <- _.
  split; [|exact Hg]. destruct Hb; constructor; cbn in *; clauses.
Qed.

Lemma reader_register_inv seg p b w :
  readerIDCounter seg + 1 < 2 ^ 64 -> linv (mkL seg (S p) b w) -> linv (mkL (reader_register seg) p b w).
Proof.
  intros Hlt [Hb Hg]. pose proof (i_counter _ Hb) as Hc. cbn [l_seg] in Hc.
  unfold reader_register. rewrite u64_small by lia.
  pose proof (i_wf _ Hb) as Hwf. cbn [l_seg] in Hwf.
  set (rid := readerIDCounter seg + 1).
  pose proof (Add_ids (activeReaders seg) rid Hwf) as Hi. pose proof (Add_wf _ rid Hwf) as Hw.
  assert (rid ∉ ids (activeReaders seg)) as Hnew by (intros Hin%(i_ids _ Hb); cbn in Hin; lia).
  pose proof (i_refs _ Hb) as Hrefs. cbn in Hrefs.
  split.
  - destruct Hb; constructor; cbn in *; clauses; rewrite ?Hi.
    + intros i. rewrite elem_of_union, elem_of_singleton. intros [->|Hin]; [done|].
      apply i_ids0 in Hin. lia.
    + lia.
    + rewrite size_union, size_singleton by set_solver. lia.
  - intros _ Hz. cbn in Hz. lia.
Qed.

Lemma erased_inv seg seg' p b w :
  data_erased (set_isSealed false seg') = data_erased (set_isSealed false seg) ->
  length (mmapData seg') = length (mmapData seg) ->
  (0 <= writeOffset seg <= mmapSize seg -> 0 <= writeOffset seg' <= mmapSize seg) ->
  linv (mkL seg p b w) -> linv (mkL seg' p b w).
Proof.
  intros He Hl Ho [Hb Hg]. destruct seg, seg'. cbn in *. injection He; clear He; intros; subst.
  split; [|exact Hg]. destruct Hb; constructor; cbn in *; clauses.
  intros Hc. rewrite <- (i_mapped0 Hc). unfold blen. by rewrite Hl.
Qed.

Lemma lstep_inv l l' : lstep l l' -> linv l -> linv l'.
Proof.
  destruct 1 as [seg p b w _|seg p b w Hc|io rid seg p b w Hio|seg p b w|io seg p b w Hio|io seg p b w Hio
                |io seg seg' e p b w Hio Hc|io seg seg' p b w Hio Hc|io seg seg' e p b Hio Hr Hc
                |io data seg seg' r p b w Hw|io seg seg' e p b w Hs]; intros Hi.
  - destruct Hi as [[] ?]. by split.
  - by apply reader_register_inv.
  - by apply decrRef_inv.
  - destruct Hi as [Hb Hg]. pose proof (i_refs _ Hb) as Hrefs. cbn in Hrefs. split.
    + destruct Hb; constructor; cbn in *; clauses. lia.
    + intros _ Hz. cbn in Hz. lia.
  - apply releaseRef_inv; [done|]. destruct Hi as [[] _]. constructor; cbn in *; clauses. lia.
  - by apply MarkForDeletion_inv.
  - by eapply Close_inv.
  - destruct Hi as [Hb Hg]. unfold Close in Hc. destruct (state seg) eqn:Est; [|done].
    case_if_in Hc; [|destruct (close_finish_fine io (set_state StateClosing seg) Hio) as (e & He);
                     [by apply (i_state _ Hb Est) | by rewrite He in Hc]].
    injection Hc as <-. destruct (i_state _ Hb Est) as [Hcl _]. split; [|exact Hg].
    destruct Hb; constructor; cbn in *; clauses.
  - destruct Hi as [Hb Hg]. pose proof (i_wait _ Hb eq_refl) as Hcl. cbn in Hcl.
    destruct (close_finish_fine io seg Hio Hcl) as (e' & He'). rewrite He' in Hc. injection Hc as <- _.
    split; [|exact Hg]. destruct Hb; constructor; cbn in *; clauses.
  - apply Write_frame in Hw as (He & Hl & Ho). eapply erased_inv; [|exact Hl|exact Ho|exact Hi].
    destruct seg, seg'. cbn in *. injection He; intros; by subst.
  - apply SealSegment_frame in Hs as (He & Hl & Ho). eapply erased_inv; [exact He|exact Hl|by rewrite Ho|exact Hi].
Qed.

(** ** Properties of every interleaving *)

(** A segment as [OpenSegmentFile] returns it. *)
Record seg_fresh (seg : Segment) : Prop := {
  f_readers : activeReaders seg = newReaderTracker;
  f_refs : refCount seg = 0;
  f_counter : readerIDCounter seg = 0;
  f_open : seg_open seg;
  f_disk : onDisk seg = true;
  f_marked : markedForDeletion seg = false;
  f_sized : seg_sized seg
}.

Lemma fresh_inv seg : seg_fresh seg -> linv (mkL seg 0 0 false).
Proof.
  intros [Hr Hz Hc [Ho Hs] Hd Hm (H1 & H2 & H3)]. split; [|unfold lgone; cbn; congruence].
  constructor; cbn; rewrite ?Hr, ?new_ids; clauses.
  - apply new_wf.
  - set_solver.
  - lia.
Qed.

Lemma reach_inv seg l : seg_fresh seg -> rtc lstep (mkL seg 0 0 false) l -> linv l.
Proof.
  intros Hf Hr. apply fresh_inv in Hf. revert Hf.
  induction Hr as [|l1 l2 l3 Hs _ IH]; [done|]. intros Hi. apply IH. by eapply lstep_inv.
Qed.


Lemma cleanup_refs io seg : refCount (cleanup io seg) = refCount seg /\
  markedForDeletion (cleanup io seg) = markedForDeletion seg.
Proof.
  unfold cleanup, Close, close_finish.
  destruct (state seg), (io_remove io); [..|done|done];
    (case_if; [done|]; destruct (Sync _ _); [done|]; repeat (case_if; [done|]); done).
Qed.

Lemma maybe_cleanup_refs io seg :
  let seg' := if (refCount seg =? 0) && markedForDeletion seg then cleanup io seg else seg in
  onDisk seg = true -> onDisk seg' = false -> refCount seg' = 0 /\ markedForDeletion seg' = true.
Proof.
  cbv zeta. destruct (_ && _) eqn:E; intros H1 H2; [|congruence].
  apply andb_prop in E as [Hz%Z.eqb_eq Hm]. destruct (cleanup_refs io seg). split; congruence.
Qed.

Lemma close_disk io seg seg' e : Close io seg = CloseReturned seg' e -> onDisk seg' = onDisk seg.
Proof.
  unfold Close, close_finish. destruct (state seg); [|by intros [= -> _]].
  case_if; [done|]. destruct (Sync _ _); [by intros [= <- _]|]. repeat (case_if; [by intros [= <- _]|]).
  by intros [= <- _].
Qed.

Lemma erased_disk seg seg' :
  data_erased (set_isSealed false seg') = data_erased (set_isSealed false seg) -> onDisk seg' = onDisk seg.
Proof. destruct seg, seg'. cbn. intros He. injection He; intros; by subst. Qed.

Lemma lstep_removes l l' :
  lstep l l' -> onDisk (l_seg l) = true -> onDisk (l_seg l') = false ->
  refCount (l_seg l') = 0 /\ markedForDeletion (l_seg l') = true.
Proof.
  intros Hs Hd Hd'.
  destruct Hs as [| |io rid s| |io s|io s|io s s' e p b w _ Hc|io s s' p b w Hio Hc|io s s' e p b Hio Hz Hc
                   |io dt s s' r p b w Hw|io s s' e p b w Hw]; cbn [l_seg] in *; try congruence.
  - cbn in Hd'. congruence.
  - unfold decrRef in *. destruct (Remove _ _) as [rt [|]]; [|cbn in Hd'; congruence].
      by apply (maybe_cleanup_refs io (set_refCount _ (set_activeReaders rt s))).
  - cbn in Hd'. congruence.
  - by apply (maybe_cleanup_refs io (set_refCount _ s)).
  - unfold MarkForDeletion in *. destruct (markedForDeletion s) eqn:E; [congruence|].
      pose proof (maybe_cleanup_refs io (set_markedForDeletion true s)) as Hcl. cbv zeta in Hcl.
      change (markedForDeletion (set_markedForDeletion true s)) with true in Hcl.
      rewrite andb_true_r in Hcl. by apply Hcl.
  - apply close_disk in Hc. congruence.
  - unfold Close in Hc. destruct (state s); [|done]. case_if_in Hc; [injection Hc as <-; cbn in Hd'; congruence|].
      unfold close_finish in Hc. destruct (Sync _ _); [done|]. by repeat (case_if_in Hc; [done|]).
  - unfold close_finish in Hc. destruct (Sync _ _); [injection Hc as <- _; cbn in Hd'; congruence|].
      repeat (case_if_in Hc; [injection Hc as <- _; cbn in Hd'; congruence|]).
      injection Hc as <- _. cbn in Hd'. congruence.
  - apply Write_frame in Hw as (He & _). rewrite (erased_disk s) in Hd'; [congruence|].
      destruct s, s'. cbn in *. injection He; intros; by subst.
  - apply SealSegment_frame in Hw as (He & _). rewrite (erased_disk s) in Hd'; [congruence|done].
Qed.

(** A segment's file is removed only after the segment was marked for
    deletion and at a moment when no reader and no backup refers to it. *)
Theorem file_removed_only_unreferenced seg l l' :
  seg_fresh seg -> rtc lstep (mkL seg 0 0 false) l -> lstep l l' ->
  onDisk (l_seg l) = true -> onDisk (l_seg l') = false ->
  markedForDeletion (l_seg l') = true /\ ids (activeReaders (l_seg l')) = ∅ /\ l_backups l' = O.
Proof.
  intros Hf Hr Hs Hd Hd'. pose proof (reach_inv seg l Hf Hr) as Hi. pose proof (lstep_inv _ _ Hs Hi) as [Hb' _].
  destruct (lstep_removes l l' Hs Hd Hd') as [Hz Hm].
  split; [done|]. pose proof (i_refs _ Hb') as Hrefs.
  split; [|lia]. apply leibniz_equiv, size_empty_inv. lia.
Qed.

(** A small open segment. *)
Definition small_seg : Segment :=
  set_onDisk true (set_writeOffset 64 (set_mmapData (replicate 256 Byte.x00) (set_mmapSize 256 (blankSegment 1)))).

Lemma small_fresh : seg_fresh small_seg.
Proof. by constructor. Qed.

(** A reader registers after the segment was marked for deletion behind its guard. *)
Definition marked_l : lstate := mkL (reader_register (MarkForDeletion (okIO 5) (incrRef small_seg))) 0 1 false.

Lemma marked_reach : rtc lstep (mkL small_seg 0 0 false) marked_l.
Proof.
  eapply rtc_l; [by apply L_guard|]. eapply rtc_l; [apply L_backup|].
  eapply rtc_l; [by apply (L_mark (okIO 5))|]. eapply rtc_l; [by apply L_register|]. apply rtc_refl.
Qed.


(** The backup is done, then the last reader goes. *)
Definition last_l : lstate := mkL (releaseRef (okIO 6) (l_seg marked_l)) 0 0 false.
Definition gone_l : lstate := mkL (decrRef (okIO 7) 1 (releaseRef (okIO 6) (l_seg marked_l))) 0 0 false.

Lemma file_removed_only_unreferenced_witness :
  onDisk (l_seg last_l) = true /\ onDisk (l_seg gone_l) = false /\
  markedForDeletion (l_seg gone_l) = true /\ ids (activeReaders (l_seg gone_l)) = ∅ /\ l_backups gone_l = O.
Proof.
  assert (onDisk (l_seg last_l) = true) as H1 by (by vm_compute).
  assert (onDisk (l_seg gone_l) = false) as H2 by (by vm_compute).
  split; [exact H1|]. split; [exact H2|].
  apply (file_removed_only_unreferenced small_seg last_l gone_l small_fresh).
  - eapply rtc_r; [apply marked_reach|].
    exact (L_backup_done (okIO 6) (l_seg marked_l) 0 0 false (conj eq_refl (conj eq_refl eq_refl))).
  - exact (L_decrRef (okIO 7) 1 (releaseRef (okIO 6) (l_seg marked_l)) 0 0 false (conj eq_refl (conj eq_refl eq_refl))).
  - exact H1.
  - exact H2.
Defined.

(** When the final sync of [Close] fails, the mapping is released but the
    segment is not marked closed: reads of any offset inside the segment panic
    afterwards instead of returning [ErrClosed]. *)
Theorem failed_close_makes_reads_panic io seg offset :
  seg_open seg -> refCount seg <= 0 -> io_flush io && io_fsync io = false ->
  0 <= offset -> offset + 8 <= mmapSize seg < 2 ^ 63 ->
  exists seg' e, Close io seg = CloseReturned seg' (Some e) /\ Read seg' offset = Panic.
Proof.
  intros [Hc Hst] Hr Hio Ho Hle. unfold Close. rewrite Hst. cbn [refCount set_state]. if_false.
  assert (exists e, Sync io (set_state StateClosing seg) = Some e) as (e & He).
  { unfold Sync. cbn [closed set_state]. rewrite Hc.
    destruct (io_flush io); [|by eexists]. destruct (io_fsync io); [done | by eexists]. }
  unfold close_finish. rewrite He. eexists _, e. split; [done|].
  unfold Read, recordHeaderSize. seg_cbn. rewrite Hc, i64_small by lia. if_false.
  assert (slice ([] : bytes) offset (offset + 8) = Panic) as -> by (unfold slice; change (blen ([] : bytes)) with 0; by if_false).
  done.
Qed.

Lemma failed_close_makes_reads_panic_witness :
  exists seg' e, Close (mkIO 1 true false true true true true true true true true) small_seg =
      CloseReturned seg' (Some e) /\ Read seg' 64 = Panic.
Proof. apply failed_close_makes_reads_panic; by vm_compute. Defined.
