(* ===== verification/WALog.v ===== *)
(** The segmented write-ahead log (src/pkg/walfs/walog.go): the model.

    A [WALog] holds pointers to segments; the segments themselves live in
    [heap], so that the map of segments, the snapshot used by readers, the
    pending-deletion map and the readers alias the same objects as in the
    source.  [disk] is the set of segment files with the contents they had when
    this process last opened them (the mapping of an open segment is newer).
    Each call of a segment method gets its own answers of the outside world
    from the stream [ios]. *)

From stdpp Require Import prelude list numbers gmap sorting.
From Stdlib Require Import ZArith Lia.
From S2P Require Import Prelude Bytes Crc32 ReaderTracker Segment.

Record WALog := mkWALog {
  wl_maxSegmentSize : Z;
  bytesPerSync : Z;
  unSynced : Z;
  forceSyncEveryWrite : MsyncOption;
  bytesPerSyncCalled : Z;
  segmentRotated : Z;
  currentSegment : option nat;
  segments : gmap Z nat;
  segmentSnapshot : list nat;
  segmentMaxAge : Z;
  minSegmentsToRetain : Z;
  maxSegmentsToRetain : Z;
  enableAutoCleanup : bool;
  pendingDeletion : gmap Z nat;
  heap : list Segment;
  disk : gmap Z bytes
}.

(** Field updates. *)
Definition with_maxSegmentSize (v : Z) (w : WALog) : WALog :=
  mkWALog v (bytesPerSync w) (unSynced w) (forceSyncEveryWrite w) (bytesPerSyncCalled w)
    (segmentRotated w) (currentSegment w) (segments w) (segmentSnapshot w) (segmentMaxAge
    w) (minSegmentsToRetain w) (maxSegmentsToRetain w) (enableAutoCleanup w)
    (pendingDeletion w) (heap w) (disk w).
Definition with_bytesPerSync (v : Z) (w : WALog) : WALog :=
  mkWALog (wl_maxSegmentSize w) v (unSynced w) (forceSyncEveryWrite w) (bytesPerSyncCalled
    w) (segmentRotated w) (currentSegment w) (segments w) (segmentSnapshot w)
    (segmentMaxAge w) (minSegmentsToRetain w) (maxSegmentsToRetain w) (enableAutoCleanup
    w) (pendingDeletion w) (heap w) (disk w).
Definition with_unSynced (v : Z) (w : WALog) : WALog :=
  mkWALog (wl_maxSegmentSize w) (bytesPerSync w) v (forceSyncEveryWrite w)
    (bytesPerSyncCalled w) (segmentRotated w) (currentSegment w) (segments w)
    (segmentSnapshot w) (segmentMaxAge w) (minSegmentsToRetain w) (maxSegmentsToRetain w)
    (enableAutoCleanup w) (pendingDeletion w) (heap w) (disk w).
Definition with_forceSyncEveryWrite (v : MsyncOption) (w : WALog) : WALog :=
  mkWALog (wl_maxSegmentSize w) (bytesPerSync w) (unSynced w) v (bytesPerSyncCalled w)
    (segmentRotated w) (currentSegment w) (segments w) (segmentSnapshot w) (segmentMaxAge
    w) (minSegmentsToRetain w) (maxSegmentsToRetain w) (enableAutoCleanup w)
    (pendingDeletion w) (heap w) (disk w).
Definition with_bytesPerSyncCalled (v : Z) (w : WALog) : WALog :=
  mkWALog (wl_maxSegmentSize w) (bytesPerSync w) (unSynced w) (forceSyncEveryWrite w) v
    (segmentRotated w) (currentSegment w) (segments w) (segmentSnapshot w) (segmentMaxAge
    w) (minSegmentsToRetain w) (maxSegmentsToRetain w) (enableAutoCleanup w)
    (pendingDeletion w) (heap w) (disk w).
Definition with_segmentRotated (v : Z) (w : WALog) : WALog :=
  mkWALog (wl_maxSegmentSize w) (bytesPerSync w) (unSynced w) (forceSyncEveryWrite w)
    (bytesPerSyncCalled w) v (currentSegment w) (segments w) (segmentSnapshot w)
    (segmentMaxAge w) (minSegmentsToRetain w) (maxSegmentsToRetain w) (enableAutoCleanup
    w) (pendingDeletion w) (heap w) (disk w).
Definition with_currentSegment (v : option nat) (w : WALog) : WALog :=
  mkWALog (wl_maxSegmentSize w) (bytesPerSync w) (unSynced w) (forceSyncEveryWrite w)
    (bytesPerSyncCalled w) (segmentRotated w) v (segments w) (segmentSnapshot w)
    (segmentMaxAge w) (minSegmentsToRetain w) (maxSegmentsToRetain w) (enableAutoCleanup
    w) (pendingDeletion w) (heap w) (disk w).
Definition with_segments (v : gmap Z nat) (w : WALog) : WALog :=
  mkWALog (wl_maxSegmentSize w) (bytesPerSync w) (unSynced w) (forceSyncEveryWrite w)
    (bytesPerSyncCalled w) (segmentRotated w) (currentSegment w) v (segmentSnapshot w)
    (segmentMaxAge w) (minSegmentsToRetain w) (maxSegmentsToRetain w) (enableAutoCleanup
    w) (pendingDeletion w) (heap w) (disk w).
Definition with_segmentSnapshot (v : list nat) (w : WALog) : WALog :=
  mkWALog (wl_maxSegmentSize w) (bytesPerSync w) (unSynced w) (forceSyncEveryWrite w)
    (bytesPerSyncCalled w) (segmentRotated w) (currentSegment w) (segments w) v
    (segmentMaxAge w) (minSegmentsToRetain w) (maxSegmentsToRetain w) (enableAutoCleanup
    w) (pendingDeletion w) (heap w) (disk w).
Definition with_segmentMaxAge (v : Z) (w : WALog) : WALog :=
  mkWALog (wl_maxSegmentSize w) (bytesPerSync w) (unSynced w) (forceSyncEveryWrite w)
    (bytesPerSyncCalled w) (segmentRotated w) (currentSegment w) (segments w)
    (segmentSnapshot w) v (minSegmentsToRetain w) (maxSegmentsToRetain w)
    (enableAutoCleanup w) (pendingDeletion w) (heap w) (disk w).
Definition with_minSegmentsToRetain (v : Z) (w : WALog) : WALog :=
  mkWALog (wl_maxSegmentSize w) (bytesPerSync w) (unSynced w) (forceSyncEveryWrite w)
    (bytesPerSyncCalled w) (segmentRotated w) (currentSegment w) (segments w)
    (segmentSnapshot w) (segmentMaxAge w) v (maxSegmentsToRetain w) (enableAutoCleanup w)
    (pendingDeletion w) (heap w) (disk w).
Definition with_maxSegmentsToRetain (v : Z) (w : WALog) : WALog :=
  mkWALog (wl_maxSegmentSize w) (bytesPerSync w) (unSynced w) (forceSyncEveryWrite w)
    (bytesPerSyncCalled w) (segmentRotated w) (currentSegment w) (segments w)
    (segmentSnapshot w) (segmentMaxAge w) (minSegmentsToRetain w) v (enableAutoCleanup w)
    (pendingDeletion w) (heap w) (disk w).
Definition with_enableAutoCleanup (v : bool) (w : WALog) : WALog :=
  mkWALog (wl_maxSegmentSize w) (bytesPerSync w) (unSynced w) (forceSyncEveryWrite w)
    (bytesPerSyncCalled w) (segmentRotated w) (currentSegment w) (segments w)
    (segmentSnapshot w) (segmentMaxAge w) (minSegmentsToRetain w) (maxSegmentsToRetain w)
    v (pendingDeletion w) (heap w) (disk w).
Definition with_pendingDeletion (v : gmap Z nat) (w : WALog) : WALog :=
  mkWALog (wl_maxSegmentSize w) (bytesPerSync w) (unSynced w) (forceSyncEveryWrite w)
    (bytesPerSyncCalled w) (segmentRotated w) (currentSegment w) (segments w)
    (segmentSnapshot w) (segmentMaxAge w) (minSegmentsToRetain w) (maxSegmentsToRetain w)
    (enableAutoCleanup w) v (heap w) (disk w).
Definition with_heap (v : list Segment) (w : WALog) : WALog :=
  mkWALog (wl_maxSegmentSize w) (bytesPerSync w) (unSynced w) (forceSyncEveryWrite w)
    (bytesPerSyncCalled w) (segmentRotated w) (currentSegment w) (segments w)
    (segmentSnapshot w) (segmentMaxAge w) (minSegmentsToRetain w) (maxSegmentsToRetain w)
    (enableAutoCleanup w) (pendingDeletion w) v (disk w).
Definition with_disk (v : gmap Z bytes) (w : WALog) : WALog :=
  mkWALog (wl_maxSegmentSize w) (bytesPerSync w) (unSynced w) (forceSyncEveryWrite w)
    (bytesPerSyncCalled w) (segmentRotated w) (currentSegment w) (segments w)
    (segmentSnapshot w) (segmentMaxAge w) (minSegmentsToRetain w) (maxSegmentsToRetain w)
    (enableAutoCleanup w) (pendingDeletion w) (heap w) v.

(** ** Options *)

Definition WithMaxSegmentSize (size : Z) (w : WALog) : WALog := with_maxSegmentSize size w.
Definition WithBytesPerSync (n : Z) (w : WALog) : WALog := with_bytesPerSync n w.
Definition WithMSyncEveryWrite (enabled : bool) (w : WALog) : WALog :=
  if enabled then with_forceSyncEveryWrite MsyncOnWrite w else w.

(** The assignments that follow the guards overwrite what the guards did. *)
Definition WithAutoCleanupPolicy (maxAge minSegments maxSegments : Z) (enable : bool) (w : WALog) : WALog :=
  let w := if 0 <? minSegments then with_minSegmentsToRetain minSegments w else w in
  let w := if 0 <? maxSegments then with_maxSegmentsToRetain maxSegments w else w in
  let w := if 0 <? maxAge then with_segmentMaxAge maxAge w else w in
  let w := with_segmentMaxAge maxAge w in
  let w := with_minSegmentsToRetain minSegments w in
  let w := with_maxSegmentsToRetain maxSegments w in
  with_enableAutoCleanup enable w.

(** ** Segment file names *)

Definition digit (d : Z) : byte := to_byte (48 + d).

(** Decimal digits of a uint32 (at most ten). *)
Fixpoint decimal (fuel : nat) (z : Z) : bytes :=
  match fuel with
  | O => []
  | S fuel' => if z <? 10 then [digit z] else decimal fuel' (z / 10) ++ [digit (z mod 10)]
  end.

(** [fmt.Sprintf("%09d"+extName, id)], without the directory. *)
Definition SegmentFileName (ext : bytes) (segID : Z) : bytes :=
  let ds := decimal 10 segID in
  replicate (9 - length ds) (digit 0) ++ ds ++ ext.

(** [strings.HasSuffix] with [strings.TrimSuffix]. *)
Definition trim_suffix (name ext : bytes) : option bytes :=
  let n := (length name - length ext)%nat in
  if (length ext <=? length name)%nat && bool_decide (drop n name = ext)
  then Some (take n name) else None.

(** [strconv.ParseUint(s, 10, 32)]. *)
Fixpoint parse_digits (acc : Z) (s : bytes) : option Z :=
  match s with
  | [] => Some acc
  | b :: s' =>
      let d := u8 b - 48 in
      if (0 <=? d) && (d <=? 9) then
        let n := 10 * acc + d in
        if 2 ^ 32 <=? n then None else parse_digits n s'
      else None
  end.
Definition ParseUint (s : bytes) : option Z :=
  match s with [] => None | _ => parse_digits 0 s end.

(** The id of a directory entry, if it is a segment file. *)
Definition segment_id_of_entry (ext : bytes) (e : bytes * bool) : option Z :=
  let '(name, isDir) := e in
  if isDir then None else
  base ← trim_suffix name ext;
  ParseUint base.

(** ** Pointers *)

Definition deref (w : WALog) (p : nat) : outcome Segment :=
  match heap w !! p with Some s => Ret s | None => Panic end.

Definition store (p : nat) (s : Segment) (w : WALog) : WALog :=
  with_heap (<[p := s]> (heap w)) w.

Definition alloc (s : Segment) (w : WALog) : nat * WALog :=
  (length (heap w), with_heap (heap w ++ [s]) w).

Definition ptr_id (w : WALog) (p : nat) : Z :=
  match heap w !! p with Some s => id s | None => 0 end.

(** ** Opening *)

(** Ascending segment id, the order of the [sort.Slice] calls. *)
Definition older (w : WALog) (p q : nat) : Prop := ptr_id w p <= ptr_id w q.
#[global] Instance older_dec w p q : Decision (older w p q).
Proof. unfold older. apply _. Defined.

Definition snapshotSegments (w : WALog) : WALog :=
  with_segmentSnapshot
    (merge_sort (older w) (map_to_list (segments w)).*2) w.

(** Opens (or creates) the file of [segID]; a new file is followed by a sync of
    the directory, and by closing the segment when that fails. *)
Definition openSegment (io : IO) (segID : Z) (w : WALog) : outcome (WALog * result error nat) :=
  match isNewSegment io (disk w !! segID) with
  | Err e => Ret (w, Err e)
  | Ok isNew =>
      '(file, r) ← OpenSegmentFile io (disk w !! segID) segID
                     [WithSegmentSize (wl_maxSegmentSize w); WithSyncOption (forceSyncEveryWrite w)];
      let w := with_disk (match file with Some d => <[segID := d]> (disk w) | None => disk w end) w in
      match r with
      | Err e => Ret (w, Err e)
      | Ok seg =>
          if isNew && negb (io_syncdir io) then Ret (w, Err ErrSyncDir)
          else let '(p, w) := alloc seg w in Ret (w, Ok p)
      end
  end.

(** The loop over the sorted ids: all but the last segment get sealed. *)
Fixpoint recover_loop (ios : nat -> IO) (ids : list Z) (w : WALog) : outcome (WALog * option error) :=
  match ids with
  | [] => Ret (w, None)
  | segID :: rest =>
      '(w, r) ← openSegment (ios 0%nat) segID w;
      match r with
      | Err e => Ret (w, Some e)
      | Ok p =>
          seg ← deref w p;
          '(w, err) ←
            (if bool_decide (rest = []) then Ret (w, None)
             else
               flags ← GetFlags seg;
               if IsSealed flags then Ret (w, None)
               else '(seg, e) ← SealSegment (ios 1%nat) seg; Ret (store p seg w, e));
          match err with
          | Some e => Ret (w, Some e)
          | None =>
              let w := with_segments (<[segID := p]> (segments w)) w in
              let w := with_currentSegment (Some p) w in
              recover_loop (fun n => ios (2 + n)%nat) rest w
          end
      end
  end.

(** [entries] is what [os.ReadDir] lists: names, and whether they are directories. *)
Definition recoverSegments (ios : nat -> IO) (ext : bytes) (entries : list (bytes * bool)) (w : WALog)
  : outcome (WALog * option error) :=
  let segmentIDs := merge_sort Z.le (omap (segment_id_of_entry ext) entries) in
  match segmentIDs with
  | [] =>
      '(w, r) ← openSegment (ios 0%nat) 1 w;
      match r with
      | Err e => Ret (w, Some e)
      | Ok p =>
          let w := with_segments (<[1 := p]> (segments w)) w in
          let w := with_currentSegment (Some p) w in
          Ret (snapshotSegments w, None)
      end
  | _ =>
      '(w, err) ← recover_loop ios segmentIDs w;
      match err with
      | Some e => Ret (w, Some e)
      | None => Ret (snapshotSegments w, None)
      end
  end.

(** The literal in [NewWALog], before the options run. *)
Definition blankWALog (files : gmap Z bytes) : WALog :=
  mkWALog segmentSize 0 0 MsyncNone 0 0 None ∅ [] 0 0 0 false ∅ [] files.

Definition NewWALog (ios : nat -> IO) (ext : bytes) (entries : list (bytes * bool)) (files : gmap Z bytes)
    (opts : list (WALog -> WALog)) : outcome (result error WALog) :=
  let manager := foldl (fun w opt => opt w) (blankWALog files) opts in
  '(w, err) ← recoverSegments ios ext entries manager;
  match err with Some e => Ret (Err e) | None => Ret (Ok w) end.

(** ** Syncing and closing *)

Definition Sync (io : IO) (w : WALog) : outcome (option error) :=
  match currentSegment w with
  | None => Ret (Some ErrNoActiveSegment)
  | Some p =>
      seg ← deref w p;
      if closed seg then Ret None else
      match Segment.Sync io seg with Some _ => Ret (Some ErrFsync) | None => Ret None end
  end.

(** [Close] visits the map of segments; [order] is the order of that visit.  A
    segment with references makes it wait, with the writer lock held. *)
Inductive wal_close_outcome :=
| WalCloseReturned (w : WALog) (errs : list error)
| WalCloseBlocked (w : WALog).

Fixpoint close_loop (ios : nat -> IO) (order : list nat) (w : WALog) (errs : list error)
  : outcome wal_close_outcome :=
  match order with
  | [] => Ret (WalCloseReturned w (if io_syncdir (ios 0%nat) then errs else errs ++ [ErrSyncDir]))
  | p :: rest =>
      seg ← deref w p;
      match Segment.Close (ios 0%nat) seg with
      | CloseWaiting seg => Ret (WalCloseBlocked (store p seg w))
      | CloseReturned seg e =>
          close_loop (fun n => ios (S n)) rest (store p seg w)
            (match e with Some e => errs ++ [e] | None => errs end)
      end
  end.

Definition Close (ios : nat -> IO) (order : list nat) (w : WALog) : outcome wal_close_outcome :=
  close_loop ios order w [].

(** ** Rotation *)

Definition rotateSegment (ios : nat -> IO) (w : WALog) : outcome (WALog * option error) :=
  '(w, err) ←
    match currentSegment w with
    | None => Ret (w, None)
    | Some p =>
        seg ← deref w p;
        flags ← GetFlags seg;
        if IsSealed flags then Ret (w, None) else
        '(seg, e) ← SealSegment (ios 0%nat) seg;
        match e with
        | Some e => Ret (store p seg w, Some e)
        | None =>
            match Segment.Sync (ios 1%nat) seg with
            | Some e => Ret (store p seg w, Some e)
            | None => Ret (store p (MarkSealedInMemory seg) w, None)
            end
        end
    end;
  match err with
  | Some e => Ret (w, Some e)
  | None =>
      let newID := match currentSegment w with
                   | None => 1
                   | Some p => u32 (ptr_id w p + 1)
                   end in
      '(w, r) ← openSegment (ios 2%nat) newID w;
      match r with
      | Err e => Ret (w, Some e)
      | Ok p =>
          let w := with_segments (<[newID := p]> (segments w)) w in
          let w := with_currentSegment (Some p) w in
          let w := with_bytesPerSyncCalled 0 w in
          let w := with_segmentRotated (segmentRotated w + 1) w in
          Ret (snapshotSegments w, None)
      end
  end.

Definition RotateSegment (ios : nat -> IO) (w : WALog) : outcome (WALog * option error) :=
  rotateSegment ios w.

(** ** Writing *)

Definition recordOverhead (dataLen : Z) : Z :=
  alignUp dataLen + recordHeaderSize + recordTrailerMarkerSize.

(** The msync of the write path, once enough bytes are unsynced. *)
Definition sync_if_due (io : IO) (p : nat) (w : WALog) : outcome (WALog * option error) :=
  if (0 <? bytesPerSync w) && (bytesPerSync w <=? unSynced w) then
    seg ← deref w p;
    match MSync io seg with
    | Some e => Ret (w, Some e)
    | None => Ret (with_bytesPerSyncCalled (bytesPerSyncCalled w + 1) (with_unSynced 0 w), None)
    end
  else Ret (w, None).

Definition Write (ios : nat -> IO) (w : WALog) (data : bytes)
  : outcome (WALog * result error RecordPosition) :=
  match currentSegment w with
  | None => Ret (w, Err ErrNoActiveSegment)
  | Some p =>
      let estimatedSize := recordOverhead (blen data) in
      if wl_maxSegmentSize w - segmentHeaderSize <? estimatedSize
      then Ret (w, Err ErrRecordTooLarge) else
      seg ← deref w p;
      '(w, err) ← (if WillExceed seg (blen data) then rotateSegment ios w else Ret (w, None));
      match err, currentSegment w with
      | Some e, _ => Ret (w, Err e)
      | None, None => Panic
      | None, Some p =>
          seg ← deref w p;
          '(seg, r) ← Segment.Write (ios 3%nat) seg data;
          let w := store p seg w in
          match r with
          | Err e => Ret (w, Err e)
          | Ok pos =>
              let w := with_unSynced (unSynced w + estimatedSize) w in
              '(w, e) ← sync_if_due (ios 4%nat) p w;
              match e with Some e => Ret (w, Err e) | None => Ret (w, Ok pos) end
          end
      end
  end.

(** Bytes added to the unsynced counter by the first records of a batch. *)
Definition overhead_sum (records : list bytes) : Z :=
  foldl (fun n d => n + recordOverhead (blen d)) 0 records.

(** The loop of [WriteBatch]; one turn per segment. *)
Fixpoint writeBatch_loop (fuel : nat) (ios : nat -> IO) (remaining : list bytes)
    (allPositions : list RecordPosition) (w : WALog)
  : outcome (WALog * (list RecordPosition * option error)) :=
  match fuel with
  | O => NoFuel
  | S fuel' =>
      if bool_decide (remaining = []) then Ret (w, (allPositions, None)) else
      match currentSegment w with
      | None => Panic
      | Some p =>
          seg ← deref w p;
          '(seg, res) ← Segment.WriteBatch (ios 3%nat) seg remaining;
          let '(positions, written, batchErr) := res in
          let w := store p seg w in
          if (match batchErr with
              | Some e => negb (bool_decide (e = ErrSegmentFull))
              | None => false
              end)
          then Ret (w, (allPositions, batchErr)) else
          let allPositions := allPositions ++ positions in
          let w := with_unSynced (unSynced w + overhead_sum (take written remaining)) w in
          '(w, syncErr) ← sync_if_due (ios 4%nat) p w;
          match syncErr with
          | Some e => Ret (w, (allPositions, Some e))
          | None =>
              if (written =? length remaining)%nat then Ret (w, (allPositions, None)) else
              if bool_decide (batchErr = Some ErrSegmentFull) && (written <? length remaining)%nat then
                '(w, rotateErr) ← rotateSegment ios w;
                match rotateErr with
                | Some e => Ret (w, (allPositions, Some e))
                | None =>
                    writeBatch_loop fuel' (fun n => ios (5 + n)%nat) (drop written remaining) allPositions w
                end
              else Ret (w, (allPositions, Some ErrUnexpectedState))
          end
      end
  end.

(** Every turn but the first writes at least one record. *)
Definition writeBatch_fuel (records : list bytes) : nat := (2 + length records)%nat.

Definition WriteBatch (ios : nat -> IO) (w : WALog) (records : list bytes)
  : outcome (WALog * (list RecordPosition * option error)) :=
  if bool_decide (records = []) then Ret (w, ([], None)) else
  match currentSegment w with
  | None => Ret (w, ([], Some ErrNoActiveSegment))
  | Some _ =>
      let usable := wl_maxSegmentSize w - segmentHeaderSize in
      if existsb (fun d => usable <? recordOverhead (blen d)) records
      then Ret (w, ([], Some ErrRecordTooLarge))
      else writeBatch_loop (writeBatch_fuel records) ios records [] w
  end.

Definition BytesPerSyncCallCount (w : WALog) : Z := bytesPerSyncCalled w.
Definition SegmentRotatedCount (w : WALog) : Z := segmentRotated w.

(** ** Reading *)

Definition Read (w : WALog) (pos : RecordPosition) : outcome (result error bytes) :=
  match segments w !! SegmentID pos with
  | None => Ret (Err ErrSegmentNotFound)
  | Some p =>
      seg ← deref w p;
      if Offset pos <? segmentHeaderSize then Ret (Err ErrOffsetBeforeHeader) else
      if GetSegmentSize seg <? Offset pos then Ret (Err ErrOffsetOutOfBounds) else
      r ← Segment.Read seg (Offset pos);
      match r with
      | Err e => Ret (Err e)
      | Ok (data, _) => Ret (Ok data)
      end
  end.

Definition Segments (w : WALog) : gmap Z nat := segments w.
Definition Current (w : WALog) : option nat := currentSegment w.

(** ** Backups *)

(** A backup directory: finished copies and temporary files, by segment id. *)
Record backup_dir := mkBackup { bk_final : gmap Z bytes; bk_tmp : gmap Z bytes }.

(** What the file system answers while a copy is made. *)
Record CopyIO := mkCopyIO {
  cp_open : bool; cp_create : bool; cp_copy : bool; cp_sync : bool; cp_close : bool;
  cp_rename : bool; cp_syncdir : bool
}.

Inductive backup_error :=
| BkOpen | BkCreate | BkCopy | BkSync | BkClose | BkFinalize | BkSyncDir
| BkEmptyDir | BkMkdir | BkNoActive | BkNoRotated | BkNotFound | BkNotSealed | BkSameDir.

(** Copy through a temporary file, which is removed again on an error. *)
Definition copySegmentFile (c : CopyIO) (src : option bytes) (segID : Z) (dir : backup_dir)
  : backup_dir * option backup_error :=
  match src with
  | None => (dir, Some BkOpen)
  | Some content =>
      if negb (cp_open c) then (dir, Some BkOpen) else
      if negb (cp_create c) then (dir, Some BkCreate) else
      let dir := mkBackup (bk_final dir) (<[segID := content]> (bk_tmp dir)) in
      let undo := mkBackup (bk_final dir) (delete segID (bk_tmp dir)) in
      if negb (cp_copy c) then (undo, Some BkCopy) else
      if negb (cp_sync c) then (undo, Some BkSync) else
      if negb (cp_close c) then (undo, Some BkClose) else
      let dir := mkBackup (delete segID (bk_final dir)) (bk_tmp dir) in
      if negb (cp_rename c)
      then (mkBackup (bk_final dir) (delete segID (bk_tmp dir)), Some BkFinalize) else
      let dir := mkBackup (<[segID := content]> (bk_final dir)) (delete segID (bk_tmp dir)) in
      if negb (cp_syncdir c) then (dir, Some BkSyncDir) else (dir, None)
  end.

(** What reading the file of a segment gives: the shared mapping while it is
    there, else what the file system holds. *)
Definition file_contents (w : WALog) (seg : Segment) : option bytes :=
  if onDisk seg then
    if bool_decide (mmapData seg = []) then disk w !! id seg else Some (mmapData seg)
  else None.

(** After a segment call that may have removed the file. *)
Definition store_unlink (p : nat) (seg : Segment) (w : WALog) : WALog :=
  let w' := store p seg w in
  if onDisk seg then w' else with_disk (delete (id seg) (disk w')) w'.

Definition BackupLastRotatedSegment (io : IO) (c : CopyIO) (emptyDir mkdirOk sameDir : bool)
    (w : WALog) (dir : backup_dir) : outcome (WALog * backup_dir * result backup_error Z) :=
  if emptyDir then Ret (w, dir, Err BkEmptyDir) else
  if negb mkdirOk then Ret (w, dir, Err BkMkdir) else
  match currentSegment w with
  | None => Ret (w, dir, Err BkNoActive)
  | Some cur =>
      if ptr_id w cur <=? 1 then Ret (w, dir, Err BkNoRotated) else
      let lastID := ptr_id w cur - 1 in
      match segments w !! lastID with
      | None => Ret (w, dir, Err BkNotFound)
      | Some p =>
          seg ← deref w p;
          let seg := incrRef seg in
          let done_ dir r := Ret (store_unlink p (releaseRef io seg) w, dir, r) in
          unsealed ← (if IsInMemorySealed seg then Ret false
                      else flags ← GetFlags seg; Ret (negb (IsSealed flags)));
          if (unsealed : bool) then done_ dir (Err BkNotSealed) else
          if sameDir then done_ dir (Err BkSameDir) else
          let '(dir, e) := copySegmentFile c (file_contents w seg) lastID dir in
          done_ dir (match e with Some e => Err e | None => Ok lastID end)
      end
  end.

(** Whether the segment is the active one and unsealed, which a backup leaves out. *)
Definition backup_skips (currentID segID : Z) (seg : Segment) : outcome bool :=
  if negb (segID =? currentID) then Ret false else
  if IsInMemorySealed seg then Ret false else
  flags ← GetFlags seg; Ret (negb (IsSealed flags)).

(** First loop of [BackupSegmentsAfter]: take a reference on every target. *)
Fixpoint backup_targets (afterID currentID : Z) (ps : list (Z * nat)) (w : WALog)
  : outcome (WALog * list nat) :=
  match ps with
  | [] => Ret (w, [])
  | (segID, p) :: rest =>
      if segID <=? afterID then backup_targets afterID currentID rest w else
      seg ← deref w p;
      skip ← backup_skips currentID segID seg;
      if (skip : bool) then backup_targets afterID currentID rest w else
      '(w, targets) ← backup_targets afterID currentID rest (store p (incrRef seg) w);
      Ret (w, p :: targets)
  end.

(** Second loop: copy, in ascending order of the ids, until an error. *)
Fixpoint backup_copies (c : nat -> CopyIO) (sameDir : bool) (targets : list nat) (w : WALog)
    (dir : backup_dir) (done_ : list Z) : outcome (backup_dir * result backup_error (list Z)) :=
  match targets with
  | [] => Ret (dir, Ok done_)
  | p :: rest =>
      seg ← deref w p;
      unsealed ← (if IsInMemorySealed seg then Ret false
                  else flags ← GetFlags seg; Ret (negb (IsSealed flags)));
      if (unsealed : bool) then Ret (dir, Err BkNotSealed) else
      if sameDir then Ret (dir, Err BkSameDir) else
      let '(dir, e) := copySegmentFile (c 0%nat) (file_contents w seg) (id seg) dir in
      match e with
      | Some e => Ret (dir, Err e)
      | None => backup_copies (fun n => c (S n)) sameDir rest w dir (done_ ++ [id seg])
      end
  end.

(** The deferred releases. *)
Fixpoint release_all (ios : nat -> IO) (targets : list nat) (w : WALog) : outcome WALog :=
  match targets with
  | [] => Ret w
  | p :: rest =>
      seg ← deref w p;
      release_all (fun n => ios (S n)) rest (store_unlink p (releaseRef (ios 0%nat) seg) w)
  end.

Definition BackupSegmentsAfter (ios : nat -> IO) (c : nat -> CopyIO) (emptyDir mkdirOk sameDir : bool)
    (afterID : Z) (w : WALog) (dir : backup_dir)
  : outcome (WALog * backup_dir * result backup_error (list Z)) :=
  if emptyDir then Ret (w, dir, Err BkEmptyDir) else
  if negb mkdirOk then Ret (w, dir, Err BkMkdir) else
  let currentID := match currentSegment w with Some p => ptr_id w p | None => 0 end in
  '(w, targets) ← backup_targets afterID currentID (map_to_list (segments w)) w;
  if bool_decide (targets = []) then Ret (w, dir, Err BkNotFound) else
  let targets := merge_sort (older w) targets in
  '(dir, r) ← backup_copies c sameDir targets w dir [];
  w ← release_all ios targets w;
  Ret (w, dir, r).

(** ** Retention *)

(** Whether a segment may be queued for deletion: open, not yet marked, still
    mapped, and sealed. *)
Definition is_candidate (seg : Segment) : outcome bool :=
  if closed seg then Ret false else
  if markedForDeletion seg then Ret false else
  if blen (mmapData seg) <? segmentHeaderSize then Ret false else
  flags ← GetFlags seg; Ret (IsSealed flags).

Fixpoint collect_candidates (w : WALog) (ps : list nat) : outcome (list nat) :=
  match ps with
  | [] => Ret []
  | p :: rest =>
      seg ← deref w p;
      c ← is_candidate seg;
      cs ← collect_candidates w rest;
      Ret (if (c : bool) then p :: cs else cs)
  end.

(** How many candidates are at least [age] old. *)
Fixpoint count_older (w : WALog) (now age : Z) (candidates : list nat) : outcome Z :=
  match candidates with
  | [] => Ret 0
  | p :: rest =>
      seg ← deref w p;
      t ← GetLastModifiedAt seg;
      n ← count_older w now age rest;
      Ret (if age <=? now - t then 1 + n else n)
  end.

(** Queue the oldest candidates, passing over those that are queued already. *)
Fixpoint queue_candidates (w : WALog) (segmentsToDelete : Z) (candidates : list nat)
    (pending : gmap Z nat) : gmap Z nat :=
  match candidates with
  | [] => pending
  | p :: rest =>
      if segmentsToDelete <=? 0 then pending else
      match pending !! ptr_id w p with
      | Some _ => queue_candidates w segmentsToDelete rest pending
      | None => queue_candidates w (segmentsToDelete - 1) rest (<[ptr_id w p := p]> pending)
      end
  end.

Definition MarkSegmentsForDeletion (io : IO) (w : WALog) : outcome WALog :=
  if negb (enableAutoCleanup w) then Ret w else
  let currentSegments := Z.of_nat (size (segments w)) in
  if (0 <? minSegmentsToRetain w) && (currentSegments <=? minSegmentsToRetain w) then Ret w else
  candidates ← collect_candidates w (merge_sort (older w) (map_to_list (segments w)).*2);
  let segmentsAboveMin := currentSegments - minSegmentsToRetain w in
  if segmentsAboveMin <=? 0 then Ret w else
  segmentsToDelete ←
    (if (0 <? maxSegmentsToRetain w) && (maxSegmentsToRetain w <? currentSegments)
     then Ret (currentSegments - maxSegmentsToRetain w)
     else if 0 <? segmentMaxAge w then count_older w (io_now io) (segmentMaxAge w) candidates
     else Ret 0);
  if segmentsToDelete =? 0 then Ret w else
  Ret (with_pendingDeletion (queue_candidates w segmentsToDelete candidates (pendingDeletion w)) w).

Definition QueuedSegmentsForDeletion (w : WALog) : gmap Z nat := pendingDeletion w.

(** Drop the queued segments whose files are gone from both maps. *)
Definition CleanupStalePendingSegments (w : WALog) : WALog :=
  let gone := filter (fun '(segID, _) => disk w !! segID = None) (pendingDeletion w) in
  if bool_decide (gone = ∅) then w else
  let w := with_segments (segments w ∖ gone) w in
  let w := with_pendingDeletion (pendingDeletion w ∖ gone) w in
  snapshotSegments w.

(** One tick of the cleaner goroutine. *)
Fixpoint mark_pending (ios : nat -> IO) (canDelete : Z -> bool) (ps : list (Z * nat)) (w : WALog)
  : outcome WALog :=
  match ps with
  | [] => Ret w
  | (segID, p) :: rest =>
      seg ← deref w p;
      let w := if canDelete segID then store_unlink p (MarkForDeletion (ios 0%nat) seg) w else w in
      mark_pending (fun n => ios (S n)) canDelete rest w
  end.

Definition cleaner_tick (ios : nat -> IO) (canDeleteFn : option (Z -> bool)) (w : WALog) : outcome WALog :=
  w ← match canDeleteFn with
      | None => Ret w
      | Some f => mark_pending ios f (map_to_list (pendingDeletion w)) w
      end;
  Ret (CleanupStalePendingSegments w).

(** ** Readers *)

Record Reader := mkReader {
  rd_segments : list nat;
  segmentIndex : nat;
  currentReader : option (nat * SegmentReader);
  startOffset : Z
}.

Definition NewReader (w : WALog) : Reader := mkReader (segmentSnapshot w) 0 None 0.

Definition Reader_Close (io : IO) (w : WALog) (r : Reader) : outcome (WALog * Reader) :=
  match currentReader r with
  | None => Ret (w, r)
  | Some (p, sr) =>
      seg ← deref w p;
      let '(seg, sr) := reader_Close io seg sr in
      Ret (store_unlink p seg w, mkReader (rd_segments r) (segmentIndex r) (Some (p, sr)) (startOffset r))
  end.

(** One turn per segment; the fuel covers all segments that are left. *)
Fixpoint next_loop (fuel : nat) (ios : nat -> IO) (w : WALog) (r : Reader)
  : outcome (WALog * Reader * result error (bytes * RecordPosition)) :=
  match fuel with
  | O => NoFuel
  | S fuel' =>
      (** the part of a turn that uses a segment reader *)
      let use w r p sr :=
        seg ← deref w p;
        '(sr, res) ← reader_Next seg sr;
        let r := mkReader (rd_segments r) (segmentIndex r) (Some (p, sr)) (startOffset r) in
        match res with
        | Ok x => Ret (w, r, Ok x)
        | Err EOF =>
            let '(seg, _) := reader_Close (ios 0%nat) seg sr in
            next_loop fuel' (fun n => ios (S n)) (store_unlink p seg w)
              (mkReader (rd_segments r) (segmentIndex r) None (startOffset r))
        | Err e => Ret (w, r, Err e)
        end in
      match currentReader r with
      | Some (p, sr) => use w r p sr
      | None =>
          match rd_segments r !! segmentIndex r with
          | None => Ret (w, r, Err EOF)
          | Some p =>
              let r := mkReader (rd_segments r) (S (segmentIndex r)) None (startOffset r) in
              seg ← deref w p;
              match Segment.NewReader seg with
              | None => next_loop fuel' (fun n => ios (S n)) w r
              | Some (seg, sr) =>
                  let sr := if (segmentIndex r =? 1)%nat && (segmentHeaderSize <? startOffset r)
                            then mkSegmentReader (reader_id sr) (startOffset r) (lastRecordOffset sr) (reader_closed sr)
                            else sr in
                  let w := store p seg w in
                  use w (mkReader (rd_segments r) (segmentIndex r) (Some (p, sr)) (startOffset r)) p sr
              end
          end
      end
  end.

Definition next_fuel (r : Reader) : nat := (2 + length (rd_segments r))%nat.

Definition Next (ios : nat -> IO) (w : WALog) (r : Reader)
  : outcome (WALog * Reader * result error (bytes * RecordPosition)) :=
  next_loop (next_fuel r) ios w r.

Definition SeekNext (ios : nat -> IO) (w : WALog) (r : Reader) : outcome (WALog * Reader * option error) :=
  '(w, r, res) ← Next ios w r;
  Ret (w, r, match res with Ok _ => None | Err e => Some e end).

(** Panics when there is no current segment reader. *)
Definition Reader_LastRecordPosition (w : WALog) (r : Reader) : outcome RecordPosition :=
  match currentReader r with
  | None => Panic
  | Some (p, sr) => seg ← deref w p; Ret (LastRecordPosition seg sr)
  end.

(** The backward loop over the snapshot; [acc] is [filtered]. *)
Fixpoint filter_from (w : WALog) (pos : RecordPosition) (rev_segments : list nat)
    (acc : list nat) (found : bool) (start : Z) : outcome (result error (list nat * bool * Z)) :=
  match rev_segments with
  | [] => Ret (Ok (acc, found, start))
  | p :: rest =>
      seg ← deref w p;
      if id seg <? SegmentID pos then Ret (Ok (acc, found, start)) else
      if id seg =? SegmentID pos then
        if GetSegmentSize seg <? Offset pos then Ret (Err ErrOffsetOutOfBounds) else
        filter_from w pos rest (p :: acc) true
          (if segmentHeaderSize <? Offset pos then Offset pos else start)
      else filter_from w pos rest (p :: acc) found start
  end.

Definition NewReaderWithStart (w : WALog) (pos : RecordPosition) : outcome (result error Reader) :=
  if SegmentID pos =? 0 then Ret (Ok (NewReader w)) else
  r ← filter_from w pos (reverse (segmentSnapshot w)) [] false segmentHeaderSize;
  match r with
  | Err e => Ret (Err e)
  | Ok (filtered, found, start) =>
      if negb found then Ret (Err ErrSegmentNotFound)
      else Ret (Ok (mkReader filtered 0 None start))
  end.

Definition NewReaderAfter (ios : nat -> IO) (w : WALog) (pos : RecordPosition)
  : outcome (WALog * result error Reader) :=
  r ← NewReaderWithStart w pos;
  match r with
  | Err e => Ret (w, Err e)
  | Ok r =>
      '(w, r, e) ← SeekNext ios w r;
      match e with
      | None | Some EOF => Ret (w, Ok r)
      | Some e => Ret (w, Err e)
      end
  end.
