(* ===== verification/WALogFacts.v ===== *)
(** The segmented write-ahead log: the theorems.

    The abstract view of the log is a list of segments, each with its id and
    its records; the last one is the active segment.  [wal_inv] relates it to
    the heap of segments.  The file proves that [Write], [WriteBatch],
    rotation, [Read] and the readers implement appending to and reading from
    the concatenation of the segments. *)

From stdpp Require Import prelude list numbers gmap sorting.
From Stdlib Require Import ZArith Lia.
From S2P Require Import Prelude Bytes Crc32 ReaderTracker Segment SegmentFacts SegmentScan SegmentSpec WALog.

(** ** The representation *)

(** One segment of the log: where it is, its id and its records. *)
Record lentry := mkEntry { le_ptr : nat; le_id : Z; le_recs : list bytes }.

Record seg_ok (w : WALog) (sealed : bool) (e : lentry) (seg : Segment) : Prop := {
  so_heap : heap w !! le_ptr e = Some seg;
  so_id : id seg = le_id e;
  so_repr : exists m, seg_repr seg m (le_recs e) /\ IsSealed (Flags m) = sealed /\
    (sealed = true -> WriteOffsetField m = writeOffset seg);
  so_sealed : isSealed seg = sealed;
  so_open : seg_open seg;
  so_size : mmapSize seg = wl_maxSegmentSize w;
  so_kept : markedForDeletion seg = false
}.

Definition id_ptr (e : lentry) : Z * nat := (le_id e, le_ptr e).

Record wal_inv (w : WALog) (front : list lentry) (cur : lentry) : Prop := {
  wi_front : Forall (fun e => exists seg, seg_ok w true e seg) front;
  wi_cur : exists seg, seg_ok w false cur seg;
  wi_current : currentSegment w = Some (le_ptr cur);
  wi_segments : segments w = list_to_map (id_ptr <$> front ++ [cur]);
  wi_sorted : StronglySorted Z.lt (le_id <$> front ++ [cur]);
  wi_nodup : NoDup (le_ptr <$> front ++ [cur]);
  wi_snapshot : segmentSnapshot w = le_ptr <$> front ++ [cur];
  wi_pos : Forall (fun e => 0 < le_id e < 2 ^ 32) (front ++ [cur]);
  wi_disk : forall i, le_id cur < i -> disk w !! i = None;
  wi_max : 64 <= wl_maxSegmentSize w <= maxSegmentSize
}.

(** The outside world does what it is asked to, in every call. *)
Definition io_good (io : IO) : Prop :=
  io_opens io /\ io_flush io = true /\ io_fsync io = true /\ io_syncdir io = true /\ io_remove io = true.
Definition ios_good (ios : nat -> IO) : Prop := forall n, io_good (ios n).

(** Operations on other fields than the heap and the configured size do not matter. *)
Lemma seg_ok_frame w w' b e seg :
  heap w' !! le_ptr e = heap w !! le_ptr e -> wl_maxSegmentSize w' = wl_maxSegmentSize w ->
  seg_ok w b e seg -> seg_ok w' b e seg.
Proof. intros Hh Hm []. constructor; congruence. Qed.

Lemma seg_ok_store w b e seg p s :
  le_ptr e <> p -> seg_ok w b e seg -> seg_ok (store p s w) b e seg.
Proof. intros Hne. apply seg_ok_frame; [|done]. cbn. by rewrite list_lookup_insert_ne. Qed.

Lemma deref_ok w b e seg : seg_ok w b e seg -> deref w (le_ptr e) = Ret seg.
Proof. intros []. unfold deref. by rewrite so_heap0. Qed.

Lemma ptr_id_ok w b e seg : seg_ok w b e seg -> ptr_id w (le_ptr e) = le_id e.
Proof. intros []. unfold ptr_id. by rewrite so_heap0. Qed.

Lemma store_lookup w p s s' : heap w !! p = Some s' -> heap (store p s w) !! p = Some s.
Proof. intros H. cbn. apply list_lookup_insert_eq. by apply lookup_lt_is_Some; exists s'. Qed.

(** ** Snapshots are sorted by id *)

Lemma sorted_nodup (l : list Z) : StronglySorted Z.lt l -> NoDup l.
Proof.
  induction 1 as [|x l _ IH Hx]; constructor; [|done].
  intros Hin. rewrite Forall_forall in Hx. specialize (Hx x Hin). lia.
Qed.

#[global] Instance older_trans w : Transitive (older w).
Proof. intros x y z. unfold older. lia. Qed.
#[global] Instance older_total w : Total (older w).
Proof. intros x y. unfold older. lia. Qed.

Lemma snapshot_entries w L :
  Forall (fun e => ptr_id w (le_ptr e) = le_id e) L ->
  segments w = list_to_map (id_ptr <$> L) -> StronglySorted Z.lt (le_id <$> L) ->
  segmentSnapshot (snapshotSegments w) = le_ptr <$> L.
Proof.
  intros Hids Hsg Hsort. cbn. rewrite Hsg.
  assert ((map_to_list (list_to_map (id_ptr <$> L) : gmap Z nat)).*2 ≡ₚ le_ptr <$> L) as Hperm.
  { rewrite map_to_list_to_map.
    - by rewrite <- list_fmap_compose.
    - rewrite <- list_fmap_compose. apply sorted_nodup. exact Hsort. }
  assert (StronglySorted (older w) (le_ptr <$> L)) as Hs2.
  { clear Hperm Hsg. induction L as [|e L IH]; cbn; [constructor|].
    apply Forall_cons in Hids as [He Hids]. inversion Hsort as [|? ? Hs1 Hf]; subst.
    constructor; [by apply IH|]. apply Forall_fmap. rewrite Forall_fmap in Hf.
    rewrite Forall_forall in *. intros x Hx. unfold older. cbn. rewrite He, (Hids x Hx).
    specialize (Hf x Hx). cbn in Hf. lia. }
  apply (Sorted_unique_strong (older w)).
  - intros p q Hp Hq Hle1 Hle2. rewrite merge_sort_Permutation, Hperm in Hp.
    apply list_elem_of_fmap in Hp as (e1 & -> & H1). apply list_elem_of_fmap in Hq as (e2 & -> & H2).
    rewrite Forall_forall in Hids. unfold older in *. rewrite !Hids in * by done.
    assert (le_id e1 = le_id e2) as Heq by lia.
    apply list_elem_of_lookup in H1 as [i1 H1]. apply list_elem_of_lookup in H2 as [i2 H2].
    pose proof (sorted_nodup _ Hsort) as Hnd.
    assert (i1 = i2) as ->; [|by simplify_eq].
    eapply NoDup_lookup; [exact Hnd | | ]; rewrite list_lookup_fmap; [by rewrite H1|by rewrite H2, Heq].
  - apply Sorted_merge_sort, _.
  - by apply StronglySorted_Sorted.
  - by rewrite merge_sort_Permutation.
Qed.

(** ** Rotation *)

Lemma openSegment_new io i w :
  io_good io -> disk w !! i = None -> 64 <= wl_maxSegmentSize w <= maxSegmentSize ->
  exists d seg, openSegment io i w =
      Ret (with_heap (heap w ++ [seg]) (with_disk (<[i := d]> (disk w)) w), Ok (length (heap w))) /\
    seg_ok (with_heap (heap w ++ [seg]) (with_disk (<[i := d]> (disk w)) w)) false
      (mkEntry (length (heap w)) i []) seg.
Proof.
  intros (Hop & _ & _ & Hsd & _) Hd Hmax. unfold openSegment, isNewSegment. rewrite Hd.
  pose proof Hop as (Hst & _). rewrite Hst.
  destruct (Open_new io i (wl_maxSegmentSize w) (forceSyncEveryWrite w) Hop Hmax) as (d & Ho & Hr).
  unfold seg_opts in Ho. rewrite Ho. cbn [mbind outcome_bind]. rewrite Hsd. cbn [negb andb].
  eexists d, _. split; [reflexivity|]. constructor; cbn [le_ptr le_id le_recs heap with_heap].
  - by rewrite list_lookup_middle.
  - done.
  - eexists. split; [exact Hr|]. done.
  - done.
  - done.
  - done.
  - done.
Qed.

(** What one call of a segment method on the active segment does to the log. *)
Lemma wal_inv_store_cur w front cur seg' recs' sealed :
  wal_inv w front cur ->
  (forall seg, seg_ok w false cur seg -> seg_ok (store (le_ptr cur) seg' w) sealed
                                           (mkEntry (le_ptr cur) (le_id cur) recs') seg') ->
  Forall (fun e => exists seg, seg_ok (store (le_ptr cur) seg' w) true e seg) front /\
  seg_ok (store (le_ptr cur) seg' w) sealed (mkEntry (le_ptr cur) (le_id cur) recs') seg'.
Proof.
  intros Hi Hs. destruct (wi_cur _ _ _ Hi) as (seg & Hseg). split; [|by apply (Hs seg)].
  pose proof (wi_nodup _ _ _ Hi) as Hnd. rewrite fmap_app, NoDup_app in Hnd. destruct Hnd as (_ & Hne & _).
  rewrite Forall_forall. intros e He. pose proof (wi_front _ _ _ Hi) as Hf. rewrite Forall_forall in Hf.
  destruct (Hf e He) as (s & Hs'). exists s. apply seg_ok_store; [|done].
  intros Heq. apply (Hne (le_ptr e)); [apply list_elem_of_fmap; by exists e|]. rewrite Heq. by left.
Qed.

(** Seal, sync and mark the active segment. *)
Lemma seal_current ios w cur seg :
  ios_good ios -> seg_ok w false cur seg ->
  exists seg', 
    (flags ← GetFlags seg;
     if IsSealed flags then Ret (w, None) else
     '(seg, e) ← SealSegment (ios 0%nat) seg;
     match e with
     | Some e => Ret (store (le_ptr cur) seg w, Some e)
     | None =>
         match Segment.Sync (ios 1%nat) seg with
         | Some e => Ret (store (le_ptr cur) seg w, Some e)
         | None => Ret (store (le_ptr cur) (MarkSealedInMemory seg) w, None)
         end
     end) = Ret (store (le_ptr cur) seg' w, None) /\
    seg_ok (store (le_ptr cur) seg' w) true cur seg'.
Proof.
  intros Hios [Hh Hid (m & Hr & Hsl & Hwo) Hse [Hc Hst] Hsz Hk].
  unfold GetFlags. rewrite (repr_decoded_header _ _ _ Hr). cbn [mbind outcome_bind]. rewrite Hsl.
  destruct (SealSegment_repr (ios 0%nat) seg m _ Hr Hc) as (s1 & -> & Hr1 & Hs1 & Hfr & Hoff).
  cbn [mbind outcome_bind]. apply erased_fields in Hfr as Hfr'. destruct Hfr' as (Hi & Hz & Hcl & Hst' & _). cbn in *.
  unfold Segment.Sync. destruct (Hios 1%nat) as (_ & Hf & Hfs & _). rewrite Hcl, Hc, Hf, Hfs. cbn [negb].
  exists (MarkSealedInMemory s1). split; [done|]. constructor; cbn.
  - by apply (store_lookup w _ _ seg).
  - congruence.
  - exists (hdr_sealed (io_now (ios 0%nat)) (end_offset (le_recs cur)) m).
    split; [destruct Hr1; by constructor|]. split; [apply sealed_flags_sealed|]. intros _. cbn.
    by rewrite (sr_offset _ _ _ Hr1).
  - done.
  - split; cbn; congruence.
  - congruence.
  - destruct s1, seg. cbn in *. injection Hfr; intros; by subst.
Qed.

Lemma sorted_snoc (l : list Z) x y : StronglySorted Z.lt (l ++ [x]) -> x < y -> StronglySorted Z.lt ((l ++ [x]) ++ [y]).
Proof.
  intros Hs Hxy. apply StronglySorted_app_2; [|done|by repeat constructor].
  intros a b Ha Hb. apply list_elem_of_singleton in Hb as ->. apply elem_of_app in Ha as [Ha|Ha].
  - pose proof (StronglySorted_app_1_elem_of _ _ _ a x Hs Ha ltac:(by left)). lia.
  - apply list_elem_of_singleton in Ha. lia.
Qed.

Lemma list_to_map_snoc (L : list lentry) e :
  StronglySorted Z.lt (le_id <$> L ++ [e]) ->
  list_to_map (id_ptr <$> L ++ [e]) = <[le_id e := le_ptr e]> (list_to_map (id_ptr <$> L) : gmap Z nat).
Proof.
  intros Hs%sorted_nodup.
  assert (id_ptr <$> L ++ [e] ≡ₚ id_ptr e :: (id_ptr <$> L)) as Hp
    by (rewrite fmap_app; symmetry; apply Permutation_cons_append).
  assert (NoDup (id_ptr <$> L ++ [e]).*1) as Hn by (rewrite <- list_fmap_compose; exact Hs).
  by rewrite (list_to_map_proper _ _ Hn Hp).
Qed.

Lemma wal_ptrs_lt w front cur : wal_inv w front cur -> Forall (fun e => (le_ptr e < length (heap w))%nat) (front ++ [cur]).
Proof.
  intros Hi. apply Forall_app. split.
  - eapply Forall_impl; [apply (wi_front _ _ _ Hi)|]. intros e (s & Hs). apply lookup_lt_is_Some. exists s. apply Hs.
  - constructor; [|constructor]. destruct (wi_cur _ _ _ Hi) as (s & Hs). apply lookup_lt_is_Some. exists s. apply Hs.
Qed.

(** Publish a new, empty active segment. *)
Lemma wal_inv_advance w L new s n rot :
  Forall (fun e => exists s, seg_ok w true e s) L -> seg_ok w false new s ->
  segments w = list_to_map (id_ptr <$> L) ->
  StronglySorted Z.lt (le_id <$> L ++ [new]) -> NoDup (le_ptr <$> L ++ [new]) ->
  Forall (fun e => 0 < le_id e < 2 ^ 32) (L ++ [new]) ->
  (forall i, le_id new < i -> disk w !! i = None) -> 64 <= wl_maxSegmentSize w <= maxSegmentSize ->
  wal_inv (snapshotSegments (with_segmentRotated rot (with_bytesPerSyncCalled n
             (with_currentSegment (Some (le_ptr new))
                (with_segments (<[le_id new := le_ptr new]> (segments w)) w))))) L new.
Proof.
  intros HL Hnew Hsg Hsort Hnd Hpos Hdisk Hmax.
  set (w1 := with_segmentRotated _ _).
  assert (forall b e s0, seg_ok w b e s0 -> seg_ok (snapshotSegments w1) b e s0) as Hok
    by (intros; eapply seg_ok_frame; [..|eassumption]; done).
  assert (segments w1 = list_to_map (id_ptr <$> L ++ [new])) as Hsg1
    by (rewrite list_to_map_snoc, <- Hsg by done; done).
  constructor; [| |done|exact Hsg1|exact Hsort|exact Hnd| |exact Hpos|exact Hdisk|exact Hmax].
  - eapply Forall_impl; [exact HL|]. intros e (s0 & Hs0). exists s0. by apply Hok.
  - exists s. by apply Hok.
  - apply snapshot_entries; [|exact Hsg1|exact Hsort]. apply Forall_app. split.
    + eapply Forall_impl; [exact HL|]. intros e (s0 & Hs0). apply (ptr_id_ok w _ _ _ Hs0).
    + constructor; [apply (ptr_id_ok w _ _ _ Hnew) | constructor].
Qed.

(** Rotation seals the active segment and starts an empty one with the next id. *)
Lemma rotate_spec ios w front cur :
  wal_inv w front cur -> ios_good ios -> le_id cur + 1 < 2 ^ 32 ->
  exists w' p, rotateSegment ios w = Ret (w', None) /\
    wal_inv w' (front ++ [cur]) (mkEntry p (le_id cur + 1) []) /\
    wl_maxSegmentSize w' = wl_maxSegmentSize w /\ bytesPerSync w' = bytesPerSync w /\ unSynced w' = unSynced w.
Proof.
  intros Hi Hios Hlt. pose proof Hi as [Hfr (seg & Hseg) Hcur Hsg Hsort Hnd Hsnap Hpos Hdisk Hmax].
  pose proof (wal_ptrs_lt _ _ _ Hi) as Hptrs.
  unfold rotateSegment. rewrite Hcur, (deref_ok _ _ _ _ Hseg).
  destruct (seal_current ios w cur seg Hios Hseg) as (seg' & Hseal & Hseg').
  cbn [mbind outcome_bind] in Hseal |- *. rewrite Hseal. cbn [mbind outcome_bind].
  set (w1 := store (le_ptr cur) seg' w) in *.
  destruct (wal_inv_store_cur w front cur seg' (le_recs cur) true Hi) as [Hfr1 _].
  { intros _ _. by destruct cur. }
  assert (currentSegment w1 = Some (le_ptr cur)) as -> by done.
  rewrite (ptr_id_ok _ _ _ _ Hseg').
  apply Forall_app in Hpos as [Hpf Hpc]. apply Forall_cons in Hpc as [Hpc _].
  rewrite u32_small by lia.
  destruct (openSegment_new (ios 2%nat) (le_id cur + 1) w1 (Hios 2%nat)) as (d & s & Ho & Hso).
  { apply Hdisk. lia. }
  { exact Hmax. }
  rewrite Ho. cbn [mbind outcome_bind]. set (w2 := with_heap _ _) in *.
  assert (length (heap w1) = length (heap w)) as Hlen by (apply length_insert). rewrite Hlen in *.
  eexists _, (length (heap w)). split; [reflexivity|].
  assert (forall e b s0, (le_ptr e < length (heap w))%nat -> seg_ok w1 b e s0 -> seg_ok w2 b e s0) as Hold.
  { intros e b s0 Hl. apply seg_ok_frame; [|done]. cbn. apply lookup_app_l. by rewrite length_insert. }
  apply Forall_app in Hptrs as [Hptf Hptc]. apply Forall_cons in Hptc as [Hptc _].
  assert (Forall (fun e => exists s, seg_ok w2 true e s) (front ++ [cur])) as Hfront.
  { apply Forall_app. split.
    - rewrite Forall_forall in *. intros e He. destruct (Hfr1 e He) as (s0 & Hs0). exists s0. apply Hold; auto.
    - constructor; [|constructor]. exists seg'. by apply Hold. }
  split; [|done]. apply (wal_inv_advance w2 (front ++ [cur]) (mkEntry (length (heap w)) (le_id cur + 1) []) s);
    [exact Hfront|exact Hso|exact Hsg| | | | |exact Hmax].
  - rewrite !fmap_app in *. cbn. apply sorted_snoc; [exact Hsort|lia].
  - rewrite fmap_app. apply NoDup_app. split; [exact Hnd|]. split; [|apply NoDup_singleton].
    intros p Hp Hp2. apply list_elem_of_singleton in Hp2 as ->.
    apply list_elem_of_fmap in Hp as (e & Heq & He). cbn in Heq.
    assert ((le_ptr e < length (heap w))%nat); [|lia].
    apply elem_of_app in He as [He|He]; [rewrite Forall_forall in Hptf; by apply Hptf|].
    apply list_elem_of_singleton in He as ->. done.
  - rewrite !Forall_app, !Forall_singleton. cbn. split; [split|]; [exact Hpf | exact Hpc | lia].
  - intros i Hlt_i. cbn in *. rewrite lookup_insert_ne by lia. apply Hdisk. lia.
Qed.

(** ** Writing *)

(** The fields that matter to readers and writers. *)
Definition wal_core (w : WALog) :=
  (heap w, segments w, currentSegment w, segmentSnapshot w, disk w, wl_maxSegmentSize w).

Lemma wal_inv_core w w' front cur : wal_core w' = wal_core w -> wal_inv w front cur -> wal_inv w' front cur.
Proof.
  unfold wal_core. intros [= Hh Hs Hc Hn Hd Hm].
  assert (forall b e s, seg_ok w b e s -> seg_ok w' b e s) as Hok
    by (intros b e s; apply seg_ok_frame; congruence).
  intros []. constructor; rewrite ?Hs, ?Hc, ?Hn, ?Hd, ?Hm; try assumption.
  - eapply Forall_impl; [done|]. intros e (s & ?). exists s. auto.
  - destruct wi_cur0 as (s & ?). exists s. auto.
Qed.

Lemma sync_if_due_spec io w cur seg :
  io_good io -> seg_ok w false cur seg ->
  exists w', sync_if_due io (le_ptr cur) w = Ret (w', None) /\ wal_core w' = wal_core w.
Proof.
  intros (_ & Hf & _) Hs. unfold sync_if_due. case_if; [|by exists w].
  rewrite (deref_ok _ _ _ _ Hs). cbn [mbind outcome_bind]. unfold MSync.
  destruct (so_open _ _ _ _ Hs) as [-> _]. rewrite Hf. by eexists.
Qed.

(** The active segment after a call that appended [ns]. *)
Lemma seg_ok_append w cur seg seg' m ns :
  seg_ok w false cur seg -> seg_repr seg' m (le_recs cur ++ ns) -> IsSealed (Flags m) = false ->
  data_erased seg' = data_erased seg ->
  seg_ok (store (le_ptr cur) seg' w) false (mkEntry (le_ptr cur) (le_id cur) (le_recs cur ++ ns)) seg'.
Proof.
  intros [Hh Hid _ Hse [Hc Hst] Hsz Hk] Hr Hs Hfr.
  apply erased_fields in Hfr as Hfr'. destruct Hfr' as (Hi & Hz & Hcl & Hst' & _).
  assert (isSealed seg' = isSealed seg /\ markedForDeletion seg' = markedForDeletion seg) as [Hse' Hk'].
  { destruct seg', seg. cbn in *. by injection Hfr; intros; subst. }
  constructor; cbn [le_ptr le_id le_recs]; try congruence.
  - by apply (store_lookup w _ _ seg).
  - by exists m.
  - split; congruence.
  - cbn. congruence.
Qed.

Lemma wal_inv_append w front cur seg seg' m ns :
  wal_inv w front cur -> seg_ok w false cur seg ->
  seg_repr seg' m (le_recs cur ++ ns) -> IsSealed (Flags m) = false ->
  data_erased seg' = data_erased seg ->
  wal_inv (store (le_ptr cur) seg' w) front (mkEntry (le_ptr cur) (le_id cur) (le_recs cur ++ ns)).
Proof.
  intros Hi Hs Hr Hsl Hfr.
  destruct (wal_inv_store_cur w front cur seg' (le_recs cur ++ ns) false Hi) as [Hf Hc].
  { intros _ _. by eapply seg_ok_append. }
  destruct Hi. constructor; try assumption.
  - by exists seg'.
  - cbn [segments store with_heap]. by rewrite wi_segments0, !fmap_app.
  - by rewrite fmap_app in *.
  - by rewrite fmap_app in *.
  - cbn [segmentSnapshot store with_heap]. by rewrite wi_snapshot0, !fmap_app.
  - by rewrite Forall_app, Forall_singleton in *.
Qed.

Lemma recordOverhead_entrySize n : recordOverhead n = entrySize n.
Proof.
  unfold recordOverhead, entrySize, rawSize, recordHeaderSize, recordTrailerMarkerSize.
  rewrite alignUp_add_16. lia.
Qed.

(** A write into the active segment. *)
Lemma Write_current ios w front cur seg data :
  wal_inv w front cur -> ios_good ios -> seg_ok w false cur seg ->
  end_offset (le_recs cur) + entrySize (blen data) <= wl_maxSegmentSize w ->
  exists w', 
    ('(seg, r) ← Segment.Write (ios 3%nat) seg data;
     let w := store (le_ptr cur) seg w in
     match r with
     | Err e => Ret (w, Err e)
     | Ok pos =>
         let w := with_unSynced (unSynced w + recordOverhead (blen data)) w in
         '(w, e) ← sync_if_due (ios 4%nat) (le_ptr cur) w;
         match e with Some e => Ret (w, Err e) | None => Ret (w, Ok pos) end
     end) = Ret (w', Ok (mkPos (le_id cur) (end_offset (le_recs cur)))) /\
    wal_inv w' front (mkEntry (le_ptr cur) (le_id cur) (le_recs cur ++ [data])) /\
    wl_maxSegmentSize w' = wl_maxSegmentSize w.
Proof.
  intros Hi Hios Hs Hfit. pose proof Hs as [_ Hid (m & Hr & Hsl & Hwo) _ Ho Hsz _].
  destruct (Write_appends (ios 3%nat) seg m (le_recs cur) data Hr Ho Hsl) as (seg' & Hw & Hr' & Hfr).
  { unfold WillExceed. rewrite (sr_offset _ _ _ Hr). lia. }
  destruct (Hios 3%nat) as (_ & Hfl & _). rewrite Hw, (flush_ok _ _ Hfl), Hid. cbn [mbind outcome_bind].
  pose proof (wal_inv_append w front cur seg seg' _ [data] Hi Hs Hr' Hsl Hfr) as Hi'.
  set (w1 := with_unSynced _ _). assert (wal_inv w1 front (mkEntry (le_ptr cur) (le_id cur) (le_recs cur ++ [data]))) as Hi1
    by (by eapply wal_inv_core; [|exact Hi']).
  destruct (wi_cur _ _ _ Hi1) as (s1 & Hs1).
  destruct (sync_if_due_spec (ios 4%nat) w1 _ s1 (Hios 4%nat) Hs1) as (w2 & Hsync & Hcore).
  cbn [le_ptr] in Hsync. rewrite Hsync. cbn [mbind outcome_bind]. exists w2. split; [done|].
  split; [by eapply wal_inv_core | exact (f_equal snd Hcore)].
Qed.

(** The abstract log: the sealed segments and the active one, each with its id
    and its records. *)
Record alog := mkLog { al_front : list (Z * list bytes); al_cur : Z * list bytes }.

Definition strip (e : lentry) : Z * list bytes := (le_id e, le_recs e).

Definition wal_repr (w : WALog) (a : alog) : Prop :=
  exists front cur, wal_inv w front cur /\ al_front a = strip <$> front /\ al_cur a = strip cur.

(** The log only grows: the active segment gets more records, new segments come
    after it. *)
Definition grown (L L' : list lentry) : Prop :=
  exists F c more new, L = F ++ [c] /\ L' = F ++ mkEntry (le_ptr c) (le_id c) (le_recs c ++ more) :: new.

(** The log [a] was reached from the segments [L]. *)
Definition wal_grown (L : list lentry) (w : WALog) (a : alog) : Prop :=
  exists front cur, wal_inv w front cur /\ al_front a = strip <$> front /\ al_cur a = strip cur /\ grown L (front ++ [cur]).

Lemma grown_refl front cur : grown (front ++ [cur]) (front ++ [cur]).
Proof. exists front, cur, [], []. rewrite app_nil_r. by destruct cur. Qed.

Lemma grown_same front cur recs : grown (front ++ [cur]) (front ++ [mkEntry (le_ptr cur) (le_id cur) (le_recs cur ++ recs)]).
Proof. by exists front, cur, recs, []. Qed.

Lemma grown_next front cur recs new :
  grown (front ++ [cur]) ((front ++ [mkEntry (le_ptr cur) (le_id cur) (le_recs cur ++ recs)]) ++ [new]).
Proof. exists front, cur, recs, [new]. by rewrite <- app_assoc. Qed.

Lemma grown_trans L1 L2 L3 : grown L1 L2 -> grown L2 L3 -> grown L1 L3.
Proof.
  intros (F & c & m1 & n1 & -> & ->) (G & d & m2 & n2 & Heq & ->). exists F, c.
  destruct n1 as [|x n1 _] using rev_ind.
  - apply app_inj_2 in Heq as [<- [= <-]]; [|done]. exists (m1 ++ m2), n2. cbn. by rewrite app_assoc.
  - rewrite app_comm_cons, app_assoc in Heq. apply app_inj_2 in Heq as [<- [= <-]]; [|done].
    eexists m1, _. split; [done|]. by rewrite <- app_assoc.
Qed.

Lemma wal_grown_repr L w a : wal_grown L w a -> wal_repr w a.
Proof. intros (front & cur & Hi & Hf & Hc & _). by exists front, cur. Qed.

(** Append one record, in a new segment when the active one cannot take it. *)
Definition a_log_write (max : Z) (a : alog) (data : bytes) : alog * RecordPosition :=
  let '(i, recs) := al_cur a in
  if max <? end_offset recs + entrySize (blen data)
  then (mkLog (al_front a ++ [al_cur a]) (i + 1, [data]), mkPos (i + 1) segmentHeaderSize)
  else (mkLog (al_front a) (i, recs ++ [data]), mkPos i (end_offset recs)).

(** The record fits into an empty segment. *)
Definition fits_segment (max : Z) (data : bytes) : Prop := entrySize (blen data) <= max - segmentHeaderSize.

Lemma Write_entries ios w front cur data :
  wal_inv w front cur -> ios_good ios -> fits_segment (wl_maxSegmentSize w) data -> le_id cur + 1 < 2 ^ 32 ->
  let '(a', pos) := a_log_write (wl_maxSegmentSize w) (mkLog (strip <$> front) (strip cur)) data in
  exists w', Write ios w data = Ret (w', Ok pos) /\ wal_grown (front ++ [cur]) w' a' /\
    wl_maxSegmentSize w' = wl_maxSegmentSize w.
Proof.
  intros Hi Hios Hfit Hid. unfold a_log_write. cbn [al_cur al_front strip].
  pose proof (wi_cur _ _ _ Hi) as (seg & Hs). pose proof Hs as [_ _ (m & Hr & _) _ _ Hsz _].
  unfold Write. rewrite (wi_current _ _ _ Hi).
  unfold fits_segment in Hfit. pose proof (recordOverhead_entrySize (blen data)) as Hov. if_false. rewrite (deref_ok _ _ _ _ Hs). cbn [mbind outcome_bind].
  unfold WillExceed. rewrite (sr_offset _ _ _ Hr), Hsz.
  destruct (wl_maxSegmentSize w <? end_offset (le_recs cur) + entrySize (blen data)) eqn:E.
  - destruct (rotate_spec ios w front cur Hi Hios Hid) as (w1 & p & Hrot & Hi1 & Hm1 & _).
    rewrite Hrot. cbn [mbind outcome_bind]. rewrite (wi_current _ _ _ Hi1).
    destruct (wi_cur _ _ _ Hi1) as (s1 & Hs1). rewrite (deref_ok _ _ _ _ Hs1).
    destruct (Write_current ios w1 _ _ s1 data Hi1 Hios Hs1) as (w2 & Hw & Hi2 & Hm2).
    { cbn. rewrite Hm1. change (end_offset []) with segmentHeaderSize. lia. }
    cbn [mbind outcome_bind le_ptr le_id le_recs] in *. rewrite Hw. exists w2. split; [done|].
    split; [|congruence]. eexists _, _. split; [exact Hi2|]. split; [by rewrite fmap_app|]. split; [done|].
    pose proof (grown_next front cur [] (mkEntry p (le_id cur + 1) [data])) as Hg. rewrite app_nil_r in Hg. by destruct cur.
  - cbn [mbind outcome_bind]. rewrite (wi_current _ _ _ Hi), (deref_ok _ _ _ _ Hs).
    destruct (Write_current ios w front cur seg data Hi Hios Hs) as (w2 & Hw & Hi2 & Hm2); [lia|].
    cbn [mbind outcome_bind] in *. rewrite Hw. exists w2. split; [done|].
    split; [|done]. eexists _, _. split; [exact Hi2|]. split; [done|]. split; [done|]. apply grown_same.
Qed.

Lemma Write_spec ios w a data :
  wal_repr w a -> ios_good ios -> fits_segment (wl_maxSegmentSize w) data -> (al_cur a).1 + 1 < 2 ^ 32 ->
  let '(a', pos) := a_log_write (wl_maxSegmentSize w) a data in
  exists w', Write ios w data = Ret (w', Ok pos) /\ wal_repr w' a' /\
    wl_maxSegmentSize w' = wl_maxSegmentSize w.
Proof.
  intros (front & cur & Hi & Hf & Hc) Hios Hfit Hid. destruct a as [af ac]; cbn in Hf, Hc; subst af ac.
  pose proof (Write_entries ios w front cur data Hi Hios Hfit Hid) as Hw. destruct (a_log_write _ _ _) as [a' pos].
  destruct Hw as (w' & Hw & Hg%wal_grown_repr & Hm). by exists w'.
Qed.

(** ** Batches *)

Fixpoint a_log_writes (max : Z) (a : alog) (records : list bytes) : alog * list RecordPosition :=
  match records with
  | [] => (a, [])
  | d :: rest =>
      let '(a1, p) := a_log_write max a d in
      let '(a2, ps) := a_log_writes max a1 rest in (a2, p :: ps)
  end.

Definition a_rotate (a : alog) : alog := mkLog (al_front a ++ [al_cur a]) ((al_cur a).1 + 1, []).

Lemma a_log_writes_app max r1 : forall a r2,
  a_log_writes max a (r1 ++ r2) =
  let '(a1, p1) := a_log_writes max a r1 in
  let '(a2, p2) := a_log_writes max a1 r2 in (a2, p1 ++ p2).
Proof.
  induction r1 as [|d r1 IH]; intros a r2; cbn [a_log_writes app].
  - by destruct (a_log_writes max a r2).
  - destruct (a_log_write max a d) as [a1 p]. rewrite IH.
    destruct (a_log_writes max a1 r1) as [a2 ps]. by destruct (a_log_writes max a2 r2).
Qed.

(** Records that fit go into the active segment. *)
Lemma a_log_writes_fit max front i ds : forall recs,
  a_log_writes max (mkLog front (i, recs)) (take (fit_count max (end_offset recs) ds) ds) =
  (mkLog front (i, recs ++ take (fit_count max (end_offset recs) ds) ds),
   positions_from i (end_offset recs) (take (fit_count max (end_offset recs) ds) ds)).
Proof.
  induction ds as [|d ds IH]; intros recs; [by rewrite app_nil_r|]. cbn [fit_count].
  destruct (max <? end_offset recs + entrySize (blen d)) eqn:E; [by rewrite app_nil_r|].
  cbn [take a_log_writes positions_from]. unfold a_log_write. cbn [al_cur al_front]. rewrite E.
  rewrite <- end_offset_snoc, IH. by rewrite <- app_assoc.
Qed.

(** A record that does not fit goes where it goes after a rotation. *)
Lemma a_log_write_rotate max a d :
  fits_segment max d -> max <? end_offset (al_cur a).2 + entrySize (blen d) = true ->
  a_log_write max a d = a_log_write max (a_rotate a) d.
Proof.
  intros Hf Hn. unfold a_log_write, a_rotate. destruct a as [front [i recs]]. cbn in *. rewrite Hn.
  change (end_offset []) with segmentHeaderSize. unfold fits_segment in Hf. by if_false.
Qed.

Lemma fit_count_next max ds : forall o d rest,
  drop (fit_count max o ds) ds = d :: rest ->
  max <? o + entries_size (take (fit_count max o ds) ds) + entrySize (blen d) = true.
Proof.
  induction ds as [|x ds IH]; intros o d rest H; [done|]. cbn [fit_count] in *.
  destruct (max <? o + entrySize (blen x)) eqn:E.
  - cbn in *. injection H as -> _. by rewrite Z.add_0_r.
  - cbn [drop take] in *. specialize (IH _ _ _ H).
    cbn [entries_size foldr]. fold (entries_size (take (fit_count max (o + entrySize (blen x)) ds) ds)).
    by rewrite Z.add_assoc.
Qed.

Lemma not_oversized max o ds : Forall (fits_segment max) ds -> first_unfit_oversized max o ds = false.
Proof.
  intros Hf. unfold first_unfit_oversized. destruct (ds !! _) as [d|] eqn:E; [|done].
  unfold oversized. rewrite Forall_lookup in Hf. specialize (Hf _ _ E). unfold fits_segment in Hf. lia.
Qed.

Lemma WriteBatch_full io seg m recs records :
  seg_repr seg m recs -> seg_open seg -> IsSealed (Flags m) = false -> records <> [] ->
  first_unfit_oversized (mmapSize seg) (end_offset recs) records = false ->
  fit_count (mmapSize seg) (end_offset recs) records = O ->
  Segment.WriteBatch io seg records = Ret (seg, ([], O, Some ErrSegmentFull)).
Proof.
  intros Hr Ho Hs Hne Hov Hn. unfold Segment.WriteBatch. rewrite bool_decide_false by done.
  rewrite (seg_open_guard _ Ho), (sr_flags _ _ _ Hr). cbn [mbind outcome_bind].
  rewrite Hs, (sr_offset _ _ _ Hr), plan_batch_spec, Hov, Hn by apply end_offset_ge. done.
Qed.

(** One call of the segment's batch write, whatever the number of records that fit. *)
Lemma batch_segment ios w front cur seg records :
  let n := fit_count (wl_maxSegmentSize w) (end_offset (le_recs cur)) records in
  wal_inv w front cur -> ios_good ios -> seg_ok w false cur seg -> records <> [] ->
  Forall (fits_segment (wl_maxSegmentSize w)) records ->
  exists seg', Segment.WriteBatch (ios 3%nat) seg records =
      Ret (seg', (positions_from (le_id cur) (end_offset (le_recs cur)) (take n records), n,
                  batch_error n records)) /\
    wal_inv (store (le_ptr cur) seg' w) front (mkEntry (le_ptr cur) (le_id cur) (le_recs cur ++ take n records)).
Proof.
  intros n Hi Hios Hs Hne Hf. pose proof Hs as [Hh Hid (m & Hr & Hsl & Hwo) _ Ho Hsz _].
  pose proof (not_oversized _ (end_offset (le_recs cur)) _ Hf) as Hov.
  destruct (decide (n = O)) as [Hz|Hnz].
  - exists seg. rewrite (WriteBatch_full (ios 3%nat) seg m (le_recs cur) records) by (done || by rewrite Hsz).
    rewrite Hz. cbn [take positions_from]. split.
    + unfold batch_error. by destruct records.
    + rewrite app_nil_r. apply (wal_inv_core w); [|by destruct cur].
      unfold wal_core. cbn. by rewrite list_insert_id.
  - destruct (WriteBatch_appends (ios 3%nat) seg m (le_recs cur) records Hr Ho Hsl) as (seg' & Hw & Hr' & Hfr).
    { by rewrite Hsz. }
    { by rewrite Hsz. }
    rewrite Hsz, Hid in *. fold n in Hw, Hr'. destruct (Hios 3%nat) as (_ & Hfl & _).
    rewrite (flush_ok _ _ Hfl) in Hw. exists seg'. split; [exact Hw|].
    by eapply wal_inv_append.
Qed.

(** One turn of the batch loop. *)
Lemma batch_turn fuel ios remaining acc w front cur :
  let max := wl_maxSegmentSize w in
  let n := fit_count max (end_offset (le_recs cur)) remaining in
  let ps := positions_from (le_id cur) (end_offset (le_recs cur)) (take n remaining) in
  let cur' := mkEntry (le_ptr cur) (le_id cur) (le_recs cur ++ take n remaining) in
  wal_inv w front cur -> ios_good ios -> remaining <> [] -> Forall (fits_segment max) remaining ->
  le_id cur + 1 < 2 ^ 32 ->
  exists w', wl_maxSegmentSize w' = max /\
    if (n =? length remaining)%nat then
      writeBatch_loop (S fuel) ios remaining acc w = Ret (w', (acc ++ ps, None)) /\ wal_inv w' front cur'
    else
      writeBatch_loop (S fuel) ios remaining acc w =
        writeBatch_loop fuel (fun k => ios (5 + k)%nat) (drop n remaining) (acc ++ ps) w' /\
      exists p, wal_inv w' (front ++ [cur']) (mkEntry p (le_id cur + 1) []).
Proof.
  intros max n ps cur' Hi Hios Hne Hf Hid. destruct (wi_cur _ _ _ Hi) as (seg & Hs).
  destruct (batch_segment ios w front cur seg remaining Hi Hios Hs Hne Hf) as (seg' & Hw & Hi').
  fold max in Hw, Hi'. fold n in Hw, Hi'. fold ps in Hw. fold cur' in Hi'.
  cbn [writeBatch_loop]. rewrite bool_decide_false, (wi_current _ _ _ Hi), (deref_ok _ _ _ _ Hs) by done.
  cbn [mbind outcome_bind]. rewrite Hw. cbn [mbind outcome_bind].
  assert ((match batch_error n remaining with
           | Some e => negb (bool_decide (e = ErrSegmentFull)) | None => false end) = false) as ->
    by (unfold batch_error; by destruct (_ <? _)%nat).
  set (w1 := with_unSynced _ _).
  assert (wal_inv w1 front cur') as Hi1 by (by eapply wal_inv_core; [|exact Hi']).
  destruct (wi_cur _ _ _ Hi1) as (s1 & Hs1).
  destruct (sync_if_due_spec (ios 4%nat) w1 cur' s1 (Hios 4%nat) Hs1) as (w2 & Hsync & Hcore).
  change (le_ptr cur) with (le_ptr cur'). rewrite Hsync. cbn [mbind outcome_bind].
  assert (wal_inv w2 front cur') as Hi2 by (by eapply wal_inv_core).
  assert (wl_maxSegmentSize w2 = max) as Hm2 by (exact (f_equal snd Hcore)).
  pose proof (fit_count_le max remaining (end_offset (le_recs cur))) as Hle. fold n in Hle.
  destruct (n =? length remaining)%nat eqn:En.
  - exists w2. done.
  - apply Nat.eqb_neq in En. unfold batch_error.
    replace (n <? length remaining)%nat with true by (symmetry; apply Nat.ltb_lt; lia).
    rewrite bool_decide_true by done. cbn [andb].
    destruct (rotate_spec ios w2 front cur' Hi2 Hios Hid) as (w3 & p & Hrot & Hi3 & Hm3 & _).
    rewrite Hrot. cbn [mbind outcome_bind]. exists w3. split; [congruence|]. split; [done|]. by exists p.
Qed.

(** The abstract log a turn leaves behind. *)
Lemma a_log_writes_turn max front i recs ds :
  Forall (fits_segment max) ds ->
  let n := fit_count max (end_offset recs) ds in
  drop n ds <> [] ->
  a_log_writes max (mkLog front (i, recs)) ds =
  let '(a2, p2) := a_log_writes max (a_rotate (mkLog front (i, recs ++ take n ds))) (drop n ds) in
  (a2, positions_from i (end_offset recs) (take n ds) ++ p2).
Proof.
  intros Hf n Hne. rewrite <- (take_drop n ds) at 1.
  rewrite a_log_writes_app. unfold n at 1. rewrite a_log_writes_fit. fold n.
  destruct (drop n ds) as [|d rest] eqn:Ed; [done|].
  assert (fits_segment max d) as Hd.
  { rewrite Forall_forall in Hf. apply Hf. rewrite <- (take_drop n ds), Ed. set_solver. }
  pose proof (fit_count_next max ds (end_offset recs) d rest Ed) as Hnext. fold n in Hnext.
  rewrite <- end_offset_app in Hnext. cbn [a_log_writes].
  by rewrite <- a_log_write_rotate.
Qed.

Lemma fit_count_pos max o d ds : o + entrySize (blen d) <= max -> (0 < fit_count max o (d :: ds))%nat.
Proof. intros H. cbn [fit_count]. if_false. lia. Qed.

(** The loop ends and appends every record.  [k] is one when the first record
    may need a rotation. *)
Lemma batch_loop_spec k : forall fuel ios remaining acc w front cur,
  let max := wl_maxSegmentSize w in
  wal_inv w front cur -> ios_good ios -> Forall (fits_segment max) remaining ->
  (k = O -> match remaining with [] => True | d :: _ => end_offset (le_recs cur) + entrySize (blen d) <= max end) ->
  (k <= 1)%nat -> (k + length remaining < fuel)%nat ->
  le_id cur + Z.of_nat (k + length remaining) < 2 ^ 32 ->
  let '(a', ps) := a_log_writes max (mkLog (strip <$> front) (strip cur)) remaining in
  exists w', writeBatch_loop fuel ios remaining acc w = Ret (w', (acc ++ ps, None)) /\
    wal_grown (front ++ [cur]) w' a' /\ wl_maxSegmentSize w' = max.
Proof.
  intros fuel. revert k. induction fuel as [|fuel IH]; [lia|].
  intros k ios remaining acc w front cur max Hi Hios Hf Hk Hk1 Hfuel Hid.
  destruct (decide (remaining = [])) as [->|Hne].
  { cbn [a_log_writes]. exists w. cbn. rewrite app_nil_r. split; [done|]. split; [|done].
    exists front, cur. split; [done|]. split; [done|]. split; [done|]. apply grown_refl. }
  assert (0 < length remaining)%nat as Hlen by (destruct remaining; [done | cbn; lia]).
  destruct (batch_turn fuel ios remaining acc w front cur Hi Hios Hne Hf ltac:(lia)) as (w1 & Hm1 & Hturn).
  fold max in Hm1, Hturn. set (n := fit_count max (end_offset (le_recs cur)) remaining) in *.
  destruct (n =? length remaining)%nat eqn:En.
  - apply Nat.eqb_eq in En. destruct Hturn as [Heq Hi1].
    assert (take n remaining = remaining) as Htake by (apply take_ge; lia).
    pose proof (a_log_writes_fit max (strip <$> front) (le_id cur) remaining (le_recs cur)) as Ha.
    fold n in Ha. rewrite Htake in *. unfold strip at 2. rewrite Ha. exists w1. split; [exact Heq|].
    split; [|done]. eexists _, _. split; [exact Hi1|]. split; [done|]. split; [done|]. apply grown_same.
  - apply Nat.eqb_neq in En. destruct Hturn as [Heq (p & Hi1)].
    pose proof (fit_count_le max remaining (end_offset (le_recs cur))) as Hle. fold n in Hle.
    assert (drop n remaining <> []) as Hdr.
    { intros H%(f_equal length). rewrite length_drop in H. cbn in H. lia. }
    unfold strip at 2. rewrite a_log_writes_turn by done. fold n.
    assert (Forall (fits_segment max) (drop n remaining)) as Hfd by (by apply Forall_drop).
    assert (k = O -> 0 < n)%nat as Hpos.
    { intros ->. specialize (Hk eq_refl). destruct remaining as [|d ds]; [done|]. by apply fit_count_pos. }
    specialize (IH O (fun j => ios (5 + j)%nat) (drop n remaining)
                  (acc ++ positions_from (le_id cur) (end_offset (le_recs cur)) (take n remaining)) w1 _ _ Hi1).
    cbv zeta in IH. rewrite Hm1 in IH. unfold strip in IH at 2. cbn [le_id le_recs] in IH.
    rewrite fmap_app in IH. cbn [fmap list_fmap] in IH. unfold strip in IH at 2. cbn [le_id le_recs] in IH.
    unfold a_rotate. cbn [al_front al_cur fst].
    destruct (a_log_writes max _ (drop n remaining)) as [a2 p2].
    destruct IH as (w2 & Heq2 & Hr2 & Hm2).
    + intros j. apply Hios.
    + exact Hfd.
    + intros _. destruct (drop n remaining) as [|d ds]; [done|]. apply Forall_cons in Hfd as [Hd _].
      unfold fits_segment in Hd. change (end_offset []) with segmentHeaderSize. lia.
    + lia.
    + rewrite length_drop. lia.
    + rewrite length_drop. lia.
    + exists w2. rewrite Heq, Heq2. rewrite <- app_assoc. split; [done|]. split; [|done].
      destruct Hr2 as (front' & cur'' & Hi2 & Hf2 & Hc2 & Hg2). exists front', cur''. split; [done|]. split; [done|]. split; [done|].
      exact (grown_trans _ _ _ (grown_next front cur (take n remaining) _) Hg2).
Qed.

(** ** What the log promises *)

Lemma WriteBatch_entries ios w front cur records :
  wal_inv w front cur -> ios_good ios -> Forall (fits_segment (wl_maxSegmentSize w)) records ->
  le_id cur + Z.of_nat (1 + length records) < 2 ^ 32 ->
  let '(a', ps) := a_log_writes (wl_maxSegmentSize w) (mkLog (strip <$> front) (strip cur)) records in
  exists w', WriteBatch ios w records = Ret (w', (ps, None)) /\ wal_grown (front ++ [cur]) w' a' /\
    wl_maxSegmentSize w' = wl_maxSegmentSize w.
Proof.
  intros Hi Hios Hfit Hid. unfold WriteBatch. destruct (bool_decide (records = [])) eqn:E.
  { apply bool_decide_eq_true in E as ->. exists w. split; [done|]. split; [|done].
    exists front, cur. split; [done|]. split; [done|]. split; [done|]. apply grown_refl. }
  rewrite (wi_current _ _ _ Hi).
  assert (existsb (fun d => wl_maxSegmentSize w - segmentHeaderSize <? recordOverhead (blen d)) records = false) as ->.
  { apply not_true_iff_false. rewrite existsb_exists. intros (d & Hin & Hlt).
    rewrite Forall_forall in Hfit. rewrite <- list_elem_of_In in Hin. specialize (Hfit d Hin).
    unfold fits_segment in Hfit. rewrite recordOverhead_entrySize in Hlt. lia. }
  apply (batch_loop_spec 1 (writeBatch_fuel records) ios records [] w front cur Hi Hios Hfit); try done.
  unfold writeBatch_fuel. lia.
Qed.

Lemma WriteBatch_spec ios w a records :
  wal_repr w a -> ios_good ios -> Forall (fits_segment (wl_maxSegmentSize w)) records ->
  (al_cur a).1 + Z.of_nat (1 + length records) < 2 ^ 32 ->
  let '(a', ps) := a_log_writes (wl_maxSegmentSize w) a records in
  exists w', WriteBatch ios w records = Ret (w', (ps, None)) /\ wal_repr w' a' /\
    wl_maxSegmentSize w' = wl_maxSegmentSize w.
Proof.
  intros (front & cur & Hi & Hf & Hc) Hios Hfit Hid. destruct a as [af ac]; cbn in Hf, Hc; subst af ac.
  pose proof (WriteBatch_entries ios w front cur records Hi Hios Hfit Hid) as Hw. destruct (a_log_writes _ _ _) as [a' ps].
  destruct Hw as (w' & Hw & Hg%wal_grown_repr & Hm). by exists w'.
Qed.

Lemma RotateSegment_spec ios w a :
  wal_repr w a -> ios_good ios -> (al_cur a).1 + 1 < 2 ^ 32 ->
  exists w', RotateSegment ios w = Ret (w', None) /\ wal_repr w' (a_rotate a) /\
    wl_maxSegmentSize w' = wl_maxSegmentSize w.
Proof.
  intros (front & cur & Hi & Hf & Hc) Hios Hid. destruct a as [af ac]; cbn in Hf, Hc; subst af ac.
  destruct (rotate_spec ios w front cur Hi Hios Hid) as (w' & p & Hrot & Hi' & Hm & _).
  exists w'. split; [done|]. split; [|done]. eexists _, _. split; [exact Hi'|]. by rewrite fmap_app.
Qed.

(** All segments of the log, in order. *)
Definition al_all (a : alog) : list (Z * list bytes) := al_front a ++ [al_cur a].

Lemma wal_segment w front cur e :
  wal_inv w front cur -> e ∈ front ++ [cur] ->
  segments w !! le_id e = Some (le_ptr e) /\ exists b seg, seg_ok w b e seg.
Proof.
  intros Hi He. split.
  - rewrite (wi_segments _ _ _ Hi). apply elem_of_list_to_map_1.
    + rewrite <- list_fmap_compose. apply sorted_nodup, (wi_sorted _ _ _ Hi).
    + apply list_elem_of_fmap. by exists e.
  - apply elem_of_app in He as [He|He].
    + pose proof (wi_front _ _ _ Hi) as Hf. rewrite Forall_forall in Hf. destruct (Hf e He) as (s & Hs). by exists true, s.
    + apply list_elem_of_singleton in He as ->. destruct (wi_cur _ _ _ Hi) as (s & Hs). by exists false, s.
Qed.

Lemma wal_lookup w a i recs :
  wal_repr w a -> (i, recs) ∈ al_all a ->
  exists p b seg, segments w !! i = Some p /\ deref w p = Ret seg /\ seg_ok w b (mkEntry p i recs) seg.
Proof.
  intros (front & cur & Hi & Hf & Hc) Hin. unfold al_all in Hin. rewrite Hf, Hc in Hin.
  change [strip cur] with (strip <$> [cur]) in Hin. rewrite <- fmap_app in Hin.
  apply list_elem_of_fmap in Hin as (e & Heq & He). destruct (wal_segment w front cur e Hi He) as (Hs & b & seg & Hok).
  unfold strip in Heq. injection Heq as -> ->. exists (le_ptr e), b, seg. split; [done|].
  split; [by eapply deref_ok|]. by destruct e.
Qed.

(** The record of a position that a write returned. *)
Lemma Read_spec w a i pre data post :
  wal_repr w a -> (i, pre ++ data :: post) ∈ al_all a ->
  Read w (mkPos i (end_offset pre)) = Ret (Ok data).
Proof.
  intros Hr Hin. destruct (wal_lookup w a i _ Hr Hin) as (p & b & seg & Hs & Hd & Hok).
  unfold Read. cbn [SegmentID Offset]. rewrite Hs, Hd. cbn [mbind outcome_bind].
  pose proof (end_offset_ge pre). unfold segmentHeaderSize. if_false.
  pose proof Hok as [_ _ (m & Hrep & _) _ [Hc _] _ _]. cbn in Hrep.
  pose proof (sr_end _ _ _ Hrep) as Hend. rewrite end_offset_app in Hend.
  pose proof (entries_size_nonneg (data :: post)). unfold GetSegmentSize. if_false.
  by rewrite (Read_record _ _ _ _ _ Hrep Hc).
Qed.

Lemma Read_missing w a i off : wal_repr w a -> i ∉ (al_all a).*1 -> Read w (mkPos i off) = Ret (Err ErrSegmentNotFound).
Proof.
  intros (front & cur & Hi & Hf & Hc) Hin. unfold Read. cbn [SegmentID].
  rewrite (wi_segments _ _ _ Hi), not_elem_of_list_to_map_1; [done|].
  intros H. apply Hin. unfold al_all. rewrite Hf, Hc. change [strip cur] with (strip <$> [cur]).
  rewrite <- fmap_app, <- list_fmap_compose. by rewrite <- list_fmap_compose in H.
Qed.

(** ** Sequences of calls *)

Inductive wal_op :=
| WWrite (data : bytes)
| WWriteBatch (records : list bytes)
| WRotate
| WRead (i : Z) (j : nat).   (* record j of segment i *)

Inductive wal_ret :=
| WRWrite (r : result error RecordPosition)
| WRWriteBatch (r : list RecordPosition * option error)
| WRRotate (e : option error)
| WRRead (r : option bytes).

(** The records of segment [i]; none when there is no such segment. *)
Definition al_records (a : alog) (i : Z) : list bytes :=
  match filter (fun x => x.1 = i) (al_all a) with
  | [] => []
  | (_, recs) :: _ => recs
  end.

Definition wal_call (ios : nat -> IO) (a : alog) (w : WALog) (o : wal_op) : outcome (WALog * wal_ret) :=
  match o with
  | WWrite d => '(w, r) ← Write ios w d; Ret (w, WRWrite r)
  | WWriteBatch ds => '(w, r) ← WriteBatch ios w ds; Ret (w, WRWriteBatch r)
  | WRotate => '(w, e) ← RotateSegment ios w; Ret (w, WRRotate e)
  | WRead i j =>
      r ← Read w (mkPos i (end_offset (take j (al_records a i))));
      Ret (w, WRRead (match r with Ok d => Some d | Err _ => None end))
  end.

(** On the abstract log: a record that no segment can hold is refused. *)
Definition a_log_call (max : Z) (a : alog) (o : wal_op) : alog * wal_ret :=
  match o with
  | WWrite d =>
      if max - segmentHeaderSize <? entrySize (blen d) then (a, WRWrite (Err ErrRecordTooLarge))
      else let '(a, p) := a_log_write max a d in (a, WRWrite (Ok p))
  | WWriteBatch ds =>
      if existsb (fun d => max - segmentHeaderSize <? entrySize (blen d)) ds
      then (a, WRWriteBatch ([], Some ErrRecordTooLarge))
      else let '(a, ps) := a_log_writes max a ds in (a, WRWriteBatch (ps, None))
  | WRotate => (a_rotate a, WRRotate None)
  | WRead i j => (a, WRRead (al_records a i !! j))
  end.

(** How many segments a call may add. *)
Definition op_cost (o : wal_op) : Z :=
  match o with
  | WWrite _ | WRotate => 1
  | WWriteBatch ds => 1 + blen ds
  | WRead _ _ => 0
  end.

Lemma al_records_in a i j d : al_records a i !! j = Some d -> exists recs, (i, recs) ∈ al_all a /\ al_records a i = recs.
Proof.
  unfold al_records. destruct (filter _ _) as [|[i' recs] l] eqn:E; [done|]. intros _. exists recs. split; [|done].
  assert ((i', recs) ∈ filter (fun x => x.1 = i) (al_all a)) as Hin by (rewrite E; by left).
  apply list_elem_of_filter in Hin as [<- Hin]. done.
Qed.

Lemma Read_index w a i j :
  wal_repr w a ->
  (r ← Read w (mkPos i (end_offset (take j (al_records a i))));
   Ret (match r with Ok d => Some d | Err _ => None end)) = Ret (al_records a i !! j).
Proof.
  intros Hr. destruct (al_records a i !! j) as [d|] eqn:E.
  - destruct (al_records_in a i j d E) as (recs & Hin & Heq). rewrite Heq in *.
    rewrite <- (take_drop_middle _ _ _ E) in Hin. by rewrite (Read_spec w a i _ d _ Hr Hin).
  - rewrite take_ge by (by apply lookup_ge_None). unfold al_records in *.
    destruct (filter _ _) as [|[i' recs] l] eqn:Ef.
    + rewrite (Read_missing w a i _ Hr); [done|]. intros Hin. apply list_elem_of_fmap in Hin as ([i' recs] & Hi & Hin).
      assert ((i', recs) ∈ filter (fun x => x.1 = i) (al_all a)) as H by (apply list_elem_of_filter; by split).
      rewrite Ef in H. by apply not_elem_of_nil in H.
    + assert ((i', recs) ∈ filter (fun x => x.1 = i) (al_all a)) as H by (rewrite Ef; by left).
      apply list_elem_of_filter in H as [Hi Hin]. cbn in Hi. subst i'.
      destruct (wal_lookup w a i recs Hr Hin) as (p & b & seg & Hs & Hd & Hok).
      unfold Read. cbn [SegmentID Offset]. rewrite Hs, Hd. cbn [mbind outcome_bind].
      case_if; [done|]. case_if; [done|].
      destruct Hok as [_ _ (m & Hrep & _) _ [Hc _] _ _]. by destruct (Read_end seg m recs Hrep Hc) as (e & ->).
Qed.

Lemma too_large_eq n ds :
  existsb (fun d => n <? recordOverhead (blen d)) ds = existsb (fun d : bytes => n <? entrySize (blen d)) ds.
Proof. induction ds as [|d ds IH]; [done|]. cbn. by rewrite recordOverhead_entrySize, IH. Qed.

Lemma wal_call_spec ios w a o :
  wal_repr w a -> ios_good ios -> (al_cur a).1 + op_cost o < 2 ^ 32 ->
  exists w', wal_call ios a w o = Ret (w', (a_log_call (wl_maxSegmentSize w) a o).2) /\
    wal_repr w' (a_log_call (wl_maxSegmentSize w) a o).1 /\ wl_maxSegmentSize w' = wl_maxSegmentSize w.
Proof.
  intros Hr Hios Hid. destruct o as [d|ds| |i j]; cbn [wal_call a_log_call op_cost] in *.
  - destruct (_ <? _) eqn:E.
    + exists w. split; [|done]. unfold Write. destruct Hr as (front & cur & Hi & _).
      rewrite (wi_current _ _ _ Hi), recordOverhead_entrySize, E. done.
    + pose proof (Write_spec ios w a d Hr Hios ltac:(unfold fits_segment; lia) Hid) as Hw.
      destruct (a_log_write _ a d) as [a' p]. destruct Hw as (w' & -> & Hr' & Hm). by exists w'.
  - destruct (existsb _ ds) eqn:E.
    + exists w. split; [|done]. unfold WriteBatch. destruct Hr as (front & cur & Hi & _).
      rewrite bool_decide_false by (by intros ->). rewrite (wi_current _ _ _ Hi).
      by rewrite too_large_eq, E.
    + assert (Forall (fits_segment (wl_maxSegmentSize w)) ds) as Hf.
      { apply Forall_forall. intros d Hd. rewrite list_elem_of_In in Hd. apply not_true_iff_false in E.
        unfold fits_segment. destruct (decide (wl_maxSegmentSize w - segmentHeaderSize < entrySize (blen d))); [|lia].
        exfalso. apply E, existsb_exists. exists d. split; [done|lia]. }
      pose proof (WriteBatch_spec ios w a ds Hr Hios Hf ltac:(unfold blen in Hid; lia)) as Hw.
      destruct (a_log_writes _ a ds) as [a' ps]. destruct Hw as (w' & -> & Hr' & Hm). by exists w'.
  - destruct (RotateSegment_spec ios w a Hr Hios Hid) as (w' & -> & Hr' & Hm). by exists w'.
  - exists w. split; [|done]. pose proof (Read_index w a i j Hr) as H.
    apply bind_Ret_inv in H as (r & -> & [= <-]). done.
Qed.

Fixpoint wal_run (w : WALog) (a : alog) (ops : list ((nat -> IO) * wal_op)) : outcome (WALog * list wal_ret) :=
  match ops with
  | [] => Ret (w, [])
  | (ios, o) :: rest =>
      '(w', r) ← wal_call ios a w o;
      '(w', rs) ← wal_run w' (a_log_call (wl_maxSegmentSize w) a o).1 rest;
      Ret (w', r :: rs)
  end.

Fixpoint a_log_run (max : Z) (a : alog) (ops : list ((nat -> IO) * wal_op)) : alog * list wal_ret :=
  match ops with
  | [] => (a, [])
  | (_, o) :: rest =>
      let '(a1, r) := a_log_call max a o in
      let '(a2, rs) := a_log_run max a1 rest in (a2, r :: rs)
  end.

Definition ops_cost (ops : list ((nat -> IO) * wal_op)) : Z := foldr (fun x n => op_cost x.2 + n) 0 ops.

Lemma op_cost_nonneg o : 0 <= op_cost o.
Proof. destruct o; cbn; try lia. pose proof (blen_nonneg records). lia. Qed.

Lemma a_log_write_id max a d : (al_cur (a_log_write max a d).1).1 <= (al_cur a).1 + 1.
Proof. unfold a_log_write. destruct a as [f [i recs]]. cbn. case_if; cbn; lia. Qed.

Lemma a_log_writes_id max ds : forall a, (al_cur (a_log_writes max a ds).1).1 <= (al_cur a).1 + blen ds.
Proof.
  induction ds as [|d ds IH]; intros a; cbn [a_log_writes]; [rewrite blen_nil; cbn; lia|].
  pose proof (a_log_write_id max a d). destruct (a_log_write max a d) as [a1 p]. cbn in H. specialize (IH a1).
  destruct (a_log_writes max a1 ds). rewrite blen_cons. cbn in *. lia.
Qed.

Lemma a_log_call_id max a o : (al_cur (a_log_call max a o).1).1 <= (al_cur a).1 + op_cost o.
Proof.
  destruct o as [d|ds| |i j]; cbn [a_log_call op_cost].
  - case_if; [cbn; lia|]. pose proof (a_log_write_id max a d). by destruct (a_log_write max a d).
  - pose proof (blen_nonneg ds). case_if; [cbn; lia|]. pose proof (a_log_writes_id max ds a).
    destruct (a_log_writes max a ds). cbn in *. lia.
  - cbn. lia.
  - cbn. lia.
Qed.

Lemma wal_run_aux ops : forall w a,
  wal_repr w a -> Forall (fun x => ios_good x.1) ops -> (al_cur a).1 + ops_cost ops < 2 ^ 32 ->
  exists w', wal_run w a ops = Ret (w', (a_log_run (wl_maxSegmentSize w) a ops).2) /\
    wal_repr w' (a_log_run (wl_maxSegmentSize w) a ops).1 /\ wl_maxSegmentSize w' = wl_maxSegmentSize w.
Proof.
  induction ops as [|[ios o] ops IH]; intros w a Hr Hios Hid; [by exists w|].
  apply Forall_cons in Hios as [Ho Hios]. cbn [ops_cost foldr] in Hid. fold (ops_cost ops) in Hid. cbn [snd] in Hid.
  pose proof (op_cost_nonneg o). assert (0 <= ops_cost ops) as Hc.
  { clear. induction ops as [|x ops IH]; cbn; [lia|]. pose proof (op_cost_nonneg x.2). unfold ops_cost in IH. lia. }
  cbn [wal_run a_log_run]. destruct (wal_call_spec ios w a o Hr Ho ltac:(lia)) as (w1 & -> & Hr1 & Hm1).
  cbn [mbind outcome_bind]. pose proof (a_log_call_id (wl_maxSegmentSize w) a o) as Hle.
  destruct (a_log_call _ a o) as [a1 r]. cbn [fst snd] in *.
  destruct (IH w1 a1 Hr1 Hios ltac:(lia)) as (w2 & -> & Hr2 & Hm2). rewrite Hm1 in *.
  cbn [mbind outcome_bind]. destruct (a_log_run _ a1 ops) as [a2 rs]. by exists w2.
Qed.

(** C11. The log is a list of segments that grows at its end: every sequence of
    [Write], [WriteBatch], [RotateSegment] and [Read] calls returns exactly what
    the same calls return on the abstract log.  In particular a batch ends, is
    the sequence of single writes (also across rotations), never reaches the
    "unexpected state" branch, and no record is lost or overwritten. *)
Theorem wal_simulation w a ops :
  wal_repr w a -> Forall (fun x => ios_good x.1) ops -> (al_cur a).1 + ops_cost ops < 2 ^ 32 ->
  exists w', wal_run w a ops = Ret (w', (a_log_run (wl_maxSegmentSize w) a ops).2) /\
    wal_repr w' (a_log_run (wl_maxSegmentSize w) a ops).1.
Proof. intros H1 H2 H3. destruct (wal_run_aux ops w a H1 H2 H3) as (w' & ? & ? & _). by exists w'. Qed.
