(* ===== verification/WALogRecovery.v ===== *)
(** The segmented write-ahead log: starting up.

    File names and the ids in them, a log in an empty directory, recovery of
    the segments an earlier process left, and what recovery makes of a
    directory whose last segment is already sealed. *)

From stdpp Require Import prelude list numbers gmap sorting.
From Stdlib Require Import ZArith Lia.
From S2P Require Import Prelude Bytes Crc32 ReaderTracker Segment SegmentFacts SegmentScan SegmentSpec.
From S2P Require Import WALog WALogFacts.

(** ** File names *)

Lemma u8_digit d : 0 <= d <= 9 -> u8 (digit d) - 48 = d.
Proof. intros H. unfold digit. rewrite u8_to_byte, Z.mod_small; lia. Qed.

Lemma parse_digits_app s1 : forall acc s2,
  parse_digits acc (s1 ++ s2) = parse_digits acc s1 ≫= fun n => parse_digits n s2.
Proof.
  induction s1 as [|b s1 IH]; intros acc s2; [done|]. cbn [app parse_digits].
  case_if; [|done]. case_if; [done|]. apply IH.
Qed.

Lemma parse_decimal fuel : forall z,
  0 <= z < 2 ^ 32 -> z < 10 ^ Z.of_nat fuel -> parse_digits 0 (decimal fuel z) = Some z.
Proof.
  induction fuel as [|fuel IH]; intros z Hz Hf; [cbn in *; f_equal; lia|]. cbn [decimal].
  destruct (z <? 10) eqn:E.
  - cbn [parse_digits]. rewrite u8_digit by lia. if_true. by if_false.
  - pose proof (Z.div_mod z 10 ltac:(lia)) as Hdm. pose proof (Z.mod_pos_bound z 10 ltac:(lia)) as Hmod.
    rewrite parse_digits_app, IH.
    + cbn [mbind option_bind parse_digits]. rewrite u8_digit by lia. if_true. if_false. f_equal. lia.
    + lia.
    + rewrite Nat2Z.inj_succ, Z.pow_succ_r in Hf by lia. apply Z.div_lt_upper_bound; lia.
Qed.

Lemma parse_zeros k s : parse_digits 0 (replicate k (digit 0) ++ s) = parse_digits 0 s.
Proof. induction k as [|k IH]; [done|]. cbn [replicate app parse_digits]. exact IH. Qed.

Lemma trim_suffix_app (s ext : bytes) : trim_suffix (s ++ ext) ext = Some s.
Proof.
  unfold trim_suffix. rewrite length_app.
  replace (length s + length ext - length ext)%nat with (length s) by lia.
  rewrite drop_app_length, take_app_length, bool_decide_true by done.
  replace (length ext <=? length s + length ext)%nat with true by (symmetry; apply Nat.leb_le; lia). done.
Qed.

Lemma decimal_not_nil fuel z : decimal (S fuel) z <> [].
Proof. cbn [decimal]. case_if; [done|]. by destruct (decimal fuel (z / 10)). Qed.

Lemma entry_id ext i :
  0 <= i < 2 ^ 32 -> segment_id_of_entry ext (SegmentFileName ext i, false) = Some i.
Proof.
  intros Hi. unfold segment_id_of_entry, SegmentFileName. rewrite app_assoc, trim_suffix_app.
  cbn [mbind option_bind]. unfold ParseUint.
  destruct (replicate _ _ ++ decimal 10 i) eqn:E.
  - apply app_eq_nil in E as [_ E]. by apply decimal_not_nil in E.
  - rewrite <- E, parse_zeros. apply parse_decimal; [done|]. change (10 ^ Z.of_nat 10) with 10000000000. lia.
Qed.

(** The directory scan of recovery reads back from every segment file name
    the id it was made from, for every 32-bit id (also those of ten digits,
    which the nine-digit format does not pad). *)
Theorem segment_file_name_roundtrip ext i :
  0 <= i < 2 ^ 32 -> segment_id_of_entry ext (SegmentFileName ext i, false) = Some i.
Proof. apply entry_id. Qed.

Lemma segment_file_name_roundtrip_witness :
  segment_id_of_entry [Byte.x2e; Byte.x73] (SegmentFileName [Byte.x2e; Byte.x73] 4294967295, false)
  = Some 4294967295.
Proof. apply segment_file_name_roundtrip. lia. Defined.

(** ** Images of segments *)

(** The bytes [d] of a segment file of size [max] that holds [recs]. *)
Definition image_ok (max : Z) (d : bytes) (recs : list bytes) (sealed : bool) : Prop :=
  exists seg m, mmapData seg = d /\ mmapSize seg = max /\ seg_repr seg m recs /\
    IsSealed (Flags m) = sealed /\
    if sealed then WriteOffsetField m = writeOffset seg else Forall scannable recs /\ tail_ends seg.

Lemma openSegment_image io i w d recs sealed :
  io_good io -> disk w !! i = Some d -> image_ok (wl_maxSegmentSize w) d recs sealed ->
  exists seg, openSegment io i w = Ret (with_heap (heap w ++ [seg]) w, Ok (length (heap w))) /\
    seg_ok (with_heap (heap w ++ [seg]) w) sealed (mkEntry (length (heap w)) i recs) seg.
Proof.
  intros (Hop & _) Hd (s0 & m & Hdat & Hsz & Hr & Hsl & Hcase).
  assert (exists seg, OpenSegmentFile io (Some d) i (seg_opts (wl_maxSegmentSize w) (forceSyncEveryWrite w)) =
      Ret (Some d, Ok seg) /\ seg_repr seg m recs /\ isSealed seg = sealed /\ id seg = i /\ seg_open seg /\
      mmapSize seg = wl_maxSegmentSize w /\ markedForDeletion seg = false /\ writeOffset seg = end_offset recs)
    as (seg & Ho & Hr' & Hse & Hid & Hopn & Hz & Hk & Hwo).
  { rewrite <- Hsz, <- Hdat. destruct sealed.
    - destruct (Reopen_sealed io i (forceSyncEveryWrite w) s0 m recs Hop Hr Hsl Hcase) as [Ho Hr'].
      eexists. split; [exact Ho|]. split; [exact Hr'|done].
    - destruct Hcase as [Hf Ht].
      destruct (Reopen_unsealed io i (forceSyncEveryWrite w) s0 m recs Hop Hr Hsl Hf Ht) as [Ho Hr'].
      eexists. split; [exact Ho|]. split; [exact Hr'|done]. }
  unfold openSegment, isNewSegment. rewrite Hd. destruct Hop as (Hst & _). rewrite Hst.
  unfold seg_opts in Ho. rewrite Ho. cbn [mbind outcome_bind andb]. rewrite insert_id by done.
  exists seg. split.
  - by destruct w.
  - constructor; cbn [le_ptr le_id le_recs heap with_heap]; try done.
    + by rewrite list_lookup_middle.
    + exists m. split; [done|]. split; [done|]. intros ->. by rewrite Hcase, Hwo, (sr_offset _ _ _ Hr).
Qed.

(** Recovery seals a segment unless it is sealed. *)
Lemma recover_seal io w b e seg :
  seg_ok w b e seg ->
  exists seg',
    (flags ← GetFlags seg;
     if IsSealed flags then Ret (w, None)
     else '(seg, e0) ← SealSegment io seg; Ret (store (le_ptr e) seg w, e0)) =
    Ret (store (le_ptr e) seg' w, None) /\ seg_ok (store (le_ptr e) seg' w) true e seg'.
Proof.
  intros Hok. pose proof Hok as [Hh Hid (m & Hr & Hsl & Hwo) Hse [Hc Hst] Hsz Hk].
  unfold GetFlags. rewrite (repr_decoded_header _ _ _ Hr). cbn [mbind outcome_bind]. rewrite Hsl. destruct b.
  - exists seg. assert (store (le_ptr e) seg w = w) as -> by (unfold store; rewrite list_insert_id by done; by destruct w).
    done.
  - destruct (SealSegment_repr io seg m _ Hr Hc) as (s1 & -> & Hr1 & Hs1 & Hfr & _). cbn [mbind outcome_bind].
    apply erased_fields in Hfr as Hfr'. destruct Hfr' as (Hi & Hz & Hcl & Hst' & _). cbn in *.
    exists s1. split; [done|]. constructor; cbn; try congruence.
    + by apply (store_lookup w _ _ seg).
    + exists (hdr_sealed (io_now io) (end_offset (le_recs e)) m). split; [done|]. split; [apply sealed_flags_sealed|].
      intros _. cbn. by rewrite (sr_offset _ _ _ Hr1).
    + split; congruence.
    + destruct s1, seg. cbn in *. injection Hfr; intros; by subst.
Qed.

(** A file of the directory: its id, its bytes, and what they hold. *)
Record image := mkImage { im_segid : Z; im_bytes : bytes; im_recs : list bytes; im_sealed : bool }.

Definition image_in (w : WALog) (x : image) : Prop :=
  disk w !! im_segid x = Some (im_bytes x) /\
  image_ok (wl_maxSegmentSize w) (im_bytes x) (im_recs x) (im_sealed x).

(** The log with the entries [L], all of them sealed, published so far. *)
Record recovered (w : WALog) (L : list lentry) : Prop := {
  rc_ok : Forall (fun e => exists s, seg_ok w true e s) L;
  rc_segments : segments w = list_to_map (id_ptr <$> L);
  rc_nodup : NoDup (le_ptr <$> L)
}.

Lemma recovered_lt w L : recovered w L -> Forall (fun e => (le_ptr e < length (heap w))%nat) L.
Proof.
  intros [Hok _ _]. eapply Forall_impl; [exact Hok|]. intros e (s & Hs).
  apply lookup_lt_is_Some. exists s. apply Hs.
Qed.

(** Allocating and updating a new segment does not touch the published ones. *)
Lemma recovered_frame w w' L :
  recovered w L -> (forall p, (p < length (heap w))%nat -> heap w' !! p = heap w !! p) ->
  wl_maxSegmentSize w' = wl_maxSegmentSize w -> segments w' = segments w -> recovered w' L.
Proof.
  intros Hr Hh Hm Hs. pose proof (recovered_lt _ _ Hr) as Hlt. destruct Hr as [Hok Hsg Hnd].
  constructor; [|congruence|done]. rewrite Forall_forall in *. intros e He. destruct (Hok e He) as (s & Hse).
  exists s. apply (seg_ok_frame w); auto.
Qed.

Lemma recovered_fresh w L p : recovered w L -> (length (heap w) <= p)%nat -> p ∉ le_ptr <$> L.
Proof.
  intros Hr Hp Hin. apply list_elem_of_fmap in Hin as (e & -> & He).
  pose proof (recovered_lt _ _ Hr) as Hlt. rewrite Forall_forall in Hlt. specialize (Hlt e He). lia.
Qed.

(** The state after the last turn of the loop. *)
Record recovery_done (w : WALog) (L : list lentry) (last : lentry) (sealed : bool) : Prop := {
  rv_front : Forall (fun e => exists s, seg_ok w true e s) L;
  rv_last : exists s, seg_ok w sealed last s;
  rv_segments : segments w = list_to_map (id_ptr <$> L ++ [last]);
  rv_nodup : NoDup (le_ptr <$> L ++ [last]);
  rv_current : currentSegment w = Some (le_ptr last)
}.

Definition image_entry (w : WALog) (x : image) : lentry :=
  mkEntry (length (heap w)) (im_segid x) (im_recs x).

Lemma nodup_snoc (L : list lentry) e : NoDup (le_ptr <$> L) -> le_ptr e ∉ le_ptr <$> L -> NoDup (le_ptr <$> L ++ [e]).
Proof.
  intros H1 H2. rewrite fmap_app. apply NoDup_app. split; [done|]. split; [|apply NoDup_singleton].
  intros p Hp Hp2. apply list_elem_of_singleton in Hp2 as ->. done.
Qed.

(** A turn that is not the last one. *)
Lemma recover_turn ios w L x rest :
  ios_good ios -> recovered w L -> image_in w x -> rest <> [] ->
  StronglySorted Z.lt (le_id <$> L ++ [image_entry w x]) ->
  exists w', recover_loop ios (im_segid x :: rest) w = recover_loop (fun n => ios (2 + n)%nat) rest w' /\
    recovered w' (L ++ [image_entry w x]) /\ disk w' = disk w /\ wl_maxSegmentSize w' = wl_maxSegmentSize w.
Proof.
  intros Hios Hrec [Hd Himg] Hne Hsort. cbn [recover_loop].
  destruct (openSegment_image (ios 0%nat) _ _ _ _ _ (Hios 0%nat) Hd Himg) as (s & Ho & Hok).
  rewrite Ho. cbn [mbind outcome_bind]. set (w1 := with_heap _ w) in *.
  assert (deref w1 (length (heap w)) = Ret s) as -> by exact (deref_ok _ _ _ _ Hok). cbn [mbind outcome_bind].
  rewrite bool_decide_false by done.
  destruct (recover_seal (ios 1%nat) w1 _ _ s Hok) as (s1 & Hseal & Hok1). cbn [le_ptr] in *. rewrite Hseal.
  cbn [mbind outcome_bind]. eexists. split; [reflexivity|]. split; [|done].
  set (w2 := store (length (heap w)) s1 w1) in *.
  assert (recovered w2 L) as Hrec2.
  { apply (recovered_frame w); [done| |done|done]. intros p Hp. cbn.
    rewrite list_lookup_insert_ne by lia. by apply lookup_app_l. }
  constructor.
  - apply Forall_app. split.
    + eapply Forall_impl; [apply (rc_ok _ _ Hrec2)|]. intros e (s0 & Hs0). exists s0.
      by apply (seg_ok_frame w2).
    + constructor; [|constructor]. exists s1. by apply (seg_ok_frame w2).
  - rewrite list_to_map_snoc by done. cbn. by rewrite (rc_segments _ _ Hrec).
  - apply nodup_snoc; [apply (rc_nodup _ _ Hrec)|]. by apply (recovered_fresh w).
Qed.

Lemma recover_last ios w L x :
  ios_good ios -> recovered w L -> image_in w x ->
  StronglySorted Z.lt (le_id <$> L ++ [image_entry w x]) ->
  exists w', recover_loop ios [im_segid x] w = Ret (w', None) /\
    recovery_done w' L (image_entry w x) (im_sealed x) /\
    disk w' = disk w /\ wl_maxSegmentSize w' = wl_maxSegmentSize w.
Proof.
  intros Hios Hrec [Hd Himg] Hsort. cbn [recover_loop].
  destruct (openSegment_image (ios 0%nat) _ _ _ _ _ (Hios 0%nat) Hd Himg) as (s & Ho & Hok).
  rewrite Ho. cbn [mbind outcome_bind]. set (w1 := with_heap _ w) in *.
  assert (deref w1 (length (heap w)) = Ret s) as -> by exact (deref_ok _ _ _ _ Hok). cbn [mbind outcome_bind].
  rewrite bool_decide_true by done. cbn [mbind outcome_bind]. eexists. split; [reflexivity|]. split; [|done].
  assert (recovered w1 L) as Hrec1.
  { apply (recovered_frame w); [done| |done|done]. intros p Hp. by apply lookup_app_l. }
  constructor.
  - eapply Forall_impl; [apply (rc_ok _ _ Hrec1)|]. intros e (s0 & Hs0). exists s0. by apply (seg_ok_frame w1).
  - exists s. by apply (seg_ok_frame w1).
  - rewrite list_to_map_snoc by done. cbn. by rewrite (rc_segments _ _ Hrec).
  - apply nodup_snoc; [apply (rc_nodup _ _ Hrec)|]. by apply (recovered_fresh w).
  - done.
Qed.

Definition image_strip (x : image) : Z * list bytes := (im_segid x, im_recs x).

Lemma recover_loop_spec last front : forall ios w L,
  ios_good ios -> recovered w L -> Forall (image_in w) (front ++ [last]) ->
  StronglySorted Z.lt ((le_id <$> L) ++ (im_segid <$> front ++ [last])) ->
  exists w' L' e, recover_loop ios (im_segid <$> front ++ [last]) w = Ret (w', None) /\
    recovery_done w' (L ++ L') e (im_sealed last) /\
    strip <$> L' = image_strip <$> front /\ strip e = image_strip last /\
    disk w' = disk w /\ wl_maxSegmentSize w' = wl_maxSegmentSize w.
Proof.
  induction front as [|x front IH]; intros ios w L Hios Hrec Himg Hsort.
  - cbn [app] in *. apply Forall_cons in Himg as [Himg _]. destruct (recover_last ios w L last Hios Hrec Himg) as (w' & Hl & Hdone & Hd & Hm).
    { rewrite fmap_app. exact Hsort. }
    exists w', [], (image_entry w last). rewrite app_nil_r. done.
  - cbn [app] in Himg. apply Forall_cons in Himg as [Hx Himg].
    assert (StronglySorted Z.lt (le_id <$> L ++ [image_entry w x])) as Hs1.
    { rewrite fmap_app. cbn [app fmap list_fmap] in Hsort |- *.
      replace ((le_id <$> L) ++ im_segid x :: (im_segid <$> front ++ [last]))
        with (((le_id <$> L) ++ [im_segid x]) ++ (im_segid <$> front ++ [last])) in Hsort by (by rewrite <- app_assoc).
      by eapply StronglySorted_app_1_l. }
    destruct (recover_turn ios w L x (im_segid <$> front ++ [last]) Hios Hrec Hx) as (w1 & Ht & Hrec1 & Hd1 & Hm1).
    { by destruct front. }
    { exact Hs1. }
    destruct (IH (fun n => ios (2 + n)%nat) w1 (L ++ [image_entry w x])) as (w2 & L' & e & Hl & Hdone & HL & He & Hd2 & Hm2).
    + intros n. apply Hios.
    + exact Hrec1.
    + eapply Forall_impl; [exact Himg|]. intros y [Hy1 Hy2]. split; [by rewrite Hd1|by rewrite Hm1].
    + rewrite fmap_app, <- app_assoc. exact Hsort.
    + exists w2, (image_entry w x :: L'), e. cbn [app fmap list_fmap]. rewrite Ht, Hl. split; [done|].
      rewrite <- app_assoc in Hdone. split; [exact Hdone|]. split; [by rewrite HL|]. split; [done|]. split; congruence.
Qed.

(** ** Recovering a log *)

(** A segment, sealed or not, right after recovery: what [snapshotSegments] publishes. *)
Lemma recovery_done_repr w L e :
  recovery_done w L e false -> StronglySorted Z.lt (le_id <$> L ++ [e]) ->
  Forall (fun e => 0 < le_id e < 2 ^ 32) (L ++ [e]) ->
  (forall i, le_id e < i -> disk w !! i = None) -> 64 <= wl_maxSegmentSize w <= maxSegmentSize ->
  wal_repr (snapshotSegments w) (mkLog (strip <$> L) (strip e)).
Proof.
  intros [Hf (s & Hl) Hsg Hnd Hc] Hsort Hpos Hdisk Hmax. exists L, e. split; [|done].
  assert (forall b e s0, seg_ok w b e s0 -> seg_ok (snapshotSegments w) b e s0) as Hok
    by (intros; eapply seg_ok_frame; [..|eassumption]; done).
  constructor; try done.
  - eapply Forall_impl; [exact Hf|]. intros e0 (s0 & Hs0). exists s0. by apply Hok.
  - exists s. by apply Hok.
  - apply snapshot_entries; [|exact Hsg|exact Hsort]. apply Forall_app. split.
    + eapply Forall_impl; [exact Hf|]. intros e0 (s0 & Hs0). apply (ptr_id_ok w _ _ _ Hs0).
    + constructor; [apply (ptr_id_ok w _ _ _ Hl) | constructor].
Qed.

(** The directory: the files of [imgs], and entries that recovery passes over. *)
Record directory (ext : bytes) (entries : list (bytes * bool)) (files : gmap Z bytes) (imgs : list image) : Prop := {
  dr_entries : omap (segment_id_of_entry ext) entries ≡ₚ im_segid <$> imgs;
  dr_files : Forall (fun x => files !! im_segid x = Some (im_bytes x)) imgs;
  dr_only : forall i, i ∉ im_segid <$> imgs -> files !! i = None;
  dr_sorted : StronglySorted Z.lt (im_segid <$> imgs);
  dr_ids : Forall (fun x => 0 < im_segid x < 2 ^ 32) imgs
}.

Lemma sorted_ids ext entries files imgs :
  directory ext entries files imgs ->
  merge_sort Z.le (omap (segment_id_of_entry ext) entries) = im_segid <$> imgs.
Proof.
  intros [Hp _ _ Hs _]. apply (Sorted_unique Z.le).
  - apply Sorted_merge_sort. intros x y. lia.
  - apply StronglySorted_Sorted. clear Hp. induction Hs as [|x l Hs IH Hx]; constructor; [done|].
    eapply Forall_impl; [exact Hx|]. cbn. lia.
  - by rewrite merge_sort_Permutation.
Qed.

Lemma recoverSegments_images ios ext entries w front last :
  directory ext entries (disk w) (front ++ [last]) -> ios_good ios ->
  Forall (fun x => image_ok (wl_maxSegmentSize w) (im_bytes x) (im_recs x) (im_sealed x)) (front ++ [last]) ->
  segments w = ∅ ->
  exists w' L e, recoverSegments ios ext entries w = Ret (snapshotSegments w', None) /\
    recovery_done w' L e (im_sealed last) /\
    strip <$> L = image_strip <$> front /\ strip e = image_strip last /\
    disk w' = disk w /\ wl_maxSegmentSize w' = wl_maxSegmentSize w.
Proof.
  intros Hdir Hios Himg Hempty. pose proof Hdir as [_ Hfiles _ Hsort _].
  destruct (recover_loop_spec last front ios w []) as (w' & L & e & Hl & Hdone & HL & He & Hd & Hm).
  - done.
  - by constructor; [|rewrite Hempty|constructor].
  - rewrite Forall_forall in *. intros x Hx. split; auto.
  - exact Hsort.
  - exists w', L, e. unfold recoverSegments. rewrite (sorted_ids _ _ _ _ Hdir).
    destruct (im_segid <$> front ++ [last]) eqn:E; [by destruct front|]. rewrite Hl. done.
Qed.

Lemma strip_ids L front e last : strip <$> L = image_strip <$> front -> strip e = image_strip last ->
  le_id <$> L ++ [e] = im_segid <$> front ++ [last].
Proof.
  intros HL He. rewrite !fmap_app. f_equal.
  - change le_id with (fst ∘ strip). change im_segid with (fst ∘ image_strip). by rewrite !list_fmap_compose, HL.
  - cbn. f_equal. exact (f_equal fst He).
Qed.

Lemma recover_repr ios ext entries files opts front last :
  let max := wl_maxSegmentSize (foldl (fun w opt => opt w) (blankWALog files) opts) in
  (forall w, wal_core (foldl (fun w opt => opt w) w opts) =
             (heap w, segments w, currentSegment w, segmentSnapshot w, disk w, max)) ->
  directory ext entries files (front ++ [last]) -> ios_good ios ->
  Forall (fun x => image_ok max (im_bytes x) (im_recs x) (im_sealed x)) (front ++ [last]) ->
  64 <= max <= maxSegmentSize -> im_sealed last = false ->
  exists w, NewWALog ios ext entries files opts = Ret (Ok w) /\
    wal_repr w (mkLog (image_strip <$> front) (image_strip last)).
Proof.
  intros max Hopts Hdir Hios Himg Hmax Hs. unfold NewWALog.
  set (w0 := foldl _ _ _) in *. specialize (Hopts (blankWALog files)). fold w0 in Hopts.
  assert (disk w0 = files) as Hd0 by (exact (f_equal (fun x => x.1.2) Hopts)).
  assert (segments w0 = ∅) as Hs0 by (exact (f_equal (fun x => x.1.1.1.1.2) Hopts)).
  destruct (recoverSegments_images ios ext entries w0 front last) as (w' & L & e & Hrec & Hdone & HL & He & Hd & Hm).
  { by rewrite Hd0. }
  { done. }
  { done. }
  { done. }
  rewrite Hrec. cbn [mbind outcome_bind]. exists (snapshotSegments w'). split; [done|].
  rewrite <- HL, <- He. rewrite Hs in Hdone.
  pose proof (strip_ids L front e last HL He) as Hids. destruct Hdir as [_ _ Honly Hsort Hpos].
  apply recovery_done_repr; [done|by rewrite Hids| | |by rewrite Hm].
  - apply (Forall_fmap le_id (fun i => 0 < i < 2 ^ 32)). rewrite Hids. by apply Forall_fmap.
  - intros i Hi. rewrite Hd, Hd0. apply Honly. intros Hin. rewrite <- Hids in Hin.
    rewrite fmap_app in *. rewrite <- Hids in Hsort. apply elem_of_app in Hin as [Hin|Hin].
    + pose proof (StronglySorted_app_1_elem_of _ _ _ i (le_id e) Hsort Hin ltac:(by left)). lia.
    + apply list_elem_of_singleton in Hin. lia.
Qed.

(** ** A new log *)

(** The options of [NewWALog] that change the configuration. *)
Definition std_opts (size bytesPerSync_ : Z) (msync : bool) (age lo hi : Z) (clean : bool) : list (WALog -> WALog) :=
  [WithMaxSegmentSize size; WithMSyncEveryWrite msync; WithBytesPerSync bytesPerSync_;
   WithAutoCleanupPolicy age lo hi clean].

Lemma std_opts_core size bps msync age lo hi clean w :
  wal_core (foldl (fun w opt => opt w) w (std_opts size bps msync age lo hi clean)) =
  (heap w, segments w, currentSegment w, segmentSnapshot w, disk w, size).
Proof.
  cbn [foldl std_opts]. unfold WithMSyncEveryWrite, WithAutoCleanupPolicy, WithMaxSegmentSize, WithBytesPerSync.
  destruct msync, (0 <? lo), (0 <? hi), (0 <? age); reflexivity.
Qed.

Lemma std_opts_size size bps msync age lo hi clean files :
  wl_maxSegmentSize (foldl (fun w opt => opt w) (blankWALog files) (std_opts size bps msync age lo hi clean)) = size.
Proof. exact (f_equal snd (std_opts_core size bps msync age lo hi clean (blankWALog files))). Qed.

Lemma NewWALog_empty ios ext entries size bps msync age lo hi clean :
  ios_good ios -> omap (segment_id_of_entry ext) entries = [] -> 64 <= size <= maxSegmentSize ->
  exists w, NewWALog ios ext entries ∅ (std_opts size bps msync age lo hi clean) = Ret (Ok w) /\
    wal_repr w (mkLog [] (1, [])) /\ wl_maxSegmentSize w = size.
Proof.
  intros Hios Hent Hmax. unfold NewWALog, recoverSegments. rewrite Hent.
  pose proof (std_opts_core size bps msync age lo hi clean (blankWALog ∅)) as Hcore.
  set (w0 := foldl _ _ _) in *. 
  assert (disk w0 = ∅) as Hd by (exact (f_equal (fun x => x.1.2) Hcore)).
  assert (segments w0 = ∅) as Hs by (exact (f_equal (fun x => x.1.1.1.1.2) Hcore)).
  assert (wl_maxSegmentSize w0 = size) as Hm by (exact (f_equal snd Hcore)).
  change (merge_sort Z.le []) with (@nil Z). cbn iota.
  destruct (openSegment_new (ios 0%nat) 1 w0 (Hios 0%nat)) as (d & s & Ho & Hok).
  { by rewrite Hd. }
  { by rewrite Hm. }
  rewrite Ho. cbn [mbind outcome_bind]. set (w1 := with_heap _ _) in *.
  set (e := mkEntry (length (heap w0)) 1 []) in *. eexists. split; [reflexivity|]. split; [|exact Hm].
  apply (recovery_done_repr (with_currentSegment (Some (le_ptr e)) (with_segments (<[1:=le_ptr e]> (segments w1)) w1)) [] e).
  - constructor; [constructor| | |apply NoDup_singleton|done].
    + exists s. by apply (seg_ok_frame w1).
    + change (<[1 := le_ptr e]> (segments w0) = list_to_map [(1, le_ptr e)]). by rewrite Hs.
  - by repeat constructor.
  - by repeat constructor.
  - intros i Hi. change (<[1 := d]> (disk w0) !! i = None). cbn in Hi. rewrite Hd, lookup_insert_ne by lia. done.
  - change (64 <= wl_maxSegmentSize w0 <= maxSegmentSize). by rewrite Hm.
Qed.

(** A log of 256-byte segments in an empty directory. *)
Definition good_ios : nat -> IO := fun n => okIO (100 + Z.of_nat n).
Lemma good_ios_good : ios_good good_ios.
Proof. by intros n. Qed.

Definition demo_opts : list (WALog -> WALog) := std_opts 256 64 true 0 0 0 false.

Definition demo_log_ops : list ((nat -> IO) * wal_op) :=
  [(good_ios, WWrite [Byte.x01]); (good_ios, WWriteBatch (replicate 12 [Byte.x02; Byte.x03]));
   (good_ios, WRead 1 3); (good_ios, WRotate); (good_ios, WWrite (replicate 300 Byte.x00));
   (good_ios, WRead 2 100); (good_ios, WRead 9 0)].

Lemma wal_simulation_witness :
  exists w, NewWALog good_ios [] [] ∅ demo_opts = Ret (Ok w) /\ wal_repr w (mkLog [] (1, [])) /\
    exists w', wal_run w (mkLog [] (1, [])) demo_log_ops =
        Ret (w', (a_log_run (wl_maxSegmentSize w) (mkLog [] (1, [])) demo_log_ops).2) /\
      wal_repr w' (a_log_run (wl_maxSegmentSize w) (mkLog [] (1, [])) demo_log_ops).1.
Proof.
  destruct (NewWALog_empty good_ios [] [] 256 64 true 0 0 0 false good_ios_good eq_refl ltac:(by vm_compute))
    as (w & Hn & Hr & _).
  exists w. split; [exact Hn|]. split; [exact Hr|].
  apply wal_simulation; [exact Hr | by repeat constructor | by vm_compute].
Defined.


(** When the last file is already sealed (the process stopped between
    sealing a segment and creating the next one), start-up succeeds but makes
    the sealed segment the active one: every record that still fits into it is
    refused with [ErrSegmentSealed] instead of causing a rotation. *)
Theorem sealed_last_segment_blocks_writes ios ext entries files size bps msync age lo hi clean front last :
  directory ext entries files (front ++ [last]) -> ios_good ios ->
  Forall (fun x => image_ok size (im_bytes x) (im_recs x) (im_sealed x)) (front ++ [last]) ->
  64 <= size <= maxSegmentSize -> im_sealed last = true ->
  exists w, NewWALog ios ext entries files (std_opts size bps msync age lo hi clean) = Ret (Ok w) /\
    forall ios' data, end_offset (im_recs last) + entrySize (blen data) <= size ->
      exists w', Write ios' w data = Ret (w', Err ErrSegmentSealed).
Proof.
  intros Hdir Hios Himg Hmax Hs. unfold NewWALog.
  pose proof (std_opts_core size bps msync age lo hi clean (blankWALog files)) as Hcore.
  set (w0 := foldl _ _ _) in *. 
  assert (disk w0 = files) as Hd0 by (exact (f_equal (fun x => x.1.2) Hcore)).
  assert (segments w0 = ∅) as Hs0 by (exact (f_equal (fun x => x.1.1.1.1.2) Hcore)).
  assert (wl_maxSegmentSize w0 = size) as Hm0 by (exact (f_equal snd Hcore)).
  destruct (recoverSegments_images ios ext entries w0 front last) as (w' & L & e & Hrec & Hdone & HL & He & Hd & Hm).
  { by rewrite Hd0. }
  { done. }
  { by rewrite Hm0. }
  { done. }
  rewrite Hrec. cbn [mbind outcome_bind]. exists (snapshotSegments w'). split; [done|].
  intros ios' data Hfit. destruct Hdone as [_ (s & Hok) _ _ Hc].
  pose proof Hok as [Hh _ (m & Hr & Hsl & _) _ Ho Hsz _]. rewrite Hs in Hsl.
  assert (le_recs e = im_recs last) as Hrecs by (exact (f_equal snd He)). rewrite Hrecs in Hr.
  unfold Write. cbn [currentSegment snapshotSegments with_segmentSnapshot]. rewrite Hc.
  cbn [wl_maxSegmentSize snapshotSegments with_segmentSnapshot]. rewrite recordOverhead_entrySize.
  pose proof (end_offset_ge (im_recs last)). unfold segmentHeaderSize. rewrite Hm, Hm0. if_false.
  assert (deref (snapshotSegments w') (le_ptr e) = Ret s) as Hder by (exact (deref_ok _ _ _ _ Hok)).
  rewrite Hder. cbn [mbind outcome_bind]. unfold WillExceed.
  rewrite (sr_offset _ _ _ Hr), Hsz, Hm, Hm0. if_false. cbn [mbind outcome_bind].
  cbn [currentSegment snapshotSegments with_segmentSnapshot]. rewrite Hc, Hder. cbn [mbind outcome_bind].
  rewrite (Write_sealed (ios' 3%nat) s m (im_recs last) data Hr Ho Hsl). by eexists.
Qed.

(** Two files for the examples: a sealed segment and one that is not. *)
Definition open_bytes : bytes := Eval vm_compute in mmapData demo_written.
Definition sealed_bytes : bytes := Eval vm_compute in
  match SealSegment (okIO 50) demo_written with Ret (s, _) => mmapData s | _ => [] end.

Lemma open_bytes_image : image_ok 256 open_bytes demo_records false.
Proof.
  destruct demo_written_repr as (m & Hr & Hs). exists demo_written, m. split; [done|]. split; [done|].
  split; [exact Hr|]. split; [exact Hs|]. split; [by repeat (constructor; [by vm_compute|])|].
  unfold tail_ends. change (tail_of demo_written) with (replicate 128 Byte.x00). apply zero_tail_ends.
Qed.

Lemma sealed_bytes_image : image_ok 256 sealed_bytes demo_records true.
Proof.
  destruct demo_written_repr as (m & Hr & Hs).
  destruct (SealSegment_repr (okIO 50) demo_written m demo_records Hr eq_refl) as (s & Hw & Hr' & _ & Hfr & _).
  exists s. eexists. apply erased_fields in Hfr as (_ & Hz & _). cbn in Hz.
  split; [|split; [exact Hz|split; [exact Hr'|split; [apply sealed_flags_sealed|]]]].
  - assert (SealSegment (okIO 50) demo_written = Ret (set_isSealed true (set_mmapData sealed_bytes demo_written), None))
      as Heq by (by vm_compute).
    rewrite Heq in Hw. exact (eq_sym (f_equal (fun r => match r with Ret (s, _) => mmapData s | _ => [] end) Hw)).
  - by rewrite (sr_offset _ _ _ Hr').
Qed.

Definition demo_ext : bytes := [Byte.x2e; Byte.x73; Byte.x65; Byte.x67].
Definition demo_entries (ids : list Z) : list (bytes * bool) :=
  ([Byte.x61], false) :: ((fun i => (SegmentFileName demo_ext i, false)) <$> ids).

Definition img1 := mkImage 1 sealed_bytes demo_records true.
Definition img2 := mkImage 2 open_bytes demo_records false.
Definition img3 := mkImage 3 sealed_bytes demo_records true.

Lemma demo_directory (x y : image) (ids : im_segid x < im_segid y) (px : 0 < im_segid x) (py : im_segid y < 2 ^ 32) :
  directory demo_ext (demo_entries [im_segid x; im_segid y])
    {[im_segid x := im_bytes x; im_segid y := im_bytes y]} [x; y].
Proof.
  constructor.
  - unfold demo_entries. cbn [fmap list_fmap omap list_omap]. rewrite !entry_id by lia. done.
  - constructor; [by rewrite lookup_insert_eq|]. constructor; [|constructor].
    by rewrite lookup_insert_ne, lookup_singleton_eq by lia.
  - intros i Hi. cbn in Hi. rewrite !not_elem_of_cons in Hi. destruct Hi as (H1 & H2 & _).
    by rewrite lookup_insert_ne, lookup_singleton_ne by congruence.
  - by repeat constructor.
  - constructor; [lia|]. constructor; [lia|constructor].
Qed.


Lemma sealed_last_segment_blocks_writes_witness :
  exists w, NewWALog good_ios demo_ext (demo_entries [2; 3]) {[2 := open_bytes; 3 := sealed_bytes]}
      (std_opts 256 0 false 0 0 0 false) = Ret (Ok w) /\
    forall ios' data, 128 + entrySize (blen data) <= 256 ->
      exists w', Write ios' w data = Ret (w', Err ErrSegmentSealed).
Proof.
  apply (sealed_last_segment_blocks_writes good_ios demo_ext (demo_entries [2; 3]) _ 256 0 false 0 0 0 false [img2] img3).
  - exact (demo_directory img2 img3 eq_refl eq_refl eq_refl).
  - exact good_ios_good.
  - constructor; [exact open_bytes_image|]. constructor; [exact sealed_bytes_image | constructor].
  - by vm_compute.
  - reflexivity.
Defined.
