(* ===== verification/WALogReader.v ===== *)
(** The segmented write-ahead log: readers.

    A reader walks through the snapshot of segments, opening a segment reader
    on each; the file proves that from any position it yields exactly the
    records from there on, in order and with their positions, and that [Next]
    always returns. *)

From stdpp Require Import prelude list numbers gmap sorting.
From Stdlib Require Import ZArith Lia.
From S2P Require Import Prelude Bytes Crc32 ReaderTracker Segment SegmentFacts SegmentScan SegmentSpec.
From S2P Require Import WALog WALogFacts WALogRecovery.

(** ** Reader bookkeeping does not disturb the log *)

(** Everything but the reader bookkeeping. *)
Definition readers_erased (seg : Segment) : Segment :=
  set_refCount 0 (set_readerIDCounter 0 (set_activeReaders newReaderTracker seg)).

Lemma repr_readers seg seg' m recs :
  readers_erased seg' = readers_erased seg -> seg_repr seg m recs -> seg_repr seg' m recs.
Proof.
  intros He [Hl Hw Hlow Ho Hs Hh]. destruct seg, seg'. cbn in *. injection He; intros; subst.
  by constructor.
Qed.

Lemma seg_ok_readers w b e seg seg' :
  readers_erased seg' = readers_erased seg -> seg_ok w b e seg ->
  seg_ok (store (le_ptr e) seg' w) b e seg'.
Proof.
  intros He [Hh Hid (m & Hr & Hsl & Hwo) Hse [Hc Hst] Hsz Hk].
  pose proof (repr_readers _ _ _ _ He Hr) as Hr'.
  assert (id seg' = id seg /\ isSealed seg' = isSealed seg /\ closed seg' = closed seg /\ state seg' = state seg /\
          mmapSize seg' = mmapSize seg /\ markedForDeletion seg' = markedForDeletion seg /\ writeOffset seg' = writeOffset seg)
    as (H1 & H2 & H3 & H4 & H5 & H6 & H7).
  { destruct seg, seg'. cbn in *. injection He; intros; subst. done. }
  constructor; cbn; try congruence.
  - by apply (store_lookup w _ _ seg).
  - exists m. split; [done|]. split; [done|]. intros Hb. rewrite H7. by apply Hwo.
  - split; congruence.
Qed.

Lemma wal_inv_readers w front cur e b seg seg' :
  wal_inv w front cur -> e ∈ front ++ [cur] -> seg_ok w b e seg ->
  readers_erased seg' = readers_erased seg -> wal_inv (store (le_ptr e) seg' w) front cur.
Proof.
  intros Hi Hin Hok He. pose proof (wi_nodup _ _ _ Hi) as Hnd.
  assert (forall e' b' s', e' ∈ front ++ [cur] -> seg_ok w b' e' s' ->
            exists s'', seg_ok (store (le_ptr e) seg' w) b' e' s'') as Hkeep.
  { intros e' b' s' Hin' Hok'. destruct (decide (le_ptr e' = le_ptr e)) as [Heq|Hne].
    - assert (e' = e) as ->.
      { apply list_elem_of_lookup in Hin as [i Hi1]. apply list_elem_of_lookup in Hin' as [j Hj].
        assert (i = j) as ->; [|congruence].
        eapply NoDup_lookup; [exact Hnd| |]; rewrite list_lookup_fmap; [by rewrite Hi1|by rewrite Hj, <- Heq]. }
      assert (s' = seg) as -> by (pose proof (so_heap _ _ _ _ Hok); pose proof (so_heap _ _ _ _ Hok'); congruence).
      exists seg'. by eapply seg_ok_readers.
    - exists s'. by apply seg_ok_store. }
  destruct Hi as [Hf Hcu Hcur Hsg Hso Hndp Hsn Hpo Hdk Hmx]. constructor; try assumption.
  - rewrite Forall_forall in *. intros e' He'. destruct (Hf e' He') as (s' & Hs').
    eapply Hkeep; [set_solver|done].
  - destruct Hcu as (s' & Hs'). eapply Hkeep; [set_solver|done].
Qed.

(** [Reader_Close] on a segment that is kept. *)
Lemma decrRef_kept io rid seg : markedForDeletion seg = false ->
  readers_erased (decrRef io rid seg) = readers_erased seg /\ onDisk (decrRef io rid seg) = onDisk seg.
Proof.
  intros Hk. unfold decrRef, releaseRef. destruct (Remove _ rid) as [rt [|]]; cbn; [|done].
  rewrite Hk, andb_false_r. done.
Qed.

Lemma wal_inv_unlink w front cur p seg :
  wal_inv (store p seg w) front cur -> wal_inv (store_unlink p seg w) front cur.
Proof.
  intros Hi. unfold store_unlink. destruct (onDisk seg); [done|].
  assert (forall b e s, seg_ok (store p seg w) b e s ->
            seg_ok (with_disk (delete (id seg) (disk (store p seg w))) (store p seg w)) b e s) as Hok
    by (intros b e s; by apply seg_ok_frame).
  destruct Hi as [Hf Hcu Hcur Hsg Hso Hndp Hsn Hpo Hdk Hmx]. constructor; try assumption.
  - eapply Forall_impl; [exact Hf|]. intros e (s & Hs). exists s. by apply Hok.
  - destruct Hcu as (s & Hs). exists s. by apply Hok.
  - intros i Hlt. cbn. rewrite lookup_delete_None. right. by apply Hdk.
Qed.

(** ** Where a reader is *)

(** The records of [L] with their positions. *)
Definition flat (L : list lentry) : list (bytes * RecordPosition) :=
  concat ((fun e => with_positions (le_id e) segmentHeaderSize (le_recs e)) <$> L).

(** The segment reader [sr] is in front of [post] in the segment [e]. *)
Definition sr_at (e : lentry) (sr : SegmentReader) (pre post : list bytes) : Prop :=
  le_recs e = pre ++ post /\ readOffset sr = end_offset pre /\ reader_closed sr = false.

(** [items] is what the reader has not yet yielded: it walks over the last
    entries [R] of the log, of which [done_] are behind it. *)
Inductive reader_at (R : list lentry) (r : Reader) (items : list (bytes * RecordPosition)) : Prop :=
| at_segment done_ e rest sr pre post :
    R = done_ ++ e :: rest -> rd_segments r = le_ptr <$> R ->
    currentReader r = Some (le_ptr e, sr) -> segmentIndex r = S (length done_) ->
    sr_at e sr pre post ->
    items = with_positions (le_id e) (end_offset pre) post ++ flat rest -> reader_at R r items
| at_start e rest pre post :
    R = e :: rest -> rd_segments r = le_ptr <$> R ->
    currentReader r = None -> segmentIndex r = O -> le_recs e = pre ++ post ->
    (if segmentHeaderSize <? startOffset r then startOffset r = end_offset pre else pre = []) ->
    items = with_positions (le_id e) (end_offset pre) post ++ flat rest -> reader_at R r items
| at_gap done_ rest :
    R = done_ ++ rest -> rest <> [] -> done_ <> [] -> rd_segments r = le_ptr <$> R ->
    currentReader r = None -> segmentIndex r = length done_ ->
    items = flat rest -> reader_at R r items.

(** ** One turn of [Next] *)

Lemma next_use fuel ios w r p sr :
  currentReader r = Some (p, sr) ->
  next_loop (S fuel) ios w r =
  seg ← deref w p;
  '(sr, res) ← reader_Next seg sr;
  let r := mkReader (rd_segments r) (segmentIndex r) (Some (p, sr)) (startOffset r) in
  match res with
  | Ok x => Ret (w, r, Ok x)
  | Err EOF =>
      let '(seg, _) := reader_Close (ios 0%nat) seg sr in
      next_loop fuel (fun n => ios (S n)) (store_unlink p seg w)
        (mkReader (rd_segments r) (segmentIndex r) None (startOffset r))
  | Err e => Ret (w, r, Err e)
  end.
Proof. intros H. cbn [next_loop]. by rewrite H. Qed.

(** The segment reader a turn opens. *)
Definition opened_reader (r : Reader) (seg : Segment) : SegmentReader :=
  mkSegmentReader (u64 (readerIDCounter seg + 1))
    (if (segmentIndex r =? 0)%nat && (segmentHeaderSize <? startOffset r) then startOffset r else segmentHeaderSize)
    0 false.

Lemma next_open fuel ios w r p seg :
  currentReader r = None -> rd_segments r !! segmentIndex r = Some p ->
  deref w p = Ret seg -> seg_open seg -> markedForDeletion seg = false ->
  exists seg', readers_erased seg' = readers_erased seg /\
    next_loop (S fuel) ios w r =
    next_loop (S fuel) ios (store p seg' w)
      (mkReader (rd_segments r) (S (segmentIndex r)) (Some (p, opened_reader r seg)) (startOffset r)).
Proof.
  intros Hc Hp Hd [_ Hst] Hk.
  exists (incrRef (set_activeReaders (Add (activeReaders seg) (u64 (readerIDCounter seg + 1)))
                     (set_readerIDCounter (u64 (readerIDCounter seg + 1)) seg))).
  split; [done|]. cbn [next_loop]. rewrite Hc, Hp, Hd. cbn [mbind outcome_bind].
  unfold Segment.NewReader. rewrite Hk, Hst. cbn [orb currentReader rd_segments segmentIndex startOffset Nat.eqb].
  unfold opened_reader. by destruct ((segmentIndex r =? 0)%nat && (segmentHeaderSize <? startOffset r)).
Qed.

Section turns.
Context (w : WALog) (front : list lentry) (cur : lentry) (L0 R L1 : list lentry).
Context (Hi : wal_inv w front cur) (HR : front ++ [cur] = L0 ++ R ++ L1).

(** A segment in front of the last one of the log is sealed. *)
Lemma at_sealed done_ e rest :
  R = done_ ++ e :: rest ->
  exists seg, seg_ok w (negb (bool_decide (rest ++ L1 = []))) e seg /\ e ∈ front ++ [cur].
Proof.
  intros ->. assert (e ∈ front ++ [cur]) as Hin by (rewrite HR; set_solver).
  rewrite <- app_assoc in HR. cbn [app] in HR. destruct (decide (rest ++ L1 = [])) as [Hnil|Hne].
  - rewrite bool_decide_true by done. rewrite Hnil, app_assoc in HR. apply app_inj_2 in HR as [_ [= ->]]; [|done].
    destruct (wi_cur _ _ _ Hi) as (s & Hs). by exists s.
  - rewrite bool_decide_false by done. destruct (exists_last Hne) as (rest' & x & Hx). rewrite Hx in HR.
    assert (front = L0 ++ done_ ++ e :: rest') as Hf.
    { rewrite !app_comm_cons, !app_assoc in HR. apply app_inj_2 in HR as [Hf _]; [|done].
      by rewrite Hf, <- app_assoc. }
    pose proof (wi_front _ _ _ Hi) as Hfr. rewrite Forall_forall in Hfr.
    destruct (Hfr e) as (s & Hs); [rewrite Hf; set_solver|]. by exists s.
Qed.

Lemma turn_record fuel ios r done_ e rest sr pre d post :
  R = done_ ++ e :: rest -> rd_segments r = le_ptr <$> R ->
  currentReader r = Some (le_ptr e, sr) -> segmentIndex r = S (length done_) ->
  sr_at e sr pre (d :: post) ->
  exists r', next_loop (S fuel) ios w r = Ret (w, r', Ok (d, mkPos (le_id e) (end_offset pre))) /\
    reader_at R r' (with_positions (le_id e) (end_offset pre + entrySize (blen d)) post ++ flat rest).
Proof.
  intros HRe Hrs Hc Hidx (Hrec & Hoff & Hcl). destruct (at_sealed done_ e rest HRe) as (seg & Hok & _).
  rewrite (next_use _ _ _ _ _ _ Hc), (deref_ok _ _ _ _ Hok). cbn [mbind outcome_bind].
  pose proof Hok as [_ Hid (m & Hrep & _) _ [Hclo _] _ _]. rewrite Hrec in Hrep.
  destruct sr as [rid ro lro rc]. cbn in Hoff, Hcl. subst ro rc.
  rewrite (reader_Next_record seg m pre d post rid lro Hrep Hclo). cbn [mbind outcome_bind]. rewrite Hid.
  eexists. split; [reflexivity|].
  eapply (at_segment _ _ _ done_ e rest _ (pre ++ [d]) post); try done.
  - split; [by rewrite <- app_assoc|]. done.
  - by rewrite end_offset_snoc.
Qed.

Lemma turn_end fuel ios r done_ e rest sr pre :
  R = done_ ++ e :: rest -> rd_segments r = le_ptr <$> R ->
  currentReader r = Some (le_ptr e, sr) -> segmentIndex r = S (length done_) ->
  sr_at e sr pre [] ->
  if bool_decide (rest ++ L1 = []) then
    exists r', next_loop (S fuel) ios w r = Ret (w, r', Err ErrNoNewData) /\ reader_at R r' []
  else
    exists w' r', next_loop (S fuel) ios w r = next_loop fuel (fun n => ios (S n)) w' r' /\
      wal_inv w' front cur /\ wl_maxSegmentSize w' = wl_maxSegmentSize w /\
      currentReader r' = None /\ rd_segments r' = le_ptr <$> R /\ segmentIndex r' = S (length done_).
Proof.
  intros HRe Hrs Hc Hidx (Hrec & Hoff & Hcl). rewrite app_nil_r in Hrec.
  destruct (at_sealed done_ e rest HRe) as (seg & Hok & Hin).
  rewrite (next_use _ _ _ _ _ _ Hc), (deref_ok _ _ _ _ Hok). cbn [mbind outcome_bind].
  pose proof Hok as [_ Hid (m & Hrep & _) Hse [Hclo _] _ Hk]. rewrite Hrec in Hrep.
  unfold reader_Next. rewrite Hcl. unfold WriteOffset. rewrite (sr_offset _ _ _ Hrep), Hoff. if_true.
  rewrite Hse. cbn [mbind outcome_bind]. destruct (bool_decide (rest ++ L1 = [])) eqn:E; cbn [negb].
  - apply bool_decide_eq_true, app_nil in E as [-> _]. eexists. split; [reflexivity|].
    eapply (at_segment _ _ _ done_ e [] _ pre []); try done. split; [by rewrite app_nil_r|]. done.
  - unfold reader_Close. rewrite Hcl. eexists _, _. split; [reflexivity|].
    destruct (decrRef_kept (ios 0%nat) (reader_id sr) seg Hk) as [He _].
    split; [apply wal_inv_unlink; by eapply wal_inv_readers|]. split; [|done].
    unfold store_unlink. by destruct (onDisk _).
Qed.
End turns.

(** What [Next] returns when [items] are left in the segments of the reader and
    the log has the segments [L1] after them: a reader that has come to the end
    of sealed segments reports the end of file. *)
Definition next_result (front : list lentry) (cur : lentry) (R L1 : list lentry)
    (items : list (bytes * RecordPosition))
    (res : outcome (WALog * Reader * result error (bytes * RecordPosition))) : Prop :=
  exists w' r', wal_inv w' front cur /\
    match items, L1 with
    | [], [] => res = Ret (w', r', Err ErrNoNewData) /\ reader_at R r' []
    | [], _ => res = Ret (w', r', Err EOF) /\ currentReader r' = None
    | x :: xs, _ => res = Ret (w', r', Ok x) /\ reader_at R r' xs
    end.

Lemma next_in_segment front cur L0 R L1 rest : forall done_ e sr pre post fuel ios w r,
  wal_inv w front cur -> front ++ [cur] = L0 ++ R ++ L1 ->
  R = done_ ++ e :: rest -> rd_segments r = le_ptr <$> R ->
  currentReader r = Some (le_ptr e, sr) -> segmentIndex r = S (length done_) ->
  sr_at e sr pre post -> (S (length rest) < fuel)%nat ->
  next_result front cur R L1 (with_positions (le_id e) (end_offset pre) post ++ flat rest)
    (next_loop fuel ios w r).
Proof.
  induction rest as [|e' rest IH]; intros done_ e sr pre post fuel ios w r Hi HR HRe Hrs Hc Hidx Hat Hfuel;
    (destruct fuel as [|fuel]; [lia|]); destruct post as [|d post].
  - pose proof (turn_end w front cur L0 R L1 Hi HR fuel ios r done_ e [] sr pre HRe Hrs Hc Hidx Hat) as Ht.
    destruct L1 as [|x L1].
    + rewrite bool_decide_true in Ht by done. destruct Ht as (r' & Heq & Hr'). by exists w, r'.
    + rewrite bool_decide_false in Ht by done. destruct Ht as (w1 & r1 & Heq & Hi1 & _ & Hc1 & Hrs1 & Hidx1).
      rewrite Heq. exists w1, r1. split; [done|]. split; [|done]. cbn [length] in Hfuel. destruct fuel as [|fuel]; [lia|].
      cbn [next_loop]. rewrite Hc1, Hrs1, Hidx1, list_lookup_fmap, HRe.
      rewrite lookup_ge_None_2 by (rewrite length_app; cbn; lia). done.
  - destruct (turn_record w front cur L0 R L1 Hi HR fuel ios r done_ e [] sr pre d post HRe Hrs Hc Hidx Hat)
      as (r' & Heq & Hr'). by exists w, r'.
  - pose proof (turn_end w front cur L0 R L1 Hi HR fuel ios r done_ e (e' :: rest) sr pre HRe Hrs Hc Hidx Hat) as Ht.
    rewrite bool_decide_false in Ht by done. destruct Ht as (w1 & r1 & Heq & Hi1 & _ & Hc1 & Hrs1 & Hidx1).
    rewrite Heq. cbn [with_positions app]. cbn [length] in Hfuel. destruct fuel as [|fuel]; [lia|].
    assert (R = (done_ ++ [e]) ++ e' :: rest) as HRe' by (by rewrite <- app_assoc).
    destruct (at_sealed w1 front cur L0 R L1 Hi1 HR (done_ ++ [e]) e' rest HRe') as (seg & Hok & Hin).
    destruct (next_open fuel (fun n => ios (S n)) w1 r1 (le_ptr e') seg) as (seg' & He & Hop).
    + done.
    + rewrite Hrs1, Hidx1, list_lookup_fmap, HRe', list_lookup_middle; [done|].
      rewrite length_app. cbn. lia.
    + by eapply deref_ok.
    + apply Hok.
    + apply Hok.
    + rewrite Hop. pose proof (wal_inv_readers _ _ _ _ _ _ _ Hi1 Hin Hok He) as Hi2.
      apply (IH (done_ ++ [e]) e' (opened_reader r1 seg) [] (le_recs e') (S fuel)); try done.
      * rewrite length_app. cbn [segmentIndex length]. rewrite Hidx1. lia.
      * split; [done|]. split; [|done]. unfold opened_reader. rewrite Hidx1. done.
      * lia.
  - destruct (turn_record w front cur L0 R L1 Hi HR fuel ios r done_ e (e' :: rest) sr pre d post HRe Hrs Hc Hidx Hat)
      as (r' & Heq & Hr'). by exists w, r'.
Qed.

(** [Next] returns, with the next record, "no new data" or the end of file,
    from every place a reader can be at. *)
Lemma Next_spec front cur L0 R L1 items ios w r :
  wal_inv w front cur -> front ++ [cur] = L0 ++ R ++ L1 -> reader_at R r items ->
  next_result front cur R L1 items (Next ios w r).
Proof.
  intros Hi HR Hat. unfold Next, next_fuel.
  assert (forall done_ e rest pre post,
    R = done_ ++ e :: rest -> rd_segments r = le_ptr <$> R -> currentReader r = None ->
    segmentIndex r = length done_ -> le_recs e = pre ++ post ->
    readOffset (opened_reader r (blankSegment 0)) = end_offset pre ->
    next_result front cur R L1 (with_positions (le_id e) (end_offset pre) post ++ flat rest)
      (next_loop (2 + length (rd_segments r)) ios w r)) as Hopen.
  { intros done_ e rest pre post HRe Hrs Hc Hidx Hrec Hoff.
    destruct (at_sealed w front cur L0 R L1 Hi HR done_ e rest HRe) as (seg & Hok & Hin).
    destruct (next_open (S (length (rd_segments r))) ios w r (le_ptr e) seg) as (seg' & He & Hop).
    - done.
    - by rewrite Hrs, Hidx, list_lookup_fmap, HRe, list_lookup_middle.
    - by eapply deref_ok.
    - apply Hok.
    - apply Hok.
    - cbn [Nat.add]. rewrite Hop. pose proof (wal_inv_readers _ _ _ _ _ _ _ Hi Hin Hok He) as Hi2.
      apply (next_in_segment front cur L0 R L1 rest done_ e (opened_reader r seg) pre post); try done.
      + cbn. by rewrite Hidx.
      + rewrite Hrs, HRe, length_fmap, length_app. cbn. lia. }
  destruct Hat as [done_ e rest sr pre post HRe Hrs Hc Hidx Hsr ->
                  |e rest pre post HRe Hrs Hc Hidx Hrec Hst ->
                  |done_ rest HRe Hne Hdn Hrs Hc Hidx ->].
  - apply (next_in_segment front cur L0 R L1 rest done_ e sr pre post); try done.
    rewrite Hrs, HRe, length_fmap, length_app. cbn. lia.
  - apply (Hopen [] e rest pre post); try done. unfold opened_reader. cbn. rewrite Hidx. cbn [Nat.eqb andb].
    destruct (_ <? _); [done|]. by rewrite Hst.
  - destruct rest as [|e rest]; [done|].
    apply (Hopen done_ e rest [] (le_recs e)); try done. unfold opened_reader. cbn. rewrite Hidx.
    by destruct done_.
Qed.

(** ** Starting somewhere *)

Lemma filter_later w pos (B : list lentry) tail : forall acc f s,
  Forall (fun e => SegmentID pos < le_id e /\ exists b seg, seg_ok w b e seg) B ->
  filter_from w pos (reverse (le_ptr <$> B) ++ tail) acc f s =
  filter_from w pos tail ((le_ptr <$> B) ++ acc) f s.
Proof.
  induction B as [|x B IH] using rev_ind; intros acc f s HB; [done|].
  apply Forall_app in HB as [HB Hx]. apply Forall_cons in Hx as [(Hlt & b & seg & Hok) _].
  rewrite fmap_app, reverse_app. cbn [fmap list_fmap reverse app filter_from]. cbn.
  rewrite (deref_ok _ _ _ _ Hok). cbn [mbind outcome_bind]. rewrite (so_id _ _ _ _ Hok).
  if_false. if_false. rewrite IH by done. by rewrite <- app_assoc.
Qed.

Lemma filter_earlier w pos (A : list lentry) acc f s :
  Forall (fun e => le_id e < SegmentID pos /\ exists b seg, seg_ok w b e seg) A ->
  filter_from w pos (reverse (le_ptr <$> A)) acc f s = Ret (Ok (acc, f, s)).
Proof.
  intros HA. destruct A as [|x A _] using rev_ind; [done|].
  apply Forall_app in HA as [_ Hx]. apply Forall_cons in Hx as [(Hlt & b & seg & Hok) _].
  rewrite fmap_app, reverse_app. cbn [fmap list_fmap reverse app filter_from]. cbn.
  rewrite (deref_ok _ _ _ _ Hok). cbn [mbind outcome_bind]. rewrite (so_id _ _ _ _ Hok). by if_true.
Qed.

Lemma sorted_around (A B : list lentry) e :
  StronglySorted Z.lt (le_id <$> A ++ e :: B) ->
  Forall (fun x => le_id x < le_id e) A /\ Forall (fun x => le_id e < le_id x) B.
Proof.
  rewrite fmap_app. cbn [fmap list_fmap]. intros Hs. rewrite !Forall_forall. split.
  - intros x Hx. apply (StronglySorted_app_1_elem_of _ _ _ _ _ Hs); [apply list_elem_of_fmap; by exists x | by left].
  - intros x Hx. apply StronglySorted_app_1_r in Hs. inversion Hs as [|? ? _ Hf]; subst.
    rewrite Forall_forall in Hf. apply Hf, list_elem_of_fmap. by exists x.
Qed.

Lemma NewReaderWithStart_at w front cur A e B pre post :
  wal_inv w front cur -> front ++ [cur] = A ++ e :: B -> le_recs e = pre ++ post ->
  exists r, NewReaderWithStart w (mkPos (le_id e) (end_offset pre)) = Ret (Ok r) /\
    reader_at (e :: B) r (with_positions (le_id e) (end_offset pre) post ++ flat B).
Proof.
  intros Hi HL Hrec. pose proof (wi_sorted _ _ _ Hi) as Hs. rewrite HL in Hs.
  destruct (sorted_around A B e Hs) as [HA HB].
  assert (forall x, x ∈ A ++ e :: B -> exists b seg, seg_ok w b x seg) as Hok
    by (intros x Hx; rewrite <- HL in Hx; by destruct (wal_segment w front cur x Hi Hx)).
  assert (0 < le_id e) as Hpos.
  { pose proof (wi_pos _ _ _ Hi) as Hp. rewrite HL, Forall_forall in Hp. apply (Hp e). set_solver. }
  destruct (Hok e) as (b & seg & Hse); [set_solver|].
  pose proof Hse as [_ Hid (m & Hrep & _) _ _ _ _]. rewrite Hrec in Hrep.
  pose proof (sr_end _ _ _ Hrep) as Hend. rewrite end_offset_app in Hend. pose proof (entries_size_nonneg post).
  unfold NewReaderWithStart. cbn [SegmentID]. if_false.
  rewrite (wi_snapshot _ _ _ Hi), HL.
  replace (A ++ e :: B) with ((A ++ [e]) ++ B) by (by rewrite <- app_assoc).
  rewrite fmap_app, reverse_app, filter_later.
  2: { rewrite Forall_forall in *. intros x Hx. split; [by apply HB|]. apply Hok. set_solver. }
  rewrite fmap_app, reverse_app. cbn [fmap list_fmap]. rewrite reverse_singleton. cbn [app filter_from].
  rewrite (deref_ok _ _ _ _ Hse). cbn [mbind outcome_bind SegmentID Offset]. rewrite Hid, Z.ltb_irrefl, Z.eqb_refl.
  unfold GetSegmentSize. if_false. rewrite filter_earlier.
  2: { rewrite Forall_forall in *. intros x Hx. split; [by apply HA|]. apply Hok. set_solver. }
  cbn [mbind outcome_bind negb]. rewrite app_nil_r. eexists. split; [reflexivity|].
  eapply (at_start _ _ _ e B pre post); try done. cbn [startOffset].
  destruct (segmentHeaderSize <? end_offset pre) eqn:E; [by rewrite E|].
  rewrite Z.ltb_irrefl. destruct pre as [|d pre]; [done|].
  unfold end_offset in E. cbn [entries_size foldr] in E. fold (entries_size pre) in E.
  pose proof (entrySize_pos _ (blen_nonneg d)). pose proof (entries_size_nonneg pre). lia.
Qed.

(** ** Draining the log *)

(** Call [Next] until it fails. *)
Fixpoint log_drain (fuel : nat) (ios : nat -> IO) (w : WALog) (r : Reader)
  : outcome (list (bytes * RecordPosition) * error) :=
  match fuel with
  | O => NoFuel
  | S fuel =>
      '(w, r, res) ← Next ios w r;
      match res with
      | Err e => Ret ([], e)
      | Ok x => '(xs, e) ← log_drain fuel ios w r; Ret (x :: xs, e)
      end
  end.

Lemma log_drain_spec front cur L0 R ios items : forall w r,
  wal_inv w front cur -> front ++ [cur] = L0 ++ R -> reader_at R r items ->
  log_drain (S (length items)) ios w r = Ret (items, ErrNoNewData).
Proof.
  induction items as [|x items IH]; intros w r Hi HR Hat;
    destruct (Next_spec front cur L0 R [] _ ios w r Hi ltac:(by rewrite app_nil_r) Hat) as (w' & r' & Hi' & Heq & Hat').
  - cbn [length log_drain]. by rewrite Heq.
  - change (log_drain (S (length (x :: items))) ios w r) with
      ('(w, r, res) ← Next ios w r;
       match res with
       | Err e => Ret ([], e)
       | Ok x => '(xs, e) ← log_drain (S (length items)) ios w r; Ret (x :: xs, e)
       end).
    rewrite Heq. cbn [mbind outcome_bind]. by rewrite (IH w' r' Hi' HR Hat').
Qed.

(** The records of the abstract log with their positions. *)
Definition al_flat (A : list (Z * list bytes)) : list (bytes * RecordPosition) :=
  concat ((fun x => with_positions x.1 segmentHeaderSize x.2) <$> A).

Lemma flat_strip L : flat L = al_flat (strip <$> L).
Proof. unfold flat, al_flat. by rewrite <- list_fmap_compose. Qed.

(** C36. A reader opened at the position of a record yields that record and
    then every later record of the log, across all segments, in order and with
    their positions, and then reports "no new data"; it always returns. *)
Theorem reader_from_position_yields_rest w a A i pre post B ios :
  wal_repr w a -> al_all a = A ++ (i, pre ++ post) :: B ->
  exists r, NewReaderWithStart w (mkPos i (end_offset pre)) = Ret (Ok r) /\
    let items := with_positions i (end_offset pre) post ++ al_flat B in
    log_drain (S (length items)) ios w r = Ret (items, ErrNoNewData).
Proof.
  intros (front & cur & Hi & Hf & Hc) HA. unfold al_all in HA. rewrite Hf, Hc in HA.
  change [strip cur] with (strip <$> [cur]) in HA. rewrite <- fmap_app in HA.
  apply fmap_app_inv in HA as (LA & LB & -> & HeB & HL).
  destruct LB as [|e LB]; [done|]. cbn [fmap list_fmap] in HeB. injection HeB as Hi1 Hrec HB. subst i.
  destruct (NewReaderWithStart_at w front cur LA e LB pre post Hi HL (eq_sym Hrec)) as (r & Hr & Hat).
  exists r. split; [done|]. cbv zeta. rewrite HB, <- flat_strip.
  by apply (log_drain_spec front cur LA (e :: LB)).
Qed.

Definition reader_demo_ops : list ((nat -> IO) * wal_op) :=
  [(good_ios, WWriteBatch [[Byte.x01]; [Byte.x02]; [Byte.x03]]); (good_ios, WRotate); (good_ios, WRotate);
   (good_ios, WWrite [Byte.x04])].

Lemma reader_demo : exists w,
  wal_repr w (mkLog [(1, [[Byte.x01]; [Byte.x02]; [Byte.x03]]); (2, [])] (3, [[Byte.x04]])).
Proof.
  destruct (NewWALog_empty good_ios [] [] 256 64 true 0 0 0 false good_ios_good eq_refl ltac:(by vm_compute))
    as (w & _ & Hr & Hm).
  destruct (wal_run_aux reader_demo_ops w _ Hr ltac:(by repeat constructor) ltac:(by vm_compute)) as (w' & _ & Hr' & _).
  rewrite Hm in Hr'. exists w'. exact Hr'.
Qed.

Lemma reader_from_position_yields_rest_witness :
  exists w r, NewReaderWithStart w (mkPos 1 88) = Ret (Ok r) /\
    log_drain 4 good_ios w r =
    Ret ([([Byte.x02], mkPos 1 88); ([Byte.x03], mkPos 1 112); ([Byte.x04], mkPos 3 64)], ErrNoNewData).
Proof.
  destruct reader_demo as (w & Hr). exists w.
  exact (reader_from_position_yields_rest w _ [] 1 [[Byte.x01]] [[Byte.x02]; [Byte.x03]]
           [(2, []); (3, [[Byte.x04]])] good_ios Hr eq_refl).
Defined.

(** [NewReaderAfter] at the position of a record skips exactly that
    record: the reader yields every later record of the log and nothing else. *)
Theorem reader_after_position_skips_one w a A i pre d post B ios :
  wal_repr w a -> al_all a = A ++ (i, pre ++ d :: post) :: B ->
  exists w' r, NewReaderAfter ios w (mkPos i (end_offset pre)) = Ret (w', Ok r) /\
    let items := with_positions i (end_offset (pre ++ [d])) post ++ al_flat B in
    log_drain (S (length items)) ios w' r = Ret (items, ErrNoNewData).
Proof.
  intros (front & cur & Hi & Hf & Hc) HA. unfold al_all in HA. rewrite Hf, Hc in HA.
  change [strip cur] with (strip <$> [cur]) in HA. rewrite <- fmap_app in HA.
  apply fmap_app_inv in HA as (LA & LB & -> & HeB & HL).
  destruct LB as [|e LB]; [done|]. cbn [fmap list_fmap] in HeB. injection HeB as Hi1 Hrec HB. subst i.
  destruct (NewReaderWithStart_at w front cur LA e LB pre (d :: post) Hi HL (eq_sym Hrec)) as (r & Hr & Hat).
  unfold NewReaderAfter. rewrite Hr. cbn [mbind outcome_bind]. unfold SeekNext.
  destruct (Next_spec front cur LA (e :: LB) [] _ ios w r Hi ltac:(by rewrite app_nil_r) Hat) as (w' & r' & Hi' & Hn).
  cbn [with_positions app] in Hn. destruct Hn as [Heq Hat']. rewrite Heq. cbn [mbind outcome_bind].
  exists w', r'. split; [done|]. cbv zeta. rewrite HB, <- flat_strip, end_offset_snoc.
  by apply (log_drain_spec front cur LA (e :: LB)).
Qed.

Lemma reader_after_position_skips_one_witness :
  exists w w' r, NewReaderAfter good_ios w (mkPos 1 112) = Ret (w', Ok r) /\
    log_drain 2 good_ios w' r = Ret ([([Byte.x04], mkPos 3 64)], ErrNoNewData).
Proof.
  destruct reader_demo as (w & Hr). exists w.
  exact (reader_after_position_skips_one w _ [] 1 [[Byte.x01]; [Byte.x02]] [Byte.x03] []
           [(2, []); (3, [[Byte.x04]])] good_ios Hr eq_refl).
Defined.
