(* ===== verification/WALogRetention.v ===== *)
(** Retention: which segments of the log are queued for deletion and what
    the cleaner leaves behind.

    [MarkSegmentsForDeletion] is computed exactly on a well-formed log: the
    queue is a prefix of the sealed segments, whose length the configured
    policy determines. *)

From stdpp Require Import prelude list numbers gmap sorting.
From Stdlib Require Import ZArith Lia.
From S2P Require Import Prelude Bytes Crc32 ReaderTracker Segment SegmentFacts SegmentScan SegmentSpec.
From S2P Require Import WALog WALogFacts WALogRecovery WALogReader.

(** ** The candidates are the sealed segments, oldest first *)

Lemma ids_in_heap w front cur : wal_inv w front cur ->
  Forall (fun e => ptr_id w (le_ptr e) = le_id e) (front ++ [cur]).
Proof.
  intros Hi. apply Forall_app. split.
  - eapply Forall_impl; [exact (wi_front _ _ _ Hi)|]. intros e (seg & H). by eapply ptr_id_ok.
  - apply Forall_cons. split; [|constructor]. destruct (wi_cur _ _ _ Hi) as (seg & H). by eapply ptr_id_ok.
Qed.

Lemma sorted_segments w front cur : wal_inv w front cur ->
  merge_sort (older w) (map_to_list (segments w)).*2 = le_ptr <$> front ++ [cur].
Proof.
  intros Hi. pose proof (snapshot_entries w (front ++ [cur]) (ids_in_heap _ _ _ Hi)
                           (wi_segments _ _ _ Hi) (wi_sorted _ _ _ Hi)) as H. exact H.
Qed.

Lemma is_candidate_ok w b e seg : seg_ok w b e seg -> is_candidate seg = Ret b.
Proof.
  intros [Hh Hid (m & Hr & Hsl & _) _ [Hc _] _ Hk]. unfold is_candidate. rewrite Hc, Hk.
  pose proof (sr_end _ _ _ Hr). destruct (sr_size _ _ _ Hr) as [Hs _].
  unfold segmentHeaderSize; if_false.
  unfold GetFlags. rewrite (repr_decoded_header _ _ _ Hr). cbn [mbind outcome_bind]. by rewrite Hsl.
Qed.

Lemma collect_app w ps qs :
  collect_candidates w (ps ++ qs) =
  (a ← collect_candidates w ps; b ← collect_candidates w qs; Ret (a ++ b)).
Proof.
  induction ps as [|p ps IH]; cbn [app collect_candidates].
  - cbn. by destruct (collect_candidates w qs).
  - destruct (deref w p) as [seg| |]; cbn [mbind outcome_bind]; [|done..].
    destruct (is_candidate seg) as [c| |]; cbn [mbind outcome_bind]; [|done..]. rewrite IH.
    destruct (collect_candidates w ps) as [a| |]; cbn [mbind outcome_bind]; [|done..].
    destruct (collect_candidates w qs) as [b| |]; cbn [mbind outcome_bind]; [|done..]. by destruct c.
Qed.

Lemma collect_sealed w L : Forall (fun e => exists seg, seg_ok w true e seg) L ->
  collect_candidates w (le_ptr <$> L) = Ret (le_ptr <$> L).
Proof.
  induction 1 as [|e L (seg & Hok) _ IH]; [done|]. cbn [fmap list_fmap collect_candidates].
  rewrite (deref_ok _ _ _ _ Hok). cbn [mbind outcome_bind]. rewrite (is_candidate_ok _ _ _ _ Hok).
  cbn [mbind outcome_bind]. change (list_fmap _ _ le_ptr L) with (le_ptr <$> L). by rewrite IH.
Qed.

Lemma candidates_are_front w front cur : wal_inv w front cur ->
  collect_candidates w (merge_sort (older w) (map_to_list (segments w)).*2) = Ret (le_ptr <$> front).
Proof.
  intros Hi. rewrite (sorted_segments _ _ _ Hi), fmap_app, collect_app.
  rewrite (collect_sealed _ _ (wi_front _ _ _ Hi)). cbn [mbind outcome_bind fmap list_fmap collect_candidates].
  destruct (wi_cur _ _ _ Hi) as (seg & Hok). rewrite (deref_ok _ _ _ _ Hok). cbn [mbind outcome_bind].
  rewrite (is_candidate_ok _ _ _ _ Hok). cbn [mbind outcome_bind]. by rewrite app_nil_r.
Qed.

Lemma segment_count w front cur : wal_inv w front cur -> size (segments w) = S (length front).
Proof.
  intros Hi. rewrite (wi_segments _ _ _ Hi). rewrite map_size_list_to_map.
  - rewrite length_fmap, length_app. cbn. lia.
  - rewrite <- list_fmap_compose. apply sorted_nodup. exact (wi_sorted _ _ _ Hi).
Qed.

(** ** How many segments the policy asks to queue *)

Definition last_modified (w : WALog) (e : lentry) : Z :=
  match heap w !! le_ptr e with
  | Some seg => match GetLastModifiedAt seg with Ret t => t | _ => 0 end
  | None => 0
  end.

Definition old_segments (w : WALog) (now : Z) (front : list lentry) : list lentry :=
  filter (fun e => segmentMaxAge w <= now - last_modified w e) front.

Lemma count_older_spec w now L : Forall (fun e => exists seg, seg_ok w true e seg) L ->
  count_older w now (segmentMaxAge w) (le_ptr <$> L) = Ret (Z.of_nat (length (old_segments w now L))).
Proof.
  induction 1 as [|e L (seg & Hok) _ IH]; [done|]. cbn [fmap list_fmap count_older].
  change (list_fmap _ _ le_ptr L) with (le_ptr <$> L).
  rewrite (deref_ok _ _ _ _ Hok). cbn [mbind outcome_bind].
  assert (exists m, GetLastModifiedAt seg = Ret m) as (t & Ht).
  { destruct Hok as [_ _ (m & Hr & _) _ _ _ _]. unfold GetLastModifiedAt.
    rewrite (repr_decoded_header _ _ _ Hr). by exists (LastModifiedAt m). }
  rewrite Ht. cbn [mbind outcome_bind]. rewrite IH. cbn [mbind outcome_bind].
  unfold old_segments. rewrite filter_cons.
  assert (last_modified w e = t) as ->.
  { unfold last_modified. by rewrite (so_heap _ _ _ _ Hok), Ht. }
  destruct (Z.leb_spec (segmentMaxAge w) (now - t)); [rewrite decide_True by lia|rewrite decide_False by lia; done].
  cbn [length]. f_equal. lia.
Qed.

(** The policy: nothing at or below the minimum, the excess over the maximum,
    or else everything that is old enough. *)
Definition quota (w : WALog) (now : Z) (front : list lentry) : nat :=
  let current := Z.of_nat (S (length front)) in
  if negb (enableAutoCleanup w) then 0%nat
  else if current <=? minSegmentsToRetain w then 0%nat
  else if (0 <? maxSegmentsToRetain w) && (maxSegmentsToRetain w <? current)
       then Z.to_nat (current - maxSegmentsToRetain w)
  else if 0 <? segmentMaxAge w then length (old_segments w now front) else 0%nat.

Definition queued (L : list lentry) : gmap Z nat := list_to_map (id_ptr <$> L).

Lemma queue_skips w pending n L :
  Forall (fun e => ptr_id w (le_ptr e) = le_id e /\ is_Some (pending !! le_id e)) L ->
  forall rest, 0 < n ->
  queue_candidates w n ((le_ptr <$> L) ++ rest) pending = queue_candidates w n rest pending.
Proof.
  induction 1 as [|e L [He [p Hp]] _ IH]; intros rest Hn; [done|]. cbn [fmap list_fmap app queue_candidates].
  change (list_fmap _ _ le_ptr L) with (le_ptr <$> L).
  if_false. rewrite He, Hp. by apply IH.
Qed.

Lemma queue_takes w L : Forall (fun e => ptr_id w (le_ptr e) = le_id e) L -> NoDup (le_id <$> L) ->
  forall n pending, Forall (fun e => pending !! le_id e = None) L ->
  queue_candidates w (Z.of_nat n) (le_ptr <$> L) pending = queued (take n L) ∪ pending.
Proof.
  induction 1 as [|e L He _ IH]; intros Hnd n pending Hp; cbn [fmap list_fmap queue_candidates].
  - rewrite take_nil. unfold queued. cbn. by rewrite map_empty_union.
  - change (list_fmap _ _ le_ptr L) with (le_ptr <$> L).
    apply Forall_cons in Hp as [Hpe Hp]. cbn in Hnd. apply NoDup_cons in Hnd as [Hni Hnd].
    destruct n as [|n]; [cbn; unfold queued; cbn; by rewrite map_empty_union|].
    destruct (Z.leb_spec (Z.of_nat (S n)) 0) as [Hle|_]; [exfalso; clear -Hle; lia|]. rewrite He, Hpe. replace (Z.of_nat (S n) - 1) with (Z.of_nat n) by lia.
    rewrite IH; [|done|].
    + unfold queued. cbn [take fmap list_fmap id_ptr]. cbn [list_to_map foldr]. cbn.
      rewrite <- insert_union_l, insert_union_r; [done|].
      apply not_elem_of_list_to_map_1. rewrite <- list_fmap_compose. intros Hin. apply Hni.
      apply list_elem_of_fmap in Hin as (x & Hx & Hin). apply list_elem_of_fmap.
      exists x. split; [done|]. eapply (subseteq_take n); exact Hin.
    + rewrite Forall_forall in *. intros x Hx. rewrite lookup_insert_ne; [by apply Hp|].
      intros Heq. apply Hni. rewrite Heq. by apply list_elem_of_fmap_2.
Qed.

Lemma queued_app L1 L2 : queued (L1 ++ L2) = queued L1 ∪ queued L2.
Proof. unfold queued. by rewrite fmap_app, list_to_map_app. Qed.

Lemma lookup_queued L e : NoDup (le_id <$> L) -> e ∈ L -> queued L !! le_id e = Some (le_ptr e).
Proof.
  intros Hnd He. apply elem_of_list_to_map_1; [by rewrite <- list_fmap_compose|].
  apply list_elem_of_fmap. by exists e.
Qed.

Lemma lookup_queued_None L i : i ∉ le_id <$> L -> queued L !! i = None.
Proof. intros Hi. apply not_elem_of_list_to_map_1. by rewrite <- list_fmap_compose. Qed.

Lemma front_ids w front cur : wal_inv w front cur ->
  Forall (fun e => ptr_id w (le_ptr e) = le_id e) front /\ NoDup (le_id <$> front).
Proof.
  intros Hi. pose proof (ids_in_heap _ _ _ Hi) as H. apply Forall_app in H as [H _]. split; [done|].
  pose proof (sorted_nodup _ (wi_sorted _ _ _ Hi)) as Hnd. rewrite fmap_app in Hnd.
  by apply NoDup_app in Hnd as [? _].
Qed.

Lemma queue_prefix w front cur k n : wal_inv w front cur -> (0 < n)%nat ->
  queue_candidates w (Z.of_nat n) (le_ptr <$> front) (queued (take k front)) = queued (take (k + n) front).
Proof.
  intros Hi Hn. destruct (front_ids _ _ _ Hi) as [Hids Hnd].
  rewrite <- (take_drop k front) in Hids, Hnd. rewrite fmap_app in Hnd.
  apply Forall_app in Hids as [Hi1 Hi2]. apply NoDup_app in Hnd as (Hn1 & Hdis & Hn2).
  rewrite <- (take_drop k front) at 1. rewrite fmap_app, queue_skips; [|..|lia].
  - rewrite queue_takes; [|done..|].
    + replace (take (k + n) front) with (take k front ++ take n (drop k front))
        by apply take_take_drop.
      rewrite queued_app. apply map_union_comm. apply map_disjoint_spec.
      intros i p q H1 H2. unfold queued in H1, H2.
      apply elem_of_list_to_map_2, list_elem_of_fmap in H1 as (x & [= -> ->] & Hx).
      apply elem_of_list_to_map_2, list_elem_of_fmap in H2 as (y & Heq & Hy). injection Heq as Heq _.
      apply (Hdis (le_id y)); [by apply list_elem_of_fmap_2|]. rewrite <- Heq. apply list_elem_of_fmap_2.
      by eapply (subseteq_take n).
    + apply Forall_forall. intros e He. apply lookup_queued_None. intros Hin.
      apply (Hdis _ Hin). by apply list_elem_of_fmap_2.
  - rewrite Forall_forall in *. intros e He. split; [by apply Hi1|]. rewrite lookup_queued by done. by eexists.
Qed.

Lemma mark_spec io w front cur k :
  wal_inv w front cur -> pendingDeletion w = queued (take k front) ->
  MarkSegmentsForDeletion io w =
  Ret (with_pendingDeletion (queued (take (k + quota w (io_now io) front) front)) w).
Proof.
  intros Hi Hp.
  assert (w = with_pendingDeletion (queued (take (k + 0) front)) w) as Hsame.
  { rewrite Nat.add_0_r, <- Hp. by destruct w. }
  unfold MarkSegmentsForDeletion, quota. rewrite (segment_count _ _ _ Hi), (candidates_are_front _ _ _ Hi).
  cbn [mbind outcome_bind]. set (c := Z.of_nat (S (length front))).
  destruct (negb (enableAutoCleanup w)); [by rewrite Hsame at 1|].
  destruct (Z.leb_spec c (minSegmentsToRetain w)) as [Hle|Hgt].
  { rewrite andb_true_r. destruct (0 <? minSegmentsToRetain w); [by rewrite Hsame at 1|].
    replace (c - minSegmentsToRetain w <=? 0) with true by lia. by rewrite Hsame at 1. }
  rewrite andb_false_r. replace (c - minSegmentsToRetain w <=? 0) with false by lia.
  assert (forall n, (if Z.of_nat n =? 0 then Ret w else
            Ret (with_pendingDeletion
                   (queue_candidates w (Z.of_nat n) (le_ptr <$> front) (pendingDeletion w)) w)) =
          Ret (with_pendingDeletion (queued (take (k + n) front)) w)) as Hfin.
  { intros [|n]; [by rewrite Hsame at 1|]. change (Z.of_nat (S n) =? 0) with false.
    rewrite Hp, (queue_prefix _ _ _ _ _ Hi) by lia. done. }
  destruct ((0 <? maxSegmentsToRetain w) && (maxSegmentsToRetain w <? c)) eqn:Hmax; cbn [mbind outcome_bind].
  { rewrite <- Hfin. rewrite Z2Nat.id by (apply andb_true_iff in Hmax as [_ ?]; lia). done. }
  destruct (0 <? segmentMaxAge w); cbn [mbind outcome_bind]; [|by rewrite Hsame at 1].
  rewrite (count_older_spec _ _ _ (wi_front _ _ _ Hi)). cbn [mbind outcome_bind]. apply Hfin.
Qed.

(** Queueing for deletion is exact: [MarkSegmentsForDeletion] never panics
    on a well-formed log, never queues the active segment, and extends a queue
    that holds the [k] oldest sealed segments by the next [quota] ones, where
    [quota] is what the policy asks for: nothing when cleanup is off or the
    log has at most the minimum, the excess over the maximum when there is
    one, and the number of segments that are old enough otherwise. *)
Theorem retention_queues_oldest_sealed io w front cur k :
  wal_inv w front cur -> pendingDeletion w = queued (take k front) ->
  MarkSegmentsForDeletion io w =
    Ret (with_pendingDeletion (queued (take (k + quota w (io_now io) front) front)) w) /\
  le_id cur ∉ dom (queued (take (k + quota w (io_now io) front) front)).
Proof.
  intros Hi Hp. split; [by apply (mark_spec _ _ _ cur)|].
  pose proof (sorted_nodup _ (wi_sorted _ _ _ Hi)) as Hnd. rewrite fmap_app in Hnd.
  apply NoDup_app in Hnd as (_ & Hdis & _). rewrite not_elem_of_dom. apply lookup_queued_None.
  intros Hin. apply list_elem_of_fmap in Hin as (e & He & Hin).
  apply (Hdis (le_id e)); [|rewrite <- He; cbn; by left].
  apply list_elem_of_fmap_2. by eapply subseteq_take.
Qed.

(** A log of four segments, with any cleanup policy. *)
Definition retention_demo_ops : list ((nat -> IO) * wal_op) :=
  [(good_ios, WRotate); (good_ios, WWrite [Byte.x01]); (good_ios, WRotate); (good_ios, WRotate)].

Lemma wal_inv_policy w front cur age lo hi P :
  wal_inv w front cur -> wal_inv (with_pendingDeletion P (WithAutoCleanupPolicy age lo hi true w)) front cur.
Proof.
  intros [Hf Hc Hcur Hsg Hso Hnd Hsn Hpo Hd Hm].
  unfold WithAutoCleanupPolicy. destruct (0 <? lo), (0 <? hi), (0 <? age); constructor; try assumption.
  all: try (eapply Forall_impl; [exact Hf|]; intros e (s & Hs); exists s; by apply (seg_ok_frame w)).
  all: destruct Hc as (s & Hs); exists s; by apply (seg_ok_frame w).
Qed.

Lemma retention_demo : exists w front cur, wal_inv w front cur /\ length front = 3%nat.
Proof.
  destruct (NewWALog_empty good_ios [] [] 256 64 true 0 0 0 false good_ios_good eq_refl ltac:(by vm_compute))
    as (w & _ & Hr & Hm).
  destruct (wal_run_aux retention_demo_ops w _ Hr ltac:(by repeat constructor) ltac:(by vm_compute))
    as (w' & _ & Hr' & _). rewrite Hm in Hr'. destruct Hr' as (front & cur & Hi & Hf & Hc).
  exists w', front, cur. split; [done|]. apply (f_equal length) in Hf. rewrite length_fmap in Hf. by rewrite <- Hf.
Qed.

Lemma retention_queues_oldest_sealed_witness :
  exists io w front, length front = 3%nat /\
    MarkSegmentsForDeletion io w = Ret (with_pendingDeletion (queued (take 2 front)) w).
Proof.
  destruct retention_demo as (w & front & cur & Hi & Hlen).
  pose proof (wal_inv_policy w front cur 0 1 2 (queued (take 0 front)) Hi) as Hi'.
  exists (okIO 0), (with_pendingDeletion (queued (take 0 front)) (WithAutoCleanupPolicy 0 1 2 true w)), front.
  split; [done|]. destruct (retention_queues_oldest_sealed (okIO 0) _ front cur 0 Hi' eq_refl) as [H _].
  rewrite H. unfold quota. cbn. rewrite Hlen. done.
Defined.

(** Some instant at which all the segments are old. *)
Lemma late_enough w L : exists now, Forall (fun e => segmentMaxAge w <= now - last_modified w e) L.
Proof.
  induction L as [|e L (now & IH)]; [by exists 0|].
  exists (Z.max now (segmentMaxAge w + last_modified w e)). constructor; [lia|].
  eapply Forall_impl; [exact IH|]. cbn. intros; lia.
Qed.

(** The configured minimum is not always retained: when no maximum is
    set and every sealed segment is old enough, one call queues every sealed
    segment of a log that is above the minimum, and only the active segment
    is left, whatever the minimum is. *)
Theorem minimum_is_not_retained io w front cur :
  wal_inv w front cur -> pendingDeletion w = ∅ -> enableAutoCleanup w = true ->
  maxSegmentsToRetain w <= 0 -> 0 < segmentMaxAge w ->
  minSegmentsToRetain w < Z.of_nat (S (length front)) ->
  Forall (fun e => segmentMaxAge w <= io_now io - last_modified w e) front ->
  exists w', MarkSegmentsForDeletion io w = Ret w' /\
    QueuedSegmentsForDeletion w' = queued front /\
    size (Segments w') = (size (QueuedSegmentsForDeletion w') + 1)%nat.
Proof.
  intros Hi Hp Hen Hmax Hage Hmin Hold.
  rewrite (mark_spec io w front cur 0 Hi) by done.
  assert (old_segments w (io_now io) front = front) as Hall.
  { clear -Hold. unfold old_segments. induction Hold as [|e L He _ IH]; [done|].
    rewrite filter_cons, decide_True by done. by rewrite IH. }
  assert (quota w (io_now io) front = length front) as ->.
  { unfold quota. rewrite Hen, Hall. cbn [negb].
    destruct (Z.leb_spec (Z.of_nat (S (length front))) (minSegmentsToRetain w)) as [Hle|_]; [lia|].
    destruct (Z.ltb_spec 0 (maxSegmentsToRetain w)) as [Hlt|_]; [lia|].
    destruct (Z.ltb_spec 0 (segmentMaxAge w)) as [_|Hle]; [done|lia]. }
  cbn [Nat.add]. rewrite take_ge by done. eexists. split; [done|]. split; [done|].
  unfold QueuedSegmentsForDeletion, Segments. cbn [segments pendingDeletion with_pendingDeletion].
  rewrite (segment_count _ _ _ Hi). unfold queued. rewrite map_size_list_to_map.
  - rewrite length_fmap. lia.
  - rewrite <- list_fmap_compose. exact (proj2 (front_ids _ _ _ Hi)).
Qed.

(** A minimum of three segments, four segments, and three of them queued. *)
Lemma minimum_is_not_retained_witness : exists io w front w',
  minSegmentsToRetain w = 3 /\ length front = 3%nat /\
  MarkSegmentsForDeletion io w = Ret w' /\ QueuedSegmentsForDeletion w' = queued front.
Proof.
  destruct retention_demo as (w & front & cur & Hi & Hlen).
  pose proof (wal_inv_policy w front cur 1 3 0 ∅ Hi) as Hi'.
  set (w1 := with_pendingDeletion ∅ (WithAutoCleanupPolicy 1 3 0 true w)) in *.
  destruct (late_enough w1 front) as (now & Hnow).
  destruct (minimum_is_not_retained (okIO now) w1 front cur Hi' eq_refl eq_refl ltac:(by cbn) ltac:(by cbn)
              ltac:(rewrite Hlen; by cbn) Hnow) as (w' & H1 & H2 & _).
  exists (okIO now), w1, front, w'. auto.
Defined.

(** ** The cleaner *)

Definition unreferenced (w : WALog) (e : lentry) : Prop :=
  exists seg, heap w !! le_ptr e = Some seg /\ refCount seg = 0.

Lemma MarkForDeletion_unlinks io w b e seg :
  io_good io -> seg_ok w b e seg -> refCount seg = 0 ->
  onDisk (MarkForDeletion io seg) = false /\ id (MarkForDeletion io seg) = le_id e.
Proof.
  intros (_ & Hf & Hs & _ & Hr) [_ Hid _ _ [Hc Hst] _ Hk] Hrc.
  destruct seg. cbn in *. subst. unfold MarkForDeletion, cleanup, Segment.Close, close_finish, Segment.Sync. cbn.
  rewrite Hf, Hs, Hr. cbn. destruct (io_unmap io), (io_fdclose io); done.
Qed.

Lemma seg_ok_unlink w b e seg p s :
  le_ptr e <> p -> seg_ok w b e seg -> seg_ok (store_unlink p s w) b e seg.
Proof.
  intros Hne Hok. apply (seg_ok_store _ _ _ _ p s Hne) in Hok.
  unfold store_unlink. destruct (onDisk s); [done|]. revert Hok. by apply seg_ok_frame.
Qed.

(** Everything of the log but the heap and the files. *)
Definition same_log (w w' : WALog) : Prop := w' = with_heap (heap w') (with_disk (disk w') w).

Lemma same_log_refl w : same_log w w.
Proof. by destruct w. Qed.
Lemma same_log_trans w1 w2 w3 : same_log w1 w2 -> same_log w2 w3 -> same_log w1 w3.
Proof. unfold same_log. intros H1 H2. rewrite H2, H1. by destruct w1. Qed.
Lemma same_log_unlink w p s : same_log w (store_unlink p s w).
Proof. unfold same_log, store_unlink. by destruct (onDisk s), w. Qed.

Section cleaner.
Context (approve : Z -> bool).

(** One pass over queued segments: the approved ones lose their file, and
    no other segment is touched. *)
Lemma mark_pending_spec L : forall ios w,
  ios_good ios -> NoDup (le_ptr <$> L) -> Forall (fun e => exists seg, seg_ok w true e seg) L ->
  Forall (fun e => approve (le_id e) = true -> unreferenced w e) L ->
  exists w', mark_pending ios approve (id_ptr <$> L) w = Ret w' /\ same_log w w' /\
    (forall b e seg, le_ptr e ∉ le_ptr <$> filter (fun e => approve (le_id e) = true) L ->
                     seg_ok w b e seg -> seg_ok w' b e seg) /\
    (forall i, disk w' !! i = if decide (i ∈ le_id <$> filter (fun e => approve (le_id e) = true) L)
                              then None else disk w !! i).
Proof.
  induction L as [|e L IH]; intros ios w Hios Hnd Hok Hun.
  { exists w. split; [done|]. split; [apply same_log_refl|]. split; [done|]. intros i. by rewrite decide_False by set_solver. }
  apply Forall_cons in Hok as [(seg & He) Hok]. apply Forall_cons in Hun as [Hu Hun].
  cbn in Hnd. apply NoDup_cons in Hnd as [Hni Hnd].
  change (id_ptr <$> e :: L) with ((le_id e, le_ptr e) :: (id_ptr <$> L)). cbn [mark_pending].
  rewrite (deref_ok _ _ _ _ He). cbn [mbind outcome_bind]. rewrite filter_cons.
  destruct (approve (le_id e)) eqn:Ha; [rewrite decide_True by done|rewrite decide_False by done].
  2: { apply (IH _ w); [intros n; apply Hios|done..]. }
  destruct (Hu eq_refl) as (seg' & Hh & Hrc). rewrite (so_heap _ _ _ _ He) in Hh. injection Hh as <-.
  destruct (MarkForDeletion_unlinks _ _ _ _ _ (Hios 0%nat) He Hrc) as [Hoff Hid].
  set (s := MarkForDeletion _ seg) in *. set (w1 := store_unlink _ s w).
  assert (forall b e' sg, le_ptr e' <> le_ptr e -> seg_ok w b e' sg -> seg_ok w1 b e' sg) as Hkeep
    by (intros; by apply seg_ok_unlink).
  assert (Forall (fun x => le_ptr x <> le_ptr e) L) as Hne.
  { apply Forall_forall. intros x Hx Heq. apply Hni. rewrite <- Heq. by apply list_elem_of_fmap_2. }
  destruct (IH (fun n => ios (S n)) w1) as (w' & Hrun & Hsame & Hrest & Hdisk); [intros n; apply Hios|done|..].
  { rewrite Forall_forall in *. intros x Hx. destruct (Hok x Hx) as (sg & Hs). exists sg. by apply Hkeep; [apply Hne|]. }
  { rewrite Forall_forall in *. intros x Hx Hax. destruct (Hun x Hx Hax) as (sg & Hs & Hr). exists sg. split; [|done].
    unfold w1, store_unlink. rewrite Hoff. cbn. rewrite list_lookup_insert_ne; [done|].
    intros Heq. by apply (Hne x Hx). }
  exists w'. split; [done|]. split; [by eapply same_log_trans; [apply same_log_unlink|]|]. split.
  - intros b e' sg Hnotin Hs. cbn in Hnotin. apply not_elem_of_cons in Hnotin as [Hn1 Hn2].
    apply Hrest; [done|]. by apply Hkeep.
  - intros i. rewrite Hdisk. unfold w1, store_unlink. rewrite Hoff, Hid. cbn [disk with_disk store with_heap].
    cbn [fmap list_fmap]. change (list_fmap _ _ le_id ?l) with (le_id <$> l).
    destruct (decide (i = le_id e)) as [->|Hi].
    + rewrite lookup_delete_eq. do 2 case_decide; try done; exfalso; match goal with H : _ ∉ _ :: _ |- _ => apply H end; by left.
    + rewrite lookup_delete_ne by done. apply decide_ext. rewrite elem_of_cons. clear -Hi. tauto.
Qed.
End cleaner.

Lemma lookup_queued_Some L i p : NoDup (le_id <$> L) ->
  queued L !! i = Some p <-> exists e, e ∈ L /\ le_id e = i /\ le_ptr e = p.
Proof.
  intros Hnd. split.
  - intros H. apply elem_of_list_to_map_2, list_elem_of_fmap in H as (e & [= -> ->] & He). by exists e.
  - intros (e & He & <- & <-). by apply lookup_queued.
Qed.

Lemma queued_difference L (g : gmap Z nat) (ids : list Z) :
  NoDup (le_id <$> L) -> (forall e, e ∈ L -> g !! le_id e = None <-> le_id e ∉ ids) ->
  queued L ∖ g = queued (filter (fun e => le_id e ∉ ids) L).
Proof.
  intros Hnd Hg. apply map_eq. intros i. apply option_eq. intros p.
  assert (NoDup (le_id <$> filter (fun e => le_id e ∉ ids) L)) as Hnd'.
  { eapply sublist_NoDup; [exact Hnd|]. apply fmap_sublist, sublist_filter. }
  rewrite lookup_difference_Some, !lookup_queued_Some by done. split.
  - intros [(e & He & <- & <-) Hn]. exists e. split; [|done]. apply list_elem_of_filter. split; [by apply Hg|done].
  - intros (e & He & <- & <-). apply list_elem_of_filter in He as [Hn He]. split; [by exists e|by apply Hg].
Qed.

Lemma sorted_sublist (l k : list Z) : l `sublist_of` k -> StronglySorted Z.lt k -> StronglySorted Z.lt l.
Proof.
  induction 1 as [|x l k Hs IH|x l k Hs IH]; intros Hk; [done|..]; inversion Hk as [|? ? Hk1 Hf]; subst; [|by apply IH].
  constructor; [by apply IH|]. rewrite Forall_forall in *. intros y Hy. apply Hf. by eapply elem_of_sublist.
Qed.

(** The log without some of its sealed segments. *)
Lemma wal_inv_restrict w w' front cur front' :
  wal_inv w front cur -> front' `sublist_of` front ->
  Forall (fun e => exists seg, seg_ok w' true e seg) front' -> (exists seg, seg_ok w' false cur seg) ->
  currentSegment w' = currentSegment w -> wl_maxSegmentSize w' = wl_maxSegmentSize w ->
  segments w' = queued (front' ++ [cur]) -> segmentSnapshot w' = le_ptr <$> front' ++ [cur] ->
  (forall i, le_id cur < i -> disk w !! i = None -> disk w' !! i = None) -> wal_inv w' front' cur.
Proof.
  intros Hi Hs Hf Hc Hcur Hmax Hsg Hsn Hd.
  assert ((front' ++ [cur]) `sublist_of` (front ++ [cur])) as Hsub by (by apply sublist_app).
  destruct Hi as [Hf0 Hc0 Hcur0 Hsg0 Hso0 Hnd0 Hsn0 Hpo0 Hd0 Hm0]. constructor; try congruence.
  - exact Hsg.
  - eapply sorted_sublist; [|exact Hso0]. by apply fmap_sublist.
  - eapply sublist_NoDup; [exact Hnd0|]. by apply fmap_sublist.
  - rewrite Forall_forall in *. intros x Hx. apply Hpo0. by eapply elem_of_sublist.
  - intros i Hlt. by apply Hd; [|apply Hd0].
Qed.

(** The ids the cleaner removes: the queued ones that are approved. *)
Definition removed (approve : Z -> bool) (P : list lentry) : list Z :=
  le_id <$> filter (fun e => approve (le_id e) = true) P.

Definition survivors (approve : Z -> bool) (P front : list lentry) : list lentry :=
  filter (fun e => le_id e ∉ removed approve P) front.

Lemma survivors_nil approve P L : removed approve P = [] -> survivors approve P L = L.
Proof.
  intros H. unfold survivors. rewrite H. induction L as [|e L IH]; [done|].
  rewrite filter_cons, decide_True by (apply not_elem_of_nil). by rewrite IH.
Qed.

(** [CleanupStalePendingSegments] when exactly the ids of [ids] have lost their files. *)
Lemma cleanup_spec w approve P L :
  NoDup (le_id <$> P) -> NoDup (le_id <$> L) -> P ⊆ L ->
  segments w = queued L -> pendingDeletion w = queued P ->
  (forall e, e ∈ P -> disk w !! le_id e = None <-> le_id e ∈ removed approve P) ->
  segmentSnapshot w = le_ptr <$> L ->
  let w' := CleanupStalePendingSegments w in
  segments w' = queued (survivors approve P L) /\ pendingDeletion w' = queued (survivors approve P P) /\
  (w' = w /\ removed approve P = [] \/ w' = snapshotSegments w').
Proof.
  intros HnP HnL Hsub Hsg Hpd Hdisk Hsn. cbv zeta. unfold CleanupStalePendingSegments.
  set (gone := filter _ _).
  assert (forall e, e ∈ L -> gone !! le_id e = None <-> le_id e ∉ removed approve P) as Hgone.
  { intros e He. unfold gone. rewrite map_lookup_filter_None, Hpd. split.
    - intros H Hin. apply list_elem_of_fmap in Hin as (x & Hx & Hf). apply list_elem_of_filter in Hf as [Ha HxP].
      rewrite Hx in H. destruct H as [H|H]; [by rewrite lookup_queued in H|].
      refine (H _ (lookup_queued _ _ HnP HxP) _). apply Hdisk; [done|]. apply list_elem_of_fmap_2.
      by apply list_elem_of_filter.
    - intros Hn. destruct (queued P !! le_id e) as [p|] eqn:Hp; [|by left]. right.
      intros q Hq Hd. apply Hn. apply (lookup_queued_Some _ _ _ HnP) in Hp as (x & Hx & Hxe & _).
      rewrite <- Hxe in *. by apply Hdisk. }
  case_bool_decide as Hempty.
  - assert (removed approve P = []) as Hnil.
    { destruct (removed approve P) as [|i ids] eqn:Hr; [done|]. exfalso.
      assert (i ∈ removed approve P) as Hin by (rewrite Hr; by left).
      apply list_elem_of_fmap in Hin as (x & -> & Hf). apply list_elem_of_filter in Hf as [Ha HxP].
      assert (gone !! le_id x = None) as Hx by (by rewrite Hempty).
      apply Hgone in Hx; [|by apply Hsub]. apply Hx. rewrite <- Hr in *. apply list_elem_of_fmap_2.
      by apply list_elem_of_filter. }
    rewrite !survivors_nil by done. rewrite Hsg, Hpd. split; [done|]. split; [done|]. by left.
  - cbn [segments pendingDeletion snapshotSegments with_segmentSnapshot with_segments with_pendingDeletion].
    rewrite Hsg, Hpd. split; [by apply queued_difference|]. split; [|by right].
    apply queued_difference; [done|]. intros e He. apply Hgone. by apply Hsub.
Qed.

Lemma removed_perm approve P P' i : P ≡ₚ P' -> i ∈ removed approve P <-> i ∈ removed approve P'.
Proof.
  intros Hp. unfold removed. rewrite !list_elem_of_fmap. setoid_rewrite list_elem_of_filter. by setoid_rewrite Hp.
Qed.

Lemma same_ptr w front cur e e' : wal_inv w front cur -> e ∈ front ++ [cur] -> e' ∈ front ++ [cur] ->
  le_ptr e = le_ptr e' -> e = e'.
Proof.
  intros Hi H1 H2 Heq. apply list_elem_of_lookup in H1 as [i H1]. apply list_elem_of_lookup in H2 as [j H2].
  assert (i = j) as ->; [|congruence].
  eapply NoDup_lookup; [exact (wi_nodup _ _ _ Hi)| |]; rewrite list_lookup_fmap; [by rewrite H1|by rewrite H2, Heq].
Qed.

(** The last segment survives: it is never queued. *)
Lemma survivors_snoc w front cur approve P : wal_inv w front cur -> P `sublist_of` front ->
  survivors approve P (front ++ [cur]) = survivors approve P front ++ [cur].
Proof.
  intros Hi Hs. unfold survivors. rewrite filter_app. f_equal. rewrite filter_cons, decide_True; [done|].
  intros Hin. apply list_elem_of_fmap in Hin as (x & Hx & Hf). apply list_elem_of_filter in Hf as [_ HxP].
  pose proof (sorted_nodup _ (wi_sorted _ _ _ Hi)) as Hnd. rewrite fmap_app in Hnd.
  apply NoDup_app in Hnd as (_ & Hdis & _). apply (Hdis (le_id x)).
  - apply list_elem_of_fmap_2. by eapply elem_of_sublist.
  - rewrite <- Hx. cbn. by left.
Qed.

Lemma cleaner_pass ios approve w front cur P :
  wal_inv w front cur -> ios_good ios -> P `sublist_of` front -> pendingDeletion w = queued P ->
  Forall (fun e => approve (le_id e) = true -> unreferenced w e) P ->
  exists w1, mark_pending ios approve (map_to_list (pendingDeletion w)) w = Ret w1 /\ same_log w w1 /\
    (forall b e seg, e ∈ front ++ [cur] -> le_id e ∉ removed approve P -> seg_ok w b e seg -> seg_ok w1 b e seg) /\
    (forall i, disk w1 !! i = if decide (i ∈ removed approve P) then None else disk w !! i).
Proof.
  intros Hi Hios Hs Hpd Hun. destruct (front_ids _ _ _ Hi) as [_ Hnd].
  assert (NoDup (le_id <$> P)) as HnP by (eapply sublist_NoDup; [exact Hnd|by apply fmap_sublist]).
  assert (map_to_list (queued P) ≡ₚ id_ptr <$> P) as Hperm.
  { apply map_to_list_to_map. by rewrite <- list_fmap_compose. }
  destruct (Permutation_map_inv id_ptr _ Hperm) as (P' & HP' & HPP). rewrite Hpd, HP'.
  destruct (mark_pending_spec approve P' ios w Hios) as (w1 & Hrun & Hsame & Hkeep & Hdisk).
  - rewrite <- HPP. pose proof (wi_nodup _ _ _ Hi) as Hn. rewrite fmap_app in Hn. apply NoDup_app in Hn as [Hn _].
    eapply sublist_NoDup; [exact Hn|by apply fmap_sublist].
  - rewrite <- HPP. apply Forall_forall. intros e He. pose proof (wi_front _ _ _ Hi) as Hf.
    rewrite Forall_forall in Hf. apply Hf. by eapply elem_of_sublist.
  - by rewrite <- HPP.
  - exists w1. split; [exact Hrun|]. split; [done|]. split.
    + intros b e seg He Hn. apply Hkeep. intros Hin. apply Hn. apply list_elem_of_fmap in Hin as (x & Hx & Hf).
      apply list_elem_of_filter in Hf as [Ha HxP]. rewrite <- HPP in HxP.
      assert (e = x) as ->.
      { eapply same_ptr; [exact Hi|exact He| |exact Hx]. apply elem_of_app. left. by eapply elem_of_sublist. }
      apply list_elem_of_fmap_2. by apply list_elem_of_filter.
    + intros i. rewrite Hdisk. apply decide_ext. symmetry. by apply removed_perm.
Qed.

(** C37. The cleaner removes exactly the queued segments that are approved:
    when none of those is referenced by a reader, one tick deletes their
    files, drops them from the log and from the queue, and leaves a
    well-formed log of all the other segments with the records they had. *)
Theorem cleaner_keeps_the_rest ios approve w front cur P :
  wal_inv w front cur -> ios_good ios -> P `sublist_of` front -> pendingDeletion w = queued P ->
  Forall (fun e => is_Some (disk w !! le_id e)) P ->
  Forall (fun e => approve (le_id e) = true -> unreferenced w e) P ->
  exists w', cleaner_tick ios (Some approve) w = Ret w' /\
    wal_inv w' (survivors approve P front) cur /\
    pendingDeletion w' = queued (survivors approve P P) /\
    forall i, disk w' !! i = if decide (i ∈ removed approve P) then None else disk w !! i.
Proof.
  intros Hi Hios Hs Hpd Hd Hun.
  destruct (cleaner_pass ios approve w front cur P Hi Hios Hs Hpd Hun) as (w1 & Hrun & Hsame & Hkeep & Hdisk).
  unfold cleaner_tick. rewrite Hrun. cbn [mbind outcome_bind].
  pose proof (sorted_nodup _ (wi_sorted _ _ _ Hi)) as Hnd. destruct (front_ids _ _ _ Hi) as [_ Hndf].
  rewrite Hsame. destruct (cleanup_spec (with_heap (heap w1) (with_disk (disk w1) w)) approve P (front ++ [cur]))
    as (Hsg & Hpd' & Hsnap).
  - eapply sublist_NoDup; [exact Hndf|by apply fmap_sublist].
  - done.
  - intros e He. apply elem_of_app. left. by eapply elem_of_sublist.
  - exact (wi_segments _ _ _ Hi).
  - done.
  - intros e He. cbn [disk with_heap with_disk]. rewrite Hdisk. rewrite Forall_forall in Hd.
    destruct (Hd e He) as [d Hde]. case_decide as Hin; [done|]. rewrite Hde. done.
  - exact (wi_snapshot _ _ _ Hi).
  - rewrite <- Hsame in *. set (w' := CleanupStalePendingSegments w1) in *. rewrite (survivors_snoc _ _ _ _ _ Hi Hs) in Hsg.
    assert (heap w' = heap w1 /\ disk w' = disk w1 /\ currentSegment w' = currentSegment w /\
            wl_maxSegmentSize w' = wl_maxSegmentSize w) as (Hh & Hdk & Hcu & Hmx).
    { unfold w', CleanupStalePendingSegments. rewrite Hsame. by destruct (bool_decide _). }
    assert (Forall (fun e => exists seg, seg_ok w' true e seg) (survivors approve P front)) as Hf.
    { apply Forall_forall. intros e He. apply list_elem_of_filter in He as [Hn He].
      pose proof (wi_front _ _ _ Hi) as Hfr. rewrite Forall_forall in Hfr. destruct (Hfr e He) as (seg & Hok).
      exists seg. apply (seg_ok_frame w1); [by rewrite Hh|rewrite Hmx, Hsame; done|].
      apply Hkeep; [apply elem_of_app; by left|done|done]. }
    assert (exists seg, seg_ok w' false cur seg) as Hc.
    { destruct (wi_cur _ _ _ Hi) as (seg & Hok). exists seg.
      apply (seg_ok_frame w1); [by rewrite Hh|rewrite Hmx, Hsame; done|].
      apply Hkeep; [apply elem_of_app; right; by left| |done].
      assert (cur ∈ survivors approve P (front ++ [cur])) as Hin.
      { rewrite (survivors_snoc _ _ _ _ _ Hi Hs). apply elem_of_app. right. by left. }
      by apply list_elem_of_filter in Hin as [? _]. }
    exists w'. split; [done|]. split; [|split; [done|by rewrite Hdk]].
    assert (survivors approve P front `sublist_of` front) as Hsub by apply sublist_filter.
    apply (wal_inv_restrict w w' front); try done.
    + destruct Hsnap as [[Hw Hnil]|Hsn].
      * rewrite survivors_nil, Hw, Hsame by done. exact (wi_snapshot _ _ _ Hi).
      * rewrite Hsn. apply snapshot_entries; [|done|].
        -- apply Forall_app. split; [|apply Forall_cons; split; [|constructor]].
           ++ eapply Forall_impl; [exact Hf|]. intros e (s & Hok). by eapply ptr_id_ok.
           ++ destruct Hc as (s & Hok). by eapply ptr_id_ok.
        -- eapply sorted_sublist; [|exact (wi_sorted _ _ _ Hi)]. apply fmap_sublist. by apply sublist_app.
    + intros i _ Hn. rewrite Hdk, Hdisk. by case_decide.
Qed.

(** A log whose oldest segment is queued, unreferenced and on disk. *)
Lemma cleaner_demo : exists w e front cur,
  wal_inv w (e :: front) cur /\ pendingDeletion w = queued [e] /\ is_Some (disk w !! le_id e) /\ unreferenced w e.
Proof.
  destruct retention_demo as (w & [|e front] & cur & Hi & Hlen); [done|].
  pose proof (wi_front _ _ _ Hi) as Hf. apply Forall_cons in Hf as [(seg & Hok) _].
  assert (wal_inv (store (le_ptr e) (set_refCount 0 seg) w) (e :: front) cur) as Hi1
    by (eapply wal_inv_readers; [done|by left|done|by destruct seg]).
  apply (wal_inv_policy _ _ _ 0 1 2 (queued [e])) in Hi1. set (w1 := with_pendingDeletion _ _) in Hi1.
  assert (heap w1 !! le_ptr e = Some (set_refCount 0 seg)) as Hh
    by exact (store_lookup w (le_ptr e) (set_refCount 0 seg) seg (so_heap _ _ _ _ Hok)).
  assert (pendingDeletion w1 = queued [e]) as Hpd by reflexivity. clearbody w1.
  assert (le_id e < le_id cur) as Hlt.
  { pose proof (wi_sorted _ _ _ Hi) as Hs. inversion Hs as [|? ? _ Hall]; subst.
    rewrite fmap_app in Hall. apply Forall_app in Hall as [_ Hall]. by apply Forall_cons in Hall as [? _]. }
  exists (with_disk (<[le_id e := [Byte.x00]]> (disk w1)) w1), e, front, cur. split; [|split; [done|split]].
  - eapply (wal_inv_restrict w1 _ _ _ (e :: front)); [done..| | | | | | |].
    + eapply Forall_impl; [exact (wi_front _ _ _ Hi1)|]. intros x (s & Hs). exists s. by apply (seg_ok_frame w1).
    + destruct (wi_cur _ _ _ Hi1) as (s & Hs). exists s. by apply (seg_ok_frame w1).
    + done.
    + done.
    + cbn [segments with_disk]. exact (wi_segments _ _ _ Hi1).
    + cbn [segmentSnapshot with_disk]. exact (wi_snapshot _ _ _ Hi1).
    + intros i Hi2 Hn. cbn [disk with_disk]. by rewrite lookup_insert_ne by lia.
  - cbn. rewrite lookup_insert_eq. by eexists.
  - by exists (set_refCount 0 seg).
Qed.

Lemma cleaner_keeps_the_rest_witness : exists w e w' front cur,
  cleaner_tick good_ios (Some (fun _ => true)) w = Ret w' /\
  wal_inv w' (survivors (fun _ => true) [e] (e :: front)) cur /\ disk w' !! le_id e = None.
Proof.
  destruct cleaner_demo as (w & e & front & cur & Hi & Hpd & Hd & Hun).
  destruct (cleaner_keeps_the_rest good_ios (fun _ => true) w (e :: front) cur [e] Hi good_ios_good
    ltac:(apply sublist_skip, sublist_nil_l) Hpd ltac:(apply Forall_cons; split; [exact Hd|constructor])
    ltac:(apply Forall_cons; split; [intros _; exact Hun|constructor])) as (w' & H1 & H2 & _ & H4).
  exists w, e, w', front, cur. split; [exact H1|]. split; [exact H2|].
  rewrite H4, decide_True; [reflexivity|]. cbn. by left.
Defined.
