(* ===== verification/KeyCodec.v ===== *)
(** Storage keys of the memory table and the engine: internal/keycodec/keycodec.go.

    A key is a type byte, and for wide-column cells and blob chunks a
    big-endian length that says where the row (or blob id) ends.  The file
    proves that untyped keys are never confused: the constructors are
    injective and their images are disjoint, and the keys that have a row's
    prefix are exactly the cells of the row. *)

From stdpp Require Import prelude list numbers.
From Stdlib Require Import ZArith Lia.
From S2P Require Import Prelude Bytes.

(** ** Definitions *)

Definition KeyTypeKV : byte := Byte.xfe.
Definition KeyTypeWideColumn : byte := Byte.xfd.
Definition KeyTypeBlobChunk : byte := Byte.xff.
Definition KeyTypeSystem : byte := Byte.xfc.

Variant KeyKind := KeyKindUnknown | KeyKindKV | KeyKindWideColumn | KeyKindBlobChunk | KeyKindSystem.

Definition ParseKeyKind (key : bytes) : KeyKind :=
  match key with
  | [] => KeyKindUnknown
  | b :: _ =>
      if bool_decide (b = KeyTypeKV) then KeyKindKV
      else if bool_decide (b = KeyTypeWideColumn) then KeyKindWideColumn
      else if bool_decide (b = KeyTypeBlobChunk) then KeyKindBlobChunk
      else if bool_decide (b = KeyTypeSystem) then KeyKindSystem
      else KeyKindUnknown
  end.

(** [len(k) > 0 && k[0] == t] *)
Definition typed (t : byte) (k : bytes) : bool :=
  match k with [] => false | b :: _ => bool_decide (b = t) end.

Definition KeyKV (k : bytes) : bytes :=
  if typed KeyTypeKV k then k else KeyTypeKV :: k.

(** The length field, [binary.BigEndian.PutUint32(b[1:], uint32(len(row)))]. *)
Definition len_be (row : bytes) : bytes := be_bytes 4 (u32 (blen row)).

Definition RowKey (row : bytes) : bytes :=
  if typed KeyTypeWideColumn row then row
  else KeyTypeWideColumn :: len_be row ++ row.

Definition KeyColumn (row col : bytes) : bytes :=
  KeyTypeWideColumn :: len_be row ++ row ++ col.

Definition KeyBlobChunk (blobID : bytes) (chunk : Z) : bytes :=
  if typed KeyTypeBlobChunk blobID then blobID
  else KeyTypeBlobChunk :: len_be blobID ++ blobID ++ be_bytes 4 (u32 chunk).

Definition KeySystem (name : bytes) : bytes := KeyTypeSystem :: name.

(** ** Lengths are self-delimiting *)

Definition short (row : bytes) : Prop := blen row < 2 ^ 32.

Lemma length_len_be row : length (len_be row) = 4%nat.
Proof. apply length_be_bytes. Qed.

Lemma len_be_inj row row' : short row -> short row' -> len_be row = len_be row' -> blen row = blen row'.
Proof.
  unfold short, len_be. intros H1 H2 H. pose proof (blen_nonneg row). pose proof (blen_nonneg row').
  rewrite !u32_small in H by lia. apply be_bytes_inj in H; [done|cbn; lia..].
Qed.

Lemma delimited_inj row row' rest rest' : short row -> short row' ->
  len_be row ++ row ++ rest = len_be row' ++ row' ++ rest' -> row = row' /\ rest = rest'.
Proof.
  intros H1 H2 H. apply app_inj_1 in H as [Hl H]; [|by rewrite !length_len_be].
  apply len_be_inj in Hl; [|done..]. apply app_inj_1 in H; [done|]. unfold blen in Hl. lia.
Qed.

Lemma chunk_inj c c' : 0 <= c < 2 ^ 32 -> 0 <= c' < 2 ^ 32 ->
  be_bytes 4 (u32 c) = be_bytes 4 (u32 c') -> c = c'.
Proof. intros H1 H2 H. rewrite !u32_small in H by lia. apply be_bytes_inj in H; [done|cbn; lia..]. Qed.

(** [bytes.HasPrefix] *)
Definition HasPrefix (k p : bytes) : bool := bool_decide (take (length p) k = p).

Lemma HasPrefix_spec k p : HasPrefix k p = true <-> exists s, k = p ++ s.
Proof.
  unfold HasPrefix. rewrite bool_decide_eq_true. split.
  - intros H. exists (drop (length p) k). rewrite <- H at 1. by rewrite take_drop.
  - intros [s ->]. by rewrite take_app_length.
Qed.

(** What a user key is, once a constructor has been applied to it. *)
Inductive user_key :=
| UKV (k : bytes)
| UCell (row col : bytes)
| UChunk (blob : bytes) (chunk : Z)
| USystem (name : bytes).

Definition encode_key (u : user_key) : bytes :=
  match u with
  | UKV k => KeyKV k
  | UCell row col => KeyColumn row col
  | UChunk blob chunk => KeyBlobChunk blob chunk
  | USystem name => KeySystem name
  end.

Definition kind_of (u : user_key) : KeyKind :=
  match u with
  | UKV _ => KeyKindKV
  | UCell _ _ => KeyKindWideColumn
  | UChunk _ _ => KeyKindBlobChunk
  | USystem _ => KeyKindSystem
  end.

(** The keys the format is meant for: no type byte of their own, and
    lengths and chunk numbers that fit their fields. *)
Definition plain (u : user_key) : Prop :=
  match u with
  | UKV k => typed KeyTypeKV k = false
  | UCell row _ => short row
  | UChunk blob chunk => typed KeyTypeBlobChunk blob = false /\ short blob /\ 0 <= chunk < 2 ^ 32
  | USystem _ => True
  end.

Lemma encode_kind u : ParseKeyKind (encode_key u) = kind_of u.
Proof.
  destruct u as [k|row col|blob c|name]; cbn [encode_key kind_of]; try done.
  - unfold KeyKV, typed. destruct k as [|b k]; [done|]. case_bool_decide; [|done]. by subst.
  - unfold KeyBlobChunk, typed. destruct blob as [|b k]; [done|]. case_bool_decide; [|done]. by subst.
Qed.

Lemma encode_key_inj u u' : plain u -> plain u' -> encode_key u = encode_key u' -> u = u'.
Proof.
  intros H1 H2 H. pose proof (encode_kind u) as Hk. rewrite H, encode_kind in Hk.
  destruct u as [k|row col|blob c|name], u' as [k'|row' col'|blob' c'|name']; try discriminate Hk;
    cbn [encode_key plain] in *.
  - unfold KeyKV in H. rewrite H1, H2 in H. congruence.
  - apply (f_equal tail), delimited_inj in H as [-> ->]; done.
  - destruct H1 as (H1 & Hs1 & Hc1), H2 as (H2 & Hs2 & Hc2). unfold KeyBlobChunk in H. rewrite H1, H2 in H.
    apply (f_equal tail), delimited_inj in H as [-> Hc]; [|done..]. apply chunk_inj in Hc as ->; done.
  - unfold KeySystem in H. congruence.
Qed.

Lemma row_prefix row row' col : short row -> short row' -> typed KeyTypeWideColumn row = false ->
  HasPrefix (KeyColumn row' col) (RowKey row) = true <-> row' = row.
Proof.
  intros H1 H2 Ht. unfold RowKey. rewrite Ht, HasPrefix_spec. unfold KeyColumn. split.
  - intros [s H]. rewrite <- app_comm_cons, <- app_assoc in H. apply (f_equal tail) in H.
    by apply delimited_inj in H as [-> _].
  - intros ->. exists col. by rewrite <- app_comm_cons, <- app_assoc.
Qed.

(** C38. Storage keys are unambiguous: keys without a type byte of their own
    have the same storage key exactly when they are the same key (kind, row,
    column, blob id and chunk number), the kind is read off the storage key,
    and the cells whose storage key starts with a row's prefix are the cells
    of that row, whatever bytes rows and columns contain. *)
Theorem storage_keys_unambiguous u u' :
  plain u -> plain u' ->
  (encode_key u = encode_key u' <-> u = u') /\
  ParseKeyKind (encode_key u) = kind_of u /\
  (forall row row' col, u = UCell row col -> u' = UCell row' col -> typed KeyTypeWideColumn row = false ->
     HasPrefix (encode_key u') (RowKey row) = true <-> row' = row).
Proof.
  intros H1 H2. split; [|split].
  - split; [by apply encode_key_inj|by intros ->].
  - apply encode_kind.
  - intros row row' col -> -> Ht. cbn in *. by apply row_prefix.
Qed.

Lemma storage_keys_unambiguous_witness :
  encode_key (UCell [Byte.x01] [Byte.x02]) <> encode_key (UCell [Byte.x01; Byte.x02] []).
Proof.
  intros H. destruct (storage_keys_unambiguous (UCell [Byte.x01] [Byte.x02]) (UCell [Byte.x01; Byte.x02] [])
    ltac:(by vm_compute) ltac:(by vm_compute)) as [[Hi _] _]. discriminate (Hi H).
Defined.
