(* ===== verification/KVKeys.v ===== *)
(** Storage keys of the key-value drivers: pkg/kvdrivers/util.go.

    The drivers accept both raw keys and keys that carry their type byte
    already (the engine passes those).  The constructors are those of the
    engine except that [KeyColumn] extends a typed row key, and that
    [KeyBlobChunk] passes a typed blob id through only for chunk zero. *)

From stdpp Require Import prelude list numbers.
From Stdlib Require Import ZArith Lia.
From S2P Require Import Prelude Bytes KeyCodec.

Definition KeyKV (k : bytes) : bytes :=
  if typed KeyTypeKV k then k else KeyTypeKV :: k.

Definition RowKey (row : bytes) : bytes :=
  if typed KeyTypeWideColumn row then row
  else KeyTypeWideColumn :: len_be row ++ row.

Definition KeyColumn (row col : bytes) : bytes :=
  if typed KeyTypeWideColumn row then row ++ col
  else KeyTypeWideColumn :: len_be row ++ row ++ col.

Definition KeyBlobChunk (blobID : bytes) (chunk : Z) : bytes :=
  if typed KeyTypeBlobChunk blobID && (chunk =? 0) then blobID
  else KeyTypeBlobChunk :: len_be blobID ++ blobID ++ be_bytes 4 (u32 chunk).

Definition KeySystem (name : bytes) : bytes := KeyTypeSystem :: name.

Definition ParseKeyKind (key : bytes) : KeyKind :=
  match key with
  | [] => KeyKindUnknown
  | t :: _ =>
      if bool_decide (t = KeyTypeKV) then KeyKindKV
      else if bool_decide (t = KeyTypeWideColumn) then KeyKindWideColumn
      else if bool_decide (t = KeyTypeBlobChunk) then KeyKindBlobChunk
      else if bool_decide (t = KeyTypeSystem) then KeyKindSystem
      else KeyKindUnknown
  end.

(** The kind of every key the constructors make is known. *)
Lemma ParseKeyKind_keys k col chunk :
  ParseKeyKind (KeyKV k) = KeyKindKV /\ ParseKeyKind (RowKey k) = KeyKindWideColumn /\ ParseKeyKind (KeyColumn k col) = KeyKindWideColumn /\
  ParseKeyKind (KeyBlobChunk k chunk) = KeyKindBlobChunk /\ ParseKeyKind (KeySystem k) = KeyKindSystem.
Proof.
  assert (forall t l, typed t l = true -> exists l', l = t :: l') as Ht.
  { intros t [|x l]; unfold typed; [done|]. intros Hx. apply bool_decide_eq_true in Hx as ->. by eexists. }
  unfold KeyKV, RowKey, KeyColumn, KeyBlobChunk. repeat split; try done.
  - destruct (typed KeyTypeKV k) eqn:E; [|done]. by destruct (Ht _ _ E) as [l' ->].
  - destruct (typed KeyTypeWideColumn k) eqn:E; [|done]. by destruct (Ht _ _ E) as [l' ->].
  - destruct (typed KeyTypeWideColumn k) eqn:E; [|done]. by destruct (Ht _ _ E) as [l' ->].
  - destruct (typed KeyTypeBlobChunk k) eqn:E; [|done]. destruct (Ht _ _ E) as [l' ->]. by destruct (chunk =? 0).
Qed.

(** ** Typed keys pass through *)

Lemma KeyKV_idem k : KeyKV (KeyCodec.KeyKV k) = KeyCodec.KeyKV k.
Proof. unfold KeyKV, KeyCodec.KeyKV. destruct (typed KeyTypeKV k) eqn:E; [by rewrite E|done]. Qed.

Lemma RowKey_typed row : typed KeyTypeWideColumn (RowKey row) = true.
Proof. unfold RowKey. by destruct (typed KeyTypeWideColumn row) eqn:E. Qed.

Lemma RowKey_idem row : RowKey (RowKey row) = RowKey row.
Proof. unfold RowKey at 1. by rewrite RowKey_typed. Qed.

(** A cell's key is its row's key followed by the column, for typed and
    untyped rows. *)
Lemma KeyColumn_RowKey row col : KeyColumn row col = RowKey row ++ col.
Proof.
  unfold KeyColumn, RowKey. destruct (typed KeyTypeWideColumn row); [done|].
  by rewrite <- app_comm_cons, <- app_assoc.
Qed.

Lemma KeyColumn_typed row col : KeyColumn (RowKey row) col = KeyColumn row col.
Proof. by rewrite !KeyColumn_RowKey, RowKey_idem. Qed.

(** ** Blob chunks *)

(** The chunks of one blob have different keys. *)
Lemma chunk_key_inj key i j : 0 < i < 2 ^ 32 -> 0 < j < 2 ^ 32 ->
  KeyBlobChunk key i = KeyBlobChunk key j -> i = j.
Proof.
  intros Hi Hj H. unfold KeyBlobChunk in H. rewrite !andb_false_intro2 in H by lia.
  apply (f_equal tail) in H. cbn [tail] in H. rewrite !app_assoc in H.
  apply app_inj_2 in H as [_ H]; [|by rewrite !length_be_bytes]. apply chunk_inj in H; [done|lia..].
Qed.

(** A chunk's key is not the key of the metadata, for untyped and typed ids. *)
Lemma chunk_key_not_meta key i : typed KeyTypeBlobChunk key = false -> 0 < i < 2 ^ 32 ->
  KeyBlobChunk key i <> KeyBlobChunk key 0.
Proof.
  intros Ht Hi H. unfold KeyBlobChunk in H. rewrite Ht in H. cbn [andb] in H.
  apply (f_equal tail) in H. cbn [tail] in H. rewrite !app_assoc in H.
  apply app_inj_2 in H as [_ H]; [|by rewrite !length_be_bytes].
  apply chunk_inj in H; lia.
Qed.

Lemma chunk_key_longer key i : typed KeyTypeBlobChunk key = true -> 0 < i ->
  KeyBlobChunk key i <> KeyBlobChunk key 0.
Proof.
  intros Ht Hi H. unfold KeyBlobChunk in H. rewrite Ht in H. cbn [andb] in H.
  replace (i =? 0) with false in H by lia. rewrite Z.eqb_refl in H.
  apply (f_equal length) in H. rewrite length_cons, !length_app in H. lia.
Qed.
