(* ===== verification/KVStore.v ===== *)
(** What the drivers need of their storage libraries.

    bbolt and LMDB are not part of the repository: the drivers are
    parameterised by the operations they call ([BoltBucket], [LmdbTxn]), and
    the laws the drivers rely on are the documented behaviour of those calls
    ([BoltLaws], [LmdbLaws]): a bucket is a finite map from keys to values
    whose cursors visit the keys in byte order.  The map [gmap bytes bytes]
    itself is an instance of all four classes. *)

From stdpp Require Import prelude list numbers gmap sorting.
From Stdlib Require Import ZArith Lia.
From S2P Require Import Prelude Bytes KeyCodec.

(** ** The byte order of keys, [bytes.Compare] *)

Fixpoint bytes_leb (a b : bytes) : bool :=
  match a, b with
  | [], _ => true
  | _ :: _, [] => false
  | x :: a', y :: b' =>
      if u8 x <? u8 y then true else if u8 y <? u8 x then false else bytes_leb a' b'
  end.

Definition bytes_le (a b : bytes) : Prop := bytes_leb a b = true.
Definition bytes_lt (a b : bytes) : Prop := bytes_leb b a = false.

#[global] Instance bytes_le_dec a b : Decision (bytes_le a b) := decide (bytes_leb a b = true).
#[global] Instance bytes_lt_dec a b : Decision (bytes_lt a b) := decide (bytes_leb b a = false).

Lemma bytes_le_refl a : bytes_le a a.
Proof. induction a as [|x a IH]; [done|]. unfold bytes_le. cbn. by rewrite Z.ltb_irrefl. Qed.

Lemma bytes_le_trans a b c : bytes_le a b -> bytes_le b c -> bytes_le a c.
Proof.
  unfold bytes_le. revert b c. induction a as [|x a IH]; intros [|y b] [|z c]; cbn; try done.
  destruct (Z.ltb_spec (u8 x) (u8 y)), (Z.ltb_spec (u8 y) (u8 x)), (Z.ltb_spec (u8 y) (u8 z)),
    (Z.ltb_spec (u8 z) (u8 y)), (Z.ltb_spec (u8 x) (u8 z)), (Z.ltb_spec (u8 z) (u8 x));
    try done; try lia. apply IH.
Qed.

Lemma bytes_le_antisym a b : bytes_le a b -> bytes_le b a -> a = b.
Proof.
  unfold bytes_le. revert b. induction a as [|x a IH]; intros [|y b]; cbn; try done.
  destruct (Z.ltb_spec (u8 x) (u8 y)), (Z.ltb_spec (u8 y) (u8 x)); try done; try lia.
  intros H1 H2. rewrite (u8_inj x y) by lia. f_equal. by apply IH.
Qed.

Lemma bytes_le_total a b : bytes_le a b \/ bytes_le b a.
Proof.
  unfold bytes_le. revert b. induction a as [|x a IH]; intros [|y b]; cbn; auto.
  destruct (Z.ltb_spec (u8 x) (u8 y)), (Z.ltb_spec (u8 y) (u8 x)); try lia; auto.
Qed.

Lemma bytes_lt_le a b : bytes_lt a b -> bytes_le a b.
Proof. unfold bytes_lt, bytes_le. intros H. destruct (bytes_le_total a b) as [?|H2]; [done|]. unfold bytes_le in H2. congruence. Qed.

Lemma bytes_lt_irrefl a : ~ bytes_lt a a.
Proof. unfold bytes_lt. pose proof (bytes_le_refl a) as H. unfold bytes_le in H. congruence. Qed.

Lemma bytes_le_lt_trans a b c : bytes_le a b -> bytes_lt b c -> bytes_lt a c.
Proof.
  unfold bytes_lt. intros H1 H2. destruct (bytes_leb c a) eqn:E; [|done].
  pose proof (bytes_le_trans c a b E H1) as H. unfold bytes_le in H. congruence.
Qed.

Lemma bytes_lt_le_trans a b c : bytes_lt a b -> bytes_le b c -> bytes_lt a c.
Proof.
  unfold bytes_lt. intros H1 H2. destruct (bytes_leb c a) eqn:E; [|done].
  pose proof (bytes_le_trans b c a H2 E) as H. unfold bytes_le in H. congruence.
Qed.

Lemma bytes_le_lt_or_eq a b : bytes_le a b -> a = b \/ bytes_lt a b.
Proof.
  intros H. unfold bytes_lt. destruct (bytes_leb b a) eqn:E; [|by right]. left. by apply bytes_le_antisym.
Qed.

(** Keys with a prefix are contiguous and start at the prefix. *)
Lemma prefix_le p s : bytes_le p (p ++ s).
Proof. unfold bytes_le. induction p as [|x p IH]; cbn; [done|]. by rewrite Z.ltb_irrefl. Qed.

Lemma prefix_between p k1 k2 :
  bytes_le p k1 -> bytes_le k1 k2 -> HasPrefix k2 p = true -> HasPrefix k1 p = true.
Proof.
  rewrite !HasPrefix_spec. intros H1 H2 [s ->]. unfold bytes_le in *. revert k1 H1 H2.
  induction p as [|x p IH]; intros [|y k1] H1 H2; cbn in *; [by eexists..|done|].
  destruct (Z.ltb_spec (u8 x) (u8 y)), (Z.ltb_spec (u8 y) (u8 x)); try done; try lia.
  rewrite (u8_inj x y) by lia. destruct (IH k1 H1 H2) as [s' ->]. by exists s'.
Qed.

(** ** Cursors *)

(** [r] is the entry with the smallest key that satisfies [P]. *)
Definition is_first (m : gmap bytes bytes) (P : bytes -> Prop) (r : option (bytes * bytes)) : Prop :=
  match r with
  | None => forall k, P k -> m !! k = None
  | Some (k, v) => P k /\ m !! k = Some v /\ forall k', P k' -> is_Some (m !! k') -> bytes_le k k'
  end.

Lemma is_first_unique m P r r' : is_first m P r -> is_first m P r' -> r = r'.
Proof.
  destruct r as [[k v]|], r' as [[k' v']|]; cbn.
  - intros (H1 & H2 & H3) (H1' & H2' & H3').
    assert (k = k') as <- by (apply bytes_le_antisym; [apply H3|apply H3']; eauto). congruence.
  - intros (H1 & H2 & _) H. specialize (H _ H1). congruence.
  - intros H (H1 & H2 & _). specialize (H _ H1). congruence.
  - done.
Qed.

(** The entries a cursor meets from [cur] on while the prefix lasts. *)
Inductive walk (m : gmap bytes bytes) (p : bytes) : option (bytes * bytes) -> list (bytes * bytes) -> Prop :=
| walk_end : walk m p None []
| walk_out k v : HasPrefix k p = false -> walk m p (Some (k, v)) []
| walk_in k v nxt L :
    HasPrefix k p = true -> is_first m (bytes_lt k) nxt -> walk m p nxt L ->
    walk m p (Some (k, v)) ((k, v) :: L).

(** The entries of [m] under a prefix. *)
Definition under (p : bytes) (m : gmap bytes bytes) : gmap bytes bytes :=
  filter (fun kv => HasPrefix kv.1 p = true) m.
Definition outside (p : bytes) (m : gmap bytes bytes) : gmap bytes bytes :=
  filter (fun kv => HasPrefix kv.1 p = false) m.

Lemma lookup_under p m k : under p m !! k = if HasPrefix k p then m !! k else None.
Proof.
  unfold under. destruct (m !! k) as [v|] eqn:E; destruct (HasPrefix k p) eqn:Hp.
  - by apply map_lookup_filter_Some.
  - apply map_lookup_filter_None. right. intros x Hx. cbn. by rewrite Hp.
  - apply map_lookup_filter_None. by left.
  - apply map_lookup_filter_None. by left.
Qed.

Lemma lookup_outside p m k : outside p m !! k = if HasPrefix k p then None else m !! k.
Proof.
  unfold outside. destruct (m !! k) as [v|] eqn:E; destruct (HasPrefix k p) eqn:Hp.
  - apply map_lookup_filter_None. right. intros x Hx. cbn. by rewrite Hp.
  - by apply map_lookup_filter_Some.
  - apply map_lookup_filter_None. by left.
  - apply map_lookup_filter_None. by left.
Qed.

Definition above (k : bytes) (m : gmap bytes bytes) : gmap bytes bytes :=
  filter (fun kv => bytes_lt k kv.1) m.

Lemma lookup_above k m k' v : above k m !! k' = Some v <-> m !! k' = Some v /\ bytes_lt k k'.
Proof. unfold above. by rewrite map_lookup_filter_Some. Qed.

Lemma above_smaller m k k1 v1 : bytes_lt k k1 -> m !! k1 = Some v1 -> (size (above k1 m) < size (above k m))%nat.
Proof.
  intros Hlt Hk1. apply map_subset_size. split.
  - apply map_subseteq_spec. intros k' v' H. apply lookup_above in H as [H1 H2]. apply lookup_above.
    split; [done|]. eapply bytes_lt_le_trans; [exact Hlt|by apply bytes_lt_le].
  - intros H. rewrite map_subseteq_spec in H. specialize (H k1 v1 (proj2 (lookup_above k m k1 v1) (conj Hk1 Hlt))).
    apply lookup_above in H as [_ H]. by apply bytes_lt_irrefl in H.
Qed.

Section walking.
Context (m : gmap bytes bytes) (p : bytes) (next : bytes -> option (bytes * bytes)).
Context (next_ok : forall k, is_first m (bytes_lt k) (next k)).

(** What a list of entries must be to be the entries from [k] on. *)
Definition entries_from (k : bytes) (L : list (bytes * bytes)) : Prop :=
  NoDup L.*1 /\
  forall k' v', (k', v') ∈ L <-> m !! k' = Some v' /\ HasPrefix k' p = true /\ bytes_le k k'.

Lemma entries_from_none k v : m !! k = Some v -> HasPrefix k p = true ->
  (forall k', bytes_lt k k' -> m !! k' = None) -> entries_from k [(k, v)].
Proof.
  intros Hk Hp Hnone. split; [apply NoDup_singleton|]. intros k' v'. rewrite list_elem_of_singleton. split.
  - intros [= -> ->]. eauto using bytes_le_refl.
  - intros (H1 & H2 & H3). destruct (bytes_le_lt_or_eq _ _ H3) as [<-|Hlt]; [congruence|].
    rewrite Hnone in H1; done.
Qed.

Lemma entries_from_cons k v k1 v1 L : m !! k = Some v -> HasPrefix k p = true ->
  is_first m (bytes_lt k) (Some (k1, v1)) -> entries_from k1 L -> entries_from k ((k, v) :: L).
Proof.
  intros Hk Hp (Hlt & Hk1 & Hmin) [Hnd Hin]. split.
  - cbn. constructor; [|done]. intros Hc. apply list_elem_of_fmap in Hc as ([k' v'] & Heq & Hc).
    cbn in Heq. subst k'. apply Hin in Hc as (_ & _ & Hle). unfold bytes_lt, bytes_le in *. congruence.
  - intros k' v'. rewrite elem_of_cons, Hin. split.
    + intros [[= -> ->]|(H1 & H2 & H3)]; [eauto using bytes_le_refl|]. repeat split; [done..|].
      eapply bytes_le_trans; [by apply bytes_lt_le|done].
    + intros (H1 & H2 & H3). destruct (bytes_le_lt_or_eq _ _ H3) as [<-|Hlt']; [left; congruence|].
      right. repeat split; [done..|]. apply Hmin; eauto.
Qed.

Lemma walk_from n : forall k v, (size (above k m) < n)%nat -> m !! k = Some v -> bytes_le p k ->
  exists L, walk m p (Some (k, v)) L /\ (length L <= n)%nat /\ entries_from k L.
Proof.
  induction n as [|n IH]; intros k v Hn Hk Hp; [lia|].
  destruct (HasPrefix k p) eqn:Hpre.
  2: { exists []. split; [by constructor|]. split; [cbn; lia|]. split; [constructor|].
       intros k' v'. split; [intros H; by apply not_elem_of_nil in H|]. intros (H1 & H2 & H3).
       rewrite (prefix_between p k k' Hp H3 H2) in Hpre. done. }
  pose proof (next_ok k) as Hf. destruct (next k) as [[k1 v1]|].
  - pose proof Hf as (Hlt & Hk1 & Hmin).
    destruct (IH k1 v1) as (L & HL & Hlen & Hin); [|done|eapply bytes_le_trans; [exact Hp|by apply bytes_lt_le]|].
    { pose proof (above_smaller m k k1 v1 Hlt Hk1). lia. }
    exists ((k, v) :: L). split; [by eapply walk_in|]. split; [cbn; lia|]. by eapply entries_from_cons.
  - exists [(k, v)]. split; [eapply walk_in; [done|exact Hf|constructor]|]. split; [cbn; lia|].
    by apply entries_from_none.
Qed.

(** A walk that starts by seeking the prefix meets exactly the entries under it. *)
Lemma walk_prefix r : is_first m (bytes_le p) r ->
  exists L, walk m p r L /\ (length L <= S (size m))%nat /\ NoDup L.*1 /\ list_to_map L = under p m.
Proof.
  intros Hr. assert (exists L, walk m p r L /\ (length L <= S (size m))%nat /\ NoDup L.*1 /\
    forall k' v', (k', v') ∈ L <-> m !! k' = Some v' /\ HasPrefix k' p = true) as (L & HL & Hlen & Hnd & Hin).
  { destruct r as [[k v]|].
    - destruct Hr as (Hle & Hk & Hmin). destruct (walk_from (S (size m)) k v) as (L & HL & Hlen & Hnd & Hin); [|done..|].
      { apply Nat.lt_succ_r. apply map_subseteq_size, map_filter_subseteq. }
      exists L. split; [done|]. split; [done|]. split; [done|]. intros k' v'. rewrite Hin. split; [tauto|].
      intros (H1 & H2). split; [done|]. split; [done|].
      apply Hmin; [|by eexists]. apply HasPrefix_spec in H2 as [s ->]. apply prefix_le.
    - exists []. split; [constructor|]. split; [cbn; lia|]. split; [constructor|]. intros k' v'.
      split; [intros H; by apply not_elem_of_nil in H|]. intros (H1 & H2). cbn in Hr. rewrite Hr in H1; [done|].
      apply HasPrefix_spec in H2 as [s ->]. apply prefix_le. }
  exists L. repeat split; [done..|]. apply map_eq. intros k. apply option_eq. intros v.
  rewrite lookup_under, <- elem_of_list_to_map by done. rewrite Hin.
  destruct (HasPrefix k p); naive_solver.
Qed.
End walking.

(** ** bbolt *)

(** Errors that come from the storage library, by number. *)
Definition lib_error := Z.

(** A bucket inside a transaction.  A cursor is the key it stands on. *)
Class BoltBucket (B : Type) := {
  b_Get : B -> bytes -> option bytes;
  b_Put : B -> bytes -> bytes -> B * option lib_error;
  b_Delete : B -> bytes -> B * option lib_error;
  b_Seek : B -> bytes -> option (bytes * bytes);
  b_Next : B -> bytes -> option (bytes * bytes)
}.

(** "Get retrieves the value for a key in the bucket. Returns a nil value if
    the key does not exist"; "Put sets the value for a key in the bucket";
    "Delete removes a key from the bucket. If the key does not exist then
    nothing is done and a nil error is returned"; cursors go through the keys
    in byte-sorted order. *)
Class BoltLaws (B : Type) `{BoltBucket B} := {
  b_map : B -> gmap bytes bytes;
  b_Get_law b k : b_Get b k = b_map b !! k;
  b_Put_law b k v b' : b_Put b k v = (b', None) -> b_map b' = <[k := v]> (b_map b);
  b_Delete_law b k b' : b_Delete b k = (b', None) -> b_map b' = delete k (b_map b);
  b_Seek_law b k : is_first (b_map b) (bytes_le k) (b_Seek b k);
  b_Next_law b k : is_first (b_map b) (bytes_lt k) (b_Next b k)
}.

(** ** LMDB *)

Variant lmdb_error := NotFound | LmdbErr (e : lib_error).
Definition IsNotFound (e : lmdb_error) : bool := match e with NotFound => true | LmdbErr _ => false end.

(** One database inside a transaction.  A cursor is the key it stands on;
    [l_CursorDel] deletes the entry under the cursor. *)
Class LmdbTxn (T : Type) := {
  l_Get : T -> bytes -> result lmdb_error bytes;
  l_Put : T -> bytes -> bytes -> T * option lmdb_error;
  l_Del : T -> bytes -> T * option lmdb_error;
  l_OpenCursor : T -> option lmdb_error;
  l_SetRange : T -> bytes -> result lmdb_error (bytes * bytes);
  l_Next : T -> bytes -> result lmdb_error (bytes * bytes);
  l_CursorDel : T -> bytes -> T * option lmdb_error
}.

Definition found {A} (r : result lmdb_error A) (o : option A) : Prop :=
  match o with Some a => r = Ok a | None => r = Err NotFound end.

(** [mdb_get], [mdb_put], [mdb_del] on a database without duplicates;
    MDB_SET_RANGE positions at the first key greater than or equal to the
    given one; [mdb_cursor_del] does not invalidate the cursor, and MDB_NEXT
    after it returns the record that follows the deleted one. *)
Class LmdbLaws (T : Type) `{LmdbTxn T} := {
  l_map : T -> gmap bytes bytes;
  l_Get_law t k : found (l_Get t k) (l_map t !! k);
  l_Put_law t k v t' : l_Put t k v = (t', None) -> l_map t' = <[k := v]> (l_map t);
  l_Del_law t k t' : l_Del t k = (t', None) -> l_map t' = delete k (l_map t);
  l_Del_absent t k t' : l_Del t k = (t', Some NotFound) -> l_map t' = l_map t /\ l_map t !! k = None;
  l_SetRange_law t k : exists o, is_first (l_map t) (bytes_le k) o /\ found (l_SetRange t k) o;
  l_Next_law t k : exists o, is_first (l_map t) (bytes_lt k) o /\ found (l_Next t k) o;
  l_CursorDel_law t k t' : l_CursorDel t k = (t', None) -> l_map t' = delete k (l_map t);
  l_CursorDel_absent t k t' : l_CursorDel t k = (t', Some NotFound) -> l_map t' = l_map t /\ l_map t !! k = None
}.

(** ** Finite maps are such stores *)

Definition smaller (x : option (bytes * bytes)) (e : bytes * bytes) : option (bytes * bytes) :=
  match x with
  | None => Some e
  | Some f => if bytes_leb f.1 e.1 then Some f else Some e
  end.

Definition first_of (P : bytes -> Prop) `{forall k, Decision (P k)} (m : gmap bytes bytes) : option (bytes * bytes) :=
  foldl smaller None (filter (fun e => P e.1) (map_to_list m)).

Lemma smaller_spec L : forall x,
  match foldl smaller x L with
  | None => x = None /\ L = []
  | Some e => (x = Some e \/ e ∈ L) /\ (forall f, x = Some f \/ f ∈ L -> bytes_le e.1 f.1)
  end.
Proof.
  induction L as [|e L IH]; intros x; cbn [foldl].
  - destruct x as [f|]; [|done]. split; [by left|]. intros g [[= ->]|H]; [apply bytes_le_refl|by apply not_elem_of_nil in H].
  - specialize (IH (smaller x e)). destruct (foldl smaller (smaller x e) L) as [r|].
    + destruct IH as [H1 H2]. split.
      * destruct H1 as [H1|H1]; [|right; by right]. destruct x as [f|]; cbn in H1.
        -- destruct (bytes_leb f.1 e.1); [by left|]. right. injection H1 as <-. by left.
        -- right. injection H1 as <-. by left.
      * intros g Hg. destruct x as [f|].
        -- cbn in H2. destruct (bytes_leb f.1 e.1) eqn:E.
           ++ destruct Hg as [[= <-]|Hg]; [apply H2; by left|]. apply elem_of_cons in Hg as [->|Hg]; [|apply H2; by right].
              eapply bytes_le_trans; [apply H2; by left|exact E].
           ++ destruct Hg as [[= <-]|Hg].
              ** eapply bytes_le_trans; [apply H2; by left|]. by apply bytes_lt_le.
              ** apply elem_of_cons in Hg as [->|Hg]; apply H2; auto.
        -- destruct Hg as [Hg|Hg]; [done|]. apply elem_of_cons in Hg as [->|Hg]; apply H2; auto.
    + destruct IH as [H1 _]. destruct x as [f|]; cbn in H1; [by destruct (bytes_leb _ _)|done].
Qed.

Lemma first_of_spec P `{forall k, Decision (P k)} m : is_first m P (first_of P m).
Proof.
  unfold first_of. pose proof (smaller_spec (filter (fun e => P e.1) (map_to_list m)) None) as Hs.
  destruct (foldl smaller None _) as [[k v]|]; cbn.
  - destruct Hs as [[?|Hin] Hmin]; [done|]. apply list_elem_of_filter in Hin as [HP Hin].
    apply elem_of_map_to_list in Hin. split; [done|]. split; [done|]. intros k' Hk' [v' Hv'].
    apply (Hmin (k', v')). right. apply list_elem_of_filter. split; [done|]. by apply elem_of_map_to_list.
  - destruct Hs as [_ Hnil]. intros k Hk. destruct (m !! k) as [v|] eqn:E; [|done]. exfalso.
    assert ((k, v) ∈ filter (fun e => P e.1) (map_to_list m)) as Hin.
    { apply list_elem_of_filter. split; [done|]. by apply elem_of_map_to_list. }
    rewrite Hnil in Hin. by apply not_elem_of_nil in Hin.
Qed.

#[global] Instance map_bucket : BoltBucket (gmap bytes bytes) := {
  b_Get m k := m !! k;
  b_Put m k v := (<[k := v]> m, None);
  b_Delete m k := (delete k m, None);
  b_Seek m k := first_of (bytes_le k) m;
  b_Next m k := first_of (bytes_lt k) m
}.

#[global] Program Instance map_bucket_laws : BoltLaws (gmap bytes bytes) := { b_map m := m }.
Solve Obligations with cbn; first [done | congruence | intros; apply first_of_spec].

Definition or_not_found {A} (o : option A) : result lmdb_error A :=
  match o with Some a => Ok a | None => Err NotFound end.

#[global] Instance map_txn : LmdbTxn (gmap bytes bytes) := {
  l_Get m k := or_not_found (m !! k);
  l_Put m k v := (<[k := v]> m, None);
  l_Del m k := match m !! k with Some _ => (delete k m, None) | None => (m, Some NotFound) end;
  l_OpenCursor _ := None;
  l_SetRange m k := or_not_found (first_of (bytes_le k) m);
  l_Next m k := or_not_found (first_of (bytes_lt k) m);
  l_CursorDel m k := match m !! k with Some _ => (delete k m, None) | None => (m, Some NotFound) end
}.

#[global] Program Instance map_txn_laws : LmdbLaws (gmap bytes bytes) := { l_map m := m }.
Next Obligation. intros m k. cbn. by destruct (m !! k). Qed.
Next Obligation. cbn. congruence. Qed.
Next Obligation. intros m k m' H. cbn in *. by case_match; simplify_eq. Qed.
Next Obligation. intros m k m' H. cbn in *. by case_match; simplify_eq. Qed.
Next Obligation. intros m k. cbn. eexists. split; [apply first_of_spec|]. by destruct (first_of _ _). Qed.
Next Obligation. intros m k. cbn. eexists. split; [apply first_of_spec|]. by destruct (first_of _ _). Qed.
Next Obligation. intros m k m' H. cbn in *. by case_match; simplify_eq. Qed.
Next Obligation. intros m k m' H. cbn in *. by case_match; simplify_eq. Qed.

(** ** Shared pieces of the drivers *)

(** common.go *)
Definition chunkedValue : byte := Byte.xff.

Inductive kv_error :=
| ErrInvalidArguments
| ErrBucketNotFound
| ErrInvalidChunkMetadata
| ErrKeyNotFound
| ErrEmptyChunks
| ErrChunkMissing (i : Z)
| ErrLib (e : lib_error).

(** What the library answers when a transaction begins and commits. *)
Record TxIO := mkTxIO { tx_begin : option lib_error; tx_commit : option lib_error }.
Definition okTx : TxIO := mkTxIO None None.

(** [for _, x := range xs { if err := f(x); err != nil { return err } }] *)
Fixpoint for_each {X S} (f : X -> S -> outcome (S * option kv_error)) (xs : list X) (s : S)
  : outcome (S * option kv_error) :=
  match xs with
  | [] => Ret (s, None)
  | x :: rest =>
      '(s, e) ← f x s;
      match e with
      | Some e => Ret (s, Some e)
      | None => for_each f rest s
      end
  end.

(** The metadata of a chunked value: flag, number of chunks, checksum. *)
Definition chunk_metadata (chunkCount checksum : Z) : bytes :=
  chunkedValue :: le_bytes 4 (u32 chunkCount) ++ le_bytes 4 (u32 checksum).

(** A row's columns, in the order in which the map is ranged over. *)
Definition columns := list (bytes * bytes).
