(* ===== verification/KVBolt.v ===== *)
(** The bbolt driver: pkg/kvdrivers/bolt.go.

    Every operation runs in one transaction: an error of the function, of the
    beginning or of the commit leaves the database as it was. *)

From stdpp Require Import prelude list numbers gmap.
From Stdlib Require Import ZArith Lia.
From S2P Require Import Prelude Bytes KeyCodec KVKeys KVStore.

Section bolt.
Context {B : Type} `{BoltBucket B}.

(** The buckets of the database file: the namespace's and the system's. *)
Record BoltDB := mkBoltDB { bd_namespace : option B; bd_system : option B }.

(** [db.Update] with the lookup of the namespace's bucket every operation starts with. *)
Definition Update {A} (io : TxIO) (db : BoltDB) (a0 : A) (fn : B -> outcome (B * A * option kv_error))
  : outcome (BoltDB * A * option kv_error) :=
  match tx_begin io with
  | Some e => Ret (db, a0, Some (ErrLib e))
  | None =>
      match bd_namespace db with
      | None => Ret (db, a0, Some ErrBucketNotFound)
      | Some bucket =>
          '(bucket, a, err) ← fn bucket;
          match err with
          | Some e => Ret (db, a, Some e)
          | None =>
              match tx_commit io with
              | Some e => Ret (db, a, Some (ErrLib e))
              | None => Ret (mkBoltDB (Some bucket) (bd_system db), a, None)
              end
          end
      end
  end.

Definition Update_ (io : TxIO) (db : BoltDB) (fn : B -> outcome (B * option kv_error))
  : outcome (BoltDB * option kv_error) :=
  '(db, _, e) ← Update io db tt (fun b => '(b, e) ← fn b; Ret (b, tt, e)); Ret (db, e).

(** [db.View] on the namespace's bucket. *)
Definition View {A} (io : TxIO) (db : BoltDB) (fn : B -> outcome (result kv_error A)) : outcome (result kv_error A) :=
  match tx_begin io with
  | Some e => Ret (Err (ErrLib e))
  | None =>
      match bd_namespace db with
      | None => Ret (Err ErrBucketNotFound)
      | Some bucket => fn bucket
      end
  end.

Definition Put (b : B) (k v : bytes) : outcome (B * option kv_error) :=
  let '(b, e) := b_Put b k v in Ret (b, ErrLib <$> e).
Definition Delete (b : B) (k : bytes) : outcome (B * option kv_error) :=
  let '(b, e) := b_Delete b k in Ret (b, ErrLib <$> e).

Definition SetKV (io : TxIO) (db : BoltDB) (key value : bytes) : outcome (BoltDB * option kv_error) :=
  Update_ io db (fun bucket => Put bucket (KeyKV key) value).

Definition BatchSetKV (io : TxIO) (db : BoltDB) (keys values : list bytes) : outcome (BoltDB * option kv_error) :=
  if (blen keys =? 0) || (blen values =? 0) || negb (blen keys =? blen values)
  then Ret (db, Some ErrInvalidArguments)
  else Update_ io db (for_each (fun '(key, value) bucket => Put bucket (KeyKV key) value) (zip keys values)).

Definition delete_chunks (key : bytes) (chunkCount : Z) : B -> outcome (B * option kv_error) :=
  for_each (fun i bucket => Delete bucket (KeyBlobChunk key i)) (seqZ 1 chunkCount).

Definition put_chunks (key : bytes) (chunks : list bytes) : B -> outcome (B * option kv_error) :=
  for_each (fun '(i, chunk) bucket => Put bucket (KeyBlobChunk key i) chunk) (zip (seqZ 1 (blen chunks)) chunks).

(** The chunks an older value of the key has left. *)
Definition drop_old_chunks (key : bytes) (bucket : B) : outcome (B * option kv_error) :=
  match b_Get bucket (KeyBlobChunk key 0) with
  | None => Ret (bucket, None)
  | Some [] => Panic
  | Some ((flag :: _) as storedValue) =>
      if bool_decide (flag = chunkedValue) then
        if blen storedValue <? 9 then Ret (bucket, Some ErrInvalidChunkMetadata) else
        chunkCount ← get_u32 storedValue 1;
        delete_chunks key chunkCount bucket
      else Ret (bucket, None)
  end.

Definition SetLobChunks (io : TxIO) (db : BoltDB) (key : bytes) (chunks : list bytes) (checksum : Z)
  : outcome (BoltDB * option kv_error) :=
  Update_ io db (fun bucket =>
    '(bucket, e) ← drop_old_chunks key bucket;
    match e with
    | Some e => Ret (bucket, Some e)
    | None =>
        '(bucket, e) ← put_chunks key chunks bucket;
        match e with
        | Some e => Ret (bucket, Some e)
        | None => Put bucket (KeyBlobChunk key 0) (chunk_metadata (blen chunks) checksum)
        end
    end).

Definition BatchSetCells (io : TxIO) (db : BoltDB) (rowKeys : list bytes) (columnEntriesPerRow : list columns)
  : outcome (BoltDB * option kv_error) :=
  if negb (blen rowKeys =? blen columnEntriesPerRow) then Ret (db, Some ErrInvalidArguments) else
  Update_ io db
    (for_each (fun '(rowKey, columnEntries) bucket =>
       for_each (fun '(entryKey, entryValue) bucket => Put bucket (KeyColumn rowKey entryKey) entryValue)
         columnEntries bucket)
      (zip rowKeys columnEntriesPerRow)).

Definition BatchDeleteCells (io : TxIO) (db : BoltDB) (rowKeys : list bytes) (columnEntriesPerRow : list columns)
  : outcome (BoltDB * option kv_error) :=
  if negb (blen rowKeys =? blen columnEntriesPerRow) then Ret (db, Some ErrInvalidArguments) else
  Update_ io db
    (for_each (fun '(rowKey, columnEntries) bucket =>
       for_each (fun '(entryKey, _) bucket => Delete bucket (KeyColumn rowKey entryKey)) columnEntries bucket)
      (zip rowKeys columnEntriesPerRow)).

(** [for k, _ := c.Seek(pKey); k != nil; k, _ = c.Next()], collecting the
    keys with the prefix.  Nothing is deleted while the cursor moves. *)
Fixpoint collect_keys (fuel : nat) (bucket : B) (pKey : bytes) (cur : option (bytes * bytes)) : outcome (list bytes) :=
  match fuel with
  | O => NoFuel
  | S fuel =>
      match cur with
      | None => Ret []
      | Some (k, _) =>
          if negb (HasPrefix k pKey) then Ret [] else
          ks ← collect_keys fuel bucket pKey (b_Next bucket k);
          Ret (k :: ks)
      end
  end.

(** The state of the loop is the bucket and the number of deleted columns. *)
Definition delete_row (fuel : nat) (rowKey : bytes) (st : B * Z) : outcome (B * Z * option kv_error) :=
  let pKey := RowKey rowKey in
  keys ← collect_keys fuel st.1 pKey (b_Seek st.1 pKey);
  for_each (fun k '(bucket, columnsDeleted) =>
    '(bucket, e) ← Delete bucket k; Ret (bucket, columnsDeleted + 1, e)) keys st.

Definition BatchDeleteRows (fuel : nat) (io : TxIO) (db : BoltDB) (rowKeys : list bytes)
  : outcome (BoltDB * Z * option kv_error) :=
  Update io db 0 (fun bucket => for_each (delete_row fuel) rowKeys (bucket, 0)).

(** The body of [DeleteKV] and of the loop of [BatchDeleteKV]. *)
Definition delete_kv (key : bytes) (bucket : B) : outcome (B * option kv_error) :=
  let typedKey := KeyKV key in
  match b_Get bucket typedKey with
  | None => Ret (bucket, None)
  | Some _ => Delete bucket typedKey
  end.

Definition DeleteKV (io : TxIO) (db : BoltDB) (key : bytes) : outcome (BoltDB * option kv_error) :=
  Update_ io db (delete_kv key).

Definition BatchDeleteKV (io : TxIO) (db : BoltDB) (keys : list bytes) : outcome (BoltDB * option kv_error) :=
  Update_ io db (for_each delete_kv keys).

Definition delete_lob (key : bytes) (bucket : B) : outcome (B * option kv_error) :=
  let typedKey := KeyBlobChunk key 0 in
  match b_Get bucket typedKey with
  | None => Ret (bucket, None)
  | Some storedValue =>
      if blen storedValue <? 9 then Ret (bucket, Some ErrInvalidChunkMetadata) else
      chunkCount ← get_u32 storedValue 1;
      '(bucket, e) ← delete_chunks key chunkCount bucket;
      match e with
      | Some e => Ret (bucket, Some e)
      | None => Delete bucket typedKey
      end
  end.

Definition BatchDeleteLobChunks (io : TxIO) (db : BoltDB) (keys : list bytes) : outcome (BoltDB * option kv_error) :=
  Update_ io db (for_each delete_lob keys).

Definition GetKV (io : TxIO) (db : BoltDB) (key : bytes) : outcome (result kv_error bytes) :=
  View io db (fun bucket =>
    match b_Get bucket (KeyKV key) with
    | None => Ret (Err ErrKeyNotFound)
    | Some storedValue => Ret (Ok storedValue)
    end).

(** The chunks numbered [idx], in order. *)
Fixpoint read_chunks (bucket : B) (key : bytes) (idx : list Z) : outcome (result kv_error (list bytes)) :=
  match idx with
  | [] => Ret (Ok [])
  | i :: rest =>
      match b_Get bucket (KeyBlobChunk key (i + 1)) with
      | None => Ret (Err (ErrChunkMissing i))
      | Some chunkData =>
          r ← read_chunks bucket key rest;
          Ret (match r with Ok cs => Ok (chunkData :: cs) | Err e => Err e end)
      end
  end.

Definition GetLOBChunks (io : TxIO) (db : BoltDB) (key : bytes) : outcome (result kv_error (list bytes)) :=
  View io db (fun bucket =>
    match b_Get bucket (KeyBlobChunk key 0) with
    | None => Ret (Err ErrKeyNotFound)
    | Some storedValue =>
        if blen storedValue <? 9 then Ret (Err ErrInvalidChunkMetadata) else
        chunkCount ← get_u32 storedValue 1;
        read_chunks bucket key (seqZ 0 chunkCount)
    end).

(** The loop of [getColumns]; the bare row key is skipped. *)
Fixpoint columns_loop (fuel : nat) (bucket : B) (prefix : bytes) (flt : bytes -> bool)
    (cur : option (bytes * bytes)) (entries : gmap bytes bytes) : outcome (gmap bytes bytes) :=
  match fuel with
  | O => NoFuel
  | S fuel =>
      match cur with
      | None => Ret entries
      | Some (k, v) =>
          if negb (HasPrefix k prefix) then Ret entries else
          let next := b_Next bucket k in
          if blen k =? blen prefix then columns_loop fuel bucket prefix flt next entries else
          let columnKey := drop (length prefix) k in
          columns_loop fuel bucket prefix flt next
            (if flt columnKey then <[columnKey := v]> entries else entries)
      end
  end.

Definition getColumns (fuel : nat) (bucket : B) (prefix : bytes) (flt : bytes -> bool)
  : outcome (result kv_error (gmap bytes bytes)) :=
  entries ← columns_loop fuel bucket prefix flt (b_Seek bucket prefix) ∅;
  if bool_decide (entries = ∅) then Ret (Err ErrKeyNotFound) else Ret (Ok entries).

Definition ScanRowCells (fuel : nat) (io : TxIO) (db : BoltDB) (rowKey : bytes) (flt : option (bytes -> bool))
  : outcome (result kv_error (gmap bytes bytes)) :=
  let flt := match flt with Some f => f | None => fun _ => true end in
  View io db (fun bucket => getColumns fuel bucket (RowKey rowKey) flt).

Definition GetCell (io : TxIO) (db : BoltDB) (rowKey columnName : bytes) : outcome (result kv_error bytes) :=
  View io db (fun bucket =>
    match b_Get bucket (KeyColumn rowKey columnName) with
    | None => Ret (Err ErrKeyNotFound)
    | Some storedValue => Ret (Ok storedValue)
    end).

Fixpoint cells_loop (bucket : B) (rowKey : bytes) (cols : list bytes) (res : gmap bytes bytes) : gmap bytes bytes :=
  match cols with
  | [] => res
  | column :: rest =>
      match b_Get bucket (KeyColumn rowKey column) with
      | Some gotValue => cells_loop bucket rowKey rest (<[column := gotValue]> res)
      | None => cells_loop bucket rowKey rest res
      end
  end.

Definition GetCells (io : TxIO) (db : BoltDB) (rowKey : bytes) (cols : list bytes)
  : outcome (result kv_error (gmap bytes bytes)) :=
  View io db (fun bucket => Ret (Ok (cells_loop bucket rowKey cols ∅))).

Definition StoreMetadata (io : TxIO) (db : BoltDB) (key value : bytes) : outcome (BoltDB * option kv_error) :=
  match tx_begin io with
  | Some e => Ret (db, Some (ErrLib e))
  | None =>
      match bd_system db with
      | None => Ret (db, Some ErrBucketNotFound)
      | Some bucket =>
          '(bucket, err) ← Put bucket key value;
          match err with
          | Some e => Ret (db, Some e)
          | None =>
              match tx_commit io with
              | Some e => Ret (db, Some (ErrLib e))
              | None => Ret (mkBoltDB (bd_namespace db) (Some bucket), None)
              end
          end
      end
  end.

Definition RetrieveMetadata (io : TxIO) (db : BoltDB) (key : bytes) : outcome (result kv_error bytes) :=
  match tx_begin io with
  | Some e => Ret (Err (ErrLib e))
  | None =>
      match bd_system db with
      | None => Ret (Err ErrBucketNotFound)
      | Some bucket =>
          match b_Get bucket key with
          | None => Ret (Err ErrKeyNotFound)
          | Some data => Ret (Ok data)
          end
      end
  end.
End bolt.

Arguments BoltDB : clear implicits.
