(* ===== verification/KVLmdb.v ===== *)
(** The LMDB driver: pkg/kvdrivers/lmdb.go.

    The two databases of the environment are the data of the namespace and
    the metadata.  Deleting a missing key is an error of the library that the
    driver passes over. *)

From stdpp Require Import prelude list numbers gmap.
From Stdlib Require Import ZArith Lia.
From S2P Require Import Prelude Bytes KeyCodec KVKeys KVStore.

Section lmdb.
Context {T : Type} `{LmdbTxn T}.

Record LmdbEmbed := mkLmdb { ld_data : T; ld_meta : T }.

(** Errors of the library as the driver returns them. *)
Definition lib (e : lmdb_error) : kv_error :=
  match e with NotFound => ErrLib (-30798) | LmdbErr e => ErrLib e end.

(** [env.Update] on the data of the namespace. *)
Definition Update {A} (io : TxIO) (db : LmdbEmbed) (a0 : A) (fn : T -> outcome (T * A * option kv_error))
  : outcome (LmdbEmbed * A * option kv_error) :=
  match tx_begin io with
  | Some e => Ret (db, a0, Some (ErrLib e))
  | None =>
      '(txn, a, err) ← fn (ld_data db);
      match err with
      | Some e => Ret (db, a, Some e)
      | None =>
          match tx_commit io with
          | Some e => Ret (db, a, Some (ErrLib e))
          | None => Ret (mkLmdb txn (ld_meta db), a, None)
          end
      end
  end.

Definition Update_ (io : TxIO) (db : LmdbEmbed) (fn : T -> outcome (T * option kv_error))
  : outcome (LmdbEmbed * option kv_error) :=
  '(db, _, e) ← Update io db tt (fun t => '(t, e) ← fn t; Ret (t, tt, e)); Ret (db, e).

Definition View {A} (io : TxIO) (db : LmdbEmbed) (fn : T -> outcome (result kv_error A))
  : outcome (result kv_error A) :=
  match tx_begin io with
  | Some e => Ret (Err (ErrLib e))
  | None => fn (ld_data db)
  end.

Definition Put (t : T) (k v : bytes) : outcome (T * option kv_error) :=
  let '(t, e) := l_Put t k v in Ret (t, lib <$> e).

(** [if err := txn.Del(...); err != nil && !lmdb.IsNotFound(err) { return err }] *)
Definition Del (t : T) (k : bytes) : outcome (T * option kv_error) :=
  let '(t, e) := l_Del t k in
  Ret (t, match e with Some e => if IsNotFound e then None else Some (lib e) | None => None end).

(** A read whose missing key is [ErrKeyNotFound]. *)
Definition or_key_not_found {A} (r : result lmdb_error A) : result kv_error A :=
  match r with
  | Ok a => Ok a
  | Err e => if IsNotFound e then Err ErrKeyNotFound else Err (lib e)
  end.

Definition SetKV (io : TxIO) (db : LmdbEmbed) (key value : bytes) : outcome (LmdbEmbed * option kv_error) :=
  Update_ io db (fun txn => Put txn (KeyKV key) value).

Definition BatchSetKV (io : TxIO) (db : LmdbEmbed) (keys values : list bytes) : outcome (LmdbEmbed * option kv_error) :=
  if (blen keys =? 0) || (blen values =? 0) || negb (blen keys =? blen values)
  then Ret (db, Some ErrInvalidArguments)
  else Update_ io db (for_each (fun '(key, value) txn => Put txn (KeyKV key) value) (zip keys values)).

Definition delete_chunks (key : bytes) (chunkCount : Z) : T -> outcome (T * option kv_error) :=
  for_each (fun i txn => Del txn (KeyBlobChunk key i)) (seqZ 1 chunkCount).

Definition put_chunks (key : bytes) (chunks : list bytes) : T -> outcome (T * option kv_error) :=
  for_each (fun '(i, chunk) txn => Put txn (KeyBlobChunk key i) chunk) (zip (seqZ 1 (blen chunks)) chunks).

(** An error of the read is passed over, as is an empty value. *)
Definition drop_old_chunks (key : bytes) (txn : T) : outcome (T * option kv_error) :=
  match l_Get txn (KeyBlobChunk key 0) with
  | Ok ((flag :: _) as storedValue) =>
      if bool_decide (flag = chunkedValue) then
        if blen storedValue <? 9 then Ret (txn, Some ErrInvalidChunkMetadata) else
        oldChunkCount ← get_u32 storedValue 1;
        delete_chunks key oldChunkCount txn
      else Ret (txn, None)
  | _ => Ret (txn, None)
  end.

Definition SetLobChunks (io : TxIO) (db : LmdbEmbed) (key : bytes) (chunks : list bytes) (checksum : Z)
  : outcome (LmdbEmbed * option kv_error) :=
  if blen chunks =? 0 then Ret (db, Some ErrEmptyChunks) else
  Update_ io db (fun txn =>
    '(txn, e) ← drop_old_chunks key txn;
    match e with
    | Some e => Ret (txn, Some e)
    | None =>
        '(txn, e) ← put_chunks key chunks txn;
        match e with
        | Some e => Ret (txn, Some e)
        | None => Put txn (KeyBlobChunk key 0) (chunk_metadata (blen chunks) checksum)
        end
    end).

Definition BatchSetCells (io : TxIO) (db : LmdbEmbed) (rowKeys : list bytes) (columnEntriesPerRow : list columns)
  : outcome (LmdbEmbed * option kv_error) :=
  if negb (blen rowKeys =? blen columnEntriesPerRow) then Ret (db, Some ErrInvalidArguments) else
  Update_ io db
    (for_each (fun '(rowKey, columnEntries) txn =>
       for_each (fun '(columnKey, columnValue) txn => Put txn (KeyColumn rowKey columnKey) columnValue)
         columnEntries txn)
      (zip rowKeys columnEntriesPerRow)).

Definition BatchDeleteCells (io : TxIO) (db : LmdbEmbed) (rowKeys : list bytes) (columnEntriesPerRow : list columns)
  : outcome (LmdbEmbed * option kv_error) :=
  if negb (blen rowKeys =? blen columnEntriesPerRow) then Ret (db, Some ErrInvalidArguments) else
  Update_ io db
    (for_each (fun '(rowKey, columnEntries) txn =>
       for_each (fun '(columnKey, _) txn => Del txn (KeyColumn rowKey columnKey)) columnEntries txn)
      (zip rowKeys columnEntriesPerRow)).

(** The inner loop of [BatchDeleteRows]: delete under the cursor and move on.
    It ends with the error of the last [c.Get], or with none when the prefix
    ends first; an error of [c.Del] returns from the function. *)
Variant row_end := RowDone | RowGetError (e : lmdb_error) | RowDelError (e : lmdb_error).

Fixpoint delete_row_loop (fuel : nat) (pKey : bytes) (cur : result lmdb_error (bytes * bytes)) (st : T * Z)
  : outcome (T * Z * row_end) :=
  match fuel with
  | O => NoFuel
  | S fuel =>
      match cur with
      | Err e => Ret (st, RowGetError e)
      | Ok (k, _) =>
          if negb (HasPrefix k pKey) then Ret (st, RowDone) else
          let '(txn, columnsDeleted) := st in
          let '(txn, e) := l_CursorDel txn k in
          match e with
          | Some (LmdbErr e) => Ret (txn, columnsDeleted, RowDelError (LmdbErr e))
          | _ => delete_row_loop fuel pKey (l_Next txn k) (txn, columnsDeleted + 1)
          end
      end
  end.

(** The outer loop: running off the end of the database returns nil from the
    function, also when rows are left. *)
Fixpoint delete_rows_loop (fuel : nat) (rowKeys : list bytes) (st : T * Z) : outcome (T * Z * option kv_error) :=
  match rowKeys with
  | [] => Ret (st, None)
  | rowKey :: rest =>
      let pKey := RowKey rowKey in
      '(st, e) ← delete_row_loop fuel pKey (l_SetRange st.1 pKey) st;
      match e with
      | RowDelError e => Ret (st, Some (lib e))
      | RowGetError e => if IsNotFound e then Ret (st, None) else Ret (st, Some (lib e))
      | RowDone => delete_rows_loop fuel rest st
      end
  end.

Definition BatchDeleteRows (fuel : nat) (io : TxIO) (db : LmdbEmbed) (rowKeys : list bytes)
  : outcome (LmdbEmbed * Z * option kv_error) :=
  if blen rowKeys =? 0 then Ret (db, 0, None) else
  Update io db 0 (fun txn =>
    match l_OpenCursor txn with
    | Some e => Ret (txn, 0, Some (lib e))
    | None => delete_rows_loop fuel rowKeys (txn, 0)
    end).

Definition DeleteKV (io : TxIO) (db : LmdbEmbed) (key : bytes) : outcome (LmdbEmbed * option kv_error) :=
  Update_ io db (fun txn => Del txn (KeyKV key)).

Definition BatchDeleteKV (io : TxIO) (db : LmdbEmbed) (keys : list bytes) : outcome (LmdbEmbed * option kv_error) :=
  if blen keys =? 0 then Ret (db, None) else
  Update_ io db (for_each (fun key txn => Del txn (KeyKV key)) keys).

Definition delete_lob (key : bytes) (txn : T) : outcome (T * option kv_error) :=
  let typedKey := KeyBlobChunk key 0 in
  match l_Get txn typedKey with
  | Err e => if IsNotFound e then Ret (txn, None) else Ret (txn, Some (lib e))
  | Ok storedValue =>
      if blen storedValue <? 9 then Ret (txn, Some ErrInvalidChunkMetadata) else
      chunkCount ← get_u32 storedValue 1;
      '(txn, e) ← delete_chunks key chunkCount txn;
      match e with
      | Some e => Ret (txn, Some e)
      | None => Del txn typedKey
      end
  end.

Definition BatchDeleteLobChunks (io : TxIO) (db : LmdbEmbed) (keys : list bytes) : outcome (LmdbEmbed * option kv_error) :=
  if blen keys =? 0 then Ret (db, None) else
  Update_ io db (for_each delete_lob keys).

Definition GetKV (io : TxIO) (db : LmdbEmbed) (key : bytes) : outcome (result kv_error bytes) :=
  View io db (fun txn => Ret (or_key_not_found (l_Get txn (KeyKV key)))).

Fixpoint read_chunks (txn : T) (key : bytes) (idx : list Z) : outcome (result kv_error (list bytes)) :=
  match idx with
  | [] => Ret (Ok [])
  | i :: rest =>
      match l_Get txn (KeyBlobChunk key i) with
      | Err e => Ret (Err (if IsNotFound e then ErrChunkMissing i else lib e))
      | Ok chunkValue =>
          r ← read_chunks txn key rest;
          Ret (match r with Ok cs => Ok (chunkValue :: cs) | Err e => Err e end)
      end
  end.

Definition GetLOBChunks (io : TxIO) (db : LmdbEmbed) (key : bytes) : outcome (result kv_error (list bytes)) :=
  View io db (fun txn =>
    match or_key_not_found (l_Get txn (KeyBlobChunk key 0)) with
    | Err e => Ret (Err e)
    | Ok storedValue =>
        if blen storedValue <? 9 then Ret (Err ErrInvalidChunkMetadata) else
        chunkCount ← get_u32 storedValue 1;
        read_chunks txn key (seqZ 1 chunkCount)
    end).

Definition GetCell (io : TxIO) (db : LmdbEmbed) (rowKey columnName : bytes) : outcome (result kv_error bytes) :=
  View io db (fun txn => Ret (or_key_not_found (l_Get txn (KeyColumn rowKey columnName)))).

Fixpoint cells_loop (txn : T) (rowKey : bytes) (cols : list bytes) (res : gmap bytes bytes)
  : result kv_error (gmap bytes bytes) :=
  match cols with
  | [] => Ok res
  | column :: rest =>
      match l_Get txn (KeyColumn rowKey column) with
      | Ok gotValue => cells_loop txn rowKey rest (<[column := gotValue]> res)
      | Err e => if IsNotFound e then cells_loop txn rowKey rest res else Err (lib e)
      end
  end.

Definition GetCells (io : TxIO) (db : LmdbEmbed) (rowKey : bytes) (cols : list bytes)
  : outcome (result kv_error (gmap bytes bytes)) :=
  View io db (fun txn => Ret (cells_loop txn rowKey cols ∅)).

(** The loop of [getColumns], from an entry the cursor stands on. *)
Fixpoint columns_loop (fuel : nat) (txn : T) (prefix : bytes) (flt : bytes -> bool)
    (k v : bytes) (entries : gmap bytes bytes) : outcome (result kv_error (gmap bytes bytes)) :=
  match fuel with
  | O => NoFuel
  | S fuel =>
      if negb (HasPrefix k prefix) then Ret (Ok entries) else
      let columnKey := drop (length prefix) k in
      let entries := if flt columnKey then <[columnKey := v]> entries else entries in
      match l_Next txn k with
      | Err e => if IsNotFound e then Ret (Ok entries) else Ret (Err (lib e))
      | Ok (k, v) => columns_loop fuel txn prefix flt k v entries
      end
  end.

Definition getColumns (fuel : nat) (txn : T) (prefix : bytes) (flt : bytes -> bool)
  : outcome (result kv_error (gmap bytes bytes)) :=
  match l_OpenCursor txn with
  | Some e => Ret (Err (lib e))
  | None =>
      match or_key_not_found (l_SetRange txn prefix) with
      | Err e => Ret (Err e)
      | Ok (k, v) =>
          r ← columns_loop fuel txn prefix flt k v ∅;
          Ret (match r with
               | Err e => Err e
               | Ok entries => if bool_decide (entries = ∅) then Err ErrKeyNotFound else Ok entries
               end)
      end
  end.

Definition ScanRowCells (fuel : nat) (io : TxIO) (db : LmdbEmbed) (rowKey : bytes) (flt : option (bytes -> bool))
  : outcome (result kv_error (gmap bytes bytes)) :=
  let flt := match flt with Some f => f | None => fun _ => true end in
  View io db (fun txn => getColumns fuel txn (RowKey rowKey) flt).

Definition StoreMetadata (io : TxIO) (db : LmdbEmbed) (key value : bytes) : outcome (LmdbEmbed * option kv_error) :=
  match tx_begin io with
  | Some e => Ret (db, Some (ErrLib e))
  | None =>
      '(txn, err) ← Put (ld_meta db) key value;
      match err with
      | Some e => Ret (db, Some e)
      | None =>
          match tx_commit io with
          | Some e => Ret (db, Some (ErrLib e))
          | None => Ret (mkLmdb (ld_data db) txn, None)
          end
      end
  end.

Definition RetrieveMetadata (io : TxIO) (db : LmdbEmbed) (key : bytes) : outcome (result kv_error bytes) :=
  match tx_begin io with
  | Some e => Ret (Err (ErrLib e))
  | None => Ret (or_key_not_found (l_Get (ld_meta db) key))
  end.
End lmdb.

Arguments LmdbEmbed : clear implicits.
