(* ===== verification/KVSpec.v ===== *)
(** The abstract key-value store and both drivers as implementations of it.

    The abstract state is the finite map from typed keys to values.  Every
    mutating operation of a driver either returns an error and leaves the
    database as it was, or applies the operation to the map. *)

From stdpp Require Import prelude list numbers gmap.
From Stdlib Require Import ZArith Lia.
From S2P Require Import Prelude Bytes KeyCodec KVKeys KVStore KVBolt KVLmdb.

(** ** The abstract store *)

Inductive kv_op :=
| OSetKV (key value : bytes)
| OBatchSetKV (keys values : list bytes)
| OSetLobChunks (key : bytes) (chunks : list bytes) (checksum : Z)
| OBatchSetCells (rowKeys : list bytes) (columnEntriesPerRow : list columns)
| OBatchDeleteCells (rowKeys : list bytes) (columnEntriesPerRow : list columns)
| OBatchDeleteRows (rowKeys : list bytes)
| ODeleteKV (key : bytes)
| OBatchDeleteKV (keys : list bytes)
| OBatchDeleteLobChunks (keys : list bytes).

Notation kvmap := (gmap bytes bytes).

Definition a_set_row (m : kvmap) (rc : bytes * columns) : kvmap :=
  foldl (fun m '(col, v) => <[KeyColumn rc.1 col := v]> m) m rc.2.
Definition a_delete_cells (m : kvmap) (rc : bytes * columns) : kvmap :=
  foldl (fun m '(col, _) => delete (KeyColumn rc.1 col) m) m rc.2.
Definition a_delete_row (m : kvmap) (row : bytes) : kvmap := outside (RowKey row) m.

Definition a_drop_chunks (key : bytes) (m : kvmap) (n : Z) : kvmap :=
  foldl (fun m i => delete (KeyBlobChunk key i) m) m (seqZ 1 n).
Definition a_put_chunks (key : bytes) (m : kvmap) (chunks : list bytes) : kvmap :=
  foldl (fun m '(i, c) => <[KeyBlobChunk key i := c]> m) m (zip (seqZ 1 (blen chunks)) chunks).

(** The number of chunks that a metadata record announces. *)
Definition meta_count (v : bytes) : Z := le_val (take 4 (drop 1 v)).

Definition a_set_lob (key : bytes) (chunks : list bytes) (checksum : Z) (m : kvmap) : kvmap :=
  let m := match m !! KeyBlobChunk key 0 with
           | Some v => if typed chunkedValue v then a_drop_chunks key m (meta_count v) else m
           | None => m
           end in
  <[KeyBlobChunk key 0 := chunk_metadata (blen chunks) checksum]> (a_put_chunks key m chunks).

Definition a_delete_lob (m : kvmap) (key : bytes) : kvmap :=
  match m !! KeyBlobChunk key 0 with
  | None => m
  | Some v => delete (KeyBlobChunk key 0) (a_drop_chunks key m (meta_count v))
  end.

Definition a_apply (op : kv_op) (m : kvmap) : kvmap :=
  match op with
  | OSetKV k v => <[KeyKV k := v]> m
  | OBatchSetKV ks vs => foldl (fun m '(k, v) => <[KeyKV k := v]> m) m (zip ks vs)
  | OSetLobChunks key chunks checksum => a_set_lob key chunks checksum m
  | OBatchSetCells rows cols => foldl a_set_row m (zip rows cols)
  | OBatchDeleteCells rows cols => foldl a_delete_cells m (zip rows cols)
  | OBatchDeleteRows rows => foldl a_delete_row m rows
  | ODeleteKV k => delete (KeyKV k) m
  | OBatchDeleteKV ks => foldl (fun m k => delete (KeyKV k) m) m ks
  | OBatchDeleteLobChunks keys => foldl a_delete_lob m keys
  end.

(** ** One step of a driver against one step of the map *)

Definition does {S} (abs : S -> kvmap) (r : outcome (S * option kv_error)) (m' : kvmap) : Prop :=
  exists s' e, r = Ret (s', e) /\ (e = None -> abs s' = m').

Section steps.
Context {S : Type} (abs : S -> kvmap).

Lemma does_ret s m' : abs s = m' -> does abs (Ret (s, None)) m'.
Proof. intros H. by exists s, None. Qed.

Lemma does_err s e m' : does abs (Ret (s, Some e)) m'.
Proof. by exists s, (Some e). Qed.

(** Run [r], stop at an error, go on with [k]. *)
Lemma does_seq (r : outcome (S * option kv_error)) k m1 m2 :
  does abs r m1 -> (forall s, abs s = m1 -> does abs (k s) m2) ->
  does abs ('(s, e) ← r; match e with Some e => Ret (s, Some e) | None => k s end) m2.
Proof.
  intros (s & e & -> & Hs) Hk. cbn [mbind outcome_bind]. destruct e as [e|]; [apply does_err|].
  by apply Hk, Hs.
Qed.

Lemma does_for_each {X} (f : X -> S -> outcome (S * option kv_error)) (g : kvmap -> X -> kvmap) (I : kvmap -> Prop) xs :
  (forall x s, I (abs s) -> does abs (f x s) (g (abs s) x)) -> (forall x m, I m -> I (g m x)) ->
  forall s, I (abs s) -> does abs (for_each f xs s) (foldl g (abs s) xs).
Proof.
  intros Hf HI. induction xs as [|x xs IH]; intros s Hs; cbn [for_each foldl]; [by apply does_ret|].
  eapply does_seq; [by apply Hf|]. intros s' Hs'. rewrite <- Hs'. apply IH. rewrite Hs'. by apply HI.
Qed.

Lemma does_for_all {X} (f : X -> S -> outcome (S * option kv_error)) (g : kvmap -> X -> kvmap) xs :
  (forall x s, does abs (f x s) (g (abs s) x)) ->
  forall s, does abs (for_each f xs s) (foldl g (abs s) xs).
Proof. intros Hf s. by apply (does_for_each f g (fun _ => True)). Qed.
End steps.

(** The count is where the metadata says it is. *)
Lemma meta_count_get v : 9 <= blen v -> get_u32 v 1 = Ret (meta_count v).
Proof.
  intros Hlen. unfold get_u32, get_le, slice. change (1 + Z.of_nat 4) with 5. if_true. done.
Qed.

(** All or nothing: an error leaves the database as it was, success applies
    the operation to its contents. *)
Definition atomic {D} (contents : D -> option kvmap) (db : D) (r : outcome (D * option kv_error)) (m' : kvmap) : Prop :=
  exists db' e, r = Ret (db', e) /\
    match e with None => contents db' = Some m' | Some _ => db' = db end.

(** ** bbolt *)

Module BoltRefines.
Section refine.
Context {B : Type} `{BoltLaws B}.

Lemma bolt_Put_does k v (b : B) : does b_map (KVBolt.Put b k v) (<[k := v]> (b_map b)).
Proof.
  unfold KVBolt.Put. destruct (b_Put b k v) as [b' e] eqn:E. exists b', (ErrLib <$> e). split; [done|].
  destruct e; [done|]. intros _. by eapply b_Put_law.
Qed.

Lemma bolt_Delete_does k (b : B) : does b_map (KVBolt.Delete b k) (delete k (b_map b)).
Proof.
  unfold KVBolt.Delete. destruct (b_Delete b k) as [b' e] eqn:E. exists b', (ErrLib <$> e). split; [done|].
  destruct e; [done|]. intros _. by eapply b_Delete_law.
Qed.

Lemma bolt_delete_kv_does k (b : B) : does b_map (delete_kv k b) (delete (KeyKV k) (b_map b)).
Proof.
  unfold delete_kv. rewrite b_Get_law. destruct (b_map b !! KeyKV k) eqn:E; [apply bolt_Delete_does|].
  apply does_ret. by rewrite delete_id.
Qed.

Lemma bolt_delete_chunks_does key n (b : B) : does b_map (KVBolt.delete_chunks key n b) (a_drop_chunks key (b_map b) n).
Proof. apply does_for_all. intros i s. apply bolt_Delete_does. Qed.

Lemma bolt_put_chunks_does key chunks (b : B) : does b_map (KVBolt.put_chunks key chunks b) (a_put_chunks key (b_map b) chunks).
Proof. apply does_for_all. intros [i c] s. apply bolt_Put_does. Qed.

Lemma bolt_delete_lob_does key (b : B) : does b_map (KVBolt.delete_lob key b) (a_delete_lob (b_map b) key).
Proof.
  unfold KVBolt.delete_lob, a_delete_lob. rewrite b_Get_law.
  destruct (b_map b !! KeyBlobChunk key 0) as [v|]; [|by apply does_ret].
  destruct (Z.ltb_spec (blen v) 9); [apply does_err|]. rewrite meta_count_get by lia. cbn [mbind outcome_bind].
  eapply does_seq; [apply bolt_delete_chunks_does|]. intros s <-. apply bolt_Delete_does.
Qed.

Lemma bolt_set_lob_does key chunks checksum (b : B) : b_map b !! KeyBlobChunk key 0 <> Some [] ->
  does b_map ('(bucket, e) ← KVBolt.drop_old_chunks key b;
    match e with
    | Some e => Ret (bucket, Some e)
    | None =>
        '(bucket, e) ← KVBolt.put_chunks key chunks bucket;
        match e with
        | Some e => Ret (bucket, Some e)
        | None => KVBolt.Put bucket (KeyBlobChunk key 0) (chunk_metadata (blen chunks) checksum)
        end
    end) (a_set_lob key chunks checksum (b_map b)).
Proof.
  intros Hne. unfold a_set_lob. eapply does_seq.
  - unfold KVBolt.drop_old_chunks. rewrite b_Get_law. instantiate (1 := match b_map b !! KeyBlobChunk key 0 with
      | Some v => if typed chunkedValue v then a_drop_chunks key (b_map b) (meta_count v) else b_map b
      | None => b_map b end).
    destruct (b_map b !! KeyBlobChunk key 0) as [[|flag v]|]; [done| |by apply does_ret]. cbn [typed].
    case_bool_decide; [|by apply does_ret]. destruct (Z.ltb_spec (blen (flag :: v)) 9); [apply does_err|].
    rewrite meta_count_get by lia. apply bolt_delete_chunks_does.
  - intros s <-. eapply does_seq; [apply bolt_put_chunks_does|]. intros s' <-. apply bolt_Put_does.
Qed.

(** Collecting the keys of a row. *)
Lemma collect_keys_walk (b : B) p cur L : walk (b_map b) p cur L ->
  forall fuel, (length L < fuel)%nat -> collect_keys fuel b p cur = Ret L.*1.
Proof.
  induction 1 as [|k v Hk|k v nxt L Hk Hn HL IH]; intros [|fuel] Hf; try (cbn in Hf; lia); cbn [collect_keys].
  - done.
  - by rewrite Hk.
  - rewrite Hk. cbn [negb]. rewrite (is_first_unique _ _ _ _ (b_Next_law b k) Hn), IH by (cbn in Hf; lia). done.
Qed.

Lemma delete_keys m p L : NoDup L.*1 -> list_to_map L = under p m ->
  foldl (fun m k => delete k m) m L.*1 = outside p m.
Proof.
  intros Hnd HL. apply map_eq. intros k. rewrite lookup_outside.
  assert (forall (ks : list bytes) (m : kvmap), foldl (fun m k => delete k m) m ks !! k = if decide (k ∈ ks) then None else m !! k) as Hf.
  { clear. induction ks as [|k' ks IH]; intros m; cbn [foldl]; [by rewrite decide_False by apply not_elem_of_nil|].
    rewrite IH. destruct (decide (k ∈ ks)); [by rewrite decide_True by (by right)|].
    destruct (decide (k = k')) as [->|Hne]; [rewrite lookup_delete_eq, decide_True by (by left); done|].
    rewrite lookup_delete_ne, decide_False; [done| |done]. rewrite elem_of_cons. tauto. }
  rewrite Hf. pose proof (lookup_under p m k) as Hu. rewrite <- HL in Hu. case_decide as Hin.
  - apply list_elem_of_fmap in Hin as ([k' v] & Heq & Hin). cbn in Heq. subst k'.
    apply (elem_of_list_to_map_1 L k v Hnd) in Hin. rewrite Hin in Hu. by destruct (HasPrefix k p).
  - rewrite not_elem_of_list_to_map_1 in Hu by done. by destruct (HasPrefix k p).
Qed.

Lemma bolt_delete_row_does fuel row (st : B * Z) : (S (size (b_map st.1)) < fuel)%nat ->
  does (fun st => b_map st.1) (delete_row fuel row st) (a_delete_row (b_map st.1) row).
Proof.
  intros Hf. unfold delete_row, a_delete_row. set (p := RowKey row).
  destruct (walk_prefix (b_map st.1) p (b_Next st.1) (b_Next_law st.1) _ (b_Seek_law st.1 p)) as (L & Hw & Hlen & Hnd & HL).
  rewrite (collect_keys_walk _ _ _ _ Hw) by lia. cbn [mbind outcome_bind]. rewrite <- (delete_keys _ _ _ Hnd HL).
  apply (does_for_all (fun st : B * Z => b_map st.1) _ (fun m k => delete k m)).
  intros k [b n]. destruct (bolt_Delete_does k b) as (b' & e & -> & Hb). by exists (b', n + 1), e.
Qed.
Definition contents (db : BoltDB B) : option kvmap := b_map <$> bd_namespace db.

Lemma bolt_Update_atomic io db b fn m' : bd_namespace db = Some b -> does b_map (fn b) m' ->
  atomic contents db (KVBolt.Update_ io db fn) m'.
Proof.
  intros Hb (b' & e & Hr & Hm). unfold KVBolt.Update_, KVBolt.Update. rewrite Hb.
  destruct (tx_begin io); cbn [mbind outcome_bind]; [by exists db, (Some (ErrLib l))|].
  rewrite Hr. cbn [mbind outcome_bind]. destruct e as [e|]; cbn [mbind outcome_bind]; [by exists db, (Some e)|].
  destruct (tx_commit io) as [e|]; cbn [mbind outcome_bind]; [by exists db, (Some (ErrLib e))|].
  eexists _, None. split; [done|]. unfold contents. cbn. by rewrite Hm.
Qed.

(** One call of the driver. *)
Definition call (fuel : nat) (io : TxIO) (db : BoltDB B) (op : kv_op) : outcome (BoltDB B * option kv_error) :=
  match op with
  | OSetKV k v => KVBolt.SetKV io db k v
  | OBatchSetKV ks vs => KVBolt.BatchSetKV io db ks vs
  | OSetLobChunks key chunks checksum => KVBolt.SetLobChunks io db key chunks checksum
  | OBatchSetCells rows cols => KVBolt.BatchSetCells io db rows cols
  | OBatchDeleteCells rows cols => KVBolt.BatchDeleteCells io db rows cols
  | OBatchDeleteRows rows => '(db, _, e) ← KVBolt.BatchDeleteRows fuel io db rows; Ret (db, e)
  | ODeleteKV k => KVBolt.DeleteKV io db k
  | OBatchDeleteKV ks => KVBolt.BatchDeleteKV io db ks
  | OBatchDeleteLobChunks keys => KVBolt.BatchDeleteLobChunks io db keys
  end.

(** What the driver indexes into is there: the metadata of a chunked value is
    not an empty value. *)
Definition op_ok (m : kvmap) (op : kv_op) : Prop :=
  match op with
  | OSetLobChunks key _ _ => m !! KeyBlobChunk key 0 <> Some []
  | _ => True
  end.

Lemma bolt_delete_rows_does fuel rows (b : B) : (S (size (b_map b)) < fuel)%nat ->
  does (fun st => b_map st.1) (for_each (delete_row fuel) rows (b, 0)) (foldl a_delete_row (b_map b) rows).
Proof.
  intros Hf. apply (does_for_each (fun st : B * Z => b_map st.1) (delete_row fuel) a_delete_row
                      (fun m => (S (size m) < fuel)%nat)); [| |done].
  - intros row st Hst. by apply bolt_delete_row_does.
  - intros row m Hm. unfold a_delete_row, outside. pose proof (map_size_filter (fun kv => HasPrefix kv.1 (RowKey row) = false) m). lia.
Qed.

Lemma bolt_call_atomic fuel io db b op :
  bd_namespace db = Some b -> (S (size (b_map b)) < fuel)%nat -> op_ok (b_map b) op ->
  atomic contents db (call fuel io db op) (a_apply op (b_map b)).
Proof.
  intros Hb Hf Hop. destruct op as [k v|ks vs|key chunks sum|rows cols|rows cols|rows|k|ks|keys]; cbn [call a_apply].
  - apply (bolt_Update_atomic _ _ b); [done|]. apply bolt_Put_does.
  - unfold KVBolt.BatchSetKV. destruct (_ || _); [by eexists _, (Some _)|].
    apply (bolt_Update_atomic _ _ b); [done|]. apply does_for_all. intros [k v] s. apply bolt_Put_does.
  - apply (bolt_Update_atomic _ _ b); [done|]. by apply bolt_set_lob_does.
  - unfold KVBolt.BatchSetCells. destruct (negb _); [by eexists _, (Some _)|].
    apply (bolt_Update_atomic _ _ b); [done|]. apply does_for_all. intros [row cs] s.
    apply (does_for_all b_map _ (fun m '(col, v) => <[KeyColumn row col := v]> m)). intros [c v] s'. apply bolt_Put_does.
  - unfold KVBolt.BatchDeleteCells. destruct (negb _); [by eexists _, (Some _)|].
    apply (bolt_Update_atomic _ _ b); [done|]. apply does_for_all. intros [row cs] s.
    apply (does_for_all b_map _ (fun m '(col, _) => delete (KeyColumn row col) m)). intros [c v] s'. apply bolt_Delete_does.
  - destruct (bolt_delete_rows_does fuel rows b Hf) as ([b' n] & e & Hr & Hm).
    unfold KVBolt.BatchDeleteRows, KVBolt.Update. rewrite Hb.
    destruct (tx_begin io); cbn [mbind outcome_bind]; [by exists db, (Some (ErrLib l))|].
    rewrite Hr. cbn [mbind outcome_bind]. destruct e as [e|]; cbn [mbind outcome_bind]; [by exists db, (Some e)|].
    destruct (tx_commit io) as [e|]; cbn [mbind outcome_bind]; [by exists db, (Some (ErrLib e))|].
    eexists _, None. split; [done|]. unfold contents. cbn. by rewrite <- Hm.
  - apply (bolt_Update_atomic _ _ b); [done|]. apply bolt_delete_kv_does.
  - apply (bolt_Update_atomic _ _ b); [done|]. apply does_for_all. intros k s. apply bolt_delete_kv_does.
  - apply (bolt_Update_atomic _ _ b); [done|]. apply does_for_all. intros k s. apply bolt_delete_lob_does.
Qed.
End refine.
End BoltRefines.

(** ** LMDB *)

Module LmdbRefines.
Section refine.
Context {T : Type} `{LmdbLaws T}.

Lemma lmdb_Put_does k v (t : T) : does l_map (KVLmdb.Put t k v) (<[k := v]> (l_map t)).
Proof.
  unfold KVLmdb.Put. destruct (l_Put t k v) as [t' e] eqn:E. exists t', (lib <$> e). split; [done|].
  destruct e; [done|]. intros _. by eapply l_Put_law.
Qed.

Lemma lmdb_Del_does k (t : T) : does l_map (Del t k) (delete k (l_map t)).
Proof.
  unfold Del. destruct (l_Del t k) as [t' e] eqn:E. eexists t', _. split; [done|].
  destruct e as [[|e]|]; cbn [IsNotFound]; [intros _|done|intros _; by eapply l_Del_law].
  apply l_Del_absent in E as [-> Hn]. by rewrite delete_id.
Qed.

Lemma l_Get_cases (t : T) k : l_Get t k = match l_map t !! k with Some v => Ok v | None => Err NotFound end.
Proof. pose proof (l_Get_law t k) as Hf. unfold found in Hf. by destruct (l_map t !! k). Qed.

Lemma lmdb_delete_chunks_does key n (t : T) : does l_map (KVLmdb.delete_chunks key n t) (a_drop_chunks key (l_map t) n).
Proof. apply does_for_all. intros i s. apply lmdb_Del_does. Qed.

Lemma lmdb_put_chunks_does key chunks (t : T) : does l_map (KVLmdb.put_chunks key chunks t) (a_put_chunks key (l_map t) chunks).
Proof. apply does_for_all. intros [i c] s. apply lmdb_Put_does. Qed.

Lemma lmdb_delete_lob_does key (t : T) : does l_map (KVLmdb.delete_lob key t) (a_delete_lob (l_map t) key).
Proof.
  unfold KVLmdb.delete_lob, a_delete_lob. rewrite l_Get_cases.
  destruct (l_map t !! KeyBlobChunk key 0) as [v|]; [|by apply does_ret].
  destruct (Z.ltb_spec (blen v) 9); [apply does_err|]. rewrite meta_count_get by lia. cbn [mbind outcome_bind].
  eapply does_seq; [apply lmdb_delete_chunks_does|]. intros s <-. apply lmdb_Del_does.
Qed.

Lemma lmdb_set_lob_does key chunks checksum (t : T) :
  does l_map ('(txn, e) ← KVLmdb.drop_old_chunks key t;
    match e with
    | Some e => Ret (txn, Some e)
    | None =>
        '(txn, e) ← KVLmdb.put_chunks key chunks txn;
        match e with
        | Some e => Ret (txn, Some e)
        | None => KVLmdb.Put txn (KeyBlobChunk key 0) (chunk_metadata (blen chunks) checksum)
        end
    end) (a_set_lob key chunks checksum (l_map t)).
Proof.
  unfold a_set_lob. eapply does_seq.
  - unfold KVLmdb.drop_old_chunks. rewrite l_Get_cases. instantiate (1 := match l_map t !! KeyBlobChunk key 0 with
      | Some v => if typed chunkedValue v then a_drop_chunks key (l_map t) (meta_count v) else l_map t
      | None => l_map t end).
    destruct (l_map t !! KeyBlobChunk key 0) as [[|flag v]|]; [by apply does_ret| |by apply does_ret]. cbn [typed].
    case_bool_decide; [|by apply does_ret]. destruct (Z.ltb_spec (blen (flag :: v)) 9); [apply does_err|].
    rewrite meta_count_get by lia. apply lmdb_delete_chunks_does.
  - intros s <-. eapply does_seq; [apply lmdb_put_chunks_does|]. intros s' <-. apply lmdb_Put_does.
Qed.

(** How the loop over a row ends when nothing fails: at a key outside the
    prefix, or at the end of the database. *)
Definition at_end (o : option (bytes * bytes)) : row_end :=
  match o with Some _ => RowDone | None => RowGetError NotFound end.

Inductive walk_stop (m : kvmap) (p : bytes) : option (bytes * bytes) -> option (bytes * bytes) -> Prop :=
| stop_end : walk_stop m p None None
| stop_out k v : HasPrefix k p = false -> walk_stop m p (Some (k, v)) (Some (k, v))
| stop_in k v nxt o : HasPrefix k p = true -> is_first m (bytes_lt k) nxt -> walk_stop m p nxt o ->
    walk_stop m p (Some (k, v)) o.

Lemma walk_stops m p cur L : walk m p cur L -> exists o, walk_stop m p cur o.
Proof.
  induction 1 as [|k v Hk|k v nxt L Hk Hn HL (o & IH)]; eexists; [constructor|by constructor|by eapply stop_in].
Qed.

(** Deleting under the cursor does not disturb the rest of the walk. *)
Lemma delete_row_loop_walk m0 p cur L : walk m0 p cur L ->
  forall fuel t n r, (length L < fuel)%nat -> found r cur ->
  (forall k v k', cur = Some (k, v) -> bytes_le k k' -> l_map t !! k' = m0 !! k') ->
  exists t' n' e o, delete_row_loop fuel p r (t, n) = Ret (t', n', e) /\ walk_stop m0 p cur o /\
    ((exists e', e = RowDelError e') \/
     e = at_end o /\ n' = n + blen L /\ l_map t' = foldl (fun m k => delete k m) (l_map t) L.*1).
Proof.
  induction 1 as [|k v Hk|k v nxt L Hk Hn HL IH]; intros [|fuel] t n r Hf Hr Hag; try (cbn in Hf; lia);
    cbn in Hr; subst r; cbn [delete_row_loop].
  - exists t, n, (RowGetError NotFound), None. split; [done|]. split; [constructor|]. right. split; [done|]. split; [rewrite blen_nil; lia|done].
  - rewrite Hk. exists t, n, RowDone, (Some (k, v)). split; [done|]. split; [by constructor|]. right. split; [done|]. split; [rewrite blen_nil; lia|done].
  - rewrite Hk. cbn [negb]. destruct (l_CursorDel t k) as [t1 e] eqn:E.
    assert (e = None \/ e = Some NotFound -> l_map t1 = delete k (l_map t)) as Hdel.
    { intros [->| ->]; [by eapply l_CursorDel_law|]. apply l_CursorDel_absent in E as [-> Hnone]. by rewrite delete_id. }
    assert (e = None \/ e = Some NotFound -> exists t' n' e' o,
      delete_row_loop fuel p (l_Next t1 k) (t1, n + 1) = Ret (t', n', e') /\ walk_stop m0 p (Some (k, v)) o /\
      ((exists x, e' = RowDelError x) \/
       e' = at_end o /\ n' = n + blen ((k, v) :: L) /\
       l_map t' = foldl (fun m k => delete k m) (l_map t) ((k, v) :: L).*1)) as Hgo.
    { intros He. specialize (Hdel He).
      assert (forall k', bytes_lt k k' -> l_map t1 !! k' = m0 !! k') as Hag1.
      { intros k' Hlt. rewrite Hdel, lookup_delete_ne by (intros ->; by apply bytes_lt_irrefl in Hlt).
        apply (Hag k v); [done|by apply bytes_lt_le]. }
      destruct (l_Next_law t1 k) as (o1 & Hf1 & Hfound). assert (o1 = nxt) as ->.
      { apply (is_first_unique m0 (bytes_lt k)); [|done]. destruct o1 as [[k1 v1]|]; cbn in *.
        - destruct Hf1 as (Ha & Hb & Hc). split; [done|]. split; [by rewrite <- Hag1|].
          intros k' Hk' Hs. apply Hc; [done|]. by rewrite Hag1.
        - intros k' Hk'. rewrite <- Hag1 by done. by apply Hf1. }
      destruct (IH fuel t1 (n + 1) _ ltac:(cbn in Hf; lia) Hfound) as (t' & n' & e' & o & Hrun & Hstop & Hres).
      { intros k1 v1 k' -> Hle. apply Hag1. destruct Hf1 as (Hlt & _). by eapply bytes_lt_le_trans. }
      exists t', n', e', o. split; [done|]. split; [by eapply stop_in|].
      destruct Hres as [?|(-> & -> & ->)]; [by left|]. right. split; [done|]. split; [rewrite blen_cons; lia|].
      rewrite Hdel. done. }
    destruct e as [[|e]|]; [apply Hgo; auto| |apply Hgo; auto].
    destruct (walk_stops m0 p (Some (k, v)) _ (walk_in _ _ _ _ _ _ Hk Hn HL)) as (o & Ho).
    eexists t1, n, _, o. split; [done|]. split; [done|]. left. by eexists.
Qed.
Lemma walk_stop_spec m p cur o : walk_stop m p cur o ->
  forall P : bytes -> Prop, (forall a b, P a -> bytes_le a b -> P b) -> is_first m P cur ->
  match o with
  | Some (k, v) => P k /\ m !! k = Some v /\ HasPrefix k p = false
  | None => forall k, P k -> is_Some (m !! k) -> HasPrefix k p = true
  end.
Proof.
  induction 1 as [|k v Hk|k v nxt o Hk Hn Hs IH]; intros P Hup Hf; cbn in Hf.
  - intros k HP [v Hv]. rewrite Hf in Hv; done.
  - tauto.
  - destruct Hf as (HP & Hkv & Hmin).
    specialize (IH (bytes_lt k) ltac:(intros a b; apply bytes_lt_le_trans) Hn). destruct o as [[k1 v1]|].
    + destruct IH as (H1 & H2 & H3). split; [|done]. eapply Hup; [exact HP|by apply bytes_lt_le].
    + intros k' HP' Hs'. destruct (bytes_le_lt_or_eq _ _ (Hmin k' HP' Hs')) as [<-|Hlt]; [done|]. by apply IH.
Qed.

(** No key of the store comes after the keys of the row. *)
Definition last_row (m : kvmap) (row : bytes) : Prop :=
  forall k, bytes_le (RowKey row) k -> is_Some (m !! k) -> HasPrefix k (RowKey row) = true.

(** Every row but the last one of the list has a key after it. *)
Fixpoint rows_ok (m : kvmap) (rows : list bytes) : Prop :=
  match rows with
  | [] => True
  | row :: rest => (rest = [] \/ ~ last_row m row) /\ rows_ok (a_delete_row m row) rest
  end.

(** One row: all its cells are deleted, and the loop stops at the end of the
    database exactly when the row is the last one. *)
Lemma delete_one_row fuel row (t : T) n : (S (size (l_map t)) < fuel)%nat ->
  exists t' n' e, delete_row_loop fuel (RowKey row) (l_SetRange t (RowKey row)) (t, n) = Ret (t', n', e) /\
    ((exists e', e = RowDelError e') \/
     l_map t' = a_delete_row (l_map t) row /\ n' = n + Z.of_nat (size (under (RowKey row) (l_map t))) /\
     (e = RowDone /\ ~ last_row (l_map t) row \/ e = RowGetError NotFound /\ last_row (l_map t) row)).
Proof.
  intros Hf. set (p := RowKey row). destruct (l_SetRange_law t p) as (o & Hfirst & Hfound).
  assert (forall k, is_first (l_map t) (bytes_lt k) (first_of (bytes_lt k) (l_map t))) as Hnext by (intros; apply first_of_spec).
  destruct (walk_prefix (l_map t) p _ Hnext o Hfirst) as (L & Hw & Hlen & Hnd & HL).
  destruct (delete_row_loop_walk _ _ _ _ Hw fuel t n _ ltac:(lia) Hfound ltac:(done)) as (t' & n' & e & st & Hrun & Hstop & Hres).
  exists t', n', e. split; [done|]. destruct Hres as [?|(-> & -> & Hm)]; [by left|]. right.
  split; [by rewrite Hm, (BoltRefines.delete_keys _ _ _ Hnd HL)|].
  split; [rewrite <- HL, map_size_list_to_map by done; done|].
  pose proof (walk_stop_spec _ _ _ _ Hstop (bytes_le p) (bytes_le_trans p) Hfirst) as Hspec.
  destruct st as [[k v]|]; [left|by right]. split; [done|]. destruct Hspec as (H1 & H2 & H3).
  intros Hlast. specialize (Hlast k H1 (mk_is_Some _ _ H2)). fold p in Hlast. congruence.
Qed.

Lemma lmdb_delete_rows_does fuel rows : forall (st : T * Z), (S (size (l_map st.1)) < fuel)%nat -> rows_ok (l_map st.1) rows ->
  does (fun st => l_map st.1) (delete_rows_loop fuel rows st) (foldl a_delete_row (l_map st.1) rows).
Proof.
  induction rows as [|row rows IH]; intros [t n] Hf Hok; cbn [delete_rows_loop foldl fst]; [by apply does_ret|].
  destruct Hok as [Hlast Hok]. destruct (delete_one_row fuel row t n Hf) as (t' & n' & e & -> & Hres).
  cbn [mbind outcome_bind]. destruct Hres as [[e' ->]|(Hm & _ & [[-> Hnl]|[-> Hl]])]; [apply does_err| |].
  - rewrite <- Hm. apply (IH (t', n')); [|cbn; by rewrite Hm]. cbn in *. rewrite Hm. unfold a_delete_row, outside.
    pose proof (map_size_filter (fun kv => HasPrefix kv.1 (RowKey row) = false) (l_map t)). lia.
  - cbn [IsNotFound]. destruct Hlast as [->|Hn]; [|by destruct Hn]. by apply does_ret.
Qed.

Definition contents (db : LmdbEmbed T) : option kvmap := Some (l_map (ld_data db)).

Lemma lmdb_Update_atomic io db fn m' : does l_map (fn (ld_data db)) m' ->
  atomic contents db (KVLmdb.Update_ io db fn) m'.
Proof.
  intros (t' & e & Hr & Hm). unfold KVLmdb.Update_, KVLmdb.Update.
  destruct (tx_begin io); cbn [mbind outcome_bind]; [by exists db, (Some (ErrLib l))|].
  rewrite Hr. cbn [mbind outcome_bind]. destruct e as [e|]; cbn [mbind outcome_bind]; [by exists db, (Some e)|].
  destruct (tx_commit io) as [e|]; cbn [mbind outcome_bind]; [by exists db, (Some (ErrLib e))|].
  eexists _, None. split; [done|]. unfold contents. cbn. by rewrite Hm.
Qed.

Definition call (fuel : nat) (io : TxIO) (db : LmdbEmbed T) (op : kv_op) : outcome (LmdbEmbed T * option kv_error) :=
  match op with
  | OSetKV k v => KVLmdb.SetKV io db k v
  | OBatchSetKV ks vs => KVLmdb.BatchSetKV io db ks vs
  | OSetLobChunks key chunks checksum => KVLmdb.SetLobChunks io db key chunks checksum
  | OBatchSetCells rows cols => KVLmdb.BatchSetCells io db rows cols
  | OBatchDeleteCells rows cols => KVLmdb.BatchDeleteCells io db rows cols
  | OBatchDeleteRows rows => '(db, _, e) ← KVLmdb.BatchDeleteRows fuel io db rows; Ret (db, e)
  | ODeleteKV k => KVLmdb.DeleteKV io db k
  | OBatchDeleteKV ks => KVLmdb.BatchDeleteKV io db ks
  | OBatchDeleteLobChunks keys => KVLmdb.BatchDeleteLobChunks io db keys
  end.

Definition op_ok (m : kvmap) (op : kv_op) : Prop :=
  match op with OBatchDeleteRows rows => rows_ok m rows | _ => True end.

Lemma lmdb_call_atomic fuel io db op : (S (size (l_map (ld_data db))) < fuel)%nat -> op_ok (l_map (ld_data db)) op ->
  atomic contents db (call fuel io db op) (a_apply op (l_map (ld_data db))).
Proof.
  intros Hf Hop. destruct op as [k v|ks vs|key chunks sum|rows cols|rows cols|rows|k|ks|keys]; cbn [call a_apply].
  - apply lmdb_Update_atomic. apply lmdb_Put_does.
  - unfold KVLmdb.BatchSetKV. destruct (_ || _); [by eexists _, (Some _)|].
    apply lmdb_Update_atomic. apply does_for_all. intros [k v] s. apply lmdb_Put_does.
  - unfold KVLmdb.SetLobChunks. destruct (_ =? 0); [by eexists _, (Some _)|]. apply lmdb_Update_atomic. apply lmdb_set_lob_does.
  - unfold KVLmdb.BatchSetCells. destruct (negb _); [by eexists _, (Some _)|].
    apply lmdb_Update_atomic. apply does_for_all. intros [row cs] s.
    apply (does_for_all l_map _ (fun m '(col, v) => <[KeyColumn row col := v]> m)). intros [c v] s'. apply lmdb_Put_does.
  - unfold KVLmdb.BatchDeleteCells. destruct (negb _); [by eexists _, (Some _)|].
    apply lmdb_Update_atomic. apply does_for_all. intros [row cs] s.
    apply (does_for_all l_map _ (fun m '(col, _) => delete (KeyColumn row col) m)). intros [c v] s'. apply lmdb_Del_does.
  - unfold KVLmdb.BatchDeleteRows. destruct (Z.eqb_spec (blen rows) 0) as [Hz|_].
    { rewrite (blen_zero_nil _ Hz). by exists db, None. }
    unfold KVLmdb.Update. destruct (tx_begin io); cbn [mbind outcome_bind]; [by exists db, (Some (ErrLib l))|].
    destruct (l_OpenCursor (ld_data db)) as [e|]; cbn [mbind outcome_bind]; [by eexists db, (Some _)|].
    destruct (lmdb_delete_rows_does fuel rows (ld_data db, 0) Hf Hop) as ([t' n] & e & Hr & Hm). cbn [fst] in Hm.
    rewrite Hr. cbn [mbind outcome_bind]. destruct e as [e|]; cbn [mbind outcome_bind]; [by exists db, (Some e)|].
    destruct (tx_commit io) as [e|]; cbn [mbind outcome_bind]; [by exists db, (Some (ErrLib e))|].
    eexists _, None. split; [done|]. unfold contents. cbn. by rewrite <- Hm.
  - apply lmdb_Update_atomic. apply lmdb_Del_does.
  - unfold KVLmdb.BatchDeleteKV. destruct (Z.eqb_spec (blen ks) 0) as [Hz|_].
    { rewrite (blen_zero_nil _ Hz). by exists db, None. }
    apply lmdb_Update_atomic. apply does_for_all. intros k s. apply lmdb_Del_does.
  - unfold KVLmdb.BatchDeleteLobChunks. destruct (Z.eqb_spec (blen keys) 0) as [Hz|_].
    { rewrite (blen_zero_nil _ Hz). by exists db, None. }
    apply lmdb_Update_atomic. apply does_for_all. intros k s. apply lmdb_delete_lob_does.
Qed.
End refine.
End LmdbRefines.
