(* ===== verification/KVReads.v ===== *)
(** Reads of the drivers, and the claims about both drivers.

    Reads answer from the abstract map.  A row scan returns exactly the cells
    of the row; what was stored in chunks is read back. *)

From stdpp Require Import prelude list numbers gmap.
From Stdlib Require Import ZArith Lia.
From S2P Require Import Prelude Bytes KeyCodec KVKeys KVStore KVBolt KVLmdb KVSpec.

(** ** Row scans *)

(** What one entry of the walk adds to the result; [bare] tells whether the
    bare row key counts as a column. *)
Definition scan_step (bare : bool) (p : bytes) (flt : bytes -> bool) (acc : kvmap) (e : bytes * bytes) : kvmap :=
  let c := drop (length p) e.1 in
  if (bare || negb (blen e.1 =? blen p)) && flt c then <[c := e.2]> acc else acc.

(** Whether a column is part of the answer. *)
Definition wanted (bare : bool) (flt : bytes -> bool) (col : bytes) : bool :=
  (bare || negb (bool_decide (col = []))) && flt col.

Lemma scan_step_prefixed bare p flt acc col v :
  scan_step bare p flt acc (p ++ col, v) = if wanted bare flt col then <[col := v]> acc else acc.
Proof.
  unfold scan_step, wanted. cbn [fst snd]. rewrite drop_app_length.
  replace (blen (p ++ col) =? blen p) with (bool_decide (col = [])); [done|].
  rewrite blen_app. case_bool_decide as Hc.
  - subst. rewrite blen_nil. symmetry. lia.
  - symmetry. destruct col; [done|]. rewrite blen_cons. pose proof (blen_nonneg col). lia.
Qed.

Lemma scan_fold_lookup bare p flt L : forall acc col,
  NoDup L.*1 -> Forall (fun e => HasPrefix e.1 p = true) L ->
  foldl (scan_step bare p flt) acc L !! col =
  match (list_to_map L : kvmap) !! (p ++ col) with
  | Some v => if wanted bare flt col then Some v else acc !! col
  | None => acc !! col
  end.
Proof.
  induction L as [|[k v] L IH]; intros acc col Hnd Hp; [done|].
  cbn in Hnd. apply NoDup_cons in Hnd as [Hni Hnd]. apply Forall_cons in Hp as [Hk Hp].
  apply HasPrefix_spec in Hk as [c Hc]. cbn in Hc. subst k. cbn [foldl list_to_map foldr].
  rewrite IH by done. rewrite scan_step_prefixed. cbn [uncurry fst snd].
  destruct (decide (c = col)) as [->|Hne].
  - rewrite (not_elem_of_list_to_map_1 L (p ++ col)), lookup_insert_eq by done.
    destruct (wanted bare flt col); [by rewrite lookup_insert_eq|done].
  - rewrite (lookup_insert_ne (list_to_map L : kvmap)) by (intros Heq; apply app_inv_head in Heq; done).
    assert ((if wanted bare flt c then <[c:=v]> acc else acc) !! col = acc !! col) as ->; [|done].
    destruct (wanted bare flt c); [by rewrite lookup_insert_ne|done].
Qed.

(** The cells of a row, read off the map. *)
Definition row_cells (bare : bool) (flt : bytes -> bool) (row : bytes) (m V : kvmap) : Prop :=
  forall col, V !! col = if wanted bare flt col then m !! KeyColumn row col else None.

Lemma scan_result bare flt row m L : NoDup L.*1 -> list_to_map L = under (RowKey row) m ->
  row_cells bare flt row m (foldl (scan_step bare (RowKey row) flt) ∅ L).
Proof.
  intros Hnd HL col. rewrite scan_fold_lookup; [|done|].
  - rewrite HL, lookup_under. assert (HasPrefix (RowKey row ++ col) (RowKey row) = true) as ->
      by (apply HasPrefix_spec; by eexists).
    rewrite KeyColumn_RowKey, lookup_empty. by destruct (m !! _), (wanted bare flt col).
  - apply Forall_forall. intros [k v] Hin. apply (elem_of_list_to_map_1 L k v Hnd) in Hin.
    rewrite HL, lookup_under in Hin. cbn. by destruct (HasPrefix k (RowKey row)).
Qed.

(** What a scan answers when the matching cells are [V]. *)
Definition scan_answer (V : kvmap) : result kv_error kvmap :=
  if bool_decide (V = ∅) then Err ErrKeyNotFound else Ok V.

Section bolt.
Context {B : Type} `{BoltLaws B}.

Lemma bolt_columns_loop (b : B) p flt cur L : walk (b_map b) p cur L ->
  forall fuel acc, (length L < fuel)%nat ->
  KVBolt.columns_loop fuel b p flt cur acc = Ret (foldl (scan_step false p flt) acc L).
Proof.
  induction 1 as [|k v Hk|k v nxt L Hk Hn HL IH]; intros [|fuel] acc Hf; try (cbn in Hf; lia); cbn [KVBolt.columns_loop].
  - done.
  - by rewrite Hk.
  - rewrite Hk. cbn [negb]. rewrite (is_first_unique _ _ _ _ (b_Next_law b k) Hn). cbn [foldl].
    unfold scan_step at 2. cbn [orb fst snd]. cbn in Hf.
    destruct (blen k =? blen p); cbn [negb andb]; apply IH; lia.
Qed.

Lemma bolt_scan fuel io db (b : B) row flt : tx_begin io = None -> bd_namespace db = Some b ->
  (S (size (b_map b)) < fuel)%nat ->
  exists V, KVBolt.ScanRowCells fuel io db row flt = Ret (scan_answer V) /\
    row_cells false (default (fun _ => true) flt) row (b_map b) V.
Proof.
  intros Hio Hb Hf. unfold KVBolt.ScanRowCells, KVBolt.View. rewrite Hio, Hb. unfold KVBolt.getColumns.
  destruct (walk_prefix (b_map b) (RowKey row) (b_Next b) (b_Next_law b) _ (b_Seek_law b (RowKey row)))
    as (L & Hw & Hlen & Hnd & HL).
  rewrite (bolt_columns_loop _ _ _ _ _ Hw) by lia. cbn [mbind outcome_bind].
  exists (foldl (scan_step false (RowKey row) (match flt with Some f => f | None => fun _ => true end)) ∅ L).
  split; [|by apply scan_result]. unfold scan_answer. by destruct (bool_decide (foldl _ ∅ L = ∅)).
Qed.
End bolt.

Section lmdb.
Context {T : Type} `{LmdbLaws T}.

Lemma lmdb_columns_loop (t : T) p flt cur L : walk (l_map t) p cur L ->
  forall fuel k v acc, (length L < fuel)%nat -> cur = Some (k, v) ->
  KVLmdb.columns_loop fuel t p flt k v acc = Ret (Ok (foldl (scan_step true p flt) acc L)).
Proof.
  induction 1 as [|k v Hk|k v nxt L Hk Hn HL IH]; intros [|fuel] k0 v0 acc Hf Hcur; try (cbn in Hf; lia);
    simplify_eq; cbn [KVLmdb.columns_loop]; rewrite Hk; [done|]. cbn [negb foldl].
  destruct (l_Next_law t k0) as (o & Ho & Hfound). rewrite (is_first_unique _ _ _ _ Ho Hn) in Hfound.
  change (scan_step true p flt acc (k0, v0)) with
    (if flt (drop (length p) k0) then <[drop (length p) k0 := v0]> acc else acc).
  destruct nxt as [[k1 v1]|]; cbn in Hfound; rewrite Hfound.
  - apply IH; [cbn in Hf; lia|done].
  - cbn [IsNotFound]. by inversion HL.
Qed.

Lemma lmdb_scan fuel io db row flt : tx_begin io = None -> l_OpenCursor (ld_data db) = None ->
  (S (size (l_map (ld_data db))) < fuel)%nat ->
  exists V, KVLmdb.ScanRowCells fuel io db row flt = Ret (scan_answer V) /\
    row_cells true (default (fun _ => true) flt) row (l_map (ld_data db)) V.
Proof.
  intros Hio Hc Hf. unfold KVLmdb.ScanRowCells, KVLmdb.View. rewrite Hio. unfold KVLmdb.getColumns. rewrite Hc.
  set (t := ld_data db) in *. destruct (l_SetRange_law t (RowKey row)) as (o & Ho & Hfound).
  assert (forall k, is_first (l_map t) (bytes_lt k) (first_of (bytes_lt k) (l_map t))) as Hnext by (intros; apply first_of_spec).
  destruct (walk_prefix (l_map t) (RowKey row) _ Hnext o Ho) as (L & Hw & Hlen & Hnd & HL).
  exists (foldl (scan_step true (RowKey row) (match flt with Some f => f | None => fun _ => true end)) ∅ L).
  split; [|by apply scan_result]. destruct o as [[k v]|]; cbn in Hfound; rewrite Hfound; cbn [or_key_not_found].
  - rewrite (lmdb_columns_loop _ _ _ _ _ Hw) by (done || lia). cbn [mbind outcome_bind].
    unfold scan_answer. by destruct (bool_decide (foldl _ ∅ L = ∅)).
  - cbn [IsNotFound]. by inversion Hw.
Qed.
End lmdb.

(** ** Chunked values *)

Lemma fold_insert_other {I} (K : I -> bytes) (kvs : list (I * bytes)) k : k ∉ K <$> kvs.*1 ->
  forall m : kvmap, foldl (fun m '(i, c) => <[K i := c]> m) m kvs !! k = m !! k.
Proof.
  induction kvs as [|[i c] kvs IH]; intros Hk m; cbn [foldl]; [done|]. cbn in Hk. apply not_elem_of_cons in Hk as [Hne Hk].
  rewrite IH by done. by rewrite lookup_insert_ne.
Qed.

Lemma fold_insert_lookup {I} (K : I -> bytes) (kvs : list (I * bytes)) j c : NoDup (K <$> kvs.*1) -> (j, c) ∈ kvs ->
  forall m : kvmap, foldl (fun m '(i, c) => <[K i := c]> m) m kvs !! K j = Some c.
Proof.
  induction kvs as [|[i c'] kvs IH]; intros Hnd Hin m; [by apply not_elem_of_nil in Hin|]. cbn [foldl].
  cbn in Hnd. apply NoDup_cons in Hnd as [Hni Hnd]. apply elem_of_cons in Hin as [[= -> ->]|Hin].
  - rewrite fold_insert_other by done. by rewrite lookup_insert_eq.
  - by apply IH.
Qed.

Lemma chunk_keys_nodup key n : n < 2 ^ 32 -> NoDup (KeyBlobChunk key <$> seqZ 1 n).
Proof.
  intros Hn. apply NoDup_fmap_2_strong; [|apply NoDup_seqZ]. intros i j Hi Hj.
  apply elem_of_seqZ in Hi, Hj. apply chunk_key_inj; lia.
Qed.

Lemma zip_seqZ_fst {A} s (l : list A) : (zip (seqZ s (blen l)) l).*1 = seqZ s (blen l).
Proof. apply fst_zip. rewrite length_seqZ. unfold blen. lia. Qed.

Lemma zip_seqZ_elem {A} s (l : list A) (i : nat) x : l !! i = Some x -> (s + Z.of_nat i, x) ∈ zip (seqZ s (blen l)) l.
Proof.
  intros Hi. apply list_elem_of_lookup. exists i. apply lookup_zip_Some. split; [|done].
  apply lookup_seqZ. split; [done|]. apply lookup_lt_Some in Hi. unfold blen. lia.
Qed.

Lemma meta_count_metadata n sum : 0 <= n < 2 ^ 32 -> meta_count (chunk_metadata n sum) = n.
Proof.
  intros Hn. unfold meta_count, chunk_metadata. rewrite skipn_cons, drop_0, take_app_length' by (by rewrite length_le_bytes).
  rewrite le_val_le_bytes, u32_small by done. apply Z.mod_small. done.
Qed.

Lemma blen_metadata n sum : blen (chunk_metadata n sum) = 9.
Proof. unfold chunk_metadata. rewrite blen_cons, blen_app, !blen_le_bytes. done. Qed.

Lemma meta_key_free key (chunks : list bytes) : blen chunks < 2 ^ 32 ->
  KeyBlobChunk key 0 ∉ KeyBlobChunk key <$> seqZ 1 (blen chunks).
Proof.
  intros Hn Hin. apply list_elem_of_fmap in Hin as (i & Heq & Hi). apply elem_of_seqZ in Hi. symmetry in Heq.
  destruct (typed KeyTypeBlobChunk key) eqn:Ht; revert Heq; [apply chunk_key_longer|apply chunk_key_not_meta]; (done || lia).
Qed.

(** What [a_set_lob] leaves in the map. *)
Lemma set_lob_lookup key chunks sum m : blen chunks < 2 ^ 32 ->
  a_set_lob key chunks sum m !! KeyBlobChunk key 0 = Some (chunk_metadata (blen chunks) sum) /\
  forall i c, chunks !! i = Some c -> a_set_lob key chunks sum m !! KeyBlobChunk key (1 + Z.of_nat i) = Some c.
Proof.
  intros Hn. unfold a_set_lob. split; [by rewrite lookup_insert_eq|]. intros i c Hc.
  pose proof (zip_seqZ_elem 1 chunks i c Hc) as Hin.
  assert (1 + Z.of_nat i ∈ seqZ 1 (blen chunks)) as Hi.
  { rewrite <- (zip_seqZ_fst 1 chunks). apply list_elem_of_fmap. by exists (1 + Z.of_nat i, c). }
  rewrite lookup_insert_ne.
  - unfold a_put_chunks. apply fold_insert_lookup; [|done]. rewrite zip_seqZ_fst. by apply chunk_keys_nodup.
  - intros Heq. apply (meta_key_free key chunks Hn). rewrite Heq. by apply list_elem_of_fmap_2.
Qed.

Section bolt_lob.
Context {B : Type} `{BoltLaws B}.

Lemma bolt_read_chunks (b : B) key chunks : forall s,
  (forall i c, chunks !! i = Some c -> b_map b !! KeyBlobChunk key (s + Z.of_nat i + 1) = Some c) ->
  KVBolt.read_chunks b key (seqZ s (blen chunks)) = Ret (Ok chunks).
Proof.
  induction chunks as [|c chunks IH]; intros s Hc; [done|].
  rewrite seqZ_cons by (rewrite blen_cons; pose proof (blen_nonneg chunks); lia). cbn [KVBolt.read_chunks].
  assert (b_map b !! KeyBlobChunk key (s + 1) = Some c) as Hs.
  { rewrite <- (Hc 0%nat c eq_refl). do 2 f_equal. lia. }
  rewrite b_Get_law, Hs.
  replace (Z.pred (blen (c :: chunks))) with (blen chunks) by (rewrite blen_cons; lia).
  rewrite IH; [done|]. intros i c' Hi. rewrite <- (Hc (S i) c' Hi). do 2 f_equal. lia.
Qed.

Lemma bolt_get_lob io db (b : B) key chunks sum m : tx_begin io = None -> bd_namespace db = Some b ->
  blen chunks < 2 ^ 32 -> b_map b = a_set_lob key chunks sum m ->
  KVBolt.GetLOBChunks io db key = Ret (Ok chunks).
Proof.
  intros Hio Hb Hn Hm. destruct (set_lob_lookup key chunks sum m Hn) as [Hmeta Hch]. rewrite <- Hm in *.
  unfold KVBolt.GetLOBChunks, KVBolt.View. rewrite Hio, Hb, b_Get_law, Hmeta. rewrite blen_metadata. cbn [Z.ltb Z.compare Pos.compare Pos.compare_cont].
  rewrite meta_count_get by (by rewrite blen_metadata). cbn [mbind outcome_bind].
  pose proof (blen_nonneg chunks). rewrite meta_count_metadata by lia. apply bolt_read_chunks.
  intros i c Hi. rewrite <- (Hch i c Hi). do 2 f_equal. lia.
Qed.
End bolt_lob.

Section lmdb_lob.
Context {T : Type} `{LmdbLaws T}.

Lemma lmdb_read_chunks (t : T) key chunks : forall s,
  (forall i c, chunks !! i = Some c -> l_map t !! KeyBlobChunk key (s + Z.of_nat i) = Some c) ->
  KVLmdb.read_chunks t key (seqZ s (blen chunks)) = Ret (Ok chunks).
Proof.
  induction chunks as [|c chunks IH]; intros s Hc; [done|].
  rewrite seqZ_cons by (rewrite blen_cons; pose proof (blen_nonneg chunks); lia). cbn [KVLmdb.read_chunks].
  assert (l_map t !! KeyBlobChunk key s = Some c) as Hs.
  { rewrite <- (Hc 0%nat c eq_refl). do 2 f_equal. lia. }
  rewrite LmdbRefines.l_Get_cases, Hs.
  replace (Z.pred (blen (c :: chunks))) with (blen chunks) by (rewrite blen_cons; lia).
  rewrite IH; [done|]. intros i c' Hi. rewrite <- (Hc (S i) c' Hi). do 2 f_equal. lia.
Qed.

Lemma lmdb_get_lob io (db : LmdbEmbed T) key chunks sum m : tx_begin io = None ->
  blen chunks < 2 ^ 32 -> l_map (ld_data db) = a_set_lob key chunks sum m ->
  KVLmdb.GetLOBChunks io db key = Ret (Ok chunks).
Proof.
  intros Hio Hn Hm. destruct (set_lob_lookup key chunks sum m Hn) as [Hmeta Hch]. rewrite <- Hm in *.
  unfold KVLmdb.GetLOBChunks, KVLmdb.View. rewrite Hio, LmdbRefines.l_Get_cases, Hmeta. cbn [or_key_not_found].
  rewrite blen_metadata. cbn [Z.ltb Z.compare Pos.compare Pos.compare_cont].
  rewrite meta_count_get by (by rewrite blen_metadata). cbn [mbind outcome_bind].
  pose proof (blen_nonneg chunks). rewrite meta_count_metadata by lia. by apply lmdb_read_chunks.
Qed.
End lmdb_lob.

(** ** The claims *)

(** C14. Every mutating call of the bbolt driver is all or nothing: it returns
    (without a panic, and the cursor loops end), and either reports an error
    and leaves the database as it was, or applies the operation to the map of
    typed keys: single and batch writes, cell writes and deletes, deletion of
    whole rows, and chunked values. *)
Theorem bolt_calls_are_atomic {B : Type} `{BoltLaws B} fuel io (db : BoltDB B) b op :
  bd_namespace db = Some b -> (S (size (b_map b)) < fuel)%nat -> BoltRefines.op_ok (b_map b) op ->
  exists db' e, BoltRefines.call fuel io db op = Ret (db', e) /\
    match e with
    | None => BoltRefines.contents db' = Some (a_apply op (b_map b))
    | Some _ => db' = db
    end.
Proof. intros Hb Hf Hop. exact (BoltRefines.bolt_call_atomic fuel io db b op Hb Hf Hop). Qed.

Definition demo_map : kvmap :=
  {[ KeyColumn [Byte.x01] [Byte.x61] := [Byte.x0a]; KeyColumn [Byte.x01] [Byte.x62] := [Byte.x0b];
     KeyColumn [Byte.x02] [Byte.x61] := [Byte.x0c] ]}.

(** Whether a call reported no error. *)
Definition succeeded {D E} (r : outcome (D * option E)) : bool :=
  match r with Ret (_, None) => true | _ => false end.

Lemma succeeded_inv {D E} (r : outcome (D * option E)) : succeeded r = true -> exists d, r = Ret (d, None).
Proof. destruct r as [[d [e|]]| |]; try discriminate. by exists d. Qed.

Lemma bolt_calls_are_atomic_witness : exists db' e,
  BoltRefines.call 9 okTx (mkBoltDB (Some demo_map) None) (OBatchDeleteRows [[Byte.x02]; [Byte.x01]]) = Ret (db', e) /\
  match e with None => BoltRefines.contents db' = Some ∅ | Some _ => False end.
Proof.
  destruct (bolt_calls_are_atomic 9 okTx (mkBoltDB (Some demo_map) None) demo_map (OBatchDeleteRows [[Byte.x02]; [Byte.x01]])
    eq_refl ltac:(apply Nat.ltb_lt; vm_compute; reflexivity) I) as (db' & e & Hr & Hm).
  exists db', e. split; [exact Hr|].
  assert (succeeded (BoltRefines.call 9 okTx (mkBoltDB (Some demo_map) None) (OBatchDeleteRows [[Byte.x02]; [Byte.x01]])) = true)
    as Hs by (vm_compute; reflexivity). rewrite Hr in Hs. destruct e; [discriminate Hs|].
  rewrite Hm. vm_compute. reflexivity.
Defined.

(** C39. Every mutating call of the LMDB driver is all or nothing and has the
    same effect on the map of typed keys as the bbolt driver's, provided that
    in a deletion of several rows every row but the last one of the list is
    followed by some other key of the store. *)
Theorem lmdb_calls_are_atomic {T : Type} `{LmdbLaws T} fuel io (db : LmdbEmbed T) op :
  (S (size (l_map (ld_data db))) < fuel)%nat -> LmdbRefines.op_ok (l_map (ld_data db)) op ->
  exists db' e, LmdbRefines.call fuel io db op = Ret (db', e) /\
    match e with
    | None => LmdbRefines.contents db' = Some (a_apply op (l_map (ld_data db)))
    | Some _ => db' = db
    end.
Proof. intros Hf Hop. exact (LmdbRefines.lmdb_call_atomic fuel io db op Hf Hop). Qed.

Lemma lmdb_calls_are_atomic_witness : exists db' e,
  LmdbRefines.call 9 okTx (mkLmdb demo_map ∅) (OBatchDeleteRows [[Byte.x02]]) = Ret (db', e) /\
  match e with
  | None => LmdbRefines.contents db' = Some (a_delete_row demo_map [Byte.x02])
  | Some _ => False
  end.
Proof.
  destruct (lmdb_calls_are_atomic 9 okTx (mkLmdb demo_map ∅) (OBatchDeleteRows [[Byte.x02]])
    ltac:(apply Nat.ltb_lt; vm_compute; reflexivity) (conj (or_introl eq_refl) I)) as (db' & e & Hr & Hm).
  exists db', e. split; [exact Hr|].
  assert (succeeded (LmdbRefines.call 9 okTx (mkLmdb demo_map ∅) (OBatchDeleteRows [[Byte.x02]])) = true)
    as Hs by (vm_compute; reflexivity). rewrite Hr in Hs. destruct e; [discriminate Hs|]. exact Hm.
Defined.

(** Deleting several rows through the LMDB driver can stop early: when
    the first row of the list is the last one of the store, the call reports
    success but deletes that row only; every other row of the list keeps its
    cells. *)
Theorem lmdb_row_deletion_stops_early {T : Type} `{LmdbLaws T} fuel (db : LmdbEmbed T) row rest db' n :
  (S (size (l_map (ld_data db))) < fuel)%nat -> LmdbRefines.last_row (l_map (ld_data db)) row ->
  KVLmdb.BatchDeleteRows fuel okTx db (row :: rest) = Ret (db', n, None) ->
  LmdbRefines.contents db' = Some (a_delete_row (l_map (ld_data db)) row).
Proof.
  intros Hf Hlast Hr. unfold KVLmdb.BatchDeleteRows in Hr.
  replace (blen (row :: rest) =? 0) with false in Hr by (rewrite blen_cons; pose proof (blen_nonneg rest); lia).
  unfold KVLmdb.Update in Hr. cbn [tx_begin tx_commit okTx] in Hr.
  destruct (l_OpenCursor (ld_data db)); [discriminate Hr|]. cbn [delete_rows_loop] in Hr.
  destruct (LmdbRefines.delete_one_row fuel row (ld_data db) 0 Hf) as (t' & n' & e & Hrun & Hres).
  cbn [fst] in Hr. rewrite Hrun in Hr. cbn [mbind outcome_bind] in Hr.
  destruct Hres as [[e' ->]|(Hm & _ & [[-> Hn]|[-> _]])]; [discriminate Hr|by destruct Hn|].
  cbn in Hr. injection Hr as <- _. unfold LmdbRefines.contents. cbn. by rewrite Hm.
Qed.

Lemma demo_last_row : LmdbRefines.last_row demo_map [Byte.x02].
Proof.
  unfold demo_map. intros k Hle [v Hk].
  apply lookup_insert_Some in Hk as [[<- _]|[_ Hk]]; [vm_compute in Hle; discriminate Hle|].
  apply lookup_insert_Some in Hk as [[<- _]|[_ Hk]]; [vm_compute in Hle; discriminate Hle|].
  apply lookup_singleton_Some in Hk as [<- _]. vm_compute. reflexivity.
Qed.

(** Rows 2 and 1 are to be deleted, in this order; row 1 is still there. *)
Lemma lmdb_row_deletion_stops_early_witness : exists db' n,
  KVLmdb.BatchDeleteRows 9 okTx (mkLmdb demo_map ∅) [[Byte.x02]; [Byte.x01]] = Ret (db', n, None) /\
  KVLmdb.GetCell okTx db' [Byte.x01] [Byte.x61] = Ret (Ok [Byte.x0a]).
Proof.
  destruct (succeeded_inv (KVLmdb.BatchDeleteRows 9 okTx (mkLmdb demo_map ∅) [[Byte.x02]; [Byte.x01]]))
    as ([db' n] & Hr); [vm_compute; reflexivity|].
  exists db', n. split; [exact Hr|].
  pose proof (lmdb_row_deletion_stops_early 9 (mkLmdb demo_map ∅) [Byte.x02] [[Byte.x01]] db' n
    ltac:(apply Nat.ltb_lt; vm_compute; reflexivity) demo_last_row Hr) as Hc.
  unfold LmdbRefines.contents in Hc. apply (f_equal (default ∅)) in Hc. cbn [default from_option] in Hc; unfold id in Hc.
  unfold KVLmdb.GetCell, KVLmdb.View. cbn [tx_begin okTx l_Get map_txn].
  change (ld_data db') with (l_map (ld_data db')). rewrite Hc. vm_compute. reflexivity.
Defined.

(** A row scan returns exactly the cells of the row: with both drivers
    the loop over the cursor ends, and the answer maps a column to a value
    exactly when the filter accepts the column and the cell of this row and
    column holds the value; the bbolt driver leaves out the empty column.  A
    row without matching cells is [ErrKeyNotFound]. *)
Theorem row_scan_returns_the_row {B T : Type} `{BoltLaws B} `{LmdbLaws T} fuel io (bd : BoltDB B) b (ld : LmdbEmbed T) row flt :
  tx_begin io = None -> bd_namespace bd = Some b -> l_OpenCursor (ld_data ld) = None ->
  (S (size (b_map b)) < fuel)%nat -> (S (size (l_map (ld_data ld))) < fuel)%nat ->
  (exists V, KVBolt.ScanRowCells fuel io bd row (Some flt) = Ret (scan_answer V) /\
     forall col, V !! col = if negb (bool_decide (col = [])) && flt col then b_map b !! KeyColumn row col else None) /\
  (exists V, KVLmdb.ScanRowCells fuel io ld row (Some flt) = Ret (scan_answer V) /\
     forall col, V !! col = if flt col then l_map (ld_data ld) !! KeyColumn row col else None).
Proof.
  intros Hio Hb Hc Hf1 Hf2. split.
  - exact (bolt_scan fuel io bd b row (Some flt) Hio Hb Hf1).
  - exact (lmdb_scan fuel io ld row (Some flt) Hio Hc Hf2).
Qed.

Lemma row_scan_returns_the_row_witness : exists V,
  KVLmdb.ScanRowCells 9 okTx (mkLmdb demo_map ∅) [Byte.x01] (Some (fun _ => true)) = Ret (scan_answer V) /\
  V !! [Byte.x62] = Some [Byte.x0b] /\ V !! [Byte.x63] = None.
Proof.
  destruct (fun a b c => row_scan_returns_the_row 9 okTx (mkBoltDB (Some demo_map) None) demo_map (mkLmdb demo_map ∅) [Byte.x01]
    (fun _ => true) eq_refl eq_refl a b c) as [_ (V & Hs & Hl)];
    [reflexivity|apply Nat.ltb_lt; vm_compute; reflexivity|apply Nat.ltb_lt; vm_compute; reflexivity|].
  exists V. split; [exact Hs|]. rewrite !Hl. split; vm_compute; reflexivity.
Defined.

(** Chunked values round trip: after a successful [SetLobChunks], with
    either driver and whatever was stored under the key before,
    [GetLOBChunks] returns the chunks in order. *)
Theorem chunked_value_roundtrip {B T : Type} `{BoltLaws B} `{LmdbLaws T} io
    (bd bd' : BoltDB B) (ld ld' : LmdbEmbed T) key chunks checksum :
  blen chunks < 2 ^ 32 ->
  KVBolt.SetLobChunks io bd key chunks checksum = Ret (bd', None) ->
  KVLmdb.SetLobChunks io ld key chunks checksum = Ret (ld', None) ->
  KVBolt.GetLOBChunks okTx bd' key = Ret (Ok chunks) /\ KVLmdb.GetLOBChunks okTx ld' key = Ret (Ok chunks).
Proof.
  intros Hn Hb Hl. split.
  - destruct (bd_namespace bd) as [b|] eqn:Hns; [|unfold KVBolt.SetLobChunks, KVBolt.Update_, KVBolt.Update in Hb;
      rewrite Hns in Hb; by destruct (tx_begin io)].
    assert (b_map b !! KeyBlobChunk key 0 <> Some []) as Hne.
    { intros Hempty. unfold KVBolt.SetLobChunks, KVBolt.Update_, KVBolt.Update in Hb. rewrite Hns in Hb.
      unfold KVBolt.drop_old_chunks in Hb. rewrite b_Get_law, Hempty in Hb. by destruct (tx_begin io). }
    destruct (BoltRefines.bolt_call_atomic (S (S (size (b_map b)))) io bd b (OSetLobChunks key chunks checksum) Hns
      ltac:(lia) Hne) as (db' & e & Hcall & Hm). cbn [BoltRefines.call] in Hcall. rewrite Hb in Hcall.
    injection Hcall as <- <-. unfold BoltRefines.contents in Hm. destruct (bd_namespace bd') as [b'|] eqn:Hns'; [|done].
    injection Hm as Hm. by apply (bolt_get_lob okTx bd' b' key chunks checksum (b_map b)).
  - destruct (LmdbRefines.lmdb_call_atomic (S (S (size (l_map (ld_data ld))))) io ld (OSetLobChunks key chunks checksum)
      ltac:(lia) I) as (db' & e & Hcall & Hm). cbn [LmdbRefines.call] in Hcall. rewrite Hl in Hcall.
    injection Hcall as <- <-. unfold LmdbRefines.contents in Hm. injection Hm as Hm.
    by apply (lmdb_get_lob okTx ld' key chunks checksum (l_map (ld_data ld))).
Qed.

Definition demo_chunks : list bytes := [[Byte.x01; Byte.x02]; [Byte.x03]].

Lemma chunked_value_roundtrip_witness : exists (bd' : BoltDB kvmap) (ld' : LmdbEmbed kvmap),
  KVBolt.GetLOBChunks okTx bd' [Byte.x07] = Ret (Ok demo_chunks) /\
  KVLmdb.GetLOBChunks okTx ld' [Byte.x07] = Ret (Ok demo_chunks).
Proof.
  destruct (succeeded_inv (KVBolt.SetLobChunks okTx (mkBoltDB (Some demo_map) None) [Byte.x07] demo_chunks 5))
    as (bd' & Hb); [vm_compute; reflexivity|].
  destruct (succeeded_inv (KVLmdb.SetLobChunks okTx (mkLmdb demo_map ∅) [Byte.x07] demo_chunks 5))
    as (ld' & Hl); [vm_compute; reflexivity|].
  exists bd', ld'. exact (chunked_value_roundtrip okTx _ bd' _ ld' [Byte.x07] demo_chunks 5 eq_refl Hb Hl).
Defined.
