(* ===== verification/KVQueue.v ===== *)
(** What the two transaction queues share: the queued operations as data,
    the counters, the queue's state and its abstract meaning.

    The source queues closures; [queued_op] records which closure was queued
    and what it captured, and each driver's file says what running it does. *)

From stdpp Require Import prelude list numbers gmap.
From Stdlib Require Import ZArith Lia.
From S2P Require Import Prelude Bytes KeyCodec KVKeys KVStore KVSpec.

(** common.go, [TxnStats]; the source counts in float32, which is exact for
    the counts below 2^24. *)
Record TxnStats := mkStats { EntriesModified : Z; PutOps : Z; DeleteOps : Z }.

Inductive queued_op :=
| QPutKV (key : bytes) (values : list bytes) (i : nat)
| QDeleteKV (key : bytes)
| QSetLobChunks (key : bytes) (chunks : list bytes) (checksum : Z)
| QDeleteLobChunks (key : bytes)
| QSetCells (rowKey : bytes) (columnEntries : columns)
| QDeleteCells (rowKey : bytes) (columnEntries : columns)
| QDeleteRow (rowKey : bytes).

Record TxnQueue := mkQueue {
  q_err : option kv_error;
  opsQueue : list queued_op;
  maxBatchSize : Z;
  q_counts : TxnStats;
  q_stats : TxnStats
}.

Definition with_err (e : option kv_error) (q : TxnQueue) : TxnQueue :=
  mkQueue e (opsQueue q) (maxBatchSize q) (q_counts q) (q_stats q).
Definition with_ops (ops : list queued_op) (q : TxnQueue) : TxnQueue :=
  mkQueue (q_err q) ops (maxBatchSize q) (q_counts q) (q_stats q).
Definition with_counts (c : TxnStats) (q : TxnQueue) : TxnQueue :=
  mkQueue (q_err q) (opsQueue q) (maxBatchSize q) c (q_stats q).

Definition add_stats (a b : TxnStats) : TxnStats :=
  mkStats (EntriesModified a + EntriesModified b) (PutOps a + PutOps b) (DeleteOps a + DeleteOps b).
Definition zero_stats : TxnStats := mkStats 0 0 0.

(** [putOps++], [deleteOps++] and [entriesModified += n]. *)
Definition count_put (c : TxnStats) : TxnStats := mkStats (EntriesModified c) (PutOps c + 1) (DeleteOps c).
Definition count_delete (c : TxnStats) : TxnStats := mkStats (EntriesModified c) (PutOps c) (DeleteOps c + 1).
Definition count_entries (n : Z) (c : TxnStats) : TxnStats := mkStats (EntriesModified c + n) (PutOps c) (DeleteOps c).

(** After a batch: the counters go to the statistics and the queue is empty. *)
Definition flushed (q : TxnQueue) : TxnQueue :=
  mkQueue (q_err q) [] (maxBatchSize q) zero_stats (add_stats (q_stats q) (q_counts q)).

(** ** Calls of the queue, for both drivers *)

Inductive queue_call :=
| CBatchPutKV (keys values : list bytes)
| CBatchDeleteKV (keys : list bytes)
| CSetLobChunks (key : bytes) (chunks : list bytes) (checksum : Z)
| CBatchDeleteLobChunks (keys : list bytes)
| CBatchSetCells (rowKeys : list bytes) (columnEntriesPerRow : list columns)
| CBatchDeleteCells (rowKeys : list bytes) (columnEntriesPerRow : list columns)
| CBatchDeleteRows (rowKeys : list bytes)
| CCommit.

(** The operations a call queues. *)
Definition queued_by (c : queue_call) : list queued_op :=
  match c with
  | CBatchPutKV keys values => imap (fun i key => QPutKV key values i) keys
  | CBatchDeleteKV keys => QDeleteKV <$> keys
  | CSetLobChunks key chunks checksum => [QSetLobChunks key chunks checksum]
  | CBatchDeleteLobChunks keys => QDeleteLobChunks <$> keys
  | CBatchSetCells rows cols => zip_with QSetCells rows cols
  | CBatchDeleteCells rows cols => zip_with QDeleteCells rows cols
  | CBatchDeleteRows rows => QDeleteRow <$> rows
  | CCommit => []
  end.

(** The meaning of a queued operation on the map of typed keys. *)
Definition a_queued (m : kvmap) (op : queued_op) : kvmap :=
  match op with
  | QPutKV key values i => match values !! i with Some v => <[KeyKV key := v]> m | None => m end
  | QDeleteKV key => delete (KeyKV key) m
  | QSetLobChunks key chunks checksum => a_set_lob key chunks checksum m
  | QDeleteLobChunks key => a_delete_lob m key
  | QSetCells row cols => a_set_row m (row, cols)
  | QDeleteCells row cols => a_delete_cells m (row, cols)
  | QDeleteRow row => a_delete_row m row
  end.
