(* ===== verification/KVBoltQueue.v ===== *)
(** The transaction queue of the bbolt driver: pkg/kvdrivers/bolt_txn_queue.go. *)

From stdpp Require Import prelude list numbers gmap.
From Stdlib Require Import ZArith Lia.
From S2P Require Import Prelude Bytes KeyCodec KVKeys KVStore KVBolt KVSpec KVQueue.

Section queue.
Context {B : Type} `{BoltBucket B} (fuel : nat).

(** ** The queued closures *)

(** The state a closure works on: the bucket and the queue's counters. *)
Definition txn_state := (B * TxnStats)%type.

Definition on_bucket (f : B -> outcome (B * option kv_error)) (st : txn_state) : outcome (txn_state * option kv_error) :=
  '(b, e) ← f st.1; Ret (b, st.2, e).

Definition run_put (key : bytes) (values : list bytes) (i : nat) (st : txn_state) : outcome (txn_state * option kv_error) :=
  match values !! i with
  | None => Panic
  | Some value =>
      '(b, e) ← Put st.1 (KeyKV key) value;
      match e with
      | Some e => Ret (b, st.2, Some e)
      | None => Ret (b, count_entries 1 (count_put st.2), None)
      end
  end.

(** The metadata is stored before the chunks here. *)
Definition run_set_lob (key : bytes) (chunks : list bytes) (checksum : Z) (txn : B) : outcome (B * option kv_error) :=
  '(txn, e) ← drop_old_chunks key txn;
  match e with
  | Some e => Ret (txn, Some e)
  | None =>
      '(txn, e) ← Put txn (KeyBlobChunk key 0) (chunk_metadata (blen chunks) checksum);
      match e with
      | Some e => Ret (txn, Some e)
      | None => put_chunks key chunks txn
      end
  end.

Definition run_delete_lob (key : bytes) (txn : B) : outcome (B * option kv_error) :=
  let typedKey := KeyBlobChunk key 0 in
  match b_Get txn typedKey with
  | None => Ret (txn, None)
  | Some storedValue =>
      if negb (blen storedValue =? 9) then Ret (txn, Some ErrInvalidChunkMetadata) else
      chunkCount ← get_u32 storedValue 1;
      '(txn, e) ← delete_chunks key chunkCount txn;
      match e with
      | Some e => Ret (txn, Some e)
      | None => Delete txn typedKey
      end
  end.

Definition run_set_cells (rowKey : bytes) (columnEntries : columns) (st : txn_state) : outcome (txn_state * option kv_error) :=
  if blen columnEntries =? 0 then Ret (st, None) else
  for_each (fun '(key, value) st =>
      '(b, e) ← Put st.1 (KeyColumn rowKey key) value; Ret (b, count_entries 1 st.2, e))
    columnEntries (st.1, count_put st.2).

Definition run_delete_cells (rowKey : bytes) (columnEntries : columns) (st : txn_state) : outcome (txn_state * option kv_error) :=
  if blen columnEntries =? 0 then Ret (st, None) else
  for_each (fun '(key, _) st =>
      '(b, e) ← Delete st.1 (KeyColumn rowKey key); Ret (b, count_entries 1 st.2, e))
    columnEntries (st.1, count_delete st.2).

Definition run_delete_row (rowKey : bytes) (st : txn_state) : outcome (txn_state * option kv_error) :=
  let typedKey := RowKey rowKey in
  keys ← collect_keys fuel st.1 typedKey (b_Seek st.1 typedKey);
  for_each (fun k st => '(b, e) ← Delete st.1 k; Ret (b, count_entries 1 st.2, e)) keys (st.1, count_delete st.2).

Definition run_op (op : queued_op) (st : txn_state) : outcome (txn_state * option kv_error) :=
  match op with
  | QPutKV key values i => run_put key values i st
  | QDeleteKV key => on_bucket (delete_kv key) st
  | QSetLobChunks key chunks checksum => on_bucket (run_set_lob key chunks checksum) st
  | QDeleteLobChunks key => on_bucket (run_delete_lob key) st
  | QSetCells row cols => run_set_cells row cols st
  | QDeleteCells row cols => run_delete_cells row cols st
  | QDeleteRow row => run_delete_row row st
  end.

(** ** The queue *)

Definition NewTxnQueue (maxBatchSize : Z) : TxnQueue := mkQueue None [] maxBatchSize zero_stats zero_stats.

(** Run the whole queue in one transaction.  A failing commit empties the
    queue as well. *)
Definition flushBatch (io : TxIO) (bq : TxnQueue) (db : BoltDB B) : outcome (TxnQueue * BoltDB B * option kv_error) :=
  match q_err bq with
  | Some e => Ret (bq, db, Some e)
  | None =>
      match opsQueue bq with
      | [] => Ret (bq, db, None)
      | ops =>
          match tx_begin io with
          | Some e => Ret (bq, db, Some (ErrLib e))
          | None =>
              match bd_namespace db with
              | None => Ret (bq, db, Some ErrBucketNotFound)
              | Some bucket =>
                  '(st, err) ← for_each run_op ops (bucket, q_counts bq);
                  let bq := with_counts st.2 bq in
                  match err with
                  | Some e => Ret (with_err (Some e) bq, db, Some e)
                  | None =>
                      match tx_commit io with
                      | Some e => Ret (flushed bq, db, Some (ErrLib e))
                      | None => Ret (flushed bq, mkBoltDB (Some st.1) (bd_system db), None)
                      end
                  end
              end
          end
      end
  end.

(** [if len(bq.opsQueue) >= bq.maxBatchSize { bq.err = bq.flushBatch() }; return bq.err] *)
Definition flush_if_full (io : TxIO) (bq : TxnQueue) (db : BoltDB B) : outcome (TxnQueue * BoltDB B * option kv_error) :=
  if maxBatchSize bq <=? blen (opsQueue bq) then
    '(bq, db, e) ← flushBatch io bq db;
    Ret (with_err e bq, db, e)
  else Ret (bq, db, q_err bq).

(** Every queueing call: the sticky error, then the closures, then the flush. *)
Definition enqueue (io : TxIO) (ops : list queued_op) (bq : TxnQueue) (db : BoltDB B)
  : outcome (TxnQueue * BoltDB B * option kv_error) :=
  match q_err bq with
  | Some e => Ret (bq, db, Some e)
  | None => flush_if_full io (with_ops (opsQueue bq ++ ops) bq) db
  end.

Definition BatchPutKV (io : TxIO) (keys values : list bytes) := enqueue io (imap (fun i key => QPutKV key values i) keys).
Definition BatchDeleteKV (io : TxIO) (keys : list bytes) := enqueue io (QDeleteKV <$> keys).
Definition SetLobChunks (io : TxIO) (key : bytes) (chunks : list bytes) (checksum : Z) :=
  enqueue io [QSetLobChunks key chunks checksum].
Definition BatchDeleteLobChunks (io : TxIO) (keys : list bytes) := enqueue io (QDeleteLobChunks <$> keys).

Definition BatchSetCells (io : TxIO) (rowKeys : list bytes) (columnEntriesPerRow : list columns)
    (bq : TxnQueue) (db : BoltDB B) : outcome (TxnQueue * BoltDB B * option kv_error) :=
  match q_err bq with
  | Some e => Ret (bq, db, Some e)
  | None =>
      if negb (blen rowKeys =? blen columnEntriesPerRow)
      then Ret (with_err (Some ErrInvalidArguments) bq, db, Some ErrInvalidArguments)
      else enqueue io (zip_with QSetCells rowKeys columnEntriesPerRow) bq db
  end.

Definition BatchDeleteCells (io : TxIO) (rowKeys : list bytes) (columnEntriesPerRow : list columns)
    (bq : TxnQueue) (db : BoltDB B) : outcome (TxnQueue * BoltDB B * option kv_error) :=
  match q_err bq with
  | Some e => Ret (bq, db, Some e)
  | None =>
      if negb (blen rowKeys =? blen columnEntriesPerRow)
      then Ret (with_err (Some ErrInvalidArguments) bq, db, Some ErrInvalidArguments)
      else enqueue io (zip_with QDeleteCells rowKeys columnEntriesPerRow) bq db
  end.

Definition BatchDeleteRows (io : TxIO) (rowKeys : list bytes) := enqueue io (QDeleteRow <$> rowKeys).

Definition Stats (bq : TxnQueue) : TxnStats := q_stats bq.

Definition Commit (io : TxIO) (bq : TxnQueue) (db : BoltDB B) : outcome (TxnQueue * BoltDB B * option kv_error) :=
  match q_err bq with
  | Some e => Ret (bq, db, Some e)
  | None => flushBatch io bq db
  end.
End queue.
