(* ===== verification/KVLmdbQueue.v ===== *)
(** The transaction queue of the LMDB driver: pkg/kvdrivers/lmdb_txn_queue.go. *)

From stdpp Require Import prelude list numbers gmap.
From Stdlib Require Import ZArith Lia.
From S2P Require Import Prelude Bytes KeyCodec KVKeys KVStore KVLmdb KVSpec KVQueue.

Section queue.
Context {T : Type} `{LmdbTxn T} (fuel : nat).

(** ** The queued closures *)

Definition txn_state := (T * TxnStats)%type.

Definition run_put (key : bytes) (values : list bytes) (i : nat) (st : txn_state) : outcome (txn_state * option kv_error) :=
  match values !! i with
  | None => Panic
  | Some value =>
      '(t, e) ← Put st.1 (KeyKV key) value;
      match e with
      | Some e => Ret (t, st.2, Some e)
      | None => Ret (t, count_entries 1 (count_put st.2), None)
      end
  end.

Definition run_delete_kv (key : bytes) (st : txn_state) : outcome (txn_state * option kv_error) :=
  let '(t, e) := l_Del st.1 (KeyKV key) in
  match e with
  | Some e => if IsNotFound e then Ret (t, st.2, None) else Ret (t, st.2, Some (lib e))
  | None => Ret (t, count_entries 1 (count_delete st.2), None)
  end.

Definition run_set_lob (key : bytes) (chunks : list bytes) (checksum : Z) (st : txn_state)
  : outcome (txn_state * option kv_error) :=
  '(t, e) ← drop_old_chunks key st.1;
  match e with
  | Some e => Ret (t, st.2, Some e)
  | None =>
      '(st, e) ← for_each (fun '(i, chunk) st =>
                     '(t, e) ← Put st.1 (KeyBlobChunk key i) chunk; Ret (t, count_entries 1 st.2, e))
                   (zip (seqZ 1 (blen chunks)) chunks) (t, count_entries 1 (count_put st.2));
      match e with
      | Some e => Ret (st, Some e)
      | None =>
          '(t, e) ← Put st.1 (KeyBlobChunk key 0) (chunk_metadata (blen chunks) checksum);
          Ret (t, st.2, e)
      end
  end.

(** Errors of the chunks' deletion are dropped. *)
Fixpoint delete_chunks_ignoring (key : bytes) (idx : list Z) (st : txn_state) : txn_state :=
  match idx with
  | [] => st
  | i :: rest => delete_chunks_ignoring key rest ((l_Del st.1 (KeyBlobChunk key i)).1, count_entries 1 st.2)
  end.

(** Any error of the read counts as a missing key: the value is nil then. *)
Definition run_delete_lob (key : bytes) (st : txn_state) : outcome (txn_state * option kv_error) :=
  let typedKey := KeyBlobChunk key 0 in
  match l_Get st.1 typedKey with
  | Err _ => Ret (st, None)
  | Ok storedValue =>
      if blen storedValue <? 9 then Ret (st, Some ErrInvalidChunkMetadata) else
      chunkCount ← get_u32 storedValue 1;
      let st := delete_chunks_ignoring key (seqZ 1 chunkCount) st in
      '(t, e) ← Del st.1 typedKey;
      match e with
      | Some e => Ret (t, st.2, Some e)
      | None => Ret (t, count_delete (count_entries 1 st.2), None)
      end
  end.

Definition run_set_cells (rowKey : bytes) (columnEntries : columns) (st : txn_state) : outcome (txn_state * option kv_error) :=
  if blen columnEntries =? 0 then Ret (st, None) else
  for_each (fun '(key, value) st =>
      '(t, e) ← Put st.1 (KeyColumn rowKey key) value; Ret (t, count_entries 1 st.2, e))
    columnEntries (st.1, count_put st.2).

Definition run_delete_cells (rowKey : bytes) (columnEntries : columns) (st : txn_state) : outcome (txn_state * option kv_error) :=
  if blen columnEntries =? 0 then Ret (st, None) else
  '(st, e) ← for_each (fun '(key, _) st =>
      let '(t, e) := l_Del st.1 (KeyColumn rowKey key) in
      match e with
      | Some e => if IsNotFound e then Ret (t, st.2, None) else Ret (t, st.2, Some (lib e))
      | None => Ret (t, count_entries 1 st.2, None)
      end) columnEntries st;
  match e with
  | Some e => Ret (st, Some e)
  | None => Ret (st.1, count_delete st.2, None)
  end.

Definition run_delete_row (rowKey : bytes) (st : txn_state) : outcome (txn_state * option kv_error) :=
  match l_OpenCursor st.1 with
  | Some e => Ret (st, Some (lib e))
  | None =>
      let pKey := RowKey rowKey in
      '(t, n, e) ← delete_row_loop fuel pKey (l_SetRange st.1 pKey) (st.1, 0);
      let st := (t, count_entries n (count_delete st.2)) in
      Ret (match e with
           | RowDelError e => (st, Some (lib e))
           | RowGetError e => if IsNotFound e then (st, None) else (st, Some (lib e))
           | RowDone => (st, None)
           end)
  end.

Definition run_op (op : queued_op) (st : txn_state) : outcome (txn_state * option kv_error) :=
  match op with
  | QPutKV key values i => run_put key values i st
  | QDeleteKV key => run_delete_kv key st
  | QSetLobChunks key chunks checksum => run_set_lob key chunks checksum st
  | QDeleteLobChunks key => run_delete_lob key st
  | QSetCells row cols => run_set_cells row cols st
  | QDeleteCells row cols => run_delete_cells row cols st
  | QDeleteRow row => run_delete_row row st
  end.

(** ** The queue *)

Definition NewTxnQueue (maxBatchSize : Z) : TxnQueue := mkQueue None [] maxBatchSize zero_stats zero_stats.

Definition flushBatch (io : TxIO) (lq : TxnQueue) (db : LmdbEmbed T) : outcome (TxnQueue * LmdbEmbed T * option kv_error) :=
  match q_err lq with
  | Some e => Ret (lq, db, Some e)
  | None =>
      match opsQueue lq with
      | [] => Ret (lq, db, None)
      | ops =>
          match tx_begin io with
          | Some e => Ret (lq, db, Some (ErrLib e))
          | None =>
              '(st, err) ← for_each run_op ops (ld_data db, q_counts lq);
              let lq := with_counts st.2 lq in
              match err with
              | Some e => Ret (with_err (Some e) lq, db, Some e)
              | None =>
                  match tx_commit io with
                  | Some e => Ret (flushed lq, db, Some (ErrLib e))
                  | None => Ret (flushed lq, mkLmdb st.1 (ld_meta db), None)
                  end
              end
          end
      end
  end.

Definition flush_if_full (io : TxIO) (lq : TxnQueue) (db : LmdbEmbed T) : outcome (TxnQueue * LmdbEmbed T * option kv_error) :=
  if maxBatchSize lq <=? blen (opsQueue lq) then
    '(lq, db, e) ← flushBatch io lq db;
    Ret (with_err e lq, db, e)
  else Ret (lq, db, q_err lq).

Definition enqueue (io : TxIO) (ops : list queued_op) (lq : TxnQueue) (db : LmdbEmbed T)
  : outcome (TxnQueue * LmdbEmbed T * option kv_error) :=
  match q_err lq with
  | Some e => Ret (lq, db, Some e)
  | None => flush_if_full io (with_ops (opsQueue lq ++ ops) lq) db
  end.

Definition BatchPutKV (io : TxIO) (keys values : list bytes) := enqueue io (imap (fun i key => QPutKV key values i) keys).
Definition BatchDeleteKV (io : TxIO) (keys : list bytes) := enqueue io (QDeleteKV <$> keys).

(** A chunked value is flushed at once. *)
Definition SetLobChunks (io : TxIO) (key : bytes) (chunks : list bytes) (checksum : Z) (lq : TxnQueue) (db : LmdbEmbed T)
  : outcome (TxnQueue * LmdbEmbed T * option kv_error) :=
  match q_err lq with
  | Some e => Ret (lq, db, Some e)
  | None =>
      '(lq, db, e) ← flushBatch io (with_ops (opsQueue lq ++ [QSetLobChunks key chunks checksum]) lq) db;
      Ret (with_err e lq, db, e)
  end.

Definition BatchDeleteLobChunks (io : TxIO) (keys : list bytes) := enqueue io (QDeleteLobChunks <$> keys).

Definition BatchSetCells (io : TxIO) (rowKeys : list bytes) (columnEntriesPerRow : list columns)
    (lq : TxnQueue) (db : LmdbEmbed T) : outcome (TxnQueue * LmdbEmbed T * option kv_error) :=
  match q_err lq with
  | Some e => Ret (lq, db, Some e)
  | None =>
      if negb (blen rowKeys =? blen columnEntriesPerRow)
      then Ret (with_err (Some ErrInvalidArguments) lq, db, Some ErrInvalidArguments)
      else enqueue io (zip_with QSetCells rowKeys columnEntriesPerRow) lq db
  end.

Definition BatchDeleteCells (io : TxIO) (rowKeys : list bytes) (columnEntriesPerRow : list columns)
    (lq : TxnQueue) (db : LmdbEmbed T) : outcome (TxnQueue * LmdbEmbed T * option kv_error) :=
  match q_err lq with
  | Some e => Ret (lq, db, Some e)
  | None =>
      if negb (blen rowKeys =? blen columnEntriesPerRow)
      then Ret (with_err (Some ErrInvalidArguments) lq, db, Some ErrInvalidArguments)
      else enqueue io (zip_with QDeleteCells rowKeys columnEntriesPerRow) lq db
  end.

Definition BatchDeleteRows (io : TxIO) (rowKeys : list bytes) := enqueue io (QDeleteRow <$> rowKeys).

Definition Stats (lq : TxnQueue) : TxnStats := q_stats lq.

Definition Commit (io : TxIO) (lq : TxnQueue) (db : LmdbEmbed T) : outcome (TxnQueue * LmdbEmbed T * option kv_error) :=
  match q_err lq with
  | Some e => Ret (lq, db, Some e)
  | None => flushBatch io lq db
  end.
End queue.
