(* ===== verification/KVQueueFacts.v ===== *)
(** Both transaction queues apply the queued operations in order, whatever
    the batch size: what is in the database is always the result of a prefix
    of the operations, and of all of them after a successful [Commit]. *)

From stdpp Require Import prelude list numbers gmap.
From Stdlib Require Import ZArith Lia.
From S2P Require Import Prelude Bytes KeyCodec KVKeys KVStore KVBolt KVLmdb KVSpec KVReads.
From S2P Require Import KVQueue KVBoltQueue KVLmdbQueue.

(** ** How much an operation can add to the store *)

Definition weight (op : queued_op) : nat :=
  match op with
  | QPutKV _ _ _ => 1
  | QSetLobChunks _ chunks _ => S (length chunks)
  | QSetCells _ cols => length cols
  | _ => 0
  end.

Lemma size_fold_insert {I} (K : I -> bytes) (kvs : list (I * bytes)) : forall m : kvmap,
  (size (foldl (fun m '(i, c) => <[K i := c]> m) m kvs) <= size m + length kvs)%nat.
Proof.
  induction kvs as [|[i c] kvs IH]; intros m; cbn [foldl length]; [lia|].
  specialize (IH (<[K i := c]> m)). rewrite map_size_insert in IH. destruct (m !! K i); cbn in IH; lia.
Qed.

Lemma size_fold_delete {I} (K : I -> bytes) (ks : list I) : forall m : kvmap,
  (size (foldl (fun m i => delete (K i) m) m ks) <= size m)%nat.
Proof.
  induction ks as [|i ks IH]; intros m; cbn [foldl]; [lia|].
  specialize (IH (delete (K i) m)). rewrite map_size_delete in IH. destruct (m !! K i); cbn in IH; lia.
Qed.

Lemma size_delete_le (m : kvmap) k : (size (delete k m) <= size m)%nat.
Proof. rewrite map_size_delete. destruct (m !! k); cbn; lia. Qed.

Lemma size_insert_le (m : kvmap) k v : (size (<[k := v]> m) <= S (size m))%nat.
Proof. rewrite map_size_insert. destruct (m !! k); cbn; lia. Qed.

Lemma size_set_lob key chunks sum m : (size (a_set_lob key chunks sum m) <= size m + S (length chunks))%nat.
Proof.
  unfold a_set_lob. set (m1 := match m !! _ with Some _ => _ | None => _ end).
  assert (size m1 <= size m)%nat as H1.
  { unfold m1. destruct (m !! _) as [v|]; [|lia]. destruct (typed _ v); [|lia]. apply size_fold_delete. }
  pose proof (size_fold_insert (KeyBlobChunk key) (zip (seqZ 1 (blen chunks)) chunks) m1) as H2.
  rewrite length_zip_with, length_seqZ in H2. fold (a_put_chunks key m1 chunks) in H2.
  pose proof (size_insert_le (a_put_chunks key m1 chunks) (KeyBlobChunk key 0) (chunk_metadata (blen chunks) sum)). lia.
Qed.

Lemma size_queued m op : (size (a_queued m op) <= size m + weight op)%nat.
Proof.
  destruct op as [key values i|key|key chunks sum|key|row cols|row cols|row]; cbn [a_queued weight].
  - destruct (values !! i); [|lia]. rewrite map_size_insert. destruct (m !! _); cbn; lia.
  - pose proof (size_delete_le m (KeyKV key)). lia.
  - apply size_set_lob.
  - unfold a_delete_lob. destruct (m !! _) as [v|]; [|lia].
    pose proof (size_delete_le (a_drop_chunks key m (meta_count v)) (KeyBlobChunk key 0)).
    pose proof (size_fold_delete (KeyBlobChunk key) (seqZ 1 (meta_count v)) m). unfold a_drop_chunks in *. lia.
  - apply (size_fold_insert (KeyColumn row) cols m).
  - unfold a_delete_cells. cbn [fst snd].
    assert (forall (cs : columns) (x : kvmap), (size (foldl (fun m '(col, _) => delete (KeyColumn row col) m) x cs) <= size x)%nat) as H.
    { induction cs as [|[c v] cs IH]; intros x; cbn [foldl]; [lia|].
      pose proof (IH (delete (KeyColumn row c) x)). pose proof (size_delete_le x (KeyColumn row c)). lia. }
    specialize (H cols m). lia.
  - unfold a_delete_row, outside. pose proof (map_size_filter (fun kv => HasPrefix kv.1 (RowKey row) = false) m). lia.
Qed.

(** ** The operations, driver by driver *)

(** What a closure indexes into is there. *)
Definition queued_ok (m : kvmap) (op : queued_op) : Prop :=
  match op with
  | QPutKV _ values i => (i < length values)%nat
  | QSetLobChunks key chunks _ => m !! KeyBlobChunk key 0 <> Some [] /\ blen chunks < 2 ^ 32
  | _ => True
  end.

Fixpoint all_ok (m : kvmap) (ops : list queued_op) : Prop :=
  match ops with
  | [] => True
  | op :: rest => queued_ok m op /\ all_ok (a_queued m op) rest
  end.

Definition room (fuel : nat) (m : kvmap) (ops : list queued_op) : Prop :=
  (S (size m + sum_list_with weight ops) < fuel)%nat.

Lemma all_ok_app m ops ops' : all_ok m (ops ++ ops') <-> all_ok m ops /\ all_ok (foldl a_queued m ops) ops'.
Proof. revert m. induction ops as [|op ops IH]; intros m; cbn; [tauto|]. rewrite IH. tauto. Qed.

Lemma size_queued_all ops : forall m, (size (foldl a_queued m ops) <= size m + sum_list_with weight ops)%nat.
Proof.
  induction ops as [|op ops IH]; intros m; cbn [foldl sum_list_with]; [lia|].
  pose proof (IH (a_queued m op)). pose proof (size_queued m op). lia.
Qed.

(** A whole batch, given its operations. *)
Lemma batch_does {S} (abs : S -> kvmap) fuel (run : queued_op -> S -> outcome (S * option kv_error)) :
  (forall op s, queued_ok (abs s) op -> (1 + size (abs s) < fuel)%nat -> does abs (run op s) (a_queued (abs s) op)) ->
  forall ops s, all_ok (abs s) ops -> room fuel (abs s) ops ->
  does abs (for_each run ops s) (foldl a_queued (abs s) ops).
Proof.
  intros Hrun. induction ops as [|op ops IH]; intros s Hok Hroom; cbn [for_each foldl]; [by apply does_ret|].
  destruct Hok as [Hop Hok]. unfold room in Hroom. cbn in Hroom.
  eapply does_seq; [apply Hrun; [done|lia]|]. intros s' Hs'. rewrite <- Hs' in *. apply IH; [done|].
  unfold room. pose proof (size_queued (abs s) op) as Hsz. rewrite <- Hs' in Hsz. lia.
Qed.

Lemma fold_insert_comm {I} (K : I -> bytes) (kvs : list (I * bytes)) k v : k ∉ K <$> kvs.*1 ->
  forall m : kvmap, foldl (fun m '(i, c) => <[K i := c]> m) (<[k := v]> m) kvs =
    <[k := v]> (foldl (fun m '(i, c) => <[K i := c]> m) m kvs).
Proof.
  induction kvs as [|[i c] kvs IH]; intros Hk m; cbn [foldl]; [done|]. cbn in Hk. apply not_elem_of_cons in Hk as [Hne Hk].
  rewrite insert_insert_ne by done. by apply IH.
Qed.

Section bolt.
Context {B : Type} `{BoltLaws B} (fuel : nat).
Notation abs := (fun st : B * TxnStats => b_map st.1).

Lemma on_bucket_does f (st : B * TxnStats) m' : does b_map (f st.1) m' -> does abs (on_bucket f st) m'.
Proof. intros (b & e & Hr & Hm). unfold on_bucket. rewrite Hr. cbn. by exists (b, st.2), e. Qed.

Lemma run_set_lob_does key chunks sum (b : B) : b_map b !! KeyBlobChunk key 0 <> Some [] -> blen chunks < 2 ^ 32 ->
  does b_map (KVBoltQueue.run_set_lob key chunks sum b) (a_set_lob key chunks sum (b_map b)).
Proof.
  intros Hne Hn. unfold a_set_lob. eapply does_seq.
  - unfold KVBolt.drop_old_chunks. rewrite b_Get_law. instantiate (1 := match b_map b !! KeyBlobChunk key 0 with
      | Some v => if typed chunkedValue v then a_drop_chunks key (b_map b) (meta_count v) else b_map b
      | None => b_map b end).
    destruct (b_map b !! KeyBlobChunk key 0) as [[|flag v]|]; [done| |by apply does_ret]. cbn [typed].
    case_bool_decide; [|by apply does_ret]. destruct (Z.ltb_spec (blen (flag :: v)) 9); [apply does_err|].
    rewrite meta_count_get by lia. apply BoltRefines.bolt_delete_chunks_does.
  - intros s <-. eapply does_seq; [apply BoltRefines.bolt_Put_does|]. intros s' Hs'.
    unfold a_put_chunks. rewrite <- fold_insert_comm, <- Hs'; [apply BoltRefines.bolt_put_chunks_does|].
    rewrite zip_seqZ_fst. by apply meta_key_free.
Qed.

Lemma run_delete_lob_does key (b : B) : does b_map (KVBoltQueue.run_delete_lob key b) (a_delete_lob (b_map b) key).
Proof.
  unfold KVBoltQueue.run_delete_lob, a_delete_lob. rewrite b_Get_law.
  destruct (b_map b !! KeyBlobChunk key 0) as [v|]; [|by apply does_ret].
  destruct (Z.eqb_spec (blen v) 9); cbn [negb]; [|apply does_err]. rewrite meta_count_get by lia. cbn [mbind outcome_bind].
  eapply does_seq; [apply BoltRefines.bolt_delete_chunks_does|]. intros s <-. apply BoltRefines.bolt_Delete_does.
Qed.

Lemma bolt_run_op op (st : B * TxnStats) : queued_ok (b_map st.1) op -> (1 + size (b_map st.1) < fuel)%nat ->
  does abs (KVBoltQueue.run_op fuel op st) (a_queued (b_map st.1) op).
Proof.
  intros Hok Hf. destruct op as [key values i|key|key chunks sum|key|row cols|row cols|row]; cbn [KVBoltQueue.run_op a_queued].
  - unfold KVBoltQueue.run_put. destruct (lookup_lt_is_Some_2 values i Hok) as [v ->].
    destruct (BoltRefines.bolt_Put_does (KeyKV key) v st.1) as (b' & e & -> & Hm). cbn [mbind outcome_bind].
    destruct e; [apply does_err|]. apply does_ret. by apply Hm.
  - apply on_bucket_does, BoltRefines.bolt_delete_kv_does.
  - destruct Hok. by apply on_bucket_does, run_set_lob_does.
  - apply on_bucket_does, run_delete_lob_does.
  - unfold KVBoltQueue.run_set_cells. destruct (Z.eqb_spec (blen cols) 0) as [Hz|_].
    { rewrite (blen_zero_nil _ Hz). by apply does_ret. }
    change (b_map st.1) with (abs (st.1, count_put st.2)).
    apply (does_for_all abs _ (fun m '(c, v) => <[KeyColumn row c := v]> m)). intros [k v] [b n]. cbn [fst snd].
    destruct (BoltRefines.bolt_Put_does (KeyColumn row k) v b) as (b' & e & -> & Hb). by exists (b', count_entries 1 n), e.
  - unfold KVBoltQueue.run_delete_cells. destruct (Z.eqb_spec (blen cols) 0) as [Hz|_].
    { rewrite (blen_zero_nil _ Hz). by apply does_ret. }
    change (b_map st.1) with (abs (st.1, count_delete st.2)).
    apply (does_for_all abs _ (fun m '(c, _) => delete (KeyColumn row c) m)). intros [k v] [b n]. cbn [fst snd].
    destruct (BoltRefines.bolt_Delete_does (KeyColumn row k) b) as (b' & e & -> & Hb). by exists (b', count_entries 1 n), e.
  - unfold KVBoltQueue.run_delete_row, a_delete_row. set (p := RowKey row).
    destruct (walk_prefix (b_map st.1) p (b_Next st.1) (b_Next_law st.1) _ (b_Seek_law st.1 p)) as (L & Hw & Hlen & Hnd & HL).
    rewrite (BoltRefines.collect_keys_walk _ _ _ _ Hw) by lia. cbn [mbind outcome_bind].
    rewrite <- (BoltRefines.delete_keys _ _ _ Hnd HL).
    change (b_map st.1) with (abs (st.1, count_delete st.2)). apply (does_for_all abs _ (fun m k => delete k m)).
    intros k [b n]. cbn [fst snd]. destruct (BoltRefines.bolt_Delete_does k b) as (b' & e & -> & Hb). by exists (b', count_entries 1 n), e.
Qed.
End bolt.

Section lmdb.
Context {T : Type} `{LmdbLaws T} (fuel : nat).
(** Deletions fail only for missing keys. *)
Context (del_ok : forall (t : T) k t' e, l_Del t k = (t', Some e) -> e = NotFound).
Notation abs := (fun st : T * TxnStats => l_map st.1).

Lemma l_Del_map (t : T) k : l_map (l_Del t k).1 = delete k (l_map t).
Proof.
  destruct (l_Del t k) as [t' [e|]] eqn:E; cbn; [|by eapply l_Del_law].
  pose proof (del_ok _ _ _ _ E) as ->. apply l_Del_absent in E as [-> Hn]. by rewrite delete_id.
Qed.

Lemma delete_ignoring_map key idx : forall st,
  l_map (delete_chunks_ignoring key idx st).1 = foldl (fun m i => delete (KeyBlobChunk key i) m) (l_map st.1) idx.
Proof.
  induction idx as [|i idx IH]; intros st; cbn [delete_chunks_ignoring foldl]; [done|]. rewrite IH. cbn [fst].
  by rewrite l_Del_map.
Qed.

Lemma run_lob_set_does key chunks sum (st : T * TxnStats) :
  does abs (KVLmdbQueue.run_set_lob key chunks sum st) (a_set_lob key chunks sum (l_map st.1)).
Proof.
  unfold a_set_lob, KVLmdbQueue.run_set_lob.
  set (m1 := match l_map st.1 !! KeyBlobChunk key 0 with
      | Some v => if typed chunkedValue v then a_drop_chunks key (l_map st.1) (meta_count v) else l_map st.1
      | None => l_map st.1 end).
  assert (does l_map (KVLmdb.drop_old_chunks key st.1) m1) as (t1 & e1 & -> & H1).
  { unfold m1, KVLmdb.drop_old_chunks. rewrite LmdbRefines.l_Get_cases.
    destruct (l_map st.1 !! KeyBlobChunk key 0) as [[|flag v]|]; [by apply does_ret| |by apply does_ret]. cbn [typed].
    case_bool_decide; [|by apply does_ret]. destruct (Z.ltb_spec (blen (flag :: v)) 9); [apply does_err|].
    rewrite meta_count_get by lia. apply LmdbRefines.lmdb_delete_chunks_does. }
  cbn [mbind outcome_bind]. destruct e1 as [e1|]; [apply does_err|]. rewrite <- H1 by done.
  eapply does_seq.
  - apply (does_for_all abs _ (fun m '(i, c) => <[KeyBlobChunk key i := c]> m)). intros [i c] [t n]. cbn [fst snd].
    destruct (LmdbRefines.lmdb_Put_does (KeyBlobChunk key i) c t) as (t' & e & -> & Hb). by exists (t', count_entries 1 n), e.
  - intros s Hs. destruct (LmdbRefines.lmdb_Put_does (KeyBlobChunk key 0) (chunk_metadata (blen chunks) sum) s.1) as (t' & e & -> & Hb).
    exists (t', s.2), e. split; [done|]. intros He. cbn [fst]. rewrite Hb by done. by rewrite Hs.
Qed.

Lemma run_lob_delete_does key (st : T * TxnStats) :
  does abs (KVLmdbQueue.run_delete_lob key st) (a_delete_lob (l_map st.1) key).
Proof.
  unfold KVLmdbQueue.run_delete_lob, a_delete_lob. rewrite LmdbRefines.l_Get_cases.
  destruct (l_map st.1 !! KeyBlobChunk key 0) as [v|]; [|by apply does_ret].
  destruct (Z.ltb_spec (blen v) 9); [apply does_err|]. rewrite meta_count_get by lia. cbn [mbind outcome_bind].
  set (st' := delete_chunks_ignoring _ _ _).
  destruct (LmdbRefines.lmdb_Del_does (KeyBlobChunk key 0) st'.1) as (t' & e & -> & Hb). cbn [mbind outcome_bind].
  destruct e; [apply does_err|]. apply does_ret. cbn [fst]. rewrite Hb by done. unfold st'. by rewrite delete_ignoring_map.
Qed.

Lemma lmdb_run_op op (st : T * TxnStats) : queued_ok (l_map st.1) op -> (1 + size (l_map st.1) < fuel)%nat ->
  does abs (KVLmdbQueue.run_op fuel op st) (a_queued (l_map st.1) op).
Proof.
  intros Hok Hf. destruct op as [key values i|key|key chunks sum|key|row cols|row cols|row]; cbn [KVLmdbQueue.run_op a_queued].
  - unfold KVLmdbQueue.run_put. destruct (lookup_lt_is_Some_2 values i Hok) as [v ->].
    destruct (LmdbRefines.lmdb_Put_does (KeyKV key) v st.1) as (t' & e & -> & Hm). cbn [mbind outcome_bind].
    destruct e; [apply does_err|]. apply does_ret. by apply Hm.
  - unfold run_delete_kv. pose proof (l_Del_map st.1 (KeyKV key)) as Hd.
    destruct (l_Del st.1 (KeyKV key)) as [t' [e|]]; [destruct (IsNotFound e); [by apply does_ret|apply does_err]|by apply does_ret].
  - apply run_lob_set_does.
  - apply run_lob_delete_does.
  - unfold KVLmdbQueue.run_set_cells. destruct (Z.eqb_spec (blen cols) 0) as [Hz|_].
    { rewrite (blen_zero_nil _ Hz). by apply does_ret. }
    change (l_map st.1) with (abs (st.1, count_put st.2)).
    apply (does_for_all abs _ (fun m '(c, v) => <[KeyColumn row c := v]> m)). intros [k v] [t n]. cbn [fst snd].
    destruct (LmdbRefines.lmdb_Put_does (KeyColumn row k) v t) as (t' & e & -> & Hb). by exists (t', count_entries 1 n), e.
  - unfold KVLmdbQueue.run_delete_cells. destruct (Z.eqb_spec (blen cols) 0) as [Hz|_].
    { rewrite (blen_zero_nil _ Hz). by apply does_ret. }
    eapply (does_seq abs).
    + apply (does_for_all abs _ (fun m '(c, _) => delete (KeyColumn row c) m)). intros [k v] [t n]. cbn [fst snd].
      pose proof (l_Del_map t (KeyColumn row k)) as Hd.
      destruct (l_Del t (KeyColumn row k)) as [t' [e|]]; [destruct (IsNotFound e); [by apply does_ret|apply does_err]|by apply does_ret].
    + intros s Hs. by apply does_ret.
  - unfold KVLmdbQueue.run_delete_row. destruct (l_OpenCursor st.1); [apply does_err|].
    destruct (LmdbRefines.delete_one_row fuel row st.1 0 Hf) as (t' & n' & e & -> & Hres). cbn [mbind outcome_bind].
    destruct Hres as [[e' ->]|(Hm & _ & [[-> _]|[-> _]])]; [apply does_err|by apply does_ret..].
Qed.
End lmdb.

(** ** The queue, over any driver *)

Section queue.
Context {D : Type} (contents : D -> option kvmap) (fuel : nat).
Context (flush : TxIO -> TxnQueue -> D -> outcome (TxnQueue * D * option kv_error)).

(** One transaction per batch, all or nothing. *)
Definition flush_spec : Prop := forall io q db m,
  q_err q = None -> contents db = Some m -> all_ok m (opsQueue q) -> room fuel m (opsQueue q) ->
  exists q' db' e, flush io q db = Ret (q', db', e) /\
    match e with
    | None => contents db' = Some (foldl a_queued m (opsQueue q)) /\ q_err q' = None /\ opsQueue q' = []
    | Some _ => db' = db
    end.

Definition g_flush_if_full (io : TxIO) (q : TxnQueue) (db : D) : outcome (TxnQueue * D * option kv_error) :=
  if maxBatchSize q <=? blen (opsQueue q) then
    '(q, db, e) ← flush io q db; Ret (with_err e q, db, e)
  else Ret (q, db, q_err q).

Definition g_enqueue (io : TxIO) (ops : list queued_op) (q : TxnQueue) (db : D) : outcome (TxnQueue * D * option kv_error) :=
  match q_err q with
  | Some e => Ret (q, db, Some e)
  | None => g_flush_if_full io (with_ops (opsQueue q ++ ops) q) db
  end.

(** What a call of the queue promises: the operations that are in the
    database are a prefix of those queued so far, and the others wait. *)
Definition step_ok (m : kvmap) (db : D) (ops : list queued_op) (commits : bool)
    (r : outcome (TxnQueue * D * option kv_error)) : Prop :=
  exists q' db' e done rest, r = Ret (q', db', e) /\ ops = done ++ rest /\
    contents db' = Some (foldl a_queued m done) /\
    (e = None -> q_err q' = None /\ opsQueue q' = rest /\ (commits = true -> rest = [])).

Context (Hflush : flush_spec).

Lemma flush_step io q db m b : q_err q = None -> contents db = Some m -> all_ok m (opsQueue q) -> room fuel m (opsQueue q) ->
  step_ok m db (opsQueue q) b (flush io q db) /\
  step_ok m db (opsQueue q) b ('(q, db, e) ← flush io q db; Ret (with_err e q, db, e)).
Proof.
  intros He Hc Hok Hr. destruct (Hflush io q db m He Hc Hok Hr) as (q' & db' & e & -> & Hres). cbn [mbind outcome_bind].
  destruct e as [e|].
  - subst db'. split; eexists _, db, (Some e), [], (opsQueue q); (split; [done|]); (split; [done|]); (split; [exact Hc|]); done.
  - destruct Hres as (Hc' & He' & Ho). split; eexists _, db', None, (opsQueue q), []; (split; [done|]);
      (split; [by rewrite app_nil_r|]); (split; [exact Hc'|]); done.
Qed.

Lemma enqueue_step io ops q db m : q_err q = None -> contents db = Some m ->
  all_ok m (opsQueue q ++ ops) -> room fuel m (opsQueue q ++ ops) ->
  step_ok m db (opsQueue q ++ ops) false (g_enqueue io ops q db).
Proof.
  intros He Hc Hok Hr. unfold g_enqueue, g_flush_if_full. rewrite He. destruct (_ <=? _).
  - by apply (flush_step io (with_ops (opsQueue q ++ ops) q) db m false).
  - eexists _, db, _, [], (opsQueue q ++ ops). split; [done|]. split; [done|]. split; [exact Hc|]. done.
Qed.
End queue.

Definition is_commit (c : queue_call) : bool := match c with CCommit => true | _ => false end.

(** A client that stops at the first error. *)
Fixpoint run_queue {D} (call : TxIO -> queue_call -> TxnQueue -> D -> outcome (TxnQueue * D * option kv_error))
    (cs : list (TxIO * queue_call)) (q : TxnQueue) (db : D) : outcome (TxnQueue * D * option kv_error) :=
  match cs with
  | [] => Ret (q, db, None)
  | (io, c) :: rest =>
      '(q, db, e) ← call io c q db;
      match e with
      | Some e => Ret (q, db, Some e)
      | None => run_queue call rest q db
      end
  end.

Definition all_queued (cs : list (TxIO * queue_call)) : list queued_op := concat ((fun c => queued_by c.2) <$> cs).

Section run.
Context {D : Type} (contents : D -> option kvmap) (fuel : nat).
Context (call : TxIO -> queue_call -> TxnQueue -> D -> outcome (TxnQueue * D * option kv_error)).
Context (Hcall : forall io c q db m, q_err q = None -> contents db = Some m ->
  all_ok m (opsQueue q ++ queued_by c) -> room fuel m (opsQueue q ++ queued_by c) ->
  step_ok contents m db (opsQueue q ++ queued_by c) (is_commit c) (call io c q db)).

Lemma room_app m done rest : room fuel m (done ++ rest) -> room fuel (foldl a_queued m done) rest.
Proof.
  unfold room. rewrite sum_list_with_app. pose proof (size_queued_all done m). lia.
Qed.

Lemma run_queue_spec cs : forall q db m, q_err q = None -> contents db = Some m ->
  all_ok m (opsQueue q ++ all_queued cs) -> room fuel m (opsQueue q ++ all_queued cs) ->
  exists q' db' e done rest, run_queue call cs q db = Ret (q', db', e) /\
    opsQueue q ++ all_queued cs = done ++ rest /\ contents db' = Some (foldl a_queued m done) /\
    (e = None -> q_err q' = None /\ opsQueue q' = rest /\ (is_commit <$> (last cs.*2) = Some true -> rest = [])).
Proof.
  induction cs as [|[io c] cs IH]; intros q db m He Hc Hok Hr; cbn [run_queue].
  - exists q, db, None, [], (opsQueue q). split; [done|]. split; [cbn; by rewrite app_nil_r|]. split; [exact Hc|].
    intros _. done.
  - change (all_queued ((io, c) :: cs)) with (queued_by c ++ all_queued cs) in *. rewrite app_assoc in *.
    apply all_ok_app in Hok as Hok'. destruct Hok' as [Hok1 _].
    assert (room fuel m (opsQueue q ++ queued_by c)) as Hr1.
    { unfold room in *. rewrite sum_list_with_app in Hr. lia. }
    destruct (Hcall io c q db m He Hc Hok1 Hr1) as (q1 & db1 & e1 & done1 & rest1 & -> & Hsplit & Hc1 & Hn1).
    cbn [mbind outcome_bind]. rewrite Hsplit in *. destruct e1 as [e1|].
    { exists q1, db1, (Some e1), done1, (rest1 ++ all_queued cs). split; [done|]. split; [by rewrite app_assoc|].
      split; [exact Hc1|]. done. }
    destruct (Hn1 eq_refl) as (He1 & Ho1 & Hcm1). rewrite <- app_assoc in Hok, Hr. apply all_ok_app in Hok as [_ Hok].
    apply room_app in Hr. rewrite <- Ho1 in Hok, Hr.
    destruct (IH q1 db1 _ He1 Hc1 Hok Hr) as (q' & db' & e & done & rest & -> & Hsp & Hc' & Hn').
    exists q', db', e, (done1 ++ done), rest. split; [done|].
    split; [rewrite <- app_assoc, <- Ho1, Hsp; by rewrite app_assoc|]. split; [by rewrite foldl_app|].
    intros He'. destruct (Hn' He') as (H1 & H2 & H3). split; [done|]. split; [done|].
    destruct cs as [|x cs]; [|exact H3]. cbn. intros [= Hcm]. specialize (Hcm1 Hcm). rewrite Hcm1 in Ho1.
    rewrite Ho1 in Hsp. cbn in Hsp. by destruct done, rest.
Qed.
End run.

(** ** Both queues *)

Definition bolt_queue_call {B} `{BoltBucket B} (fuel : nat) (io : TxIO) (c : queue_call) (q : TxnQueue) (db : BoltDB B)
  : outcome (TxnQueue * BoltDB B * option kv_error) :=
  match c with
  | CBatchPutKV keys values => KVBoltQueue.BatchPutKV fuel io keys values q db
  | CBatchDeleteKV keys => KVBoltQueue.BatchDeleteKV fuel io keys q db
  | CSetLobChunks key chunks checksum => KVBoltQueue.SetLobChunks fuel io key chunks checksum q db
  | CBatchDeleteLobChunks keys => KVBoltQueue.BatchDeleteLobChunks fuel io keys q db
  | CBatchSetCells rows cols => KVBoltQueue.BatchSetCells fuel io rows cols q db
  | CBatchDeleteCells rows cols => KVBoltQueue.BatchDeleteCells fuel io rows cols q db
  | CBatchDeleteRows rows => KVBoltQueue.BatchDeleteRows fuel io rows q db
  | CCommit => KVBoltQueue.Commit fuel io q db
  end.

Definition lmdb_queue_call {T} `{LmdbTxn T} (fuel : nat) (io : TxIO) (c : queue_call) (q : TxnQueue) (db : LmdbEmbed T)
  : outcome (TxnQueue * LmdbEmbed T * option kv_error) :=
  match c with
  | CBatchPutKV keys values => KVLmdbQueue.BatchPutKV fuel io keys values q db
  | CBatchDeleteKV keys => KVLmdbQueue.BatchDeleteKV fuel io keys q db
  | CSetLobChunks key chunks checksum => KVLmdbQueue.SetLobChunks fuel io key chunks checksum q db
  | CBatchDeleteLobChunks keys => KVLmdbQueue.BatchDeleteLobChunks fuel io keys q db
  | CBatchSetCells rows cols => KVLmdbQueue.BatchSetCells fuel io rows cols q db
  | CBatchDeleteCells rows cols => KVLmdbQueue.BatchDeleteCells fuel io rows cols q db
  | CBatchDeleteRows rows => KVLmdbQueue.BatchDeleteRows fuel io rows q db
  | CCommit => KVLmdbQueue.Commit fuel io q db
  end.

(** A refused call leaves everything waiting. *)
Lemma refused_step {D} (contents : D -> option kvmap) m db ops b q e : contents db = Some m ->
  step_ok contents m db ops b (Ret (q, db, Some e)).
Proof. intros Hc. exists q, db, (Some e), [], ops. split; [done|]. split; [done|]. split; [exact Hc|done]. Qed.

Lemma bolt_flush_spec {B} `{BoltLaws B} fuel :
  flush_spec (BoltRefines.contents (B:=B)) fuel (KVBoltQueue.flushBatch fuel).
Proof.
  intros io q db m He Hc Hok Hr. unfold KVBoltQueue.flushBatch, KVBoltQueue.txn_state. rewrite He. destruct (opsQueue q) as [|op ops] eqn:Ho.
  { exists q, db, None. rewrite Ho. done. }
  rewrite <- Ho in Hok, Hr. unfold BoltRefines.contents in Hc. destruct (bd_namespace db) as [b|] eqn:Hb; [|done]. injection Hc as <-.
  destruct (tx_begin io) as [e|]; [by eexists _, db, (Some _)|].
  destruct (batch_does (fun st : B * TxnStats => b_map st.1) fuel (KVBoltQueue.run_op fuel)
    (bolt_run_op fuel) (opsQueue q) (b, q_counts q) Hok Hr) as (st & e & Hrun & Hm).
  rewrite Ho in Hrun, Hm. rewrite Hrun. cbn [mbind outcome_bind]. destruct e as [e|]; [by eexists _, db, (Some _)|].
  destruct (tx_commit io) as [e|]; [by eexists _, db, (Some _)|].
  eexists _, _, None. split; [done|]. unfold BoltRefines.contents. cbn. by rewrite Hm.
Qed.

Lemma lmdb_flush_spec {T} `{LmdbLaws T} fuel :
  (forall (t : T) k t' e, l_Del t k = (t', Some e) -> e = NotFound) ->
  flush_spec (LmdbRefines.contents (T:=T)) fuel (KVLmdbQueue.flushBatch fuel).
Proof.
  intros Hdel io q db m He Hc Hok Hr. unfold KVLmdbQueue.flushBatch, KVLmdbQueue.txn_state. rewrite He. destruct (opsQueue q) as [|op ops] eqn:Ho.
  { exists q, db, None. rewrite Ho. done. }
  rewrite <- Ho in Hok, Hr. unfold LmdbRefines.contents in Hc. injection Hc as <-.
  destruct (tx_begin io) as [e|]; [by eexists _, db, (Some _)|].
  destruct (batch_does (fun st : T * TxnStats => l_map st.1) fuel (KVLmdbQueue.run_op fuel)
    (lmdb_run_op fuel Hdel) (opsQueue q) (ld_data db, q_counts q) Hok Hr) as (st & e & Hrun & Hm).
  rewrite Ho in Hrun, Hm. rewrite Hrun. cbn [mbind outcome_bind]. destruct e as [e|]; [by eexists _, db, (Some _)|].
  destruct (tx_commit io) as [e|]; [by eexists _, db, (Some _)|].
  eexists _, _, None. split; [done|]. unfold LmdbRefines.contents. cbn. by rewrite Hm.
Qed.

Lemma bolt_call_step {B} `{BoltLaws B} fuel io c q (db : BoltDB B) m :
  q_err q = None -> BoltRefines.contents db = Some m ->
  all_ok m (opsQueue q ++ queued_by c) -> room fuel m (opsQueue q ++ queued_by c) ->
  step_ok BoltRefines.contents m db (opsQueue q ++ queued_by c) (is_commit c) (bolt_queue_call fuel io c q db).
Proof.
  intros He Hc Hok Hr. pose proof (bolt_flush_spec (B:=B) fuel) as Hfl.
  assert (forall ops, ops = queued_by c -> step_ok BoltRefines.contents m db (opsQueue q ++ queued_by c) false
            (g_enqueue (KVBoltQueue.flushBatch fuel) io ops q db)) as Henq.
  { intros ops ->. by apply (enqueue_step _ fuel). }
  destruct c as [ks vs|ks|key chunks sum|ks|rows cols|rows cols|rows|]; cbn [bolt_queue_call is_commit]; try (by apply Henq).
  - unfold KVBoltQueue.BatchSetCells. rewrite He. destruct (negb _); [by apply refused_step|by apply Henq].
  - unfold KVBoltQueue.BatchDeleteCells. rewrite He. destruct (negb _); [by apply refused_step|by apply Henq].
  - unfold KVBoltQueue.Commit. rewrite He. cbn [queued_by] in *. rewrite app_nil_r in *.
    by apply (flush_step _ fuel _ Hfl io q db m true).
Qed.

Lemma lmdb_call_step {T} `{LmdbLaws T} fuel io c q (db : LmdbEmbed T) m :
  (forall (t : T) k t' e, l_Del t k = (t', Some e) -> e = NotFound) ->
  q_err q = None -> LmdbRefines.contents db = Some m ->
  all_ok m (opsQueue q ++ queued_by c) -> room fuel m (opsQueue q ++ queued_by c) ->
  step_ok LmdbRefines.contents m db (opsQueue q ++ queued_by c) (is_commit c) (lmdb_queue_call fuel io c q db).
Proof.
  intros Hdel He Hc Hok Hr. pose proof (lmdb_flush_spec (T:=T) fuel Hdel) as Hfl.
  assert (forall ops, ops = queued_by c -> step_ok LmdbRefines.contents m db (opsQueue q ++ queued_by c) false
            (g_enqueue (KVLmdbQueue.flushBatch fuel) io ops q db)) as Henq.
  { intros ops ->. by apply (enqueue_step _ fuel). }
  destruct c as [ks vs|ks|key chunks sum|ks|rows cols|rows cols|rows|]; cbn [lmdb_queue_call is_commit]; try (by apply Henq).
  - unfold KVLmdbQueue.SetLobChunks. rewrite He. cbn [queued_by] in *.
    by apply (flush_step _ fuel _ Hfl io (with_ops (opsQueue q ++ [QSetLobChunks key chunks sum]) q) db m false).
  - unfold KVLmdbQueue.BatchSetCells. rewrite He. destruct (negb _); [by apply refused_step|by apply Henq].
  - unfold KVLmdbQueue.BatchDeleteCells. rewrite He. destruct (negb _); [by apply refused_step|by apply Henq].
  - unfold KVLmdbQueue.Commit. rewrite He. cbn [queued_by] in *. rewrite app_nil_r in *.
    by apply (flush_step _ fuel _ Hfl io q db m true).
Qed.

Lemma all_queued_commit cs io : all_queued (cs ++ [(io, CCommit)]) = all_queued cs.
Proof. unfold all_queued. rewrite fmap_app, concat_app. cbn. by rewrite app_nil_r. Qed.

Lemma last_commit (cs : list (TxIO * queue_call)) io : is_commit <$> last ((cs ++ [(io, CCommit)]).*2) = Some true.
Proof. rewrite fmap_app, last_app. done. Qed.


Definition queue_demo : list (TxIO * queue_call) :=
  [(okTx, CBatchPutKV [[Byte.x01]; [Byte.x02]] [[Byte.x0a]; [Byte.x0b]]);
   (okTx, CBatchSetCells [[Byte.x03]] [[([Byte.x61], [Byte.x0c])]]);
   (okTx, CSetLobChunks [Byte.x07] [[Byte.x01]; [Byte.x02]] 5);
   (okTx, CBatchDeleteKV [[Byte.x01]]);
   (okTx, CBatchDeleteRows [[Byte.x03]])].

Lemma queue_demo_ok : all_ok (∅ : kvmap) (all_queued queue_demo).
Proof.
  cbn [all_queued queue_demo]. cbn -[a_queued]. repeat split; try lia; cbn [a_queued lookup list_lookup]; vm_compute; done.
Qed.

Lemma map_del_ok (t : kvmap) k t' e : l_Del t k = (t', Some e) -> e = NotFound.
Proof. cbn. destruct (t !! k); congruence. Qed.

