(* ===== verification/Splitter.v ===== *)
(** Splitting large values into chunks: pkg/splitter/chunk.go. *)

From stdpp Require Import prelude list numbers.
From Stdlib Require Import ZArith Lia.
From S2P Require Import Prelude Bytes Crc32.

Definition chunkSizeMB : Z := 1 * 1024 * 1024.

Variant chunk_type := ChunkTypeFirst | ChunkTypeMiddle | ChunkTypeLast.

Record Chunk := mkChunk { Data : bytes; ChunkType : chunk_type }.

Definition DetermineChunkType (start end_ totalSize : Z) : chunk_type :=
  if start =? 0 then ChunkTypeFirst
  else if end_ =? totalSize then ChunkTypeLast
  else ChunkTypeMiddle.

(** [for offset < dataSize { ... }] *)
Fixpoint split_loop (fuel : nat) (data : bytes) (offset : Z) : outcome (list Chunk) :=
  match fuel with
  | O => NoFuel
  | S fuel =>
      let dataSize := blen data in
      if offset <? dataSize then
        let end_ := if dataSize <? offset + chunkSizeMB then dataSize else offset + chunkSizeMB in
        part ← slice data offset end_;
        chunks ← split_loop fuel data end_;
        Ret (mkChunk part (DetermineChunkType offset end_ dataSize) :: chunks)
      else Ret []
  end.

(** One turn per chunk, and one more to see the end. *)
Definition split_fuel (data : bytes) : nat := S (Z.to_nat (blen data)).

Definition SplitIntoChunks (data : bytes) : outcome (list Chunk) :=
  let dataSize := blen data in
  if dataSize <=? chunkSizeMB
  then Ret [mkChunk data (DetermineChunkType dataSize dataSize dataSize)]
  else split_loop (split_fuel data) data 0.

Definition AssembleChunks (chunks : list Chunk) : bytes := concat (Data <$> chunks).

Definition ComputeChecksum (data : bytes) : Z := crc32.ChecksumIEEE data.

(** ** The loop ends and loses nothing *)

Definition full_chunks (cs : list Chunk) : Prop := Forall (fun c => 0 < blen (Data c) <= chunkSizeMB) cs.

Lemma split_loop_spec data fuel : forall offset, 0 <= offset <= blen data -> blen data - offset < Z.of_nat fuel ->
  exists cs, split_loop fuel data offset = Ret cs /\ AssembleChunks cs = drop (Z.to_nat offset) data /\ full_chunks cs /\
    (offset < blen data -> ChunkType <$> list.last cs = Some (if blen data - offset <=? chunkSizeMB
       then DetermineChunkType offset (blen data) (blen data) else ChunkTypeLast)).
Proof.
  induction fuel as [|fuel IH]; intros offset Ho Hf; [lia|]. cbn [split_loop].
  destruct (Z.ltb_spec offset (blen data)) as [Hlt|Hge].
  2: { exists []. assert (offset = blen data) as -> by lia. rewrite to_nat_blen, drop_all.
       split; [done|]. split; [done|]. split; [constructor|lia]. }
  set (e := if blen data <? offset + chunkSizeMB then blen data else offset + chunkSizeMB).
  assert (offset < e <= blen data /\ e - offset <= chunkSizeMB /\ (e < blen data -> e = offset + chunkSizeMB)) as (He & Hsz & Hfull).
  { unfold e, chunkSizeMB. destruct (Z.ltb_spec (blen data) (offset + 1 * 1024 * 1024)); lia. }
  destruct (IH e ltac:(lia) ltac:(lia)) as (cs & Hcs & Hasm & Hfc & Hlast).
  unfold slice. replace ((0 <=? offset) && (offset <=? e) && (e <=? blen data)) with true by lia.
  cbn [mbind outcome_bind]. rewrite Hcs. cbn [mbind outcome_bind].
  eexists. split; [done|]. set (part := take _ _).
  assert (blen part = e - offset) as Hp.
  { unfold part, blen. rewrite length_take, length_drop. unfold blen in *. lia. }
  split; [|split].
  - change (AssembleChunks (?c :: cs)) with (Data c ++ AssembleChunks cs). cbn [Data]. rewrite Hasm. unfold part.
    rewrite <- (take_drop (Z.to_nat (e - offset)) (drop (Z.to_nat offset) data)) at 2. rewrite drop_drop.
    do 2 f_equal. lia.
  - constructor; [cbn; lia|done].
  - intros _. destruct (Z.ltb_spec e (blen data)) as [Hlt'|Hge'].
    + rewrite last_cons. specialize (Hlast Hlt'). destruct (list.last cs) as [c|]; [|done]. cbn in Hlast |- *.
      specialize (Hfull Hlt'). replace (blen data - offset <=? chunkSizeMB) with false by lia.
      injection Hlast as ->. f_equal. destruct (_ <=? _); [|done]. unfold DetermineChunkType.
      replace (e =? 0) with false by lia. by rewrite Z.eqb_refl.
    + assert (e = blen data) as Hee by lia. replace (blen data - offset <=? chunkSizeMB) with true by lia.
      assert (cs = []) as ->; [|cbn; by rewrite Hee].
      destruct fuel; [done|]. cbn [split_loop] in Hcs. rewrite Hee, Z.ltb_irrefl in Hcs. congruence.
Qed.

(** C40. Splitting is lossless: it always returns, no chunk is longer than
    1 MiB, assembling the chunks gives the data back, and when the data are
    split the last chunk carries the type of a last chunk. *)
Theorem split_assemble_roundtrip data :
  exists cs, SplitIntoChunks data = Ret cs /\ AssembleChunks cs = data /\
    Forall (fun c => blen (Data c) <= chunkSizeMB) cs /\
    (chunkSizeMB < blen data -> full_chunks cs /\ ChunkType <$> list.last cs = Some ChunkTypeLast).
Proof.
  unfold SplitIntoChunks. destruct (Z.leb_spec (blen data) chunkSizeMB) as [Hle|Hgt].
  - eexists. split; [done|]. split; [by cbn; rewrite app_nil_r|]. split; [constructor; [done|constructor]|lia].
  - pose proof (blen_nonneg data).
    destruct (split_loop_spec data (split_fuel data) 0 ltac:(lia)) as (cs & Hcs & Hasm & Hfc & Hlast).
    { unfold split_fuel. lia. }
    exists cs. split; [done|]. split; [done|]. split; [|].
    + unfold full_chunks in Hfc. rewrite Forall_forall in *. intros c Hc. specialize (Hfc c Hc). cbn in Hfc. lia.
    + intros _. split; [done|]. unfold chunkSizeMB in *. rewrite Hlast by lia.
      by replace (blen data - 0 <=? 1 * 1024 * 1024) with false by lia.
Qed.
