(* ===== verification/LogCodec.v ===== *)
(** Log records and their encoding: internal/logcodec/{codec,kv_codec,row_codec,record}.go.

    FlatBuffers and the accessors generated from the schema are a parameter:
    [FlatBuffers] writes a finished table and reads its fields back.  What the
    package itself decides (which fields are added, in which order the entries
    and columns are written, what a missing vector reads as) is modelled. *)

From stdpp Require Import prelude list numbers countable.
From Stdlib Require Import ZArith Lia.
From S2P Require Import Prelude Bytes.

(** ** Enumerations of the schema *)

Definition LogOperationTypeNoOperation : Z := 0.
Definition LogOperationTypeInsert : Z := 1.
Definition LogOperationTypeDelete : Z := 2.
Definition LogOperationTypeTxnMarker : Z := 3.
Definition LogOperationTypeDeleteRowByKey : Z := 4.

Definition LogEntryTypeKV : Z := 0.
Definition LogEntryTypeChunked : Z := 1.
Definition LogEntryTypeRow : Z := 2.

Definition TransactionStateNone : Z := 0.
Definition TransactionStateBegin : Z := 1.
Definition TransactionStatePrepare : Z := 2.
Definition TransactionStateCommit : Z := 3.

(** ** Finished tables

    A vector field is [None] when it was not added. *)

Record fb_log := mkFbLog {
  fb_lsn : Z; fb_hlc : Z; fb_crc32_checksum : Z;
  fb_operation_type : Z; fb_txn_state : Z; fb_entry_type : Z;
  fb_txn_id : option bytes; fb_prev_txn_wal_index : option bytes;
  fb_entries : option (list bytes)
}.

Record fb_kv := mkFbKV { fb_kv_key : option bytes; fb_kv_value : option bytes }.
Record fb_row := mkFbRow { fb_row_key : option bytes; fb_columns : list (bytes * bytes) }.

(** The widths of the scalar fields. *)
Definition fb_log_fits (t : fb_log) : Prop :=
  0 <= fb_lsn t < 2 ^ 64 /\ 0 <= fb_hlc t < 2 ^ 64 /\ 0 <= fb_crc32_checksum t < 2 ^ 32 /\
  0 <= fb_operation_type t < 256 /\ 0 <= fb_txn_state t < 256 /\ 0 <= fb_entry_type t < 256.

(** Writing a finished table and reading its root. Reading bytes that are not
    a table may panic. *)
Class FlatBuffers := {
  fb_finish_log : fb_log -> bytes;
  GetRootAsLogRecord : bytes -> outcome fb_log;
  fb_finish_kv : fb_kv -> bytes;
  GetRootAsKeyValueEntry : bytes -> outcome fb_kv;
  fb_finish_row : fb_row -> bytes;
  GetRootAsRowUpdateEntry : bytes -> outcome fb_row
}.

(** The fields of a finished table read back as they were added. *)
Class FlatBuffersLaws `{FlatBuffers} := {
  fb_log_law t : fb_log_fits t -> GetRootAsLogRecord (fb_finish_log t) = Ret t;
  fb_kv_law t : GetRootAsKeyValueEntry (fb_finish_kv t) = Ret t;
  fb_row_law t : GetRootAsRowUpdateEntry (fb_finish_row t) = Ret t
}.

(** ** Records of the package *)

Record KeyValueEntry := mkKV { kv_Key : bytes; kv_Value : bytes }.
Record RowEntry := mkRow { row_Key : bytes; row_Columns : list (bytes * bytes) }.

Record LogRecord := mkLogRecord {
  LSN : Z; HLC : Z; CRC32Checksum : Z;
  OperationType : Z; TxnState : Z; EntryType : Z;
  TxnID : bytes; PrevTxnWalIndex : bytes; Entries : list bytes
}.

(** Accessors: a vector that is not there reads as nil. *)
Definition vector (v : option bytes) : bytes := default [] v.
Definition PrevTxnWalIndexBytes (t : fb_log) : bytes := vector (fb_prev_txn_wal_index t).
Definition PrevTxnWalIndexLength (t : fb_log) : Z := blen (PrevTxnWalIndexBytes t).

(** [m[k] = v] on a map that is ranged over in the order of the list. *)
Fixpoint map_set {V} (k : bytes) (v : V) (m : list (bytes * V)) : list (bytes * V) :=
  match m with
  | [] => [(k, v)]
  | (k', v') :: rest => if bool_decide (k = k') then (k, v) :: rest else (k', v') :: map_set k v rest
  end.

Section codec.
Context `{FlatBuffers}.

(** Vectors are added only when they are not empty. *)
Definition nonempty (v : bytes) : option bytes := if 0 <? blen v then Some v else None.

Definition serializeLogRecord (record : LogRecord) : bytes :=
  fb_finish_log (mkFbLog (LSN record) (HLC record) (CRC32Checksum record)
    (OperationType record) (TxnState record) (EntryType record)
    (nonempty (TxnID record)) (nonempty (PrevTxnWalIndex record)) (Some (Entries record))).

(** [sizeHint] is the first allocation of the builder. *)
Definition FBEncode (r : LogRecord) (sizeHint : Z) : bytes := serializeLogRecord r.

Definition DeserializeFBRootLogRecord (fbRecord : fb_log) : LogRecord :=
  mkLogRecord (fb_lsn fbRecord) (fb_hlc fbRecord) (fb_crc32_checksum fbRecord)
    (fb_operation_type fbRecord) (fb_txn_state fbRecord) (fb_entry_type fbRecord)
    (vector (fb_txn_id fbRecord)) (PrevTxnWalIndexBytes fbRecord) (default [] (fb_entries fbRecord)).

Definition DeserializeLogRecord (data : bytes) : outcome LogRecord :=
  t ← GetRootAsLogRecord data; Ret (DeserializeFBRootLogRecord t).

Definition SerializeKVEntry (key value : bytes) : bytes := fb_finish_kv (mkFbKV (Some key) (Some value)).

Definition DeserializeKVEntry (data : bytes) : outcome KeyValueEntry :=
  record ← GetRootAsKeyValueEntry data;
  Ret (mkKV (vector (fb_kv_key record)) (vector (fb_kv_value record))).

(** [columns] is the map in the order in which it is ranged over. *)
Definition SerializeRowUpdateEntry (rowKey : bytes) (columns : list (bytes * bytes)) : bytes :=
  fb_finish_row (mkFbRow (Some rowKey) columns).

Definition DeserializeRowUpdateEntry (buf : bytes) : outcome RowEntry :=
  rowEntry ← GetRootAsRowUpdateEntry buf;
  Ret (mkRow (vector (fb_row_key rowEntry))
         (foldl (fun columns '(colName, colValue) => map_set colName colValue columns) [] (fb_columns rowEntry))).
End codec.

(** ** Round trips *)

Lemma map_set_fresh {V} k (v : V) m : k ∉ m.*1 -> map_set k v m = m ++ [(k, v)].
Proof.
  induction m as [|[k' v'] m IH]; intros Hk; [done|]. cbn in Hk. apply not_elem_of_cons in Hk as [Hne Hk].
  cbn. rewrite bool_decide_false by done. by rewrite IH.
Qed.

Lemma map_of_list {V} (cols : list (bytes * V)) : NoDup cols.*1 ->
  foldl (fun m '(k, v) => map_set k v m) [] cols = cols.
Proof.
  assert (forall acc, NoDup (acc ++ cols).*1 -> foldl (fun m '(k, v) => map_set k v m) acc cols = acc ++ cols) as Hacc;
    [|exact (Hacc [])].
  induction cols as [|[k v] cols IH]; intros acc Hnd; cbn [foldl]; [by rewrite app_nil_r|].
  rewrite map_set_fresh, IH; rewrite <- ?app_assoc; [done|done|].
  rewrite fmap_app in Hnd. apply list.NoDup_app in Hnd as (_ & Hd & _). cbn in Hd. intros Hin. apply (Hd k Hin). by left.
Qed.

Definition record_fits (r : LogRecord) : Prop :=
  0 <= LSN r < 2 ^ 64 /\ 0 <= HLC r < 2 ^ 64 /\ 0 <= CRC32Checksum r < 2 ^ 32 /\
  0 <= OperationType r < 256 /\ 0 <= TxnState r < 256 /\ 0 <= EntryType r < 256.

Lemma vector_nonempty v : vector (nonempty v) = v.
Proof. unfold nonempty. destruct v; [done|]. rewrite blen_cons. pose proof (blen_nonneg v). if_true. done. Qed.

Section laws.
Context `{FlatBuffersLaws}.

Definition fb_of_record (r : LogRecord) : fb_log :=
  mkFbLog (LSN r) (HLC r) (CRC32Checksum r) (OperationType r) (TxnState r) (EntryType r)
    (nonempty (TxnID r)) (nonempty (PrevTxnWalIndex r)) (Some (Entries r)).

Lemma root_of_record r hint : record_fits r -> GetRootAsLogRecord (FBEncode r hint) = Ret (fb_of_record r).
Proof. intros Hf. unfold FBEncode, serializeLogRecord. by rewrite fb_log_law. Qed.

Lemma record_of_fb r : DeserializeFBRootLogRecord (fb_of_record r) = r.
Proof. destruct r. unfold DeserializeFBRootLogRecord, PrevTxnWalIndexBytes. cbn. by rewrite !vector_nonempty. Qed.

Lemma prev_of_fb r : PrevTxnWalIndexBytes (fb_of_record r) = PrevTxnWalIndex r.
Proof. apply vector_nonempty. Qed.

Lemma kv_roundtrip key value : DeserializeKVEntry (SerializeKVEntry key value) = Ret (mkKV key value).
Proof. unfold DeserializeKVEntry, SerializeKVEntry. by rewrite fb_kv_law. Qed.

Lemma row_roundtrip key cols : NoDup cols.*1 ->
  DeserializeRowUpdateEntry (SerializeRowUpdateEntry key cols) = Ret (mkRow key cols).
Proof. intros Hnd. unfold DeserializeRowUpdateEntry, SerializeRowUpdateEntry. rewrite fb_row_law. cbn. by rewrite map_of_list. Qed.

Lemma row_key_roundtrip key cols : GetRootAsRowUpdateEntry (SerializeRowUpdateEntry key cols) = Ret (mkFbRow (Some key) cols).
Proof. unfold SerializeRowUpdateEntry. by rewrite fb_row_law. Qed.
End laws.

(** ** A concrete encoding

    Any injective encoding satisfies the laws; this one writes the number that
    stdpp's [encode] assigns to the tuple of fields. *)

Definition pos_bytes (p : positive) : bytes := le_bytes (Pos.size_nat p) (Zpos p).
Definition bytes_pos (b : bytes) : positive := Z.to_pos (le_val b).

Lemma pos_size_bound p : Zpos p < 256 ^ Z.of_nat (Pos.size_nat p).
Proof.
  induction p as [p IH|p IH|]; cbn [Pos.size_nat]; [| |done]; rewrite Nat2Z.inj_succ, Z.pow_succ_r by lia; lia.
Qed.

Lemma bytes_pos_bytes p : bytes_pos (pos_bytes p) = p.
Proof.
  unfold bytes_pos, pos_bytes. rewrite le_val_le_bytes, Z.mod_small; [done|].
  split; [lia|apply pos_size_bound].
Qed.

Section numbered.
Context {A : Type} `{Countable A}.

Definition to_wire (a : A) : bytes := pos_bytes (encode a).
Definition of_wire (b : bytes) : outcome A :=
  match decode (bytes_pos b) with Some a => Ret a | None => Panic end.

Lemma wire_roundtrip a : of_wire (to_wire a) = Ret a.
Proof. unfold of_wire, to_wire. by rewrite bytes_pos_bytes, decode_encode. Qed.
End numbered.

#[global] Instance fb_log_eq_dec : EqDecision fb_log.
Proof. solve_decision. Defined.
#[global] Program Instance fb_log_countable : Countable fb_log :=
  inj_countable' (fun t => (fb_lsn t, fb_hlc t, fb_crc32_checksum t, fb_operation_type t, fb_txn_state t,
                            fb_entry_type t, fb_txn_id t, fb_prev_txn_wal_index t, fb_entries t))
    (fun '(a, b, c, d, e, f, g, h, i) => mkFbLog a b c d e f g h i) _.
Next Obligation. by intros []. Qed.

#[global] Instance fb_kv_eq_dec : EqDecision fb_kv.
Proof. solve_decision. Defined.
#[global] Program Instance fb_kv_countable : Countable fb_kv :=
  inj_countable' (fun t => (fb_kv_key t, fb_kv_value t)) (fun '(a, b) => mkFbKV a b) _.
Next Obligation. by intros []. Qed.

#[global] Instance fb_row_eq_dec : EqDecision fb_row.
Proof. solve_decision. Defined.
#[global] Program Instance fb_row_countable : Countable fb_row :=
  inj_countable' (fun t => (fb_row_key t, fb_columns t)) (fun '(a, b) => mkFbRow a b) _.
Next Obligation. by intros []. Qed.

Definition demo_codec : FlatBuffers := {|
  fb_finish_log := to_wire; GetRootAsLogRecord := of_wire;
  fb_finish_kv := to_wire; GetRootAsKeyValueEntry := of_wire;
  fb_finish_row := to_wire; GetRootAsRowUpdateEntry := of_wire
|}.

Lemma demo_codec_laws : @FlatBuffersLaws demo_codec.
Proof. split; intros; apply wire_roundtrip. Qed.
