(* ===== verification/WalIO.v ===== *)
(** The engine's view of the log: dbkernel/internal/wal/{wal,common}.go and the
    checkpoint record of dbkernel/internal/metadata.go.

    [WalIO] wraps the segmented log.  What the engine needs of it is the class
    [WalLog]; the laws ([WalLaws]) speak of the records in the log with their
    positions.  [log.Fatal] ends the process; like an uncaught panic it is
    [Panic] here. *)

From stdpp Require Import prelude list numbers gmap.
From Stdlib Require Import ZArith Lia.
From S2P Require Import Prelude Bytes Segment WALog LogCodec.

(** ** Configuration *)

Record Config := mkConfig {
  BytesPerSync : Z; SegmentSize : Z; FSync : bool; SyncInterval : Z;
  AutoCleanup : bool; MaxAge : Z; MinSegment : Z; MaxSegment : Z; CleanupInterval : Z
}.

Definition Second : Z := 10 ^ 9.
Definition defaultBytesPerSync : Z := 1024 * 1024.
Definition defaultSegmentSize : Z := 16 * 1024 * 1024.
Definition defaultSyncInterval : Z := Second.

Definition NewDefaultConfig : Config :=
  mkConfig defaultBytesPerSync defaultSegmentSize false defaultSyncInterval false 0 0 0 0.

Definition or_default (v d : Z) : Z := if v =? 0 then d else v.

Definition applyDefaults (c : Config) : Config :=
  mkConfig (or_default (BytesPerSync c) defaultBytesPerSync) (or_default (SegmentSize c) defaultSegmentSize)
    (FSync c) (or_default (SyncInterval c) defaultSyncInterval) (AutoCleanup c) (MaxAge c) (MinSegment c)
    (MaxSegment c) (or_default (CleanupInterval c) (5 * 60 * Second)).

(** ** The log behind the engine *)

Record WalIO := mkWalIO { appendLog : WALog; entriesInSegment : Z }.

Definition seg_ext : bytes := [Byte.x2e; Byte.x73; Byte.x65; Byte.x67].  (* ".seg" *)

Definition wal_options (config : Config) : list (WALog -> WALog) :=
  [WithMaxSegmentSize (SegmentSize config); WithMSyncEveryWrite (FSync config);
   WithBytesPerSync (BytesPerSync config);
   WithAutoCleanupPolicy (MaxAge config) (MinSegment config) (MaxSegment config) (AutoCleanup config)].

Definition NewWalIO (ios : nat -> IO) (entries : list (bytes * bool)) (files : gmap Z bytes) (config : Config)
  : outcome (result error WalIO) :=
  let config := applyDefaults config in
  r ← NewWALog ios seg_ext entries files (wal_options config);
  Ret (match r with Ok wLog => Ok (mkWalIO wLog 0) | Err e => Err e end).

(** The rotation callback: the counter starts again. *)
Definition after_rotations (before after : WALog) (n : Z) : Z :=
  if segmentRotated before =? segmentRotated after then n else 0.

Definition Append (ios : nat -> IO) (w : WalIO) (data : bytes) : outcome (WalIO * result error RecordPosition) :=
  '(l, r) ← WALog.Write ios (appendLog w) data;
  let n := after_rotations (appendLog w) l (entriesInSegment w) in
  match r with
  | Err ErrFsync => Panic
  | Err e => Ret (mkWalIO l n, Err e)
  | Ok off => Ret (mkWalIO l (n + 1), Ok off)
  end.

Definition BatchAppend (ios : nat -> IO) (w : WalIO) (records : list bytes)
  : outcome (WalIO * result error (list RecordPosition)) :=
  if bool_decide (records = []) then Ret (w, Ok []) else
  '(l, res) ← WALog.WriteBatch ios (appendLog w) records;
  let '(offsets, err) := res in
  let n := after_rotations (appendLog w) l (entriesInSegment w) in
  match err with
  | Some ErrFsync => Panic
  | Some e => Ret (mkWalIO l n, Err e)
  | None => Ret (mkWalIO l (n + blen offsets), Ok offsets)
  end.

Definition Read (w : WalIO) (pos : RecordPosition) : outcome (result error bytes) := WALog.Read (appendLog w) pos.

Definition Sync (io : IO) (w : WalIO) : outcome (option error) := WALog.Sync io (appendLog w).

(** The error of the sync is only logged. *)
Definition Close (ios : nat -> IO) (order : list nat) (w : WalIO) : outcome wal_close_outcome :=
  _ ← Sync (ios 0%nat) w;
  WALog.Close (fun n => ios (S n)) order (appendLog w).

Definition BackupSegmentsAfter (ios : nat -> IO) (c : nat -> CopyIO) (emptyDir mkdirOk sameDir : bool) (after : Z)
    (w : WalIO) (dir : backup_dir) : outcome (WalIO * backup_dir * result backup_error (list Z)) :=
  '(l, dir, r) ← WALog.BackupSegmentsAfter ios c emptyDir mkdirOk sameDir after (appendLog w) dir;
  Ret (mkWalIO l (entriesInSegment w), dir, r).

(** ** Readers *)

Record Reader := mkReader { appendReader : WALog.Reader; rd_closed : bool; withActiveTail : bool; readCount : Z }.

Definition NewReader (w : WalIO) (tail : bool) : Reader := mkReader (WALog.NewReader (appendLog w)) false tail 0.

Definition NewReaderWithStart (w : WalIO) (offset : RecordPosition) (tail : bool) : outcome (result error Reader) :=
  r ← WALog.NewReaderWithStart (appendLog w) offset;
  Ret (match r with Ok r => Ok (mkReader r false tail 0) | Err e => Err e end).

Definition Reader_Close (io : IO) (w : WalIO) (r : Reader) : outcome (WalIO * Reader) :=
  if rd_closed r then Ret (w, r) else
  '(l, ar) ← WALog.Reader_Close io (appendLog w) (appendReader r);
  Ret (mkWalIO l (entriesInSegment w), mkReader ar true (withActiveTail r) (readCount r)).

(** "No new data" ends a reader that does not follow the tail. *)
Definition Next (ios : nat -> IO) (w : WalIO) (r : Reader)
  : outcome (WalIO * Reader * result error (bytes * RecordPosition)) :=
  if rd_closed r then Ret (w, r, Err EOF) else
  '(l, ar, res) ← WALog.Next (fun n => ios (S n)) (appendLog w) (appendReader r);
  let w := mkWalIO l (entriesInSegment w) in
  let r := mkReader ar (rd_closed r) (withActiveTail r) (readCount r) in
  match res with
  | Err ErrNoNewData =>
      if negb (withActiveTail r) then '(w, r) ← Reader_Close (ios 0%nat) w r; Ret (w, r, Err EOF)
      else Ret (w, r, Err ErrNoNewData)
  | Err EOF => '(w, r) ← Reader_Close (ios 0%nat) w r; Ret (w, r, Err EOF)
  | Err e => Ret (w, r, Err e)
  | Ok x => Ret (w, mkReader (appendReader r) (rd_closed r) (withActiveTail r) (readCount r + 1), Ok x)
  end.

(** ** What the engine uses *)

Class WalLog (W R : Type) := {
  wl_Append : W -> bytes -> outcome (W * result error RecordPosition);
  wl_BatchAppend : W -> list bytes -> outcome (W * result error (list RecordPosition));
  wl_Read : W -> RecordPosition -> outcome (result error bytes);
  wl_NewReaderWithStart : W -> RecordPosition -> outcome (result error R);
  wl_Next : W -> R -> outcome (W * R * result error (bytes * RecordPosition))
}.

(** A position that [Encode] can represent and that is not the zero position. *)
Definition real_pos (p : RecordPosition) : Prop :=
  0 < SegmentID p < 2 ^ 32 /\ 0 < Offset p < 2 ^ 63.

(** [wl_repr n w L]: the log holds the records [L], the disk answers, and at
    least [n] more records can be appended.  [wl_reading] says what a reader
    has not yet yielded. *)
Class WalLaws (W R : Type) `{WalLog W R} := {
  wl_repr : nat -> W -> list (bytes * RecordPosition) -> Prop;
  wl_reading : nat -> W -> R -> list (bytes * RecordPosition) -> list (bytes * RecordPosition) -> Prop;
  wl_weaken n w L : wl_repr (S n) w L -> wl_repr n w L;
  wl_positions n w L : wl_repr n w L -> NoDup L.*2 /\ Forall real_pos L.*2;
  wl_Append_law n w L d : wl_repr (S n) w L ->
    exists w' r, wl_Append w d = Ret (w', r) /\
      wl_repr n w' (match r with Ok p => L ++ [(d, p)] | Err _ => L end);
  wl_BatchAppend_law n w L ds : wl_repr (length ds + S n) w L ->
    exists w' r, wl_BatchAppend w ds = Ret (w', r) /\
      match r with
      | Ok ps => length ps = length ds /\ wl_repr n w' (L ++ zip ds ps)
      | Err _ => wl_repr n w' L
      end;
  wl_Read_law n w L d p : wl_repr n w L -> (d, p) ∈ L -> wl_Read w p = Ret (Ok d);
  wl_begin_law n w L : wl_repr n w L ->
    exists r, wl_NewReaderWithStart w NilRecordPosition = Ret (Ok r) /\ wl_reading n w r L L;
  wl_start_law n w A d p B : wl_repr n w (A ++ (d, p) :: B) ->
    exists r, wl_NewReaderWithStart w p = Ret (Ok r) /\ wl_reading n w r (A ++ (d, p) :: B) ((d, p) :: B);
  wl_Next_law n w r L items : wl_reading n w r L items ->
    exists w' r', wl_Next w r = Ret (w', r', match items with [] => Err EOF | x :: _ => Ok x end) /\
      wl_repr n w' L /\ (items <> [] -> wl_reading n w' r' L (tail items));
  wl_reading_repr n w r L items : wl_reading n w r L items -> wl_repr n w L
}.

(** ** Offsets and transactions *)

Definition DecodeOffset (b : bytes) : outcome (option RecordPosition) :=
  if blen b =? 0 then Ret None else
  r ← DecodeRecordPosition b;
  Ret (match r with Ok pos => Some pos | Err _ => None end).

Inductive txn_error := ErrWalNextOffset (e : error).

Section transactions.
Context {W R : Type} `{WalLog W R} `{FlatBuffers}.

(** The backward walk; a record whose pointer cannot be decoded makes the next
    read dereference nil. *)
Fixpoint txn_walk (fuel : nat) (w : W) (nextOffset : option RecordPosition) (records : list fb_log)
  : outcome (result txn_error (list fb_log)) :=
  match fuel with
  | O => NoFuel
  | S fuel =>
      match nextOffset with
      | None => Panic
      | Some pos =>
          r ← wl_Read w pos;
          match r with
          | Err e => Ret (Err (ErrWalNextOffset e))
          | Ok walEntry =>
              record ← GetRootAsLogRecord walEntry;
              let records := records ++ [record] in
              if PrevTxnWalIndexLength record =? 0 then Ret (Ok (reverse records)) else
              nextOffset ← DecodeOffset (PrevTxnWalIndexBytes record);
              txn_walk fuel w nextOffset records
          end
      end
  end.

Definition GetTransactionRecords (fuel : nat) (w : W) (startOffset : option RecordPosition)
  : outcome (result txn_error (list fb_log)) :=
  match startOffset with
  | None => Ret (Ok [])
  | Some _ => txn_walk fuel w startOffset []
  end.
End transactions.

(** ** Checkpoints *)

Definition SysKeyWalCheckPoint : bytes :=
  [Byte.x73; Byte.x79; Byte.x73; Byte.x2e; Byte.x6b; Byte.x76; Byte.x2e; Byte.x75; Byte.x6e; Byte.x69; Byte.x73;
   Byte.x6f; Byte.x6e; Byte.x64; Byte.x62; Byte.x2e; Byte.x6b; Byte.x65; Byte.x79; Byte.x2e; Byte.x77; Byte.x61;
   Byte.x6c; Byte.x2e; Byte.x63; Byte.x68; Byte.x65; Byte.x63; Byte.x6b; Byte.x70; Byte.x6f; Byte.x69; Byte.x6e;
   Byte.x74].  (* "sys.kv.unisondb.key.wal.checkpoint" *)

Record Metadata := mkMetadata { RecordProcessed : Z; Pos : option RecordPosition }.

(** [m.Pos.Encode()] dereferences the position. *)
Definition MarshalBinary (m : Metadata) : outcome bytes :=
  match Pos m with
  | None => Panic
  | Some pos =>
      let encodedPos := Encode pos in
      result ← put_u64 (replicate (length encodedPos + 8) Byte.x00) 0 (RecordProcessed m);
      copy_at result 8 encodedPos
  end.

Definition UnmarshalMetadata (data : bytes) : outcome Metadata :=
  head ← slice data 0 8;
  index ← get_u64 head 0;
  rest ← slice data 8 (blen data);
  pos ← DecodeOffset rest;
  Ret (mkMetadata index pos).
