(* ===== verification/WalIOFacts.v ===== *)
(** The engine's log keeps its promises: [WalIO] over the segmented log
    satisfies the laws the engine relies on, as long as the disk answers and
    segment ids are left.  Checkpoints and offsets survive encoding. *)

From stdpp Require Import prelude list numbers gmap sorting.
From Stdlib Require Import ZArith Lia.
From S2P Require Import Prelude Bytes Segment SegmentFacts SegmentSpec WALog WALogFacts WALogReader LogCodec WalIO.

(** ** Offsets and checkpoints *)

Lemma real_pos_ok p : real_pos p -> pos_ok p.
Proof. intros [H1 H2]. split; [unfold u32_word|unfold i64_range]; lia. Qed.

Lemma DecodeOffset_Encode p : real_pos p -> DecodeOffset (Encode p) = Ret (Some p).
Proof.
  intros Hp. unfold DecodeOffset. assert (blen (Encode p) = 12) as -> by (unfold Encode; by rewrite blen_app, !blen_le_bytes).
  cbn [Z.eqb]. rewrite <- (app_nil_r (Encode p)), Decode_encoded by (by apply real_pos_ok). done.
Qed.

Lemma Marshal_spec n p : MarshalBinary (mkMetadata n (Some p)) = Ret (le_bytes 8 n ++ Encode p).
Proof.
  unfold MarshalBinary. cbn [Pos RecordProcessed].
  assert (length (Encode p) = 12%nat) as Hl by (unfold Encode; by rewrite length_app, !length_le_bytes).
  rewrite Hl. change (12 + 8)%nat with (8 + 12)%nat. rewrite replicate_add.
  unfold put_u64. rewrite <- (app_nil_l (replicate 8 Byte.x00 ++ replicate 12 Byte.x00)), put_le_app by done.
  cbn [mbind outcome_bind app].
  rewrite <- (app_nil_r (replicate 12 Byte.x00)). rewrite copy_at_app; [by rewrite app_nil_r|by rewrite blen_le_bytes|].
  by rewrite length_replicate, Hl.
Qed.

Lemma metadata_decoded n p : real_pos p ->
  exists data, MarshalBinary (mkMetadata n (Some p)) = Ret data /\ blen data = 20 /\
    UnmarshalMetadata data = Ret (mkMetadata (u64 n) (Some p)).
Proof.
  intros Hp. eexists. split; [apply Marshal_spec|].
  assert (blen (Encode p) = 12) as Hl by (unfold Encode; by rewrite blen_app, !blen_le_bytes).
  split; [by rewrite blen_app, blen_le_bytes, Hl|].
  unfold UnmarshalMetadata. rewrite blen_app, blen_le_bytes, Hl.
  pose proof (slice_app [] (le_bytes 8 n) (Encode p) 0 8 eq_refl) as H0. rewrite blen_le_bytes in H0.
  cbn [app] in H0. rewrite H0 by done. cbn [mbind outcome_bind].
  unfold get_u64. pose proof (get_le_app 8 [] (le_bytes 8 n) [] 0 eq_refl (length_le_bytes 8 n)) as Hg.
  rewrite app_nil_r in Hg. cbn [app] in Hg. rewrite Hg. cbn [mbind outcome_bind].
  pose proof (slice_app (le_bytes 8 n) (Encode p) [] 8 (8 + 12)) as Hs. rewrite app_nil_r, blen_le_bytes, Hl in Hs.
  change (Z.of_nat 8) with 8 in *. rewrite Hs by done.
  cbn [mbind outcome_bind]. rewrite DecodeOffset_Encode by done. cbn [mbind outcome_bind].
  by rewrite le_val_le_bytes.
Qed.

(** ** Positions of the records of a log *)

Lemma with_positions_snoc i recs d : forall o,
  with_positions i o (recs ++ [d]) = with_positions i o recs ++ [(d, mkPos i (o + entries_size recs))].
Proof.
  induction recs as [|r recs IH]; intros o; cbn [with_positions app]; [by rewrite Z.add_0_r|].
  rewrite IH. cbn [entries_size foldr]. fold (entries_size recs). by rewrite Z.add_assoc.
Qed.

Lemma with_positions_in i recs : forall o d p, (d, p) ∈ with_positions i o recs ->
  SegmentID p = i /\ o <= Offset p < o + entries_size recs.
Proof.
  induction recs as [|r recs IH]; intros o d p Hin; [by apply not_elem_of_nil in Hin|]. cbn [with_positions] in Hin.
  cbn [entries_size foldr]. fold (entries_size recs). pose proof (entrySize_pos _ (blen_nonneg r)).
  pose proof (entries_size_nonneg recs). apply elem_of_cons in Hin as [[= -> ->]|Hin]; [cbn; lia|].
  apply IH in Hin. lia.
Qed.

Lemma with_positions_nodup i recs : forall o, NoDup (with_positions i o recs).*2.
Proof.
  induction recs as [|r recs IH]; intros o; cbn; [constructor|]. constructor; [|apply IH].
  intros Hin. apply list_elem_of_fmap in Hin as ([d p] & Heq & Hin). cbn in Heq. subst p.
  apply with_positions_in in Hin as [_ Hin]. cbn in Hin. pose proof (entrySize_pos _ (blen_nonneg r)). lia.
Qed.

Lemma al_flat_app A B : al_flat (A ++ B) = al_flat A ++ al_flat B.
Proof. unfold al_flat. by rewrite fmap_app, concat_app. Qed.

Lemma al_flat_one i recs : al_flat [(i, recs)] = with_positions i segmentHeaderSize recs.
Proof. unfold al_flat. cbn. apply app_nil_r. Qed.

Lemma al_flat_write max a d :
  al_flat (al_all (a_log_write max a d).1) = al_flat (al_all a) ++ [(d, (a_log_write max a d).2)].
Proof.
  unfold a_log_write, al_all. destruct a as [front [i recs]]. cbn [al_cur al_front fst]. case_if; cbn [fst snd al_cur al_front].
  - by rewrite al_flat_app, al_flat_one.
  - by rewrite !al_flat_app, !al_flat_one, with_positions_snoc, app_assoc.
Qed.

Lemma al_flat_writes max ds : forall a,
  al_flat (al_all (a_log_writes max a ds).1) = al_flat (al_all a) ++ zip ds (a_log_writes max a ds).2 /\
  length (a_log_writes max a ds).2 = length ds.
Proof.
  induction ds as [|d ds IH]; intros a; cbn [a_log_writes]; [by rewrite app_nil_r|].
  pose proof (al_flat_write max a d) as Hw. destruct (a_log_write max a d) as [a1 p]. cbn [fst snd] in Hw.
  destruct (IH a1) as [IH1 IH2]. destruct (a_log_writes max a1 ds) as [a2 ps]. cbn [fst snd] in *.
  rewrite IH1, Hw, <- app_assoc. split; [done|]. cbn. by rewrite IH2.
Qed.

(** The place of a record in the log. *)
Lemma with_positions_split i recs : forall o A x B, with_positions i o recs = A ++ x :: B ->
  exists pre post, recs = pre ++ x.1 :: post /\ x.2 = mkPos i (o + entries_size pre) /\
    x :: B = with_positions i (o + entries_size pre) (x.1 :: post).
Proof.
  induction recs as [|r recs IH]; intros o A x B H; [by destruct A|]. destruct A as [|y A]; cbn in H.
  - injection H as <- <-. exists [], recs. by rewrite Z.add_0_r.
  - injection H as _ H. destruct (IH _ _ _ _ H) as (pre & post & -> & Hp & HB). exists (r :: pre), post.
    cbn [entries_size foldr]. fold (entries_size pre). rewrite Z.add_assoc. done.
Qed.

Lemma al_flat_split S : forall A x B, al_flat S = A ++ x :: B ->
  exists SA i pre post SB, S = SA ++ (i, pre ++ x.1 :: post) :: SB /\ x.2 = mkPos i (end_offset pre) /\
    x :: B = with_positions i (end_offset pre) (x.1 :: post) ++ al_flat SB.
Proof.
  induction S as [|[i recs] S IH]; intros A x B H; [by destruct A|].
  change (al_flat ((i, recs) :: S)) with (with_positions i segmentHeaderSize recs ++ al_flat S) in H.
  apply app_eq_inv in H as [(k & H1 & H2)|(k & H1 & H2)].
  - destruct k as [|y k].
    + rewrite app_nil_r in H1. destruct (IH [] x B) as (SA & i' & pre & post & SB & -> & Hp & HB); [done|].
      exists ((i, recs) :: SA), i', pre, post, SB. done.
    + injection H2 as -> H2. destruct (with_positions_split i recs _ A y k H1) as (pre & post & -> & Hp & HB).
      exists [], i, pre, post, S. split; [done|]. split; [done|]. by rewrite H2, app_comm_cons, HB.
  - destruct (IH k x B H2) as (SA & i' & pre & post & SB & -> & Hp & HB).
    exists ((i, recs) :: SA), i', pre, post, SB. done.
Qed.

Lemma elem_of_concat {A} (x : A) ls : x ∈ concat ls <-> exists l, x ∈ l /\ l ∈ ls.
Proof.
  induction ls as [|l ls IH]; cbn [concat].
  - split; [by intros ?%not_elem_of_nil|intros (l & _ & ?); by apply not_elem_of_nil in H].
  - rewrite elem_of_app, IH. setoid_rewrite elem_of_cons. naive_solver.
Qed.

Lemma al_flat_ids S d p : (d, p) ∈ al_flat S -> SegmentID p ∈ S.*1.
Proof.
  unfold al_flat. rewrite elem_of_concat. intros (l & Hin & Hl). apply list_elem_of_fmap in Hl as ([i recs] & -> & Hl).
  apply with_positions_in in Hin as [-> _]. apply list_elem_of_fmap. by exists (i, recs).
Qed.

Lemma al_flat_nodup S : NoDup S.*1 -> NoDup (al_flat S).*2.
Proof.
  induction S as [|[i recs] S IH]; intros Hnd; [constructor|]. cbn in Hnd. apply NoDup_cons in Hnd as [Hni Hnd].
  change (al_flat ((i, recs) :: S)) with (with_positions i segmentHeaderSize recs ++ al_flat S).
  rewrite fmap_app. apply NoDup_app. split; [apply with_positions_nodup|]. split; [|by apply IH].
  intros p Hp Hp'. apply list_elem_of_fmap in Hp as ([d q] & -> & Hp), Hp' as ([d' q'] & Heq & Hp'). cbn in Heq. subst q'.
  apply with_positions_in in Hp as [Hi _]. apply al_flat_ids in Hp'. by rewrite Hi in Hp'.
Qed.

Lemma repr_positions w a : wal_repr w a -> NoDup (al_flat (al_all a)).*2 /\ Forall real_pos (al_flat (al_all a)).*2.
Proof.
  intros (front & cur & Hi & Hf & Hc). unfold al_all. rewrite Hf, Hc. change [strip cur] with (strip <$> [cur]).
  rewrite <- fmap_app. split.
  - apply al_flat_nodup. rewrite <- list_fmap_compose. apply sorted_nodup, (wi_sorted _ _ _ Hi).
  - apply Forall_forall. intros p Hp. apply list_elem_of_fmap in Hp as ([d q] & -> & Hp). cbn [snd].
    unfold al_flat in Hp. apply elem_of_concat in Hp as (l & Hin & Hl).
    apply list_elem_of_fmap in Hl as (x & -> & Hl). apply list_elem_of_fmap in Hl as (e & -> & He).
    apply with_positions_in in Hin as [Hid Hoff]. cbn [strip fst snd] in *.
    pose proof (wi_pos _ _ _ Hi) as Hp. rewrite Forall_forall in Hp. specialize (Hp e He).
    destruct (wal_segment w front cur e Hi He) as (_ & b & seg & Hok). destruct Hok as [_ _ (m & Hrep & _) _ _ Hsz _].
    pose proof (sr_end _ _ _ Hrep) as Hend. pose proof (wi_max _ _ _ Hi). unfold end_offset, maxSegmentSize, segmentHeaderSize in *.
    split; lia.
Qed.

(** ** The log with the answers it will get *)

Record WalWorld := mkWW { ww_io : WalIO; ww_answers : nat -> nat -> IO }.

Definition later (w : WalWorld) (io : WalIO) : WalWorld := mkWW io (fun n => ww_answers w (S n)).

#[global] Instance wal_world_log : WalLog WalWorld Reader := {
  wl_Append w d := '(io, r) ← Append (ww_answers w 0%nat) (ww_io w) d; Ret (later w io, r);
  wl_BatchAppend w ds := '(io, r) ← BatchAppend (ww_answers w 0%nat) (ww_io w) ds; Ret (later w io, r);
  wl_Read w p := Read (ww_io w) p;
  wl_NewReaderWithStart w p := NewReaderWithStart (ww_io w) p false;
  wl_Next w r := '(io, r, x) ← Next (ww_answers w 0%nat) (ww_io w) r; Ret (later w io, r, x)
}.

Definition ww_repr (n : nat) (w : WalWorld) (L : list (bytes * RecordPosition)) : Prop :=
  exists a, wal_repr (appendLog (ww_io w)) a /\ (forall k, ios_good (ww_answers w k)) /\
    (al_cur a).1 + Z.of_nat n < 2 ^ 32 /\ L = al_flat (al_all a).

Definition ww_reading (n : nat) (w : WalWorld) (r : Reader) (L items : list (bytes * RecordPosition)) : Prop :=
  rd_closed r = false /\ withActiveTail r = false /\ (forall k, ios_good (ww_answers w k)) /\
  exists front cur L0 R, wal_inv (appendLog (ww_io w)) front cur /\ front ++ [cur] = L0 ++ R /\
    reader_at R (appendReader r) items /\ le_id cur + Z.of_nat n < 2 ^ 32 /\ L = flat (front ++ [cur]).

Lemma ww_positions n w L : ww_repr n w L -> NoDup L.*2 /\ Forall real_pos L.*2.
Proof. intros (a & Hr & _ & _ & ->). by eapply repr_positions. Qed.

Lemma ww_Append_law n w L d : ww_repr (S n) w L ->
  exists w' r, wl_Append w d = Ret (w', r) /\ ww_repr n w' (match r with Ok p => L ++ [(d, p)] | Err _ => L end).
Proof.
  intros (a & Hr & Hios & Hid & ->). cbn [wl_Append wal_world_log]. unfold Append.
  destruct (wal_call_spec (ww_answers w 0%nat) (appendLog (ww_io w)) a (WWrite d) Hr (Hios 0%nat)) as (l & Hc & Hr' & _);
    [cbn; lia|].
  cbn [wal_call a_log_call] in *. apply bind_Ret_inv in Hc as ([l' r] & Hw & Hc). rewrite Hw.
  destruct (_ <? _) eqn:E; cbn [fst snd] in *.
  - injection Hc as -> ->. cbn. eexists _, _. split; [done|]. exists a. (split; [done|]); (split; [intros k; apply Hios|]); (split; [lia|done]).
  - pose proof (al_flat_write (wl_maxSegmentSize (appendLog (ww_io w))) a d) as Hfl.
    pose proof (a_log_write_id (wl_maxSegmentSize (appendLog (ww_io w))) a d) as Hle.
    destruct (a_log_write _ a d) as [a' p]. cbn [fst snd] in *. injection Hc as -> ->. cbn. eexists _, _. split; [done|].
    exists a'. split; [done|]. split; [intros k; apply Hios|]. split; [lia|done].
Qed.

Lemma ww_BatchAppend_law n w L ds : ww_repr (length ds + S n) w L ->
  exists w' r, wl_BatchAppend w ds = Ret (w', r) /\
    match r with
    | Ok ps => length ps = length ds /\ ww_repr n w' (L ++ zip ds ps)
    | Err _ => ww_repr n w' L
    end.
Proof.
  intros (a & Hr & Hios & Hid & ->). cbn [wl_BatchAppend wal_world_log]. unfold BatchAppend.
  case_bool_decide as Hds.
  { subst ds. cbn. eexists _, _. split; [done|]. split; [done|]. rewrite app_nil_r. exists a.
    (split; [done|]); (split; [intros k; apply Hios|]); (split; [cbn in Hid; lia|done]). }
  destruct (wal_call_spec (ww_answers w 0%nat) (appendLog (ww_io w)) a (WWriteBatch ds) Hr (Hios 0%nat)) as (l & Hc & Hr' & _);
    [cbn; unfold blen; lia|].
  cbn [wal_call a_log_call] in *. apply bind_Ret_inv in Hc as ([l' r] & Hw & Hc). rewrite Hw.
  destruct (existsb _ ds) eqn:E; cbn [fst snd] in *.
  - injection Hc as -> ->. cbn. eexists _, _. split; [done|]. exists a. (split; [done|]); (split; [intros k; apply Hios|]); (split; [lia|done]).
  - destruct (al_flat_writes (wl_maxSegmentSize (appendLog (ww_io w))) ds a) as [Hfl Hlen].
    pose proof (a_log_writes_id (wl_maxSegmentSize (appendLog (ww_io w))) ds a) as Hle.
    destruct (a_log_writes _ a ds) as [a' ps]. cbn [fst snd] in *. injection Hc as -> ->. cbn. eexists _, _. split; [done|].
    split; [done|]. exists a'. split; [done|]. split; [intros k; apply Hios|]. unfold blen in Hle. split; [lia|done].
Qed.

Lemma ww_Read_law n w L d p : ww_repr n w L -> (d, p) ∈ L -> wl_Read w p = Ret (Ok d).
Proof.
  intros (a & Hr & _ & _ & ->) Hin. apply list_elem_of_split in Hin as (A & B & HL).
  destruct (al_flat_split _ _ _ _ HL) as (SA & i & pre & post & SB & HS & Hp & _). cbn in Hp, HS. subst p.
  apply (Read_spec _ a i pre d post Hr). rewrite HS. apply elem_of_app. right. by left.
Qed.

Lemma repr_inv n w L : ww_repr n w L -> (forall k, ios_good (ww_answers w k)) /\
  exists front cur, wal_inv (appendLog (ww_io w)) front cur /\ le_id cur + Z.of_nat n < 2 ^ 32 /\ L = flat (front ++ [cur]).
Proof.
  intros (a & (front & cur & Hi & Hf & Hc) & Hios & Hid & ->). split; [done|]. exists front, cur. split; [done|].
  rewrite Hc in Hid. split; [done|]. rewrite flat_strip, fmap_app. unfold al_all. by rewrite Hf, Hc.
Qed.

Lemma inv_repr n w front cur : (forall k, ios_good (ww_answers w k)) -> wal_inv (appendLog (ww_io w)) front cur ->
  le_id cur + Z.of_nat n < 2 ^ 32 -> ww_repr n w (flat (front ++ [cur])).
Proof.
  intros Hios Hi Hid. exists (mkLog (strip <$> front) (strip cur)). split; [by exists front, cur|]. split; [done|].
  split; [done|]. rewrite flat_strip, fmap_app. done.
Qed.

Lemma ww_begin_law n w L : ww_repr n w L ->
  exists r, wl_NewReaderWithStart w NilRecordPosition = Ret (Ok r) /\ ww_reading n w r L L.
Proof.
  intros Hr. destruct (repr_inv _ _ _ Hr) as (Hios & front & cur & Hi & Hid & ->). eexists. split; [done|].
  split; [done|]. split; [done|]. split; [done|]. exists front, cur, [], (front ++ [cur]). split; [done|]. split; [done|].
  split; [|done]. destruct (front ++ [cur]) as [|e rest] eqn:E; [by destruct front|].
  eapply (at_start _ _ _ e rest [] (le_recs e)); try done. cbn. by rewrite (wi_snapshot _ _ _ Hi), E.
Qed.

Lemma ww_start_law n w A d p B : ww_repr n w (A ++ (d, p) :: B) ->
  exists r, wl_NewReaderWithStart w p = Ret (Ok r) /\ ww_reading n w r (A ++ (d, p) :: B) ((d, p) :: B).
Proof.
  intros Hr. destruct (repr_inv _ _ _ Hr) as (Hios & front & cur & Hi & Hid & HL). pose proof HL as HL'.
  rewrite flat_strip in HL'. symmetry in HL'. destruct (al_flat_split _ _ _ _ HL') as (SA & i & pre & post & SB & HS & Hp & HB).
  apply fmap_app_inv in HS as (LA & LB & -> & HeB & Hfc). destruct LB as [|e LB]; [done|]. cbn [fmap list_fmap] in HeB.
  injection HeB as Hi1 Hrec HSB. subst i SB. cbn [fst snd] in *. subst p.
  destruct (NewReaderWithStart_at _ front cur LA e LB pre (d :: post) Hi Hfc (eq_sym Hrec)) as (r & Hnew & Hat).
  cbn [wl_NewReaderWithStart wal_world_log]. unfold NewReaderWithStart. rewrite Hnew. cbn [mbind outcome_bind].
  eexists. split; [done|]. split; [done|]. split; [done|]. split; [done|]. exists front, cur, LA, (e :: LB).
  split; [done|]. split; [done|]. split; [|done]. cbn [appendReader]. rewrite flat_strip in Hat. by rewrite HB.
Qed.

Lemma reader_close_inv io front cur L0 R L1 items w r :
  wal_inv w front cur -> front ++ [cur] = L0 ++ R ++ L1 -> reader_at R r items ->
  exists w' r', WALog.Reader_Close io w r = Ret (w', r') /\ wal_inv w' front cur.
Proof.
  intros Hi HR Hat. unfold WALog.Reader_Close. destruct (currentReader r) as [[p sr]|] eqn:Hc; [|by eexists _, _].
  destruct Hat as [done_ e rest sr' pre post HRe Hrs Hc' Hidx (_ & _ & Hcl) _|? ? ? ? ? ? Hc'|? ? ? ? ? ? Hc']; [|congruence..].
  rewrite Hc in Hc'. injection Hc' as -> ->.
  destruct (at_sealed w front cur L0 R L1 Hi HR done_ e rest HRe) as (seg & Hok & Hin).
  rewrite (deref_ok _ _ _ _ Hok). cbn [mbind outcome_bind]. unfold reader_Close. rewrite Hcl.
  eexists _, _. split; [reflexivity|]. destruct Hok as [? ? ? ? ? ? Hk] eqn:Eok.
  destruct (decrRef_kept io (reader_id sr') seg Hk) as [He _]. apply wal_inv_unlink. by eapply wal_inv_readers.
Qed.

Lemma ww_Next_law n w r L items : ww_reading n w r L items ->
  exists w' r', wl_Next w r = Ret (w', r', match items with [] => Err EOF | x :: _ => Ok x end) /\
    ww_repr n w' L /\ (items <> [] -> ww_reading n w' r' L (tail items)).
Proof.
  intros (Hcl & Htail & Hios & front & cur & L0 & R & Hi & HR & Hat & Hid & ->).
  cbn [wl_Next wal_world_log]. unfold Next. rewrite Hcl.
  pose proof HR as HR'. rewrite <- (app_nil_r R) in HR'.
  destruct (Next_spec front cur L0 R [] items (fun k => ww_answers w 0%nat (S k)) (appendLog (ww_io w)) (appendReader r) Hi HR' Hat)
    as (l' & ar & Hi' & Hn). destruct items as [|x items]; destruct Hn as [-> Hat']; cbn [mbind outcome_bind].
  - rewrite Htail. cbn [negb]. unfold Reader_Close. cbn [rd_closed].
    assert (exists l'' ar', WALog.Reader_Close (ww_answers w 0%nat 0%nat) l' ar = Ret (l'', ar') /\ wal_inv l'' front cur) as (l'' & ar' & Hc & Hi'').
    { by apply (reader_close_inv (ww_answers w 0%nat 0%nat) front cur L0 R [] []). }
    cbn [appendLog appendReader]. rewrite Hc. cbn [mbind outcome_bind]. eexists _, _. split; [done|]. split; [|done].
    apply inv_repr; [intros k; apply Hios|done|done].
  - eexists _, _. split; [done|]. split; [apply inv_repr; [intros k; apply Hios|done|done]|]. intros _.
    split; [done|]. split; [done|]. split; [intros k; apply Hios|]. by exists front, cur, L0, R.
Qed.

#[global] Program Instance wal_world_laws : WalLaws WalWorld Reader := { wl_repr := ww_repr; wl_reading := ww_reading }.
Next Obligation. intros n w L (a & Hr & Hios & Hid & ->). exists a. split; [done|]. split; [done|]. split; [lia|done]. Qed.
Next Obligation. exact ww_positions. Qed.
Next Obligation. exact ww_Append_law. Qed.
Next Obligation. exact ww_BatchAppend_law. Qed.
Next Obligation. exact ww_Read_law. Qed.
Next Obligation. exact ww_begin_law. Qed.
Next Obligation. exact ww_start_law. Qed.
Next Obligation. exact ww_Next_law. Qed.
Next Obligation.
  intros n w r L items (_ & _ & Hios & front & cur & L0 & R & Hi & _ & _ & Hid & ->). by apply inv_repr.
Qed.
