(* ===== verification/Overlay.v ===== *)
(** The effect of queued operations, key by key.

    Every operation the engine queues sets a storage key to a fixed value,
    removes it, or leaves it alone, whatever the store holds ([eff]).  The one
    exception is the replacement of a chunked value, which removes the chunks
    the old metadata announces; it has the same form on stores in which the
    metadata tells the truth ([lobs_ok]), and those are the only stores the
    engine makes.  So a sequence of operations is, for each key, the last of
    its effects: operations on different objects commute, and repeating a
    sequence that has been applied already changes nothing. *)

From stdpp Require Import prelude list numbers gmap.
From Stdlib Require Import ZArith Lia.
From S2P Require Import Prelude Bytes KeyCodec KVKeys KVStore KVSpec KVReads KVQueue.

(** ** Objects

    The typed keys of the memory table name objects: a value, a row or a blob. *)

Definition value_key (key : bytes) : Prop := typed KeyTypeKV key = true.
Definition row_key (key : bytes) : Prop :=
  exists row, short row /\ key = KeyTypeWideColumn :: len_be row ++ row.
Definition blob_key (key : bytes) : Prop :=
  short key /\ exists b, typed KeyTypeBlobChunk b = false /\ short b /\ key = KeyTypeBlobChunk :: len_be b ++ b ++ be_bytes 4 0.

(** The number of the chunk of the blob [key] that is stored under [k]. *)
Definition chunk_prefix (key : bytes) : bytes := KeyTypeBlobChunk :: len_be key ++ key.
Definition chunk_index (key k : bytes) : option Z :=
  if HasPrefix k (chunk_prefix key) && (blen k =? blen (chunk_prefix key) + 4)
  then Some (be_val (drop (length (chunk_prefix key)) k)) else None.

(** The last value that [cols] gives to a column. *)
Fixpoint assoc_last (cols : columns) (c : bytes) : option bytes :=
  match cols with
  | [] => None
  | (c', v) :: rest =>
      match assoc_last rest c with
      | Some x => Some x
      | None => if bool_decide (c = c') then Some v else None
      end
  end.

(** What an operation does to the storage key [k]: nothing, or [Some new]. *)
Definition eff (op : queued_op) (k : bytes) : option (option bytes) :=
  match op with
  | QPutKV key values i => if bool_decide (k = KeyKV key) then Some (values !! i) else None
  | QDeleteKV key => if bool_decide (k = KeyKV key) then Some None else None
  | QSetCells row cols =>
      if HasPrefix k (RowKey row) then Some <$> assoc_last cols (drop (length (RowKey row)) k) else None
  | QDeleteCells row cols =>
      if HasPrefix k (RowKey row) && bool_decide (drop (length (RowKey row)) k ∈ cols.*1) then Some None else None
  | QDeleteRow row => if HasPrefix k (RowKey row) then Some None else None
  | QSetLobChunks key chunks sum =>
      if bool_decide (k = key) then Some (Some (chunk_metadata (blen chunks) sum)) else
      match chunk_index key k with
      | Some i => if i =? 0 then None else Some (chunks !! Z.to_nat (i - 1))
      | None => None
      end
  | QDeleteLobChunks _ => None
  end.

Definition op_wf (op : queued_op) : Prop :=
  match op with
  | QPutKV _ values i => (i < length values)%nat
  | QSetLobChunks key chunks _ => blob_key key /\ blen chunks < 2 ^ 32
  | QDeleteLobChunks _ => False
  | _ => True
  end.

(** The metadata of a blob announces all of its chunks. *)
Definition lob_ok (m : kvmap) (key : bytes) : Prop :=
  match m !! key with
  | Some v => typed chunkedValue v = true /\ 9 <= blen v /\
      forall k i, chunk_index key k = Some i -> meta_count v < i -> m !! k = None
  | None => forall k i, chunk_index key k = Some i -> 0 < i -> m !! k = None
  end.
Definition lobs_ok (m : kvmap) : Prop := forall key, blob_key key -> lob_ok m key.

Definition then_eff (a b : option (option bytes)) : option (option bytes) :=
  match b with Some _ => b | None => a end.

Definition effs (ops : list queued_op) (k : bytes) : option (option bytes) :=
  foldl (fun acc op => then_eff acc (eff op k)) None ops.

Definition overlay (e : option (option bytes)) (old : option bytes) : option bytes := default old e.

(** ** Sequences of effects *)

Lemma then_eff_assoc a b c : then_eff a (then_eff b c) = then_eff (then_eff a b) c.
Proof. by destruct c. Qed.

Lemma then_none a : then_eff None a = a.
Proof. by destruct a. Qed.

Lemma effs_acc ops k : forall a, foldl (fun acc op => then_eff acc (eff op k)) a ops = then_eff a (effs ops k).
Proof.
  unfold effs. induction ops as [|op ops IH]; intros a; cbn [foldl]; [done|].
  rewrite IH, (IH (then_eff None _)). by destruct (foldl _ None ops), (eff op k).
Qed.

Lemma effs_app l1 l2 k : effs (l1 ++ l2) k = then_eff (effs l1 k) (effs l2 k).
Proof. unfold effs at 1. rewrite foldl_app. apply effs_acc. Qed.

Lemma effs_one op k : effs [op] k = eff op k.
Proof. unfold effs. cbn. by destruct (eff op k). Qed.

Lemma effs_cons op l k : effs (op :: l) k = then_eff (eff op k) (effs l k).
Proof. change (op :: l) with ([op] ++ l). by rewrite effs_app, effs_one. Qed.

Lemma effs_snoc l op k : effs (l ++ [op]) k = then_eff (effs l k) (eff op k).
Proof. by rewrite effs_app, effs_one. Qed.

Lemma effs_none l k : Forall (fun op => eff op k = None) l -> effs l k = None.
Proof. induction 1 as [|op l Hop _ IH]; [done|]. by rewrite effs_cons, Hop, IH. Qed.

Lemma overlay_then a b old : overlay (then_eff a b) old = overlay b (overlay a old).
Proof. by destruct b. Qed.

(** ** Storage keys of a blob *)

Lemma blen_len_be r : blen (len_be r) = 4.
Proof. unfold len_be, blen. rewrite length_be_bytes. done. Qed.

Lemma chunk_key_index key i : typed KeyTypeBlobChunk key = true -> 0 < i < 2 ^ 32 ->
  chunk_index key (KeyBlobChunk key i) = Some i.
Proof.
  intros Ht Hi. unfold KeyBlobChunk. rewrite Ht. cbn [andb]. destruct (Z.eqb_spec i 0); [lia|].
  unfold chunk_index, chunk_prefix. set (p := KeyTypeBlobChunk :: len_be key ++ key).
  assert (KeyTypeBlobChunk :: len_be key ++ key ++ be_bytes 4 (u32 i) = p ++ be_bytes 4 (u32 i)) as ->
    by (unfold p; by rewrite <- app_comm_cons, <- app_assoc).
  assert (HasPrefix (p ++ be_bytes 4 (u32 i)) p = true) as -> by (apply HasPrefix_spec; by eexists).
  rewrite blen_app. unfold blen at 2. rewrite length_be_bytes, Z.eqb_refl. cbn [andb].
  rewrite drop_app_length, be_val_be_bytes, u32_small by lia. f_equal. apply Z.mod_small.
  change (256 ^ Z.of_nat 4) with (2 ^ 32). lia.
Qed.

Lemma chunk_index_key key k i : typed KeyTypeBlobChunk key = true -> chunk_index key k = Some i -> i <> 0 ->
  0 < i < 2 ^ 32 /\ k = KeyBlobChunk key i.
Proof.
  intros Ht Hk Hi. unfold chunk_index in Hk. destruct (HasPrefix k (chunk_prefix key)) eqn:Hp; [|done]. cbn [andb] in Hk.
  destruct (Z.eqb_spec (blen k) (blen (chunk_prefix key) + 4)) as [Hl|]; [|done]. apply (inj Some) in Hk.
  apply HasPrefix_spec in Hp as [s ->]. rewrite drop_app_length in Hk. rewrite blen_app in Hl.
  assert (length s = 4%nat) as Hs by (unfold blen in Hl; lia).
  pose proof (le_val_range (reverse s)) as Hr. unfold be_val in Hk. rewrite Hk in Hr. unfold blen in Hr.
  rewrite length_reverse, Hs in Hr. change (256 ^ Z.of_nat 4) with (2 ^ 32) in Hr. split; [lia|].
  unfold KeyBlobChunk. rewrite Ht. cbn [andb]. destruct (Z.eqb_spec i 0); [lia|].
  unfold chunk_prefix. rewrite <- app_comm_cons, <- app_assoc. do 3 f_equal. rewrite u32_small by lia.
  unfold be_bytes. rewrite <- Hk, <- (reverse_involutive s) at 1. f_equal.
  rewrite <- (length_reverse s) in Hs. rewrite <- Hs. by rewrite le_bytes_le_val.
Qed.

Lemma blob_key_typed key : blob_key key -> typed KeyTypeBlobChunk key = true.
Proof. intros (_ & b & _ & _ & ->). done. Qed.

Lemma blob_key_meta key : blob_key key -> KeyBlobChunk key 0 = key.
Proof. intros Hk. unfold KeyBlobChunk. by rewrite (blob_key_typed _ Hk). Qed.

Lemma chunk_index_not_key key : blob_key key -> chunk_index key key = None.
Proof.
  intros _. unfold chunk_index, chunk_prefix. rewrite blen_cons, blen_app, blen_len_be.
  destruct (Z.eqb_spec (blen key) (1 + (4 + blen key) + 4)); [lia|]. by rewrite andb_false_r.
Qed.

(** ** One operation *)

Lemma fold_set_lookup row (cols : columns) k : forall m : kvmap,
  foldl (fun m '(col, v) => <[KeyColumn row col := v]> m) m cols !! k = overlay (eff (QSetCells row cols) k) (m !! k).
Proof.
  cbn [eff]. induction cols as [|[c v] cols IH]; intros m; cbn [foldl assoc_last]; [by destruct (HasPrefix _ _)|].
  rewrite IH. rewrite KeyColumn_RowKey. destruct (HasPrefix k (RowKey row)) eqn:Hp.
  - apply HasPrefix_spec in Hp as [s ->]. rewrite drop_app_length. destruct (assoc_last cols s); [done|]. cbn.
    case_bool_decide as Hc; [subst; by rewrite lookup_insert_eq|]. cbn. rewrite lookup_insert_ne; [done|].
    intros Heq. apply app_inv_head in Heq. congruence.
  - cbn. rewrite lookup_insert_ne; [done|]. intros <-. assert (HasPrefix (RowKey row ++ c) (RowKey row) = true) by
      (apply HasPrefix_spec; by eexists). congruence.
Qed.

Lemma fold_delete_lookup row (cols : columns) k : forall m : kvmap,
  foldl (fun m '(col, _) => delete (KeyColumn row col) m) m cols !! k = overlay (eff (QDeleteCells row cols) k) (m !! k).
Proof.
  cbn [eff]. induction cols as [|[c v] cols IH]; intros m; cbn [foldl fmap list_fmap].
  { destruct (HasPrefix _ _); cbn; [|done]. by rewrite bool_decide_false by apply not_elem_of_nil. }
  rewrite IH, KeyColumn_RowKey. destruct (HasPrefix k (RowKey row)) eqn:Hp; cbn [andb].
  - apply HasPrefix_spec in Hp as [s ->]. rewrite drop_app_length.
    destruct (decide (s ∈ cols.*1)) as [Hin|Hni].
    { rewrite !bool_decide_true; [done|by right|done]. }
    rewrite (bool_decide_false (s ∈ cols.*1)) by done. cbn. destruct (decide (s = c)) as [->|Hne].
    + rewrite bool_decide_true by (by left). cbn. by rewrite lookup_delete_eq.
    + rewrite bool_decide_false by (rewrite elem_of_cons; tauto). cbn. rewrite lookup_delete_ne; [done|].
      intros Heq. apply app_inv_head in Heq. congruence.
  - cbn. rewrite lookup_delete_ne; [done|]. intros <-. assert (HasPrefix (RowKey row ++ c) (RowKey row) = true) by
      (apply HasPrefix_spec; by eexists). congruence.
Qed.

Lemma drop_chunks_lookup (key : bytes) (n : Z) (k : bytes) (m : kvmap) : typed KeyTypeBlobChunk key = true -> n < 2 ^ 32 ->
  a_drop_chunks key m n !! k =
  match chunk_index key k with Some i => if (1 <=? i) && (i <=? n) then None else m !! k | None => m !! k end.
Proof.
  intros Ht Hn. unfold a_drop_chunks.
  assert (forall (l : list Z) (m : kvmap), foldl (fun m i => delete (KeyBlobChunk key i) m) m l !! k =
            if decide (k ∈ KeyBlobChunk key <$> l) then None else m !! k) as Hf.
  { clear. induction l as [|i l IH]; intros m; cbn [foldl fmap list_fmap]; [by rewrite decide_False by apply not_elem_of_nil|].
    rewrite IH. destruct (decide (k ∈ _ <$> l)); [by rewrite decide_True by (by right)|].
    destruct (decide (k = KeyBlobChunk key i)) as [->|Hne].
    - by rewrite lookup_delete_eq, decide_True by (by left).
    - rewrite lookup_delete_ne, decide_False; [done| |done]. rewrite elem_of_cons. tauto. }
  rewrite Hf. case_decide as Hin.
  - apply list_elem_of_fmap in Hin as (i & -> & Hi). apply elem_of_seqZ in Hi. rewrite chunk_key_index by (done || lia).
    destruct (Z.leb_spec 1 i), (Z.leb_spec i n); cbn; (done || lia).
  - destruct (chunk_index key k) as [i|] eqn:E; [|done]. destruct ((1 <=? i) && (i <=? n)) eqn:Hr; [|done].
    destruct Hin. destruct (chunk_index_key key k i Ht E) as [_ ->]; [lia|]. apply list_elem_of_fmap. exists i. split; [done|].
    apply elem_of_seqZ. lia.
Qed.

Lemma put_chunks_lookup (key : bytes) (chunks : list bytes) (k : bytes) (m : kvmap) : typed KeyTypeBlobChunk key = true -> blen chunks < 2 ^ 32 ->
  a_put_chunks key m chunks !! k =
  match chunk_index key k with
  | Some i => if i =? 0 then m !! k else match chunks !! Z.to_nat (i - 1) with Some c => Some c | None => m !! k end
  | None => m !! k
  end.
Proof.
  intros Ht Hn. unfold a_put_chunks. destruct (chunk_index key k) as [i|] eqn:E.
  - destruct (Z.eqb_spec i 0) as [->|Hi].
    { apply fold_insert_other. rewrite zip_seqZ_fst. intros Hin. apply list_elem_of_fmap in Hin as (j & -> & Hj).
      apply elem_of_seqZ in Hj. rewrite chunk_key_index in E by (done || lia). injection E as ->. lia. }
    destruct (chunk_index_key key k i Ht E Hi) as [Hi' ->]. destruct (chunks !! Z.to_nat (i - 1)) as [c|] eqn:Hc.
    + apply fold_insert_lookup; [rewrite zip_seqZ_fst; by apply chunk_keys_nodup|].
      pose proof (zip_seqZ_elem 1 chunks _ c Hc) as Hin. by replace (1 + Z.of_nat (Z.to_nat (i - 1))) with i in Hin by lia.
    + apply fold_insert_other. rewrite zip_seqZ_fst. intros Hin. apply list_elem_of_fmap in Hin as (j & Heq & Hj).
      apply elem_of_seqZ in Hj. apply chunk_key_inj in Heq; [|lia..]. subst j. apply lookup_ge_None in Hc. unfold blen in Hj. lia.
  - apply fold_insert_other. rewrite zip_seqZ_fst. intros Hin. apply list_elem_of_fmap in Hin as (j & -> & Hj).
    apply elem_of_seqZ in Hj. rewrite chunk_key_index in E by (done || lia). done.
Qed.

Lemma meta_count_range v : 0 <= meta_count v < 2 ^ 32.
Proof.
  unfold meta_count. pose proof (le_val_range (take 4 (drop 1 v))) as H. split; [lia|].
  assert (256 ^ blen (take 4 (drop 1 v)) <= 256 ^ 4) by (apply Z.pow_le_mono_r; [lia|]; unfold blen; rewrite length_take; lia).
  change (256 ^ 4) with (2 ^ 32) in *. lia.
Qed.

(** Replacing a chunked value whose metadata tells the truth. *)
Lemma set_lob_eff (key : bytes) (chunks : list bytes) (sum : Z) (m : kvmap) (k : bytes) : blob_key key -> blen chunks < 2 ^ 32 -> lob_ok m key ->
  a_set_lob key chunks sum m !! k = overlay (eff (QSetLobChunks key chunks sum) k) (m !! k).
Proof.
  intros Hb Hn Hok. pose proof (blob_key_typed _ Hb) as Ht. unfold a_set_lob. rewrite blob_key_meta by done. cbn [eff].
  case_bool_decide as Hk; [subst; by rewrite lookup_insert_eq|]. rewrite lookup_insert_ne by done.
  rewrite put_chunks_lookup by done. unfold lob_ok in Hok. destruct (m !! key) as [v|] eqn:Hv.
  - destruct Hok as (Hty & _ & Hok). rewrite Hty, drop_chunks_lookup by (done || apply meta_count_range).
    destruct (chunk_index key k) as [i|] eqn:E; [|done]. destruct (Z.eqb_spec i 0) as [->|Hi]; [done|]. cbn.
    destruct (chunk_index_key key k i Ht E Hi) as [Hi' _].
    destruct (chunks !! Z.to_nat (i - 1)); [done|]. destruct (Z.leb_spec 1 i); [|lia].
    destruct (Z.leb_spec i (meta_count v)); cbn; [done|]. by apply (Hok k i).
  - destruct (chunk_index key k) as [i|] eqn:E; [|done]. destruct (Z.eqb_spec i 0) as [->|Hi]; [done|]. cbn.
    destruct (chunk_index_key key k i Ht E Hi) as [Hi' _]. destruct (chunks !! Z.to_nat (i - 1)); [done|]. apply (Hok k i); [done|lia].
Qed.

Lemma queued_eff (m : kvmap) (op : queued_op) (k : bytes) : op_wf op -> lobs_ok m ->
  a_queued m op !! k = overlay (eff op k) (m !! k).
Proof.
  intros Hw Hl. destruct op as [key values i|key|key chunks sum|key|row cols|row cols|row]; cbn [a_queued op_wf] in *.
  - destruct (lookup_lt_is_Some_2 values i Hw) as [v Hv]. cbn [eff]. rewrite Hv. case_bool_decide as Hk; cbn.
    + subst. by rewrite lookup_insert_eq.
    + by rewrite lookup_insert_ne.
  - cbn [eff]. case_bool_decide as Hk; cbn; [subst; by rewrite lookup_delete_eq|by rewrite lookup_delete_ne].
  - destruct Hw as [Hb Hn]. apply set_lob_eff; [done..|by apply Hl].
  - done.
  - apply (fold_set_lookup row cols k m).
  - apply (fold_delete_lookup row cols k m).
  - unfold a_delete_row. rewrite lookup_outside. cbn [eff]. by destruct (HasPrefix k (RowKey row)).
Qed.

(** ** Which object a storage key belongs to *)

Definition op_key (op : queued_op) : bytes :=
  match op with
  | QPutKV key _ _ | QDeleteKV key => KeyKV key
  | QSetCells row _ | QDeleteCells row _ | QDeleteRow row => RowKey row
  | QSetLobChunks key _ _ | QDeleteLobChunks key => key
  end.

(** The operation is about an object. *)
Definition op_obj (op : queued_op) : Prop :=
  match op with
  | QPutKV _ _ _ | QDeleteKV _ => True
  | QSetCells row _ | QDeleteCells row _ | QDeleteRow row => row_key (RowKey row)
  | QSetLobChunks key _ _ => blob_key key
  | QDeleteLobChunks _ => False
  end.

Inductive owner (key k : bytes) : Prop :=
| own_value : value_key key -> k = key -> owner key k
| own_cell : row_key key -> HasPrefix k key = true -> owner key k
| own_meta : blob_key key -> k = key -> owner key k
| own_chunk i : blob_key key -> 0 < i < 2 ^ 32 -> k = KeyTypeBlobChunk :: len_be key ++ key ++ be_bytes 4 i -> owner key k.

Lemma typed_KeyKV key : value_key (KeyKV key).
Proof. unfold value_key, KeyKV. destruct (typed KeyTypeKV key) eqn:E; [done|]. cbn. done. Qed.

Lemma blob_chunk_key key i : typed KeyTypeBlobChunk key = true -> 0 < i < 2 ^ 32 ->
  KeyBlobChunk key i = KeyTypeBlobChunk :: len_be key ++ key ++ be_bytes 4 i.
Proof. intros Ht Hi. unfold KeyBlobChunk. rewrite Ht. cbn [andb]. destruct (Z.eqb_spec i 0); [lia|]. by rewrite u32_small by lia. Qed.

Lemma eff_owner op k : op_obj op -> eff op k <> None -> owner (op_key op) k.
Proof.
  intros Ho He. destruct op as [key values i|key|key chunks sum|key|row cols|row cols|row]; cbn [eff op_key op_obj] in *.
  - case_bool_decide; [|done]. apply own_value; [apply typed_KeyKV|done].
  - case_bool_decide; [|done]. apply own_value; [apply typed_KeyKV|done].
  - case_bool_decide; [by apply own_meta|]. destruct (chunk_index key k) as [i|] eqn:E; [|done].
    destruct (Z.eqb_spec i 0); [done|]. pose proof (blob_key_typed _ Ho) as Ht.
    destruct (chunk_index_key key k i Ht E) as [Hi ->]; [done|]. rewrite blob_chunk_key by done. by eapply own_chunk.
  - done.
  - destruct (HasPrefix k (RowKey row)) eqn:E; [by apply own_cell|done].
  - destruct (HasPrefix k (RowKey row)) eqn:E; [by apply own_cell|done].
  - destruct (HasPrefix k (RowKey row)) eqn:E; [by apply own_cell|done].
Qed.

(** An object and its storage keys have the same type byte. *)
Lemma value_head key : value_key key -> head key = Some Byte.xfe.
Proof.
  unfold value_key, typed. destruct key as [|b key]; [done|]. intros ->%bool_decide_eq_true. done.
Qed.

Lemma row_head key : row_key key -> head key = Some Byte.xfd.
Proof. by intros (row & _ & ->). Qed.

Lemma blob_head key : blob_key key -> head key = Some Byte.xff.
Proof. by intros (_ & b & _ & _ & ->). Qed.

Lemma owner_head key k : owner key k -> head key = head k.
Proof.
  intros [Hv ->|Hr Hp|Hb ->|i Hb Hi ->]; [done| |done|].
  - rewrite (row_head _ Hr). destruct Hr as (row & _ & ->). by apply HasPrefix_spec in Hp as [s ->].
  - by rewrite (blob_head _ Hb).
Qed.

Lemma blob_not_chunk key key' i : blob_key key -> blob_key key' -> 0 < i ->
  key <> KeyTypeBlobChunk :: len_be key' ++ key' ++ be_bytes 4 i.
Proof.
  intros (_ & b & Hb & Hs & ->) (Hs' & b' & _ & _ & Hk') Hi Heq. apply (f_equal tail) in Heq. cbn [tail] in Heq.
  apply delimited_inj in Heq as [-> _]; [|done..]. by rewrite Hk' in Hb.
Qed.

Lemma owner_unique key key' k : owner key k -> owner key' k -> key = key'.
Proof.
  intros H1 H2. assert (head key = head key') as Hh by (by rewrite (owner_head _ _ H1), (owner_head _ _ H2)).
  destruct H1 as [Hk ->|Hk Hp|Hk ->|i Hk Hi ->], H2 as [Hk' Heq|Hk' Hp'|Hk' Heq|i' Hk' Hi' Heq]; try done;
    try (exfalso; try apply value_head in Hk; try apply value_head in Hk'; try apply row_head in Hk; try apply row_head in Hk';
         try apply blob_head in Hk; try apply blob_head in Hk'; congruence).
  - destruct Hk as (row & Hs & ->), Hk' as (row' & Hs' & ->). apply HasPrefix_spec in Hp as [s ->], Hp' as [s' Heq].
    apply (f_equal tail) in Heq. cbn [tail app] in Heq. rewrite <- !app_assoc in Heq. by apply delimited_inj in Heq as [-> _].
  - exfalso. by eapply (blob_not_chunk key key' i'); [..|lia|].
  - exfalso. symmetry in Heq. by eapply (blob_not_chunk key' key i); [..|lia|].
  - apply (f_equal tail) in Heq. cbn [tail] in Heq. apply delimited_inj in Heq as [-> _]; [done|apply Hk|apply Hk'].
Qed.

(** ** Sequences of operations *)

Lemma lob_ok_frame m m' key :
  m' !! key = m !! key -> (forall k i, chunk_index key k = Some i -> i <> 0 -> m' !! k = m !! k) ->
  lob_ok m key -> lob_ok m' key.
Proof.
  intros Hk Hc. unfold lob_ok. rewrite Hk. destruct (m !! key) as [v|].
  - intros (H1 & H2 & H3). do 2 (split; [done|]). intros k i E Hi. pose proof (meta_count_range v).
    rewrite (Hc k i) by (done || lia). by eapply H3.
  - intros H k i E Hi. rewrite (Hc k i) by (done || lia). by eapply H.
Qed.

Lemma queued_lobs_ok m op : op_wf op -> op_obj op -> lobs_ok m -> lobs_ok (a_queued m op).
Proof.
  intros Hw Ho Hl key Hb. destruct (decide (op_key op = key)) as [Heq|Hne].
  - destruct op as [| |key' chunks sum| | | |]; cbn in Heq; try done;
      try (exfalso; apply blob_head in Hb; subst key; first [rewrite value_head in Hb by apply typed_KeyKV | rewrite row_head in Hb by done]; done).
    subst key'. destruct Hw as [_ Hn]. unfold lob_ok. rewrite !queued_eff by done. cbn [eff]. rewrite bool_decide_true by done.
    cbn [overlay from_option id]. rewrite blen_metadata. split; [done|]. split; [lia|]. intros k i E Hi. rewrite queued_eff by done. cbn [eff].
    case_bool_decide; [subst; by rewrite chunk_index_not_key in E|]. rewrite E. pose proof (blen_nonneg chunks).
    rewrite meta_count_metadata in Hi by lia. destruct (Z.eqb_spec i 0); [lia|]. cbn. apply lookup_ge_None_2. unfold blen in Hi. lia.
  - assert (forall k, owner key k -> a_queued m op !! k = m !! k) as Hk.
    { intros k Hok. rewrite queued_eff by done. destruct (eff op k) eqn:E; [|done].
      destruct Hne. eapply owner_unique; [|exact Hok]. apply eff_owner; [done|]. by rewrite E. }
    apply (lob_ok_frame m); [apply Hk; by apply own_meta| |by apply Hl]. intros k i E Hi. apply Hk.
    pose proof (blob_key_typed _ Hb) as Ht. destruct (chunk_index_key key k i Ht E Hi) as [Hi' ->].
    rewrite blob_chunk_key by done. by eapply own_chunk.
Qed.

Definition ops_ok (ops : list queued_op) : Prop := Forall (fun op => op_wf op /\ op_obj op) ops.

(** A sequence of operations leaves, for each storage key, its last effect. *)
Lemma queued_all_eff ops : forall m, ops_ok ops -> lobs_ok m ->
  lobs_ok (foldl a_queued m ops) /\ forall k, foldl a_queued m ops !! k = overlay (effs ops k) (m !! k).
Proof.
  induction ops as [|op ops IH]; intros m Hok Hl; [done|]. apply Forall_cons in Hok as [[Hw Ho] Hok]. cbn [foldl].
  destruct (IH (a_queued m op)) as [H1 H2]; [done|by apply queued_lobs_ok|]. split; [done|]. intros k.
  rewrite H2, effs_cons, overlay_then, queued_eff by done. done.
Qed.

(** Sequences with the same effects have the same result. *)
Lemma same_effs_same_result ops ops' m : ops_ok ops -> ops_ok ops' -> lobs_ok m ->
  (forall k, effs ops k = effs ops' k) -> foldl a_queued m ops = foldl a_queued m ops'.
Proof.
  intros H1 H2 Hl He. apply map_eq. intros k. destruct (queued_all_eff ops m H1 Hl) as [_ ->].
  destruct (queued_all_eff ops' m H2 Hl) as [_ ->]. by rewrite He.
Qed.

(** The effects on one storage key come from one object. *)
Definition about (key : bytes) (ops : list queued_op) : list queued_op := filter (fun op => op_key op = key) ops.

Lemma about_app key l1 l2 : about key (l1 ++ l2) = about key l1 ++ about key l2.
Proof. apply filter_app. Qed.

Lemma effs_about key ops k : ops_ok ops -> owner key k -> effs ops k = effs (about key ops) k.
Proof.
  intros Hok Hown. induction Hok as [|op ops [Hw Ho] _ IH]; [done|]. unfold about. rewrite filter_cons.
  case_decide as Hk; rewrite !effs_cons, ?IH; [done|].
  assert (eff op k = None) as ->; [|by rewrite then_none]. destruct (eff op k) eqn:E; [|done]. destruct Hk.
  eapply owner_unique; [|exact Hown]. apply eff_owner; [done|]. by rewrite E.
Qed.

(** Sequences that agree object by object have the same effects. *)
Lemma same_about_same_effs ops ops' : ops_ok ops -> ops_ok ops' ->
  (forall key k, owner key k -> effs (about key ops) k = effs (about key ops') k) ->
  forall k, effs ops k = effs ops' k.
Proof.
  intros H1 H2 H k.
  assert (forall l, ops_ok l -> effs l k <> None -> exists key, owner key k) as Hex.
  { intros l Hl. induction Hl as [|op l [Hw Ho] _ IH]; [done|]. rewrite effs_cons. intros Hne.
    destruct (effs l k) eqn:E; [by apply IH|]. cbn in Hne. exists (op_key op). by apply eff_owner. }
  destruct (effs ops k) eqn:E1.
  - destruct (Hex ops H1) as [key Hk]; [by rewrite E1|]. rewrite <- E1. rewrite (effs_about key ops), (effs_about key ops') by done. by apply H.
  - destruct (effs ops' k) eqn:E2; [|done]. destruct (Hex ops' H2) as [key Hk]; [by rewrite E2|]. rewrite <- E1, <- E2.
    rewrite (effs_about key ops), (effs_about key ops') by done. by apply H.
Qed.

(** What was applied already can be applied again, up to any point and further. *)
Lemma effs_replay l1 l2 k : then_eff (effs l1 k) (effs (l1 ++ l2) k) = effs (l1 ++ l2) k.
Proof. rewrite effs_app. by destruct (effs l2 k), (effs l1 k). Qed.

Lemma lobs_ok_empty : lobs_ok ∅.
Proof. intros key _. unfold lob_ok. rewrite lookup_empty. intros. apply lookup_empty. Qed.
