(* ===== verification/BTree.v ===== *)
(** What the engine uses of its store: the interfaces of
    dbkernel/internal/common.go, and both drivers as implementations.

    [BTreeStore] are the operations, [BTreeLaws] what they promise: a call
    either fails in the storage library and changes nothing, or acts on the map
    of typed keys as [KVSpec.a_apply] says.  The drivers get one answer of the
    library per call from a stream, and as much fuel as the map has entries. *)

From stdpp Require Import prelude list numbers gmap.
From Stdlib Require Import ZArith Lia.
From S2P Require Import Prelude Bytes KeyCodec KVKeys KVStore KVBolt KVLmdb KVSpec KVReads.
From S2P Require Import KVQueue KVBoltQueue KVLmdbQueue KVQueueFacts Overlay.

Class BTreeStore (D : Type) := {
  ds_call : D -> kv_op -> outcome (D * option kv_error);
  ds_GetKV : D -> bytes -> outcome (result kv_error bytes);
  ds_GetLOBChunks : D -> bytes -> outcome (result kv_error (list bytes));
  ds_ScanRowCells : D -> bytes -> (bytes -> bool) -> outcome (result kv_error kvmap);
  ds_StoreMetadata : D -> bytes -> bytes -> outcome (D * option kv_error);
  ds_RetrieveMetadata : D -> bytes -> outcome (result kv_error bytes);
  ds_FSync : D -> option lib_error;
  ds_NewTxnQueue : Z -> TxnQueue;
  ds_txn : queue_call -> TxnQueue -> D -> outcome (TxnQueue * D * option kv_error)
}.

Definition from_library (e : kv_error) : Prop := exists x, e = ErrLib x.

(** A read either fails in the library or answers [a]. *)
Definition reads {A} (r : outcome (result kv_error A)) (a : result kv_error A) : Prop :=
  r = Ret a \/ exists x, r = Ret (Err (ErrLib x)).

(** The arguments are such that the driver does not refuse the call. *)
Definition args_ok (m : kvmap) (op : kv_op) : Prop :=
  match op with
  | OBatchSetKV ks vs => ks <> [] /\ length ks = length vs
  | OBatchSetCells rows cols | OBatchDeleteCells rows cols => length rows = length cols
  | OSetLobChunks key chunks _ => chunks <> [] /\ blob_key key /\ lob_ok m key
  | OBatchDeleteLobChunks _ => False
  | _ => True
  end.

Definition or_missing {A} (o : option A) : result kv_error A :=
  match o with Some a => Ok a | None => Err ErrKeyNotFound end.

Class BTreeLaws (D : Type) `{BTreeStore D} := {
  ds_repr : D -> kvmap -> kvmap -> Prop;
  (** a condition of the driver, and whether an empty column name is a column *)
  ds_op_ok : kvmap -> kv_op -> Prop;
  ds_bare : bool;
  ds_call_law d m md op : ds_repr d m md -> ds_op_ok m op -> args_ok m op ->
    exists d' e, ds_call d op = Ret (d', e) /\
      match e with
      | None => ds_repr d' (a_apply op m) md
      | Some e => from_library e /\ ds_repr d' m md
      end;
  ds_GetKV_law d m md k : ds_repr d m md -> reads (ds_GetKV d k) (or_missing (m !! KeyKV k));
  ds_GetLOBChunks_law d m md key chunks sum : ds_repr d m md -> blob_key key -> blen chunks < 2 ^ 32 ->
    (forall k v, eff (QSetLobChunks key chunks sum) k = Some v -> m !! k = v) ->
    reads (ds_GetLOBChunks d key) (Ok chunks);
  ds_GetLOBChunks_missing d m md key : ds_repr d m md -> blob_key key -> m !! key = None ->
    reads (ds_GetLOBChunks d key) (Err ErrKeyNotFound);
  ds_ScanRowCells_law d m md row flt : ds_repr d m md ->
    exists V, row_cells ds_bare flt row m V /\ reads (ds_ScanRowCells d row flt) (scan_answer V);
  ds_StoreMetadata_law d m md k v : ds_repr d m md ->
    exists d' e, ds_StoreMetadata d k v = Ret (d', e) /\
      match e with
      | None => ds_repr d' m (<[k := v]> md)
      | Some e => from_library e /\ ds_repr d' m md
      end;
  ds_RetrieveMetadata_law d m md k : ds_repr d m md -> reads (ds_RetrieveMetadata d k) (or_missing (md !! k));
  ds_NewTxnQueue_law n : q_err (ds_NewTxnQueue n) = None /\ opsQueue (ds_NewTxnQueue n) = [];
  ds_txn_law d m md q c : ds_repr d m md -> q_err q = None -> all_ok m (opsQueue q ++ queued_by c) ->
    exists q' d' e done rest, ds_txn c q d = Ret (q', d', e) /\ opsQueue q ++ queued_by c = done ++ rest /\
      ds_repr d' (foldl a_queued m done) md /\
      (e = None -> q_err q' = None /\ opsQueue q' = rest /\ (is_commit c = true -> rest = []));
  (** an error of a queueing call stays *)
  ds_txn_error c q d q' d' e : ds_txn c q d = Ret (q', d', Some e) -> is_commit c = false -> q_err q' = Some e;
  ds_txn_sticky d m md c q e : ds_repr d m md -> q_err q = Some e ->
    exists d', ds_txn c q d = Ret (q, d', Some e) /\ ds_repr d' m md
}.

(** ** Errors come from the library *)

Definition lib_only {S} (r : outcome (S * option kv_error)) : Prop :=
  match r with Ret (_, Some e) => from_library e | _ => True end.

Lemma lib_only_seq {S} (r : outcome (S * option kv_error)) k :
  lib_only r -> (forall s, r = Ret (s, None) -> lib_only (k s)) ->
  lib_only ('(s, e) ← r; match e with Some e => Ret (s, Some e) | None => k s end).
Proof. destruct r as [[s [e|]]| |]; cbn; naive_solver. Qed.

Lemma lib_only_for_each {X S} (f : X -> S -> outcome (S * option kv_error)) xs :
  (forall x s, lib_only (f x s)) -> forall s, lib_only (for_each f xs s).
Proof.
  intros Hf. induction xs as [|x xs IH]; intros s; cbn [for_each]; [done|]. by apply lib_only_seq.
Qed.

(** A chunked value that has been stored, as the drivers read it. *)
Lemma stored_lob (key : bytes) (chunks : list bytes) (sum : Z) (m : kvmap) : blob_key key -> blen chunks < 2 ^ 32 ->
  (forall k v, eff (QSetLobChunks key chunks sum) k = Some v -> m !! k = v) ->
  m !! KeyBlobChunk key 0 = Some (chunk_metadata (blen chunks) sum) /\
  forall i c, chunks !! i = Some c -> m !! KeyBlobChunk key (1 + Z.of_nat i) = Some c.
Proof.
  intros Hk Hn Hm. rewrite blob_key_meta by done. split.
  - apply Hm. cbn [eff]. by rewrite bool_decide_true.
  - intros i c Hc. pose proof (lookup_lt_Some _ _ _ Hc) as Hi. unfold blen in Hn. apply Hm. cbn [eff].
    pose proof (blob_key_typed _ Hk) as Ht. rewrite bool_decide_false.
    + rewrite chunk_key_index by (done || lia). destruct (Z.eqb_spec (1 + Z.of_nat i) 0); [lia|].
      replace (Z.to_nat (1 + Z.of_nat i - 1)) with i by lia. by rewrite Hc.
    + intros Heq. apply (chunk_key_longer key (1 + Z.of_nat i) Ht); [lia|]. by rewrite Heq, blob_key_meta.
Qed.

(** ** bbolt *)

Section bolt.
Context {B : Type} `{BoltLaws B}.

Record BoltWorld := mkBoltWorld { bw_db : BoltDB B; bw_answers : nat -> TxIO; bw_fsync : option lib_error }.

Definition bolt_later (d : BoltWorld) (db : BoltDB B) : BoltWorld :=
  mkBoltWorld db (fun n => bw_answers d (S n)) (bw_fsync d).

Definition bolt_size (d : BoltWorld) : nat :=
  match bd_namespace (bw_db d) with Some b => size (b_map b) | None => 0 end.

Lemma bolt_Put_lib k v (b : B) : lib_only (KVBolt.Put b k v).
Proof. unfold KVBolt.Put. destruct (b_Put b k v) as [b' [e|]]; cbn; [by eexists|done]. Qed.
Lemma bolt_Delete_lib k (b : B) : lib_only (KVBolt.Delete b k).
Proof. unfold KVBolt.Delete. destruct (b_Delete b k) as [b' [e|]]; cbn; [by eexists|done]. Qed.

Lemma bolt_Update_lib io db (b : B) fn : bd_namespace db = Some b -> lib_only (fn b) -> lib_only (KVBolt.Update_ io db fn).
Proof.
  intros Hb Hf. unfold KVBolt.Update_, KVBolt.Update. rewrite Hb. destruct (tx_begin io); [by eexists|].
  destruct (fn b) as [[b' [e|]]| |]; [done| |done..]. cbn. destruct (tx_commit io); [by eexists|done].
Qed.

Lemma bolt_call_lib fuel io (db : BoltDB B) b op : bd_namespace db = Some b -> args_ok (b_map b) op ->
  lib_only (BoltRefines.call fuel io db op).
Proof.
  intros Hb Ha. destruct op as [k v|ks vs|key chunks sum|rows cols|rows cols|rows|k|ks|keys]; cbn [BoltRefines.call args_ok] in *.
  - apply (bolt_Update_lib _ _ b); [done|]. apply bolt_Put_lib.
  - destruct Ha as [Hne Hl]. unfold KVBolt.BatchSetKV, blen.
    destruct ks as [|k ks]; [done|]. destruct vs as [|v vs]; [done|].
    replace (Z.of_nat (length (k :: ks)) =? Z.of_nat (length (v :: vs))) with true by (symmetry; lia).
    apply (bolt_Update_lib _ _ b); [done|]. apply lib_only_for_each. intros [k' v'] s. apply bolt_Put_lib.
  - destruct Ha as (Hne & Hk & Hok). apply (bolt_Update_lib _ _ b); [done|].
    apply lib_only_seq; [|intros s _; apply lib_only_seq; [apply lib_only_for_each; intros [i c] s'; apply bolt_Put_lib|intros; apply bolt_Put_lib]].
    unfold KVBolt.drop_old_chunks. rewrite b_Get_law, blob_key_meta by done. unfold lob_ok in Hok.
    destruct (b_map b !! key) as [[|flag v]|]; [done| |done]. destruct Hok as (Hty & Hlen & _).
    case_bool_decide; [|done]. destruct (Z.ltb_spec (blen (flag :: v)) 9); [lia|]. rewrite meta_count_get by lia.
    apply lib_only_for_each. intros; apply bolt_Delete_lib.
  - unfold KVBolt.BatchSetCells, blen. rewrite Ha, Z.eqb_refl. apply (bolt_Update_lib _ _ b); [done|].
    apply lib_only_for_each. intros [r c] s. apply lib_only_for_each. intros [k v] s'. apply bolt_Put_lib.
  - unfold KVBolt.BatchDeleteCells, blen. rewrite Ha, Z.eqb_refl. apply (bolt_Update_lib _ _ b); [done|].
    apply lib_only_for_each. intros [r c] s. apply lib_only_for_each. intros [k v] s'. apply bolt_Delete_lib.
  - unfold KVBolt.BatchDeleteRows, KVBolt.Update. rewrite Hb. destruct (tx_begin io); [by eexists|].
    assert (lib_only (for_each (delete_row fuel) rows (b, 0))) as Hl.
    { apply lib_only_for_each. intros row st. unfold delete_row. destruct (collect_keys _ _ _ _); [|done..]. cbn [mbind outcome_bind].
      apply lib_only_for_each. intros k [b' n]. pose proof (bolt_Delete_lib k b') as Hd. by destruct (KVBolt.Delete b' k) as [[? ?]| |]. }
    destruct (for_each _ rows (b, 0)) as [[[b' n] [e|]]| |]; [done| |done..]. cbn. destruct (tx_commit io); [by eexists|done].
  - apply (bolt_Update_lib _ _ b); [done|]. unfold delete_kv. destruct (b_Get b (KeyKV k)); [apply bolt_Delete_lib|done].
  - apply (bolt_Update_lib _ _ b); [done|]. apply lib_only_for_each. intros k s. unfold delete_kv.
    destruct (b_Get s (KeyKV k)); [apply bolt_Delete_lib|done].
  - done.
Qed.

#[global] Instance bolt_store : BTreeStore BoltWorld := {
  ds_call d op := '(db, e) ← BoltRefines.call (2 + bolt_size d) (bw_answers d 0%nat) (bw_db d) op; Ret (bolt_later d db, e);
  ds_GetKV d k := KVBolt.GetKV (bw_answers d 0%nat) (bw_db d) k;
  ds_GetLOBChunks d k := KVBolt.GetLOBChunks (bw_answers d 0%nat) (bw_db d) k;
  ds_ScanRowCells d row flt := KVBolt.ScanRowCells (2 + bolt_size d) (bw_answers d 0%nat) (bw_db d) row (Some flt);
  ds_StoreMetadata d k v := '(db, e) ← KVBolt.StoreMetadata (bw_answers d 0%nat) (bw_db d) k v; Ret (bolt_later d db, e);
  ds_RetrieveMetadata d k := KVBolt.RetrieveMetadata (bw_answers d 0%nat) (bw_db d) k;
  ds_FSync d := bw_fsync d;
  ds_NewTxnQueue := KVBoltQueue.NewTxnQueue;
  ds_txn c q d :=
    '(q, db, e) ← bolt_queue_call (2 + bolt_size d + sum_list_with weight (opsQueue q ++ queued_by c))
                    (bw_answers d 0%nat) c q (bw_db d);
    Ret (q, bolt_later d db, e)
}.

Definition bolt_repr (d : BoltWorld) (m md : kvmap) : Prop :=
  BoltRefines.contents (bw_db d) = Some m /\ b_map <$> bd_system (bw_db d) = Some md.

Lemma bolt_repr_inv d m md : bolt_repr d m md -> exists b s, bd_namespace (bw_db d) = Some b /\ b_map b = m /\
  bd_system (bw_db d) = Some s /\ b_map s = md /\ bolt_size d = size m.
Proof.
  intros [Hc Hs]. unfold BoltRefines.contents in Hc. unfold bolt_size. destruct (bd_namespace (bw_db d)) as [b|]; [|done].
  destruct (bd_system (bw_db d)) as [s|]; [|done]. injection Hc as <-. injection Hs as <-. eauto 10.
Qed.

Lemma bolt_call_keeps_system fuel io (db : BoltDB B) op db' e :
  BoltRefines.call fuel io db op = Ret (db', e) -> bd_system db' = bd_system db.
Proof.
  assert (forall A (a0 : A) fn db' a e, KVBolt.Update io db a0 fn = Ret (db', a, e) -> bd_system db' = bd_system db) as HU.
  { intros A a0 fn d1 a e1. unfold KVBolt.Update. destruct (tx_begin io); [by intros [= <- _ _]|].
    destruct (bd_namespace db); [|by intros [= <- _ _]]. intros Hr. apply bind_Ret_inv in Hr as ([[b' a'] [x|]] & _ & Hr); [by injection Hr as <- _ _|].
    by destruct (tx_commit io); injection Hr as <- _ _. }
  assert (forall fn db' e, KVBolt.Update_ io db fn = Ret (db', e) -> bd_system db' = bd_system db) as HU_.
  { intros fn d1 e1 Hr. apply bind_Ret_inv in Hr as ([[d2 u] e2] & Hr & Heq). injection Heq as <- <-. by eapply HU. }
  destruct op; cbn [BoltRefines.call]; try (apply HU_).
  - unfold KVBolt.BatchSetKV. destruct (_ || _); [by intros [= <- _]|apply HU_].
  - unfold KVBolt.BatchSetCells. destruct (negb _); [by intros [= <- _]|apply HU_].
  - unfold KVBolt.BatchDeleteCells. destruct (negb _); [by intros [= <- _]|apply HU_].
  - intros Hr. apply bind_Ret_inv in Hr as ([[d2 u] e2] & Hr & Heq). injection Heq as <- <-. by eapply HU.
Qed.

Lemma bolt_call_law d m md op : bolt_repr d m md -> args_ok m op ->
  exists d' e, ds_call d op = Ret (d', e) /\
    match e with None => bolt_repr d' (a_apply op m) md | Some e => from_library e /\ bolt_repr d' m md end.
Proof.
  intros Hr Ha. pose proof (bolt_repr_inv _ _ _ Hr) as (b & s & Hb & <- & Hs & <- & Hsz). cbn [ds_call bolt_store]. rewrite Hsz.
  assert (BoltRefines.op_ok (b_map b) op) as Hop.
  { destruct op; try done. cbn in *. destruct Ha as (_ & Hk & Hok). unfold lob_ok in Hok. rewrite blob_key_meta by done.
    destruct (b_map b !! key) as [[|? ?]|]; naive_solver. }
  pose proof (bolt_call_lib (2 + size (b_map b)) (bw_answers d 0%nat) (bw_db d) b op Hb Ha) as Hlib.
  destruct (BoltRefines.bolt_call_atomic (2 + size (b_map b)) (bw_answers d 0%nat) (bw_db d) b op Hb ltac:(lia) Hop)
    as (db' & e & Hrun & Hres).
  rewrite Hrun in Hlib |- *. cbn [mbind outcome_bind]. eexists _, e. split; [done|].
  pose proof (bolt_call_keeps_system _ _ _ _ _ _ Hrun) as Hk. destruct e as [e|].
  - subst db'. split; [done|]. exact Hr.
  - split; [done|]. cbn. by rewrite Hk, Hs.
Qed.

Lemma bolt_queue_keeps_system fuel io c q (db : BoltDB B) q' db' e :
  bolt_queue_call fuel io c q db = Ret (q', db', e) -> bd_system db' = bd_system db.
Proof.
  assert (forall q q' db' e, KVBoltQueue.flushBatch fuel io q db = Ret (q', db', e) -> bd_system db' = bd_system db) as HF.
  { intros q0 q1 d1 e1. unfold KVBoltQueue.flushBatch. destruct (q_err q0); [by intros [= _ <- _]|].
    destruct (opsQueue q0) as [|o os]; [by intros [= _ <- _]|]. destruct (tx_begin io); [by intros [= _ <- _]|].
    destruct (bd_namespace db); [|by intros [= _ <- _]]. intros Hr. apply bind_Ret_inv in Hr as ([st [x|]] & _ & Hr); [by injection Hr as _ <- _|].
    destruct (tx_commit io); by injection Hr as _ <- _. }
  assert (forall ops q q' db' e, KVBoltQueue.enqueue fuel io ops q db = Ret (q', db', e) -> bd_system db' = bd_system db) as HE.
  { intros ops q0 q1 d1 e1. unfold KVBoltQueue.enqueue, KVBoltQueue.flush_if_full. destruct (q_err q0); [by intros [= _ <- _]|].
    destruct (_ <=? _); [|by intros [= _ <- _]]. intros Hr. apply bind_Ret_inv in Hr as ([[q2 d2] e2] & Hr & Heq).
    injection Heq as _ <- _. by eapply HF. }
  destruct c; cbn [bolt_queue_call]; try (apply HE).
  - unfold KVBoltQueue.BatchSetCells. destruct (q_err q); [by intros [= _ <- _]|]. destruct (negb _); [by intros [= _ <- _]|apply HE].
  - unfold KVBoltQueue.BatchDeleteCells. destruct (q_err q); [by intros [= _ <- _]|]. destruct (negb _); [by intros [= _ <- _]|apply HE].
  - unfold KVBoltQueue.Commit. destruct (q_err q); [by intros [= _ <- _]|apply HF].
Qed.

Lemma bolt_txn_law d m md q c : bolt_repr d m md -> q_err q = None -> all_ok m (opsQueue q ++ queued_by c) ->
  exists q' d' e done rest, ds_txn c q d = Ret (q', d', e) /\ opsQueue q ++ queued_by c = done ++ rest /\
    bolt_repr d' (foldl a_queued m done) md /\
    (e = None -> q_err q' = None /\ opsQueue q' = rest /\ (is_commit c = true -> rest = [])).
Proof.
  intros Hr He Hok. pose proof (bolt_repr_inv _ _ _ Hr) as (b & s & Hb & <- & Hs & <- & Hsz). cbn [ds_txn bolt_store]. rewrite Hsz.
  destruct (bolt_call_step (2 + size (b_map b) + sum_list_with weight (opsQueue q ++ queued_by c)) (bw_answers d 0%nat) c q
    (bw_db d) (b_map b) He) as (q' & db' & e & dn & rest & Hrun & Hsp & Hc & Hn);
    [unfold BoltRefines.contents; by rewrite Hb|done|unfold room; lia|].
  rewrite Hrun. cbn [mbind outcome_bind]. eexists q', _, e, dn, rest. split; [done|]. split; [done|]. split; [|done].
  split; [done|]. cbn. by rewrite (bolt_queue_keeps_system _ _ _ _ _ _ _ _ Hrun), Hs.
Qed.

Lemma bolt_txn_error c q d q' d' e : ds_txn c q d = Ret (q', d', Some e) -> is_commit c = false -> q_err q' = Some e.
Proof.
  intros Hr Hc. cbn [ds_txn bolt_store] in Hr. apply bind_Ret_inv in Hr as ([[q1 db1] e1] & Hr & Heq). injection Heq as -> _ ->.
  assert (forall ops fuel, KVBoltQueue.enqueue fuel (bw_answers d 0%nat) ops q (bw_db d) = Ret (q', db1, Some e) -> q_err q' = Some e) as HE.
  { intros ops fuel. unfold KVBoltQueue.enqueue, KVBoltQueue.flush_if_full. destruct (q_err q) eqn:E; [intros [= <- _ <-]; done|].
    destruct (_ <=? _); [|cbn; by rewrite E]. intros Hr'. apply bind_Ret_inv in Hr' as ([[q2 d2] e2] & _ & Heq). by injection Heq as <- _ ->. }
  destruct c; cbn [bolt_queue_call] in Hr; try done; try (by eapply HE).
  - unfold KVBoltQueue.BatchSetCells in Hr. destruct (q_err q) eqn:E; [injection Hr as <- _ <-; done|].
    destruct (negb _); [by injection Hr as <- _ <-|by eapply HE].
  - unfold KVBoltQueue.BatchDeleteCells in Hr. destruct (q_err q) eqn:E; [injection Hr as <- _ <-; done|].
    destruct (negb _); [by injection Hr as <- _ <-|by eapply HE].
Qed.

Lemma bolt_txn_sticky d m md c q e : bolt_repr d m md -> q_err q = Some e ->
  exists d', ds_txn c q d = Ret (q, d', Some e) /\ bolt_repr d' m md.
Proof.
  intros Hr He. cbn [ds_txn bolt_store]. eexists (bolt_later d (bw_db d)). split; [|exact Hr].
  destruct c; cbn [bolt_queue_call]; unfold KVBoltQueue.BatchPutKV, KVBoltQueue.BatchDeleteKV, KVBoltQueue.SetLobChunks,
    KVBoltQueue.BatchDeleteLobChunks, KVBoltQueue.BatchSetCells, KVBoltQueue.BatchDeleteCells, KVBoltQueue.BatchDeleteRows,
    KVBoltQueue.Commit, KVBoltQueue.enqueue; by rewrite He.
Qed.

Lemma bolt_GetKV_law d m md k : bolt_repr d m md -> reads (ds_GetKV d k) (or_missing (m !! KeyKV k)).
Proof.
  intros Hr. pose proof (bolt_repr_inv _ _ _ Hr) as (b & s & Hb & <- & _). cbn. unfold KVBolt.GetKV, KVBolt.View.
  destruct (tx_begin _); [right; by eexists|]. rewrite Hb, b_Get_law. left. by destruct (b_map b !! KeyKV k).
Qed.

Lemma bolt_GetLOBChunks_law d m md key chunks sum : bolt_repr d m md -> blob_key key -> blen chunks < 2 ^ 32 ->
  (forall k v, eff (QSetLobChunks key chunks sum) k = Some v -> m !! k = v) -> reads (ds_GetLOBChunks d key) (Ok chunks).
Proof.
  intros Hr Hk Hn Hm. pose proof (bolt_repr_inv _ _ _ Hr) as (b & s & Hb & <- & _).
  destruct (stored_lob key chunks sum (b_map b) Hk Hn Hm) as [Hmeta Hch].
  cbn. unfold KVBolt.GetLOBChunks, KVBolt.View. destruct (tx_begin _); [right; by eexists|]. left.
  rewrite Hb, b_Get_law, Hmeta, blen_metadata. cbn [Z.ltb Z.compare Pos.compare Pos.compare_cont].
  rewrite meta_count_get by (by rewrite blen_metadata). cbn [mbind outcome_bind].
  pose proof (blen_nonneg chunks). rewrite meta_count_metadata by lia. apply bolt_read_chunks.
  intros i c Hi. rewrite <- (Hch i c Hi). do 2 f_equal. lia.
Qed.

Lemma bolt_GetLOBChunks_missing d m md key : bolt_repr d m md -> blob_key key -> m !! key = None ->
  reads (ds_GetLOBChunks d key) (Err ErrKeyNotFound).
Proof.
  intros Hr Hk Hm. pose proof (bolt_repr_inv _ _ _ Hr) as (b & s & Hb & <- & _). cbn. unfold KVBolt.GetLOBChunks, KVBolt.View.
  destruct (tx_begin _); [right; by eexists|]. left. by rewrite Hb, b_Get_law, blob_key_meta, Hm.
Qed.

Lemma bolt_ScanRowCells_law d m md row flt : bolt_repr d m md ->
  exists V, row_cells false flt row m V /\ reads (ds_ScanRowCells d row flt) (scan_answer V).
Proof.
  intros Hr. pose proof (bolt_repr_inv _ _ _ Hr) as (b & s & Hb & <- & _ & _ & Hsz). cbn [ds_ScanRowCells bolt_store]. rewrite Hsz.
  destruct (tx_begin (bw_answers d 0%nat)) as [e|] eqn:E.
  - destruct (bolt_scan (2 + size (b_map b)) okTx (bw_db d) b row (Some flt) eq_refl Hb ltac:(lia)) as (V & _ & HV).
    exists V. split; [done|]. right. exists e. unfold KVBolt.ScanRowCells, KVBolt.View. by rewrite E.
  - destruct (bolt_scan (2 + size (b_map b)) _ (bw_db d) b row (Some flt) E Hb ltac:(lia)) as (V & Hrun & HV).
    exists V. split; [done|]. by left.
Qed.

Lemma bolt_StoreMetadata_law d m md k v : bolt_repr d m md ->
  exists d' e, ds_StoreMetadata d k v = Ret (d', e) /\
    match e with None => bolt_repr d' m (<[k := v]> md) | Some e => from_library e /\ bolt_repr d' m md end.
Proof.
  intros Hr. pose proof (bolt_repr_inv _ _ _ Hr) as (b & s & Hb & <- & Hs & <- & _). cbn [ds_StoreMetadata bolt_store].
  unfold KVBolt.StoreMetadata. rewrite Hs. destruct (tx_begin _); cbn [mbind outcome_bind].
  { eexists _, _. split; [done|]. split; [by eexists|exact Hr]. }
  pose proof (bolt_Put_lib k v s) as Hlib. destruct (BoltRefines.bolt_Put_does k v s) as (s' & e & Hrun & Hm). rewrite Hrun in Hlib |- *.
  cbn [mbind outcome_bind]. destruct e as [e|]; cbn [mbind outcome_bind].
  { eexists _, _. split; [done|]. split; [exact Hlib|exact Hr]. }
  destruct (tx_commit _); cbn [mbind outcome_bind]; eexists _, _; (split; [done|]).
  { split; [by eexists|exact Hr]. }
  split; cbn; [unfold BoltRefines.contents; by rewrite Hb|]. by rewrite Hm.
Qed.

Lemma bolt_RetrieveMetadata_law d m md k : bolt_repr d m md -> reads (ds_RetrieveMetadata d k) (or_missing (md !! k)).
Proof.
  intros Hr. pose proof (bolt_repr_inv _ _ _ Hr) as (b & s & _ & _ & Hs & <- & _). cbn. unfold KVBolt.RetrieveMetadata.
  destruct (tx_begin _); [right; by eexists|]. rewrite Hs, b_Get_law. left. by destruct (b_map s !! k).
Qed.

#[global] Program Instance bolt_store_laws : BTreeLaws BoltWorld :=
  { ds_repr := bolt_repr; ds_op_ok _ _ := True; ds_bare := false }.
Next Obligation. intros d m md op Hr _ Ha. by apply bolt_call_law. Qed.
Next Obligation. exact bolt_GetKV_law. Qed.
Next Obligation. exact bolt_GetLOBChunks_law. Qed.
Next Obligation. exact bolt_GetLOBChunks_missing. Qed.
Next Obligation. exact bolt_ScanRowCells_law. Qed.
Next Obligation. exact bolt_StoreMetadata_law. Qed.
Next Obligation. exact bolt_RetrieveMetadata_law. Qed.
Next Obligation. done. Qed.
Next Obligation. exact bolt_txn_law. Qed.
Next Obligation. exact bolt_txn_error. Qed.
Next Obligation. exact bolt_txn_sticky. Qed.
End bolt.
Arguments BoltWorld B : clear implicits.
