(* ===== verification/BTreeLmdb.v ===== *)
(** The LMDB driver as a store of the engine.  Deleting several rows in one
    call is as promised only when every row but the last one is followed by
    another key ([LmdbRefines.rows_ok]). *)

From stdpp Require Import prelude list numbers gmap.
From Stdlib Require Import ZArith Lia.
From S2P Require Import Prelude Bytes KeyCodec KVKeys KVStore KVBolt KVLmdb KVSpec KVReads.
From S2P Require Import KVQueue KVBoltQueue KVLmdbQueue KVQueueFacts Overlay BTree.

Record LmdbWorld (T : Type) := mkLmdbWorld { lw_db : LmdbEmbed T; lw_answers : nat -> TxIO; lw_fsync : option lib_error }.
Arguments mkLmdbWorld {T} _ _ _.
Arguments lw_db {T} _.
Arguments lw_answers {T} _ _.
Arguments lw_fsync {T} _.

Section lmdb.
Context {T : Type} `{LmdbLaws T}.
(** Deletions fail only for missing keys. *)
Context (del_ok : forall (t : T) k t' e, l_Del t k = (t', Some e) -> e = NotFound).

Definition lmdb_later (d : LmdbWorld T) (db : LmdbEmbed T) : LmdbWorld T :=
  mkLmdbWorld db (fun n => lw_answers d (S n)) (lw_fsync d).

Definition lmdb_size (d : LmdbWorld T) : nat := size (l_map (ld_data (lw_db d))).

#[global] Instance lmdb_store : BTreeStore (LmdbWorld T) := {
  ds_call d op := '(db, e) ← LmdbRefines.call (2 + lmdb_size d) (lw_answers d 0%nat) (lw_db d) op; Ret (lmdb_later d db, e);
  ds_GetKV d k := KVLmdb.GetKV (lw_answers d 0%nat) (lw_db d) k;
  ds_GetLOBChunks d k := KVLmdb.GetLOBChunks (lw_answers d 0%nat) (lw_db d) k;
  ds_ScanRowCells d row flt := KVLmdb.ScanRowCells (2 + lmdb_size d) (lw_answers d 0%nat) (lw_db d) row (Some flt);
  ds_StoreMetadata d k v := '(db, e) ← KVLmdb.StoreMetadata (lw_answers d 0%nat) (lw_db d) k v; Ret (lmdb_later d db, e);
  ds_RetrieveMetadata d k := KVLmdb.RetrieveMetadata (lw_answers d 0%nat) (lw_db d) k;
  ds_FSync d := lw_fsync d;
  ds_NewTxnQueue := KVLmdbQueue.NewTxnQueue;
  ds_txn c q d :=
    '(q, db, e) ← lmdb_queue_call (2 + lmdb_size d + sum_list_with weight (opsQueue q ++ queued_by c))
                    (lw_answers d 0%nat) c q (lw_db d);
    Ret (q, lmdb_later d db, e)
}.

Definition lmdb_repr (d : LmdbWorld T) (m md : kvmap) : Prop :=
  l_map (ld_data (lw_db d)) = m /\ l_map (ld_meta (lw_db d)) = md.

Lemma from_lib e : from_library (lib e).
Proof. destruct e; by eexists. Qed.

Lemma lmdb_Put_lib k v (t : T) : lib_only (KVLmdb.Put t k v).
Proof. unfold KVLmdb.Put. destruct (l_Put t k v) as [t' [e|]]; cbn; [apply from_lib|done]. Qed.
Lemma lmdb_Del_lib k (t : T) : lib_only (Del t k).
Proof. unfold Del. destruct (l_Del t k) as [t' [e|]]; [|done]. cbn. destruct (IsNotFound e); [done|apply from_lib]. Qed.

Lemma lmdb_Update_lib io (db : LmdbEmbed T) fn : lib_only (fn (ld_data db)) -> lib_only (KVLmdb.Update_ io db fn).
Proof.
  intros Hf. unfold KVLmdb.Update_, KVLmdb.Update. destruct (tx_begin io); [by eexists|].
  destruct (fn (ld_data db)) as [[t' [e|]]| |]; [done| |done..]. cbn. destruct (tx_commit io); [by eexists|done].
Qed.

Lemma delete_rows_lib fuel rows : forall st : T * Z, lib_only (delete_rows_loop fuel rows st).
Proof.
  induction rows as [|row rows IH]; intros st; cbn [delete_rows_loop]; [done|].
  destruct (delete_row_loop _ _ _ st) as [[st' [|e|e]]| |]; cbn [mbind outcome_bind]; [apply IH| |apply from_lib|done..].
  destruct (IsNotFound e); [done|apply from_lib].
Qed.

Lemma lmdb_call_lib fuel io (db : LmdbEmbed T) op : args_ok (l_map (ld_data db)) op -> lib_only (LmdbRefines.call fuel io db op).
Proof.
  intros Ha. destruct op as [k v|ks vs|key chunks sum|rows cols|rows cols|rows|k|ks|keys]; cbn [LmdbRefines.call args_ok] in *.
  - apply lmdb_Update_lib. apply lmdb_Put_lib.
  - destruct Ha as [Hne Hl]. unfold KVLmdb.BatchSetKV, blen.
    destruct ks as [|k ks]; [done|]. destruct vs as [|v vs]; [done|].
    replace (Z.of_nat (length (k :: ks)) =? Z.of_nat (length (v :: vs))) with true by (symmetry; lia).
    apply lmdb_Update_lib. apply lib_only_for_each. intros [k' v'] s. apply lmdb_Put_lib.
  - destruct Ha as (Hne & Hk & Hok). unfold KVLmdb.SetLobChunks, blen. destruct chunks as [|c chunks]; [done|].
    change (Z.of_nat (length (c :: chunks)) =? 0) with false. cbn iota. apply lmdb_Update_lib.
    apply lib_only_seq; [|intros s _; apply lib_only_seq; [apply lib_only_for_each; intros [i x] s'; apply lmdb_Put_lib|intros; apply lmdb_Put_lib]].
    unfold KVLmdb.drop_old_chunks. rewrite LmdbRefines.l_Get_cases, blob_key_meta by done. unfold lob_ok in Hok.
    destruct (l_map (ld_data db) !! key) as [[|flag v]|]; [done| |done]. destruct Hok as (Hty & Hlen & _).
    case_bool_decide; [|done]. destruct (Z.ltb_spec (blen (flag :: v)) 9); [lia|]. rewrite meta_count_get by lia.
    apply lib_only_for_each. intros; apply lmdb_Del_lib.
  - unfold KVLmdb.BatchSetCells, blen. rewrite Ha, Z.eqb_refl. apply lmdb_Update_lib.
    apply lib_only_for_each. intros [r c] s. apply lib_only_for_each. intros [k v] s'. apply lmdb_Put_lib.
  - unfold KVLmdb.BatchDeleteCells, blen. rewrite Ha, Z.eqb_refl. apply lmdb_Update_lib.
    apply lib_only_for_each. intros [r c] s. apply lib_only_for_each. intros [k v] s'. apply lmdb_Del_lib.
  - unfold KVLmdb.BatchDeleteRows, KVLmdb.Update. destruct (_ =? 0); [done|]. destruct (tx_begin io); [by eexists|].
    destruct (l_OpenCursor (ld_data db)); [apply from_lib|].
    pose proof (delete_rows_lib fuel rows (ld_data db, 0)) as Hl.
    destruct (delete_rows_loop _ _ _) as [[[t' n] [e|]]| |]; [done| |done..]. cbn. destruct (tx_commit io); [by eexists|done].
  - apply lmdb_Update_lib. apply lmdb_Del_lib.
  - unfold KVLmdb.BatchDeleteKV. destruct (_ =? 0); [done|]. apply lmdb_Update_lib. apply lib_only_for_each. intros; apply lmdb_Del_lib.
  - done.
Qed.

Lemma lmdb_call_keeps_meta fuel io (db : LmdbEmbed T) op db' e :
  LmdbRefines.call fuel io db op = Ret (db', e) -> ld_meta db' = ld_meta db.
Proof.
  assert (forall A (a0 : A) fn db' a e, KVLmdb.Update io db a0 fn = Ret (db', a, e) -> ld_meta db' = ld_meta db) as HU.
  { intros A a0 fn d1 a e1. unfold KVLmdb.Update. destruct (tx_begin io); [by intros [= <- _ _]|].
    intros Hr. apply bind_Ret_inv in Hr as ([[b' a'] [x|]] & _ & Hr); [by injection Hr as <- _ _|].
    by destruct (tx_commit io); injection Hr as <- _ _. }
  assert (forall fn db' e, KVLmdb.Update_ io db fn = Ret (db', e) -> ld_meta db' = ld_meta db) as HU_.
  { intros fn d1 e1 Hr. apply bind_Ret_inv in Hr as ([[d2 u] e2] & Hr & Heq). injection Heq as <- <-. by eapply HU. }
  destruct op; cbn [LmdbRefines.call]; try (apply HU_).
  - unfold KVLmdb.BatchSetKV. destruct (_ || _); [by intros [= <- _]|apply HU_].
  - unfold KVLmdb.SetLobChunks. destruct (_ =? 0); [by intros [= <- _]|apply HU_].
  - unfold KVLmdb.BatchSetCells. destruct (negb _); [by intros [= <- _]|apply HU_].
  - unfold KVLmdb.BatchDeleteCells. destruct (negb _); [by intros [= <- _]|apply HU_].
  - unfold KVLmdb.BatchDeleteRows. destruct (_ =? 0); [by intros [= <- _]|].
    intros Hr. apply bind_Ret_inv in Hr as ([[d2 u] e2] & Hr & Heq). injection Heq as <- <-. by eapply HU.
  - unfold KVLmdb.BatchDeleteKV. destruct (_ =? 0); [by intros [= <- _]|apply HU_].
  - unfold KVLmdb.BatchDeleteLobChunks. destruct (_ =? 0); [by intros [= <- _]|apply HU_].
Qed.

Lemma lmdb_call_law d m md op : lmdb_repr d m md -> LmdbRefines.op_ok m op -> args_ok m op ->
  exists d' e, ds_call d op = Ret (d', e) /\
    match e with None => lmdb_repr d' (a_apply op m) md | Some e => from_library e /\ lmdb_repr d' m md end.
Proof.
  intros [<- <-] Hop Ha. cbn [ds_call lmdb_store].
  pose proof (lmdb_call_lib (2 + lmdb_size d) (lw_answers d 0%nat) (lw_db d) op Ha) as Hlib.
  destruct (LmdbRefines.lmdb_call_atomic (2 + lmdb_size d) (lw_answers d 0%nat) (lw_db d) op ltac:(unfold lmdb_size; lia) Hop) as (db' & e & Hrun & Hres).
  rewrite Hrun in Hlib |- *. cbn [mbind outcome_bind]. eexists _, e. split; [done|].
  pose proof (lmdb_call_keeps_meta _ _ _ _ _ _ Hrun) as Hk. destruct e as [e|].
  - subst db'. split; [done|]. done.
  - unfold LmdbRefines.contents in Hres. injection Hres as Hres. split; cbn; [done|by rewrite Hk].
Qed.

Lemma lmdb_queue_keeps_meta fuel io c q (db : LmdbEmbed T) q' db' e :
  lmdb_queue_call fuel io c q db = Ret (q', db', e) -> ld_meta db' = ld_meta db.
Proof.
  assert (forall q q' db' e, KVLmdbQueue.flushBatch fuel io q db = Ret (q', db', e) -> ld_meta db' = ld_meta db) as HF.
  { intros q0 q1 d1 e1. unfold KVLmdbQueue.flushBatch. destruct (q_err q0); [by intros [= _ <- _]|].
    destruct (opsQueue q0) as [|o os]; [by intros [= _ <- _]|]. destruct (tx_begin io); [by intros [= _ <- _]|].
    intros Hr. apply bind_Ret_inv in Hr as ([st [x|]] & _ & Hr); [by injection Hr as _ <- _|].
    destruct (tx_commit io); by injection Hr as _ <- _. }
  assert (forall q q' db' e, ('(q, db, e) ← KVLmdbQueue.flushBatch fuel io q db; Ret (with_err e q, db, e)) = Ret (q', db', e) ->
    ld_meta db' = ld_meta db) as HF'.
  { intros q0 q1 d1 e1 Hr. apply bind_Ret_inv in Hr as ([[q2 d2] e2] & Hr & Heq). injection Heq as _ <- _. by eapply HF. }
  assert (forall ops q q' db' e, KVLmdbQueue.enqueue fuel io ops q db = Ret (q', db', e) -> ld_meta db' = ld_meta db) as HE.
  { intros ops q0 q1 d1 e1. unfold KVLmdbQueue.enqueue, KVLmdbQueue.flush_if_full. destruct (q_err q0); [by intros [= _ <- _]|].
    destruct (_ <=? _); [apply HF'|by intros [= _ <- _]]. }
  destruct c; cbn [lmdb_queue_call]; try (apply HE).
  - unfold KVLmdbQueue.SetLobChunks. destruct (q_err q); [by intros [= _ <- _]|]. first [apply HF|apply HF'].
  - unfold KVLmdbQueue.BatchSetCells. destruct (q_err q); [by intros [= _ <- _]|]. destruct (negb _); [by intros [= _ <- _]|apply HE].
  - unfold KVLmdbQueue.BatchDeleteCells. destruct (q_err q); [by intros [= _ <- _]|]. destruct (negb _); [by intros [= _ <- _]|apply HE].
  - unfold KVLmdbQueue.Commit. destruct (q_err q); [by intros [= _ <- _]|apply HF].
Qed.

Lemma lmdb_txn_law d m md q c : lmdb_repr d m md -> q_err q = None -> all_ok m (opsQueue q ++ queued_by c) ->
  exists q' d' e dn rest, ds_txn c q d = Ret (q', d', e) /\ opsQueue q ++ queued_by c = dn ++ rest /\
    lmdb_repr d' (foldl a_queued m dn) md /\
    (e = None -> q_err q' = None /\ opsQueue q' = rest /\ (is_commit c = true -> rest = [])).
Proof.
  intros [<- <-] He Hok. cbn [ds_txn lmdb_store]. unfold lmdb_size.
  destruct (lmdb_call_step (2 + size (l_map (ld_data (lw_db d))) + sum_list_with weight (opsQueue q ++ queued_by c))
    (lw_answers d 0%nat) c q (lw_db d) _ del_ok He eq_refl Hok ltac:(unfold room; lia)) as (q' & db' & e & dn & rest & Hrun & Hsp & Hc & Hn).
  rewrite Hrun. cbn [mbind outcome_bind]. eexists q', _, e, dn, rest. split; [done|]. split; [done|]. split; [|done].
  unfold LmdbRefines.contents in Hc. injection Hc as Hc. split; cbn; [done|].
  by rewrite (lmdb_queue_keeps_meta _ _ _ _ _ _ _ _ Hrun).
Qed.

Lemma lmdb_txn_error c q d q' d' e : ds_txn c q d = Ret (q', d', Some e) -> is_commit c = false -> q_err q' = Some e.
Proof.
  intros Hr Hc. cbn [ds_txn lmdb_store] in Hr. apply bind_Ret_inv in Hr as ([[q1 db1] e1] & Hr & Heq). injection Heq as -> _ ->.
  assert (forall ops fuel, KVLmdbQueue.enqueue fuel (lw_answers d 0%nat) ops q (lw_db d) = Ret (q', db1, Some e) -> q_err q' = Some e) as HE.
  { intros ops fuel. unfold KVLmdbQueue.enqueue, KVLmdbQueue.flush_if_full. destruct (q_err q) eqn:E; [intros [= <- _ <-]; done|].
    destruct (_ <=? _); [|cbn; by rewrite E]. intros Hr'. apply bind_Ret_inv in Hr' as ([[q2 d2] e2] & _ & Heq). by injection Heq as <- _ ->. }
  destruct c; cbn [lmdb_queue_call] in Hr; try done; try (by eapply HE).
  - unfold KVLmdbQueue.SetLobChunks in Hr. destruct (q_err q) eqn:E; [injection Hr as <- _ <-; done|].
    apply bind_Ret_inv in Hr as ([[q2 d2] e2] & _ & Heq). by injection Heq as <- _ ->.
  - unfold KVLmdbQueue.BatchSetCells in Hr. destruct (q_err q) eqn:E; [injection Hr as <- _ <-; done|].
    destruct (negb _); [by injection Hr as <- _ <-|by eapply HE].
  - unfold KVLmdbQueue.BatchDeleteCells in Hr. destruct (q_err q) eqn:E; [injection Hr as <- _ <-; done|].
    destruct (negb _); [by injection Hr as <- _ <-|by eapply HE].
Qed.

Lemma lmdb_txn_sticky d m md c q e : lmdb_repr d m md -> q_err q = Some e ->
  exists d', ds_txn c q d = Ret (q, d', Some e) /\ lmdb_repr d' m md.
Proof.
  intros Hr He. cbn [ds_txn lmdb_store]. eexists (lmdb_later d (lw_db d)). split; [|exact Hr].
  destruct c; cbn [lmdb_queue_call]; unfold KVLmdbQueue.BatchPutKV, KVLmdbQueue.BatchDeleteKV, KVLmdbQueue.SetLobChunks,
    KVLmdbQueue.BatchDeleteLobChunks, KVLmdbQueue.BatchSetCells, KVLmdbQueue.BatchDeleteCells, KVLmdbQueue.BatchDeleteRows,
    KVLmdbQueue.Commit, KVLmdbQueue.enqueue; by rewrite He.
Qed.

Lemma lmdb_GetKV_law d m md k : lmdb_repr d m md -> reads (ds_GetKV d k) (or_missing (m !! KeyKV k)).
Proof.
  intros [<- _]. cbn. unfold KVLmdb.GetKV, KVLmdb.View. destruct (tx_begin _); [right; by eexists|].
  rewrite LmdbRefines.l_Get_cases. left. by destruct (l_map _ !! KeyKV k).
Qed.

Lemma lmdb_GetLOBChunks_law d m md key chunks sum : lmdb_repr d m md -> blob_key key -> blen chunks < 2 ^ 32 ->
  (forall k v, eff (QSetLobChunks key chunks sum) k = Some v -> m !! k = v) -> reads (ds_GetLOBChunks d key) (Ok chunks).
Proof.
  intros [<- _] Hk Hn Hm. destruct (stored_lob key chunks sum _ Hk Hn Hm) as [Hmeta Hch].
  cbn. unfold KVLmdb.GetLOBChunks, KVLmdb.View. destruct (tx_begin _); [right; by eexists|]. left.
  rewrite LmdbRefines.l_Get_cases, Hmeta. cbn [or_key_not_found]. rewrite blen_metadata.
  cbn [Z.ltb Z.compare Pos.compare Pos.compare_cont]. rewrite meta_count_get by (by rewrite blen_metadata). cbn [mbind outcome_bind].
  pose proof (blen_nonneg chunks). rewrite meta_count_metadata by lia. by apply lmdb_read_chunks.
Qed.

Lemma lmdb_GetLOBChunks_missing d m md key : lmdb_repr d m md -> blob_key key -> m !! key = None ->
  reads (ds_GetLOBChunks d key) (Err ErrKeyNotFound).
Proof.
  intros [<- _] Hk Hm. cbn. unfold KVLmdb.GetLOBChunks, KVLmdb.View. destruct (tx_begin _); [right; by eexists|].
  left. by rewrite LmdbRefines.l_Get_cases, blob_key_meta, Hm.
Qed.

Lemma lmdb_ScanRowCells_law d m md row flt : lmdb_repr d m md ->
  exists V, row_cells true flt row m V /\ reads (ds_ScanRowCells d row flt) (scan_answer V).
Proof.
  intros [<- _]. cbn [ds_ScanRowCells lmdb_store]. unfold lmdb_size.
  assert (exists V, row_cells true flt row (l_map (ld_data (lw_db d))) V) as [V0 HV0].
  { set (t := ld_data (lw_db d)). set (p := RowKey row).
    destruct (walk_prefix (l_map t) p (fun k => first_of (bytes_lt k) (l_map t)) ltac:(intros; apply first_of_spec) _ (first_of_spec (bytes_le p) (l_map t)))
      as (L & _ & _ & Hnd & HL). eexists. by apply scan_result. }
  destruct (tx_begin (lw_answers d 0%nat)) as [e|] eqn:E.
  { exists V0. split; [done|]. right. exists e. unfold KVLmdb.ScanRowCells, KVLmdb.View. by rewrite E. }
  destruct (l_OpenCursor (ld_data (lw_db d))) as [e|] eqn:Ec.
  { exists V0. split; [done|]. right. unfold KVLmdb.ScanRowCells, KVLmdb.View. rewrite E. unfold KVLmdb.getColumns. rewrite Ec.
    destruct (from_lib e) as [x ->]. by exists x. }
  destruct (lmdb_scan (2 + size (l_map (ld_data (lw_db d)))) _ (lw_db d) row (Some flt) E Ec ltac:(lia)) as (V & Hrun & HV).
  exists V. split; [done|]. by left.
Qed.

Lemma lmdb_StoreMetadata_law d m md k v : lmdb_repr d m md ->
  exists d' e, ds_StoreMetadata d k v = Ret (d', e) /\
    match e with None => lmdb_repr d' m (<[k := v]> md) | Some e => from_library e /\ lmdb_repr d' m md end.
Proof.
  intros [<- <-]. cbn [ds_StoreMetadata lmdb_store]. unfold KVLmdb.StoreMetadata. destruct (tx_begin _); cbn [mbind outcome_bind].
  { eexists _, _. split; [done|]. split; [by eexists|done]. }
  pose proof (lmdb_Put_lib k v (ld_meta (lw_db d))) as Hlib.
  destruct (LmdbRefines.lmdb_Put_does k v (ld_meta (lw_db d))) as (s' & e & Hrun & Hm). rewrite Hrun in Hlib |- *.
  cbn [mbind outcome_bind]. destruct e as [e|]; cbn [mbind outcome_bind].
  { eexists _, _. split; [done|]. split; [exact Hlib|done]. }
  destruct (tx_commit _); cbn [mbind outcome_bind]; eexists _, _; (split; [done|]).
  { split; [by eexists|done]. }
  split; cbn; [done|]. by apply Hm.
Qed.

Lemma lmdb_RetrieveMetadata_law d m md k : lmdb_repr d m md -> reads (ds_RetrieveMetadata d k) (or_missing (md !! k)).
Proof.
  intros [_ <-]. cbn. unfold KVLmdb.RetrieveMetadata. destruct (tx_begin _); [right; by eexists|].
  rewrite LmdbRefines.l_Get_cases. left. by destruct (l_map _ !! k).
Qed.

Program Definition lmdb_store_laws : BTreeLaws (LmdbWorld T) :=
  {| ds_repr := lmdb_repr; ds_op_ok := LmdbRefines.op_ok; ds_bare := true |}.
Next Obligation. exact lmdb_call_law. Qed.
Next Obligation. exact lmdb_GetKV_law. Qed.
Next Obligation. exact lmdb_GetLOBChunks_law. Qed.
Next Obligation. exact lmdb_GetLOBChunks_missing. Qed.
Next Obligation. exact lmdb_ScanRowCells_law. Qed.
Next Obligation. exact lmdb_StoreMetadata_law. Qed.
Next Obligation. exact lmdb_RetrieveMetadata_law. Qed.
Next Obligation. done. Qed.
Next Obligation. exact lmdb_txn_law. Qed.
Next Obligation. exact lmdb_txn_error. Qed.
Next Obligation. exact lmdb_txn_sticky. Qed.
End lmdb.
