(* ===== verification/MemTable.v ===== *)
(** The memory table: dbkernel/internal/memtable/{memtable,utils}.go and
    dbkernel/internal/utils.go.

    The skip list and the key format come from badger and the Bloom filter from
    a library: they are the classes [SkipList] and [BloomFilter].  A version
    of a key is the pair of the user key and its timestamp; the list is ordered
    by key, newest version first. *)

From stdpp Require Import prelude list numbers gmap sorting.
From Stdlib Require Import ZArith Lia.
From S2P Require Import Prelude Bytes Segment LogCodec WalIO KVStore KVSpec KVQueue BTree.

(** ** Values *)

Record ValueStruct := mkValue { Meta : Z; UserMeta : Z; Value : bytes }.
Definition zero_value : ValueStruct := mkValue 0 0 [].

Definition LogOperationDelete : Z := LogOperationTypeDelete.
Definition LogOperationInsert : Z := LogOperationTypeInsert.
Definition LogOperationDeleteRowByKey : Z := LogOperationTypeDeleteRowByKey.
Definition EntryTypeRow : Z := LogEntryTypeRow.
Definition EntryTypeKV : Z := LogEntryTypeKV.
Definition EntryTypeChunked : Z := LogEntryTypeChunked.

(** dbkernel/utils.go *)
Definition getValueStruct (ops entryType : Z) (value : bytes) : ValueStruct := mkValue ops entryType value.

(** ** Skip list and Bloom filter *)

(** An iterator is the list of entries it still has in front of it. *)
Class SkipList (L : Type) := {
  KeyWithTs : bytes -> Z -> bytes;
  ParseKey : bytes -> bytes;
  EncodedSize : ValueStruct -> Z;
  skl_New : Z -> L;
  skl_Empty : L -> bool;
  skl_MemSize : L -> Z;
  skl_Put : L -> bytes -> ValueStruct -> outcome L;
  skl_Get : L -> bytes -> ValueStruct;
  skl_SeekToFirst : L -> list (bytes * ValueStruct);
  skl_Seek : L -> bytes -> list (bytes * ValueStruct)
}.

Class BloomFilter (F : Type) := {
  bloom_New : Z -> F;
  bloom_Add : F -> bytes -> F;
  bloom_Test : F -> bytes -> bool
}.

Notation version := (bytes * Z)%type.
Definition version_lt (a b : version) : Prop := bytes_lt a.1 b.1 \/ a.1 = b.1 /\ b.2 < a.2.

#[global] Instance version_lt_dec a b : Decision (version_lt a b).
Proof. unfold version_lt. apply _. Defined.

Definition timestamp (ts : Z) : Prop := 0 <= ts < 2 ^ 64.
Definition arenaSafetyMargin : Z := 1024.

(** The entries in iteration order, a Put that replaces or inserts one version
    as long as the arena has room for it and a kilobyte more, and a Get at
    version zero that finds exactly that version. *)
Class SkipListLaws (L : Type) `{SkipList L} := {
  skl_entries : L -> list (version * ValueStruct);
  skl_cap : L -> Z;
  ParseKey_law k ts : timestamp ts -> ParseKey (KeyWithTs k ts) = k;
  KeyWithTs_len k ts : blen (KeyWithTs k ts) = blen k + 8;
  skl_sorted l : StronglySorted version_lt (skl_entries l).*1;
  skl_stamped l : Forall (fun e => timestamp e.1.2) (skl_entries l);
  skl_New_law c : skl_entries (skl_New c) = [] /\ skl_cap (skl_New c) = c;
  skl_Empty_law l : skl_Empty l = match skl_entries l with [] => true | _ => false end;
  skl_Put_law l k ts v : timestamp ts ->
    skl_MemSize l + blen (KeyWithTs k ts) + EncodedSize v + arenaSafetyMargin <= skl_cap l ->
    exists l', skl_Put l (KeyWithTs k ts) v = Ret l' /\ skl_cap l' = skl_cap l /\
      forall e, e ∈ skl_entries l' <-> e = ((k, ts), v) \/ (e ∈ skl_entries l /\ e.1 <> (k, ts));
  skl_Get_law l k v : ((k, 0), v) ∈ skl_entries l -> skl_Get l (KeyWithTs k 0) = v;
  skl_Get_absent l k : (k, 0) ∉ (skl_entries l).*1 -> skl_Get l (KeyWithTs k 0) = zero_value;
  skl_SeekToFirst_law l : skl_SeekToFirst l = (fun e => (KeyWithTs e.1.1 e.1.2, e.2)) <$> skl_entries l;
  skl_Seek_law l k ts : timestamp ts ->
    skl_Seek l (KeyWithTs k ts) =
    (fun e => (KeyWithTs e.1.1 e.1.2, e.2)) <$> filter (fun e => ~ version_lt e.1 (k, ts)) (skl_entries l)
}.

(** No false negatives. *)
Class BloomLaws (F : Type) `{BloomFilter F} := {
  bloom_Add_law f k : bloom_Test (bloom_Add f k) k = true;
  bloom_keep_law f k k' : bloom_Test f k = true -> bloom_Test (bloom_Add f k') k = true
}.

(** ** Timestamps *)

(** [now] is the wall clock in nanoseconds. *)
Definition tsGenerator_Next (now lastTS : Z) : Z := if u64 now <=? lastTS then u64 (lastTS + 1) else u64 now.

(** ** The table *)

Inductive mt_error := ErrArenaSizeWillExceed.

Inductive flush_error :=
| FlushCtx
| FlushKV (e : kv_error)
| FlushRead (e : error)
| FlushTxn (e : txn_error).

Section memtable.
Context {L F W R D : Type} `{SkipList L} `{BloomFilter F} `{WalLog W R} `{BTreeStore D} `{FlatBuffers}.

Record MemTable := mkMemTable {
  skipList : L;
  lastOffset : option RecordPosition;
  firstOffset : option RecordPosition;
  capacity : Z;
  opCount : Z;
  offsetCount : Z;
  bytesStored : Z;
  chunkedFlushed : Z;
  lastTS : Z;
  bloomFilter : F
}.

Definition NewMemTable (capacity : Z) : MemTable :=
  let estimatedKeys := u64 (Z.quot capacity 100) in
  let estimatedKeys := if estimatedKeys <? 1000 then 1000 else estimatedKeys in
  mkMemTable (skl_New capacity) None None capacity 0 0 0 0 0 (bloom_New estimatedKeys).

Definition IsEmpty (table : MemTable) : bool := skl_Empty (skipList table).

Definition canPut (table : MemTable) (key : bytes) (val : ValueStruct) : bool :=
  skl_MemSize (skipList table) + blen (KeyWithTs key 0) + EncodedSize val + arenaSafetyMargin <=? capacity table.

Definition Put (now : Z) (table : MemTable) (key : bytes) (val : ValueStruct) : outcome (MemTable * option mt_error) :=
  if negb (canPut table key val) then Ret (table, Some ErrArenaSizeWillExceed) else
  let '(putKey, ts) :=
    if UserMeta val =? EntryTypeRow
    then let ts := tsGenerator_Next now (lastTS table) in (KeyWithTs key ts, ts)
    else (KeyWithTs key 0, lastTS table) in
  sl ← skl_Put (skipList table) putKey val;
  Ret (mkMemTable sl (lastOffset table) (firstOffset table) (capacity table) (opCount table + 1) (offsetCount table)
         (bytesStored table + blen key + blen (Value val)) (chunkedFlushed table) ts (bloom_Add (bloomFilter table) key),
       None).

Definition SetOffset (offset : RecordPosition) (table : MemTable) : MemTable :=
  mkMemTable (skipList table) (Some offset) (match firstOffset table with None => Some offset | f => f end)
    (capacity table) (opCount table) (offsetCount table + 1) (bytesStored table) (chunkedFlushed table)
    (lastTS table) (bloomFilter table).

Definition IncrOffset (table : MemTable) : MemTable :=
  mkMemTable (skipList table) (lastOffset table) (firstOffset table) (capacity table) (opCount table)
    (offsetCount table + 1) (bytesStored table) (chunkedFlushed table) (lastTS table) (bloomFilter table).

Definition GetBytesStored (table : MemTable) : Z := bytesStored table.
Definition GetLastOffset (table : MemTable) : option RecordPosition := lastOffset table.
Definition GetFirstOffset (table : MemTable) : option RecordPosition := firstOffset table.

Definition Get (table : MemTable) (key : bytes) : ValueStruct :=
  if negb (bloom_Test (bloomFilter table) key) then zero_value
  else skl_Get (skipList table) (KeyWithTs key 0).

(** The loop of [GetRowYValue]: as long as the entries belong to the row. *)
Fixpoint take_row (rowKey : bytes) (it : list (bytes * ValueStruct)) : list ValueStruct :=
  match it with
  | [] => []
  | (key, value) :: rest =>
      if negb (bool_decide (ParseKey key = rowKey)) then [] else value :: take_row rowKey rest
  end.

Definition GetRowYValue (table : MemTable) (rowKey : bytes) : list ValueStruct :=
  if negb (bloom_Test (bloomFilter table) rowKey) then [] else
  reverse (take_row rowKey (skl_Seek (skipList table) (KeyWithTs rowKey (2 ^ 64 - 1)))).

(** ** Flushing *)

Definition GetWalRecord (entry : ValueStruct) (w : W) : outcome (result error fb_log) :=
  chunkPos ← DecodeOffset (Value entry);
  match chunkPos with
  | None => Panic
  | Some pos =>
      r ← wl_Read w pos;
      match r with
      | Err e => Ret (Err e)
      | Ok walValue => record ← GetRootAsLogRecord walValue; Ret (Ok record)
      end
  end.

(** [Entries[0]] of a deserialized record, as a key-value entry. *)
Definition first_entry (record : fb_log) : outcome KeyValueEntry :=
  match Entries (DeserializeFBRootLogRecord record) with
  | [] => Panic
  | e :: _ => DeserializeKVEntry e
  end.

Fixpoint chunk_values (records : list fb_log) : outcome (list bytes) :=
  match records with
  | [] => Ret []
  | r :: rest => kv ← first_entry r; vs ← chunk_values rest; Ret (kv_Value kv :: vs)
  end.

(** [records[1:]] *)
Definition drop_begin (records : list fb_log) : outcome (list fb_log) :=
  match records with [] => Panic | _ :: rest => Ret rest end.

Definition HandleChunkedValuesTxn (fuel : nat) (record : fb_log) (w : W) (q : TxnQueue) (d : D)
  : outcome (TxnQueue * D * result flush_error Z) :=
  let checksum := fb_crc32_checksum record in
  kv ← first_entry record;
  prev ← DecodeOffset (PrevTxnWalIndexBytes record);
  r ← GetTransactionRecords fuel w prev;
  match r with
  | Err e => Ret (q, d, Err (FlushTxn e))
  | Ok records =>
      preparedRecords ← drop_begin records;
      values ← chunk_values preparedRecords;
      '(q, d, e) ← ds_txn (CSetLobChunks (kv_Key kv) values checksum) q d;
      Ret (q, d, match e with Some e => Err (FlushKV e) | None => Ok (blen records) end)
  end.

(** A call of the transaction queue, with its error. *)
Definition txn_call (c : queue_call) (q : TxnQueue) (d : D) (n : Z) : outcome (TxnQueue * D * Z * option flush_error) :=
  '(q, d, e) ← ds_txn c q d;
  Ret (q, d, n, match e with Some e => Some (FlushKV e) | None => None end).

(** [n] is [table.chunkedFlushed]. *)
Definition processEntry (fuel : nat) (w : W) (key : bytes) (entry : ValueStruct) (q : TxnQueue) (d : D) (n : Z)
  : outcome (TxnQueue * D * Z * option flush_error) :=
  if (Meta entry =? LogOperationDelete) && negb (UserMeta entry =? EntryTypeRow)
  then txn_call (CBatchDeleteKV [key]) q d n else
  if Meta entry =? LogOperationTypeDeleteRowByKey
  then txn_call (CBatchDeleteRows [key]) q d n else
  let row_or_value :=
    if UserMeta entry =? EntryTypeRow then
      re ← DeserializeRowUpdateEntry (Value entry);
      if Meta entry =? LogOperationDelete then txn_call (CBatchDeleteCells [key] [row_Columns re]) q d n else
      if Meta entry =? LogOperationInsert then txn_call (CBatchSetCells [key] [row_Columns re]) q d n else
      txn_call (CBatchPutKV [key] [Value entry]) q d n
    else txn_call (CBatchPutKV [key] [Value entry]) q d n in
  if UserMeta entry =? EntryTypeChunked then
    r ← GetWalRecord entry w;
    match r with
    | Err e => Ret (q, d, n, Some (FlushRead e))
    | Ok record =>
        if (fb_txn_state record =? TransactionStateCommit) && (fb_entry_type record =? LogEntryTypeChunked) then
          '(q, d, r) ← HandleChunkedValuesTxn fuel record w q d;
          match r with
          | Err e => Ret (q, d, n, Some e)
          | Ok k => Ret (q, d, n + k + 1, None)
          end
        else row_or_value
    end
  else row_or_value.

(** [mvccRows[string(parsedKey)] = struct{}{}] *)
Definition add_row (row : bytes) (rows : list bytes) : list bytes :=
  if bool_decide (row ∈ rows) then rows else rows ++ [row].

(** The first loop of [Flush]; [ctx i] tells whether the context is cancelled
    when entry [i] is reached.  The result carries [err]. *)
Fixpoint flush_values (fuel : nat) (w : W) (ctx : nat -> bool) (it : list (bytes * ValueStruct)) (rows : list bytes)
    (q : TxnQueue) (d : D) (n : Z) (err : option flush_error)
  : outcome (list bytes * TxnQueue * D * Z * option flush_error) :=
  match it with
  | [] => Ret (rows, q, d, n, err)
  | (key, value) :: rest =>
      if ctx 0%nat then Ret (rows, q, d, n, Some FlushCtx) else
      let parsedKey := ParseKey key in
      if UserMeta value =? EntryTypeRow
      then flush_values fuel w (fun i => ctx (S i)) rest (add_row parsedKey rows) q d n err
      else
        '(q, d, n, err) ← processEntry fuel w parsedKey value q d n;
        match err with
        | Some _ => Ret (rows, q, d, n, err)
        | None => flush_values fuel w (fun i => ctx (S i)) rest rows q d n err
        end
  end.

(** The entries of one row, oldest first; an error leaves this loop only. *)
Fixpoint flush_row (fuel : nat) (w : W) (row : bytes) (entries : list ValueStruct) (q : TxnQueue) (d : D) (n : Z)
    (err : option flush_error) : outcome (TxnQueue * D * Z * option flush_error) :=
  match entries with
  | [] => Ret (q, d, n, err)
  | entry :: rest =>
      '(q, d, n, err) ← processEntry fuel w row entry q d n;
      match err with
      | Some _ => Ret (q, d, n, err)
      | None => flush_row fuel w row rest q d n err
      end
  end.

Fixpoint flush_rows (fuel : nat) (w : W) (table : MemTable) (rows : list bytes) (q : TxnQueue) (d : D) (n : Z)
    (err : option flush_error) : outcome (TxnQueue * D * Z * option flush_error) :=
  match rows with
  | [] => Ret (q, d, n, err)
  | row :: rest =>
      '(q, d, n, err) ← flush_row fuel w row (GetRowYValue table row) q d n err;
      flush_rows fuel w table rest q d n err
  end.

Definition dbBatchSize : Z := 16.

Definition with_chunkedFlushed (n : Z) (table : MemTable) : MemTable :=
  mkMemTable (skipList table) (lastOffset table) (firstOffset table) (capacity table) (opCount table)
    (offsetCount table) (bytesStored table) n (lastTS table) (bloomFilter table).

(** [order] is the order in which the map of rows is ranged over. *)
Definition Flush (fuel : nat) (w : W) (ctx : nat -> bool) (order : list bytes -> list bytes) (table : MemTable) (d : D)
  : outcome (MemTable * D * result flush_error Z) :=
  let q := ds_NewTxnQueue dbBatchSize in
  '(rows, q, d, n, err) ← flush_values fuel w ctx (skl_SeekToFirst (skipList table)) [] q d (chunkedFlushed table) None;
  '(q, d, n, err) ← flush_rows fuel w table (order rows) q d n err;
  let table := with_chunkedFlushed n table in
  match err with
  | Some e => Ret (table, d, Err e)
  | None =>
      '(q, d, e) ← ds_txn CCommit q d;
      match e with
      | Some e => Ret (table, d, Err (FlushKV e))
      | None => Ret (table, d, Ok (offsetCount table + chunkedFlushed table))
      end
  end.

(** ** Columns of a row *)

Definition extractColumns (data : bytes) : outcome RowEntry := DeserializeRowUpdateEntry data.

Fixpoint BuildColumnMap (columnEntries : kvmap) (vs : list ValueStruct) : outcome kvmap :=
  match vs with
  | [] => Ret columnEntries
  | v :: rest =>
      if Meta v =? LogOperationDeleteRowByKey then BuildColumnMap ∅ rest else
      re ← extractColumns (Value v);
      BuildColumnMap
        (if Meta v =? LogOperationInsert then foldl (fun m '(cn, cv) => <[cn := cv]> m) columnEntries (row_Columns re)
         else if Meta v =? LogOperationDelete then foldl (fun m '(cn, _) => delete cn m) columnEntries (row_Columns re)
         else columnEntries) rest
  end.
End memtable.
Arguments MemTable L F : clear implicits.
