(* ===== verification/Samples.v ===== *)
(** Concrete libraries for the examples of the engine: a skip list on a finite
    map, a filter that keeps every key, a fresh log and an empty store.  They
    show that what the engine's theorems ask of the libraries can be had. *)

From stdpp Require Import prelude list numbers gmap sorting.
From Stdlib Require Import ZArith Lia.
From S2P Require Import Prelude Bytes Segment WALog WALogFacts WALogRecovery KVKeys KVStore KVBolt KVSpec BTree LogCodec WalIO WalIOFacts MemTable.

(** ** Skip list *)

Record map_list := mkMapList { ml_cap : Z; ml_map : gmap version ValueStruct }.

Definition stamp (k : bytes) (ts : Z) : bytes := k ++ be_bytes 8 (2 ^ 64 - 1 - ts).
Definition unstamp (k : bytes) : bytes := take (length k - 8) k.
Definition stamp_of (k : bytes) : Z := 2 ^ 64 - 1 - be_val (drop (length k - 8) k).

Definition entry_le (a b : version * ValueStruct) : Prop := version_lt a.1 b.1 \/ a.1 = b.1.
#[global] Instance entry_le_dec a b : Decision (entry_le a b).
Proof. unfold entry_le. apply _. Defined.

#[global] Instance timestamp_dec ts : Decision (timestamp ts).
Proof. unfold timestamp. apply _. Defined.

Definition ml_entries (l : map_list) : list (version * ValueStruct) :=
  filter (fun e => timestamp e.1.2) (merge_sort entry_le (map_to_list (ml_map l))).

Definition items (es : list (version * ValueStruct)) : list (bytes * ValueStruct) := (fun e => (stamp e.1.1 e.1.2, e.2)) <$> es.

Definition ml_size (l : map_list) : Z := foldr (fun e n => blen e.1.1 + 8 + blen (Value e.2) + 2 + n) 0 (ml_entries l).

#[global] Instance map_skip_list : SkipList map_list := {
  KeyWithTs := stamp;
  ParseKey := unstamp;
  EncodedSize v := blen (Value v) + 2;
  skl_New c := mkMapList c ∅;
  skl_Empty l := match ml_entries l with [] => true | _ => false end;
  skl_MemSize := ml_size;
  skl_Put l k v := Ret (mkMapList (ml_cap l) (<[(unstamp k, stamp_of k) := v]> (ml_map l)));
  skl_Get l k := default zero_value (ml_map l !! (unstamp k, stamp_of k));
  skl_SeekToFirst l := items (ml_entries l);
  skl_Seek l k := items (filter (fun e => ~ version_lt e.1 (unstamp k, stamp_of k)) (ml_entries l))
}.

Lemma unstamp_stamp k ts : unstamp (stamp k ts) = k.
Proof. unfold unstamp, stamp. rewrite length_app, length_be_bytes. by rewrite take_app_length' by lia. Qed.

Lemma stamp_of_stamp k ts : timestamp ts -> stamp_of (stamp k ts) = ts.
Proof.
  intros Ht. unfold stamp_of, stamp, timestamp in *. rewrite length_app, length_be_bytes, drop_app_length' by lia.
  rewrite be_val_be_bytes. change (256 ^ Z.of_nat 8) with (2 ^ 64). rewrite Z.mod_small; lia.
Qed.

Lemma entry_le_trans : Transitive entry_le.
Proof.
  intros [[k1 t1] ?] [[k2 t2] ?] [[k3 t3] ?]. unfold entry_le, version_lt. cbn [fst snd].
  intros [[H1|[-> H1]]|[= -> ->]] [[H2|[-> H2]]|[= -> ->]]; auto; left; [left|right; split; [done|lia]].
  by eapply bytes_lt_le_trans, bytes_lt_le.
Qed.

Lemma entry_le_total : Total entry_le.
Proof.
  intros [[k1 t1] ?] [[k2 t2] ?]. unfold entry_le, version_lt. cbn [fst snd].
  destruct (decide (k1 = k2)) as [->|Hne].
  - destruct (Z.lt_trichotomy t1 t2) as [|[->|]]; auto.
  - destruct (bytes_le_total k1 k2) as [H|H]; apply bytes_le_lt_or_eq in H as [H|H]; auto; by subst.
Qed.

Lemma sorted_versions (es : list (version * ValueStruct)) : StronglySorted entry_le es -> NoDup es.*1 -> StronglySorted version_lt es.*1.
Proof.
  induction 1 as [|e es Hs IH Hf]; intros Hnd; [constructor|]. apply NoDup_cons in Hnd as [Hni Hnd]. constructor; [by apply IH|].
  apply Forall_fmap. rewrite Forall_forall in Hf |- *. intros e' He'. cbn. destruct (Hf e' He') as [|Heq]; [done|]. destruct Hni. rewrite Heq. by apply list_elem_of_fmap_2.
Qed.

Lemma ml_elem l e : e ∈ ml_entries l <-> timestamp e.1.2 /\ ml_map l !! e.1 = Some e.2.
Proof. unfold ml_entries. rewrite list_elem_of_filter, merge_sort_Permutation. destruct e as [k v]. by rewrite elem_of_map_to_list. Qed.

Lemma filter_sorted {A} (R : relation A) (P : A -> Prop) `{forall x, Decision (P x)} (l : list A) : StronglySorted R l -> StronglySorted R (filter P l).
Proof.
  induction 1 as [|x l Hs IH Hf]; [constructor|]. rewrite filter_cons. case_decide; [|done]. constructor; [done|].
  rewrite Forall_forall in Hf |- *. intros y [_ Hy]%list_elem_of_filter. by apply Hf.
Qed.

#[global] Program Instance map_skip_list_laws : SkipListLaws map_list := { skl_entries := ml_entries; skl_cap := ml_cap }.
Next Obligation. intros k ts _. apply unstamp_stamp. Qed.
Next Obligation. intros k ts. cbn. unfold stamp, blen. rewrite length_app, length_be_bytes. lia. Qed.
Next Obligation.
  intros l. pose proof entry_le_trans. pose proof entry_le_total. apply sorted_versions.
  - apply filter_sorted. by apply StronglySorted_merge_sort.
  - unfold ml_entries. eapply sublist_NoDup; [|apply fmap_sublist, sublist_filter]. rewrite merge_sort_Permutation. apply NoDup_fst_map_to_list.
Qed.
Next Obligation. intros l. apply Forall_forall. intros e He. by apply ml_elem in He as [? _]. Qed.
Next Obligation. intros c. split; [|done]. unfold ml_entries. cbn. by rewrite map_to_list_empty. Qed.
Next Obligation. done. Qed.
Next Obligation.
  intros l k ts v Hts _. eexists. split; [done|]. split; [done|]. intros e. rewrite !ml_elem. cbn [ml_map KeyWithTs map_skip_list].
  rewrite unstamp_stamp, stamp_of_stamp by done. destruct e as [k' v']. cbn [fst snd]. rewrite lookup_insert_Some.
  split; [intros [? [[<- <-]|[? ?]]]|intros [[= -> ->]|[[? ?] ?]]]; naive_solver.
Qed.
Next Obligation.
  intros l k v [_ Hv]%ml_elem. change (skl_Get l (KeyWithTs k 0)) with (default zero_value (ml_map l !! (unstamp (stamp k 0), stamp_of (stamp k 0)))).
  rewrite unstamp_stamp, stamp_of_stamp by (unfold timestamp; lia). cbn in Hv. by rewrite Hv.
Qed.
Next Obligation.
  intros l k Hni. change (skl_Get l (KeyWithTs k 0)) with (default zero_value (ml_map l !! (unstamp (stamp k 0), stamp_of (stamp k 0)))).
  rewrite unstamp_stamp, stamp_of_stamp by (unfold timestamp; lia). destruct (ml_map l !! (k, 0)) as [v|] eqn:E; [|done].
  destruct Hni. apply (list_elem_of_fmap_2' fst _ ((k, 0), v)); [|done]. apply ml_elem. split; [|done]. unfold timestamp. cbn. lia.
Qed.
Next Obligation. done. Qed.
Next Obligation. intros l k ts Hts. cbn [skl_Seek map_skip_list KeyWithTs]. by rewrite unstamp_stamp, stamp_of_stamp. Qed.

(** ** Filter *)

#[global] Instance list_filter : BloomFilter (list bytes) := {
  bloom_New _ := [];
  bloom_Add f k := k :: f;
  bloom_Test f k := bool_decide (k ∈ f)
}.

#[global] Program Instance list_filter_laws : BloomLaws (list bytes).
Next Obligation. intros f k. apply bool_decide_eq_true. by left. Qed.
Next Obligation. intros f k k' Hk. apply bool_decide_eq_true in Hk. apply bool_decide_eq_true. by right. Qed.

(** ** Log and store *)

Lemma sample_log : exists w : WalWorld, wl_repr 1000 w [].
Proof.
  destruct (NewWALog_empty good_ios [] [] 4096 64 true 0 0 0 false good_ios_good eq_refl ltac:(by vm_compute)) as (w & _ & Hw & _).
  exists (mkWW (mkWalIO w 0) (fun _ => good_ios)). exists (mkLog [] (1, [])). split; [done|]. split; [intros k; exact good_ios_good|].
  split; [by vm_compute|done].
Qed.

Definition sample_store (m : kvmap) : BoltWorld kvmap := mkBoltWorld (mkBoltDB (Some m) (Some ∅)) (fun _ => okTx) None.

Lemma sample_store_repr m : ds_repr (sample_store m) m ∅.
Proof. done. Qed.
