(* ===== verification/MemTableFacts.v ===== *)
(** The memory table is the sequence of its puts: a read of a value sees the
    last put of the key, a read of a row sees all its puts, oldest first. *)

From stdpp Require Import prelude list numbers gmap sorting.
From Stdlib Require Import ZArith Lia.
From S2P Require Import Prelude Bytes Segment LogCodec WalIO KVStore KVSpec KVQueue BTree MemTable Samples.

(** ** Sorted lists *)

Lemma sorted_eq {A} (l1 l2 : list (Z * A)) : StronglySorted Z.lt l1.*1 -> StronglySorted Z.lt l2.*1 ->
  (forall x, x ∈ l1 <-> x ∈ l2) -> l1 = l2.
Proof.
  revert l2. induction l1 as [|[t a] l1 IH]; intros l2 H1 H2 Hin.
  - destruct l2 as [|x l2]; [done|]. assert (x ∈ @nil (Z * A)) as Hx by (apply Hin; by left). by apply not_elem_of_nil in Hx.
  - destruct l2 as [|[t2 a2] l2].
    { assert ((t, a) ∈ @nil (Z * A)) as Hx by (apply Hin; by left). by apply not_elem_of_nil in Hx. }
    cbn in H1, H2. apply StronglySorted_inv in H1 as [Hs1 Hf1], H2 as [Hs2 Hf2]. rewrite Forall_forall in Hf1, Hf2.
    assert (forall x, x ∈ l1 -> t < x.1) as Hl1 by (intros x Hx; apply Hf1, list_elem_of_fmap; by exists x).
    assert (forall x, x ∈ l2 -> t2 < x.1) as Hl2 by (intros x Hx; apply Hf2, list_elem_of_fmap; by exists x).
    assert ((t, a) = (t2, a2)) as [= -> ->].
    { assert ((t, a) ∈ (t2, a2) :: l2) as Ha by (apply Hin; by left).
      assert ((t2, a2) ∈ (t, a) :: l1) as Hb by (apply Hin; by left).
      apply elem_of_cons in Ha as [Ha|Ha]; [done|]. apply elem_of_cons in Hb as [Hb|Hb]; [done|].
      apply Hl2 in Ha. apply Hl1 in Hb. cbn in *. lia. }
    f_equal. apply IH; [done..|]. intros x. specialize (Hin x). rewrite !elem_of_cons in Hin. split; intros Hx.
    + destruct (proj1 Hin (or_intror Hx)) as [->|]; [|done]. apply Hl1 in Hx. cbn in Hx. lia.
    + destruct (proj2 Hin (or_intror Hx)) as [->|]; [|done]. apply Hl2 in Hx. cbn in Hx. lia.
Qed.

Lemma sorted_filter {A} (R : A -> A -> Prop) {B} (f : B -> A) (P : B -> Prop) `{forall x, Decision (P x)} (l : list B) :
  StronglySorted R (f <$> l) -> StronglySorted R (f <$> filter P l).
Proof.
  induction l as [|x l IH]; intros Hs; [done|]. rewrite fmap_cons in Hs. apply StronglySorted_inv in Hs as [Hs Hf].
  rewrite filter_cons. case_decide; [|by apply IH]. rewrite fmap_cons. constructor; [by apply IH|].
  rewrite Forall_forall in *. intros y Hy. apply Hf. apply list_elem_of_fmap in Hy as (z & -> & Hz).
  apply list_elem_of_filter in Hz as [_ Hz]. apply list_elem_of_fmap. by exists z.
Qed.

Lemma sorted_reverse (l : list Z) : StronglySorted (fun a b => b < a) l -> StronglySorted Z.lt (reverse l).
Proof.
  induction 1 as [|x l Hs IH Hf]; [constructor|]. rewrite reverse_cons. apply StronglySorted_app. split; [|split].
  - intros a b Ha Hb. rewrite elem_of_reverse in Ha. apply list_elem_of_singleton in Hb as ->.
    rewrite Forall_forall in Hf. exact (Hf a Ha).
  - done.
  - repeat constructor.
Qed.

(** ** What a sequence of puts amounts to *)

Notation put := (bytes * ValueStruct)%type.

Definition row_put (p : put) : Prop := UserMeta p.2 = EntryTypeRow.
Definition value_put (k : bytes) (p : put) : Prop := UserMeta p.2 <> EntryTypeRow /\ p.1 = k.
Definition row_put_of (k : bytes) (p : put) : Prop := UserMeta p.2 = EntryTypeRow /\ p.1 = k.

#[global] Instance row_put_dec p : Decision (row_put p).
Proof. unfold row_put. apply _. Defined.
#[global] Instance value_put_dec k p : Decision (value_put k p).
Proof. unfold value_put. apply _. Defined.
#[global] Instance row_put_of_dec k p : Decision (row_put_of k p).
Proof. unfold row_put_of. apply _. Defined.

Definition last_value (puts : list put) (k : bytes) : option ValueStruct := list.last (filter (value_put k) puts).*2.
Definition row_values (puts : list put) (k : bytes) : list ValueStruct := (filter (row_put_of k) puts).*2.

Section facts.
Context {L F : Type} `{SkipListLaws L} `{BloomLaws F}.

Record table_of (t : MemTable L F) (puts : list put) : Prop := {
  to_cap : skl_cap (skipList t) = capacity t;
  to_bloom : forall p, p ∈ puts -> bloom_Test (bloomFilter t) p.1 = true;
  to_values : forall k v, ((k, 0), v) ∈ skl_entries (skipList t) <-> last_value puts k = Some v;
  to_rows : exists st : list (Z * put), st.*2 = filter row_put puts /\ StronglySorted Z.lt st.*1 /\
    Forall (fun x => 0 < x.1 <= lastTS t) st /\
    forall k ts v, ts <> 0 -> (((k, ts), v) ∈ skl_entries (skipList t) <-> (ts, (k, v)) ∈ st);
  to_ts : 0 <= lastTS t <= 2 ^ 63 + blen puts
}.

Lemma new_table c : table_of (NewMemTable c) [].
Proof.
  destruct (skl_New_law c) as [He Hc]. unfold NewMemTable. constructor; cbn [skipList lastTS capacity bloomFilter].
  - done.
  - intros p Hp. by apply not_elem_of_nil in Hp.
  - intros k v. rewrite He. split; [by intros ?%not_elem_of_nil|done].
  - exists []. split; [done|]. split; [constructor|]. split; [constructor|]. intros k ts v _. rewrite He.
    split; by intros ?%not_elem_of_nil.
  - change (blen (@nil put)) with 0. lia.
Qed.

Lemma next_ts now last n : 0 <= now < 2 ^ 63 -> 0 <= last <= 2 ^ 63 + n -> 0 <= n < 2 ^ 62 ->
  last < tsGenerator_Next now last <= 2 ^ 63 + (n + 1) /\ timestamp (tsGenerator_Next now last).
Proof.
  intros Hn Hl Hb. unfold tsGenerator_Next, timestamp. rewrite (u64_small now) by lia.
  destruct (Z.leb_spec now last); [rewrite u64_small by lia|]; lia.
Qed.

Lemma last_value_snoc puts p k : last_value (puts ++ [p]) k = if decide (value_put k p) then Some p.2 else last_value puts k.
Proof.
  unfold last_value. rewrite filter_app, filter_cons, filter_nil. case_decide; [|by rewrite app_nil_r].
  rewrite fmap_app. apply last_snoc.
Qed.

Lemma put_value t puts key v sl : table_of t puts -> UserMeta v <> EntryTypeRow -> skl_cap sl = skl_cap (skipList t) ->
  (forall e, e ∈ skl_entries sl <-> e = ((key, 0), v) \/ (e ∈ skl_entries (skipList t) /\ e.1 <> (key, 0))) ->
  table_of (mkMemTable sl (lastOffset t) (firstOffset t) (capacity t) (opCount t + 1) (offsetCount t)
         (bytesStored t + blen key + blen (Value v)) (chunkedFlushed t) (lastTS t) (bloom_Add (bloomFilter t) key))
    (puts ++ [(key, v)]).
Proof.
  intros Ht Hv Hc Hin. destruct Ht as [Hcap Hbl Hval (st & Hst & Hs & Hf & Hrow) Hts]. constructor; cbn [skipList lastTS capacity bloomFilter].
  - congruence.
  - intros p Hp. apply elem_of_app in Hp as [Hp|Hp]; [by apply bloom_keep_law, Hbl|].
    apply list_elem_of_singleton in Hp as ->. apply bloom_Add_law.
  - intros k x. rewrite Hin, last_value_snoc. case_decide as Hk.
    + destruct Hk as [_ Hk]. cbn in Hk. subst k. cbn. split; [intros [Heq|[_ Hne]]; congruence|]. intros [= ->]. by left.
    + rewrite Hval. split; [intros [[= -> ->]|[? _]]; [|done]|].
      * destruct Hk. done.
      * intros Hlv. right. split; [done|]. cbn. intros [= ->]. by destruct Hk.
  - exists st. split; [|split; [done|split; [done|]]].
    + rewrite filter_app, filter_cons, decide_False by done. by rewrite app_nil_r.
    + intros k ts x Hne. rewrite Hin, <- Hrow by done. split; [intros [[= -> -> ->]|[? _]]; done|].
      intros He. right. split; [done|]. cbn. congruence.
  - rewrite blen_app. pose proof (blen_nonneg [(key, v)]). lia.
Qed.

Lemma put_row t puts key v sl ts : table_of t puts -> UserMeta v = EntryTypeRow -> skl_cap sl = skl_cap (skipList t) ->
  lastTS t < ts <= 2 ^ 63 + (blen puts + 1) ->
  (forall e, e ∈ skl_entries sl <-> e = ((key, ts), v) \/ (e ∈ skl_entries (skipList t) /\ e.1 <> (key, ts))) ->
  table_of (mkMemTable sl (lastOffset t) (firstOffset t) (capacity t) (opCount t + 1) (offsetCount t)
         (bytesStored t + blen key + blen (Value v)) (chunkedFlushed t) ts (bloom_Add (bloomFilter t) key))
    (puts ++ [(key, v)]).
Proof.
  intros Ht Hv Hc Hlt Hin. destruct Ht as [Hcap Hbl Hval (st & Hst & Hs & Hf & Hrow) Hts]. constructor; cbn [skipList lastTS capacity bloomFilter].
  - congruence.
  - intros p Hp. apply elem_of_app in Hp as [Hp|Hp]; [by apply bloom_keep_law, Hbl|].
    apply list_elem_of_singleton in Hp as ->. apply bloom_Add_law.
  - intros k x. rewrite Hin, last_value_snoc, decide_False by (by intros [? _]). rewrite <- Hval.
    split; [intros [[= -> Hz ->]|[? _]]; [lia|done]|]. intros He. right. split; [done|]. intros [= -> Hz]. lia.
  - exists (st ++ [(ts, (key, v))]). rewrite Forall_forall in Hf. split; [|split; [|split]].
    + rewrite fmap_app, filter_app, Hst, filter_cons, decide_True by done. done.
    + rewrite fmap_app. apply StronglySorted_app. split; [|split; [done|repeat constructor]].
      intros a b Ha Hb. apply list_elem_of_singleton in Hb as ->. apply list_elem_of_fmap in Ha as (x & -> & Hx).
      apply Hf in Hx. cbn. lia.
    + apply Forall_app. split; [|apply Forall_singleton; cbn; lia]. apply Forall_forall. intros x Hx. apply Hf in Hx. lia.
    + intros k t' x Hne. rewrite Hin, elem_of_app, list_elem_of_singleton, <- Hrow by done. split.
      * intros [[= -> -> ->]|[? _]]; auto.
      * intros [He|[= -> -> ->]]; [|by left]. right. split; [done|]. intros [= -> ->].
        apply Hrow in He; [|done]. apply Hf in He. cbn in He. lia.
  - rewrite blen_app. change (blen [(key, v)]) with 1. lia.
Qed.

(** [Put] either refuses, when the arena is full, or adds to the sequence. *)
Lemma Put_spec now t puts key v : table_of t puts -> 0 <= now < 2 ^ 63 -> blen puts < 2 ^ 62 ->
  exists t' e, Put now t key v = Ret (t', e) /\
    match e with
    | Some _ => t' = t /\ canPut t key v = false
    | None => table_of t' (puts ++ [(key, v)]) /\ canPut t key v = true /\ capacity t' = capacity t /\
        lastOffset t' = lastOffset t /\ firstOffset t' = firstOffset t /\ offsetCount t' = offsetCount t /\
        chunkedFlushed t' = chunkedFlushed t
    end.
Proof.
  intros Ht Hnow Hlen. unfold Put. destruct (canPut t key v) eqn:Hcan; cbn [negb]; [|by eexists _, (Some _)].
  pose proof (to_cap _ _ Ht) as Hcap. pose proof (to_ts _ _ Ht) as Hts. pose proof (blen_nonneg puts).
  unfold canPut in Hcan. apply Z.leb_le in Hcan. rewrite KeyWithTs_len in Hcan.
  destruct (Z.eqb_spec (UserMeta v) EntryTypeRow) as [Hr|Hr].
  - destruct (next_ts now (lastTS t) (blen puts) Hnow Hts ltac:(lia)) as [Hlt Hst].
    destruct (skl_Put_law (skipList t) key (tsGenerator_Next now (lastTS t)) v Hst) as (sl & -> & Hc & Hin);
      [rewrite KeyWithTs_len; lia|].
    cbn [mbind outcome_bind]. eexists _, None. split; [done|]. split; [by apply put_row|]. done.
  - destruct (skl_Put_law (skipList t) key 0 v) as (sl & -> & Hc & Hin); [unfold timestamp; lia|rewrite KeyWithTs_len; lia|].
    cbn [mbind outcome_bind]. eexists _, None. split; [done|]. split; [by apply put_value|]. done.
Qed.

Lemma Get_spec t puts k : table_of t puts -> Get t k = default zero_value (last_value puts k).
Proof.
  intros Ht. unfold Get. destruct (last_value puts k) as [v|] eqn:E.
  - assert (bloom_Test (bloomFilter t) k = true) as ->.
    { unfold last_value in E. apply last_Some_elem_of, list_elem_of_fmap in E as (p & _ & Hp).
      apply list_elem_of_filter in Hp as [[_ <-] Hp]. by apply (to_bloom _ _ Ht). }
    cbn. apply skl_Get_law. by apply (to_values _ _ Ht).
  - destruct (bloom_Test _ _); [cbn [negb]|done]. apply skl_Get_absent. intros Hin.
    apply list_elem_of_fmap in Hin as ([[k' ts] v] & [= <- <-] & Hin). apply (to_values _ _ Ht) in Hin. congruence.
Qed.

(** ** Rows *)

Lemma filter_sub {A} (P Q : A -> Prop) `{forall x, Decision (P x)} `{forall x, Decision (Q x)} (l : list A) :
  (forall x, x ∈ l -> P x -> Q x) -> filter P (filter Q l) = filter P l.
Proof.
  induction l as [|x l IH]; intros Hs; [done|]. rewrite (filter_cons Q), (filter_cons P).
  assert (filter P (filter Q l) = filter P l) as IH' by (apply IH; intros y Hy; apply Hs; by right).
  case_decide as HQ; [rewrite filter_cons; by rewrite IH'|].
  rewrite decide_False; [done|]. intros HP. apply HQ, Hs; [by left|done].
Qed.

Lemma filter_none {A} (P : A -> Prop) `{forall x, Decision (P x)} (l : list A) : (forall x, x ∈ l -> ~ P x) -> filter P l = [].
Proof.
  intros Hn. destruct (filter P l) as [|x l'] eqn:E; [done|]. assert (x ∈ filter P l) as Hx by (rewrite E; by left).
  apply list_elem_of_filter in Hx as [HP Hx]. by destruct (Hn x Hx).
Qed.

Lemma take_row_filter k (E : list (version * ValueStruct)) :
  StronglySorted version_lt E.*1 -> Forall (fun e => timestamp e.1.2) E -> (forall e, e ∈ E -> ~ bytes_lt e.1.1 k) ->
  take_row k ((fun e => (KeyWithTs e.1.1 e.1.2, e.2)) <$> E) = (filter (fun e => e.1.1 = k) E).*2.
Proof.
  induction E as [|[[k' ts] v] E IH]; intros Hs Hts Hge; [done|]. cbn [fmap list_fmap fst snd] in Hs.
  apply StronglySorted_inv in Hs as [Hs Hf]. apply Forall_cons in Hts as [Ht Hts]. cbn [fmap list_fmap take_row fst snd].
  rewrite ParseKey_law by done. rewrite filter_cons. cbn [fst]. destruct (decide (k' = k)) as [->|Hne].
  - rewrite bool_decide_true by done. cbn [negb fmap list_fmap snd]. f_equal. apply IH; [done..|]. intros e He. apply Hge. by right.
  - rewrite bool_decide_false by done. cbn [negb]. rewrite filter_none; [done|]. intros e He Hek.
    rewrite Forall_forall in Hf. destruct (Hf e.1) as [Hlt|[Heq _]]; [apply list_elem_of_fmap; by exists e| |cbn in Heq; congruence].
    rewrite Hek in Hlt. cbn in Hlt. apply (Hge ((k', ts), v)); [by left|done].
Qed.

Lemma versions_desc k (E : list (version * ValueStruct)) : StronglySorted version_lt E.*1 ->
  StronglySorted (fun a b => b < a) ((fun e => e.1.2) <$> filter (fun e => e.1.1 = k) E).
Proof.
  induction E as [|e E IH]; intros Hs; [constructor|]. rewrite fmap_cons in Hs. apply StronglySorted_inv in Hs as [Hs Hf].
  rewrite filter_cons. case_decide as Hk; [|by apply IH]. rewrite fmap_cons. constructor; [by apply IH|].
  rewrite Forall_forall in Hf. apply Forall_forall. intros t Ht. apply list_elem_of_fmap in Ht as (e' & -> & He').
  apply list_elem_of_filter in He' as [Hk' He']. destruct (Hf e'.1) as [Hlt|[_ Hlt]]; [apply list_elem_of_fmap; by exists e'| |done].
  rewrite Hk, Hk' in Hlt. by apply bytes_lt_irrefl in Hlt.
Qed.

Definition of_option {A} (o : option A) : list A := match o with Some a => [a] | None => [] end.

Lemma filter_map {A B} (f : A -> B) (P : B -> Prop) `{forall x, Decision (P x)} (l : list A) :
  filter P (f <$> l) = f <$> filter (fun x => P (f x)) l.
Proof. induction l as [|x l IH]; [done|]. rewrite fmap_cons, !filter_cons. case_decide; [by rewrite fmap_cons, IH|done]. Qed.

Lemma row_values_stamped puts (st : list (Z * put)) k : st.*2 = filter row_put puts ->
  row_values puts k = ((fun x => (x.1, x.2.2)) <$> filter (fun x => x.2.1 = k) st).*2.
Proof.
  intros Hst. unfold row_values.
  rewrite (list_filter_iff (row_put_of k) (fun p => p.1 = k /\ row_put p)) by (intros; unfold row_put_of, row_put; tauto).
  rewrite <- list_filter_filter, <- Hst, filter_map, <- !list_fmap_compose. done.
Qed.

(** The versions of a key with their timestamps, oldest first. *)
Lemma versions_spec t puts k : table_of t puts ->
  exists st : list (Z * put), st.*2 = filter row_put puts /\
  reverse ((fun e => (e.1.2, e.2)) <$> filter (fun e => e.1.1 = k) (skl_entries (skipList t))) =
  of_option ((fun v => (0, v)) <$> last_value puts k) ++ ((fun x => (x.1, x.2.2)) <$> filter (fun x => x.2.1 = k) st).
Proof.
  intros Ht. destruct (to_rows _ _ Ht) as (st & Hst & Hsort & Hpos & Hrow). exists st. split; [done|].
  rewrite Forall_forall in Hpos. apply sorted_eq.
  - rewrite fmap_reverse, <- list_fmap_compose. apply sorted_reverse. cbn. apply versions_desc, skl_sorted.
  - rewrite fmap_app. apply StronglySorted_app. split; [|split].
    + intros a b Ha Hb. apply list_elem_of_fmap in Hb as (y & -> & Hb). apply list_elem_of_fmap in Hb as (x & -> & Hb).
      apply list_elem_of_filter in Hb as [_ Hb]. apply Hpos in Hb. cbn.
      destruct (last_value puts k); cbn in Ha; [apply list_elem_of_singleton in Ha as ->; lia|by apply not_elem_of_nil in Ha].
    + destruct (last_value puts k); repeat constructor.
    + rewrite <- list_fmap_compose. by apply (sorted_filter Z.lt fst).
  - intros [ts v]. rewrite elem_of_reverse, list_elem_of_fmap, elem_of_app.
    assert ((exists e, (ts, v) = (e.1.2, e.2) /\ e ∈ filter (fun e => e.1.1 = k) (skl_entries (skipList t))) <->
            ((k, ts), v) ∈ skl_entries (skipList t)) as ->.
    { split; [intros ([[k' t'] v'] & [= -> ->] & He); by apply list_elem_of_filter in He as [<- He]|].
      intros He. exists ((k, ts), v). split; [done|]. by apply list_elem_of_filter. }
    assert ((ts, v) ∈ (fun x => (x.1, x.2.2)) <$> filter (fun x : Z * put => x.2.1 = k) st <-> (ts, (k, v)) ∈ st) as ->.
    { rewrite list_elem_of_fmap. split; [intros ([t' [k' v']] & [= -> ->] & He); by apply list_elem_of_filter in He as [<- He]|].
      intros He. exists (ts, (k, v)). split; [done|]. by apply list_elem_of_filter. }
    destruct (decide (ts = 0)) as [->|Hne].
    + rewrite (to_values _ _ Ht). destruct (last_value puts k) as [x|]; cbn.
      * rewrite list_elem_of_singleton. split; [intros [= ->]; by left|intros [[= ->]|Hin]; [done|]]. apply Hpos in Hin. cbn in Hin. lia.
      * split; [done|]. intros [Hin|Hin]; [by apply not_elem_of_nil in Hin|]. apply Hpos in Hin. cbn in Hin. lia.
    + rewrite Hrow by done. split; [by right|]. intros [Hin|Hin]; [|done].
      destruct (last_value puts k); cbn in Hin; [apply list_elem_of_singleton in Hin; congruence|by apply not_elem_of_nil in Hin].
Qed.

(** All versions of a row, oldest first. *)
Lemma GetRowYValue_spec t puts k : table_of t puts -> GetRowYValue t k = of_option (last_value puts k) ++ row_values puts k.
Proof.
  intros Ht. unfold GetRowYValue. destruct (bloom_Test (bloomFilter t) k) eqn:Hb; cbn [negb].
  - rewrite skl_Seek_law by (unfold timestamp; lia). pose proof (skl_stamped (skipList t)) as Hstamp. rewrite Forall_forall in Hstamp.
    rewrite take_row_filter.
    + rewrite filter_sub.
      * destruct (versions_spec t puts k Ht) as (st & Hst & Hv). rewrite (row_values_stamped puts st k Hst).
        apply (f_equal (fmap snd)) in Hv. rewrite fmap_reverse, <- list_fmap_compose, fmap_app in Hv.
        etransitivity; [exact Hv|]. f_equal. by destruct (last_value puts k).
      * intros e He Hk [Hlt|[_ Hlt]]; cbn in Hlt; [rewrite Hk in Hlt; by apply bytes_lt_irrefl in Hlt|].
        apply Hstamp in He. unfold timestamp in He. lia.
    + apply sorted_filter, skl_sorted.
    + apply Forall_forall. intros e He. apply list_elem_of_filter in He as [_ He]. by apply Hstamp.
    + intros e He Hlt. apply list_elem_of_filter in He as [Hn _]. apply Hn. by left.
  - assert (forall p, p ∈ puts -> p.1 <> k) as Hno.
    { intros p Hp <-. rewrite (to_bloom _ _ Ht p Hp) in Hb. done. }
    unfold last_value, row_values. rewrite !filter_none; [done|..]; intros p Hp [_ Hk]; by apply (Hno p).
Qed.

(** Puts until the table is full. *)
Fixpoint put_until (t : MemTable L F) (ps : list (Z * put)) : outcome (MemTable L F * list put * list put) :=
  match ps with
  | [] => Ret (t, [], [])
  | (now, p) :: rest =>
      '(t, e) ← Put now t p.1 p.2;
      match e with
      | Some ErrArenaSizeWillExceed => Ret (t, [], p :: rest.*2)
      | None => '(t, acc, rest) ← put_until t rest; Ret (t, p :: acc, rest)
      end
  end.

Lemma put_until_spec ps : forall t puts, table_of t puts -> Forall (fun now => 0 <= now < 2 ^ 63) ps.*1 -> blen puts + blen ps <= 2 ^ 62 ->
  exists t' acc rest, put_until t ps = Ret (t', acc, rest) /\ ps.*2 = acc ++ rest /\ table_of t' (puts ++ acc) /\
    match rest with [] => True | p :: _ => canPut t' p.1 p.2 = false end.
Proof.
  induction ps as [|[now [k v]] ps IH]; intros t puts Ht Hnow Hlen; cbn [put_until].
  - exists t, [], []. rewrite !app_nil_r. done.
  - rewrite fmap_cons in Hnow. apply Forall_cons in Hnow as [Hn Hnow]. unfold blen in Hlen. cbn [length] in Hlen.
    destruct (Put_spec now t puts k v Ht Hn ltac:(unfold blen; lia)) as (t' & e & HP & He). cbn [fst snd]. rewrite HP. cbn [mbind outcome_bind].
    destruct e as [[]|].
    + destruct He as [-> Hc]. exists t, [], ((k, v) :: ps.*2). rewrite !app_nil_r. done.
    + destruct He as (Ht' & _). destruct (IH t' (puts ++ [(k, v)]) Ht' Hnow) as (t2 & acc & rest & -> & Heq & Ht2 & Hr);
        [unfold blen; rewrite length_app; cbn [length]; lia|].
      exists t2, ((k, v) :: acc), rest. split; [done|]. cbn. rewrite Heq. split; [done|]. by rewrite <- app_assoc in Ht2.
Qed.

(** C16. Puts into a new table are accepted in order until one does not fit
    the arena; after that a read of a value finds the last value put under the
    key (or the empty value), and a read of a row finds all of its versions,
    oldest first, although the table keeps values in place and rows as
    versions with generated timestamps, and asks the Bloom filter first. *)
Theorem memtable_refines_its_puts c ps : Forall (fun now => 0 <= now < 2 ^ 63) ps.*1 -> blen ps <= 2 ^ 62 ->
  exists t acc rest, put_until (NewMemTable c) ps = Ret (t, acc, rest) /\ ps.*2 = acc ++ rest /\
    match rest with [] => True | p :: _ => canPut t p.1 p.2 = false end /\
    (forall k, Get t k = default zero_value (last_value acc k)) /\
    (forall k, GetRowYValue t k = of_option (last_value acc k) ++ row_values acc k).
Proof.
  intros Hnow Hlen. destruct (put_until_spec ps (NewMemTable c) [] (new_table c) Hnow) as (t & acc & rest & Hr & Heq & Ht & Hfull);
    [unfold blen in *; cbn [length]; lia|].
  exists t, acc, rest. split_and!; [done..| |]; intros k; [by apply Get_spec|by apply GetRowYValue_spec].
Qed.
End facts.

Definition sample_puts : list (Z * put) :=
  [(5, ([Byte.xfe; Byte.x01], mkValue LogOperationInsert EntryTypeKV [Byte.x11]));
   (6, ([Byte.xfd; Byte.x01], mkValue LogOperationInsert EntryTypeRow [Byte.x12]));
   (6, ([Byte.xfe; Byte.x01], mkValue LogOperationDelete EntryTypeKV []));
   (6, ([Byte.xfd; Byte.x01], mkValue LogOperationDelete EntryTypeRow [Byte.x13]));
   (7, ([Byte.xfe; Byte.x02], mkValue LogOperationInsert EntryTypeKV [Byte.x14]))].

Lemma memtable_refines_its_puts_witness : exists (t : MemTable map_list (list bytes)) acc rest,
  put_until (NewMemTable 1090) sample_puts = Ret (t, acc, rest) /\ sample_puts.*2 = acc ++ rest /\
  (forall k, Get t k = default zero_value (last_value acc k)).
Proof.
  destruct (memtable_refines_its_puts (L := map_list) (F := list bytes) 1090 sample_puts) as (t & acc & rest & Hr & Heq & _ & Hget & _);
    [by apply (bool_decide_unpack _)|by vm_compute|]. exists t, acc, rest. exact (conj Hr (conj Heq Hget)).
Defined.
