(* ===== verification/TxnLog.v ===== *)
(** Transactions in the log.  A transaction's records point back to their
    predecessors; the walk that collects them ends at the record without a
    predecessor and yields them in the order in which they were written. *)

From stdpp Require Import prelude list numbers gmap.
From Stdlib Require Import ZArith Lia.
From S2P Require Import Prelude Bytes Segment LogCodec WalIO WalIOFacts.

Notation wal_log := (list (bytes * RecordPosition)).

Section chains.
Context `{FlatBuffers}.

(** [chain L p rs]: from the record at [p] back, the transaction is [rs].  Each
    pointer goes to an earlier record of the log. *)
Inductive chain : wal_log -> RecordPosition -> list fb_log -> Prop :=
| chain_begin A d p B r :
    GetRootAsLogRecord d = Ret r -> PrevTxnWalIndexLength r = 0 -> chain (A ++ (d, p) :: B) p [r]
| chain_next A d p B r p' rs :
    GetRootAsLogRecord d = Ret r -> PrevTxnWalIndexLength r <> 0 ->
    DecodeOffset (PrevTxnWalIndexBytes r) = Ret (Some p') -> chain A p' rs -> chain (A ++ (d, p) :: B) p (rs ++ [r]).

Lemma chain_grow L X p rs : chain L p rs -> chain (L ++ X) p rs.
Proof.
  destruct 1 as [A d p B r Hr Hz|A d p B r p' rs Hr Hz Hd Hc]; rewrite <- app_assoc; cbn [app]; [by apply chain_begin|by eapply chain_next].
Qed.

Lemma chain_length L p rs : chain L p rs -> (length rs <= length L)%nat.
Proof.
  induction 1 as [A d p B r Hr Hz|A d p B r p' rs Hr Hz Hd Hc IH]; rewrite !length_app; cbn [length]; lia.
Qed.

Lemma chain_nonempty L p rs : chain L p rs -> exists r rest, rs = r :: rest.
Proof. destruct 1 as [|A d p B r p' rs Hr Hz Hd Hc]; [by eexists _, _|]. destruct rs; by eexists _, _. Qed.

Context {W R : Type} `{!WalLog W R} `{!WalLaws W R}.

Lemma chain_walk n w X p rs : forall L fuel acc, wl_repr n w (L ++ X) -> chain L p rs -> (length L < fuel)%nat ->
  txn_walk fuel w (Some p) acc = Ret (Ok (rs ++ reverse acc)).
Proof.
  intros L fuel acc Hw Hc. revert X fuel acc Hw.
  induction Hc as [A d p B r Hr Hz|A d p B r p' rs Hr Hz Hd Hc IH]; intros X [|fuel] acc Hw Hf; try lia; cbn [txn_walk].
  - rewrite (wl_Read_law n w _ d p Hw) by set_solver. cbn [mbind outcome_bind]. rewrite Hr. cbn [mbind outcome_bind].
    rewrite Hz, Z.eqb_refl, reverse_app. done.
  - rewrite (wl_Read_law n w _ d p Hw) by set_solver. cbn [mbind outcome_bind]. rewrite Hr. cbn [mbind outcome_bind].
    destruct (Z.eqb_spec (PrevTxnWalIndexLength r) 0); [done|]. rewrite Hd. cbn [mbind outcome_bind].
    rewrite length_app in Hf. rewrite <- app_assoc in Hw. rewrite (IH ((d, p) :: B ++ X)) by (done || (cbn in Hf; lia)).
    by rewrite reverse_app, <- app_assoc.
Qed.

Lemma GetTransactionRecords_spec n w L p rs fuel : wl_repr n w L -> chain L p rs -> (length L < fuel)%nat ->
  GetTransactionRecords fuel w (Some p) = Ret (Ok rs).
Proof.
  intros Hw Hc Hf. unfold GetTransactionRecords. rewrite (chain_walk n w [] p rs L) by (rewrite ?app_nil_r; done).
  by rewrite app_nil_r.
Qed.
End chains.
