(* ===== verification/WalTail.v ===== *)
(** Readers that follow the tail of the log: WithActiveTail of
    dbkernel/internal/wal/wal.go and NewReaderWithTail of
    dbkernel/engine_public.go.

    A replicator reads the log while the engine appends to it and while other
    readers read it.  [TailLog] are the operations such a reader uses,
    [TailLaws] what they promise whatever the others do in between; [WalIO]
    over the segmented log is an instance. *)

From stdpp Require Import prelude list numbers gmap sorting.
From Stdlib Require Import ZArith Lia.
From S2P Require Import Prelude Bytes Segment SegmentFacts SegmentSpec WALog WALogFacts WALogReader LogCodec WalIO WalIOFacts TxnLog.

(** ** The interface *)

Class TailLog (W R : Type) := {
  tl_NewReaderWithTail : W -> option RecordPosition -> outcome (result error R);
  tl_Next : W -> R -> outcome (W * R * result error (bytes * RecordPosition));
  tl_Close : W -> R -> outcome (W * R)
}.

(** [tl_log w L]: the log holds [L].  [tl_at w r A B]: the reader has passed
    [A], and [B] is ahead of it.  [tl_complete w r]: the reader knows all
    segments of the log.  [tl_step w w']: what writers and readers do. *)
Class TailLaws (W R : Type) `{TailLog W R} := {
  tl_log : W -> list (bytes * RecordPosition) -> Prop;
  tl_at : W -> R -> list (bytes * RecordPosition) -> list (bytes * RecordPosition) -> Prop;
  tl_complete : W -> R -> Prop;
  tl_closed : R -> Prop;
  tl_step : W -> W -> Prop;
  tl_positions w L : tl_log w L -> NoDup L.*2 /\ Forall real_pos L.*2;
  tl_unique w L L' : tl_log w L -> tl_log w L' -> L = L';
  tl_at_log w r A B : tl_at w r A B -> tl_log w (A ++ B);
  tl_begin w L : tl_log w L ->
    exists r, tl_NewReaderWithTail w None = Ret (Ok r) /\ tl_at w r [] L /\ tl_complete w r;
  tl_start w A d p B : tl_log w (A ++ (d, p) :: B) ->
    exists r, tl_NewReaderWithTail w (Some p) = Ret (Ok r) /\ tl_at w r A ((d, p) :: B) /\ tl_complete w r;
  tl_Next_law w r A B : tl_at w r A B ->
    exists w' r' res, tl_Next w r = Ret (w', r', res) /\ tl_step w w' /\ tl_log w' (A ++ B) /\
      match res with
      | Ok x => exists B', B = x :: B' /\ tl_at w' r' (A ++ [x]) B' /\ (tl_complete w r -> tl_complete w' r')
      | Err ErrNoNewData => B = [] /\ tl_at w' r' A [] /\ (tl_complete w r -> tl_complete w' r')
      | Err EOF => tl_closed r' /\ ~ tl_complete w r
      | Err _ => False
      end;
  tl_Next_closed w r L : tl_log w L -> tl_closed r -> exists w' r', tl_Next w r = Ret (w', r', Err EOF) /\ tl_step w w' /\ tl_log w' L /\ tl_closed r';
  tl_Close_law w r L : tl_log w L -> (tl_closed r \/ exists A B, tl_at w r A B) ->
    exists w' r', tl_Close w r = Ret (w', r') /\ tl_step w w' /\ tl_log w' L /\ tl_closed r';
  tl_grows w w' L : tl_step w w' -> tl_log w L ->
    exists X, tl_log w' (L ++ X) /\ forall r A B, tl_at w r A B -> tl_at w' r A (B ++ X)
}.

(** ** The records of a segment are determined by its bytes *)

Lemma repr_unique seg m m' post : forall pre post', seg_repr seg m (pre ++ post) -> seg_repr seg m' (pre ++ post') -> closed seg = false ->
  post = post'.
Proof.
  induction post as [|d post IH]; intros pre post' Hr Hr' Hc.
  - rewrite app_nil_r in Hr. pose proof (sr_offset _ _ _ Hr) as H1. pose proof (sr_offset _ _ _ Hr') as H2.
    rewrite end_offset_app in H2. destruct post' as [|d post']; [done|]. cbn [entries_size foldr] in H2. fold (entries_size post') in H2.
    pose proof (entrySize_pos _ (blen_nonneg d)). pose proof (entries_size_nonneg post'). lia.
  - destruct post' as [|d' post'].
    + rewrite app_nil_r in Hr'. pose proof (sr_offset _ _ _ Hr') as H1. pose proof (sr_offset _ _ _ Hr) as H2.
      rewrite end_offset_app in H2. cbn [entries_size foldr] in H2. fold (entries_size post) in H2.
      pose proof (entrySize_pos _ (blen_nonneg d)). pose proof (entries_size_nonneg post). lia.
    + pose proof (reader_Next_record seg m pre d post 0 0 Hr Hc) as H1.
      rewrite (reader_Next_record seg m' pre d' post' 0 0 Hr' Hc) in H1. injection H1 as _ ->. f_equal.
      apply (IH (pre ++ [d]) post'); [by rewrite <- app_assoc..|done].
Qed.

Lemma seg_ok_unique w b b' e e' seg seg' : seg_ok w b e seg -> seg_ok w b' e' seg' -> le_ptr e = le_ptr e' -> e = e'.
Proof.
  intros [Hh Hid (m & Hr & _) _ [Hc _] _ _] [Hh' Hid' (m' & Hr' & _) _ _ _ _] Hp. rewrite Hp in Hh. assert (seg' = seg) as -> by congruence.
  pose proof (repr_unique seg m m' _ [] _ Hr Hr' Hc). destruct e, e'. cbn in *. congruence.
Qed.

Lemma wal_inv_unique w front cur front' cur' : wal_inv w front cur -> wal_inv w front' cur' -> front ++ [cur] = front' ++ [cur'].
Proof.
  intros Hi Hi'. pose proof (wi_snapshot _ _ _ Hi) as Hs. rewrite (wi_snapshot _ _ _ Hi') in Hs.
  assert (forall e, e ∈ front ++ [cur] -> exists b seg, seg_ok w b e seg) as H1 by (intros e He; by destruct (wal_segment _ _ _ _ Hi He)).
  assert (forall e, e ∈ front' ++ [cur'] -> exists b seg, seg_ok w b e seg) as H2 by (intros e He; by destruct (wal_segment _ _ _ _ Hi' He)).
  revert Hs H1 H2. generalize (front ++ [cur]) (front' ++ [cur']). clear. induction l as [|e l IH]; intros [|e' l'] Hs H1 H2; try done.
  injection Hs as Hp Hs. destruct (H1 e) as (b & seg & He); [by left|]. destruct (H2 e') as (b' & seg' & He'); [by left|].
  rewrite (seg_ok_unique w b b' e e' seg seg' He He' (eq_sym Hp)). f_equal. apply IH; [done|..]; intros x Hx; [apply H1|apply H2]; by right.
Qed.

(** ** A reader while the log grows *)

Lemma flat_app A B : flat (A ++ B) = flat A ++ flat B.
Proof. unfold flat. by rewrite fmap_app, concat_app. Qed.

Lemma flat_cons e L : flat (e :: L) = with_positions (le_id e) segmentHeaderSize (le_recs e) ++ flat L.
Proof. done. Qed.

Lemma with_positions_app i A B : forall o, with_positions i o (A ++ B) = with_positions i o A ++ with_positions i (o + entries_size A) B.
Proof.
  induction A as [|d A IH]; intros o; cbn [with_positions app entries_size foldr]; [by rewrite Z.add_0_r|].
  rewrite IH. fold (entries_size A). by rewrite Z.add_assoc.
Qed.

(** The records that come when the entry [c] gets the records [more]. *)
Definition longer (c : lentry) (more : list bytes) : lentry := mkEntry (le_ptr c) (le_id c) (le_recs c ++ more).
Definition appended (c : lentry) (more : list bytes) (new : list lentry) : list (bytes * RecordPosition) :=
  with_positions (le_id c) (end_offset (le_recs c)) more ++ flat new.

Lemma flat_longer F c more new : flat (F ++ longer c more :: new) = flat (F ++ [c]) ++ appended c more new.
Proof.
  rewrite !flat_app, !flat_cons. cbn [longer le_id le_recs]. rewrite with_positions_app. unfold appended.
  by rewrite <- !app_assoc.
Qed.

(** The last segment of a reader gets more records. *)
Lemma reader_at_longer F c r items more : reader_at (F ++ [c]) r items ->
  reader_at (F ++ [longer c more]) r (items ++ with_positions (le_id c) (end_offset (le_recs c)) more).
Proof.
  assert (le_ptr <$> F ++ [c] = le_ptr <$> F ++ [longer c more]) as Hp by by rewrite !fmap_app.
  assert (forall done_ e rest, F ++ [c] = done_ ++ e :: rest ->
    (rest = [] /\ e = c /\ done_ = F) \/ exists rest', rest = rest' ++ [c] /\ F = done_ ++ e :: rest') as Hsplit.
  { intros done_ e rest Heq. destruct rest as [|x rest _] using rev_ind.
    - left. by apply app_inj_2 in Heq as [-> [= ->]].
    - right. rewrite app_comm_cons, app_assoc in Heq. apply app_inj_2 in Heq as [-> [= ->]]; [|done]. by exists rest. }
  intros [done_ e rest sr pre post HRe Hrs Hc Hidx (Hrec & Hro & Hcl) ->
         |e rest pre post HRe Hrs Hc Hidx Hrec Hst ->
         |done_ rest HRe Hne Hdn Hrs Hc Hidx ->]; rewrite Hp in Hrs.
  - destruct (Hsplit _ _ _ HRe) as [(-> & -> & ->)|(rest' & -> & ->)].
    + eapply (at_segment _ _ _ F (longer c more) [] sr pre (post ++ more)); try done.
      * split; [|done]. cbn. by rewrite Hrec, app_assoc.
      * cbn [longer le_id]. rewrite with_positions_app, app_nil_r, Hrec, end_offset_app. cbn. by rewrite app_nil_r.
    + eapply (at_segment _ _ _ done_ e (rest' ++ [longer c more]) sr pre post); try done; [by rewrite <- app_assoc|].
      by rewrite flat_longer, <- app_assoc, app_assoc; unfold appended; cbn; rewrite app_nil_r, app_assoc.
  - destruct (Hsplit [] _ _ HRe) as [(-> & -> & <-)|(rest' & -> & ->)].
    + eapply (at_start _ _ _ (longer c more) [] pre (post ++ more)); try done.
      * cbn. by rewrite Hrec, app_assoc.
      * cbn [longer le_id]. rewrite with_positions_app, app_nil_r, Hrec, end_offset_app. cbn. by rewrite app_nil_r.
    + eapply (at_start _ _ _ e (rest' ++ [longer c more]) pre post); try done.
      by rewrite flat_longer, <- app_assoc, app_assoc; unfold appended; cbn; rewrite app_nil_r, app_assoc.
  - destruct rest as [|e rest]; [done|]. destruct (Hsplit _ _ _ HRe) as [(-> & -> & ->)|(rest' & -> & ->)].
    + eapply (at_gap _ _ _ F [longer c more]); try done. change [longer c more] with ([] ++ [longer c more]). rewrite flat_longer. unfold appended. cbn.
      by rewrite !app_nil_r.
    + eapply (at_gap _ _ _ done_ (e :: rest' ++ [longer c more])); try done; [by rewrite <- app_assoc|].
      change (e :: rest' ++ [longer c more]) with ((e :: rest') ++ [longer c more]). rewrite flat_longer. unfold appended. change (flat []) with (@nil (bytes * RecordPosition)). by rewrite app_nil_r.
Qed.

(** ** The log of the engine *)

(** [WithActiveTail] is set: the end of the log is "no new data". *)
#[global] Instance wal_world_tail : TailLog WalWorld Reader := {
  tl_NewReaderWithTail w startPos :=
    match startPos with
    | None => Ret (Ok (NewReader (ww_io w) true))
    | Some p => NewReaderWithStart (ww_io w) p true
    end;
  tl_Next w r := '(io, r, x) ← Next (ww_answers w 0%nat) (ww_io w) r; Ret (later w io, r, x);
  tl_Close w r := '(io, r) ← Reader_Close (ww_answers w 0%nat 0%nat) (ww_io w) r; Ret (later w io, r)
}.

Definition ww_good (w : WalWorld) : Prop := forall k, ios_good (ww_answers w k).

Definition ww_log (w : WalWorld) (L : list (bytes * RecordPosition)) : Prop :=
  ww_good w /\ exists front cur, wal_inv (appendLog (ww_io w)) front cur /\ L = flat (front ++ [cur]).

(** [S] are the segments of the reader; those of [L1] came later. *)
Definition tail_reading (w : WalWorld) (r : Reader) (L1 : list lentry) (A B : list (bytes * RecordPosition)) : Prop :=
  rd_closed r = false /\ withActiveTail r = true /\ ww_good w /\
  exists front cur L0 S items, wal_inv (appendLog (ww_io w)) front cur /\ front ++ [cur] = L0 ++ S ++ L1 /\
    reader_at S (appendReader r) items /\ B = items ++ flat L1 /\ A ++ B = flat (front ++ [cur]).

Definition ww_at (w : WalWorld) (r : Reader) (A B : list (bytes * RecordPosition)) : Prop := exists L1, tail_reading w r L1 A B.
Definition ww_complete (w : WalWorld) (r : Reader) : Prop := exists A B, tail_reading w r [] A B.

Definition ww_step (w w' : WalWorld) : Prop :=
  ww_good w' /\ exists front cur front' cur', wal_inv (appendLog (ww_io w)) front cur /\ wal_inv (appendLog (ww_io w')) front' cur' /\
    grown (front ++ [cur]) (front' ++ [cur']).

Lemma reader_at_not_nil S r items : reader_at S r items -> S <> [].
Proof. intros [? ? ? ? ? ? ->|? ? ? ? ->|? ? -> ? Hd]; [by destruct done_|done|by destruct done_]. Qed.

Lemma ww_grows w w' L : ww_step w w' -> ww_log w L ->
  exists X, ww_log w' (L ++ X) /\ forall r A B, ww_at w r A B -> ww_at w' r A (B ++ X).
Proof.
  intros (Hg' & front & cur & front' & cur' & Hi & Hi' & F & c & more & new & Heq & Heq') (Hg & f & u & Hfu & ->).
  rewrite <- (wal_inv_unique _ _ _ _ _ Hi Hfu), Heq. exists (appended c more new).
  assert (flat (front' ++ [cur']) = flat (F ++ [c]) ++ appended c more new) as Hfl by (rewrite Heq'; apply flat_longer).
  split; [split; [done|]; by exists front', cur'|].
  intros r A B (L1 & Hcl & Ht & _ & f1 & u1 & L0 & S & items & Hi1 & HS & Hat & -> & HAB).
  rewrite <- (wal_inv_unique _ _ _ _ _ Hi Hi1), Heq in HS, HAB.
  destruct L1 as [|x L1 _] using rev_ind.
  - rewrite app_nil_r in *. destruct S as [|y S _] using rev_ind; [by apply reader_at_not_nil in Hat|].
    rewrite app_assoc in HS. apply app_inj_2 in HS as [-> [= <-]]; [|done]. exists new.
    split; [done|]. split; [done|]. split; [done|].
    exists front', cur', L0, (S ++ [longer c more]), (items ++ with_positions (le_id c) (end_offset (le_recs c)) more).
    split; [done|]. split; [rewrite Heq'; by rewrite <- !app_assoc|]. split; [by apply reader_at_longer|].
    unfold appended. split; [by rewrite app_assoc|]. rewrite Hfl, <- HAB. unfold appended. by rewrite <- !app_assoc.
  - exists (L1 ++ longer c more :: new). split; [done|]. split; [done|]. split; [done|].
    assert (F = L0 ++ S ++ L1 /\ c = x) as [-> ->].
    { rewrite !app_assoc in HS. apply app_inj_2 in HS as [-> [= ->]]; [|done]. by rewrite !app_assoc. }
    exists front', cur', L0, S, items. split; [done|]. split; [rewrite Heq'; by rewrite <- !app_assoc|]. split; [done|].
    split; [by rewrite flat_longer, app_assoc|]. by rewrite Hfl, <- HAB, <- !app_assoc.
Qed.

Lemma ww_step_same w w' front cur : ww_good w' -> wal_inv (appendLog (ww_io w)) front cur -> wal_inv (appendLog (ww_io w')) front cur -> ww_step w w'.
Proof. intros Hg Hi Hi'. split; [done|]. exists front, cur, front, cur. split; [done|]. split; [done|]. apply grown_refl. Qed.

(** What [Next] does to a reader whose segments are followed by [L1]. *)
Lemma tail_Next w r L1 A B : tail_reading w r L1 A B ->
  exists w' r' res, tl_Next w r = Ret (w', r', res) /\ ww_step w w' /\ ww_log w' (A ++ B) /\
    match res with
    | Ok x => exists B', B = x :: B' /\ tail_reading w' r' L1 (A ++ [x]) B'
    | Err ErrNoNewData => B = [] /\ L1 = [] /\ tail_reading w' r' L1 A []
    | Err EOF => L1 <> [] /\ rd_closed r' = true
    | Err _ => False
    end.
Proof.
  intros (Hcl & Ht & Hg & front & cur & L0 & S & items & Hi & HS & Hat & -> & HAB).
  assert (forall w', wal_inv (appendLog w') front cur -> ww_step w (later w w') /\ ww_log (later w w') (A ++ items ++ flat L1)) as Hkeep.
  { intros w' Hi'. assert (ww_good (later w w')) as Hg' by (intros k; apply Hg). split; [by eapply ww_step_same|]. split; [done|]. by exists front, cur. }
  cbn [tl_Next wal_world_tail]. unfold Next. rewrite Hcl, Ht.
  destruct (Next_spec front cur L0 S L1 items (fun k => ww_answers w 0%nat (Datatypes.S k)) (appendLog (ww_io w)) (appendReader r) Hi HS Hat) as (l' & ar & Hi' & Hn).
  assert (forall items' x k, reader_at S ar items' -> A ++ items ++ flat L1 = x ++ items' ++ flat L1 ->
    tail_reading (later w (mkWalIO l' (entriesInSegment (ww_io w)))) (mkReader ar false true k) L1 x (items' ++ flat L1)) as Hread.
  { intros items' x k Har Hx. split; [done|]. split; [done|]. split; [intros j; apply Hg|]. exists front, cur, L0, S, items'. by rewrite <- Hx. }
  destruct items as [|x items]; [destruct L1 as [|e L1]|]; destruct Hn as [-> Hr]; cbn [mbind outcome_bind].
  - eexists _, _, _. split; [done|]. destruct (Hkeep (mkWalIO l' (entriesInSegment (ww_io w))) Hi') as [Hst Hlg]. split; [done|]. split; [done|].
    split; [done|]. split; [done|]. by apply (Hread [] A (readCount r) Hr).
  - unfold Reader_Close. cbn [rd_closed appendReader]. unfold WALog.Reader_Close. rewrite Hr. cbn [mbind outcome_bind].
    destruct (Hkeep (mkWalIO l' (entriesInSegment (ww_io w))) Hi') as [Hst Hlg]. by eexists _, _, _.
  - eexists _, _, _. split; [done|]. destruct (Hkeep (mkWalIO l' (entriesInSegment (ww_io w))) Hi') as [Hst Hlg]. split; [done|]. split; [done|].
    exists (items ++ flat L1). split; [done|]. apply (Hread items (A ++ [x]) (readCount r + 1) Hr). by rewrite <- app_assoc.
Qed.

Lemma ww_Next_tail w r A B : ww_at w r A B ->
  exists w' r' res, tl_Next w r = Ret (w', r', res) /\ ww_step w w' /\ ww_log w' (A ++ B) /\
    match res with
    | Ok x => exists B', B = x :: B' /\ ww_at w' r' (A ++ [x]) B' /\ (ww_complete w r -> ww_complete w' r')
    | Err ErrNoNewData => B = [] /\ ww_at w' r' A [] /\ (ww_complete w r -> ww_complete w' r')
    | Err EOF => rd_closed r' = true /\ ~ ww_complete w r
    | Err _ => False
    end.
Proof.
  intros (L1 & Hr). destruct (tail_Next w r L1 A B Hr) as (w' & r' & res & Hn & Hst & Hlg & Hres).
  assert (ww_complete w r -> match res with
    | Ok x => exists A B, tail_reading w' r' [] A B | Err ErrNoNewData => exists A B, tail_reading w' r' [] A B | Err EOF => False | _ => True end) as Hcomp.
  { intros (A' & B' & Hc). destruct (tail_Next w r [] A' B' Hc) as (w1 & r1 & res1 & Hn1 & _ & _ & Hres1). rewrite Hn in Hn1. injection Hn1 as <- <- <-.
    destruct res as [x|[]]; try done; [destruct Hres1 as (B1 & _ & Hres1); by eexists _, _|destruct Hres1 as (_ & _ & Hres1); by eexists _, _|by destruct Hres1 as [[] _]]. }
  exists w', r', res. split; [done|]. split; [done|]. split; [done|].
  destruct res as [x|[]]; try done.
  - destruct Hres as (B' & -> & Hr'). exists B'. split; [done|]. split; [by exists L1|done].
  - destruct Hres as (-> & -> & Hr'). split; [done|]. split; [by exists []|done].
  - split; [by destruct Hres|done].
Qed.

Lemma ww_Close_tail w r L : ww_log w L -> (rd_closed r = true \/ exists A B, ww_at w r A B) ->
  exists w' r', tl_Close w r = Ret (w', r') /\ ww_step w w' /\ ww_log w' L /\ rd_closed r' = true.
Proof.
  intros (Hg & f & u & Hfu & ->) Hr. cbn [tl_Close wal_world_tail]. unfold Reader_Close. destruct (rd_closed r) eqn:Hcl.
  - eexists _, _. split; [done|]. assert (ww_good (later w (ww_io w))) by (intros k; apply Hg). split; [by eapply ww_step_same|]. split; [split; [done|]; by exists f, u|done].
  - destruct Hr as [?|(A & B & L1 & _ & _ & _ & front & cur & L0 & S & items & Hi & HS & Hat & _)]; [done|].
    destruct (reader_close_inv (ww_answers w 0%nat 0%nat) front cur L0 S L1 items _ _ Hi HS Hat) as (l & ar & -> & Hi'). cbn [mbind outcome_bind].
    eexists _, _. split; [done|]. set (w' := later _ _). assert (ww_good w') as Hg' by (intros k; apply Hg).
    split; [by eapply ww_step_same|]. split; [|done]. split; [done|]. exists front, cur. split; [done|]. by rewrite (wal_inv_unique _ _ _ _ _ Hfu Hi).
Qed.

Lemma ww_begin_tail w L : ww_log w L ->
  exists r, tl_NewReaderWithTail w None = Ret (Ok r) /\ ww_at w r [] L /\ ww_complete w r.
Proof.
  intros (Hg & front & cur & Hi & ->). eexists. split; [done|].
  assert (tail_reading w (NewReader (ww_io w) true) [] [] (flat (front ++ [cur]))) as Hr; [|split; [by exists []|by eexists _, _]].
  split; [done|]. split; [done|]. split; [done|]. exists front, cur, [], (front ++ [cur]), (flat (front ++ [cur])). split; [done|].
  split; [by rewrite app_nil_r|]. split; [|by rewrite app_nil_r]. destruct (front ++ [cur]) as [|e rest] eqn:E; [by destruct front|].
  eapply (at_start _ _ _ e rest [] (le_recs e)); try done. cbn. by rewrite (wi_snapshot _ _ _ Hi), E.
Qed.

Lemma ww_start_tail w A d p B : ww_log w (A ++ (d, p) :: B) ->
  exists r, tl_NewReaderWithTail w (Some p) = Ret (Ok r) /\ ww_at w r A ((d, p) :: B) /\ ww_complete w r.
Proof.
  intros (Hg & front & cur & Hi & HL). pose proof HL as HL'.
  rewrite flat_strip in HL'. symmetry in HL'. destruct (al_flat_split _ _ _ _ HL') as (SA & i & pre & post & SB & HS & Hp & HB).
  apply fmap_app_inv in HS as (LA & LB & -> & HeB & Hfc). destruct LB as [|e LB]; [done|]. cbn [fmap list_fmap] in HeB.
  injection HeB as Hi1 Hrec HSB. subst i SB. cbn [fst snd] in *. subst p.
  destruct (NewReaderWithStart_at _ front cur LA e LB pre (d :: post) Hi Hfc (eq_sym Hrec)) as (r & Hnew & Hat).
  cbn [tl_NewReaderWithTail wal_world_tail]. unfold NewReaderWithStart. rewrite Hnew. cbn [mbind outcome_bind]. eexists. split; [done|].
  set (p := mkPos _ _) in *.
  assert (tail_reading w (mkReader r false true 0) [] A ((d, p) :: B)) as Hr; [|split; [by exists []|by eexists _, _]].
  split; [done|]. split; [done|]. split; [done|]. exists front, cur, LA, (e :: LB), ((d, p) :: B). split; [done|]. split; [by rewrite app_nil_r|].
  split; [|by rewrite app_nil_r]. cbn [appendReader]. rewrite flat_strip in Hat. by rewrite HB.
Qed.

#[global] Program Instance wal_world_tail_laws : TailLaws WalWorld Reader :=
  { tl_log := ww_log; tl_at := ww_at; tl_complete := ww_complete; tl_closed r := rd_closed r = true; tl_step := ww_step }.
Next Obligation.
  intros w L (Hg & front & cur & Hi & ->). rewrite flat_strip, fmap_app. refine (repr_positions (appendLog (ww_io w)) (mkLog (strip <$> front) (strip cur)) _). by exists front, cur.
Qed.
Next Obligation. intros w L L' (_ & f & u & Hi & ->) (_ & f' & u' & Hi' & ->). by rewrite (wal_inv_unique _ _ _ _ _ Hi Hi'). Qed.
Next Obligation. intros w r A B (L1 & _ & _ & Hg & front & cur & L0 & S & items & Hi & _ & _ & _ & HAB). split; [done|]. by exists front, cur. Qed.
Next Obligation. exact ww_begin_tail. Qed.
Next Obligation. exact ww_start_tail. Qed.
Next Obligation. exact ww_Next_tail. Qed.
Next Obligation.
  intros w r L (Hg & front & cur & Hi & ->) Hcl. cbn [tl_Next wal_world_tail]. unfold Next. rewrite Hcl. eexists _, _. split; [done|].
  assert (ww_good (later w (ww_io w))) by (intros k; apply Hg). split; [by eapply ww_step_same|]. split; [split; [done|]; by exists front, cur|done].
Qed.
Next Obligation. exact ww_Close_tail. Qed.
Next Obligation. exact ww_grows. Qed.

(** Appends of the engine are such steps. *)
Lemma ww_repr_log n w L : ww_repr n w L -> ww_log w L.
Proof. intros Hr. destruct (repr_inv _ _ _ Hr) as (Hg & front & cur & Hi & _ & ->). split; [done|]. by exists front, cur. Qed.

Lemma grown_step w w' front cur a : ww_good w' -> wal_inv (appendLog (ww_io w)) front cur -> wal_grown (front ++ [cur]) (appendLog (ww_io w')) a -> ww_step w w'.
Proof. intros Hg Hi (front' & cur' & Hi' & _ & _ & Hgr). split; [done|]. by exists front, cur, front', cur'. Qed.

Lemma Append_steps n w L d w' r : ww_repr (S n) w L -> wl_Append w d = Ret (w', r) -> ww_step w w'.
Proof.
  intros Hr Hap. destruct (repr_inv _ _ _ Hr) as (Hg & front & cur & Hi & Hid & _). cbn [wl_Append wal_world_log] in Hap. unfold Append in Hap.
  destruct (wl_maxSegmentSize (appendLog (ww_io w)) - segmentHeaderSize <? recordOverhead (blen d)) eqn:E.
  - unfold Write in Hap. rewrite (wi_current _ _ _ Hi), E in Hap. cbn [mbind outcome_bind] in Hap. injection Hap as <- _.
    eapply ww_step_same; [intros k; apply Hg|done|done].
  - pose proof (Write_entries (ww_answers w 0%nat) _ front cur d Hi (Hg 0%nat)) as Hw. destruct (a_log_write _ _ d) as [a' pos].
    destruct Hw as (l' & Hw & Hgr & _); [unfold fits_segment; rewrite recordOverhead_entrySize in E; lia|lia|].
    rewrite Hw in Hap. cbn [mbind outcome_bind] in Hap. injection Hap as <- _. eapply grown_step; [intros k; apply Hg|done|exact Hgr].
Qed.

(** * A log in memory, the reference for the interface of readers that follow the
    tail of a log: a list, and a position in it. *)

Definition index_of (p : RecordPosition) (l : (list (bytes * RecordPosition))) : option nat := fst <$> list_find (fun x => x.2 = p) l.

#[export] Instance list_tail : TailLog (list (bytes * RecordPosition)) (nat * bool) := {
  tl_NewReaderWithTail w startPos :=
    match startPos with
    | None => Ret (Ok (0%nat, false))
    | Some p => Ret (match index_of p w with Some i => Ok (i, false) | None => Err ErrSegmentNotFound end)
    end;
  tl_Next w r :=
    if snd r then Ret (w, r, Err EOF)
    else Ret (match w !! fst r with Some x => (w, (S (fst r), false), Ok x) | None => (w, r, Err ErrNoNewData) end);
  tl_Close w r := Ret (w, (fst r, true))
}.

Definition positions_ok (L : (list (bytes * RecordPosition))) : Prop := NoDup L.*2 /\ Forall real_pos L.*2.

Lemma index_of_spec A d p B : positions_ok (A ++ (d, p) :: B) -> index_of p (A ++ (d, p) :: B) = Some (length A).
Proof.
  intros [Hnd _]. unfold index_of. assert (list_find (fun x => x.2 = p) (A ++ (d, p) :: B) = Some (length A, (d, p))) as ->; [|done].
  apply list_find_Some. split; [by apply list_lookup_middle|]. split; [done|]. intros j x Hj Hlt Hx. rewrite lookup_app_l in Hj by done.
  rewrite fmap_app, NoDup_app in Hnd. destruct Hnd as (_ & Hnd & _). apply (Hnd p); [|by left].
  rewrite <- Hx. apply list_elem_of_fmap. exists x. split; [done|]. by eapply list_elem_of_lookup_2.
Qed.

#[export] Program Instance list_tail_laws : TailLaws (list (bytes * RecordPosition)) (nat * bool) := {
  tl_log w L := w = L /\ positions_ok L;
  tl_at w r A B := w = A ++ B /\ positions_ok w /\ r = (length A, false);
  tl_complete w r := True;
  tl_closed r := snd r = true;
  tl_step w w' := exists X, w' = w ++ X /\ positions_ok w'
}.
Next Obligation. by intros w L [_ Hp]. Qed.
Next Obligation. by intros w L L' [-> _] [-> _]. Qed.
Next Obligation. by intros w r A B (-> & Hp & _). Qed.
Next Obligation. intros w L [-> Hp]. by eexists. Qed.
Next Obligation. intros w A d p B [-> Hp]. cbn. rewrite (index_of_spec A d p B Hp). by eexists. Qed.
Next Obligation.
  intros w r A B (-> & Hp & ->). cbn. assert (tl_step_refl : exists X, A ++ B = (A ++ B) ++ X /\ positions_ok (A ++ B)) by (exists []; by rewrite app_nil_r).
  destruct B as [|x B].
  + rewrite app_nil_r, lookup_ge_None_2 by done. rewrite app_nil_r in *. by eexists _, _, _.
  + rewrite list_lookup_middle by done. eexists _, _, _. split; [done|]. split; [done|]. split; [done|]. exists B. rewrite <- app_assoc, length_app, Nat.add_1_r. done.
Qed.
Next Obligation. intros w [i b] L [-> Hp] Hc. cbn in Hc. subst b. eexists _, _. split; [done|]. split; [|done]. exists []. by rewrite app_nil_r. Qed.
Next Obligation. intros w r L [-> Hp] _. eexists _, _. split; [done|]. split; [|done]. exists []. by rewrite app_nil_r. Qed.
Next Obligation. intros w w' L (Y & -> & Hp) [-> _]. exists Y. split; [done|]. intros r A B (-> & _ & ->). rewrite <- app_assoc in *. done. Qed.

Lemma positions_ok_dec L : bool_decide (NoDup L.*2) && forallb (fun p => (0 <? SegmentID p) && (SegmentID p <? 2 ^ 32) && (0 <? Offset p) && (Offset p <? 2 ^ 63)) L.*2 = true ->
  positions_ok L.
Proof.
  intros [H1%bool_decide_eq_true H2]%andb_prop. split; [done|]. rewrite forallb_forall in H2. apply Forall_forall. intros p Hp%list_elem_of_In%H2. unfold real_pos. lia.
Qed.
