(* ===== verification/FlushFacts.v ===== *)
(** What a flush of the memory table does to the store.

    Every entry of the table stands for one queued operation ([means]).  A flush
    that reports success has the effect of all of them in the order in which
    they were put, although it applies the rows last, each row as a whole, and
    of the values only the newest; a flush that stops with an error of the
    store has applied some of them, and a later flush makes up for the rest. *)

From stdpp Require Import prelude list numbers gmap sorting.
From Stdlib Require Import ZArith Lia.
From S2P Require Import Prelude Bytes Segment KeyCodec KVKeys KVStore KVSpec KVReads KVQueue KVQueueFacts Overlay BTree.
From S2P Require Import LogCodec WalIO WalIOFacts TxnLog MemTable MemTableFacts.

(** ** Sequences of operations *)

(** Operations that were part of a sequence do not survive that sequence. *)
Lemma effs_some ops op k : op ∈ ops -> eff op k <> None -> effs ops k <> None.
Proof.
  intros (l1 & l2 & ->)%list_elem_of_split Hne. rewrite effs_app, effs_cons.
  destruct (effs l2 k), (eff op k), (effs l1 k); done.
Qed.

Lemma effs_covers (ops part : list queued_op) k : (forall op, op ∈ part -> op ∈ ops) ->
  then_eff (effs part k) (effs ops k) = effs ops k.
Proof.
  intros Hsub. destruct (effs ops k) eqn:E; [done|]. cbn. apply effs_none. rewrite Forall_forall. intros op Hop.
  destruct (eff op k) eqn:E'; [|done]. exfalso. apply (effs_some ops op k); [by apply Hsub|by rewrite E'|done].
Qed.

Lemma redo (ops part : list queued_op) (m : kvmap) : ops_ok ops -> lobs_ok m -> (forall op, op ∈ part -> op ∈ ops) ->
  foldl a_queued (foldl a_queued m part) ops = foldl a_queued m ops.
Proof.
  intros Hok Hl Hsub. rewrite <- foldl_app.
  assert (ops_ok part) as Hp by (unfold ops_ok in *; rewrite Forall_forall in *; intros op Hop; by apply Hok, Hsub).
  apply same_effs_same_result; [by apply Forall_app|done..|]. intros k. rewrite effs_app. by apply effs_covers.
Qed.

Lemma ops_all_ok ops : forall m, ops_ok ops -> lobs_ok m -> all_ok m ops.
Proof.
  induction ops as [|op ops IH]; intros m Hok Hl; cbn [all_ok]; [done|]. apply Forall_cons in Hok as [[Hw Ho] Hok].
  split; [|apply IH; [done|by apply queued_lobs_ok]].
  destruct op as [| |key chunks sum| | | |]; try done. destruct Hw as [Hb Hn]. split; [|done].
  rewrite blob_key_meta by done. specialize (Hl key Hb). unfold lob_ok in Hl. intros E. rewrite E in Hl. by destruct Hl as [? _].
Qed.

(** Operations that replace the whole of their object. *)
Definition whole (op : queued_op) : Prop :=
  match op with QPutKV _ _ _ | QDeleteKV _ | QSetLobChunks _ _ _ => True | _ => False end.

Lemma whole_covers op op' k : whole op -> whole op' -> op_obj op -> op_obj op' -> op_key op = op_key op' -> eff op k <> None -> eff op' k <> None.
Proof.
  intros Hw Hw' Ho Ho' Hk. destruct op as [key v i|key|key chunks sum| | | |], op' as [key' v' i'|key'|key' chunks' sum'| | | |]; try done;
    cbn [op_key eff op_obj] in *; try (rewrite Hk; by case_bool_decide);
    try (exfalso; apply blob_head in Ho; subst; by rewrite (value_head _ (typed_KeyKV _)) in Ho);
    try (exfalso; apply blob_head in Ho'; rewrite <- Hk in Ho'; by rewrite (value_head _ (typed_KeyKV _)) in Ho').
  subst key'. case_bool_decide; [done|]. destruct (chunk_index key k) as [i|]; [|done]. by destruct (i =? 0).
Qed.

Lemma last_whole l op k : Forall (fun o => whole o /\ op_obj o /\ op_key o = op_key op) (l ++ [op]) -> effs (l ++ [op]) k = effs [op] k.
Proof.
  intros Hf. rewrite Forall_app in Hf. destruct Hf as [Hl Ho]. apply Forall_singleton in Ho as (Hw & Hob & _).
  rewrite effs_snoc, effs_one. destruct (eff op k) eqn:E; [done|]. cbn. apply effs_none. rewrite Forall_forall in Hl |- *.
  intros o (Hwo & Hoo & Hk)%Hl. destruct (eff o k) eqn:E'; [|done]. exfalso. by apply (whole_covers o op k Hwo Hw Hoo Hob Hk); rewrite ?E', ?E.
Qed.

(** ** What an entry stands for *)

Section entries.
Context `{FlatBuffers}.

(** The commit record at [p] ends a transaction that wrote [chunks] as the blob [key]. *)
Definition lob_commit (Lg : wal_log) (p : RecordPosition) (key : bytes) (chunks : list bytes) (sum : Z) : Prop :=
  exists A d B r kv p' b rest, Lg = A ++ (d, p) :: B /\ GetRootAsLogRecord d = Ret r /\
    fb_txn_state r = TransactionStateCommit /\ fb_entry_type r = LogEntryTypeChunked /\ fb_crc32_checksum r = sum /\
    first_entry r = Ret kv /\ kv_Key kv = key /\
    DecodeOffset (PrevTxnWalIndexBytes r) = Ret (Some p') /\ chain A p' (b :: rest) /\ chunk_values rest = Ret chunks.

Inductive means (Lg : wal_log) : put -> queued_op -> Prop :=
| means_put key value : value_key key ->
    means Lg (key, mkValue LogOperationInsert EntryTypeKV value) (QPutKV key [value] 0)
| means_delete key value : value_key key ->
    means Lg (key, mkValue LogOperationDelete EntryTypeKV value) (QDeleteKV key)
| means_set_cells key value re : row_key key -> DeserializeRowUpdateEntry value = Ret re ->
    means Lg (key, mkValue LogOperationInsert EntryTypeRow value) (QSetCells key (row_Columns re))
| means_delete_cells key value re : row_key key -> DeserializeRowUpdateEntry value = Ret re ->
    means Lg (key, mkValue LogOperationDelete EntryTypeRow value) (QDeleteCells key (row_Columns re))
| means_delete_row key value : row_key key ->
    means Lg (key, mkValue LogOperationDeleteRowByKey EntryTypeRow value) (QDeleteRow key)
| means_chunks key value p chunks sum : blob_key key -> blen chunks < 2 ^ 32 ->
    DecodeOffset value = Ret (Some p) -> lob_commit Lg p key chunks sum ->
    means Lg (key, mkValue LogOperationInsert EntryTypeChunked value) (QSetLobChunks key chunks sum).

Lemma row_key_self key : row_key key -> RowKey key = key.
Proof. intros (row & _ & ->). done. Qed.

Lemma value_key_self key : value_key key -> KeyKV key = key.
Proof. unfold value_key, KeyKV. by intros ->. Qed.

Lemma means_key Lg p op : means Lg p op -> op_key op = p.1.
Proof. destruct 1; cbn; auto using row_key_self, value_key_self. Qed.

Lemma means_ok Lg p op : means Lg p op -> op_wf op /\ op_obj op.
Proof. destruct 1; cbn; try rewrite row_key_self by done; (split; [|done]); (done || lia). Qed.

(** Row entries change parts of a row, the others replace their object. *)
Lemma means_kind Lg p op : means Lg p op -> if decide (row_put p) then row_key p.1 else whole op /\ ~ row_key p.1.
Proof.
  destruct 1; unfold row_put; cbn [snd UserMeta fst]; (destruct decide as [E|E]; [try done; by discriminate E|]); try done;
    (split; [done|]); intros Hr; apply row_head in Hr.
  - by rewrite (value_head key) in Hr.
  - by rewrite (value_head key) in Hr.
  - by rewrite (blob_head key) in Hr.
Qed.

Lemma lob_commit_grow Lg X p key chunks sum : lob_commit Lg p key chunks sum -> lob_commit (Lg ++ X) p key chunks sum.
Proof.
  intros (A & d & B & r & kv & p' & b & rest & -> & Hrest). exists A, d, (B ++ X), r, kv, p', b, rest.
  split; [by rewrite <- app_assoc|done].
Qed.

Lemma means_grow Lg X p op : means Lg p op -> means (Lg ++ X) p op.
Proof. destruct 1; econstructor; eauto using lob_commit_grow. Qed.
End entries.

(** ** Calls of the queue *)

Section flush.
Context {L F W R D : Type} `{SkipListLaws L} `{BloomLaws F} `{WalLaws W R} `{BTreeLaws D} `{FlatBuffers}.

(** [ops] were queued: a prefix of them is in the store, the rest in the queue. *)
Definition batch (m md : kvmap) (ops : list queued_op) (q : TxnQueue) (d : D) : Prop :=
  exists dn, ops = dn ++ opsQueue q /\ ds_repr d (foldl a_queued m dn) md /\ q_err q = None.

(** A prefix of the operations is in the store. *)
Definition applied (m md : kvmap) (ops : list queued_op) (d : D) : Prop :=
  exists dn rest, ops = dn ++ rest /\ ds_repr d (foldl a_queued m dn) md.

Lemma applied_more m md ops ops' d : applied m md ops d -> applied m md (ops ++ ops') d.
Proof. intros (dn & rest & -> & Hd). exists dn, (rest ++ ops'). by rewrite <- app_assoc. Qed.

Lemma batch_applied m md ops q d : batch m md ops q d -> applied m md ops d.
Proof. intros (dn & -> & Hd & _). by exists dn, (opsQueue q). Qed.

Lemma txn_step (m md : kvmap) ops q (d : D) c : batch m md ops q d -> ops_ok (ops ++ queued_by c) -> lobs_ok m ->
  exists q' d' e, ds_txn c q d = Ret (q', d', e) /\
    match e with
    | None => batch m md (ops ++ queued_by c) q' d' /\ (is_commit c = true -> opsQueue q' = [])
    | Some e => applied m md (ops ++ queued_by c) d' /\ (is_commit c = false -> q_err q' = Some e)
    end.
Proof.
  intros (dn & -> & Hd & Hq) Hok Hl. rewrite <- app_assoc in Hok.
  assert (all_ok (foldl a_queued m dn) (opsQueue q ++ queued_by c)) as Hall.
  { apply Forall_app in Hok as [Hdn Hok]. apply ops_all_ok; [done|]. by apply queued_all_eff. }
  destruct (ds_txn_law _ _ _ _ _ Hd Hq Hall) as (q' & d' & e & dn' & rest & Hr & Heq & Hd' & He).
  exists q', d', e. split; [done|]. rewrite <- foldl_app in Hd'. destruct e as [e|].
  - split; [|by eapply ds_txn_error]. exists (dn ++ dn'), rest. split; [|done]. by rewrite <- !app_assoc, Heq.
  - destruct (He eq_refl) as (Hq' & Hrest & Hc). split.
    + exists (dn ++ dn'). rewrite Hrest, <- !app_assoc, Heq. done.
    + intros Hcm. rewrite Hrest. by apply Hc.
Qed.

(** Processing an entry is one call of the queue. *)
Lemma processEntry_call fuel w nw Lg key v op : means Lg (key, v) op -> wl_repr nw w Lg -> (length Lg < fuel)%nat ->
  exists c k, queued_by c = [op] /\ is_commit c = false /\ forall q (d : D) n,
    processEntry fuel w key v q d n =
    '(q, d, e) ← ds_txn c q d; Ret (q, d, match e with Some _ => n | None => n + k end, match e with Some e => Some (FlushKV e) | None => None end).
Proof.
  assert (forall c q (d : D) n, txn_call c q d n =
    '(q, d, e) ← ds_txn c q d; Ret (q, d, match e with Some _ => n | None => n + 0 end, match e with Some e => Some (FlushKV e) | None => None end)) as Hcall.
  { intros c q d n. unfold txn_call. destruct (ds_txn c q d) as [[[q' d'] [e|]]| |]; cbn; by rewrite ?Z.add_0_r. }
  intros Hm Hw Hf.
  inversion Hm as [k value|k value|k value re Hk Hre|k value re Hk Hre|k value|k value p chunks sum Hk Hn Hd Hc]; subst;
    unfold processEntry; cbn [Meta UserMeta Value].
  - exists (CBatchPutKV [key] [value]), 0. split_and!; [done..|]. intros. apply Hcall.
  - exists (CBatchDeleteKV [key]), 0. split_and!; [done..|]. intros. apply Hcall.
  - exists (CBatchSetCells [key] [row_Columns re]), 0. split_and!; [done..|]. intros.
    change (LogOperationInsert =? LogOperationDelete) with false. cbn. rewrite Hre. apply Hcall.
  - exists (CBatchDeleteCells [key] [row_Columns re]), 0. split_and!; [done..|]. intros.
    change (LogOperationDelete =? LogOperationDelete) with true. cbn. rewrite Hre. apply Hcall.
  - exists (CBatchDeleteRows [key]), 0. split_and!; [done..|]. intros. apply Hcall.
  - destruct Hc as (A & dd & B & r & kv & p' & b & rest & -> & Hr & Hst & Het & <- & Hkv & <- & Hprev & Hch & Hvs).
    exists (CSetLobChunks (kv_Key kv) chunks (fb_crc32_checksum r)), (blen (b :: rest) + 1). split_and!; [done..|]. intros.
    change (LogOperationInsert =? LogOperationDelete) with false. cbn [andb].
    change (LogOperationInsert =? LogOperationTypeDeleteRowByKey) with false.
    change (EntryTypeChunked =? EntryTypeChunked) with true. cbv iota.
    unfold GetWalRecord. cbn [Value]. rewrite Hd. cbn [mbind outcome_bind]. rewrite (wl_Read_law nw w _ dd p Hw) by set_solver.
    cbn [mbind outcome_bind]. rewrite Hr. cbn [mbind outcome_bind]. rewrite Hst, Het, !Z.eqb_refl. cbn [andb].
    unfold HandleChunkedValuesTxn. rewrite Hkv. cbn [mbind outcome_bind]. rewrite Hprev. cbn [mbind outcome_bind].
    rewrite (GetTransactionRecords_spec nw w (A ++ (dd, p) :: B) p' (b :: rest) fuel) by (done || by apply chain_grow).
    cbn [mbind outcome_bind drop_begin]. rewrite Hvs. cbn [mbind outcome_bind].
    destruct (ds_txn _ q d) as [[[q' d'] [e|]]| |]; cbn [mbind outcome_bind]; [done| |done..]. by rewrite Z.add_assoc.
Qed.

(** ** The loops *)

(** The result of an entry, or of a sequence of them. *)
Definition entry_result (m md : kvmap) (ops : list queued_op) (r : outcome (TxnQueue * D * Z * option flush_error)) : Prop :=
  exists q' d' n' e, r = Ret (q', d', n', e) /\
    match e with
    | None => batch m md ops q' d'
    | Some e => applied m md ops d' /\ exists x, e = FlushKV x /\ q_err q' = Some x
    end.

Context (fuel : nat) (w : W) (nw : nat) (Lg : wal_log) (m md : kvmap).
Hypothesis (Hw : wl_repr nw w Lg) (Hfuel : (length Lg < fuel)%nat) (Hlobs : lobs_ok m).

Lemma processEntry_result ops q d n key v op : means Lg (key, v) op -> batch m md ops q d -> ops_ok ops ->
  entry_result m md (ops ++ [op]) (processEntry fuel w key v q d n).
Proof.
  intros Hm Hb Hops. destruct (processEntry_call fuel w nw Lg key v op Hm Hw Hfuel) as (c & k & Hc & Hcm & ->).
  assert (ops_ok (ops ++ [op])) as Hok by (apply Forall_app; split; [done|]; apply Forall_singleton; by eapply means_ok).
  rewrite <- Hc in Hok |- *. destruct (txn_step m md ops q d c Hb Hok Hlobs) as (q' & d' & e & -> & He).
  cbn [mbind outcome_bind]. destruct e as [e|]; eexists q', d', _, _; (split; [done|]).
  - destruct He as [Hs He]. split; [done|]. eexists. split; [done|]. by apply He.
  - by destruct He.
Qed.

(** Once the queue has failed the store does not change. *)
Lemma processEntry_sticky m1 q (d : D) n key v op x : means Lg (key, v) op -> ds_repr d m1 md -> q_err q = Some x ->
  exists d', processEntry fuel w key v q d n = Ret (q, d', n, Some (FlushKV x)) /\ ds_repr d' m1 md.
Proof.
  intros Hm Hd Hq. destruct (processEntry_call fuel w nw Lg key v op Hm Hw Hfuel) as (c & k & Hc & Hcm & ->).
  destruct (ds_txn_sticky d m1 md c q x Hd Hq) as (d' & -> & Hd'). by exists d'.
Qed.

Lemma flush_row_result row vs : forall os ops q d n, Forall2 (fun v op => means Lg (row, v) op) vs os ->
  batch m md ops q d -> ops_ok ops -> entry_result m md (ops ++ os) (flush_row fuel w row vs q d n None).
Proof.
  induction vs as [|v vs IH]; intros os ops q d n Hm Hb Hok.
  - apply Forall2_nil_inv_l in Hm as ->. rewrite app_nil_r. by exists q, d, n, None.
  - apply Forall2_cons_inv_l in Hm as (op & os' & Hop & Hm & ->). cbn [flush_row].
    destruct (processEntry_result ops q d n row v op Hop Hb Hok) as (q' & d' & n' & e & -> & He). cbn [mbind outcome_bind].
    rewrite (cons_middle op), app_assoc. destruct e as [e|].
    + destruct He as [Ha He]. eexists q', d', n', _. split; [done|]. split; [by apply applied_more|done].
    + apply IH; [done..|]. apply Forall_app; split; [done|]. apply Forall_singleton. by eapply means_ok.
Qed.

Lemma flush_row_sticky m1 row vs os q (d : D) n x : Forall2 (fun v op => means Lg (row, v) op) vs os -> ds_repr d m1 md -> q_err q = Some x ->
  exists d', flush_row fuel w row vs q d n (Some (FlushKV x)) = Ret (q, d', n, Some (FlushKV x)) /\ ds_repr d' m1 md.
Proof.
  intros Hm Hd Hq. destruct vs as [|v vs]; [by exists d|]. apply Forall2_cons_inv_l in Hm as (op & os' & Hop & _ & _). cbn [flush_row].
  destruct (processEntry_sticky m1 q d n row v op x Hop Hd Hq) as (d' & -> & Hd'). by exists d'.
Qed.

(** [row_os] gives the operations of each row. *)
Lemma flush_rows_sticky (t : MemTable L F) (row_os : bytes -> list queued_op) m1 rows q : forall (d : D) n x,
  Forall (fun row => Forall2 (fun v op => means Lg (row, v) op) (GetRowYValue t row) (row_os row)) rows ->
  ds_repr d m1 md -> q_err q = Some x ->
  exists d', flush_rows fuel w t rows q d n (Some (FlushKV x)) = Ret (q, d', n, Some (FlushKV x)) /\ ds_repr d' m1 md.
Proof.
  induction rows as [|row rows IH]; intros d n x Hm Hd Hq; [by exists d|]. apply Forall_cons in Hm as [Hrow Hm]. cbn [flush_rows].
  destruct (flush_row_sticky m1 row _ _ q d n x Hrow Hd Hq) as (d' & -> & Hd'). cbn [mbind outcome_bind]. by apply IH.
Qed.

Lemma flush_rows_result (t : MemTable L F) (row_os : bytes -> list queued_op) rows : forall ops q d n,
  Forall (fun row => Forall2 (fun v op => means Lg (row, v) op) (GetRowYValue t row) (row_os row)) rows ->
  batch m md ops q d -> ops_ok ops ->
  entry_result m md (ops ++ (rows ≫= row_os)) (flush_rows fuel w t rows q d n None).
Proof.
  induction rows as [|row rows IH]; intros ops q d n Hm Hb Hok.
  - cbn. rewrite app_nil_r. by exists q, d, n, None.
  - apply Forall_cons in Hm as [Hrow Hm]. cbn [flush_rows]. rewrite bind_cons, app_assoc.
    destruct (flush_row_result row _ _ ops q d n Hrow Hb Hok) as (q' & d' & n' & e & -> & He). cbn [mbind outcome_bind].
    destruct e as [e|].
    + destruct He as [(dn & rest & Heq & Hd) (x & -> & Hx)].
      destruct (flush_rows_sticky t row_os _ rows q' d' n' x Hm Hd Hx) as (d'' & -> & Hd''). eexists q', d'', n', _. split; [done|].
      split; [|by exists x]. apply applied_more. by exists dn, rest.
    + apply IH; [done..|]. apply Forall_app; split; [done|]. apply Forall_forall. intros op (i & Hi)%list_elem_of_lookup.
      destruct (Forall2_lookup_r _ _ _ _ _ Hrow Hi) as (v & _ & Hv). by eapply means_ok.
Qed.
(** ** The first loop *)

Notation entry := (version * ValueStruct)%type.
Definition put_of (e : entry) : put := (e.1.1, e.2).
Definition as_item (e : entry) : bytes * ValueStruct := (KeyWithTs e.1.1 e.1.2, e.2).
Definition row_keys (E : list entry) : list bytes := (filter (fun e => row_put (put_of e)) E).*1.*1.
Definition values (E : list entry) : list entry := filter (fun e => ~ row_put (put_of e)) E.

Lemma add_rows ks : forall rows, NoDup rows -> NoDup (foldl (fun rs k => add_row k rs) rows ks) /\
  forall row, row ∈ foldl (fun rs k => add_row k rs) rows ks <-> row ∈ rows \/ row ∈ ks.
Proof.
  induction ks as [|k ks IH]; intros rows Hnd; cbn [foldl].
  - split; [done|]. intros row. rewrite elem_of_nil. tauto.
  - assert (NoDup (add_row k rows) /\ forall row, row ∈ add_row k rows <-> row = k \/ row ∈ rows) as [Hnd' Hin'].
    { unfold add_row. case_bool_decide as Hk; [split; [done|]; intros row; split; [tauto|intros [->|?]; done]|]. split.
      - apply list.NoDup_app. split_and!; [done| |apply NoDup_singleton]. intros x Hx ->%list_elem_of_singleton. done.
      - intros row. rewrite elem_of_app, list_elem_of_singleton. tauto. }
    destruct (IH _ Hnd') as [Hnd2 Hin2]. split; [done|]. intros row. rewrite Hin2, Hin', elem_of_cons. tauto.
Qed.

(** An entry of the loop, and the operations of the values among the entries. *)
Lemma flush_values_result E : forall ctx vos rows ops q (d : D) n,
  Forall (fun e => timestamp e.1.2) E -> Forall2 (fun e op => means Lg (put_of e) op) (values E) vos ->
  (forall i, (i < length E)%nat -> ctx i = false) -> batch m md ops q d -> ops_ok ops ->
  exists E1 E2 q' d' n' e, E = E1 ++ E2 /\
    flush_values fuel w ctx (as_item <$> E) rows q d n None = Ret (foldl (fun rs k => add_row k rs) rows (row_keys E1), q', d', n', e) /\
    match e with
    | None => E2 = [] /\ batch m md (ops ++ vos) q' d'
    | Some e => applied m md (ops ++ vos) d' /\ exists x, e = FlushKV x /\ q_err q' = Some x
    end.
Proof.
  induction E as [|e0 E IH]; intros ctx vos rows ops q d n Hts Hm Hctx Hb Hok.
  - apply Forall2_nil_inv_l in Hm as ->. rewrite app_nil_r. by exists [], [], q, d, n, None.
  - apply Forall_cons in Hts as [Ht Hts]. rewrite fmap_cons. unfold as_item at 1. cbn [flush_values].
    rewrite Hctx by (cbn; lia). rewrite ParseKey_law by done. unfold values in Hm. rewrite filter_cons in Hm.
    assert (forall i, (i < length E)%nat -> ctx (S i) = false) as Hctx' by (intros i Hi; apply Hctx; cbn; lia).
    destruct (Z.eqb_spec (UserMeta e0.2) EntryTypeRow) as [Hr|Hr].
    + rewrite decide_False in Hm by (unfold row_put, put_of; tauto).
      destruct (IH (fun i => ctx (S i)) vos (add_row e0.1.1 rows) ops q d n Hts Hm Hctx' Hb Hok) as (E1 & E2 & q' & d' & n' & e & -> & Hrun & He).
      exists (e0 :: E1), E2, q', d', n', e. split; [done|]. split; [|done]. rewrite Hrun.
      unfold row_keys. rewrite (filter_cons _ e0), decide_True by done. done.
    + rewrite decide_True in Hm by done. apply Forall2_cons_inv_l in Hm as (op & vos' & Hop & Hm & ->).
      destruct (processEntry_result ops q d n e0.1.1 e0.2 op Hop Hb Hok) as (q1 & d1 & n1 & err & -> & He). cbn [mbind outcome_bind].
      rewrite (cons_middle op), app_assoc. destruct err as [err|].
      * destruct He as [Ha He]. exists [], (e0 :: E), q1, d1, n1, (Some err). split; [done|]. split; [done|]. split; [by apply applied_more|done].
      * assert (ops_ok (ops ++ [op])) as Hok' by (apply Forall_app; split; [done|]; apply Forall_singleton; by eapply means_ok).
        destruct (IH (fun i => ctx (S i)) vos' rows (ops ++ [op]) q1 d1 n1 Hts Hm Hctx' He Hok') as (E1 & E2 & q' & d' & n' & e & -> & Hrun & He').
        exists (e0 :: E1), E2, q', d', n', e. split; [done|]. split; [|done]. rewrite Hrun.
        unfold row_keys. rewrite (filter_cons _ e0), decide_False by done. done.
Qed.

(** A cancelled context ends the loop. *)
Lemma flush_values_cut E1 x E2 : forall ctx rows q (d : D) n, (forall i, (i < length E1)%nat -> ctx i = false) -> ctx (length E1) = true ->
  flush_values fuel w ctx (E1 ++ x :: E2) rows q d n None =
  '(rows, q, d, n, err) ← flush_values fuel w ctx E1 rows q d n None;
  Ret (rows, q, d, n, match err with Some e => Some e | None => Some FlushCtx end).
Proof.
  clear Hw Hfuel Hlobs. induction E1 as [|[key v] E1 IH]; intros ctx rows q d n Hno Hyes; cbn [app flush_values].
  - destruct x as [key v]. cbn in Hyes. by rewrite Hyes.
  - rewrite Hno by (cbn; lia). assert (forall i, (i < length E1)%nat -> ctx (S i) = false) as Hno' by (intros i Hi; apply Hno; cbn; lia).
    destruct (UserMeta v =? EntryTypeRow); [by apply IH|]. destruct (processEntry fuel w (ParseKey key) v q d n) as [[[[q1 d1] n1] [err|]]| |];
      cbn [mbind outcome_bind]; [done|by apply IH|done..].
Qed.
End flush.
