(* ===== verification/FlushSpec.v ===== *)
(** The flush of a memory table against the list of its puts, and the context
    error that a flush forgets. *)

From stdpp Require Import prelude list numbers gmap sorting.
From Stdlib Require Import ZArith Lia.
From S2P Require Import Prelude Bytes Segment KeyCodec KVKeys KVStore KVSpec KVReads KVQueue KVQueueFacts Overlay BTree.
From S2P Require Import LogCodec WalIO WalIOFacts TxnLog MemTable Samples MemTableFacts FlushFacts.

(** Puts with the operations they stand for. *)
Notation put_ops := (list (put * queued_op)).

Definition vop (po : put_ops) (k : bytes) : option queued_op := list.last (filter (fun x => value_put k x.1) po).*2.
Definition row_os (po : put_ops) (k : bytes) : list queued_op := (filter (fun x => row_put_of k x.1) po).*2.

Lemma filter_all {A} (P : A -> Prop) `{forall x, Decision (P x)} (l : list A) : (forall x, x ∈ l -> P x) -> filter P l = l.
Proof.
  induction l as [|x l IH]; intros Hl; [done|]. rewrite filter_cons, decide_True by (apply Hl; by left). f_equal. apply IH. intros y Hy. apply Hl. by right.
Qed.

Section operations.
Context `{FlatBuffers} (Lg : wal_log) (po : put_ops).
Hypothesis (Hpo : Forall (fun x => means Lg x.1 x.2) po).

Lemma po_means p op : (p, op) ∈ po -> means Lg p op.
Proof. rewrite Forall_forall in Hpo. apply Hpo. Qed.

Lemma po_ok : ops_ok po.*2.
Proof. apply Forall_fmap. eapply Forall_impl; [exact Hpo|]. intros [p op] Hm. by eapply means_ok. Qed.

Lemma about_filter k (P : put -> Prop) `{forall p, Decision (P p)} :
  (forall p op, means Lg p op -> (p.1 = k <-> P p)) -> about k po.*2 = (filter (fun x => P x.1) po).*2.
Proof.
  intros HP. unfold about. rewrite filter_map. f_equal. revert Hpo. clear -HP. induction 1 as [|[p op] po' Hm _ IH]; [done|].
  rewrite !filter_cons, IH. cbn [fst snd] in *. pose proof (HP _ _ Hm). rewrite (means_key _ _ _ Hm).
  do 2 case_decide; tauto.
Qed.

Lemma about_value k p0 op0 : means Lg p0 op0 -> value_put k p0 -> about k po.*2 = (filter (fun x => value_put k x.1) po).*2.
Proof.
  intros H0 [Hnr <-]. apply means_kind in H0. rewrite decide_False in H0 by done. apply about_filter. intros p op Hm. unfold value_put.
  split; [|tauto]. intros Hk. split; [|done]. intros Hr. apply means_kind in Hm. rewrite decide_True in Hm by done. rewrite Hk in Hm. tauto.
Qed.

Lemma about_row k : row_key k -> about k po.*2 = row_os po k.
Proof.
  intros Hrow. apply about_filter. intros p op Hm. unfold row_put_of. split; [|tauto]. intros <-. split; [|done].
  apply means_kind in Hm. destruct (decide (row_put p)) as [Hr|Hr]; [done|tauto].
Qed.

Lemma last_value_vop k v : last_value po.*1 k = Some v -> exists op, vop po k = Some op /\ means Lg (k, v) op.
Proof.
  unfold last_value, vop. rewrite filter_map, !fmap_last.
  destruct (list.last (filter _ po)) as [[p op]|] eqn:E; cbn; [|done]. intros [= <-]. exists op. split; [done|].
  apply last_Some_elem_of, list_elem_of_filter in E as [[_ <-] Hin]. destruct p. by apply po_means.
Qed.

Lemma vop_elem k op : vop po k = Some op -> op ∈ po.*2 /\ op_key op = k /\ whole op /\ exists l, about k po.*2 = l ++ [op].
Proof.
  intros E. unfold vop in E. pose proof E as E'. apply last_Some in E' as [l El].
  rewrite fmap_last in E. destruct (list.last (filter _ po)) as [[p op']|] eqn:Ep; [|done]. injection E as ->.
  pose proof (last_Some_elem_of _ _ Ep) as [Hv Hin]%list_elem_of_filter. cbn in Hv. pose proof (po_means _ _ Hin) as Hm.
  pose proof (means_kind _ _ _ Hm) as Hkind. rewrite decide_False in Hkind by apply Hv.
  split_and!; [by apply (list_elem_of_fmap_2' snd _ (p, op))|rewrite (means_key _ _ _ Hm); apply Hv|apply Hkind|].
  exists l. by rewrite (about_value k p op Hm Hv).
Qed.

Lemma vop_last_value k op : vop po k = Some op -> exists v, last_value po.*1 k = Some v /\ UserMeta v <> EntryTypeRow.
Proof.
  unfold last_value, vop. rewrite filter_map, !fmap_last. destruct (list.last (filter _ po)) as [[p op']|] eqn:E; cbn; [|done]. intros _.
  exists p.2. split; [done|]. by apply last_Some_elem_of, list_elem_of_filter in E as [[? _] _].
Qed.

Lemma vop_none k op : ~ row_key k -> vop po k = None -> op ∈ po.*2 -> op_key op <> k.
Proof.
  intros Hr Hv ([p op'] & -> & Hin)%list_elem_of_fmap Hk. pose proof (po_means _ _ Hin) as Hm. cbn [snd] in *.
  rewrite (means_key _ _ _ Hm) in Hk. unfold vop in Hv. apply last_None, fmap_nil_inv in Hv.
  assert ((p, op') ∈ filter (fun x => value_put k x.1) po) as Hf; [|rewrite Hv in Hf; by apply elem_of_nil in Hf].
  apply list_elem_of_filter. split; [|done]. split; [|done]. cbn. intros Hrp. apply means_kind in Hm. rewrite decide_True in Hm by done.
  apply Hr. by rewrite <- Hk.
Qed.

Lemma about_whole k op : ~ row_key k -> op ∈ about k po.*2 -> whole op /\ op_obj op /\ op_key op = k.
Proof.
  intros Hr [Hk ([p op'] & -> & Hin)%list_elem_of_fmap]%list_elem_of_filter. pose proof (po_means _ _ Hin) as Hm. cbn [snd] in *.
  pose proof (means_ok _ _ _ Hm) as [_ Ho]. pose proof (means_key _ _ _ Hm) as Hk'. apply means_kind in Hm. split_and!; [|done..].
  destruct (decide (row_put p)); [|tauto]. destruct Hr. congruence.
Qed.

Lemma row_os_elem k op : op ∈ row_os po k -> op ∈ po.*2 /\ op_key op = k.
Proof.
  unfold row_os. intros ([p op'] & -> & [[_ <-] Hin]%list_elem_of_filter)%list_elem_of_fmap. cbn [snd fst].
  split; [by apply (list_elem_of_fmap_2' snd _ (p, op'))|]. by eapply means_key, po_means.
Qed.
End operations.

(** ** The entries of the table *)

Section table.
Context {L F : Type} `{SkipListLaws L} `{BloomLaws F}.

Lemma entry_value_ts (t : MemTable L F) puts e : table_of t puts -> e ∈ skl_entries (skipList t) -> ~ row_put (put_of e) -> e.1.2 = 0.
Proof.
  intros Ht He Hnr. destruct e as [[k ts] v]. cbn in *. destruct (decide (ts = 0)) as [->|Hne]; [done|].
  destruct (to_rows _ _ Ht) as (st & Hst & _ & _ & Hin). apply Hin in He; [|done].
  destruct Hnr. apply (list_elem_of_fmap_2' snd _ _ (k, v)) in He; [|done]. rewrite Hst in He. by apply list_elem_of_filter in He as [? _].
Qed.

Lemma entry_value (t : MemTable L F) puts e : table_of t puts -> e ∈ skl_entries (skipList t) -> ~ row_put (put_of e) ->
  last_value puts e.1.1 = Some e.2.
Proof.
  intros Ht He Hnr. pose proof (entry_value_ts _ _ _ Ht He Hnr) as Hts. destruct e as [[k ts] v]. cbn in *. subst ts. by apply (to_values _ _ Ht).
Qed.

Lemma entry_row (t : MemTable L F) puts e : table_of t puts -> e ∈ skl_entries (skipList t) -> row_put (put_of e) -> put_of e ∈ puts.
Proof.
  intros Ht He Hr. destruct e as [[k ts] v]. unfold put_of in *. cbn in *. destruct (decide (ts = 0)) as [->|Hne].
  - apply (to_values _ _ Ht) in He. unfold last_value in He. apply last_Some_elem_of, list_elem_of_fmap in He as ([k' v'] & -> & [[Hnr _] _]%list_elem_of_filter).
    by destruct Hnr.
  - destruct (to_rows _ _ Ht) as (st & Hst & _ & _ & Hin). apply Hin in He; [|done].
    apply (list_elem_of_fmap_2' snd _ _ (k, v)) in He; [|done]. rewrite Hst in He. by apply list_elem_of_filter in He as [_ ?].
Qed.

Lemma row_entry (t : MemTable L F) puts p : table_of t puts -> p ∈ puts -> row_put p -> p.1 ∈ row_keys (skl_entries (skipList t)).
Proof.
  intros Ht Hp Hr. destruct (to_rows _ _ Ht) as (st & Hst & _ & Hpos & Hin).
  assert (p ∈ st.*2) as Hs by (rewrite Hst; by apply list_elem_of_filter).
  apply list_elem_of_fmap in Hs as ([ts [k v]] & -> & Hs). rewrite Forall_forall in Hpos. pose proof (Hpos _ Hs) as Hts. cbn in Hts.
  apply Hin in Hs; [|lia]. unfold row_keys. rewrite <- list_fmap_compose. apply list_elem_of_fmap.
  exists ((k, ts), v). split; [done|]. by apply list_elem_of_filter.
Qed.

Lemma row_keys_elem E k : k ∈ row_keys E <-> exists e, e ∈ E /\ row_put (put_of e) /\ e.1.1 = k.
Proof.
  unfold row_keys. rewrite <- list_fmap_compose, list_elem_of_fmap. setoid_rewrite list_elem_of_filter. naive_solver.
Qed.

Context `{FlatBuffers} (Lg : wal_log) (po : put_ops) (t : MemTable L F).
Hypothesis (Hpo : Forall (fun x => means Lg x.1 x.2) po) (Ht : table_of t po.*1).

Lemma values_mean E : (forall e, e ∈ E -> e ∈ skl_entries (skipList t)) ->
  exists vos, Forall2 (fun e op => means Lg (put_of e) op) (values E) vos /\
    (forall op, op ∈ vos -> exists e, e ∈ values E /\ vop po e.1.1 = Some op) /\
    (forall e, e ∈ values E -> exists op, op ∈ vos /\ vop po e.1.1 = Some op).
Proof.
  intros HE. assert (forall e, e ∈ values E -> exists op, vop po e.1.1 = Some op /\ means Lg (put_of e) op) as Hv.
  { intros e [Hnr He]%list_elem_of_filter. apply (last_value_vop Lg po Hpo). apply (entry_value t); [done|by apply HE|done]. }
  induction (values E) as [|e l IH]; [exists []; split_and!; [done|by intros ? ?%elem_of_nil..]|].
  destruct IH as (vos & Hf & H1' & H2'); [intros e' He'; apply Hv; by right|]. destruct (Hv e) as (op & Hop & Hm); [by left|].
  exists (op :: vos). split_and!; [by constructor| |].
  - intros o [->|Ho]%elem_of_cons; [exists e; split; [by left|done]|]. destruct (H1' o Ho) as (e' & He' & Hvo). exists e'. split; [by right|done].
  - intros e' [->|He']%elem_of_cons; [exists op; split; [by left|done]|]. destruct (H2' e' He') as (o & Ho & Hvo). exists o. split; [by right|done].
Qed.

Lemma row_has_key k : k ∈ row_keys (skl_entries (skipList t)) -> row_key k.
Proof.
  intros (e & He & Hr & <-)%row_keys_elem. pose proof (entry_row t _ e Ht He Hr) as ([p op] & Hp & Hin)%list_elem_of_fmap.
  pose proof (po_means Lg po Hpo _ _ Hin) as Hm%means_kind. cbn in Hp. subst p. by rewrite decide_True in Hm.
Qed.

Lemma row_means k : row_key k -> Forall2 (fun v op => means Lg (k, v) op) (GetRowYValue t k) (row_os po k).
Proof.
  intros Hk. rewrite (GetRowYValue_spec t po.*1 k Ht).
  assert (last_value po.*1 k = None) as ->.
  { destruct (last_value po.*1 k) as [v|] eqn:E; [|done]. exfalso. pose proof E as E'. unfold last_value in E'.
    apply last_Some_elem_of, list_elem_of_fmap in E' as (p & _ & [[Hnr Hpk] Hin]%list_elem_of_filter).
    apply list_elem_of_fmap in Hin as ([p' op] & -> & Hin). pose proof (po_means Lg po Hpo _ _ Hin) as Hm%means_kind.
    cbn in *. rewrite decide_False in Hm by done. subst k. tauto. }
  cbn [of_option app]. unfold row_values, row_os. rewrite filter_map. revert Hpo. clear. induction 1 as [|[p op] po' Hm _ IH]; [constructor|].
  rewrite filter_cons. cbn [fst snd] in *. case_decide as Hd; [|apply IH]. cbn. constructor; [|apply IH]. destruct Hd as [_ <-]. by destruct p.
Qed.

Lemma rows_mean k : k ∈ row_keys (skl_entries (skipList t)) ->
  Forall2 (fun v op => means Lg (k, v) op) (GetRowYValue t k) (row_os po k).
Proof. intros Hk. by apply row_means, row_has_key. Qed.

(** ** The operations a flush applies have the effect of all puts *)

Lemma about_rows k rows : NoDup rows -> about k (rows ≫= row_os po) = if decide (k ∈ rows) then row_os po k else [].
Proof.
  assert (forall k', about k (row_os po k') = if decide (k' = k) then row_os po k else []) as Hone.
  { intros k'. unfold about. case_decide as Hk.
    - subst k'. apply filter_all. intros op Hop. by apply (row_os_elem Lg po Hpo) in Hop as [_ ?].
    - apply filter_none. intros op Hop. apply (row_os_elem Lg po Hpo) in Hop as [_ ->]. done. }
  induction 1 as [|row rows Hni Hnd IH]; [done|]. rewrite bind_cons, about_app, Hone, IH.
  destruct (decide (row = k)) as [->|Hne].
  - rewrite (decide_False (P := k ∈ rows)), (decide_True (P := k ∈ k :: rows)) by (done || by left). by rewrite app_nil_r.
  - cbn [app]. case_decide as Hi; case_decide as Hi'; set_solver.
Qed.

Lemma effs_const op l k : (forall o, o ∈ l -> o = op) -> l <> [] -> effs l k = effs [op] k.
Proof.
  intros Hl Hne. rewrite effs_one. induction l as [|o l IH]; [done|]. rewrite (Hl o) by by left. rewrite effs_cons.
  destruct l as [|o' l]; [by destruct (eff op k)|]. rewrite IH; [by destruct (eff op k)| |done]. intros o2 Ho2. apply Hl. by right.
Qed.

Lemma flush_list_ok vos rows : (forall op, op ∈ vos -> exists k, vop po k = Some op) ->
  forall op, op ∈ vos ++ (rows ≫= row_os po) -> op ∈ po.*2.
Proof.
  intros Hv op [(k & Hk)%Hv|(row & Hop & _)%list_elem_of_bind]%elem_of_app; [by apply (vop_elem Lg po Hpo) in Hk as [? _]|].
  by apply (row_os_elem Lg po Hpo) in Hop as [? _].
Qed.

Lemma sub_ok part : (forall op, op ∈ part -> op ∈ po.*2) -> ops_ok part.
Proof.
  intros Hsub. pose proof (po_ok Lg po Hpo) as Hok. unfold ops_ok in *. rewrite Forall_forall in Hok |- *. intros op Hop. by apply Hok, Hsub.
Qed.

Lemma flush_same vos rows : NoDup rows -> (forall k, k ∈ rows <-> k ∈ row_keys (skl_entries (skipList t))) ->
  (forall op, op ∈ vos -> exists e, e ∈ values (skl_entries (skipList t)) /\ vop po e.1.1 = Some op) ->
  (forall e, e ∈ values (skl_entries (skipList t)) -> exists op, op ∈ vos /\ vop po e.1.1 = Some op) ->
  forall k, effs (vos ++ (rows ≫= row_os po)) k = effs po.*2 k.
Proof.
  intros Hnd Hrows Hv1 Hv2. pose proof (po_ok Lg po Hpo) as Hok.
  assert (forall op, op ∈ vos -> exists k, vop po k = Some op) as Hv3 by (intros op (e & _ & He)%Hv1; by eexists).
  apply same_about_same_effs; [by apply sub_ok, flush_list_ok|done|]. intros key k Hown. rewrite about_app, about_rows by done.
  assert (row_key key \/ ~ row_key key) as [Hr|Hr].
  { destruct Hown as [Hk _|Hk _|Hk _|i Hk _ _]; [right|by left|right..]; intros Hr; apply row_head in Hr;
      first [by rewrite (value_head _ Hk) in Hr | by rewrite (blob_head _ Hk) in Hr]. }
  - assert (about key vos = []) as ->.
    { apply filter_none. intros op (e & He & Hop)%Hv1 Hkey. apply (vop_elem Lg po Hpo) in Hop as Hop'. destruct Hop' as (_ & Hk & _).
      apply list_elem_of_filter in He as [Hnr He]. pose proof (entry_value t _ e Ht He Hnr) as Hlast.
      destruct (last_value_vop Lg po Hpo _ _ Hlast) as (op' & _ & Hm%means_kind). rewrite decide_False in Hm by done. cbn in Hm. apply Hm. congruence. }
    rewrite (about_row Lg po Hpo) by done. cbn [app]. case_decide as Hin; [done|]. unfold row_os.
    rewrite (filter_none (fun x => row_put_of key x.1)); [done|]. intros [p op] Hp [Hrp Hpk]. apply Hin, Hrows. cbn in *. subst key. eapply row_entry; [done| |done].
    by apply (list_elem_of_fmap_2' fst _ (p, op)).
  - rewrite decide_False by (intros Hin; by apply Hr, row_has_key, Hrows). rewrite app_nil_r.
    destruct (vop po key) as [op|] eqn:Hop.
    + destruct (vop_elem Lg po Hpo _ _ Hop) as (_ & Hopk & _ & l & Hl). rewrite Hl, last_whole.
      * apply effs_const.
        -- intros o [Hk (e & _ & He)%Hv1]%list_elem_of_filter. pose proof (vop_elem Lg po Hpo _ _ He) as (_ & Hk' & _).
           rewrite <- Hk', Hk, Hop in He. by injection He.
        -- destruct (vop_last_value po _ _ Hop) as (v & Hlast & Hnr). apply (to_values _ _ Ht) in Hlast.
           destruct (Hv2 ((key, 0), v)) as (o & Ho & Hvo); [by apply list_elem_of_filter|]. cbn in Hvo. rewrite Hop in Hvo. injection Hvo as ->.
           apply (elem_of_not_nil o). by apply list_elem_of_filter.
      * rewrite <- Hl. apply Forall_forall. intros o Ho. rewrite Hopk. by apply (about_whole Lg po Hpo).
    + unfold about. rewrite !filter_none; [done| |].
      * intros o Ho. by apply (vop_none Lg po Hpo).
      * intros o (e & _ & He)%Hv1 Hk. pose proof (vop_elem Lg po Hpo _ _ He) as (_ & Hk' & _). congruence.
Qed.
End table.

(** ** Flush *)

Section flush.
Context {L F W R D : Type} `{SkipListLaws L} `{BloomLaws F} `{WalLaws W R} `{BTreeLaws D} `{FlatBuffers}.
Context (fuel : nat) (w : W) (nw : nat) (Lg : wal_log) (m md : kvmap) (po : put_ops) (t : MemTable L F) (d : D).
Hypothesis (Hw : wl_repr nw w Lg) (Hfuel : (length Lg < fuel)%nat) (Hlobs : lobs_ok m) (Hd : ds_repr d m md).
Hypothesis (Hpo : Forall (fun x => means Lg x.1 x.2) po) (Ht : table_of t po.*1).
Context (order : list bytes -> list bytes) (Horder : forall l, order l ≡ₚ l).

Definition some_applied (d' : D) : Prop :=
  exists part, (forall op, op ∈ part -> op ∈ po.*2) /\ ds_repr d' (foldl a_queued m part) md.

Lemma applied_some ops d' : (forall op, op ∈ ops -> op ∈ po.*2) -> applied m md ops d' -> some_applied d'.
Proof. intros Hsub (dn & rest & -> & Hd'). exists dn. split; [|done]. intros op Hop. apply Hsub, elem_of_app. by left. Qed.

Lemma new_batch : batch m md [] (ds_NewTxnQueue dbBatchSize) d.
Proof. destruct (ds_NewTxnQueue_law dbBatchSize) as [He Hq]. exists []. by rewrite Hq. Qed.

(** The rest of [Flush], after a first loop that queued [vos]. *)
Definition after_values (rows : list bytes) (q : TxnQueue) (d1 : D) (n : Z) (err : option flush_error)
  : outcome (MemTable L F * D * result flush_error Z) :=
  '(q, d, n, err) ← flush_rows fuel w t (order rows) q d1 n err;
  let table := with_chunkedFlushed n t in
  match err with
  | Some e => Ret (table, d, Err e)
  | None =>
      '(q, d, e) ← ds_txn CCommit q d;
      match e with
      | Some e => Ret (table, d, Err (FlushKV e))
      | None => Ret (table, d, Ok (offsetCount table + chunkedFlushed table))
      end
  end.

Lemma with_chunkedFlushed_table n puts : table_of t puts -> table_of (with_chunkedFlushed n t) puts.
Proof. by intros []. Qed.

Lemma commit_result vos rows q d1 n : (forall op, op ∈ vos -> exists k, vop po k = Some op) ->
  (forall k, k ∈ rows -> k ∈ row_keys (skl_entries (skipList t))) -> batch m md vos q d1 ->
  exists n' d' r, after_values rows q d1 n None = Ret (with_chunkedFlushed n' t, d', r) /\
    match r with
    | Ok _ => ds_repr d' (foldl a_queued m (vos ++ (order rows ≫= row_os po))) md
    | Err e => (exists x, e = FlushKV x) /\ some_applied d'
    end.
Proof.
  intros Hv Hrows Hb. pose proof (flush_list_ok Lg po Hpo vos (order rows) Hv) as Hsub.
  assert (ops_ok (vos ++ (order rows ≫= row_os po))) as Hok by by apply (sub_ok Lg po Hpo).
  assert (ops_ok vos) as Hokv by by apply Forall_app in Hok as [? _].
  destruct (flush_rows_result fuel w nw Lg m md Hw Hfuel Hlobs t (row_os po) (order rows) vos q d1 n) as (q' & d' & n' & e & Hrun & He); [|done..|].
  { apply Forall_forall. intros k Hk. rewrite (Horder rows) in Hk. by apply rows_mean, Hrows. }
  unfold after_values. rewrite Hrun. cbn [mbind outcome_bind]. destruct e as [e|].
  - destruct He as [Ha (x & -> & _)]. exists n', d', (Err (FlushKV x)). split; [done|]. split; [by exists x|]. by eapply applied_some.
  - destruct (txn_step m md _ q' d' CCommit He) as (q2 & d2 & e & Hcall & He'); [by rewrite app_nil_r|done|]. rewrite Hcall. cbn [mbind outcome_bind].
    rewrite app_nil_r in He'. destruct e as [e|].
    + exists n', d2, (Err (FlushKV e)). split; [done|]. split; [by exists e|]. destruct He' as [Ha _]. by eapply applied_some.
    + exists n', d2, (Ok (offsetCount t + n')). split; [done|]. destruct He' as [(dn & Heq & Hd2 & _) Hq]. rewrite Hq, app_nil_r in Heq by done. by subst dn.
Qed.

Lemma stopped_result vos rows q d1 n x : (forall op, op ∈ vos -> exists k, vop po k = Some op) ->
  (forall k, k ∈ rows -> k ∈ row_keys (skl_entries (skipList t))) -> applied m md vos d1 -> q_err q = Some x ->
  exists d', after_values rows q d1 n (Some (FlushKV x)) = Ret (with_chunkedFlushed n t, d', Err (FlushKV x)) /\ some_applied d'.
Proof.
  intros Hv Hrows (dn & rest & Heq & Hd1) Hq.
  destruct (flush_rows_sticky fuel w nw Lg md Hw Hfuel t (row_os po) (foldl a_queued m dn) (order rows) q d1 n x) as (d' & Hrun & Hd'); [|done..|].
  { apply Forall_forall. intros k Hk. rewrite (Horder rows) in Hk. by apply rows_mean, Hrows. }
  unfold after_values. rewrite Hrun. exists d'. split; [done|]. exists dn. split; [|done].
  intros op Hop. destruct (Hv op) as (k & Hk); [subst vos; apply elem_of_app; by left|]. by apply (vop_elem Lg po Hpo) in Hk as [? _].
Qed.

(** The first loop over a part of the entries. *)
Lemma values_result E ctx : (forall e, e ∈ E -> e ∈ skl_entries (skipList t)) -> (forall i, (i < length E)%nat -> ctx i = false) ->
  exists vos E1 E2 q' d' n' e, E = E1 ++ E2 /\
    flush_values fuel w ctx (as_item <$> E) [] (ds_NewTxnQueue dbBatchSize) d (chunkedFlushed t) None =
      Ret (foldl (fun rs k => add_row k rs) [] (row_keys E1), q', d', n', e) /\
    (forall op, op ∈ vos -> exists e, e ∈ values E /\ vop po e.1.1 = Some op) /\
    (forall e, e ∈ values E -> exists op, op ∈ vos /\ vop po e.1.1 = Some op) /\
    match e with
    | None => E2 = [] /\ batch m md vos q' d'
    | Some e => applied m md vos d' /\ exists x, e = FlushKV x /\ q_err q' = Some x
    end.
Proof.
  intros HE Hctx. destruct (values_mean Lg po t Hpo Ht E HE) as (vos & Hm & Hv1 & Hv2).
  assert (Forall (fun e => timestamp e.1.2) E) as Hts.
  { pose proof (skl_stamped (skipList t)) as Hst. rewrite Forall_forall in Hst |- *. intros e He. by apply Hst, HE. }
  destruct (flush_values_result fuel w nw Lg m md Hw Hfuel Hlobs E ctx vos [] [] _ d (chunkedFlushed t) Hts Hm Hctx new_batch) as
    (E1 & E2 & q' & d' & n' & e & -> & Hrun & He); [constructor|].
  by exists vos, E1, E2, q', d', n', e.
Qed.

Lemma row_keys_app E1 E2 k : k ∈ row_keys E1 -> k ∈ row_keys (E1 ++ E2).
Proof. intros (e & He & Hr & <-)%row_keys_elem. apply row_keys_elem. exists e. split; [apply elem_of_app; by left|done]. Qed.

Lemma Flush_unfold ctx : Flush fuel w ctx order t d =
  '(rows, q, d, n, err) ← flush_values fuel w ctx (as_item <$> skl_entries (skipList t)) [] (ds_NewTxnQueue dbBatchSize) d (chunkedFlushed t) None;
  after_values rows q d n err.
Proof. unfold Flush. by rewrite skl_SeekToFirst_law. Qed.

Lemma Flush_spec : exists n' d' r, Flush fuel w (fun _ => false) order t d = Ret (with_chunkedFlushed n' t, d', r) /\
  match r with
  | Ok _ => ds_repr d' (foldl a_queued m po.*2) md
  | Err e => (exists x, e = FlushKV x) /\ some_applied d'
  end.
Proof.
  destruct (values_result (skl_entries (skipList t)) (fun _ => false)) as (vos & E1 & E2 & q' & d1 & n' & e & HE & Hrun & Hv1 & Hv2 & He); [done..|].
  rewrite Flush_unfold, Hrun. cbn [mbind outcome_bind].
  assert (forall op, op ∈ vos -> exists k, vop po k = Some op) as Hv by (intros op (e' & _ & He')%Hv1; by eexists).
  destruct (add_rows (row_keys E1) [] (NoDup_nil_2)) as [Hnd Hin].
  assert (forall k, k ∈ foldl (fun rs k => add_row k rs) [] (row_keys E1) -> k ∈ row_keys (skl_entries (skipList t))) as Hrows.
  { intros k [Hk%elem_of_nil|Hk]%Hin; [done|]. rewrite HE. by apply row_keys_app. }
  destruct e as [e|].
  - destruct He as [Ha (x & -> & Hx)]. destruct (stopped_result vos _ q' d1 n' x Hv Hrows Ha Hx) as (d' & -> & Hs).
    exists n', d', (Err (FlushKV x)). split; [done|]. split; [by exists x|done].
  - destruct He as [-> Hb]. rewrite app_nil_r in HE.
    destruct (commit_result vos _ q' d1 n' Hv Hrows Hb) as (n2 & d' & r & -> & Hr). exists n2, d', r. split; [done|].
    destruct r as [z|e]; [|done]. erewrite same_effs_same_result; [exact Hr|by apply (po_ok Lg)| |done|].
    + by eapply sub_ok, flush_list_ok.
    + intros k. symmetry. eapply flush_same; try done.
      * by rewrite (Horder _).
      * intros k'. rewrite (Horder _), Hin, HE. rewrite elem_of_nil. tauto.
Qed.

(** ** A cancelled context *)

Lemma row_has_entries k : k ∈ row_keys (skl_entries (skipList t)) -> GetRowYValue t k <> [].
Proof.
  intros (e & He & Hr & <-)%row_keys_elem. pose proof (entry_row t _ e Ht He Hr) as Hp. rewrite (GetRowYValue_spec t po.*1 _ Ht).
  intros [_ Hnil]%app_nil. unfold row_values in Hnil. apply fmap_nil_inv in Hnil.
  assert (put_of e ∈ filter (row_put_of e.1.1) po.*1) as Hf by by apply list_elem_of_filter. rewrite Hnil in Hf. by apply elem_of_nil in Hf.
Qed.

(** The second loop forgets the error of the first one. *)
Lemma flush_rows_forget rows q d1 n err : rows <> [] -> (forall k, k ∈ rows -> GetRowYValue t k <> []) ->
  flush_rows fuel w t rows q d1 n err = flush_rows (D := D) fuel w t rows q d1 n None.
Proof.
  destruct rows as [|row rows]; [done|]. intros _ Hk. cbn [flush_rows]. specialize (Hk row ltac:(by left)).
  by destruct (GetRowYValue t row) as [|v vs].
Qed.

Lemma values_apart E1 e0 E2 e e' : skl_entries (skipList t) = E1 ++ e0 :: E2 -> e' ∈ E1 -> e ∈ e0 :: E2 ->
  ~ row_put (put_of e) -> ~ row_put (put_of e') -> e'.1.1 <> e.1.1.
Proof.
  intros HE H1' H2' Hnr Hnr' Hk. pose proof (skl_sorted (skipList t)) as Hs. rewrite HE, fmap_app in Hs. apply StronglySorted_app in Hs as [Hs _].
  assert (e'.1.2 = 0 /\ e.1.2 = 0) as [Ht1 Ht2].
  { split; (eapply entry_value_ts; [exact Ht| |done]); rewrite HE; apply elem_of_app; auto. }
  destruct (Hs e'.1 e.1) as [Hlt|[_ Hlt]]; [by apply list_elem_of_fmap_2| |rewrite Hk in Hlt; by apply bytes_lt_irrefl in Hlt|lia].
  by apply (list_elem_of_fmap_2 fst (e0 :: E2)).
Qed.

(** A cancelled context is noticed only when no row has been seen. *)
Lemma Flush_cancelled E1 e0 E2 ctx : skl_entries (skipList t) = E1 ++ e0 :: E2 -> (forall i, (i < length E1)%nat -> ctx i = false) -> ctx (length E1) = true ->
  row_keys E1 <> [] ->
  exists n' d' r, Flush fuel w ctx order t d = Ret (with_chunkedFlushed n' t, d', r) /\
    match r with
    | Ok _ => exists part, ds_repr d' (foldl a_queued m part) md /\ ops_ok part /\
        forall e, e ∈ e0 :: E2 -> ~ row_put (put_of e) -> forall op, op ∈ part -> op_key op <> e.1.1
    | Err e => exists x, e = FlushKV x
    end.
Proof.
  intros HE Hno Hyes Hrow. assert (forall e, e ∈ E1 -> e ∈ skl_entries (skipList t)) as Hsub by (intros e He; rewrite HE; apply elem_of_app; by left).
  destruct (values_result E1 ctx Hsub Hno) as (vos & Ea & Eb & q' & d1 & n' & e & HE1 & Hrun & Hv1 & Hv2 & He).
  rewrite Flush_unfold, HE, fmap_app, fmap_cons, flush_values_cut by (rewrite length_fmap; done). rewrite Hrun. cbn [mbind outcome_bind].
  assert (forall op, op ∈ vos -> exists k, vop po k = Some op) as Hv by (intros op (e' & _ & He')%Hv1; by eexists).
  destruct (add_rows (row_keys Ea) [] (NoDup_nil_2)) as [Hnd Hin]. set (rows := foldl _ [] (row_keys Ea)) in *.
  assert (forall k, k ∈ rows -> k ∈ row_keys (skl_entries (skipList t))) as Hrows.
  { intros k [Hk%elem_of_nil|Hk]%Hin; [done|]. rewrite HE, HE1, <- app_assoc. by apply row_keys_app. }
  destruct e as [e|].
  - destruct He as [Ha (x & -> & Hx)]. destruct (stopped_result vos rows q' d1 n' x Hv Hrows Ha Hx) as (d' & -> & Hs).
    exists n', d', (Err (FlushKV x)). split; [done|]. by exists x.
  - destruct He as [-> Hb]. rewrite app_nil_r in HE1. subst Ea.
    assert (after_values rows q' d1 n' (Some FlushCtx) = after_values rows q' d1 n' None) as ->.
    { unfold after_values. rewrite flush_rows_forget; [done| |intros k Hk; rewrite (Horder rows) in Hk; by apply row_has_entries, Hrows].
      intros Hnil. pose proof (Horder rows) as Hp. rewrite Hnil in Hp. apply Permutation_nil_l in Hp.
      destruct (row_keys E1) as [|k ks] eqn:Ek; [done|]. assert (k ∈ rows) as Hk by (apply Hin; right; by left). rewrite <- Hp in Hk. by apply elem_of_nil in Hk. }
    destruct (commit_result vos rows q' d1 n' Hv Hrows Hb) as (n2 & d' & r & -> & Hr). exists n2, d', r. split; [done|].
    destruct r as [z|e]; [|by destruct Hr]. eexists. split; [exact Hr|]. split; [by eapply sub_ok, flush_list_ok|].
    intros e2 He2 Hnr op [(e' & He' & Hop)%Hv1|(row & Hop & Hrowin)%list_elem_of_bind]%elem_of_app Hk.
    + apply (vop_elem Lg po Hpo) in Hop as (_ & Hk' & _). apply list_elem_of_filter in He' as [Hnr' He'].
      apply (values_apart E1 e0 E2 e2 e' HE He' He2 Hnr Hnr'). congruence.
    + apply (row_os_elem Lg po Hpo) in Hop as [_ Hk']. rewrite (Horder rows) in Hrowin. apply Hrows in Hrowin. apply (row_has_key Lg po t Hpo Ht) in Hrowin.
      assert (e2 ∈ skl_entries (skipList t)) as Hin2 by (rewrite HE; apply elem_of_app; by right).
      pose proof (entry_value t _ e2 Ht Hin2 Hnr) as Hlast. destruct (last_value_vop Lg po Hpo _ _ Hlast) as (op' & _ & Hm%means_kind).
      rewrite decide_False in Hm by done. cbn in Hm. apply Hm. congruence.
Qed.


(** When the context of a flush is cancelled after the iteration has
    passed an entry of a row, the flush does not report it.  Rows come first in
    the iteration, so when it reports success the values that were not reached
    have been left out of the store. *)
Theorem cancelled_flush_drops_values E1 e0 E2 ctx :
  skl_entries (skipList t) = E1 ++ e0 :: E2 -> (forall i, (i < length E1)%nat -> ctx i = false) -> ctx (length E1) = true ->
  row_keys E1 <> [] ->
  exists t' d' r, Flush fuel w ctx order t d = Ret (t', d', r) /\
    match r with
    | Ok _ => exists m', ds_repr d' m' md /\
        forall e, e ∈ e0 :: E2 -> ~ row_put (put_of e) -> forall k, owner e.1.1 k -> m' !! k = m !! k
    | Err e => exists x, e = FlushKV x
    end.
Proof.
  intros HE Hno Hyes Hrow. destruct (Flush_cancelled E1 e0 E2 ctx HE Hno Hyes Hrow) as (n' & d' & r & Hr & Hres).
  eexists _, d', r. split; [done|]. destruct r as [z|e]; [|done]. destruct Hres as (part & Hd' & Hok & Hpart).
  eexists. split; [exact Hd'|]. intros e He Hnr k Hown. destruct (queued_all_eff part m Hok Hlobs) as [_ ->].
  rewrite (effs_about e.1.1) by done. unfold about. rewrite filter_none; [done|]. by apply Hpart.
Qed.
End flush.

(** ** Examples *)

Definition two_puts : list (Z * put) :=
  [(5, ([Byte.xfe; Byte.x01], mkValue LogOperationInsert EntryTypeKV [Byte.x11]));
   (6, (RowKey [Byte.x01], mkValue LogOperationDeleteRowByKey EntryTypeRow []))].

Definition two_ops : list queued_op := [QPutKV [Byte.xfe; Byte.x01] [[Byte.x11]] 0; QDeleteRow (RowKey [Byte.x01])].

Definition sample_table : MemTable map_list (list bytes) :=
  match put_until (NewMemTable 4096) two_puts with Ret (t, _, _) => t | _ => NewMemTable 0 end.

Lemma sample_table_of : table_of sample_table (zip two_puts.*2 two_ops).*1.
Proof.
  destruct (put_until_spec two_puts (NewMemTable (L := map_list) (F := list bytes) 4096) [] (new_table 4096)) as (t & acc & rest & Hr & Heq & Ht & _);
    [by apply (bool_decide_unpack _)|by vm_compute|].
  assert (match put_until (NewMemTable (L := map_list) (F := list bytes) 4096) two_puts with Ret (_, _, rest) => length rest | _ => 1%nat end = 0%nat) as Hlen
    by (vm_compute; reflexivity).
  unfold sample_table. rewrite Hr in Hlen |- *. destruct rest; [|done]. rewrite app_nil_r in Heq. rewrite fst_zip by done. rewrite Heq. exact Ht.
Qed.

Lemma sample_means : Forall (fun x => @means demo_codec [] x.1 x.2) (zip two_puts.*2 two_ops).
Proof.
  repeat constructor. cbn. exists [Byte.x01]. split; [by vm_compute|done].
Qed.


Definition row_entry_of_sample : version * ValueStruct := ((RowKey [Byte.x01], 6), mkValue LogOperationDeleteRowByKey EntryTypeRow []).
Definition value_entry_of_sample : version * ValueStruct := (([Byte.xfe; Byte.x01], 0), mkValue LogOperationInsert EntryTypeKV [Byte.x11]).

(** The context is cancelled before the second entry: the value is gone although the flush has succeeded. *)
Lemma cancelled_flush_drops_values_witness : exists (w : WalWorld) t' d' z m',
  @Flush _ _ _ _ _ _ _ _ _ demo_codec 1 w (fun i => bool_decide (i = 1%nat)) (fun l => l) sample_table (sample_store ∅) = Ret (t', d', Ok z) /\
  ds_repr d' m' ∅ /\ m' !! [Byte.xfe; Byte.x01] = None.
Proof.
  destruct sample_log as [w Hw]. exists w.
  destruct (@cancelled_flush_drops_values _ _ _ _ _ _ _ _ _ _ _ _ _ demo_codec 1 w 1000 [] ∅ ∅ (zip two_puts.*2 two_ops) sample_table (sample_store ∅)
    Hw ltac:(cbn; lia) lobs_ok_empty (sample_store_repr ∅) sample_means sample_table_of (fun l => l) ltac:(done)
    [row_entry_of_sample] value_entry_of_sample [] (fun i => bool_decide (i = 1%nat)))
    as (t' & d' & r & Hr & Hres).
  - vm_compute. reflexivity.
  - intros i Hi. cbn in Hi. apply bool_decide_eq_false. lia.
  - reflexivity.
  - discriminate.
  - destruct r as [z|e].
    + destruct Hres as (m' & Hd & Hm). exists t', d', z, m'. split; [exact Hr|]. split; [exact Hd|]. apply (Hm value_entry_of_sample); [by left|done|].
      by apply own_value.
    + exfalso. assert (match @Flush _ _ _ _ _ _ _ _ _ demo_codec 1 w (fun i => bool_decide (i = 1%nat)) (fun l => l) sample_table (sample_store ∅) with
        Ret (_, _, Ok _) => true | _ => false end = true) as Hs by (vm_compute; reflexivity).
      rewrite Hr in Hs. discriminate Hs.
Defined.
