(* ===== verification/Notify.v ===== *)
(** Waiting for appends: notifyAppend of dbkernel/engine.go and
    WaitForAppendOrDone of dbkernel/engine_public.go.

    [Notifier] is the state behind the notification, with the sequential
    operations the engine calls.  The step relation interleaves one writer (the
    engine's lock admits only one), the goroutines of coalesced notifications
    and any number of waiting readers, with the lock around the channel and the
    flag outside of it, as the code has them.  The goroutines' exit when the
    engine closes is left out: it is the one case in which nobody is woken. *)

From stdpp Require Import prelude list numbers.
From Stdlib Require Import ZArith Lia.
From S2P Require Import Prelude Bytes Segment.

(** ** Notifier *)

(** A channel is a number; [closed] are those that have been closed. *)
Record Notifier := mkNotifier {
  coalescing : bool;
  coalesceFlag : bool;
  appendNotify : option nat;
  closed : list nat;
  fresh : nat;
  sleeping : nat
}.

(** Close the channel, if there is one, and make a new one.  Closing a closed
    channel panics. *)
Definition fire (n : Notifier) : outcome Notifier :=
  match appendNotify n with
  | Some c =>
      if bool_decide (c ∈ closed n) then Panic else
      Ret (mkNotifier (coalescing n) (coalesceFlag n) (Some (fresh n)) (c :: closed n) (S (fresh n)) (sleeping n))
  | None => Ret (mkNotifier (coalescing n) (coalesceFlag n) (Some (fresh n)) (closed n) (S (fresh n)) (sleeping n))
  end.

Definition set_flag (b : bool) (n : Notifier) : Notifier :=
  mkNotifier (coalescing n) b (appendNotify n) (closed n) (fresh n) (sleeping n).

Definition add_sleeping (n : Notifier) : Notifier :=
  mkNotifier (coalescing n) (coalesceFlag n) (appendNotify n) (closed n) (fresh n) (S (sleeping n)).

Definition notifyAppend (n : Notifier) : outcome Notifier :=
  if negb (coalescing n) then fire n else
  if coalesceFlag n then Ret n else Ret (add_sleeping (set_flag true n)).

(** [current.SegmentID > lastSeen.SegmentID || ...] *)
Definition hasNewWriteSince (current : RecordPosition) (lastSeen : option RecordPosition) : bool :=
  match lastSeen with
  | None => true
  | Some l =>
      (SegmentID l <? SegmentID current) ||
      ((SegmentID current =? SegmentID l) && (Offset l <? Offset current))
  end.

(** [currentPos != nil && hasNewWriteSince(currentPos, lastSeen)] *)
Definition sees_new (current lastSeen : option RecordPosition) : bool :=
  match current with Some p => hasNewWriteSince p lastSeen | None => false end.

(** ** Interleaving *)

Inductive writer_pc := WIdle | WStored | WLocked.
Inductive timer_pc := GSleep | GLocked | GFired | GCleared.
Inductive waiter_pc := RLoad | RChan | RCheck (c : nat) | RBlocked (c : nat) | RReturned.

Record nstate := mkN {
  n_offset : option RecordPosition;
  n_coalescing : bool;
  n_flag : bool;
  n_chan : nat;
  n_closed : list nat;
  n_locked : bool;
  n_writer : writer_pc;
  n_timers : list timer_pc;
  n_waiters : list (option RecordPosition * waiter_pc)
}.

(** The lock is held: close the channel and make a new one. *)
Definition n_fire (s : nstate) : nstate :=
  mkN (n_offset s) (n_coalescing s) (n_flag s) (S (n_chan s)) (n_chan s :: n_closed s) (n_locked s) (n_writer s) (n_timers s) (n_waiters s).
Definition at_writer (pc : writer_pc) (s : nstate) : nstate :=
  mkN (n_offset s) (n_coalescing s) (n_flag s) (n_chan s) (n_closed s) (n_locked s) pc (n_timers s) (n_waiters s).
Definition at_timers (ts : list timer_pc) (s : nstate) : nstate :=
  mkN (n_offset s) (n_coalescing s) (n_flag s) (n_chan s) (n_closed s) (n_locked s) (n_writer s) ts (n_waiters s).
Definition at_waiter (i : nat) (l : option RecordPosition) (pc : waiter_pc) (s : nstate) : nstate :=
  mkN (n_offset s) (n_coalescing s) (n_flag s) (n_chan s) (n_closed s) (n_locked s) (n_writer s) (n_timers s) (<[i := (l, pc)]> (n_waiters s)).
Definition n_lock (b : bool) (s : nstate) : nstate :=
  mkN (n_offset s) (n_coalescing s) (n_flag s) (n_chan s) (n_closed s) b (n_writer s) (n_timers s) (n_waiters s).
Definition n_setflag (b : bool) (s : nstate) : nstate :=
  mkN (n_offset s) (n_coalescing s) b (n_chan s) (n_closed s) (n_locked s) (n_writer s) (n_timers s) (n_waiters s).
Definition n_store (p : RecordPosition) (s : nstate) : nstate :=
  mkN (Some p) (n_coalescing s) (n_flag s) (n_chan s) (n_closed s) (n_locked s) (n_writer s) (n_timers s) (n_waiters s).

(** The steps of notifications under way: the writer after its store, and the
    goroutines. *)
Inductive notify_step : nstate -> nstate -> Prop :=
| s_lock s : n_writer s = WStored -> n_coalescing s = false -> n_locked s = false ->
    notify_step s (at_writer WLocked (n_lock true s))
| s_fire s : n_writer s = WLocked -> notify_step s (at_writer WIdle (n_lock false (n_fire s)))
| s_cas_ok s : n_writer s = WStored -> n_coalescing s = true -> n_flag s = false ->
    notify_step s (at_writer WIdle (at_timers (n_timers s ++ [GSleep]) (n_setflag true s)))
| s_cas_fails s : n_writer s = WStored -> n_coalescing s = true -> n_flag s = true ->
    notify_step s (at_writer WIdle s)
| s_timer s i : n_timers s !! i = Some GSleep -> n_locked s = false ->
    notify_step s (at_timers (<[i := GLocked]> (n_timers s)) (n_lock true s))
| s_timer_fire s i : n_timers s !! i = Some GLocked ->
    notify_step s (at_timers (<[i := GFired]> (n_timers s)) (n_fire s))
| s_timer_clear s i : n_timers s !! i = Some GFired ->
    notify_step s (at_timers (<[i := GCleared]> (n_timers s)) (n_setflag false s))
| s_timer_unlock s i : n_timers s !! i = Some GCleared ->
    notify_step s (at_timers (delete i (n_timers s)) (n_lock false s)).

(** A new write, and the steps of a reader in [WaitForAppendOrDone]. *)
Inductive other_step : nstate -> nstate -> Prop :=
| s_store s p : n_writer s = WIdle -> (forall q, n_offset s = Some q -> hasNewWriteSince p (Some q) = true) ->
    other_step s (at_writer WStored (n_store p s))
| s_load s i l : n_waiters s !! i = Some (l, RLoad) ->
    other_step s (at_waiter i l (if sees_new (n_offset s) l then RReturned else RChan) s)
| s_chan s i l : n_waiters s !! i = Some (l, RChan) -> n_locked s = false ->
    other_step s (at_waiter i l (RCheck (n_chan s)) s)
| s_check s i l c : n_waiters s !! i = Some (l, RCheck c) ->
    other_step s (at_waiter i l (if sees_new (n_offset s) l then RReturned else RBlocked c) s)
| s_woken s i l c : n_waiters s !! i = Some (l, RBlocked c) -> c ∈ n_closed s ->
    other_step s (at_waiter i l RReturned s)
| s_cancelled s i l c : n_waiters s !! i = Some (l, RBlocked c) ->
    other_step s (at_waiter i l RReturned s)
| s_call s l : other_step s
    (mkN (n_offset s) (n_coalescing s) (n_flag s) (n_chan s) (n_closed s) (n_locked s) (n_writer s) (n_timers s) (n_waiters s ++ [(l, RLoad)])).

Definition nstep (s s' : nstate) : Prop := notify_step s s' \/ other_step s s'.

Definition n_start (coalescing : bool) (off : option RecordPosition) : nstate := mkN off coalescing false 0 [] false WIdle [] [].
Definition n_reachable (s : nstate) : Prop := exists b off, rtc nstep (n_start b off) s.
