(* ===== verification/NotifyFacts.v ===== *)
(** No wake-up is lost: a reader that waits although there is a write it has
    not seen is woken by the notifications under way, coalesced or not. *)

From stdpp Require Import prelude list numbers.
From Stdlib Require Import ZArith Lia.
From S2P Require Import Prelude Bytes Segment Notify.

(** ** Timers up to order *)

Definition held (g : timer_pc) : nat := match g with GSleep => 0 | _ => 1 end.

Lemma timers_split {A} (l : list A) i x : l !! i = Some x ->
  l ≡ₚ x :: delete i l /\ forall y, <[i := y]> l ≡ₚ y :: delete i l.
Proof.
  intros Hi. split; [by apply delete_Permutation|]. intros y. rewrite insert_take_drop by by eapply lookup_lt_Some.
  rewrite delete_take_drop. symmetry. apply Permutation_middle.
Qed.

Lemma held_perm l l' : l ≡ₚ l' -> sum_list_with held l = sum_list_with held l'.
Proof. induction 1; cbn; lia. Qed.

(** ** Invariant *)

Definition pending (s : nstate) : Prop :=
  n_writer s = WStored \/ n_writer s = WLocked \/ GSleep ∈ n_timers s \/ GLocked ∈ n_timers s.

Definition holders (s : nstate) : nat :=
  (match n_writer s with WLocked => 1 | _ => 0 end + sum_list_with held (n_timers s))%nat.

Definition chan_of (pc : waiter_pc) : option nat := match pc with RCheck c | RBlocked c => Some c | _ => None end.

Record ninv (s : nstate) : Prop := {
  i_lock : holders s = if n_locked s then 1%nat else 0%nat;
  i_new : Forall (fun c => (c < n_chan s)%nat) (n_closed s);
  i_chan : forall i l pc c, n_waiters s !! i = Some (l, pc) -> chan_of pc = Some c -> c = n_chan s \/ c ∈ n_closed s;
  i_blocked : forall i l c, n_waiters s !! i = Some (l, RBlocked c) -> sees_new (n_offset s) l = true -> c ∈ n_closed s \/ pending s;
  i_fired : GFired ∈ n_timers s -> forall i l pc c, n_waiters s !! i = Some (l, pc) -> chan_of pc = Some c -> c ∈ n_closed s;
  i_flag : n_flag s = true -> GSleep ∈ n_timers s \/ GLocked ∈ n_timers s \/ GFired ∈ n_timers s
}.

Lemma start_ninv b off : ninv (n_start b off).
Proof. split; cbn; try done; by constructor. Qed.

(** A reader's own step. *)
Lemma waiter_ninv s i l pc pc' : ninv s -> n_waiters s !! i = Some (l, pc) ->
  (forall c, chan_of pc' = Some c -> (c = n_chan s \/ c ∈ n_closed s) /\ (GFired ∈ n_timers s -> c ∈ n_closed s)) ->
  (forall c, pc' = RBlocked c -> sees_new (n_offset s) l = true -> c ∈ n_closed s \/ pending s) ->
  ninv (at_waiter i l pc' s).
Proof.
  intros [I1 I2 I3 I4 I5 I6] Hi Hc Hb. pose proof (lookup_lt_Some _ _ _ Hi) as Hlt. unfold at_waiter. split; cbn; try done.
  - intros j l' pc2 c [(-> & [= <- <-] & _)|[_ Hj]]%list_lookup_insert_Some Hpc; [by apply Hc|by eapply I3].
  - intros j l' c [(-> & [= <- ->] & _)|[_ Hj]]%list_lookup_insert_Some Hs; [by apply Hb|by eapply I4].
  - intros Hf j l' pc2 c [(-> & [= <- <-] & _)|[_ Hj]]%list_lookup_insert_Some Hpc; [by apply Hc|by eapply I5].
Qed.

Lemma other_ninv s s' : ninv s -> other_step s s' -> ninv s'.
Proof.
  intros Hi. destruct 1 as [s p Hw Hp|s i l Hl|s i l Hl Hk|s i l c Hl|s i l c Hl Hin|s i l c Hl|s l].
  - destruct Hi as [I1 I2 I3 I4 I5 I6]. split; cbn; try done.
    + rewrite <- I1. unfold holders. cbn. by rewrite Hw.
    + intros. right. by left.
  - apply (waiter_ninv _ _ _ RLoad _ Hi Hl); by destruct (sees_new _ _).
  - apply (waiter_ninv _ _ _ RChan _ Hi Hl); [|done]. intros c [= <-]. split; [by left|]. intros Hf. exfalso.
    pose proof (i_lock _ Hi) as Hlock. rewrite Hk in Hlock. unfold holders in Hlock.
    apply list_elem_of_split in Hf as (l1 & l2 & Hf). rewrite Hf, sum_list_with_app in Hlock. cbn in Hlock. lia.
  - apply (waiter_ninv _ _ _ (RCheck c) _ Hi Hl).
    + intros c' Hc'. assert (c' = c) as -> by (destruct (sees_new _ _); [done|by injection Hc']).
      split; [by eapply (i_chan _ Hi)|]. intros Hf. by eapply (i_fired _ Hi).
    + intros c' Heq Hs. rewrite Hs in Heq. done.
  - by apply (waiter_ninv _ _ _ (RBlocked c) _ Hi Hl).
  - by apply (waiter_ninv _ _ _ (RBlocked c) _ Hi Hl).
  - destruct Hi as [I1 I2 I3 I4 I5 I6]. split; cbn; try done.
    + intros i l' pc c [Hj|(_ & Hj)]%lookup_app_Some Hpc; [by eapply I3|]. apply list_lookup_singleton_Some in Hj as [_ [= <- <-]]. done.
    + intros i l' c [Hj|(_ & Hj)]%lookup_app_Some Hs; [by eapply I4|]. by apply list_lookup_singleton_Some in Hj as [_ [= <-]].
    + intros Hf i l' pc c [Hj|(_ & Hj)]%lookup_app_Some Hpc; [by eapply I5|]. apply list_lookup_singleton_Some in Hj as [_ [= <- <-]]. done.
Qed.

Lemma fire_new s : ninv s -> Forall (fun c => (c < S (n_chan s))%nat) (n_chan s :: n_closed s).
Proof. intros Hi. constructor; [lia|]. eapply Forall_impl; [|exact (i_new _ Hi)]. cbn. intros; lia. Qed.

Lemma fire_closes s i l pc c : ninv s -> n_waiters s !! i = Some (l, pc) -> chan_of pc = Some c -> c ∈ n_chan s :: n_closed s.
Proof. intros Hi Hw Hc. destruct (i_chan _ Hi _ _ _ _ Hw Hc) as [->|Hin]; [by left|by right]. Qed.

Lemma writer_ninv s s' : ninv s -> notify_step s s' -> n_timers s' = n_timers s -> ninv s'.
Proof.
  intros Hi. pose proof Hi as [I1 I2 I3 I4 I5 I6]. unfold holders in I1. destruct 1 as [s Hw Hc Hk|s Hw|s Hw Hc Hf|s Hw Hc Hf|s i Ht Hk|s i Ht|s i Ht|s i Ht]; intros Hts.
  - rewrite Hw, Hk in I1. split; try done; [unfold holders; cbn in *; lia|]. intros i l c Hb Hs. right. right. by left.
  - rewrite Hw in I1. split; try done.
    + unfold holders. cbn in *. destruct (n_locked s); lia.
    + by apply fire_new.
    + intros i l pc c Hl Hc. right. by eapply fire_closes.
    + intros i l c Hl _. left. by eapply fire_closes.
    + intros _ i l pc c Hl Hc. by eapply fire_closes.
  - exfalso. cbn in Hts. apply (f_equal length) in Hts. rewrite length_app in Hts. cbn in Hts. lia.
  - rewrite Hw in I1. split; try done. intros i l c Hl Hs. destruct (I4 i l c Hl Hs) as [Hin|Hp]; [by left|].
    destruct (I6 Hf) as [Hg|[Hg|Hg]]; [right; unfold pending; cbn; auto..|]. left. by eapply (I5 Hg).
  - exfalso. cbn in Hts. apply (f_equal (fun l => l !! i)) in Hts. rewrite list_lookup_insert_eq in Hts by by eapply lookup_lt_Some. congruence.
  - exfalso. cbn in Hts. apply (f_equal (fun l => l !! i)) in Hts. rewrite list_lookup_insert_eq in Hts by by eapply lookup_lt_Some. congruence.
  - exfalso. cbn in Hts. apply (f_equal (fun l => l !! i)) in Hts. rewrite list_lookup_insert_eq in Hts by by eapply lookup_lt_Some. congruence.
  - exfalso. cbn in Hts. apply (f_equal length) in Hts. rewrite length_delete in Hts by by eexists. apply lookup_lt_Some in Ht. lia.
Qed.

Lemma notify_ninv s s' : ninv s -> notify_step s s' -> ninv s'.
Proof.
  intros Hi Hst. pose proof Hi as [I1 I2 I3 I4 I5 I6]. unfold holders in I1.
  destruct Hst as [s Hw Hc Hk|s Hw|s Hw Hc Hf|s Hw Hc Hf|s i Ht Hk|s i Ht|s i Ht|s i Ht];
    try (eapply writer_ninv; [exact Hi|by constructor|done]);
    try (destruct (timers_split _ _ _ Ht) as [Hp Hins]; rewrite (held_perm _ _ Hp) in I1; cbn in I1).
  - rewrite Hw in I1. split; try done.
    + unfold holders. cbn in *. rewrite sum_list_with_app. cbn. lia.
    + intros i l c Hl Hs. right. right. right. left. cbn. apply elem_of_app. right. by left.
    + cbn. intros [Hg|Hg]%elem_of_app; [by apply I5|]. by apply list_elem_of_singleton in Hg.
    + intros _. left. cbn. apply elem_of_app. right. by left.
  - rewrite Hk in I1. split; try done.
    + unfold holders. cbn. rewrite (held_perm _ _ (Hins GLocked)). cbn. lia.
    + intros j l c Hl Hs. destruct (I4 j l c Hl Hs) as [Hin|_]; [by left|]. right. right. right. right. cbn. rewrite (Hins GLocked). by left.
    + cbn. rewrite (Hins GLocked). intros [[=]|Hg]%elem_of_cons. apply I5. rewrite Hp. by right.
    + cbn. intros _. rewrite (Hins GLocked). right. left. by left.
  - split; try done.
    + unfold holders. cbn. rewrite (held_perm _ _ (Hins GFired)). cbn. lia.
    + by apply fire_new.
    + intros j l pc c Hl Hc. right. by eapply fire_closes.
    + intros j l c Hl _. left. by eapply fire_closes.
    + intros _ j l pc c Hl Hc. by eapply fire_closes.
    + cbn. intros _. rewrite (Hins GFired). right. right. by left.
  - assert (GFired ∈ n_timers s) as Hf by (rewrite Hp; by left). split; try done.
    + unfold holders. cbn. rewrite (held_perm _ _ (Hins GCleared)). cbn. lia.
    + intros j l c Hl _. left. by eapply (I5 Hf).
    + intros _. exact (I5 Hf).
  - split; try done.
    + unfold holders. cbn. destruct (n_locked s); lia.
    + intros j l c Hl Hs. destruct (I4 j l c Hl Hs) as [Hin|Hpd]; [by left|]. right. unfold pending in *. cbn.
      rewrite Hp, !elem_of_cons in Hpd. naive_solver.
    + intros Hf. apply I5. rewrite Hp. by right.
    + intros Hf. specialize (I6 Hf). cbn. rewrite Hp, !elem_of_cons in I6. naive_solver.
Qed.

Lemma reachable_ninv s : n_reachable s -> ninv s.
Proof.
  intros (b & off & Hr). remember (n_start b off) as s0 eqn:E. assert (ninv s0) as H0 by (subst; apply start_ninv). clear E.
  induction Hr as [|s0 s1 s2 [Hst|Hst] _ IH]; [done|apply IH; by eapply notify_ninv|apply IH; by eapply other_ninv].
Qed.

(** ** Progress *)

Definition weight (g : timer_pc) : nat := match g with GSleep => 4 | GLocked => 3 | GFired => 2 | GCleared => 1 end.
Definition to_go (s : nstate) : nat :=
  (match n_writer s with WStored => 6 | WLocked => 1 | WIdle => 0 end + sum_list_with weight (n_timers s))%nat.

Lemma weight_perm l l' : l ≡ₚ l' -> sum_list_with weight l = sum_list_with weight l'.
Proof. induction 1; cbn; lia. Qed.

Lemma notify_terminates s s' : notify_step s s' -> (to_go s' < to_go s)%nat.
Proof.
  unfold to_go. destruct 1 as [s Hw Hc Hk|s Hw|s Hw Hc Hf|s Hw Hc Hf|s i Ht Hk|s i Ht|s i Ht|s i Ht]; cbn;
    try (destruct (timers_split _ _ _ Ht) as [Hp Hins]; rewrite (weight_perm _ _ Hp), ?(weight_perm _ _ (Hins _)); cbn; lia);
    rewrite Hw, ?sum_list_with_app; cbn; lia.
Qed.

Lemma notify_keeps s s' : notify_step s s' -> n_waiters s' = n_waiters s /\ n_offset s' = n_offset s.
Proof. by destruct 1. Qed.

Lemma holder_steps s : (1 <= sum_list_with held (n_timers s))%nat -> exists s', notify_step s s'.
Proof.
  intros Hs. assert (exists i g, n_timers s !! i = Some g /\ g <> GSleep) as (i & g & Hi & Hg).
  { induction (n_timers s) as [|g l IH]; cbn in Hs; [lia|]. destruct g; cbn in Hs; [|by exists 0%nat; eexists; split..].
    destruct IH as (i & g & Hi & Hg); [done|]. by exists (S i), g. }
  destruct g; [done|eexists; by eapply s_timer_fire|eexists; by eapply s_timer_clear|eexists; by eapply s_timer_unlock].
Qed.

Lemma pending_steps s : ninv s -> pending s -> exists s', notify_step s s'.
Proof.
  intros Hi Hp. pose proof (i_lock _ Hi) as Hl. unfold holders in Hl.
  destruct (n_locked s) eqn:Hk; [destruct (n_writer s) eqn:Hw; [apply holder_steps; lia..|eexists; by eapply s_fire]|].
  destruct Hp as [Hw|[Hw|[Hg|Hg]]].
  - destruct (n_coalescing s) eqn:Hc; [|eexists; by eapply s_lock]. destruct (n_flag s) eqn:Hf; eexists; [by eapply s_cas_fails|by eapply s_cas_ok].
  - eexists; by eapply s_fire.
  - apply list_elem_of_lookup in Hg as [i Hg]. eexists; by eapply s_timer.
  - apply list_elem_of_lookup in Hg as [i Hg]. eexists; by eapply s_timer_fire.
Qed.

(** C19. No wake-up is lost.  When a reader is blocked although a write it
    has not seen has been stored, then whatever the interleaving that led there,
    and with coalescing or without, the notifications under way need at most
    [to_go s] more steps, in any order, and they do not stop before the
    reader's channel is closed; and no channel is ever closed twice. *)
Theorem no_wakeup_is_lost s i l c : n_reachable s -> n_waiters s !! i = Some (l, RBlocked c) -> sees_new (n_offset s) l = true ->
  n_chan s ∉ n_closed s /\
  forall n s', nsteps notify_step n s s' -> (n <= to_go s)%nat /\ (c ∈ n_closed s' \/ exists s'', notify_step s' s'').
Proof.
  intros Hr Hw Hs. apply reachable_ninv in Hr. split.
  { intros Hin. pose proof (i_new _ Hr) as Hn. rewrite Forall_forall in Hn. apply list_elem_of_In, Hn in Hin. lia. }
  intros n s' Hn. induction Hn as [s|n s s1 s2 Hst Hn IH].
  - split; [lia|]. destruct (i_blocked _ Hr _ _ _ Hw Hs) as [|Hp]; [by left|]. right. by apply pending_steps.
  - destruct (notify_keeps _ _ Hst) as [Hw' Ho']. pose proof (notify_terminates _ _ Hst).
    destruct IH as [Hle IH]; [by eapply notify_ninv|by rewrite Hw'|by rewrite Ho'|]. split; [lia|done].
Qed.

(** A coalesced write arrives while a reader is blocked. *)
Lemma no_wakeup_is_lost_witness : exists s, n_reachable s /\ n_waiters s !! 0%nat = Some (Some (mkPos 1 64), RBlocked 0) /\
  sees_new (n_offset s) (Some (mkPos 1 64)) = true /\
  forall n s', nsteps notify_step n s s' -> (n <= to_go s)%nat /\ (0%nat ∈ n_closed s' \/ exists s'', notify_step s' s'').
Proof.
  pose (s := mkN (Some (mkPos 1 128)) true false 0 [] false WStored [] [(Some (mkPos 1 64), RBlocked 0)]).
  assert (n_reachable s) as Hr.
  { exists true, (Some (mkPos 1 64)).
    eapply rtc_l; [right; apply (s_call _ (Some (mkPos 1 64)))|]. eapply rtc_l; [right; by apply (s_load _ 0 (Some (mkPos 1 64)))|].
    eapply rtc_l; [right; by apply (s_chan _ 0 (Some (mkPos 1 64)))|]. eapply rtc_l; [right; by apply (s_check _ 0 (Some (mkPos 1 64)) 0)|].
    eapply rtc_l; [right; apply (s_store _ (mkPos 1 128)); [done|by intros q [= <-]]|]. apply rtc_refl. }
  exists s. split; [exact Hr|]. split; [done|]. split; [done|].
  exact (proj2 (no_wakeup_is_lost s 0 (Some (mkPos 1 64)) 0 Hr eq_refl eq_refl)).
Defined.
