(* ===== verification/Paths.v ===== *)
(** Backup paths: resolveBackupDir, resolveBackupFile, cleanBackupRelativePath
    and isWithinDir of dbkernel/engine_public.go, on Unix paths.

    [Clean], [Join] and [TrimSpace] are the functions of the standard library
    the code calls.  The theorem: what these functions accept is a path below
    the root of the namespace, and every plain relative path is accepted. *)

From stdpp Require Import prelude list numbers gmap.
From Stdlib Require Import ZArith Lia.
From S2P Require Import Prelude Bytes KeyCodec KVKeys.

Definition slash : Byte.byte := Byte.x2f.
Definition dot : bytes := [Byte.x2e].
Definition dotdot : bytes := [Byte.x2e; Byte.x2e].

(** strings.Split with the separator "/" *)
Fixpoint Split (s : bytes) : list bytes :=
  match s with
  | [] => [[]]
  | c :: s' =>
      if bool_decide (c = slash) then [] :: Split s' else
      match Split s' with
      | [] => [[c]]
      | w :: ws => (c :: w) :: ws
      end
  end.

(** strings.Join with the separator "/" *)
Fixpoint join_slash (cs : list bytes) : bytes :=
  match cs with
  | [] => []
  | [c] => c
  | c :: cs => c ++ slash :: join_slash cs
  end.

Definition IsAbs (p : bytes) : bool := match p with c :: _ => bool_decide (c = slash) | [] => false end.

(** One element of the path; the stack holds the elements before it, last first. *)
Definition clean_step (rooted : bool) (stack : list bytes) (c : bytes) : list bytes :=
  if bool_decide (c = []) || bool_decide (c = dot) then stack else
  if bool_decide (c = dotdot) then
    match stack with
    | top :: rest => if bool_decide (top = dotdot) then dotdot :: stack else rest
    | [] => if rooted then [] else [dotdot]
    end
  else c :: stack.

Definition components (p : bytes) : list bytes := reverse (foldl (clean_step (IsAbs p)) [] (Split p)).

Definition render (rooted : bool) (cs : list bytes) : bytes :=
  if rooted then slash :: join_slash cs else
  match cs with [] => dot | _ => join_slash cs end.

(** filepath.Clean *)
Definition Clean (p : bytes) : bytes := render (IsAbs p) (components p).

(** filepath.Join of two elements *)
Definition Join (a b : bytes) : bytes :=
  match a, b with
  | [], [] => []
  | [], _ => Clean b
  | _, _ => Clean (a ++ slash :: b)
  end.

(** The encodings of the characters that unicode.IsSpace accepts. *)
Definition spaces : list bytes :=
  [[Byte.x09]; [Byte.x0a]; [Byte.x0b]; [Byte.x0c]; [Byte.x0d]; [Byte.x20]; [Byte.xc2; Byte.x85]; [Byte.xc2; Byte.xa0];
   [Byte.xe1; Byte.x9a; Byte.x80];
   [Byte.xe2; Byte.x80; Byte.x80]; [Byte.xe2; Byte.x80; Byte.x81]; [Byte.xe2; Byte.x80; Byte.x82]; [Byte.xe2; Byte.x80; Byte.x83];
   [Byte.xe2; Byte.x80; Byte.x84]; [Byte.xe2; Byte.x80; Byte.x85]; [Byte.xe2; Byte.x80; Byte.x86]; [Byte.xe2; Byte.x80; Byte.x87];
   [Byte.xe2; Byte.x80; Byte.x88]; [Byte.xe2; Byte.x80; Byte.x89]; [Byte.xe2; Byte.x80; Byte.x8a]; [Byte.xe2; Byte.x80; Byte.xa8];
   [Byte.xe2; Byte.x80; Byte.xa9]; [Byte.xe2; Byte.x80; Byte.xaf]; [Byte.xe2; Byte.x81; Byte.x9f]; [Byte.xe3; Byte.x80; Byte.x80]].

Fixpoint trim_left (fuel : nat) (ws : list bytes) (s : bytes) : bytes :=
  match fuel with
  | O => s
  | S fuel =>
      match List.find (fun w => HasPrefix s w) ws with
      | Some w => trim_left fuel ws (drop (length w) s)
      | None => s
      end
  end.

(** strings.TrimSpace; each round removes at least one byte. *)
Definition TrimSpace (s : bytes) : bytes :=
  let s := trim_left (length s) spaces s in
  reverse (trim_left (length s) (reverse <$> spaces) (reverse s)).

Inductive path_error := ErrPathEmpty | ErrPathAbsolute | ErrPathIsRoot | ErrPathTraverses | ErrPathEscapes | ErrMkdir.

Definition isWithinDir (root target : bytes) : bool :=
  let root := Clean root in
  let target := Clean target in
  bool_decide (root = target) || HasPrefix target (root ++ [slash]).

Definition cleanBackupRelativePath (rel : bytes) (allowRoot : bool) : result path_error bytes :=
  let trimmed := TrimSpace rel in
  if bool_decide (trimmed = []) then (if allowRoot then Ok dot else Err ErrPathEmpty) else
  if IsAbs trimmed then Err ErrPathAbsolute else
  let clean := Clean trimmed in
  if bool_decide (clean = dot) && negb allowRoot then Err ErrPathIsRoot else
  if existsb (fun part => bool_decide (part = dotdot)) (Split clean) then Err ErrPathTraverses else
  Ok clean.

(** [mkdirOk]: MkdirAll succeeds. *)
Definition resolveBackup (allowRoot mkdirOk : bool) (backupNamespaceRoot rel : bytes) : result path_error bytes :=
  match cleanBackupRelativePath rel allowRoot with
  | Err e => Err e
  | Ok clean =>
      let target := Join backupNamespaceRoot clean in
      if negb (isWithinDir backupNamespaceRoot target) then Err ErrPathEscapes else
      if negb mkdirOk then Err ErrMkdir else Ok target
  end.

Definition resolveBackupDir := resolveBackup true.
Definition resolveBackupFile := resolveBackup false.

(** ** Splitting *)

Lemma Split_nonempty s : Split s <> [].
Proof. induction s as [|c s IH]; cbn; [done|]. case_bool_decide; [done|]. by destruct (Split s). Qed.

Lemma Split_app a b : Split (a ++ slash :: b) = Split a ++ Split b.
Proof.
  induction a as [|c a IH]; cbn [app Split]; [by rewrite bool_decide_true|]. case_bool_decide; [by rewrite IH|]. rewrite IH.
  pose proof (Split_nonempty a). by destruct (Split a).
Qed.

Lemma Split_plain c : slash ∉ c -> Split c = [c].
Proof.
  induction c as [|x c IH]; intros Hn; [done|]. apply not_elem_of_cons in Hn as [Hx Hn]. cbn. rewrite bool_decide_false by done. by rewrite IH.
Qed.

Lemma Split_join cs : cs <> [] -> Forall (fun c => slash ∉ c) cs -> Split (join_slash cs) = cs.
Proof.
  intros Hne Hf. induction Hf as [|c cs Hc Hcs IH]; [done|]. destruct cs as [|c' cs]; [by apply Split_plain|].
  change (join_slash (c :: c' :: cs)) with (c ++ slash :: join_slash (c' :: cs)). rewrite Split_app, Split_plain, IH by done. done.
Qed.

Lemma Split_no_slash s : Forall (fun c => slash ∉ c) (Split s).
Proof.
  induction s as [|x s IH]; cbn; [repeat constructor; by apply not_elem_of_nil|]. case_bool_decide as Hx.
  - constructor; [by apply not_elem_of_nil|done].
  - destruct (Split s) as [|w ws]; [repeat constructor; apply not_elem_of_cons; split; [done|by apply not_elem_of_nil]|].
    apply Forall_cons in IH as [Hw IH]. constructor; [|done]. apply not_elem_of_cons. done.
Qed.

(** ** Normal forms *)

Definition plain (c : bytes) : Prop := c <> [] /\ c <> dot /\ c <> dotdot /\ slash ∉ c.

(** Leading ".." (of a relative path only), then plain elements. *)
Definition normal (rooted : bool) (cs : list bytes) : Prop :=
  exists n ds, cs = replicate n dotdot ++ ds /\ Forall plain ds /\ (rooted = true -> n = 0%nat).

Lemma step_plain r st c : plain c -> clean_step r st c = c :: st.
Proof. intros (H1 & H2 & H3 & _). unfold clean_step. by rewrite !bool_decide_false. Qed.

Lemma steps_plain r cs : forall st, Forall plain cs -> foldl (clean_step r) st cs = reverse cs ++ st.
Proof.
  induction cs as [|c cs IH]; intros st Hf; [done|]. apply Forall_cons in Hf as [Hc Hf]. cbn [foldl].
  rewrite step_plain, IH by done. by rewrite reverse_cons, <- app_assoc.
Qed.

Lemma normal_snoc r cs c : normal r cs -> plain c -> normal r (cs ++ [c]).
Proof.
  intros (n & ds & -> & Hd & Hr) Hc. exists n, (ds ++ [c]). split_and!; [by rewrite app_assoc|apply Forall_app; split; [done|by constructor]|done].
Qed.

Lemma step_normal r st c : slash ∉ c -> normal r (reverse st) -> normal r (reverse (clean_step r st c)).
Proof.
  intros Hc Hn. unfold clean_step. case_bool_decide as H1; [done|]. case_bool_decide as H2; [done|]. cbn [orb].
  case_bool_decide as H3; [|rewrite reverse_cons; by apply normal_snoc]. destruct st as [|top rest].
  - destruct r; [done|]. by exists 1%nat, [].
  - rewrite reverse_cons in Hn. destruct Hn as (n & ds & Heq & Hd & Hr). destruct ds as [|d ds _] using rev_ind.
    + rewrite app_nil_r in Heq. destruct n as [|n]; [by destruct (reverse rest)|]. rewrite replicate_S_end in Heq.
      apply app_inj_tail in Heq as [Hrest ->]. rewrite bool_decide_true by done. exists (S (S n)), []. rewrite !reverse_cons, Hrest, app_nil_r.
      split_and!; [by rewrite !replicate_S_end|done|]. intros Ht. by specialize (Hr Ht).
    + rewrite app_assoc in Heq. apply app_inj_tail in Heq as [Hrest ->]. apply Forall_app in Hd as [Hds Hd]. apply Forall_singleton in Hd as (_ & _ & Hnd & _).
      rewrite bool_decide_false by done. exists n, ds. by rewrite Hrest.
Qed.

Lemma components_normal p : normal (IsAbs p) (components p).
Proof.
  unfold components. pose proof (Split_no_slash p) as Hs. assert (normal (IsAbs p) (reverse [])) as Hn by (by exists 0%nat, []).
  revert Hn. generalize (@nil bytes). induction Hs as [|c cs Hc Hcs IH]; intros st Hn; cbn [foldl]; [done|]. by apply IH, step_normal.
Qed.

Lemma steps_dotdot n : foldl (clean_step false) [] (replicate n dotdot) = replicate n dotdot.
Proof.
  assert (forall k, foldl (clean_step false) (replicate k dotdot) (replicate n dotdot) = replicate (n + k) dotdot) as Hk.
  { induction n as [|n IH]; intros k; [done|]. cbn [replicate foldl]. assert (clean_step false (replicate k dotdot) dotdot = replicate (S k) dotdot) as ->.
    { by destruct k. } rewrite IH. f_equal. lia. }
  rewrite <- (Nat.add_0_r n) at 2. apply (Hk 0%nat).
Qed.

Lemma normal_no_slash r cs : normal r cs -> Forall (fun c => slash ∉ c) cs.
Proof.
  intros (n & ds & -> & Hd & _). apply Forall_app. split.
  - apply Forall_replicate. by apply (bool_decide_unpack _).
  - eapply Forall_impl; [exact Hd|]. by intros c (_ & _ & _ & ?).
Qed.

Lemma IsAbs_join c cs : c <> [] -> slash ∉ c -> IsAbs (join_slash (c :: cs)) = false.
Proof.
  intros Hne Hc. destruct c as [|x c]; [done|]. apply not_elem_of_cons in Hc as [Hx _]. destruct cs; cbn; by rewrite bool_decide_false.
Qed.

Lemma render_normal r cs : normal r cs -> IsAbs (render r cs) = r /\ components (render r cs) = cs.
Proof.
  intros Hn. assert (IsAbs (render r cs) = r) as Habs.
  { destruct r; [done|]. destruct cs as [|c cs]; [done|]. pose proof (normal_no_slash _ _ Hn) as Hs. apply Forall_cons in Hs as [Hs _].
    apply IsAbs_join; [|done]. destruct Hn as ([|n] & ds & Heq & Hd & _); [|by injection Heq as ->]. cbn in Heq. subst ds.
    by apply Forall_cons in Hd as [(? & _) _]. }
  split; [done|]. unfold components. rewrite Habs. rewrite <- (reverse_involutive cs). f_equal. rewrite reverse_involutive.
  pose proof Hn as (n & ds & Heq & Hd & Hr).
  assert (foldl (clean_step r) [] cs = reverse cs) as Hfold.
  { rewrite Heq, foldl_app, reverse_app, reverse_replicate. destruct r; [rewrite (Hr eq_refl)|rewrite steps_dotdot]; by apply steps_plain. }
  destruct cs as [|c cs]; [by destruct r|]. destruct r; cbn [render].
  - cbn [Split]. rewrite bool_decide_true by done. rewrite Split_join by (done || by apply (normal_no_slash true)). exact Hfold.
  - rewrite Split_join by (done || by apply (normal_no_slash false)). exact Hfold.
Qed.

Lemma Clean_Clean p : Clean (Clean p) = Clean p.
Proof. destruct (render_normal _ _ (components_normal p)) as [Ha Hc]. unfold Clean at 1. unfold Clean at 1 2. by rewrite Ha, Hc. Qed.

(** ** Below the root *)

(** The path without ".." that the engine accepts, as its elements. *)
Lemma clean_accepts rel a clean : cleanBackupRelativePath rel a = Ok clean ->
  exists cs, Forall plain cs /\ clean = render false cs /\ (a = false -> cs <> []).
Proof.
  unfold cleanBackupRelativePath. case_bool_decide as Hnil; [destruct a; [|done]; intros [= <-]; by exists []|].
  destruct (IsAbs (TrimSpace rel)) eqn:Habs; [done|]. destruct (bool_decide _ && negb a) eqn:Hroot; [done|].
  destruct (existsb _ _) eqn:Hdd; [done|]. intros [= <-]. pose proof (components_normal (TrimSpace rel)) as Hn. unfold Clean in *. rewrite Habs in *.
  destruct Hn as (n & ds & Heq & Hd & _). exists (components (TrimSpace rel)). rewrite Heq. split_and!; [|done|].
  - destruct n as [|n]; [done|]. exfalso. rewrite Heq in Hdd. cbn [replicate app render] in Hdd.
    assert (normal false (replicate (S n) dotdot ++ ds)) as Hn by (by exists (S n), ds).
    change (replicate (S n) dotdot ++ ds) with (dotdot :: replicate n dotdot ++ ds) in Hn.
    rewrite Split_join in Hdd by (done || by apply (normal_no_slash false)). cbn in Hdd. done.
  - intros -> Hcs. rewrite Heq, Hcs in Hroot. cbn in Hroot. done.
Qed.

Lemma components_join root cs : root <> [] -> Forall plain cs ->
  IsAbs (root ++ slash :: render false cs) = IsAbs root /\ components (root ++ slash :: render false cs) = components root ++ cs.
Proof.
  intros Hr Hcs. assert (IsAbs (root ++ slash :: render false cs) = IsAbs root) as Ha by by destruct root. split; [done|].
  unfold components. rewrite Ha, Split_app, foldl_app. rewrite <- (reverse_involutive (_ ++ cs)). f_equal.
  rewrite reverse_app, reverse_involutive. destruct cs as [|c cs]; [done|]. cbn [render].
  rewrite Split_join; [by apply steps_plain|done|]. eapply Forall_impl; [exact Hcs|]. by intros x (_ & _ & _ & ?).
Qed.

Lemma normal_app r cs ds : normal r cs -> Forall plain ds -> normal r (cs ++ ds).
Proof. intros (n & es & -> & He & Hn) Hd. exists n, (es ++ ds). split_and!; [by rewrite app_assoc|by apply Forall_app|done]. Qed.

Lemma join_slash_app cs ds : cs <> [] -> ds <> [] -> join_slash (cs ++ ds) = join_slash cs ++ slash :: join_slash ds.
Proof.
  intros Hc Hd. induction cs as [|c cs IH]; [done|]. destruct cs as [|c' cs]; [by destruct ds|].
  change ((c :: c' :: cs) ++ ds) with (c :: (c' :: cs) ++ ds). change (join_slash (c :: (c' :: cs) ++ ds)) with (c ++ slash :: join_slash ((c' :: cs) ++ ds)).
  rewrite IH by done. change (join_slash (c :: c' :: cs)) with (c ++ slash :: join_slash (c' :: cs)). by rewrite <- app_assoc.
Qed.

Lemma Join_below root cs : root <> [] -> Forall plain cs -> Join root (render false cs) = render (IsAbs root) (components root ++ cs).
Proof.
  intros Hr Hcs. destruct (components_join root cs Hr Hcs) as [Ha Hc].
  assert (Join root (render false cs) = Clean (root ++ slash :: render false cs)) as -> by by destruct root. unfold Clean. by rewrite Ha, Hc.
Qed.

Lemma isWithinDir_below root cs : root <> [] -> components root <> [] -> Forall plain cs ->
  isWithinDir root (render (IsAbs root) (components root ++ cs)) = true.
Proof.
  intros Hr Hne Hcs. unfold isWithinDir. pose proof (normal_app _ _ _ (components_normal root) Hcs) as Hn.
  destruct (render_normal _ _ Hn) as [Ha Hc]. assert (Clean (render (IsAbs root) (components root ++ cs)) = render (IsAbs root) (components root ++ cs)) as -> by (unfold Clean; by rewrite Ha, Hc).
  destruct cs as [|c cs].
  - rewrite app_nil_r. unfold Clean. by rewrite bool_decide_true.
  - apply orb_true_iff. right. unfold HasPrefix. apply bool_decide_eq_true.
    assert (render (IsAbs root) (components root ++ c :: cs) = (Clean root ++ [slash]) ++ join_slash (c :: cs)) as ->; [|by rewrite take_app_length].
    unfold Clean, render. rewrite join_slash_app by done. destruct (IsAbs root).
    + by rewrite <- app_assoc.
    + destruct (components root) as [|c' cs']; [done|]. by rewrite <- app_assoc.
Qed.

Lemma clean_plain a cs : cs <> [] -> Forall plain cs -> TrimSpace (join_slash cs) = join_slash cs ->
  cleanBackupRelativePath (join_slash cs) a = Ok (render false cs).
Proof.
  intros Hne Hcs Htrim. assert (normal false cs) as Hn by (by exists 0%nat, cs). destruct (render_normal false cs Hn) as [Ha Hcomp].
  assert (render false cs = join_slash cs) as Hren by by destruct cs.
  assert (Split (render false cs) = cs) as Hsplit by (rewrite Hren; apply Split_join; [done|by apply (normal_no_slash false)]).
  assert (forall x, x ∈ cs -> x <> [] /\ x <> dot /\ x <> dotdot) as Hx by (rewrite Forall_forall in Hcs; intros x Hx; destruct (Hcs x Hx) as (? & ? & ? & _); done).
  assert (forall p, p = [] \/ p = dot -> render false cs <> p) as Hnp.
  { intros p Hp Heq. rewrite Heq in Hsplit. destruct (Hx p) as (? & ? & _); [rewrite <- Hsplit; destruct Hp as [-> | ->]; by left|]. by destruct Hp. }
  unfold cleanBackupRelativePath. rewrite Htrim, <- Hren, bool_decide_false by (apply Hnp; by left). rewrite Ha. unfold Clean. rewrite Ha, Hcomp.
  rewrite bool_decide_false by (apply Hnp; by right). cbn [andb].
  assert (existsb (fun part => bool_decide (part = dotdot)) (Split (render false cs)) = false) as ->; [|done].
  rewrite Hsplit. apply not_true_is_false. intros (x & Hin & ->%bool_decide_eq_true)%existsb_exists. apply list_elem_of_In, Hx in Hin. by destruct Hin as (_ & _ & ?).
Qed.

(** C31. A backup path that is accepted lies below the root of the
    namespace: it is the root followed by elements that are not empty, "." or
    "..", and at least one of them for a file.  And every relative path of such
    elements is accepted and resolved to that place. *)
Theorem backup_paths_stay_below_the_root root allowRoot : root <> [] ->
  (forall mkdirOk rel target, resolveBackup allowRoot mkdirOk root rel = Ok target ->
     exists cs, Forall plain cs /\ target = render (IsAbs root) (components root ++ cs) /\ (allowRoot = false -> cs <> [])) /\
  (forall cs, components root <> [] -> cs <> [] -> Forall plain cs -> TrimSpace (join_slash cs) = join_slash cs ->
     resolveBackup allowRoot true root (join_slash cs) = Ok (render (IsAbs root) (components root ++ cs))).
Proof.
  intros Hr. split.
  - intros ok rel target. unfold resolveBackup. destruct (cleanBackupRelativePath rel allowRoot) as [clean|] eqn:Hc; [|done].
    apply clean_accepts in Hc as (cs & Hcs & -> & Hne). rewrite Join_below by done. destruct (isWithinDir _ _); [|done]. destruct ok; [|done].
    cbn [negb]. intros [= <-]. by exists cs.
  - intros cs Hroot Hne Hcs Htrim. unfold resolveBackup.
    rewrite clean_plain by done.
    rewrite Join_below, isWithinDir_below by done. done.
Qed.

Lemma backup_paths_stay_below_the_root_witness :
  resolveBackupFile true [slash; Byte.x62; slash; Byte.x6e] (join_slash [[Byte.x61]; [Byte.x63]]) =
    Ok [slash; Byte.x62; slash; Byte.x6e; slash; Byte.x61; slash; Byte.x63].
Proof.
  apply (proj2 (backup_paths_stay_below_the_root [slash; Byte.x62; slash; Byte.x6e] false ltac:(discriminate)) [[Byte.x61]; [Byte.x63]]);
    [by vm_compute|discriminate|repeat constructor; try discriminate; by apply (bool_decide_unpack _)|by vm_compute].
Defined.
