(* ===== verification/Base64.v ===== *)
(** encoding/base64 and encoding/hex, as the HTTP API uses them: StdEncoding and
    EncodeToString. *)

From stdpp Require Import prelude list numbers.
From Stdlib Require Import ZArith Lia.
From S2P Require Import Prelude Bytes.

(** ** The alphabet *)

(** The character of a 6-bit digit: A-Z, a-z, 0-9, + and /. *)
Definition b64_char (d : Z) : byte :=
  to_byte (if d <? 26 then 65 + d else if d <? 52 then 97 + (d - 26) else if d <? 62 then 48 + (d - 52) else if d =? 62 then 43 else 47).

Definition b64_digit (c : byte) : option Z :=
  let c := u8 c in
  if (65 <=? c) && (c <=? 90) then Some (c - 65)
  else if (97 <=? c) && (c <=? 122) then Some (c - 97 + 26)
  else if (48 <=? c) && (c <=? 57) then Some (c - 48 + 52)
  else if c =? 43 then Some 62
  else if c =? 47 then Some 63
  else None.

Definition padChar : byte := Byte.x3d.

(** ** Encoding *)

Fixpoint EncodeToString (src : bytes) : bytes :=
  match src with
  | [] => []
  | [x] => [b64_char (u8 x / 4); b64_char (u8 x mod 4 * 16); padChar; padChar]
  | [x; y] => [b64_char (u8 x / 4); b64_char (u8 x mod 4 * 16 + u8 y / 16); b64_char (u8 y mod 16 * 4); padChar]
  | x :: y :: z :: rest =>
      b64_char (u8 x / 4) :: b64_char (u8 x mod 4 * 16 + u8 y / 16) :: b64_char (u8 y mod 16 * 4 + u8 z / 64) :: b64_char (u8 z mod 64) ::
      EncodeToString rest
  end.

(** ** Decoding *)

Definition newline (c : byte) : bool := bool_decide (c = Byte.x0a) || bool_decide (c = Byte.x0d).

(** Four characters give three bytes; padding only at the end.  The bits a
    padded quantum leaves over are ignored. *)
Fixpoint decode_quanta (s : bytes) : option bytes :=
  match s with
  | [] => Some []
  | a :: b :: c :: d :: rest =>
      da ← b64_digit a;
      db ← b64_digit b;
      let x := to_byte (da * 4 + db / 16) in
      if bool_decide (c = padChar) then if bool_decide (d = padChar) && bool_decide (rest = []) then Some [x] else None else
      dc ← b64_digit c;
      let y := to_byte (db mod 16 * 16 + dc / 4) in
      if bool_decide (d = padChar) then if bool_decide (rest = []) then Some [x; y] else None else
      dd ← b64_digit d;
      out ← decode_quanta rest;
      Some (x :: y :: to_byte (dc mod 4 * 64 + dd) :: out)
  | _ => None
  end.

(** Newlines are skipped. *)
Definition DecodeString (s : bytes) : option bytes := decode_quanta (filter (fun c => newline c = false) s).

(** ** Round trip *)

Lemma b64_digit_char d : 0 <= d < 64 -> b64_digit (b64_char d) = Some d /\ b64_char d <> padChar /\ newline (b64_char d) = false.
Proof.
  intros Hd. assert (forallb (fun n => let d := Z.of_nat n in bool_decide (b64_digit (b64_char d) = Some d) && negb (bool_decide (b64_char d = padChar)) && negb (newline (b64_char d))) (seq 0 64) = true) as Hall by by vm_compute.
  rewrite forallb_forall in Hall. specialize (Hall (Z.to_nat d)). rewrite in_seq, Z2Nat.id in Hall by lia. specialize (Hall ltac:(lia)).
  apply andb_prop in Hall as [[H1%bool_decide_eq_true H2%negb_true_iff%bool_decide_eq_false]%andb_prop H3%negb_true_iff]. done.
Qed.

Lemma encoded_no_newline n : forall b, (length b <= n)%nat -> Forall (fun c => newline c = false) (EncodeToString b).
Proof.
  assert (forall d, 0 <= d < 64 -> newline (b64_char d) = false) as Hd by (intros d Hd; by apply b64_digit_char).
  induction n as [|n IH]; intros b Hl; [destruct b; [constructor|cbn in Hl; lia]|]. destruct b as [|x [|y [|z b]]]; cbn [EncodeToString]; [constructor|..];
    pose proof (u8_range x); repeat constructor; try done; try (apply Hd; try pose proof (u8_range y); try pose proof (u8_range z); Z.div_mod_to_equations; lia).
  apply IH. cbn in Hl. lia.
Qed.

Lemma to_byte_eq x z : z = u8 x -> to_byte z = x.
Proof. intros ->. apply to_byte_u8. Qed.

Lemma decode_encode n : forall b, (length b <= n)%nat -> decode_quanta (EncodeToString b) = Some b.
Proof.
  assert (forall d, 0 <= d < 64 -> b64_digit (b64_char d) = Some d) as Hd by (intros d Hd; by apply b64_digit_char).
  assert (forall d, 0 <= d < 64 -> bool_decide (b64_char d = padChar) = false) as Hp by (intros d Hr; apply bool_decide_eq_false; by apply b64_digit_char).
  induction n as [|n IH]; intros b Hl; [destruct b; [done|cbn in Hl; lia]|]. destruct b as [|x [|y [|z b]]]; cbn [EncodeToString decode_quanta]; [done|..]; pose proof (u8_range x).
  - rewrite !Hd by (Z.div_mod_to_equations; lia). cbn. f_equal. f_equal. apply to_byte_eq. Z.div_mod_to_equations. lia.
  - pose proof (u8_range y). rewrite !Hd by (Z.div_mod_to_equations; lia). cbn [mbind option_bind]. rewrite Hp by (Z.div_mod_to_equations; lia). cbn. f_equal.
    f_equal; [|f_equal]; apply to_byte_eq; Z.div_mod_to_equations; lia.
  - pose proof (u8_range y). pose proof (u8_range z). rewrite !Hd by (Z.div_mod_to_equations; lia). cbn [mbind option_bind]. rewrite !Hp by (Z.div_mod_to_equations; lia).
    rewrite IH by (cbn in Hl; lia). cbn [mbind option_bind]. f_equal. f_equal; [|f_equal; [|f_equal]]; apply to_byte_eq; Z.div_mod_to_equations; lia.
Qed.

(** What is encoded is decoded to itself. *)
Lemma DecodeString_EncodeToString b : DecodeString (EncodeToString b) = Some b.
Proof.
  unfold DecodeString. assert (filter (fun c => newline c = false) (EncodeToString b) = EncodeToString b) as ->.
  { pose proof (encoded_no_newline (length b) b (Nat.le_refl _)) as Hf. induction Hf as [|c l Hc _ IH]; [done|]. by rewrite filter_cons_True, IH. }
  by apply (decode_encode (length b)).
Qed.

(** ** Hexadecimal *)

Definition hex_char (d : Z) : byte := to_byte (if d <? 10 then 48 + d else 97 + (d - 10)).

Definition hex_EncodeToString (src : bytes) : bytes := src ≫= fun b => [hex_char (u8 b / 16); hex_char (u8 b mod 16)].

Lemma hex_char_inj a b : 0 <= a < 16 -> 0 <= b < 16 -> hex_char a = hex_char b -> a = b.
Proof.
  intros Ha Hb Heq. apply (f_equal u8) in Heq. unfold hex_char in Heq. rewrite !u8_to_byte in Heq.
  destruct (a <? 10) eqn:E1, (b <? 10) eqn:E2; rewrite !Z.mod_small in Heq by lia; lia.
Qed.

(** Different identifiers have different names. *)
Lemma hex_EncodeToString_inj a : forall b, hex_EncodeToString a = hex_EncodeToString b -> a = b.
Proof.
  induction a as [|x a IH]; intros [|y b] Heq; try done. cbn in Heq. injection Heq as H1 H2 H3. f_equal; [|by apply IH].
  pose proof (u8_range x). pose proof (u8_range y). apply hex_char_inj in H1; [|Z.div_mod_to_equations; lia..]. apply hex_char_inj in H2; [|Z.div_mod_to_equations; lia..].
  apply u8_inj. rewrite (Z.div_mod (u8 x) 16), (Z.div_mod (u8 y) 16) by lia. congruence.
Qed.
