(* ===== verification/GrpcUtils.v ===== *)
(** Around every gRPC call: internal/grpcutils/{util,stream_interceptor,
    unary_interceptor,method_register,stats_handler}.go and
    internal/services/errors_codes.go.

    A context carries the metadata the client sent and the metadata that will be
    sent on; interceptors pass a changed context to the next handler.  A gauge
    or counter of the statistics is a map from its labels to a number.  Log
    lines are left out; the uuid library is an argument. *)

From stdpp Require Import prelude list numbers gmap.
From Stdlib Require Import ZArith Lia String.
From S2P Require Import Prelude Bytes Paths.

Definition str (s : string) : bytes := list_byte_of_string s.

(** ** Status codes and the errors of the services *)

Inductive code :=
| Canceled | Unknown | InvalidArgument | DeadlineExceeded | NotFound | ResourceExhausted | FailedPrecondition | Aborted
| Internal | Unavailable | DataLoss.
#[global] Instance code_eq_dec : EqDecision code.
Proof. solve_decision. Defined.

(** An error of a handler: the code and the text of its status. *)
Record status := mkStatus { Code : code; Message : bytes }.

Inductive service_error :=
| ErrMissingNamespace | ErrNamespaceNotExists | ErrInvalidMetadata | ErrMissingNamespaceInMetadata | ErrStreamTimeout
| ErrPutChunkPrecondition | ErrPutChunkCheckSumMismatch | ErrPutChunkAlreadyCommited | ErrClientMaxRetriesExceeded
| ErrOther.

Definition Error (e : service_error) : bytes :=
  match e with
  | ErrMissingNamespace => str "missing required parameter: namespace"
  | ErrNamespaceNotExists => str "namespace is not found on the current server"
  | ErrInvalidMetadata => str "bad metadata in request"
  | ErrMissingNamespaceInMetadata => str "missing required metadata: x-namespace"
  | ErrStreamTimeout => str "stream timeout: no records received within dynamic threshold seconds"
  | ErrPutChunkPrecondition => str "invalid sequence: StartMarker must be sent before sending chunks or calling CommitMarker"
  | ErrPutChunkCheckSumMismatch => str "invalid checksum: checksum mismatch"
  | ErrPutChunkAlreadyCommited => str "put chunk stream already commited"
  | ErrClientMaxRetriesExceeded => str "max retries exceeded"
  | ErrOther => []
  end.

Definition ToGRPCError (e : service_error) : status :=
  match e with
  | ErrMissingNamespace => mkStatus InvalidArgument (Error ErrMissingNamespace)
  | ErrNamespaceNotExists => mkStatus NotFound (Error ErrNamespaceNotExists)
  | ErrInvalidMetadata => mkStatus InvalidArgument (Error ErrInvalidMetadata)
  | ErrMissingNamespaceInMetadata => mkStatus InvalidArgument (Error ErrMissingNamespaceInMetadata)
  | ErrStreamTimeout => mkStatus Unavailable (Error ErrStreamTimeout)
  | ErrPutChunkPrecondition => mkStatus FailedPrecondition (Error ErrPutChunkPrecondition)
  | ErrPutChunkCheckSumMismatch => mkStatus DataLoss (Error ErrPutChunkCheckSumMismatch)
  | ErrPutChunkAlreadyCommited => mkStatus Aborted (Error ErrPutChunkAlreadyCommited)
  | ErrClientMaxRetriesExceeded | ErrOther => mkStatus Internal (str "internal server error")
  end.

Definition GracefulShutdownMsg : bytes := str "server is shutting down".

(** strings.Contains *)
Fixpoint Contains (s sub : bytes) : bool :=
  bool_decide (sub `prefix_of` s) || match s with [] => false | _ :: s => Contains s sub end.

Definition isGracefulShutdown (s : status) : bool :=
  bool_decide (Code s = Unavailable) && Contains (Message s) GracefulShutdownMsg.

(** ** Contexts and interceptors *)

Abbreviation MD := (gmap bytes (list bytes)).

Record Ctx := mkCtx { incoming : option MD; outgoing : list (bytes * bytes) }.

Definition AppendToOutgoingContext (k v : bytes) (ctx : Ctx) : Ctx := mkCtx (incoming ctx) (outgoing ctx ++ [(k, v)]).

Definition md_Get (k : bytes) (md : MD) : list bytes := default [] (md !! k).

(** The first value of a key in the metadata of the client. *)
Definition first_value (k : bytes) (ctx : Ctx) : bytes :=
  match incoming ctx with
  | None => []
  | Some md => match md_Get k md with v :: _ => v | [] => [] end
  end.

Definition GetMethod (ctx : Ctx) : bytes := first_value (str "x-method") ctx.
Definition GetNamespace (ctx : Ctx) : bytes := first_value (str "x-namespace") ctx.
Definition GetRequestID (ctx : Ctx) : bytes := first_value (str "x-request-id") ctx.

Definition GetRequestInfo (ctx : Ctx) : bytes * bytes * bytes := (GetNamespace ctx, GetRequestID ctx, GetMethod ctx).

(** [traceID] is that of the OpenTelemetry span, if it is valid; [fresh] what the
    uuid library makes. *)
Definition extractRequestID (traceID : option bytes) (fresh : bytes) (ctx : Ctx) : bytes :=
  match traceID with
  | Some t => t
  | None =>
      match incoming ctx with
      | None => fresh
      | Some md =>
          match md_Get (str "x-request-id") md with
          | v :: _ => v
          | [] => match md_Get (str "x-trace-id") md with v :: _ => v | [] => fresh end
          end
      end
  end.

Section interceptors.
Context {A : Type}.
Notation handler := (Ctx -> result status A).

Definition RequestIDUnaryInterceptor (traceID : option bytes) (fresh : bytes) (h : handler) (ctx : Ctx) : result status A :=
  h (AppendToOutgoingContext (str "x-request-id") (extractRequestID traceID fresh ctx) ctx).

(** [headerOk]: the header could be set; its error ends the call. *)
Definition RequestIDStreamInterceptor (traceID : option bytes) (fresh : bytes) (headerOk : bool) (h : handler) (ctx : Ctx) : result status A :=
  let ctx := AppendToOutgoingContext (str "x-request-id") (extractRequestID traceID fresh ctx) ctx in
  if headerOk then h ctx else Err (mkStatus Internal []).

(** The same for unary and streaming calls. *)
Definition RequireNamespaceInterceptor (h : handler) (ctx : Ctx) : result status A :=
  match incoming ctx with
  | None => Err (mkStatus InvalidArgument (Error ErrMissingNamespaceInMetadata))
  | Some md =>
      match md_Get (str "x-namespace") md with
      | [] => Err (mkStatus InvalidArgument (Error ErrMissingNamespaceInMetadata))
      | namespace :: _ => h (AppendToOutgoingContext (str "x-namespace") namespace ctx)
      end
  end.

Definition MethodInterceptor (fullMethod : bytes) (h : handler) (ctx : Ctx) : result status A :=
  h (AppendToOutgoingContext (str "x-method") fullMethod ctx).

(** The chain of the server. *)
Definition chain (traceID : option bytes) (fresh : bytes) (headerOk : bool) (fullMethod : bytes) (h : handler) : handler :=
  RequireNamespaceInterceptor (RequestIDStreamInterceptor traceID fresh headerOk (MethodInterceptor fullMethod h)).

(** A handler behind the chain sees the client's metadata and nothing else: a
    missing or empty list of namespaces never reaches it, but neither do the
    request id that was made for the call nor the name of the method. *)
Lemma chain_spec traceID fresh headerOk fullMethod (h : handler) ctx :
  chain traceID fresh headerOk fullMethod h ctx =
  match incoming ctx with
  | Some md =>
      match md_Get (str "x-namespace") md with
      | [] => Err (mkStatus InvalidArgument (Error ErrMissingNamespaceInMetadata))
      | ns :: _ =>
          if headerOk then
            h (mkCtx (Some md) (outgoing ctx ++ [(str "x-namespace", ns); (str "x-request-id", extractRequestID traceID fresh ctx); (str "x-method", fullMethod)]))
          else Err (mkStatus Internal [])
      end
  | None => Err (mkStatus InvalidArgument (Error ErrMissingNamespaceInMetadata))
  end.
Proof.
  unfold chain, RequireNamespaceInterceptor. destruct (incoming ctx) as [md|] eqn:E; [|done].
  destruct (md_Get _ md) as [|ns rest]; [done|]. unfold RequestIDStreamInterceptor. destruct headerOk; [|done].
  unfold MethodInterceptor, AppendToOutgoingContext. cbn [incoming outgoing]. rewrite E, <- !app_assoc. cbn [app]. do 4 f_equal.
  unfold extractRequestID. cbn [incoming]. by rewrite E.
Qed.
End interceptors.

(** ** Names of methods *)

Definition strUnknown : bytes := str "unknown".

Definition parseFullMethodName (full : bytes) : bytes * bytes :=
  match full with
  | [] => (strUnknown, strUnknown)
  | c :: rest =>
      let trimmed := if bool_decide (c = slash) then rest else full in
      match Split trimmed with
      | [a; b] => (a, b)
      | _ => (strUnknown, strUnknown)
      end
  end.

Inductive stream_kind := bidiStream | serverStream | clientStream | unary.
#[global] Instance stream_kind_eq_dec : EqDecision stream_kind.
Proof. solve_decision. Defined.
#[global] Instance stream_kind_countable : Countable stream_kind.
Proof.
  refine (inj_countable' (fun k => match k with bidiStream => (true, true) | serverStream => (true, false) | clientStream => (false, true) | unary => (false, false) end)
    (fun b => if b.1 then if b.2 then bidiStream else serverStream else if b.2 then clientStream else unary) _).
  by intros [].
Defined.

Record ServiceDesc := mkService { ServiceName : bytes; Methods : list bytes; Streams : list (bytes * (bool * bool)) }.

Definition fullMethodName (service method : bytes) : bytes := slash :: service ++ slash :: method.

Definition methodType (clientStreams serverStreams : bool) : stream_kind :=
  if clientStreams && serverStreams then bidiStream else if clientStreams then clientStream else serverStream.

Definition register_service (methodTypes : gmap bytes stream_kind) (svc : ServiceDesc) : gmap bytes stream_kind :=
  let methodTypes := foldl (fun m name => <[fullMethodName (ServiceName svc) name := unary]> m) methodTypes (Methods svc) in
  foldl (fun m '(name, (c, s)) => <[fullMethodName (ServiceName svc) name := methodType c s]> m) methodTypes (Streams svc).

Definition RegisterGRPCSMethods (services : list ServiceDesc) : gmap bytes stream_kind := foldl register_service ∅ services.

Definition grpcStreamType (isClientStream isServerStream : bool) : stream_kind :=
  if isClientStream && isServerStream then bidiStream else if isServerStream then serverStream
  else if isClientStream then clientStream else unary.
