(* ===== verification/KVSnapshot.v ===== *)
(** The database files of the drivers: pkg/kvdrivers/{bolt,lmdb}.go, opening,
    closing, snapshots and restores.

    The files are a map from names to contents: for bbolt the name is the path
    of the database, for LMDB it is a name inside the directory of the
    environment.  What the libraries keep in a file is the class [DbFile]: the
    buckets a file holds, the file after a transaction, and the copy that a
    snapshot writes.  Whether a call of the file system or of a library fails,
    and how many bytes arrive before it does, are arguments. *)

From stdpp Require Import prelude list numbers gmap.
From Stdlib Require Import ZArith Lia.
From S2P Require Import Prelude Bytes KeyCodec KVKeys KVStore KVBolt KVLmdb LogCodec GrpcUtils.
Import Stdlib.Strings.String.StringSyntax.

Definition sysBucketMetaData : bytes := str "sys.kv.unison.db.wal.metadata.bucket".

Notation Files := (gmap bytes bytes).

(** ** What the libraries keep in a file *)

Class DbFile (B : Type) := {
  db_buckets : bytes -> option (gmap bytes B);
  db_commit : bytes -> gmap bytes B -> bytes;
  db_copy : bytes -> bytes;
  db_new : bytes;
  db_bucket : B;
  db_invalid : lib_error;
  db_not_open : lib_error
}.

(** A committed transaction is what the next one finds; [Tx.WriteTo] "writes the
    entire database to a writer" and [mdb_env_copy] makes a backup "of an
    existing LMDB environment"; a database that is created has no buckets, and a
    file without bytes is none. *)
Class DbFileLaws (B : Type) `{DbFile B} := {
  db_commit_law f m m' : db_buckets f = Some m -> db_buckets (db_commit f m') = Some m';
  db_copy_law f m : db_buckets f = Some m -> db_buckets (db_copy f) = Some m;
  db_new_law : db_buckets db_new = Some ∅;
  db_empty_law : db_buckets [] = None
}.

(** ** The destination of a snapshot *)

(** A file with its position, or any other writer with what it has received. *)
Inductive Writer := WFile (content : bytes) (pos : nat) | WStream (out : bytes).

Definition write_at (content : bytes) (pos : nat) (d : bytes) : bytes :=
  match d with
  | [] => content
  | _ => take pos content ++ replicate (pos - length content) Byte.x00 ++ d ++ drop (pos + length d) content
  end.

(** [io.Copy] that fails after some bytes. *)
Definition passed (fails : option nat) (d : bytes) : bytes := match fails with None => d | Some n => take n d end.

Inductive snap_error := SnapLib (e : lib_error) | SnapTempDir | SnapOpenCopy | SnapTruncate | SnapSeek | SnapWrite | SnapFlush | SnapSync.

Record SnapIO := mkSnapIO {
  sn_tempdir : bool; sn_name : bytes; sn_copy : option lib_error; sn_openCopy : bool; sn_begin : option lib_error; sn_truncate : bool;
  sn_seek : bool; sn_write : option nat; sn_flush : option nat; sn_sync : bool; sn_removed : bool
}.

(** Writing to a file at its position, then fsync. *)
Definition to_file (io : SnapIO) (data content : bytes) (pos : nat) : Writer * option snap_error :=
  let d := passed (sn_write io) data in
  let w := WFile (write_at content pos d) (pos + length d) in
  match sn_write io with
  | Some _ => (w, Some SnapWrite)
  | None => if sn_sync io then (w, None) else (w, Some SnapSync)
  end.

(** Writing through a [bufio.Writer], then its flush. *)
Definition to_stream (io : SnapIO) (data out : bytes) : Writer * option snap_error :=
  match sn_write io with
  | Some n => (WStream (out ++ take n data), Some SnapWrite)
  | None =>
      match sn_flush io with
      | Some n => (WStream (out ++ take n data), Some SnapFlush)
      | None => (WStream (out ++ data), None)
      end
  end.

Inductive restore_error :=
| RestoreNoPath | RestoreClose | RestoreCreate | RestoreWrite | RestoreFlush | RestoreSync | RestoreCloseTemp | RestoreRename
| RestoreOpen (e : lib_error).

(** [_ = os.Remove(name)] *)
Definition remove (ok : bool) (name : bytes) (files : Files) : Files := if ok then delete name files else files.

(** [os.Rename] of a file that is there. *)
Definition rename (from to : bytes) (files : Files) : Files :=
  match files !! from with
  | Some f => <[to := f]> (delete from files)
  | None => files
  end.

Section files.
Context {B : Type} `{DbFile B}.

(** The library opens a database file, and creates it when there is none. *)
Definition lib_open (err : option lib_error) (name : bytes) (files : Files) : Files * option lib_error :=
  match err with
  | Some e => (files, Some e)
  | None =>
      match default [] (files !! name) with
      | [] => (<[name := db_new]> files, None)
      | f => (files, match db_buckets f with Some _ => None | None => Some db_invalid end)
      end
  end.

(** A transaction that may create buckets. *)
Definition update_file (io : TxIO) (name : bytes) (fn : gmap bytes B -> result lib_error (gmap bytes B)) (files : Files)
  : Files * option lib_error :=
  match tx_begin io with
  | Some e => (files, Some e)
  | None =>
      let f := default [] (files !! name) in
      match db_buckets f with
      | None => (files, Some db_invalid)
      | Some m =>
          match fn m with
          | Err e => (files, Some e)
          | Ok m' =>
              match tx_commit io with
              | Some e => (files, Some e)
              | None => (<[name := db_commit f m']> files, None)
              end
          end
      end
  end.

(** [CreateBucketIfNotExists], and [OpenDBI] with [lmdb.Create]. *)
Definition create_bucket (err : option lib_error) (name : bytes) (m : gmap bytes B) : result lib_error (gmap bytes B) :=
  match err with
  | Some e => Err e
  | None => Ok (match m !! name with Some _ => m | None => <[name := db_bucket]> m end)
  end.

(** ** bbolt *)

(** [be_open]: the database has not been closed. *)
Record BoltDBEmbed := mkBoltEmbed { be_open : bool; be_NoSync : bool; be_namespace : bytes; be_path : bytes; be_confNoSync : bool }.

Definition bolt_opened (open noSync : bool) (b : BoltDBEmbed) : BoltDBEmbed :=
  mkBoltEmbed open noSync (be_namespace b) (be_path b) (be_confNoSync b).

Record BoltOpenIO := mkBoltOpenIO { bo_open : option lib_error; bo_tx : TxIO; bo_bucket : nat -> option lib_error }.

(** The driver is returned together with the error of its buckets. *)
Definition NewBoltdb (io : BoltOpenIO) (path namespace : bytes) (noSync : bool) (files : Files)
  : Files * option BoltDBEmbed * option lib_error :=
  let '(files, err) := lib_open (bo_open io) path files in
  match err with
  | Some e => (files, None, Some e)
  | None =>
      let '(files, err) := update_file (bo_tx io) path (fun m =>
        match create_bucket (bo_bucket io 0%nat) namespace m with
        | Err e => Err e
        | Ok m => create_bucket (bo_bucket io 1%nat) sysBucketMetaData m
        end) files in
      (files, Some (mkBoltEmbed true false namespace path noSync), err)
  end.

Definition bolt_Close (b : BoltDBEmbed) : BoltDBEmbed := bolt_opened false (be_NoSync b) b.

Definition restore_suffix : bytes := str ".restore.tmp".

(** [ri_close]: [None] when the database is closed; otherwise whether it can
    still be used. *)
Record BoltRestoreIO := mkBoltRestoreIO {
  ri_close : option bool; ri_create : bool; ri_copy : option nat; ri_sync : bool; ri_closeTemp : bool; ri_rename : bool;
  ri_removed : bool; ri_open : option lib_error
}.

Definition bolt_Restore (io : BoltRestoreIO) (reader : bytes) (b : BoltDBEmbed) (files : Files) : BoltDBEmbed * Files * option restore_error :=
  match ri_close io with
  | Some usable => (bolt_opened usable (be_NoSync b) b, files, Some RestoreClose)
  | None =>
      let b := bolt_Close b in
      let tmpPath := be_path b ++ restore_suffix in
      if negb (ri_create io) then (b, files, Some RestoreCreate) else
      let files := <[tmpPath := passed (ri_copy io) reader]> files in
      let removed := remove (ri_removed io) tmpPath files in
      match ri_copy io with
      | Some _ => (b, removed, Some RestoreWrite)
      | None =>
          if negb (ri_sync io) then (b, removed, Some RestoreSync) else
          if negb (ri_closeTemp io) then (b, removed, Some RestoreCloseTemp) else
          if negb (ri_rename io) then (b, removed, Some RestoreRename) else
          let files := rename tmpPath (be_path b) files in
          let '(files, err) := lib_open (ri_open io) (be_path b) files in
          match err with
          | Some e => (b, files, Some (RestoreOpen e))
          | None => (bolt_opened true (be_confNoSync b) b, files, None)
          end
      end
  end.

(** A read transaction copies the file as it is to the writer. *)
Definition bolt_Snapshot (io : SnapIO) (files : Files) (b : BoltDBEmbed) (w : Writer) : Writer * option snap_error :=
  if negb (be_open b) then (w, Some (SnapLib db_not_open)) else
  match sn_begin io with
  | Some e => (w, Some (SnapLib e))
  | None =>
      let data := db_copy (default [] (files !! be_path b)) in
      match w with
      | WFile content pos => to_file io data content pos
      | WStream out => to_stream io data out
      end
  end.

(** ** LMDB *)

Record LmdbEnv := mkLmdbEnv { le_open : bool; le_flagNoSync : bool; le_namespace : bytes; le_path : bytes; le_mmapSize : Z; le_noSync : bool }.

Definition lmdb_opened (open flag : bool) (l : LmdbEnv) : LmdbEnv :=
  mkLmdbEnv open flag (le_namespace l) (le_path l) (le_mmapSize l) (le_noSync l).

Fixpoint first_error {X} (steps : list (option X)) : option X :=
  match steps with
  | [] => None
  | Some e :: _ => Some e
  | None :: rest => first_error rest
  end.

Definition data_mdb : bytes := str "data.mdb".

Record EnvIO := mkEnvIO {
  ev_mkdir : option lib_error; ev_newEnv : option lib_error; ev_maxDBs : option lib_error; ev_mapSize : option lib_error; ev_open : option lib_error;
  ev_flags : option lib_error; ev_readers : option lib_error; ev_tx : nat -> TxIO; ev_dbi : nat -> option lib_error
}.

(** The flag of the environment is set only for [NoSync]. *)
Definition set_flags (io : EnvIO) (noSync : bool) : option lib_error := if noSync then ev_flags io else None.

Definition NewLmdb (io : EnvIO) (path namespace : bytes) (mmapSize : Z) (noSync : bool) (files : Files) : Files * result lib_error LmdbEnv :=
  match first_error [ev_mkdir io; ev_newEnv io; ev_maxDBs io; ev_mapSize io] with
  | Some e => (files, Err e)
  | None =>
      let '(files, err) := lib_open (ev_open io) data_mdb files in
      match first_error [err; set_flags io noSync; ev_readers io] with
      | Some e => (files, Err e)
      | None =>
          let '(files, err) := update_file (ev_tx io 0%nat) data_mdb (create_bucket (ev_dbi io 0%nat) namespace) files in
          match err with
          | Some e => (files, Err e)
          | None =>
              let '(files, err) := update_file (ev_tx io 1%nat) data_mdb (create_bucket (ev_dbi io 1%nat) sysBucketMetaData) files in
              match err with
              | Some e => (files, Err e)
              | None => (files, Ok (mkLmdbEnv true noSync namespace path mmapSize noSync))
              end
          end
      end
  end.

Definition lmdb_Close (l : LmdbEnv) : LmdbEnv := lmdb_opened false (le_flagNoSync l) l.

(** The copy is made in a new directory, which is removed at the end. *)
Definition lmdb_Snapshot (io : SnapIO) (l : LmdbEnv) (files : Files) (w : Writer) : Files * Writer * option snap_error :=
  let srcPath := str "lmdb-snapshot-" ++ sn_name io ++ str "/data.mdb" in
  if negb (sn_tempdir io) || bool_decide (is_Some (files !! srcPath)) then (files, w, Some SnapTempDir) else
  if negb (le_open l) then (files, w, Some (SnapLib db_not_open)) else
  match sn_copy io with
  | Some e => (files, w, Some (SnapLib e))
  | None =>
      let files := <[srcPath := db_copy (default [] (files !! data_mdb))]> files in
      let removed := remove (sn_removed io) srcPath files in
      if negb (sn_openCopy io) then (removed, w, Some SnapOpenCopy) else
      let data := default [] (files !! srcPath) in
      match w with
      | WFile content pos =>
          if negb (sn_truncate io) then (removed, w, Some SnapTruncate) else
          if negb (sn_seek io) then (removed, WFile [] pos, Some SnapSeek) else
          let '(w, err) := to_file io data [] 0 in (removed, w, err)
      | WStream out => let '(w, err) := to_stream io data out in (removed, w, err)
      end
  end.

Record LmdbRestoreIO := mkLmdbRestoreIO {
  rs_create : bool; rs_name : bytes; rs_copy : option nat; rs_flush : option nat; rs_sync : bool; rs_closeTemp : bool; rs_tempRemoved : bool;
  rs_close : option bool; rs_dataRemoved : bool; rs_rename : bool; rs_env : EnvIO
}.

Definition writeSnapshotToTemp (io : LmdbRestoreIO) (r : bytes) (files : Files) : Files * result restore_error bytes :=
  let tmpPath := str "lmdb-restore-" ++ rs_name io ++ str ".mdb" in
  if negb (rs_create io) || bool_decide (is_Some (files !! tmpPath)) then (files, Err RestoreCreate) else
  match rs_copy io with
  | Some n => (remove (rs_tempRemoved io) tmpPath (<[tmpPath := take n r]> files), Err RestoreWrite)
  | None =>
      match rs_flush io with
      | Some n => (remove (rs_tempRemoved io) tmpPath (<[tmpPath := take n r]> files), Err RestoreFlush)
      | None =>
          let files := <[tmpPath := r]> files in
          if negb (rs_sync io) then (remove (rs_tempRemoved io) tmpPath files, Err RestoreSync) else
          if negb (rs_closeTemp io) then (remove (rs_tempRemoved io) tmpPath files, Err RestoreCloseTemp) else
          (files, Ok tmpPath)
      end
  end.

(** The old file is removed before the new one takes its name. *)
Definition swapInSnapshot (io : LmdbRestoreIO) (tmpPath : bytes) (l : LmdbEnv) (files : Files) : LmdbEnv * Files * option restore_error :=
  match rs_close io with
  | Some usable => (lmdb_opened usable (le_flagNoSync l) l, files, Some RestoreClose)
  | None =>
      let l := lmdb_Close l in
      let files := remove (rs_dataRemoved io) data_mdb files in
      if negb (rs_rename io) then (l, files, Some RestoreRename) else (l, rename tmpPath data_mdb files, None)
  end.

Definition reopenEnvAndDBIs (io : EnvIO) (l : LmdbEnv) (files : Files) : Files * option restore_error :=
  match first_error [ev_newEnv io; ev_maxDBs io; ev_mapSize io] with
  | Some e => (files, Some (RestoreOpen e))
  | None =>
      let '(files, err) := lib_open (ev_open io) data_mdb files in
      match first_error [err; set_flags io (le_noSync l)] with
      | Some e => (files, Some (RestoreOpen e))
      | None =>
          let '(files, err) := update_file (ev_tx io 0%nat) data_mdb (fun m =>
            match create_bucket (ev_dbi io 0%nat) (le_namespace l) m with
            | Err e => Err e
            | Ok m => create_bucket (ev_dbi io 1%nat) sysBucketMetaData m
            end) files in
          (files, RestoreOpen <$> err)
      end
  end.

Definition lmdb_Restore (io : LmdbRestoreIO) (r : bytes) (l : LmdbEnv) (files : Files) : LmdbEnv * Files * option restore_error :=
  if bool_decide (le_path l = []) then (l, files, Some RestoreNoPath) else
  let '(files, tmp) := writeSnapshotToTemp io r files in
  match tmp with
  | Err e => (l, files, Some e)
  | Ok tmpPath =>
      let '(l, files, err) := swapInSnapshot io tmpPath l files in
      match err with
      | Some e => (l, remove (rs_tempRemoved io) tmpPath files, Some e)
      | None =>
          let '(files, err) := reopenEnvAndDBIs (rs_env io) l files in
          match err with
          | Some e => (l, remove (rs_tempRemoved io) tmpPath files, Some e)
          | None => (lmdb_opened true (le_noSync l) l, remove (rs_tempRemoved io) tmpPath files, None)
          end
      end
  end.

(** ** What the operations of the drivers find in the files *)

Definition bolt_db (files : Files) (b : BoltDBEmbed) : option (BoltDB B) :=
  if be_open b then
    f ← files !! be_path b; m ← db_buckets f; Some (mkBoltDB (m !! be_namespace b) (m !! sysBucketMetaData))
  else None.

Definition lmdb_db (files : Files) (l : LmdbEnv) : option (LmdbEmbed B) :=
  if le_open l then
    f ← files !! data_mdb; m ← db_buckets f; d ← m !! le_namespace l; s ← m !! sysBucketMetaData; Some (mkLmdb d s)
  else None.
End files.

(** ** Facts about files *)

Lemma remove_other ok n name files : n <> name -> remove ok name files !! n = files !! n.
Proof. intros Hn. destruct ok; cbn; [by rewrite lookup_delete_ne|done]. Qed.

Lemma rename_target from to files f : files !! from = Some f -> rename from to files !! to = Some f.
Proof. intros Hf. unfold rename. by rewrite Hf, lookup_insert_eq. Qed.

Lemma rename_other n from to files : n <> from -> n <> to -> rename from to files !! n = files !! n.
Proof. intros H1 H2. unfold rename. destruct (files !! from); [|done]. by rewrite lookup_insert_ne, lookup_delete_ne. Qed.

Lemma restore_name_ne path : path ++ restore_suffix <> path.
Proof. intros Heq. apply (f_equal length) in Heq. rewrite length_app in Heq. cbn in Heq. lia. Qed.

Section file_facts.
Context {B : Type} `{DbFileLaws B}.

Lemma lib_open_other err name files n : n <> name -> (lib_open err name files).1 !! n = files !! n.
Proof. intros Hn. unfold lib_open. destruct err; [done|]. destruct (default [] (files !! name)); [|done]. cbn. by rewrite lookup_insert_ne. Qed.

Lemma lib_open_fails err name files e : (lib_open err name files).2 = Some e -> (lib_open err name files).1 = files.
Proof. unfold lib_open. destruct err; [done|]. by destruct (default [] (files !! name)). Qed.

(** What a database holds when it is opened on the bytes [f]: nothing when there
    are none. *)
Definition found_in (f : bytes) : option (gmap bytes B) := match f with [] => Some ∅ | _ => db_buckets f end.

Lemma lib_open_ok err name files : (lib_open err name files).2 = None ->
  exists f m, (lib_open err name files).1 !! name = Some f /\ db_buckets f = Some m /\ found_in (default [] (files !! name)) = Some m.
Proof.
  unfold lib_open. destruct err; [done|]. destruct (files !! name) as [[|x f]|] eqn:Hf; cbn.
  - intros _. exists db_new, ∅. split; [by rewrite lookup_insert_eq|]. split; [apply db_new_law|done].
  - destruct (db_buckets (x :: f)) as [m|] eqn:Hm; [|done]. intros _. by exists (x :: f), m.
  - intros _. exists db_new, ∅. split; [by rewrite lookup_insert_eq|]. split; [apply db_new_law|done].
Qed.

Lemma update_file_other io name fn files n : n <> name -> (update_file io name fn files).1 !! n = files !! n.
Proof.
  intros Hn. unfold update_file. destruct (tx_begin io); [done|]. destruct (db_buckets _) as [m|]; [|done]. destruct (fn m); [|done].
  destruct (tx_commit io); [done|]. cbn. by rewrite lookup_insert_ne.
Qed.

Lemma update_file_ok io name fn files f m : files !! name = Some f -> db_buckets f = Some m -> (update_file io name fn files).2 = None ->
  exists f' m', fn m = Ok m' /\ (update_file io name fn files).1 !! name = Some f' /\ db_buckets f' = Some m'.
Proof.
  intros Hf Hm. unfold update_file. destruct (tx_begin io); [done|]. rewrite Hf. change (default [] (Some f)) with f. rewrite Hm. destruct (fn m) as [m'|]; [|done].
  destruct (tx_commit io); [done|]. intros _. exists (db_commit f m'), m'. split; [done|]. split; [apply lookup_insert_eq|by eapply db_commit_law].
Qed.

Lemma update_file_fails io name fn files e : (update_file io name fn files).2 = Some e -> (update_file io name fn files).1 = files.
Proof.
  unfold update_file. destruct (tx_begin io); [done|]. destruct (db_buckets _) as [m|]; [|done]. destruct (fn m); [|done]. by destruct (tx_commit io).
Qed.

(** Buckets that are there are kept. *)
Definition with_bucket (name : bytes) (m : gmap bytes B) : gmap bytes B := match m !! name with Some _ => m | None => <[name := db_bucket]> m end.

Lemma create_bucket_ok err name m m' : create_bucket err name m = Ok m' -> m' = with_bucket name m.
Proof. unfold create_bucket. by destruct err; intros [= <-]. Qed.

Lemma with_bucket_kept name m n b : m !! n = Some b -> with_bucket name m !! n = Some b.
Proof. intros Hn. unfold with_bucket. destruct (m !! name) eqn:E; [done|]. rewrite lookup_insert_ne; [done|]. intros ->. congruence. Qed.

Lemma with_bucket_there name m : is_Some (with_bucket name m !! name).
Proof. unfold with_bucket. destruct (m !! name) eqn:E; [by eexists|]. rewrite lookup_insert_eq. by eexists. Qed.

(** The buckets of an opened driver. *)
Definition prepared (namespace : bytes) (m : gmap bytes B) : gmap bytes B := with_bucket sysBucketMetaData (with_bucket namespace m).
End file_facts.

(** ** bbolt: what opening, snapshots and restores do *)

Section bolt_facts.
Context {B : Type} `{DbFileLaws B}.

(** Opening keeps what the file holds. *)
Lemma NewBoltdb_ok io path namespace noSync files files' b : NewBoltdb io path namespace noSync files = (files', Some b, None) ->
  exists m, found_in (default [] (files !! path)) = Some m /\
    bolt_db files' b = Some (mkBoltDB (prepared namespace m !! namespace) (prepared namespace m !! sysBucketMetaData)).
Proof.
  unfold NewBoltdb. destruct (lib_open (bo_open io) path files) as [files1 err] eqn:Ho.
  pose proof (lib_open_ok (bo_open io) path files) as Hok. rewrite Ho in Hok. destruct err; [done|]. destruct (Hok eq_refl) as (f & m & Hf & Hm & Hfound).
  set (fn := fun m : gmap bytes B => _). destruct (update_file (bo_tx io) path fn files1) as [files2 err] eqn:Hu. intros [= <- <- ->].
  pose proof (update_file_ok (bo_tx io) path fn files1 f m Hf Hm) as Huk. rewrite Hu in Huk. destruct (Huk eq_refl) as (f' & m' & Hfn & Hf' & Hm').
  exists m. split; [done|]. unfold bolt_db. cbn [be_open be_path be_namespace]. cbn [fst] in Hf'. rewrite Hf'. cbn [mbind option_bind]. rewrite Hm'. cbn [mbind option_bind].
  subst fn. cbn beta in Hfn. destruct (create_bucket _ namespace m) as [m1|] eqn:E1; [|done]. apply create_bucket_ok in E1 as ->.
  by apply create_bucket_ok in Hfn as ->.
Qed.

Definition received (w : Writer) : bytes := match w with WFile content _ => content | WStream out => out end.

Lemma to_file_received io data w : to_file io data [] 0 = (w, None) -> received w = data.
Proof.
  unfold to_file. destruct (sn_write io); [done|]. destruct (sn_sync io); [|done]. intros [= <-]. cbn [passed received]. unfold write_at.
  destruct data as [|x data]; [done|]. rewrite take_nil, drop_nil, app_nil_r. done.
Qed.

Lemma to_stream_received io data out w : to_stream io data out = (w, None) -> received w = out ++ data.
Proof. unfold to_stream. destruct (sn_write io); [done|]. destruct (sn_flush io); [done|]. by intros [= <-]. Qed.

(** A destination that is empty. *)
Definition empty_writer (w : Writer) : Prop := w = WFile [] 0 \/ w = WStream [].

Lemma bolt_Snapshot_ok io files b w w' : empty_writer w -> bolt_Snapshot io files b w = (w', None) ->
  be_open b = true /\ received w' = db_copy (default [] (files !! be_path b)).
Proof.
  intros Hw. unfold bolt_Snapshot. destruct (be_open b); [|done]. destruct (sn_begin io); [done|]. intros Hs. split; [done|].
  destruct Hw as [->| ->]; [by apply to_file_received in Hs|by apply to_stream_received in Hs].
Qed.

(** What a restore leaves behind, for every failure. *)
Lemma bolt_Restore_spec io reader b files b' files' err : bolt_Restore io reader b files = (b', files', err) ->
  (forall n, n <> be_path b -> n <> be_path b ++ restore_suffix -> files' !! n = files !! n) /\
  be_namespace b' = be_namespace b /\ be_path b' = be_path b /\
  match err with
  | None => be_open b' = true /\ be_NoSync b' = be_confNoSync b /\
      exists f m, files' !! be_path b = Some f /\ db_buckets f = Some m /\ found_in reader = Some m
  | Some RestoreClose => files' = files
  | Some (RestoreOpen _) => be_open b' = false /\ files' !! be_path b = Some reader
  | Some _ => be_open b' = false /\ files' !! be_path b = files !! be_path b
  end.
Proof.
  unfold bolt_Restore. destruct (ri_close io) as [usable|]; [by intros [= <- <- <-]|]. cbn [be_path bolt_Close bolt_opened].
  pose proof (restore_name_ne (be_path b)) as Hne. set (tmp := be_path b ++ restore_suffix) in *.
  destruct (ri_create io); [|by intros [= <- <- <-]]. cbn [negb]. set (files1 := <[tmp := _]> files).
  assert (forall n, n <> tmp -> files1 !! n = files !! n) as H1 by (intros n Hn; subst files1; by rewrite lookup_insert_ne).
  assert (forall n, n <> tmp -> remove (ri_removed io) tmp files1 !! n = files !! n) as H2 by (intros n Hn; rewrite remove_other by done; by apply H1).
  destruct (ri_copy io) as [k|] eqn:Hcopy; [intros [= <- <- <-]; repeat split; auto|].
  destruct (ri_sync io); [|intros [= <- <- <-]; repeat split; auto]. cbn [negb].
  destruct (ri_closeTemp io); [|intros [= <- <- <-]; repeat split; auto]. cbn [negb].
  destruct (ri_rename io); [|intros [= <- <- <-]; repeat split; auto]. cbn [negb].
  assert (files1 !! tmp = Some reader) as Htmp by (subst files1; by rewrite lookup_insert_eq).
  set (files2 := rename tmp (be_path b) files1). assert (files2 !! be_path b = Some reader) as Hdb by by apply rename_target.
  assert (forall n, n <> be_path b -> n <> tmp -> files2 !! n = files !! n) as H3 by (intros n Hn Hn'; subst files2; rewrite rename_other by done; by apply H1).
  destruct (lib_open (ri_open io) (be_path b) files2) as [files3 oerr] eqn:Ho.
  pose proof (lib_open_other (ri_open io) (be_path b) files2) as Hother. rewrite Ho in Hother. cbn [fst] in Hother.
  destruct oerr as [e|]; intros [= <- <- <-].
  - split; [intros n Hn Hn'; rewrite Hother by done; by apply H3|]. split; [done|]. split; [done|]. split; [done|].
    pose proof (lib_open_fails (ri_open io) (be_path b) files2 e) as Hf. rewrite Ho in Hf. cbn in Hf. by rewrite (Hf eq_refl).
  - split; [intros n Hn Hn'; rewrite Hother by done; by apply H3|]. split; [done|]. split; [done|]. split; [done|]. split; [done|].
    pose proof (lib_open_ok (ri_open io) (be_path b) files2) as Hok. rewrite Ho in Hok. destruct (Hok eq_refl) as (f & m & Hf & Hm & Hfound).
    rewrite Hdb in Hfound. by exists f, m.
Qed.

Lemma found_in_copy f m : db_buckets f = Some m -> found_in (db_copy f) = Some m.
Proof.
  intros Hm. pose proof (db_copy_law f m Hm) as Hc. unfold found_in. destruct (db_copy f) as [|x c]; [|done]. by rewrite db_empty_law in Hc.
Qed.
End bolt_facts.

(** ** LMDB: what opening, snapshots and restores do *)

Section lmdb_facts.
Context {B : Type} `{DbFileLaws B}.

Lemma first_error_none {X} (e : option X) rest : first_error (e :: rest) = None -> e = None /\ first_error rest = None.
Proof. by destruct e. Qed.

Lemma prepared_db files l f m m0 : le_open l = true -> files !! data_mdb = Some f -> db_buckets f = Some m -> m = prepared (le_namespace l) m0 ->
  exists d s, lmdb_db files l = Some (mkLmdb d s) /\ m !! le_namespace l = Some d /\ m !! sysBucketMetaData = Some s.
Proof.
  intros Ho Hf Hm ->. unfold lmdb_db. rewrite Ho, Hf. cbn [mbind option_bind]. rewrite Hm. cbn [mbind option_bind].
  destruct (with_bucket_there (le_namespace l) m0) as [d Hd]. apply (with_bucket_kept sysBucketMetaData) in Hd.
  destruct (with_bucket_there sysBucketMetaData (with_bucket (le_namespace l) m0)) as [s Hs]. exists d, s. unfold prepared. by rewrite Hd, Hs.
Qed.

(** Opening keeps what the file holds and makes both databases. *)
Lemma NewLmdb_ok io path namespace mmapSize noSync files files' l : NewLmdb io path namespace mmapSize noSync files = (files', Ok l) ->
  exists m d s, found_in (default [] (files !! data_mdb)) = Some m /\ lmdb_db files' l = Some (mkLmdb d s) /\
    prepared namespace m !! namespace = Some d /\ prepared namespace m !! sysBucketMetaData = Some s.
Proof.
  unfold NewLmdb. destruct (first_error [ev_mkdir io; _; _; _]); [done|].
  destruct (lib_open (ev_open io) data_mdb files) as [files1 err] eqn:Ho. destruct (first_error [err; _; _]) eqn:Herr; [done|].
  apply first_error_none in Herr as [-> _]. pose proof (lib_open_ok (ev_open io) data_mdb files) as Hok. rewrite Ho in Hok.
  destruct (Hok eq_refl) as (f & m & Hf & Hm & Hfound). cbn [fst] in Hf.
  pose proof (update_file_ok (ev_tx io 0%nat) data_mdb (create_bucket (ev_dbi io 0%nat) namespace) files1 f m Hf Hm) as Hu1.
  destruct (update_file (ev_tx io 0%nat) _ _ files1) as [files2 [|]]; [done|]. destruct (Hu1 eq_refl) as (f1 & m1 & Hm1 & Hf1 & Hb1). cbn [fst] in Hf1.
  pose proof (update_file_ok (ev_tx io 1%nat) data_mdb (create_bucket (ev_dbi io 1%nat) sysBucketMetaData) files2 f1 m1 Hf1 Hb1) as Hu2.
  destruct (update_file (ev_tx io 1%nat) _ _ files2) as [files3 [|]]; [done|]. destruct (Hu2 eq_refl) as (f2 & m2 & Hm2 & Hf2 & Hb2). cbn [fst] in Hf2.
  intros [= <- <-]. apply create_bucket_ok in Hm1 as ->. apply create_bucket_ok in Hm2 as ->.
  destruct (prepared_db files3 (mkLmdbEnv true noSync namespace path mmapSize noSync) f2 _ m eq_refl Hf2 Hb2 eq_refl) as (d & s & Hdb & Hd & Hs).
  by exists m, d, s.
Qed.

Lemma snapshot_name_ne name : str "lmdb-snapshot-" ++ name ++ str "/data.mdb" <> data_mdb.
Proof. by intros [=]. Qed.

Lemma lmdb_restore_name_ne name : str "lmdb-restore-" ++ name ++ str ".mdb" <> data_mdb.
Proof. by intros [=]. Qed.

(** A snapshot does not touch the environment, and a complete one is a copy of
    it; a file that is written to is cut off first. *)
Lemma lmdb_Snapshot_ok io l files w files' w' err : lmdb_Snapshot io l files w = (files', w', err) ->
  files' !! data_mdb = files !! data_mdb /\
  (err = None -> (w = WStream [] \/ exists content pos, w = WFile content pos) ->
    le_open l = true /\ received w' = db_copy (default [] (files !! data_mdb))).
Proof.
  unfold lmdb_Snapshot. set (src := str "lmdb-snapshot-" ++ sn_name io ++ str "/data.mdb"). assert (data_mdb <> src) as Hne by (intros ?; by apply (snapshot_name_ne (sn_name io))).
  destruct (negb (sn_tempdir io) || _); [by intros [= <- <- <-]|]. destruct (le_open l); [|by intros [= <- <- <-]]. cbn [negb].
  destruct (sn_copy io); [by intros [= <- <- <-]|]. set (files1 := <[src := _]> files).
  assert (files1 !! src = Some (db_copy (default [] (files !! data_mdb)))) as Hsrc by (subst files1; apply lookup_insert_eq).
  assert (remove (sn_removed io) src files1 !! data_mdb = files !! data_mdb) as Hd by (rewrite remove_other by done; subst files1; by rewrite lookup_insert_ne).
  destruct (sn_openCopy io); [|by intros [= <- <- <-]]. cbn [negb]. rewrite Hsrc. change (default [] (Some ?x)) with x. destruct w as [content pos|out].
  - destruct (sn_truncate io); [|by intros [= <- <- <-]]. cbn [negb]. destruct (sn_seek io); [|by intros [= <- <- <-]]. cbn [negb].
    destruct (to_file _ _ _ _) as [w2 e2] eqn:Hw. intros [= <- <- <-]. split; [done|]. intros -> _. split; [done|]. by apply to_file_received in Hw.
  - destruct (to_stream _ _ _) as [w2 e2] eqn:Hw. intros [= <- <- <-]. split; [done|]. intros -> [[= ->]|(? & ? & [=])]. split; [done|]. by apply to_stream_received in Hw.
Qed.

Lemma writeSnapshotToTemp_spec io r files files' tmp : writeSnapshotToTemp io r files = (files', tmp) ->
  let name := str "lmdb-restore-" ++ rs_name io ++ str ".mdb" in
  (forall n, n <> name -> files' !! n = files !! n) /\
  match tmp with
  | Ok tmpPath => tmpPath = name /\ files' !! name = Some r
  | Err e => e <> RestoreClose /\ e <> RestoreRename /\ forall x, e <> RestoreOpen x
  end.
Proof.
  cbn. unfold writeSnapshotToTemp. set (name := str "lmdb-restore-" ++ rs_name io ++ str ".mdb").
  assert (forall ok d n, n <> name -> remove ok name (<[name := d]> files) !! n = files !! n) as Hr.
  { intros ok d n Hn. rewrite remove_other by done. by rewrite lookup_insert_ne. }
  destruct (negb (rs_create io) || _); [by intros [= <- <-]|]. destruct (rs_copy io); [intros [= <- <-]; split; [auto|done]|].
  destruct (rs_flush io); [intros [= <- <-]; split; [auto|done]|]. destruct (rs_sync io); [|intros [= <- <-]; split; [auto|done]]. cbn [negb].
  destruct (rs_closeTemp io); [|intros [= <- <-]; split; [auto|done]]. intros [= <- <-]. split; [intros n Hn; by rewrite lookup_insert_ne|].
  split; [done|apply lookup_insert_eq].
Qed.

Lemma reopen_spec io l files files' err f : files !! data_mdb = Some f -> reopenEnvAndDBIs io l files = (files', err) ->
  (forall n, n <> data_mdb -> files' !! n = files !! n) /\
  match err with
  | None => exists m g, found_in f = Some m /\ files' !! data_mdb = Some g /\ db_buckets g = Some (prepared (le_namespace l) m)
  | Some e => (exists x, e = RestoreOpen x) /\ (files' !! data_mdb = Some f \/ f = [] /\ files' !! data_mdb = Some db_new)
  end.
Proof.
  intros Hf. unfold reopenEnvAndDBIs. destruct (first_error [ev_newEnv io; _; _]) as [e|]; [intros [= <- <-]; split; [done|]; split; [by eexists|by left]|].
  pose proof (lib_open_other (ev_open io) data_mdb files) as Hother. pose proof (lib_open_ok (ev_open io) data_mdb files) as Hok.
  assert ((lib_open (ev_open io) data_mdb files).1 !! data_mdb = Some f \/ f = [] /\ (lib_open (ev_open io) data_mdb files).1 !! data_mdb = Some db_new) as Hdata.
  { unfold lib_open. destruct (ev_open io); [by left|]. rewrite Hf. destruct f; [right; split; [done|apply lookup_insert_eq]|by left]. }
  destruct (lib_open (ev_open io) data_mdb files) as [files1 oerr]. cbn [fst snd] in *.
  destruct (first_error [oerr; _]) as [e|] eqn:Herr; [intros [= <- <-]; split; [done|]; split; [by eexists|done]|].
  apply first_error_none in Herr as [-> _]. destruct (Hok eq_refl) as (g & m & Hg & Hm & Hfound). rewrite Hf in Hfound. change (default [] (Some f)) with f in Hfound.
  set (fn := fun m : gmap bytes B => _). pose proof (update_file_ok (ev_tx io 0%nat) data_mdb fn files1 g m Hg Hm) as Hu.
  pose proof (update_file_other (ev_tx io 0%nat) data_mdb fn files1) as Huo. pose proof (update_file_fails (ev_tx io 0%nat) data_mdb fn files1) as Huf.
  destruct (update_file (ev_tx io 0%nat) data_mdb fn files1) as [files2 uerr]. cbn [fst snd] in *. intros [= <- <-].
  split; [intros n Hn; rewrite Huo by done; by apply Hother|]. destruct uerr as [e|]; cbn.
  - split; [by eexists|]. by rewrite (Huf e eq_refl).
  - destruct (Hu eq_refl) as (g' & m' & Hfn & Hg' & Hm'). exists m, g'. split; [done|]. split; [done|]. rewrite Hm'. f_equal. subst fn. cbn beta in Hfn.
    destruct (create_bucket _ (le_namespace l) m) as [m1|] eqn:E1; [|done]. apply create_bucket_ok in E1 as ->. by apply create_bucket_ok in Hfn.
Qed.

Lemma lmdb_Restore_spec io r l files l' files' err : lmdb_Restore io r l files = (l', files', err) ->
  (forall n, n <> data_mdb -> n <> str "lmdb-restore-" ++ rs_name io ++ str ".mdb" -> files' !! n = files !! n) /\
  le_namespace l' = le_namespace l /\
  match err with
  | None => le_open l' = true /\ le_flagNoSync l' = le_noSync l /\
      exists m g, found_in r = Some m /\ files' !! data_mdb = Some g /\ db_buckets g = Some (prepared (le_namespace l) m)
  | Some RestoreClose => files' !! data_mdb = files !! data_mdb
  | Some RestoreRename => le_open l' = false /\ files' !! data_mdb = if rs_dataRemoved io then None else files !! data_mdb
  | Some (RestoreOpen _) => le_open l' = false /\ (files' !! data_mdb = Some r \/ r = [] /\ files' !! data_mdb = Some db_new)
  | Some _ => l' = l /\ files' !! data_mdb = files !! data_mdb
  end.
Proof.
  unfold lmdb_Restore. destruct (bool_decide (le_path l = [])); [by intros [= <- <- <-]|].
  destruct (writeSnapshotToTemp io r files) as [files1 tmp] eqn:Hw. apply writeSnapshotToTemp_spec in Hw. cbv zeta in Hw.
  pose proof (lmdb_restore_name_ne (rs_name io)) as Hne. set (name := str "lmdb-restore-" ++ rs_name io ++ str ".mdb") in *. destruct Hw as [H1 Htmp].
  destruct tmp as [tmp|e].
  2: { intros [= <- <- <-]. split; [auto|]. split; [done|]. destruct Htmp as (He1 & He2 & He3).
       destruct e; try done; try (split; [done|by apply H1]). by destruct (He3 e). }
  destruct Htmp as [-> Htmp]. unfold swapInSnapshot.
  destruct (rs_close io) as [usable|].
  { intros [= <- <- <-]. split; [intros n Hn Hn'; rewrite remove_other by done; by apply H1|]. split; [done|]. rewrite remove_other by done. by apply H1. }
  assert (forall n, n <> data_mdb -> n <> name -> remove (rs_dataRemoved io) data_mdb files1 !! n = files !! n) as H2 by (intros n Hn Hn'; rewrite remove_other by done; by apply H1).
  destruct (rs_rename io); cbn [negb].
  2: { intros [= <- <- <-]. split; [intros n Hn Hn'; rewrite remove_other by done; by apply H2|]. split; [done|]. split; [done|]. rewrite remove_other by done.
       destruct (rs_dataRemoved io); cbn; [apply lookup_delete_eq|by apply H1]. }
  set (files2 := rename name data_mdb (remove (rs_dataRemoved io) data_mdb files1)).
  assert (files2 !! data_mdb = Some r) as Hdata by (apply rename_target; by rewrite remove_other).
  assert (forall n, n <> data_mdb -> n <> name -> files2 !! n = files !! n) as H3 by (intros n Hn Hn'; subst files2; rewrite rename_other by done; by apply H2).
  destruct (reopenEnvAndDBIs (rs_env io) (lmdb_Close l) files2) as [files3 err3] eqn:Hre.
  destruct (reopen_spec _ _ _ _ _ _ Hdata Hre) as [Hother Hres]. destruct err3 as [e|]; intros [= <- <- <-].
  - split; [intros n Hn Hn'; rewrite remove_other by done; rewrite Hother by done; by apply H3|]. split; [done|]. destruct Hres as [[x ->] Hres].
    split; [done|]. by rewrite remove_other by done.
  - split; [intros n Hn Hn'; rewrite remove_other by done; rewrite Hother by done; by apply H3|]. split; [done|]. split; [done|]. split; [done|].
    destruct Hres as (m & g & Hm & Hg & Hb). exists m, g. split; [done|]. by rewrite remove_other by done.
Qed.
End lmdb_facts.

(** ** Snapshots are restored *)

(** C17. A snapshot that was written completely, to a new file or to any other
    writer, brings the database back: a restore from it that succeeds, into any
    other database of the same namespace, makes every later operation find
    exactly the buckets of the donor.  This holds for both drivers, whatever the
    target held before and wherever temporary files could not be removed. *)
Theorem snapshot_restore_roundtrip {B : Type} `{DbFileLaws B} :
  (forall sio rio donor target target' donorFiles files files' w w',
    empty_writer w -> bolt_Snapshot sio donorFiles donor w = (w', None) -> bolt_Restore rio (received w') target files = (target', files', None) ->
    be_namespace target = be_namespace donor -> is_Some (bolt_db donorFiles donor) ->
    bolt_db files' target' = bolt_db donorFiles donor) /\
  (forall sio rio donor target target' donorFiles donorFiles' files files' w w',
    empty_writer w -> lmdb_Snapshot sio donor donorFiles w = (donorFiles', w', None) -> lmdb_Restore rio (received w') target files = (target', files', None) ->
    le_namespace target = le_namespace donor -> is_Some (lmdb_db donorFiles donor) ->
    lmdb_db files' target' = lmdb_db donorFiles donor /\ lmdb_db donorFiles' donor = lmdb_db donorFiles donor).
Proof.
  split.
  - intros sio rio donor target target' dF files files' w w' Hw Hs Hr Hns [db Hdb]. destruct (bolt_Snapshot_ok _ _ _ _ _ Hw Hs) as [Hopen Hrec].
    rewrite Hrec in Hr. apply bolt_Restore_spec in Hr as (_ & Hns' & Hp' & Hopen' & _ & f & m & Hf & Hm & Hfound). revert Hdb. unfold bolt_db.
    rewrite Hopen, Hopen'. destruct (dF !! be_path donor) as [f0|] eqn:Hf0; [|done]. change (default [] (Some f0)) with f0 in Hfound. cbn [mbind option_bind].
    destruct (db_buckets f0) as [m0|] eqn:Hm0; [|done]. rewrite (found_in_copy f0 m0 Hm0) in Hfound. injection Hfound as ->.
    intros _. rewrite Hp', Hf. cbn [mbind option_bind]. rewrite Hm. cbn [mbind option_bind]. by rewrite Hns', Hns.
  - intros sio rio donor target target' dF dF' files files' w w' Hw Hs Hr Hns [db Hdb]. apply lmdb_Snapshot_ok in Hs as [Hkeep Hs].
    destruct (Hs eq_refl) as [Hopen Hrec]; [destruct Hw as [->| ->]; [right; by do 2 eexists|by left]|].
    assert (lmdb_db dF' donor = lmdb_db dF donor) as Hsame by (unfold lmdb_db; by rewrite Hkeep). split; [|done].
    rewrite Hrec in Hr. apply lmdb_Restore_spec in Hr as (_ & Hns' & Hopen' & _ & m & g & Hfound & Hg & Hb). revert Hdb. unfold lmdb_db.
    rewrite Hopen, Hopen'. destruct (dF !! data_mdb) as [f0|] eqn:Hf0; [|done]. change (default [] (Some f0)) with f0 in Hfound. cbn [mbind option_bind].
    destruct (db_buckets f0) as [m0|] eqn:Hm0; [|done]. rewrite (found_in_copy f0 m0 Hm0) in Hfound. injection Hfound as <-. cbn [mbind option_bind].
    rewrite Hg. cbn [mbind option_bind]. rewrite Hb, Hns', Hns. cbn [mbind option_bind].
    destruct (m0 !! le_namespace donor) as [d|] eqn:Hd; [|done]. destruct (m0 !! sysBucketMetaData) as [s|] eqn:Hsys; [|done].
    intros _. unfold prepared. cbn [mbind option_bind].
    by rewrite (with_bucket_kept _ _ _ _ (with_bucket_kept _ _ _ _ Hd)), (with_bucket_kept _ _ _ _ (with_bucket_kept _ _ _ _ Hsys)).
Qed.


(** ** Concrete files *)

Section examples.
Notation buckets := (gmap bytes (gmap bytes bytes)).

#[local] Instance wire_file : DbFile (gmap bytes bytes) := {
  db_buckets f := match f with [] => None | _ :: w => match of_wire (A := buckets) w with Ret m => Some m | _ => None end end;
  db_commit _ m := Byte.x01 :: to_wire (A := buckets) m;
  db_copy f := f;
  db_new := Byte.x01 :: to_wire (A := buckets) ∅;
  db_bucket := ∅;
  db_invalid := 1;
  db_not_open := 2
}.

#[local] Instance wire_file_laws : DbFileLaws (gmap bytes bytes).
Proof. split; [intros f m m' _; cbn; by rewrite wire_roundtrip|done|cbn; by rewrite wire_roundtrip|done]. Qed.

Definition ns : bytes := str "app".
Definition donor_buckets : buckets := {[ ns := {[ KVKeys.KeyKV (str "k") := str "v" ]}; sysBucketMetaData := ∅ ]}.
Definition donor_file : bytes := db_commit db_new donor_buckets.
Definition plainSnap : SnapIO := mkSnapIO true (str "1") None true None true true None None true true.
Definition plainRestore : BoltRestoreIO := mkBoltRestoreIO None true None true true true true None.
Definition plainEnv : EnvIO := mkEnvIO None None None None None None None (fun _ => okTx) (fun _ => None).
Definition lmdbRestoreIO (renamed : bool) : LmdbRestoreIO := mkLmdbRestoreIO true (str "7") None None true true true None true renamed plainEnv.
Definition boltAt (path : bytes) : BoltDBEmbed := mkBoltEmbed true false ns path true.
Definition lmdbAt (path : bytes) : LmdbEnv := mkLmdbEnv true false ns path 1024 false.

Lemma triple {A C D} (x : A * C * D) d : x.2 = d -> x = (x.1.1, x.1.2, d).
Proof. by destruct x as [[a c] e]; intros <-. Qed.

Lemma some_of_bool {A} (o : option A) : (if o then true else false) = true -> is_Some o.
Proof. by destruct o; [eexists|]. Qed.

(** Restores of the donor's file over an empty directory and over an empty
    database. *)
Definition bolt_run := bolt_Restore plainRestore donor_file (boltAt (str "t")) ∅.
Definition lmdb_run (renamed : bool) := lmdb_Restore (lmdbRestoreIO renamed) donor_file (lmdbAt (str "t")) {[ data_mdb := db_new ]}.

Lemma bolt_run_ok : bolt_run.2 = None.
Proof. vm_compute. reflexivity. Qed.
Lemma lmdb_run_ok : (lmdb_run true).2 = None.
Proof. vm_compute. reflexivity. Qed.
Lemma lmdb_run_fails : (lmdb_run false).2 = Some RestoreRename.
Proof. vm_compute. reflexivity. Qed.

Definition bolt_donor : option (BoltDB (gmap bytes bytes)) := bolt_db {[ str "d" := donor_file ]} (boltAt (str "d")).
Definition lmdb_donor : option (LmdbEmbed (gmap bytes bytes)) := lmdb_db {[ data_mdb := donor_file ]} (lmdbAt (str "d")).

Lemma bolt_donor_some : is_Some bolt_donor.
Proof. by apply some_of_bool; vm_compute. Qed.
Lemma lmdb_donor_some : is_Some lmdb_donor.
Proof. by apply some_of_bool; vm_compute. Qed.

Lemma donor_values : (fun db => KVBolt.GetKV okTx db (str "k")) <$> bolt_donor = Some (Ret (Ok (str "v"))) /\
  (fun db => KVLmdb.GetKV okTx db (str "k")) <$> lmdb_donor = Some (Ret (Ok (str "v"))).
Proof. split; vm_compute; reflexivity. Qed.

Definition lmdb_snap := lmdb_Snapshot plainSnap (lmdbAt (str "d")) {[ data_mdb := donor_file ]} (WStream []).

Lemma bolt_snap_ok : bolt_Snapshot plainSnap {[ str "d" := donor_file ]} (boltAt (str "d")) (WStream []) = (WStream donor_file, None).
Proof. vm_compute. reflexivity. Qed.
Lemma lmdb_snap_ok : lmdb_snap = (lmdb_snap.1.1, WStream donor_file, None).
Proof. assert (lmdb_snap.2 = None) as H1 by (vm_compute; reflexivity). assert (lmdb_snap.1.2 = WStream donor_file) as H2 by (vm_compute; reflexivity). rewrite <- H2. by apply triple. Qed.

Lemma snapshot_restore_roundtrip_witness :
  (fun db => KVBolt.GetKV okTx db (str "k")) <$> bolt_db bolt_run.1.2 bolt_run.1.1 = Some (Ret (Ok (str "v"))) /\
  (fun db => KVLmdb.GetKV okTx db (str "k")) <$> lmdb_db (lmdb_run true).1.2 (lmdb_run true).1.1 = Some (Ret (Ok (str "v"))).
Proof.
  split.
  - rewrite (proj1 snapshot_restore_roundtrip _ _ _ _ _ _ _ _ _ _ (or_intror eq_refl) bolt_snap_ok (triple _ _ bolt_run_ok) eq_refl bolt_donor_some). exact (proj1 donor_values).
  - rewrite (proj1 (proj2 snapshot_restore_roundtrip _ _ _ _ _ _ _ _ _ _ _ (or_intror eq_refl) lmdb_snap_ok (triple _ _ lmdb_run_ok) eq_refl lmdb_donor_some)). exact (proj2 donor_values).
Defined.


(** A snapshot of another namespace is taken over: with bbolt every operation
    then fails for want of its bucket, with LMDB the namespace is empty; an empty
    reader is restored as a database without buckets. *)
Lemma restore_of_other_namespace :
  let b := bolt_Restore plainRestore donor_file (mkBoltEmbed true false (str "other") (str "t") true) ∅ in
  let l := lmdb_Restore (lmdbRestoreIO true) donor_file (mkLmdbEnv true false (str "other") (str "t") 1024 false) ∅ in
  let e := bolt_Restore plainRestore [] (boltAt (str "t")) {[ str "t" := donor_file ]} in
  (b.2 = None /\ (fun db => KVBolt.GetKV okTx db (str "k")) <$> bolt_db b.1.2 b.1.1 = Some (Ret (Err ErrBucketNotFound))) /\
  (l.2 = None /\ (fun db => KVLmdb.GetKV okTx db (str "k")) <$> lmdb_db l.1.2 l.1.1 = Some (Ret (Err ErrKeyNotFound))) /\
  (e.2 = None /\ (fun db => KVBolt.GetKV okTx db (str "k")) <$> bolt_db e.1.2 e.1.1 = Some (Ret (Err ErrBucketNotFound))).
Proof. split; [|split]; split; vm_compute; reflexivity. Qed.
End examples.
