(* ===== verification/Replicator.v ===== *)
(** Reading the log for a follower: pkg/replicator/{replicator,pool}.go.

    The records on their way to a follower are shared objects taken from a
    pool, so the model has the pool: a batch is a slice of pointers into
    [Pool], and releasing a batch clears the records and the slots of the
    slice.  The goroutine that runs [Replicate] is a machine: [rep_step] goes
    from one point at which others can interfere to the next, with the answers
    of the outside world (which case of a select is taken, which free record the
    pool hands out) in an [Answer].  The metrics are left out. *)

From stdpp Require Import prelude list numbers.
From Stdlib Require Import ZArith Lia.
From S2P Require Import Prelude Bytes Segment WalTail.

(** ** Records and their pool *)

Record WALRecord := mkWALRecord { wr_Offset : Z; wr_SegmentId : Z; wr_Record : bytes }.

Definition nilRecord : WALRecord := mkWALRecord 0 0 [].

(** [free] are the records that were put back. *)
Record Pool := mkPool { cells : list WALRecord; free : list nat }.

(** sync.Pool hands out any record it has, here the [pick]-th, or a new one. *)
Definition acquireWalRecord (pick : nat) (p : Pool) : Pool * nat :=
  match free p !! pick with
  | Some r => (mkPool (cells p) (delete pick (free p)), r)
  | None => (mkPool (cells p ++ [nilRecord]) (free p), length (cells p))
  end.

Definition set_record (r : nat) (x : WALRecord) (p : Pool) : Pool := mkPool (<[r := x]> (cells p)) (free p).

Definition releaseWalRecord (record : option nat) (p : Pool) : Pool :=
  match record with
  | None => p
  | Some r => mkPool (<[r := nilRecord]> (cells p)) (r :: free p)
  end.

Definition slice := list (option nat).

(** Every slot becomes nil. *)
Fixpoint ReleaseRecords (records : slice) (p : Pool) : Pool * slice :=
  match records with
  | [] => (p, [])
  | record :: rest =>
      let '(p, rest) := ReleaseRecords rest (releaseWalRecord record p) in (p, None :: rest)
  end.

(** ** The replicator *)

Record Replicator (R : Type) := mkReplicator {
  batchSize : Z; lastOffset : RecordPosition; reader : option R; ctxDone : bool
}.
Arguments mkReplicator {R}.
Arguments batchSize {R}.
Arguments lastOffset {R}.
Arguments reader {R}.
Arguments ctxDone {R}.

(** Errors of the engine's readers, and the cancelled context. *)
Inductive rep_error := RWal (e : error) | RCanceled.

(** What follows a send: the next record, or the handling of an error of the
    reader. *)
Inductive after_send := ThenNext | ThenFail (e : error).

Inductive rep_pc :=
| PTop                                    (* the head of the loop of Replicate *)
| PWait                                   (* in WaitForAppendOrDone *)
| PGetReader                              (* replicateFromReader begins *)
| PNext (batch : slice)                   (* in front of reader.Next *)
| PSend (batch : slice) (k : after_send)  (* in the select of sendFunc *)
| PReturned (e : rep_error).

(** [an_send]: the select sends, or the wait ends with a notification; otherwise
    the closed [ctxDone] is seen. *)
Record Answer := mkAnswer { an_send : bool; an_pick : nat }.

Section replicator.
Context {W R : Type} `{TailLog W R}.
Notation Replicator := (Replicator R).

Definition with_reader (rd : option R) (r : Replicator) : Replicator := mkReplicator (batchSize r) (lastOffset r) rd (ctxDone r).
Definition with_lastOffset (p : RecordPosition) (r : Replicator) : Replicator := mkReplicator (batchSize r) p (reader r) (ctxDone r).
Definition closeChannel (r : Replicator) : Replicator := mkReplicator (batchSize r) (lastOffset r) (reader r) true.

Definition NewReplicator (size : Z) (startOffset : option RecordPosition) : Replicator :=
  mkReplicator size (default NilRecordPosition startOffset) None false.

(** [if r.reader != nil { r.reader.Close() }] *)
Definition close_reader (w : W) (r : Replicator) : outcome (W * Replicator) :=
  match reader r with
  | None => Ret (w, r)
  | Some rd => '(w, rd) ← tl_Close w rd; Ret (w, with_reader (Some rd) r)
  end.

(** A reader whose first record cannot be read is dropped without being closed. *)
Definition getReader (w : W) (r : Replicator) : outcome (W * result error R) :=
  match reader r with
  | Some rd => Ret (w, Ok rd)
  | None =>
      if IsZero (lastOffset r) then x ← tl_NewReaderWithTail w None; Ret (w, x)
      else
        x ← tl_NewReaderWithTail w (Some (lastOffset r));
        match x with
        | Err e => Ret (w, Err e)
        | Ok rd =>
            '(w, rd, y) ← tl_Next w rd;
            match y with
            | Err e => Ret (w, Err e)
            | Ok _ => Ret (w, Ok rd)
            end
        end
  end.

(** A replicator goroutine: the shared log and pool, and what others see of it. *)
Record rep_state := mkRep { rs_log : W; rs_pool : Pool; rs_rep : Replicator; rs_pc : rep_pc }.

(** The deferred calls of [Replicate]. *)
Definition return_ (w : W) (p : Pool) (r : Replicator) (e : rep_error) : outcome rep_state :=
  '(w, r) ← close_reader w (closeChannel r);
  Ret (mkRep w p r (PReturned e)).

(** The error of [replicateFromReader] in the loop of [Replicate]. *)
Definition replicate_error (w : W) (p : Pool) (r : Replicator) (e : error) : outcome rep_state :=
  match e with
  | EOF | ErrNoNewData => Ret (mkRep w p r PTop)
  | _ => return_ w p r (RWal e)
  end.

(** The end of the loop over the reader. *)
Definition next_failed (w : W) (p : Pool) (r : Replicator) (e : error) : outcome rep_state :=
  match e with
  | EOF =>
      '(w, r) ← close_reader w r;
      Ret (mkRep w p (with_reader None r) PTop)
  | _ => replicate_error w p r e
  end.

Definition after (k : after_send) (w : W) (p : Pool) (r : Replicator) (batch : slice) : outcome rep_state :=
  match k with
  | ThenNext => Ret (mkRep w p r (PNext batch))
  | ThenFail e => next_failed w p r e
  end.

(** [sendFunc]: an empty batch is not sent. *)
Definition sendFunc (k : after_send) (w : W) (p : Pool) (r : Replicator) (batch : slice) : outcome rep_state :=
  match batch with
  | [] => after k w p r []
  | _ => Ret (mkRep w p r (PSend batch k))
  end.

Definition fill (value : bytes) (pos : RecordPosition) : WALRecord := mkWALRecord (u64 (Offset pos)) (SegmentID pos) value.

(** One record is read. *)
Definition read_one (pick : nat) (s : rep_state) (batch : slice) : outcome rep_state :=
  let r := rs_rep s in
  match reader r with
  | None => Panic
  | Some rd =>
      '(w, rd, x) ← tl_Next (rs_log s) rd;
      let r := with_reader (Some rd) r in
      match x with
      | Err e => sendFunc (ThenFail e) w (rs_pool s) r batch
      | Ok (value, pos) =>
          let '(p, walRecord) := acquireWalRecord pick (rs_pool s) in
          let p := set_record walRecord (fill value pos) p in
          let batch := batch ++ [Some walRecord] in
          let r := with_lastOffset pos r in
          if batchSize r <=? blen batch then sendFunc ThenNext w p r batch
          else Ret (mkRep w p r (PNext batch))
      end
  end.

(** One step of the goroutine; [cancelled] is the state of the context and
    [room] tells whether the channel takes a batch.  [None] when it has to
    wait; otherwise the state and what it has sent. *)
Definition rep_step (a : Answer) (cancelled room : bool) (s : rep_state) : outcome (option (rep_state * option slice)) :=
  let w := rs_log s in let p := rs_pool s in let r := rs_rep s in
  let silent (x : outcome rep_state) := s ← x; Ret (Some (s, None)) in
  match rs_pc s with
  | PTop =>
      if cancelled then silent ('(w, r) ← close_reader w (closeChannel r); return_ w p r RCanceled)
      else Ret (Some (mkRep w p r PWait, None))
  | PWait =>
      if an_send a then Ret (Some (mkRep w p r PGetReader, None))
      else if ctxDone r then silent ('(w, r) ← close_reader w r; return_ w p r RCanceled)
      else Ret None
  | PGetReader =>
      silent ('(w, x) ← getReader w r;
              match x with
              | Err e => replicate_error w p r e
              | Ok rd => Ret (mkRep w p (with_reader (Some rd) r) (PNext []))
              end)
  | PNext batch => silent (read_one (an_pick a) s batch)
  | PSend batch k =>
      if an_send a then
        if room then s ← after k w p r []; Ret (Some (s, Some batch)) else Ret None
      else if ctxDone r then
        let '(p, batch) := ReleaseRecords batch p in
        silent ('(w, r) ← close_reader w r; after k w p r batch)
      else Ret None
  | PReturned _ => Ret None
  end.
End replicator.
Arguments mkRep {W R}.
Arguments rs_log {W R}.
Arguments rs_pool {W R}.
Arguments rs_rep {W R}.
Arguments rs_pc {W R}.
