(* ===== verification/ReplicatorFacts.v ===== *)
(** A replicator against the log it reads: whatever the writers, the other
    readers and the receiver of its batches do, the records it has sent followed
    by the ones it holds are the records of the log, in order, from where it
    started.  The pool's records are owned by one slice at a time. *)

From stdpp Require Import prelude list numbers gmap sorting.
From Stdlib Require Import ZArith Lia.
From S2P Require Import Prelude Bytes Segment WalIO WalTail Replicator.

(** ** Ownership of the records of the pool *)

Abbreviation wal_log := (list (bytes * RecordPosition)).

(** The records a slice points to. *)
Definition slots (b : slice) : list nat := omap (fun x => x) b.

Definition wire_of (x : bytes * RecordPosition) : WALRecord := fill x.1 x.2.

(** The pointers [ptrs] are in use, by one owner each. *)
Definition pool_ok (p : Pool) (ptrs : list nat) : Prop :=
  NoDup (ptrs ++ free p) /\ Forall (fun r => (r < length (cells p))%nat) (ptrs ++ free p).

(** The records [F] have not changed. *)
Definition agrees (F : list nat) (p p' : Pool) : Prop := forall r, r ∈ F -> cells p' !! r = cells p !! r.

Definition holds (p : Pool) (b : slice) (X : wal_log) : Prop :=
  Forall2 (fun slot x => exists r, slot = Some r /\ cells p !! r = Some (wire_of x)) b X.

Lemma slots_app a b : slots (a ++ b) = slots a ++ slots b.
Proof. apply omap_app. Qed.

Lemma holds_app p a b X Y : holds p a X -> holds p b Y -> holds p (a ++ b) (X ++ Y).
Proof. apply Forall2_app. Qed.

Lemma holds_nil_inv p X : holds p [] X -> X = [].
Proof. apply Forall2_nil_inv_l. Qed.

Lemma holds_length p b X : holds p b X -> length b = length X.
Proof. apply Forall2_length. Qed.

Lemma holds_agrees p p' b X : holds p b X -> agrees (slots b) p p' -> holds p' b X.
Proof.
  intros Hb Ha. induction Hb as [|slot x b X (r & -> & Hr) Hb IH]; [constructor|]. constructor.
  - exists r. split; [done|]. rewrite Ha; [done|]. by left.
  - apply IH. intros y Hy. apply Ha. by right.
Qed.

Lemma agrees_refl F p : agrees F p p.
Proof. done. Qed.

Lemma agrees_trans F p1 p2 p3 : agrees F p1 p2 -> agrees F p2 p3 -> agrees F p1 p3.
Proof. intros H1 H2 r Hr. rewrite H2, H1; done. Qed.

Lemma agrees_subset F G p p' : F ⊆ G -> agrees G p p' -> agrees F p p'.
Proof. intros Hs Ha r Hr. apply Ha, Hs, Hr. Qed.

Lemma pool_ok_perm p F G : F ≡ₚ G -> pool_ok p F -> pool_ok p G.
Proof. unfold pool_ok. by intros ->. Qed.

Lemma acquire_spec pick p F x p' r : pool_ok p F -> acquireWalRecord pick p = (p', r) ->
  pool_ok (set_record r x p') (r :: F) /\ agrees F p (set_record r x p') /\ cells (set_record r x p') !! r = Some x.
Proof.
  intros [Hnd Hlt] Hacq. unfold acquireWalRecord in Hacq. destruct (free p !! pick) as [q|] eqn:Hq; injection Hacq as <- <-.
  - assert (free p ≡ₚ q :: delete pick (free p)) as Hperm by by apply delete_Permutation. rewrite Hperm in Hnd, Hlt.
    rewrite Forall_app, Forall_cons in Hlt. destruct Hlt as (HF & Hql & Hfl).
    assert (q ∉ F /\ NoDup (q :: F ++ delete pick (free p))) as [HqF Hnd'].
    { rewrite <- Permutation_middle in Hnd. split; [|done]. apply NoDup_cons in Hnd as [Hnd _]. set_solver. }
    split; [|split].
    + unfold pool_ok, set_record. cbn [cells free]. rewrite length_insert. split; [done|]. cbn. by rewrite Forall_cons, Forall_app.
    + intros r Hr. cbn. rewrite list_lookup_insert_ne; [done|]. by intros ->.
    + cbn. by apply list_lookup_insert_eq.
  - assert (forall r, r ∈ F ++ free p -> (r < length (cells p))%nat) as Hall by by rewrite Forall_forall in Hlt.
    split; [|split].
    + unfold pool_ok, set_record. cbn [cells free]. rewrite length_insert, length_app. cbn [length]. split.
      * cbn. constructor; [|done]. intros Hin%Hall. lia.
      * cbn. constructor; [lia|]. eapply Forall_impl; [done|]. cbn. lia.
    + intros r Hr. cbn. rewrite list_lookup_insert_ne, lookup_app_l; [done|..]; specialize (Hall r ltac:(set_solver)); lia.
    + cbn. apply list_lookup_insert_eq. rewrite length_app. cbn. lia.
Qed.

Lemma release_one r p F : pool_ok p (r :: F) -> pool_ok (releaseWalRecord (Some r) p) F /\ agrees F p (releaseWalRecord (Some r) p).
Proof.
  intros [Hnd Hlt]. cbn in Hnd, Hlt. split.
  - unfold pool_ok. cbn [releaseWalRecord cells free]. rewrite length_insert. split; by rewrite <- Permutation_middle.
  - intros q Hq. cbn. apply list_lookup_insert_ne. intros ->. apply NoDup_cons in Hnd as [Hnd _]. set_solver.
Qed.

Definition all_nil (b : slice) : Prop := Forall (fun x => x = None) b.

Lemma release_spec b : forall p F, pool_ok p (slots b ++ F) ->
  exists p', ReleaseRecords b p = (p', replicate (length b) None) /\ pool_ok p' F /\ agrees F p p'.
Proof.
  induction b as [|slot b IH]; intros p F Hok; cbn [ReleaseRecords length replicate]; [by exists p|].
  destruct slot as [r|]; cbn [slots omap list_omap] in Hok; fold (slots b) in Hok.
  - destruct (release_one r p (slots b ++ F) Hok) as [Hok1 Ha1]. destruct (IH _ F Hok1) as (p' & -> & Hok' & Ha'). exists p'.
    split; [done|]. split; [done|]. eapply agrees_trans; [|done]. eapply agrees_subset; [|done]. set_solver.
  - cbn [releaseWalRecord]. destruct (IH p F Hok) as (p' & -> & Hok' & Ha'). by exists p'.
Qed.

Lemma all_nil_slots b : all_nil b -> slots b = [].
Proof. induction 1 as [|? b -> _ IH]; [done|]. exact IH. Qed.

Lemma all_nil_replicate n : all_nil (replicate n None).
Proof. apply Forall_replicate. done. Qed.

(** ** The channel ctxDone *)

Section done.
Context {W R : Type} `{TailLog W R}.

(** It is closed when the goroutine returns. *)
Definition keeps_open (r : Replicator R) (s : rep_state (W := W) (R := R)) : Prop :=
  ctxDone (rs_rep s) = ctxDone r \/ exists e, rs_pc s = PReturned e.

Lemma close_reader_open w r w' r' : close_reader w r = Ret (w', r') -> ctxDone r' = ctxDone r.
Proof.
  unfold close_reader. destruct (reader r) as [rd|]; [|by intros [= _ <-]]. destruct (tl_Close w rd) as [[w1 rd1]| |]; cbn; try done. by intros [= _ <-].
Qed.

Lemma return_open w p r e s : return_ w p r e = Ret s -> exists e, rs_pc s = PReturned e.
Proof. unfold return_. destruct (close_reader w (closeChannel r)) as [[w1 r1]| |]; cbn; try done. intros [= <-]. by exists e. Qed.

Lemma replicate_error_open w p r e s : replicate_error w p r e = Ret s -> keeps_open r s.
Proof. destruct e; cbn; try (intros Hret%return_open; by right); intros [= <-]; by left. Qed.

Lemma next_failed_open w p r e s : next_failed w p r e = Ret s -> keeps_open r s.
Proof.
  destruct e; cbn; try (intros Hret%return_open; by right); [intros [= <-]; by left|].
  destruct (close_reader w r) as [[w1 r1]| |] eqn:E; cbn; try done. intros [= <-]. left. by apply close_reader_open in E.
Qed.

Lemma after_open k w p r b s : after k w p r b = Ret s -> keeps_open r s.
Proof. destruct k; cbn; [intros [= <-]; by left|apply next_failed_open]. Qed.

Lemma sendFunc_open k w p r b s : sendFunc k w p r b = Ret s -> keeps_open r s.
Proof. destruct b; cbn; [apply after_open|intros [= <-]; by left]. Qed.

Lemma read_one_open pick s b s' : read_one pick s b = Ret s' -> keeps_open (rs_rep s) s'.
Proof.
  unfold read_one. destruct (reader (rs_rep s)) as [rd|]; [|done]. destruct (tl_Next (rs_log s) rd) as [[[w1 rd1] [[v q]|e]]| |]; cbn [mbind outcome_bind]; try done.
  - destruct (acquireWalRecord pick (rs_pool s)) as [p1 i]. case_match; [intros Hs%sendFunc_open; exact Hs|intros [= <-]; by left].
  - intros Hs%sendFunc_open. exact Hs.
Qed.

Lemma rep_step_open a c room s s' sent : rep_step a c room s = Ret (Some (s', sent)) -> c = true \/ keeps_open (rs_rep s) s'.
Proof.
  unfold rep_step. destruct (rs_pc s) as [| | |b|b k|e].
  - destruct c; [by left|]. intros [= <- _]. right. by left.
  - intros Hst. right. revert Hst. destruct (an_send a); [intros [= <- _]; by left|]. destruct (ctxDone (rs_rep s)) eqn:Ed; [|done].
    destruct (close_reader _ _) as [[w1 r1]| |] eqn:E; cbn; try done. destruct (return_ _ _ _ _) as [s1| |] eqn:E2; cbn; try done. intros [= <- _].
    right. by eapply return_open.
  - intros Hst. right. revert Hst. destruct (getReader _ _) as [[w1 [rd|e]]| |]; cbn; try done; [intros [= <- _]; by left|].
    destruct (replicate_error _ _ _ _) as [s1| |] eqn:E2; cbn; try done. intros [= <- _]. by eapply replicate_error_open.
  - intros Hst. right. revert Hst. destruct (read_one _ _ _) as [s1| |] eqn:E; cbn; try done. intros [= <- _]. by eapply read_one_open.
  - intros Hst. right. revert Hst. destruct (an_send a).
    + destruct room; [|done]. destruct (after _ _ _ _ _) as [s1| |] eqn:E; cbn; try done. intros [= <- _]. by eapply after_open.
    + destruct (ctxDone (rs_rep s)) eqn:Ed; [|done]. destruct (ReleaseRecords b (rs_pool s)) as [p1 b1].
      destruct (close_reader _ _) as [[w1 r1]| |] eqn:E; cbn; try done. apply close_reader_open in E. destruct (after _ _ _ _ _) as [s1| |] eqn:E2; cbn; try done. intros [= <- _].
      apply after_open in E2. unfold keeps_open in *. by rewrite <- E.
  - done.
Qed.
End done.

(** ** What a replicator has read and sent *)

Definition pc_batch (pc : rep_pc) : slice := match pc with PNext b | PSend b _ => b | _ => [] end.

(** The offset of the last record. *)
Definition last_is (Q : wal_log) (o : RecordPosition) : Prop :=
  match list.last Q with Some x => o = x.2 | None => o = NilRecordPosition end.

Lemma last_is_snoc Q d p o : last_is (Q ++ [(d, p)]) o <-> o = p.
Proof. unfold last_is. by rewrite last_snoc. Qed.

Section replicator.
Context {W R : Type} `{TailLaws W R}.

Definition reader_closed (r : Replicator R) : Prop := match reader r with Some rd => tl_closed rd | None => False end.

(** The reader has passed exactly [Q], the records read so far. *)
Definition rep_reading (w : W) (r : Replicator R) (pc : rep_pc) (L Q : wal_log) : Prop :=
  exists ahead, L = Q ++ ahead /\ last_is Q (lastOffset r) /\
    match reader r with
    | None => match pc with PNext _ | PSend _ _ => False | _ => True end
    | Some rd => tl_at w rd Q ahead \/ tl_closed rd
    end.

(** After its context has ended a replicator may give up a batch; from then on
    it only sends slices without records. *)
Definition rep_dropped (r : Replicator R) (pc : rep_pc) : Prop :=
  ctxDone r = true /\
  match pc with
  | PNext b | PSend b (ThenFail _) => all_nil b /\ reader_closed r
  | PTop | PReturned _ => True
  | _ => False
  end.

(** [out] was sent, [Q3] is in the batch. *)
Definition rep_inv (w : W) (p : Pool) (r : Replicator R) (pc : rep_pc) (L out Q3 : wal_log) (live : bool) : Prop :=
  if live then holds p (pc_batch pc) Q3 /\ rep_reading w r pc L (out ++ Q3)
  else rep_dropped r pc /\ exists Q, rep_reading w r pc L Q.

Lemma rep_reading_grows w w' r pc L X Q :
  (forall rd A B, tl_at w rd A B -> tl_at w' rd A (B ++ X)) -> rep_reading w r pc L Q -> rep_reading w' r pc (L ++ X) Q.
Proof.
  intros Hg (ahead & -> & Hl & Hr). exists (ahead ++ X). split; [by rewrite app_assoc|]. split; [done|].
  destruct (reader r) as [rd|]; [|done]. destruct Hr as [Hr|Hr]; [left; by apply Hg|by right].
Qed.

Lemma rep_inv_grows w w' p r pc L X out Q3 live :
  (forall rd A B, tl_at w rd A B -> tl_at w' rd A (B ++ X)) -> rep_inv w p r pc L out Q3 live -> rep_inv w' p r pc (L ++ X) out Q3 live.
Proof.
  intros Hg Hi. destruct live; cbn in *.
  - destruct Hi as [Hb Hr]. split; [done|]. by eapply rep_reading_grows.
  - destruct Hi as [Hd (Q & Hr)]. split; [done|]. exists Q. by eapply rep_reading_grows.
Qed.

(** A reader has moved: the log is the same and the other readers are where they
    were. *)
Definition same_log (w w' : W) (L : wal_log) : Prop := tl_log w' L /\ forall rd A B, tl_at w rd A B -> tl_at w' rd A B.

Lemma same_tail_refl w L : tl_log w L -> same_log w w L.
Proof. done. Qed.

Lemma same_tail_trans w1 w2 w3 L : same_log w1 w2 L -> same_log w2 w3 L -> same_log w1 w3 L.
Proof. intros [_ H1] [Hl H2]. split; [done|]. intros rd A B Hat. by apply H2, H1. Qed.

Lemma step_same_log w w' L : tl_log w L -> tl_step w w' -> tl_log w' L -> same_log w w' L.
Proof.
  intros Hl Hs Hl'. split; [done|]. intros rd A B Hat. destruct (tl_grows w w' L Hs Hl) as (X & HX & Hk).
  pose proof (tl_unique _ _ _ Hl' HX) as Heq. rewrite <- (app_nil_r L) in Heq at 1. apply app_inv_head in Heq as <-.
  specialize (Hk rd A B Hat). by rewrite app_nil_r in Hk.
Qed.

Lemma rep_reading_same w w' r pc L Q : same_log w w' L -> rep_reading w r pc L Q -> rep_reading w' r pc L Q.
Proof.
  intros [_ Hk] (ahead & -> & Hl & Hr). exists ahead. split; [done|]. split; [done|].
  destruct (reader r) as [rd|]; [|done]. destruct Hr as [Hr|Hr]; [left; by apply Hk|by right].
Qed.

(** What a step did: [sent] left the batch.  The replicator may give up only when
    its context is known to have ended, [cd]. *)
Definition rep_effect (w : W) (p : Pool) (L out Q3 : wal_log) (live cd : bool) (F : list nat) (sent : option slice) (s : rep_state (W := W) (R := R)) : Prop :=
  same_log w (rs_log s) L /\ agrees F p (rs_pool s) /\
  pool_ok (rs_pool s) (slots (default [] sent) ++ slots (pc_batch (rs_pc s)) ++ F) /\
  match sent with
  | None => exists Q3' live', rep_inv (rs_log s) (rs_pool s) (rs_rep s) (rs_pc s) L out Q3' live' /\ (live' = true -> live = true) /\ (cd = false -> live' = live)
  | Some b =>
      if live then holds (rs_pool s) b Q3 /\ rep_inv (rs_log s) (rs_pool s) (rs_rep s) (rs_pc s) L (out ++ Q3) [] true
      else all_nil b /\ rep_inv (rs_log s) (rs_pool s) (rs_rep s) (rs_pc s) L out [] false
  end.

Context (L : wal_log).

(** Closing the reader. *)
Lemma close_reader_spec w r : tl_log w L -> (forall rd, reader r = Some rd -> tl_closed rd \/ exists A B, tl_at w rd A B) ->
  exists w' rd, close_reader w r = Ret (w', with_reader rd r) /\ same_log w w' L /\
    match reader r with None => rd = None | Some _ => exists rd', rd = Some rd' /\ tl_closed rd' end.
Proof.
  intros Hl Hr. unfold close_reader. destruct (reader r) as [rd|] eqn:E.
  - destruct (tl_Close_law w rd L Hl) as (w' & rd' & -> & Hs & Hl' & Hc); [by apply Hr|]. cbn [mbind outcome_bind].
    eexists _, _. split; [done|]. split; [by apply step_same_log|by exists rd'].
  - exists w, None. split; [|by split]. destruct r. cbn in *. by subst.
Qed.

Lemma reading_valid w r pc Q : rep_reading w r pc L Q -> forall rd, reader r = Some rd -> tl_closed rd \/ exists A B, tl_at w rd A B.
Proof. intros (ahead & _ & _ & Hr) rd Hrd. rewrite Hrd in Hr. destruct Hr as [Hr|Hr]; [right; by eexists _, _|by left]. Qed.

(** The goroutine is at the head of its loop or has returned; nothing was read. *)
Definition at_rest (w : W) (p : Pool) (r : Replicator R) (Q : wal_log) (s : rep_state (W := W) (R := R)) : Prop :=
  rs_pool s = p /\ same_log w (rs_log s) L /\ rep_reading (rs_log s) (rs_rep s) (rs_pc s) L Q /\
  (rs_pc s = PTop \/ exists e, rs_pc s = PReturned e) /\ (ctxDone r = true -> ctxDone (rs_rep s) = true).

Lemma reading_closed w w' r rd pc pc' Q : rep_reading w r pc L Q -> same_log w w' L ->
  match reader r with None => rd = None | Some _ => exists rd', rd = Some rd' /\ tl_closed rd' end ->
  (rd = None -> match pc' with PNext _ | PSend _ _ => False | _ => True end) ->
  rep_reading w' (with_reader rd r) pc' L Q.
Proof.
  intros (ahead & HL & Hla & Hr) Hs Hrd Hpc. exists ahead. split; [done|]. split; [done|]. cbn [reader with_reader].
  destruct (reader r) as [rd0|]; [destruct Hrd as (rd' & -> & Hc); by right|]. subst rd. by apply Hpc.
Qed.

Lemma return_spec w p r pc Q e : tl_log w L -> rep_reading w r pc L Q ->
  exists s, return_ w p r e = Ret s /\ at_rest w p r Q s.
Proof.
  intros Hl Hr. unfold return_. destruct (close_reader_spec w (closeChannel r) Hl (reading_valid w r pc Q Hr)) as (w' & rd & -> & Hs & Hrd).
  cbn [mbind outcome_bind]. eexists. split; [done|]. split; [done|]. split; [done|]. split; [|split; [right; by eexists|done]].
  apply (reading_closed w w' (closeChannel r) rd pc (PReturned e) Q); try done.
Qed.

Lemma replicate_error_spec w p r pc Q e : tl_log w L -> rep_reading w r pc L Q ->
  exists s, replicate_error w p r e = Ret s /\ at_rest w p r Q s.
Proof.
  intros Hl Hr. assert (at_rest w p r Q (mkRep w p r PTop)) as Htop.
  { split; [done|]. split; [done|]. split; [|by split; [left|]]. destruct Hr as (ahead & -> & Hla & Hr). exists ahead.
    split; [done|]. split; [done|]. cbn. by destruct (reader r). }
  destruct e; cbn [replicate_error]; try (by eapply return_spec); by eexists.
Qed.

Lemma next_failed_spec w p r pc Q e : tl_log w L -> rep_reading w r pc L Q ->
  exists s, next_failed w p r e = Ret s /\ at_rest w p r Q s.
Proof.
  intros Hl Hr. destruct e; try by eapply replicate_error_spec.
  cbn [next_failed]. destruct (close_reader_spec w r Hl (reading_valid w r pc Q Hr)) as (w' & rd & -> & Hs & Hrd). cbn [mbind outcome_bind].
  eexists. split; [done|]. split; [done|]. split; [done|]. split; [|by split; [left|]].
  destruct Hr as (ahead & -> & Hla & _). exists ahead. done.
Qed.

Section step.
Context (w : W) (p : Pool) (r : Replicator R) (pc : rep_pc) (out Q3 : wal_log) (live : bool) (F : list nat).
Hypothesis (Hl : tl_log w L) (Hi : rep_inv w p r pc L out Q3 live) (Hok : pool_ok p (slots (pc_batch pc) ++ F)).

(** The step of [f] ends well. *)
Definition silently (f : outcome (rep_state (W := W) (R := R))) : Prop :=
  exists s, f = Ret s /\ rep_effect w p L out Q3 live (ctxDone r) F None s.

Lemma rest_effect w' r' Q s : at_rest w' p r' Q s -> same_log w w' L -> slots (pc_batch pc) = [] ->
  (if live then Q = out /\ Q3 = [] else ctxDone r' = true) -> rep_effect w p L out Q3 live (ctxDone r) F None s.
Proof.
  intros (Hp & Hs & Hr & Hpc & Hd) Hs' Hb Hq. rewrite Hb in Hok. unfold rep_effect. rewrite Hp. split; [by eapply same_tail_trans|]. split; [done|].
  assert (pc_batch (rs_pc s) = []) as Hnil by (destruct Hpc as [->|[e ->]]; done). rewrite Hnil. split; [done|].
  exists [], live. split; [|done]. destruct live; cbn.
  - rewrite Hnil, app_nil_r. destruct Hq as [-> _]. split; [constructor|done].
  - split; [|by exists Q]. split; [by apply Hd|]. by destruct Hpc as [->|[e ->]].
Qed.

Lemma any_reading : exists Q, rep_reading w r pc L Q /\ (live = true -> Q = out ++ Q3).
Proof. destruct live; cbn in Hi; [destruct Hi as [_ Hr]; by eexists|destruct Hi as [_ (Q & Hr)]; by exists Q]. Qed.

Lemma no_batch : pc_batch pc = [] -> if live then Q3 = [] else True.
Proof. intros Hb. destruct live; [|done]. cbn in Hi. destruct Hi as [Hh _]. rewrite Hb in Hh. by eapply holds_nil_inv. Qed.

(** The goroutine returns because of its context. *)
Lemma close_and_return r1 e : pc_batch pc = [] -> reader r1 = reader r -> lastOffset r1 = lastOffset r -> (live = false -> ctxDone r1 = true) ->
  silently ('(w, r) ← close_reader w r1; return_ w p r e).
Proof.
  intros Hb Hrd Hlo Hd. destruct any_reading as (Q & Hr & Hq). pose proof (no_batch Hb) as Hnb.
  assert (rep_reading w r1 pc L Q) as Hr1 by (destruct Hr as (ahead & -> & Hla & Hr); exists ahead; split; [done|]; by rewrite Hlo, Hrd).
  destruct (close_reader_spec w r1 Hl (reading_valid w r1 pc Q Hr1)) as (w1 & rd & Hc & Hs & Hrd1).
  assert (rep_reading w1 (with_reader rd r1) (PReturned e) L Q) as Hr2 by by eapply reading_closed.
  destruct (return_spec w1 p (with_reader rd r1) (PReturned e) Q e (proj1 Hs) Hr2) as (s & Hret & Hrest).
  exists s. rewrite Hc. cbn [mbind outcome_bind]. split; [done|].
  apply (rest_effect w1 (with_reader rd r1) Q s Hrest Hs); [by rewrite Hb|]. destruct live; [|by apply Hd]. rewrite Hnb in *. split; [|done].
  rewrite Hq by done. apply app_nil_r.
Qed.

(** A reader is opened behind the records read so far. *)
Lemma getReader_spec Q : rep_reading w r pc L Q -> exists w' x, getReader w r = Ret (w', x) /\ same_log w w' L /\
  match x with Ok rd => exists ahead, L = Q ++ ahead /\ (tl_at w' rd Q ahead \/ tl_closed rd) | Err _ => True end.
Proof.
  intros (ahead & HL & Hla & Hr). unfold getReader. destruct (reader r) as [rd|].
  - exists w, (Ok rd). split; [done|]. split; [done|]. by exists ahead.
  - pose proof (tl_positions w L Hl) as [_ Hreal]. destruct Q as [|[d q] Q _] using rev_ind.
    + unfold last_is in Hla. cbn in Hla. rewrite Hla. cbn [IsZero NilRecordPosition SegmentID Offset Z.eqb andb].
      destruct (tl_begin w L Hl) as (rd & -> & Hat & _). cbn [mbind outcome_bind]. exists w, (Ok rd). split; [done|]. split; [done|].
      exists L. split; [done|]. left. done.
    + apply last_is_snoc in Hla. rewrite HL, <- app_assoc in Hreal. cbn [app] in Hreal.
      assert (real_pos q) as [Hq1 Hq2].
      { rewrite Forall_forall in Hreal. apply Hreal. rewrite fmap_app, fmap_cons. apply elem_of_app. right. by left. }
      assert (IsZero (lastOffset r) = false) as ->.
      { rewrite Hla. unfold IsZero. replace (SegmentID q =? 0) with false by lia. done. }
      rewrite Hla. pose proof Hl as Hl'. rewrite HL, <- app_assoc in Hl'. destruct (tl_start w Q d q ahead Hl') as (rd & -> & Hat & _). cbn [mbind outcome_bind].
      destruct (tl_Next_law w rd Q ((d, q) :: ahead) Hat) as (w' & rd' & res & -> & Hst & Hlg & Hres). cbn [mbind outcome_bind].
      assert (same_log w w' L) as Hs by (apply step_same_log; [done|done|]; by rewrite HL, <- app_assoc).
      destruct res as [x|e].
      * destruct Hres as (B' & [= <- <-] & Hat' & _). exists w', (Ok rd'). split; [done|]. split; [done|]. exists ahead. split; [done|]. by left.
      * by exists w', (Err e).
Qed.

Lemma sendFunc_nonempty k w1 p1 r1 b : b <> [] -> sendFunc k w1 p1 r1 b = Ret (mkRep w1 p1 r1 (PSend b k)).
Proof. by destruct b. Qed.

(** The reader has no record: the batch is to be sent. *)
Lemma fail_send b w1 rd e : pc = PNext b -> same_log w w1 L ->
  (if live then rep_reading w1 (with_reader (Some rd) r) (PNext b) L (out ++ Q3)
   else tl_closed rd /\ exists Q, rep_reading w1 (with_reader (Some rd) r) (PNext b) L Q) ->
  silently (sendFunc (ThenFail e) w1 p (with_reader (Some rd) r) b).
Proof.
  intros Hpc Hs Hr. assert (exists Q, rep_reading w1 (with_reader (Some rd) r) (PNext b) L Q /\ (live = true -> Q = out ++ Q3)) as (Q & HQ & Hlive).
  { destruct live; [by eexists|]. destruct Hr as (_ & Q & Hr). by exists Q. }
  assert (live = false -> ctxDone r = true /\ all_nil b) as Hdr by (intros Hlv; pose proof Hi as Hi'; rewrite Hlv, Hpc in Hi'; destruct Hi' as [(? & ? & ?) _]; done).
  destruct b as [|x b].
  - cbn [sendFunc after]. destruct (next_failed_spec w1 p (with_reader (Some rd) r) (PNext []) Q e (proj1 Hs) HQ) as (s & -> & Hrest).
    exists s. split; [done|]. apply (rest_effect w1 (with_reader (Some rd) r) Q s Hrest Hs); [by rewrite Hpc|].
    assert (pc_batch pc = []) as Hb by by rewrite Hpc. pose proof (no_batch Hb) as Hnb. destruct live; [|by apply Hdr].
    rewrite Hnb, app_nil_r in Hlive. by rewrite Hlive.
  - pose proof Hi as Hi'. pose proof Hok as Hok'. rewrite Hpc in Hi', Hok'.
    cbn [sendFunc]. eexists. split; [done|]. split; [done|]. split; [done|]. split; [done|]. exists Q3, live. split; [|done].
    destruct live; cbn in *; [by split; [apply Hi'|]|]. split; [|by exists Q]. destruct (Hdr eq_refl) as [Hd Hn]. by destruct Hr as [Hc _].
Qed.

Lemma read_one_spec pick b : pc = PNext b -> silently (read_one pick (mkRep w p r pc) b).
Proof.
  intros Hpc. unfold read_one. cbn [rs_rep rs_log rs_pool]. destruct any_reading as (Q & (ahead & HL & Hla & Hr) & Hq).
  destruct (reader r) as [rd|] eqn:Erd; [|by rewrite Hpc in Hr].
  assert (live = false -> tl_closed rd) as Hdc.
  { intros Hlv. pose proof Hi as Hi'. rewrite Hlv in Hi'. destruct Hi' as [[_ Hd] _]. rewrite Hpc in Hd. destruct Hd as [_ Hd]. unfold reader_closed in Hd. by rewrite Erd in Hd. }
  assert (forall w1 rd1, tl_closed rd1 -> rep_reading w1 (with_reader (Some rd1) r) (PNext b) L Q) as Hclosed.
  { intros w1 rd1 Hc. exists ahead. split; [done|]. split; [done|]. by right. }
  assert (forall w1 rd1, same_log w w1 L -> tl_closed rd1 -> silently (sendFunc (ThenFail EOF) w1 p (with_reader (Some rd1) r) b)) as Hend.
  { intros w1 rd1 Hs Hc. apply fail_send; [done..|]. specialize (Hclosed w1 rd1 Hc). destruct live; [by rewrite <- Hq|by split; [|exists Q]]. }
  destruct (decide (live = true)) as [Hlv|Hlv].
  2: { apply not_true_is_false in Hlv. destruct (tl_Next_closed w rd L Hl (Hdc Hlv)) as (w1 & rd1 & -> & Hst & Hlg & Hc). cbn [mbind outcome_bind].
       apply Hend; [by apply step_same_log|done]. }
  destruct Hr as [Hat|Hc].
  2: { destruct (tl_Next_closed w rd L Hl Hc) as (w1 & rd1 & -> & Hst & Hlg & Hc1). cbn [mbind outcome_bind]. apply Hend; [by apply step_same_log|done]. }
  destruct (tl_Next_law w rd Q ahead Hat) as (w1 & rd1 & res & -> & Hst & Hlg & Hres). cbn [mbind outcome_bind]. rewrite <- HL in Hlg.
  pose proof (step_same_log w w1 L Hl Hst Hlg) as Hs. destruct res as [[value q]|e].
  - destruct Hres as (B' & HB & Hat' & _). destruct (acquireWalRecord pick p) as [p1 i] eqn:Eacq.
    destruct (acquire_spec pick p _ (fill value q) p1 i Hok Eacq) as (Hok1 & Ha1 & Hcell). rewrite Hpc in Hok1, Ha1. cbn [pc_batch] in Hok1, Ha1.
    assert (forall k, silently (Ret (mkRep w1 (set_record i (fill value q) p1) (with_lastOffset q (with_reader (Some rd1) r)) (k (b ++ [Some i]))))
              \/ pc_batch (k (b ++ [Some i])) <> b ++ [Some i]) as Hgo.
    { intros k. destruct (decide (pc_batch (k (b ++ [Some i])) = b ++ [Some i])) as [Hb|]; [left|by right].
      eexists. split; [done|]. split; [done|]. cbn [rs_pool rs_rep rs_pc rs_log default]. split; [eapply agrees_subset; [|done]; set_solver|].
      rewrite Hb. split.
      - cbn [slots omap list_omap app]. rewrite slots_app. eapply pool_ok_perm; [|done]. cbn [slots omap list_omap app].
        rewrite <- app_assoc. apply Permutation_middle.
      - exists (Q3 ++ [(value, q)]), true. split; [|done]. cbn. rewrite Hb. pose proof Hi as Hi'. rewrite Hlv, Hpc in Hi'. split.
        + apply holds_app; [eapply holds_agrees; [apply Hi'|]; eapply agrees_subset; [|done]; set_solver|].
          constructor; [|constructor]. by exists i.
        + exists B'. rewrite app_assoc, <- Hq by done. split; [by rewrite HL, HB, <- app_assoc|]. split; [by apply last_is_snoc|]. by left. }
    cbn [batchSize with_lastOffset with_reader]. rewrite sendFunc_nonempty by by destruct b. case_match.
    + by destruct (Hgo (fun b => PSend b ThenNext)).
    + by destruct (Hgo PNext).
  - destruct e; try done.
    + destruct Hres as (-> & Hat' & _). apply fail_send; [done..|]. rewrite Hlv, <- Hq by done. exists []. split; [done|]. split; [done|]. by left.
    + destruct Hres as [Hc _]. by apply Hend.
Qed.

(** What follows a send. *)
Lemma sent_spec k b Q : pc = PSend b k -> rep_reading w r pc L Q -> (k = ThenNext -> live = true) ->
  exists s, after k w p r [] = Ret s /\ rs_pool s = p /\ same_log w (rs_log s) L /\ pc_batch (rs_pc s) = [] /\
    rep_reading (rs_log s) (rs_rep s) (rs_pc s) L Q /\ (live = false -> rep_dropped (rs_rep s) (rs_pc s)).
Proof.
  intros Hpc Hr Hk. destruct k as [|e]; cbn [after].
  - eexists. split; [done|]. cbn. split; [done|]. split; [done|]. split; [done|]. split; [|by rewrite Hk].
    rewrite Hpc in Hr. destruct Hr as (ahead & HL & Hla & Hr). exists ahead. by destruct (reader r).
  - destruct (next_failed_spec w p r pc Q e Hl Hr) as (s & -> & Hp & Hs & Hr' & Hrest & Hd). exists s. split; [done|]. split; [done|]. split; [done|].
    split; [by destruct Hrest as [->|[? ->]]|]. split; [done|]. intros Hlv. pose proof Hi as Hi'. rewrite Hlv in Hi'. destruct Hi' as [[Hcd _] _].
    split; [by apply Hd|]. by destruct Hrest as [->|[? ->]].
Qed.

(** The batch is given up. *)
Lemma drop_spec k b : pc = PSend b k -> ctxDone r = true ->
  silently (let '(p, batch) := ReleaseRecords b p in '(w, r) ← close_reader w r; after k w p r batch).
Proof.
  intros Hpc Hd. destruct any_reading as (Q & Hr & _).
  pose proof Hok as Hok1. rewrite Hpc in Hok1. destruct (release_spec b p F Hok1) as (p' & -> & Hok' & Ha').
  destruct (close_reader_spec w r Hl (reading_valid w r pc Q Hr)) as (w1 & rd & -> & Hs & Hrd). cbn [mbind outcome_bind].
  assert (exists rd', rd = Some rd' /\ tl_closed rd') as (rd' & -> & Hc).
  { destruct Hr as (ahead & _ & _ & Hr). rewrite Hpc in Hr. by destruct (reader r). }
  assert (rep_reading w1 (with_reader (Some rd') r) (PNext (replicate (length b) None)) L Q) as Hr1 by by eapply reading_closed.
  destruct k as [|e]; cbn [after].
  - eexists. split; [done|]. split; [done|]. split; [done|]. cbn [rs_pc pc_batch rs_pool default]. split.
    + by rewrite (all_nil_slots _ (all_nil_replicate (length b))).
    + exists [], false. split; [|by rewrite Hd]. cbn. split; [|by exists Q]. split; [done|]. split; [apply all_nil_replicate|done].
  - destruct (next_failed_spec w1 p' (with_reader (Some rd') r) _ Q e (proj1 Hs) Hr1) as (s & -> & Hp & Hs' & Hr' & Hrest & Hd').
    exists s. split; [done|]. split; [by eapply same_tail_trans|]. rewrite Hp. split; [done|].
    assert (pc_batch (rs_pc s) = []) as -> by by destruct Hrest as [->|[? ->]]. split; [done|]. exists [], false. split; [|by rewrite Hd].
    cbn. split; [|by exists Q]. split; [by apply Hd'|]. by destruct Hrest as [->|[? ->]].
Qed.

Lemma silent_step (f : outcome (rep_state (W := W) (R := R))) : silently f -> exists x, (s ← f; Ret (Some (s, None))) = Ret x /\
  match x with None => True | Some (s, sent) => rep_effect w p L out Q3 live (ctxDone r) F sent s end.
Proof. intros (s & -> & Hs). by eexists. Qed.

(** One step of the goroutine, whatever the outside world answers. *)
Lemma rep_step_spec a cancelled room : (ctxDone r = true -> cancelled = true \/ exists e, pc = PReturned e) ->
  exists x, rep_step a cancelled room (mkRep w p r pc) = Ret x /\
    match x with None => True | Some (s, sent) => rep_effect w p L out Q3 live (ctxDone r) F sent s end.
Proof.
  intros Hcd. destruct any_reading as (Q & Hr & Hq). unfold rep_step. cbn [rs_pc rs_log rs_pool rs_rep].
  assert (live = false -> ctxDone r = true) as Hdd by (intros Hlv; pose proof Hi as Hi'; rewrite Hlv in Hi'; by destruct Hi' as [[? _] _]).
  assert (forall pc', live = true -> pc_batch pc = [] -> pc_batch pc' = [] -> (match pc' with PNext _ | PSend _ _ => False | _ => True end) ->
            rep_effect w p L out Q3 live (ctxDone r) F None (mkRep w p r pc')) as Hmove.
  { intros pc' Hlv Hb Hb' Hnr. pose proof (no_batch Hb) as Hnb. split; [done|]. split; [done|]. cbn [rs_pc rs_pool default]. rewrite Hb'. split; [pose proof Hok as Hok'; by rewrite Hb in Hok'|].
    exists [], true. split; [|done]. cbn. rewrite Hb'. split; [constructor|]. rewrite Hlv in Hnb, Hq. rewrite Hnb, app_nil_r in Hq. rewrite app_nil_r, <- Hq by done.
    destruct Hr as (ahead & -> & Hla & Hr). exists ahead. split; [done|]. split; [done|]. by destruct (reader r), pc'. }
  pose proof Hi as Hi'. pose proof Hok as Hok'. destruct pc as [| | |b|b k|e] eqn:Epc in |- *; rewrite Epc in Hi', Hok'.
  - destruct cancelled.
    + apply silent_step. by apply close_and_return; [rewrite Epc|..].
    + eexists. split; [done|]. apply Hmove; try done; [|by rewrite Epc]. destruct live; [done|]. destruct (Hcd (Hdd eq_refl)) as [?|[? Hre]]; [done|]. by rewrite Epc in Hre.
  - assert (live = true) as Hlv by (destruct live; [done|]; by destruct Hi' as [[_ []] _]). destruct (an_send a); [eexists; split; [done|]; by apply Hmove; rewrite ?Epc|].
    destruct (ctxDone r) eqn:Ed; rewrite <- ?Ed; [|by eexists]. apply silent_step. apply close_and_return; [by rewrite Epc|done..|by rewrite Hlv].
  - assert (live = true) as Hlv by (destruct live; [done|]; by destruct Hi' as [[_ []] _]). apply silent_step.
    destruct (getReader_spec Q Hr) as (w1 & x & -> & Hs & Hx). cbn [mbind outcome_bind].
    assert (pc_batch pc = []) as Hb by by rewrite Epc. pose proof (no_batch Hb) as Hnb. rewrite Hlv in Hnb.
    specialize (Hq Hlv). rewrite Hnb, app_nil_r in Hq. subst Q. destruct x as [rd|e].
    + eexists. split; [done|]. split; [done|]. split; [done|]. split; [done|]. exists [], true. split; [|done]. cbn. rewrite app_nil_r. split; [constructor|].
      destruct Hx as (ahead & HL & Hx). exists ahead. destruct Hr as (? & _ & Hla & _). done.
    + destruct (replicate_error_spec w1 p r pc out e (proj1 Hs)) as (s & -> & Hrest); [by eapply rep_reading_same|].
      exists s. split; [done|]. apply (rest_effect w1 r out s Hrest Hs); [by rewrite Epc|by rewrite Hlv].
  - rewrite <- Epc. apply silent_step. by apply read_one_spec.
  - destruct (an_send a); [destruct room; [|by eexists]|].
    + assert (k = ThenNext -> live = true) as Hk by (intros ->; destruct live; [done|]; by destruct Hi' as [[_ []] _]).
      destruct (sent_spec k b Q Epc Hr Hk) as (s & -> & Hp & Hs & Hb & Hr' & Hdr). cbn [mbind outcome_bind]. eexists. split; [done|].
      split; [done|]. rewrite Hp. split; [done|]. rewrite Hb. split; [done|]. cbn [default]. destruct live; cbn in Hi' |- *.
      * split; [apply Hi'|]. rewrite Hb. split; [constructor|]. rewrite app_nil_r, <- Hq by done. done.
      * split; [destruct Hi' as [[_ Hd] _]; by destruct k as [|e]; [|destruct Hd]|]. split; [by apply Hdr|]. by exists Q.
    + destruct (ctxDone r) eqn:Ed; rewrite <- ?Ed; [|by eexists]. pose proof (drop_spec k b Epc Ed) as Hdrop. destruct (ReleaseRecords b p) as [p' b']. by apply silent_step.
  - by eexists.
Qed.
End step.
End replicator.
