(* ===== verification/ReplicatorProgress.v ===== *)
(** A replicator catches up: left alone with a receiver that takes its batches, it
    sends every record of the log behind its last offset and comes back to the
    head of its loop. *)

From stdpp Require Import prelude list numbers gmap sorting.
From Stdlib Require Import ZArith Lia.
From S2P Require Import Prelude Bytes Segment WalIO WalTail Replicator ReplicatorFacts.

Section progress.
Context {W R : Type} `{TailLaws W R}.

(** Steps with the records the pool hands out, and the batches that were sent. *)
Fixpoint rep_run (picks : list nat) (s : rep_state (W := W) (R := R)) (sent : list slice) : outcome (rep_state (W := W) (R := R) * list slice) :=
  match picks with
  | [] => Ret (s, sent)
  | pick :: picks =>
      x ← rep_step (mkAnswer true pick) false true s;
      match x with
      | None => Ret (s, sent)
      | Some (s, b) => rep_run picks s (match b with Some b => sent ++ [b] | None => sent end)
      end
  end.

(** The steps it takes to read [m] records when [k] are in the batch. *)
Fixpoint reading_steps (size : Z) (k m : nat) : nat :=
  match m with
  | O => if Nat.eqb k 0 then 1 else 2
  | S m => if size <=? Z.of_nat (S k) then 2 + reading_steps size 0 m else 1 + reading_steps size (S k) m
  end.

(** The goroutine is at the head of its loop; the batches hold [X]. *)
Definition caught_up (F : list nat) (size : Z) (p : Pool) (L X : wal_log) (res : outcome (rep_state (W := W) (R := R) * list slice)) : Prop :=
  exists w' p' r' sent, res = Ret (mkRep w' p' r' PTop, sent) /\ tl_log w' L /\ agrees F p p' /\ pool_ok p' (slots (concat sent) ++ F) /\
    holds p' (concat sent) X /\ Forall (fun b => 0 < blen b <= size) sent /\ last_is L (lastOffset r').

Lemma caught_up_agrees F size p p1 L X res : agrees F p p1 -> caught_up F size p1 L X res -> caught_up F size p L X res.
Proof.
  intros Ha (w' & p' & r' & sent & Hres & Hl & Ha' & Hrest). exists w', p', r', sent. split; [done|]. split; [done|]. split; [by eapply agrees_trans|done].
Qed.

Definition reading_state (w : W) (rd : R) (p : Pool) (r : Replicator R) (F : list nat) (A B : wal_log) (b : slice) (sent : list slice) (X : wal_log) : Prop :=
  reader r = Some rd /\ tl_at w rd A B /\ tl_complete w rd /\ last_is A (lastOffset r) /\ ctxDone r = false /\
  pool_ok p (slots (concat (sent ++ [b])) ++ F) /\ holds p (concat (sent ++ [b])) X /\ Forall (fun b => 0 < blen b <= batchSize r) sent.

Lemma read_step pick w rd p r F A x B b sent X : reading_state w rd p r F A (x :: B) b sent X -> blen b < batchSize r ->
  exists w' rd' p' r' i, batchSize r' = batchSize r /\ agrees F p p' /\ reading_state w' rd' p' r' F (A ++ [x]) B (b ++ [Some i]) sent (X ++ [x]) /\
    rep_step (mkAnswer true pick) false true (mkRep w p r (PNext b)) =
      Ret (Some (mkRep w' p' r' (if batchSize r <=? Z.of_nat (S (length b)) then PSend (b ++ [Some i]) ThenNext else PNext (b ++ [Some i])), None)).
Proof.
  intros (Hrd & Hat & Hcp & Hla & Hd & Hok & Hh & Hsz) Hb. destruct (tl_Next_law w rd A (x :: B) Hat) as (w' & rd' & res & Hn & _ & _ & Hres).
  destruct res as [y|[]]; try done; [|by destruct Hres as [? _]|by destruct Hres].
  destruct Hres as (B' & [= <- <-] & Hat' & Hcp'). destruct x as [d q].
  destruct (acquireWalRecord pick p) as [p1 i] eqn:Eacq. destruct (acquire_spec pick p _ (fill d q) p1 i Hok Eacq) as (Hok1 & Ha1 & Hcell).
  exists w', rd', (set_record i (fill d q) p1), (with_lastOffset q (with_reader (Some rd') r)), i. split; [done|].
  split; [eapply agrees_subset; [|exact Ha1]; set_solver|]. split.
  - split; [done|]. split; [done|]. split; [by apply Hcp'|]. split; [by apply last_is_snoc|]. split; [done|].
    rewrite !concat_app in *. cbn [concat] in *. rewrite !app_nil_r in *. rewrite !slots_app in *. split; [|split; [|done]].
    + eapply pool_ok_perm; [|exact Hok1]. cbn. rewrite <- !app_assoc. cbn. solve_Permutation.
    + rewrite app_assoc. apply holds_app; [eapply holds_agrees; [done|]; eapply agrees_subset; [|exact Ha1]; rewrite slots_app; set_solver|]. constructor; [by exists i|constructor].
  - unfold rep_step. cbn [rs_pc]. unfold read_one. cbn [rs_rep rs_log rs_pool]. rewrite Hrd, Hn. cbn [mbind outcome_bind]. cbn [an_pick]. rewrite Eacq.
    cbn [batchSize with_lastOffset with_reader]. unfold blen. rewrite length_app. cbn [length]. rewrite Nat.add_1_r.
    rewrite sendFunc_nonempty by by destruct b. by destruct (batchSize r <=? Z.of_nat (S (length b))).
Qed.

Lemma read_all B : forall picks w rd p r F A b sent X, reading_state w rd p r F A B b sent X -> blen b < batchSize r ->
  length picks = reading_steps (batchSize r) (length b) (length B) ->
  caught_up F (batchSize r) p (A ++ B) (X ++ B) (rep_run picks (mkRep w p r (PNext b)) sent).
Proof.
  induction B as [|x B IH]; intros picks w rd p r F A b sent X Hst Hb Hlen; cbn [length reading_steps] in Hlen.
  - destruct Hst as (Hrd & Hat & Hcp & Hla & Hd & Hok & Hh & Hsz). rewrite !app_nil_r.
    destruct (tl_Next_law w rd A [] Hat) as (w' & rd' & res & Hn & _ & Hl & Hres). rewrite app_nil_r in Hl.
    assert (res = Err ErrNoNewData) as ->.
    { destruct res as [y|[]]; try done; [by destruct Hres as (? & ? & _)|by destruct Hres as [_ []]]. }
    destruct picks as [|pick picks]; [by destruct (Nat.eqb _ _)|]. cbn [rep_run]. unfold rep_step at 1. cbn [rs_pc]. unfold read_one. cbn [rs_rep rs_log rs_pool].
    rewrite Hrd, Hn. cbn [mbind outcome_bind]. destruct b as [|y b].
    + destruct picks; [|done]. cbn [sendFunc after next_failed replicate_error mbind outcome_bind rep_run]. rewrite concat_app in Hok, Hh. cbn [concat] in Hok, Hh. rewrite app_nil_r in Hok, Hh.
      by eexists _, _, _, _.
    + cbn [length Nat.eqb] in Hlen. destruct picks as [|pick' [|]]; [done| |done]. cbn [sendFunc mbind outcome_bind rep_run].
      cbn [rep_step rs_pc rs_log rs_pool rs_rep an_send after next_failed replicate_error mbind outcome_bind rep_run].
      eexists _, _, _, _. split; [done|]. split; [done|]. split; [done|]. split; [done|]. split; [done|]. split; [|done]. apply Forall_app. split; [done|].
      repeat constructor; unfold blen in *; cbn [length] in *; lia.
  - assert (length picks <> 0%nat) as Hne by (destruct (_ <=? _); lia). destruct picks as [|pick picks]; [done|]. cbn [rep_run].
    destruct (read_step pick w rd p r F A x B b sent X Hst Hb) as (w' & rd' & p' & r' & i & Hsz & Ha & Hst' & ->). cbn [mbind outcome_bind].
    rewrite <- Hsz in *. rewrite (cons_middle x A B), (cons_middle x X B), !app_assoc. apply (caught_up_agrees _ _ p p'); [done|].
    destruct (Z.leb_spec (batchSize r') (Z.of_nat (S (length b)))).
    + destruct picks as [|pick' picks]; [done|]. cbn [rep_run]. cbn [rep_step rs_pc rs_log rs_pool rs_rep an_send after mbind outcome_bind]. cbn [length] in Hlen.
      apply (IH picks w' rd'); [|unfold blen; cbn [length]; unfold blen in Hb; lia|cbn [length]; lia].
      destruct Hst' as (? & ? & ? & ? & ? & ? & ? & Hf). unfold reading_state. rewrite (concat_app (sent ++ [b ++ [Some i]])). cbn [concat]. rewrite !app_nil_r.
      do 7 (split; [done|]). apply Forall_app. split; [done|]. repeat constructor; unfold blen in *; rewrite length_app; cbn [length]; lia.
    + apply (IH picks w' rd'); [done|unfold blen; rewrite length_app; cbn [length]; lia|]. rewrite length_app. cbn [length] in *. rewrite Nat.add_1_r. lia.
Qed.

(** C20. A replicator catches up.  Woken with no reader open, it sends every record
    of the log after its last offset, in order, in batches of one to [batchSize]
    records, within a bounded number of steps and whichever records the pool
    hands out, and is back at the head of its loop behind the last record. *)
Theorem replicator_catches_up w p r F A B picks : tl_log w (A ++ B) -> reader r = None -> ctxDone r = false -> last_is A (lastOffset r) -> 0 < batchSize r ->
  pool_ok p F -> length picks = S (reading_steps (batchSize r) 0 (length B)) ->
  caught_up F (batchSize r) p (A ++ B) B (rep_run picks (mkRep w p r PGetReader) []).
Proof.
  intros Hl Hr Hd Hla Hsz Hok Hlen. destruct picks as [|pick picks]; [done|]. injection Hlen as Hlen. cbn [rep_run].
  assert (exists w' rd, getReader w r = Ret (w', Ok rd) /\ tl_at w' rd A B /\ tl_complete w' rd) as (w' & rd & Hget & Hat & Hcp).
  { unfold getReader. rewrite Hr. pose proof (tl_positions w _ Hl) as [_ Hreal]. destruct A as [|[d q] A _] using rev_ind.
    - unfold last_is in Hla. cbn in Hla. rewrite Hla. cbn [IsZero NilRecordPosition SegmentID Offset Z.eqb andb].
      destruct (tl_begin w _ Hl) as (rd & -> & Hat & Hcp). cbn [mbind outcome_bind]. by exists w, rd.
    - apply last_is_snoc in Hla. rewrite <- app_assoc in Hreal, Hl. cbn [app] in Hreal, Hl.
      assert (real_pos q) as [Hq1 _] by (rewrite Forall_forall in Hreal; apply Hreal; rewrite fmap_app, fmap_cons; apply elem_of_app; right; by left).
      assert (IsZero (lastOffset r) = false) as -> by (rewrite Hla; unfold IsZero; by replace (SegmentID q =? 0) with false by lia).
      rewrite Hla. destruct (tl_start w A d q B Hl) as (rd & -> & Hat & Hcp). cbn [mbind outcome_bind].
      destruct (tl_Next_law w rd A _ Hat) as (w' & rd' & res & -> & _ & _ & Hres). cbn [mbind outcome_bind].
      destruct res as [y|[]]; try done; [|by destruct Hres as [? _]|by destruct Hres]. destruct Hres as (B' & [= <- <-] & Hat' & Hcp'). exists w', rd'. split; [done|]. split; [done|]. by apply Hcp'. }
  unfold rep_step. cbn [rs_pc rs_log rs_rep rs_pool]. rewrite Hget. cbn [mbind outcome_bind].
  apply (read_all B picks w' rd p (with_reader (Some rd) r) F A [] [] []); [|done|done]. split; [done|]. do 4 (split; [done|]). split; [done|]. split; [constructor|constructor].
Qed.
End progress.

Definition three_records : wal_log := [([Byte.x61], mkPos 1 64); ([Byte.x62], mkPos 1 96); ([Byte.x63], mkPos 1 128)].

Lemma replicator_catches_up_witness :
  caught_up [] 1 (mkPool [] []) three_records (tail three_records)
    (rep_run (replicate 6 0%nat) (mkRep three_records (mkPool [] []) (NewReplicator 1 (Some (mkPos 1 64))) PGetReader) []).
Proof.
  assert (tl_log three_records ([([Byte.x61], mkPos 1 64)] ++ tail three_records)) as Hl by (split; [done|]; apply positions_ok_dec; reflexivity).
  apply (replicator_catches_up three_records (mkPool [] []) (NewReplicator 1 (Some (mkPos 1 64))) [] [([Byte.x61], mkPos 1 64)] (tail three_records) (replicate 6 0%nat) Hl);
    [reflexivity|reflexivity|reflexivity|reflexivity|split; constructor|reflexivity].
Defined.
