(* ===== verification/Streamer.v ===== *)
(** The streaming service of a leader: internal/services/streamer/grpc_streamer.go.

    A stream has two goroutines, the replicator of [Replicator] and the handler
    that gathers its batches into messages, joined by the channels
    [walReceiver] and [replicatorErr].  [Session] is the state of both and
    [sess_step] a step of either; which case a select takes, the readings of the
    clock and whether a send succeeds are part of the step's label.  The pool
    and the log are shared with all other streams.  A nil record is dereferenced
    in the handler: that panic is [Panic].  Metrics and log lines are left out. *)

From stdpp Require Import prelude list numbers gmap.
From Stdlib Require Import ZArith Lia.
From S2P Require Import Prelude Bytes Segment WalIO WalTail GrpcUtils Replicator.

Definition grpcMaxMsgSize : Z := Z.shiftl 1 20.
Definition streamBatchSize : Z := 20.

(** ** Requests *)

Section requests.
Context {E : Type} (CurrentOffset : E -> option RecordPosition).

(** [storageEngines[namespace]] after the check for an empty name. *)
Definition find_engine (storageEngines : gmap bytes E) (ctx : Ctx) : result status E :=
  let '(namespace, _, _) := GetRequestInfo ctx in
  match namespace with
  | [] => Err (ToGRPCError ErrMissingNamespaceInMetadata)
  | _ =>
      match storageEngines !! namespace with
      | None => Err (ToGRPCError ErrNamespaceNotExists)
      | Some engine => Ok engine
      end
  end.

(** An engine without records answers with no offset. *)
Definition GetLatestOffset (storageEngines : gmap bytes E) (ctx : Ctx) : result status bytes :=
  match find_engine storageEngines ctx with
  | Err s => Err s
  | Ok engine =>
      match CurrentOffset engine with
      | None => Ok []
      | Some offset => Ok (Encode offset)
      end
  end.

(** A panic of the decoder is recovered. *)
Definition decodeMetadata (data : bytes) : outcome (result unit (option RecordPosition)) :=
  if blen data =? 0 then Ret (Ok None) else
  match DecodeOffset data with
  | Panic => Ret (Err tt)
  | NoFuel => NoFuel
  | Ret None => Ret (Err tt)
  | Ret (Some o) => Ret (Ok (Some o))
  end.

(** [StreamWalRecords] up to the start of its goroutine: the offset from which the
    stream starts, or the status with which the request is refused. *)
Definition open_stream (storageEngines : gmap bytes E) (ctx : Ctx) (offset : bytes) : outcome (result status (option RecordPosition)) :=
  match find_engine storageEngines ctx with
  | Err s => Ret (Err s)
  | Ok engine =>
      meta ← decodeMetadata offset;
      match meta with
      | Err _ => Ret (Err (ToGRPCError ErrInvalidMetadata))
      | Ok meta =>
          match meta, CurrentOffset engine with
          | Some m, None => if negb (IsZero m) then Ret (Err (ToGRPCError ErrInvalidMetadata)) else Ret (Ok meta)
          | _, _ => Ret (Ok meta)
          end
      end
  end.
End requests.

(** ** The handler *)

(** Its variables [batch], [totalBatchSize] and [lastReceivedRecordTime]. *)
Record Streaming := mkStreaming { s_batch : slice; totalBatchSize : Z; lastReceived : Z }.

Inductive ctx_error := CtxCanceled | CtxDeadline.

(** [walReceiver], [replicatorErr] with their closed flags; [wire] are the
    messages that were sent and not yet received.  [returned] is the error the
    handler returned, [None] inside for nil. *)
Record Session (R : Type) := mkSession {
  ss_rep : Replicator R;
  ss_pc : rep_pc;
  ss_ctx : option ctx_error;
  walReceiver : list slice;
  walReceiver_closed : bool;
  replicatorErr : option rep_error;
  replicatorErr_closed : bool;
  streaming : Streaming;
  returned : option (option status);
  wire : list (list WALRecord)
}.
Arguments mkSession {R}.
Arguments ss_rep {R}.
Arguments ss_pc {R}.
Arguments ss_ctx {R}.
Arguments walReceiver {R}.
Arguments walReceiver_closed {R}.
Arguments replicatorErr {R}.
Arguments replicatorErr_closed {R}.
Arguments streaming {R}.
Arguments returned {R}.
Arguments wire {R}.

(** SendMsg encodes the message, a nil record as an empty one. *)
Definition encode_slot (p : Pool) (r : option nat) : WALRecord :=
  match r with Some r => default nilRecord (cells p !! r) | None => nilRecord end.
Definition encode_slice (p : Pool) (b : slice) : list WALRecord := encode_slot p <$> b.

(** [flushBatch] is not reached with an empty batch; [sendOk] is the answer of
    SendMsg. *)
Definition flushBatch (sendOk : bool) (p : Pool) (batch : slice) : option (list WALRecord) :=
  if sendOk then Some (encode_slice p batch) else None.

(** The closure [flusher]: the message that was sent, and whether it returned nil. *)
Definition flusher (sendOk : bool) (p : Pool) (st : Streaming) : Pool * Streaming * list (list WALRecord) * bool :=
  match s_batch st with
  | [] => (p, st, [], true)
  | toFlush =>
      let sent := flushBatch sendOk p toFlush in
      let '(p, cleared) := ReleaseRecords toFlush p in
      match sent with
      | None => (p, mkStreaming cleared (totalBatchSize st) (lastReceived st), [], false)
      | Some msg => (p, mkStreaming [] 0 (lastReceived st), [msg], true)
      end
  end.

(** The loop over a batch that was received; a failed flush ends the handler. *)
Fixpoint receive_records (now : nat -> Z) (sendOk : nat -> bool) (p : Pool) (st : Streaming) (records : slice)
  : outcome (Pool * Streaming * list (list WALRecord) * bool) :=
  match records with
  | [] => Ret (p, st, [], true)
  | walRecord :: rest =>
      match walRecord with
      | None => Panic
      | Some r =>
          let size := blen (wr_Record (default nilRecord (cells p !! r))) in
          let st := mkStreaming (s_batch st ++ [walRecord]) (totalBatchSize st + size) (now 0%nat) in
          let '(p, st, sent, ok) := if grpcMaxMsgSize <=? totalBatchSize st then flusher (sendOk 0%nat) p st else (p, st, [], true) in
          if negb ok then Ret (p, st, sent, false) else
          '(p, st, more, ok) ← receive_records (fun n => now (S n)) (fun n => sendOk (S n)) p st rest;
          Ret (p, st, sent ++ more, ok)
      end
  end.

Inductive sess_tag :=
| SReplicator (a : Answer)
| SMonitor
| SReport (send : bool)
| STimeout (now : Z) (sendOk : bool)
| SFlush (sendOk : bool)
| SShutdown (sendOk : bool)
| SContext (sendOk : bool)
| SRecords (now : nat -> Z) (sendOk : nat -> bool)
| SError
| SCancel (e : ctx_error).

Section session.
Context {W R : Type} `{TailLog W R}.
Notation Session := (Session R).

(** [StreamWalRecords] has started the goroutine. *)
Definition new_session (meta : option RecordPosition) (now : Z) : Session :=
  mkSession (NewReplicator streamBatchSize meta) PTop None [] false None false (mkStreaming [] 0 now) None [].

Definition with_rep (r : Replicator R) (pc : rep_pc) (s : Session) : Session :=
  mkSession r pc (ss_ctx s) (walReceiver s) (walReceiver_closed s) (replicatorErr s) (replicatorErr_closed s) (streaming s) (returned s) (wire s).
Definition with_ctx (c : option ctx_error) (s : Session) : Session :=
  mkSession (ss_rep s) (ss_pc s) c (walReceiver s) (walReceiver_closed s) (replicatorErr s) (replicatorErr_closed s) (streaming s) (returned s) (wire s).
Definition with_receiver (c : list slice) (s : Session) : Session :=
  mkSession (ss_rep s) (ss_pc s) (ss_ctx s) c (walReceiver_closed s) (replicatorErr s) (replicatorErr_closed s) (streaming s) (returned s) (wire s).
Definition with_channels_closed (e : option rep_error) (s : Session) : Session :=
  mkSession (ss_rep s) (ss_pc s) (ss_ctx s) (walReceiver s) true e true (streaming s) (returned s) (wire s).
Definition with_streaming (st : Streaming) (sent : list (list WALRecord)) (s : Session) : Session :=
  mkSession (ss_rep s) (ss_pc s) (ss_ctx s) (walReceiver s) (walReceiver_closed s) (replicatorErr s) (replicatorErr_closed s) st (returned s) (wire s ++ sent).
Definition with_wire (m : list (list WALRecord)) (s : Session) : Session :=
  mkSession (ss_rep s) (ss_pc s) (ss_ctx s) (walReceiver s) (walReceiver_closed s) (replicatorErr s) (replicatorErr_closed s) (streaming s) (returned s) m.

(** The context of the stream ends once. *)
Definition cancel (e : ctx_error) (s : Session) : Session :=
  match ss_ctx s with Some _ => s | None => with_ctx (Some e) s end.

(** The handler returns: the deferred [cancel()] runs. *)
Definition return_status (x : option status) (s : Session) : Session :=
  cancel CtxCanceled (mkSession (ss_rep s) (ss_pc s) (ss_ctx s) (walReceiver s) (walReceiver_closed s) (replicatorErr s) (replicatorErr_closed s)
                        (streaming s) (Some x) (wire s)).

(** Flush, and return [fails] when that fails, otherwise go on with [k]. *)
Definition flush_then (sendOk : bool) (p : Pool) (s : Session) (k : Session -> Session) (fails : Session -> Session) : Pool * Session :=
  let '(p, st, sent, ok) := flusher sendOk p (streaming s) in
  let s := with_streaming st sent s in
  (p, if ok then k s else fails s).

Definition send_failed : Session -> Session := return_status (Some (ToGRPCError ErrOther)).

Definition is_done (s : Session) : bool := match returned s with Some _ => true | None => false end.

(** [dynamicTimeout] and [shutdown] belong to the service. *)
Definition sess_step (dynamicTimeout : Z) (shutdown : bool) (t : sess_tag) (w : W) (p : Pool) (s : Session)
  : outcome (option (W * Pool * Session)) :=
  let handler (x : outcome (Pool * Session)) : outcome (option (W * Pool * Session)) :=
    if is_done s then Ret None else '(p, s) ← x; Ret (Some (w, p, s)) in
  match t with
  | SReplicator a =>
      let room := (length (walReceiver s) <? 2)%nat in
      x ← rep_step a (if ss_ctx s then true else false) room (mkRep w p (ss_rep s) (ss_pc s));
      Ret (match x with
           | None => None
           | Some (r, sent) =>
               let s := with_rep (rs_rep r) (rs_pc r) s in
               Some (rs_log r, rs_pool r, match sent with Some b => with_receiver (walReceiver s ++ [b]) s | None => s end)
           end)
  | SMonitor =>
      Ret (match ss_ctx s with None => None | Some _ => Some (w, p, with_rep (closeChannel (ss_rep s)) (ss_pc s) s) end)
  | SReport send =>
      Ret (match ss_pc s with
           | PReturned e =>
               if walReceiver_closed s then None
               else if send then Some (w, p, with_channels_closed (Some e) s)
               else match ss_ctx s with None => None | Some _ => Some (w, p, with_channels_closed None s) end
           | _ => None
           end)
  | STimeout now sendOk =>
      handler (Ret (if dynamicTimeout <? now - lastReceived (streaming s)
                    then flush_then sendOk p s (return_status (Some (ToGRPCError ErrStreamTimeout))) send_failed
                    else (p, s)))
  | SFlush sendOk => handler (Ret (flush_then sendOk p s (fun s => s) send_failed))
  | SShutdown sendOk =>
      let over := return_status (Some (mkStatus Unavailable GracefulShutdownMsg)) in
      if shutdown then handler (Ret (flush_then sendOk p s over over)) else Ret None
  | SContext sendOk =>
      match ss_ctx s with
      | None => Ret None
      | Some e =>
          let over := return_status (match e with CtxCanceled => None | CtxDeadline => Some (mkStatus DeadlineExceeded []) end) in
          handler (Ret (flush_then sendOk p s over over))
      end
  | SRecords now sendOk =>
      match walReceiver s with
      | [] =>
          if walReceiver_closed s then handler (Ret (flush_then (sendOk 0%nat) p s (return_status None) send_failed))
          else Ret None
      | walRecords :: rest =>
          handler ('(p, st, sent, ok) ← receive_records now sendOk p (streaming s) walRecords;
                   let s := with_streaming st sent (with_receiver rest s) in
                   Ret (p, if (ok : bool) then s else send_failed s))
      end
  | SError =>
      (* the errors of a replicator are never dbkernel.ErrInvalidOffset *)
      match replicatorErr s with
      | Some _ =>
          handler (Ret (p, return_status (Some (ToGRPCError ErrOther))
                     (mkSession (ss_rep s) (ss_pc s) (ss_ctx s) (walReceiver s) (walReceiver_closed s) None (replicatorErr_closed s) (streaming s) (returned s) (wire s))))
      | None => if replicatorErr_closed s then handler (Ret (p, return_status (Some (ToGRPCError ErrOther)) s)) else Ret None
      end
  | SCancel e => Ret (Some (w, p, cancel e s))
  end.
End session.
