(* ===== verification/StreamerFacts.v ===== *)
(** A stream of the leader: whatever its two goroutines, the other streams, the
    writers and the network do, the records that go out on it are the records of
    the log, in order, from the place where the stream started; the records of
    the pool are in use by one stream at a time; and the handler panics only
    after the context of the stream has ended. *)

From stdpp Require Import prelude list numbers gmap sorting.
From Stdlib Require Import ZArith Lia.
From S2P Require Import Prelude Bytes Segment WalIO WalTail GrpcUtils Replicator ReplicatorFacts Streamer.

(** ** Flushing a batch *)

Lemma pool_ok_drop p F G : pool_ok p (F ++ G) -> pool_ok p G.
Proof. unfold pool_ok. rewrite <- app_assoc, NoDup_app, Forall_app. intuition. Qed.

(** The messages that carry the batches [X]. *)
Definition messages (X : list wal_log) : list (list WALRecord) := (fun B : wal_log => wire_of <$> B) <$> X.

Lemma messages_app X Y : messages (X ++ Y) = messages X ++ messages Y.
Proof. apply fmap_app. Qed.

Lemma encode_holds p b X : holds p b X -> encode_slice p b = wire_of <$> X.
Proof. induction 1 as [|slot x b X (r & -> & Hr) Hb IH]; [done|]. cbn. by rewrite Hr, <- IH. Qed.

Lemma holds_split p a b X : holds p (a ++ b) X -> exists Y Z, X = Y ++ Z /\ holds p a Y /\ holds p b Z.
Proof. intros Hb. apply Forall2_app_inv_l in Hb as (Y & Z & Ha & Hb & ->). by exists Y, Z. Qed.

Lemma flusher_spec sendOk p st Q F : holds p (s_batch st) Q -> pool_ok p (slots (s_batch st) ++ F) ->
  exists p' st' X ok, flusher sendOk p st = (p', st', messages X, ok) /\ agrees F p p' /\ pool_ok p' (slots (s_batch st') ++ F) /\
    if ok then s_batch st' = [] /\ concat X = Q else X = [] /\ slots (s_batch st') = [].
Proof.
  intros Hb Hok. unfold flusher. destruct (s_batch st) as [|x b] eqn:E.
  - apply holds_nil_inv in Hb as ->. exists p, st, [], true. rewrite E. split; [done|]. by split.
  - rewrite <- E in *. destruct (release_spec _ p F Hok) as (p' & -> & Hok' & Ha). unfold flushBatch. destruct sendOk.
    + exists p', (mkStreaming [] 0 (lastReceived st)), [Q], true. cbn. rewrite (encode_holds _ _ _ Hb). rewrite app_nil_r. done.
    + exists p', (mkStreaming (replicate (length (s_batch st)) None) (totalBatchSize st) (lastReceived st)), [], false.
      cbn [s_batch]. by rewrite (all_nil_slots _ (all_nil_replicate _)).
Qed.

(** A batch of the replicator goes into the batch of the handler. *)
Lemma receive_records_spec recs : forall now sendOk p st Q X F, holds p (s_batch st) Q -> holds p recs X ->
  pool_ok p (slots (s_batch st) ++ slots recs ++ F) ->
  exists p' st' Y ok, receive_records now sendOk p st recs = Ret (p', st', messages Y, ok) /\ agrees F p p' /\ pool_ok p' (slots (s_batch st') ++ F) /\
    if ok then exists Q', holds p' (s_batch st') Q' /\ concat Y ++ Q' = Q ++ X else concat Y `prefix_of` Q ++ X.
Proof.
  induction recs as [|slot recs IH]; intros now sendOk p st Q X F Hb Hx Hok; cbn [receive_records].
  - apply holds_nil_inv in Hx as ->. exists p, st, [], true. split; [done|]. split; [done|]. split; [done|]. exists Q. by rewrite app_nil_r.
  - apply Forall2_cons_inv_l in Hx as (x & X' & (r & -> & Hr) & Hx' & ->).
    set (st1 := mkStreaming (s_batch st ++ [Some r]) _ (now 0%nat)).
    assert (holds p (s_batch st1) (Q ++ [x])) as Hb1 by (apply holds_app; [done|]; constructor; [by exists r|constructor]).
    assert (pool_ok p (slots (s_batch st1) ++ slots recs ++ F)) as Hok1.
    { cbn [st1 s_batch]. rewrite slots_app, <- app_assoc. exact Hok. }
    assert (exists p1 st2 Y1 ok1, (if grpcMaxMsgSize <=? totalBatchSize st1 then flusher (sendOk 0%nat) p st1 else (p, st1, [], true)) = (p1, st2, messages Y1, ok1) /\
      agrees (slots recs ++ F) p p1 /\ pool_ok p1 (slots (s_batch st2) ++ slots recs ++ F) /\
      if ok1 then exists Q1, holds p1 (s_batch st2) Q1 /\ concat Y1 ++ Q1 = Q ++ [x] else Y1 = [] /\ slots (s_batch st2) = []) as (p1 & st2 & Y1 & ok1 & -> & Ha1 & Hok2 & Hres).
    { destruct (grpcMaxMsgSize <=? totalBatchSize st1).
      - destruct (flusher_spec (sendOk 0%nat) p st1 _ _ Hb1 Hok1) as (p1 & st2 & Y1 & ok1 & -> & Ha & Hok2 & Hres). exists p1, st2, Y1, ok1.
        split; [done|]. split; [done|]. split; [done|]. destruct ok1; [|done]. destruct Hres as [-> Hc]. exists []. split; [constructor|]. by rewrite app_nil_r.
      - exists p, st1, [], true. split; [done|]. split; [done|]. split; [done|]. by exists (Q ++ [x]). }
    assert (agrees F p p1) as HaF by (eapply agrees_subset; [|done]; set_solver).
    destruct ok1; cbn [negb].
    + destruct Hres as (Q1 & Hb2 & Hc).
      assert (holds p1 recs X') as Hx1 by (eapply holds_agrees; [done|]; eapply agrees_subset; [|exact Ha1]; set_solver).
      destruct (IH (fun n => now (S n)) (fun n => sendOk (S n)) p1 st2 Q1 X' F Hb2 Hx1 Hok2) as (p2 & st3 & Y2 & ok2 & -> & Ha2 & Hok3 & Hres2).
      cbn [mbind outcome_bind]. exists p2, st3, (Y1 ++ Y2), ok2. rewrite messages_app. split; [done|]. split; [by eapply agrees_trans|]. split; [done|].
      assert (Q ++ x :: X' = concat Y1 ++ Q1 ++ X') as -> by (rewrite app_assoc, Hc, <- app_assoc; done).
      rewrite concat_app. destruct ok2.
      * destruct Hres2 as (Q' & Hq & Heq). exists Q'. split; [done|]. by rewrite <- app_assoc, Heq.
      * by apply prefix_app.
    + destruct Hres as [-> Hnil]. exists p1, st2, [], false. split; [done|]. split; [done|]. rewrite Hnil in *. split; [exact (pool_ok_drop p1 (slots recs) F Hok2)|]. apply prefix_nil.
Qed.

(** ** The state of a stream *)

Section session.
Context {W R : Type} `{TailLaws W R}.
Notation Session := (Session R).

(** The records a stream has in use. *)
Definition handler_ptrs (s : Session) : list nat := slots (s_batch (streaming s)) ++ slots (concat (walReceiver s)).
Definition sess_ptrs (s : Session) : list nat := handler_ptrs s ++ slots (pc_batch (ss_pc s)).

(** [S]: the records before the start of the stream and those its client has
    received; [Wr] is on the wire, [Q1] in the batch of the handler and [Q2]
    in the channel.  Slices without records come only from a replicator that
    has given up. *)
Definition handler_inv (p : Pool) (L S : wal_log) (out : wal_log) (live : bool) (s : Session) : Prop :=
  exists Q1 Q2 good nils, holds p (s_batch (streaming s)) Q1 /\ walReceiver s = good ++ nils /\ Forall all_nil nils /\ holds p (concat good) Q2 /\
    S ++ Q1 ++ Q2 `prefix_of` L /\ (live = true -> nils = [] /\ out = S ++ Q1 ++ Q2).

Record sess_core (w : W) (p : Pool) (L S : wal_log) (s : Session) (Wr : list wal_log) (out Q3 : wal_log) (live : bool) : Prop := {
  sp_wire : wire s = messages Wr;
  sp_prefix : S ++ concat Wr `prefix_of` L;
  sp_rep : rep_inv w p (ss_rep s) (ss_pc s) L out Q3 live;
  sp_live : live = false -> ss_ctx s <> None;
  sp_done : ctxDone (ss_rep s) = true -> ss_ctx s <> None \/ exists e, ss_pc s = PReturned e
}.

Definition sess_inv (w : W) (p : Pool) (L S : wal_log) (s : Session) : Prop := exists Wr out Q3 live,
  sess_core w p L S s Wr out Q3 live /\ (returned s = None -> handler_inv p L (S ++ concat Wr) out live s).

(** What others do leaves a stream as it is. *)
Lemma rep_inv_same w w' p p' r pc L out Q3 live : same_log w w' L -> agrees (slots (pc_batch pc)) p p' ->
  rep_inv w p r pc L out Q3 live -> rep_inv w' p' r pc L out Q3 live.
Proof.
  intros Hs Ha Hi. destruct live; cbn in *.
  - destruct Hi as [Hh Hr]. split; [by eapply holds_agrees|by eapply rep_reading_same].
  - destruct Hi as [Hd (Q & Hr)]. split; [done|]. exists Q. by eapply rep_reading_same.
Qed.

Lemma slots_concat_app (a b : list slice) : slots (concat (a ++ b)) = slots (concat a) ++ slots (concat b).
Proof. by rewrite concat_app, slots_app. Qed.

Lemma handler_inv_same p p' L S out live s : agrees (handler_ptrs s) p p' -> handler_inv p L S out live s -> handler_inv p' L S out live s.
Proof.
  intros Ha (Q1 & Q2 & good & nils & Hb & Hwr & Hn & Hg & Hrest). exists Q1, Q2, good, nils.
  split; [eapply holds_agrees; [done|]; eapply agrees_subset; [|done]; unfold handler_ptrs; set_solver|]. split; [done|]. split; [done|].
  split; [|done]. eapply holds_agrees; [done|]. eapply agrees_subset; [|done]. unfold handler_ptrs. rewrite Hwr, slots_concat_app. set_solver.
Qed.

Lemma sess_inv_same w w' p p' L S s : same_log w w' L -> agrees (sess_ptrs s) p p' -> sess_inv w p L S s -> sess_inv w' p' L S s.
Proof.
  intros Hs Ha (Wr & out & Q3 & live & [Hw Hp Hr Hl Hd] & Hh). exists Wr, out, Q3, live. split; [split; try done|].
  - eapply rep_inv_same; [done| |done]. eapply agrees_subset; [|done]. unfold sess_ptrs. set_solver.
  - intros Hret. eapply handler_inv_same; [|by apply Hh]. eapply agrees_subset; [|done]. unfold sess_ptrs. set_solver.
Qed.

Lemma sess_inv_grows w w' p L X S s : (forall rd A B, tl_at w rd A B -> tl_at w' rd A (B ++ X)) -> sess_inv w p L S s -> sess_inv w' p (L ++ X) S s.
Proof.
  intros Hg (Wr & out & Q3 & live & [Hw Hp Hr Hl Hd] & Hh). exists Wr, out, Q3, live. split; [split; try done|].
  - by apply prefix_app_r.
  - by eapply rep_inv_grows.
  - intros Hret. destruct (Hh Hret) as (Q1 & Q2 & good & nils & ? & ? & ? & ? & ? & ?). exists Q1, Q2, good, nils. split; [done|]. split; [done|].
    split; [done|]. split; [done|]. split; [by apply prefix_app_r|done].
Qed.

(** A new stream, behind the records [S]. *)
Lemma new_session_inv w p L S ahead meta now : tl_log w L -> L = S ++ ahead -> last_is S (default NilRecordPosition meta) ->
  sess_inv w p L S (new_session meta now) /\ sess_ptrs (new_session meta now : Session) = [].
Proof.
  intros Hl HL Hla. split; [|done]. exists [], S, [], true. split; [split; try done|].
  - cbn. rewrite app_nil_r, HL. by apply prefix_app_r.
  - cbn. rewrite app_nil_r. split; [constructor|]. by exists ahead.
  - intros _. exists [], [], [], []. cbn. rewrite !app_nil_r. split; [constructor|]. split; [done|]. split; [constructor|]. split; [constructor|].
    split; [rewrite HL; by apply prefix_app_r|done].
Qed.

(** The client receives a message. *)
Lemma receive_inv w p L S s m rest : sess_inv w p L S s -> wire s = m :: rest ->
  exists B, m = wire_of <$> B /\ S ++ B `prefix_of` L /\ sess_inv w p L (S ++ B) (with_wire rest s).
Proof.
  intros (Wr & out & Q3 & live & [Hw Hp Hr Hl Hd] & Hh) Hm. rewrite Hm in Hw. destruct Wr as [|B Wr]; [done|]. injection Hw as -> ->.
  cbn [concat] in Hp, Hh. rewrite app_assoc in Hp, Hh. exists B. split; [done|]. split; [etrans; [|exact Hp]; by apply prefix_app_r|].
  by exists Wr, out, Q3, live.
Qed.

(** ** A step of a stream *)

Definition sess_effect (w : W) (p : Pool) (L S : wal_log) (F : list nat) (x : W * Pool * Session) : Prop :=
  let '(w', p', s') := x in
  same_log w w' L /\ agrees F p p' /\ pool_ok p' (sess_ptrs s' ++ F) /\ sess_inv w' p' L S s'.

Lemma rep_inv_closeChannel w p r pc L out Q3 live : rep_inv w p r pc L out Q3 live -> rep_inv w p (closeChannel r) pc L out Q3 live.
Proof. destruct live; [done|]. intros [[_ Hd] Hr]. split; [|done]. by split. Qed.

Lemma cancel_ctx e (s : Session) : ss_ctx (cancel e s) <> None.
Proof. unfold cancel. by destruct (ss_ctx s) eqn:E; [rewrite E|]. Qed.

Lemma cancel_core w p L S s Wr out Q3 live e : sess_core w p L S s Wr out Q3 live -> sess_core w p L S (cancel e s) Wr out Q3 live.
Proof.
  intros [Hw Hp Hr Hl Hd]. pose proof (cancel_ctx e s) as Hc. unfold cancel in *. destruct (ss_ctx s) eqn:E; [split; try done; by rewrite E|].
  split; try done. by left.
Qed.

Lemma returned_inv w p L S s Wr out Q3 live x : sess_core w p L S s Wr out Q3 live -> sess_inv w p L S (return_status x s).
Proof.
  intros Hc. exists Wr, out, Q3, live. split.
  - apply cancel_core. destruct Hc as [Hw Hp Hr Hl Hd]. by split.
  - unfold return_status, cancel. cbn [ss_ctx]. by destruct (ss_ctx s).
Qed.

Lemma cancel_ptrs e (s : Session) : sess_ptrs (cancel e s) = sess_ptrs s.
Proof. unfold cancel. by destruct (ss_ctx s). Qed.

Lemma returned_ptrs x (s : Session) : sess_ptrs (return_status x s) = sess_ptrs s.
Proof. unfold return_status. by rewrite cancel_ptrs. Qed.

Section step.
Context (dynamicTimeout : Z) (shutdown : bool) (w : W) (p : Pool) (L S : wal_log) (F : list nat) (s : Session).
Hypothesis (Hl : tl_log w L) (Hi : sess_inv w p L S s) (Hok : pool_ok p (sess_ptrs s ++ F)).

(** The handler has sent [X] and its batch is in [st]. *)
Lemma sent_core Wr out Q3 live p' st X : sess_core w p L S s Wr out Q3 live -> agrees (slots (pc_batch (ss_pc s))) p p' ->
  S ++ concat (Wr ++ X) `prefix_of` L -> sess_core w p' L S (with_streaming st (messages X) s) (Wr ++ X) out Q3 live.
Proof.
  intros [Hw Hp Hr Hlv Hd] Ha Hpre. split; try done.
  - cbn. by rewrite Hw, messages_app.
  - by eapply rep_inv_same.
Qed.

Lemma flush_then_spec sendOk k fails : returned s = None ->
  (forall x, sess_inv w (fst x) L S (snd x) -> returned (snd x) = None -> sess_ptrs (k (snd x)) = sess_ptrs (snd x) /\ sess_inv w (fst x) L S (k (snd x))) ->
  (exists x, fails = return_status x) ->
  sess_effect w p L S F (w, (flush_then sendOk p s k fails).1, (flush_then sendOk p s k fails).2).
Proof.
  intros Hret Hk [x ->]. destruct Hi as (Wr & out & Q3 & live & Hc & Hh). destruct (Hh Hret) as (Q1 & Q2 & good & nils & Hb & Hwr & Hn & Hg & Hpre & Hlive).
  unfold sess_ptrs, handler_ptrs in Hok. rewrite <- !app_assoc in Hok. destruct (flusher_spec sendOk p (streaming s) Q1 _ Hb Hok) as (p' & st & X & ok & Hf & Ha & Hok' & Hres).
  unfold flush_then. rewrite Hf. cbn [fst snd].
  assert (agrees (slots (pc_batch (ss_pc s))) p p' /\ agrees (slots (concat good)) p p' /\ agrees F p p') as (Ha1 & Ha2 & Ha3).
  { rewrite Hwr, slots_concat_app in Ha. split; [|split]; (eapply agrees_subset; [|exact Ha]); set_solver. }
  assert (pool_ok p' (sess_ptrs (with_streaming st (messages X) s) ++ F)) as Hok1.
  { unfold sess_ptrs, handler_ptrs. cbn. by rewrite <- !app_assoc. }
  assert (S ++ concat (Wr ++ X) `prefix_of` L) as Hpre1.
  { rewrite concat_app. destruct ok.
    - destruct Hres as [_ ->]. rewrite !app_assoc in Hpre |- *. etrans; [|exact Hpre]. by apply prefix_app_r.
    - destruct Hres as [-> _]. rewrite app_nil_r. by apply Hc. }
  pose proof (sent_core Wr out Q3 live p' st X Hc Ha1 Hpre1) as Hc1. split; [done|]. split; [done|]. destruct ok.
  - destruct Hres as [Hst HX]. destruct (Hk (p', with_streaming st (messages X) s)) as [Hptr Hinv]; [|done|cbn [fst snd] in *; by rewrite Hptr].
    exists (Wr ++ X), out, Q3, live. split; [done|]. intros _. exists [], Q2, good, nils. cbn. rewrite Hst, concat_app, HX. split; [constructor|]. split; [done|].
    split; [done|]. split; [by eapply holds_agrees|]. rewrite <- !app_assoc in *. done.
  - rewrite returned_ptrs. split; [done|]. by eapply returned_inv.
Qed.

(** Results of a step: the handler can panic, but not before the context of the
    stream has ended. *)
Definition step_ok (r : outcome (option (W * Pool * Session))) : Prop :=
  match r with
  | Ret (Some x) => sess_effect w p L S F x
  | Ret None => True
  | Panic => ss_ctx s <> None
  | NoFuel => False
  end.

(** Steps that only change flags of the stream. *)
Lemma unchanged_ok s' : sess_inv w p L S s' -> sess_ptrs s' = sess_ptrs s -> sess_effect w p L S F (w, p, s').
Proof. intros Hi' Hp. split; [done|]. split; [done|]. by rewrite Hp. Qed.

(** The replicator has taken a step. *)
Lemma handler_after_send p' Wr out Q3 live s1 sent : handler_inv p L (S ++ concat Wr) out live s -> agrees (handler_ptrs s) p p' ->
  streaming s1 = streaming s -> walReceiver s1 = walReceiver s ++ (match sent with Some b => [b] | None => [] end) ->
  match sent with
  | None => True
  | Some b => if live then holds p' b Q3 /\ out ++ Q3 `prefix_of` L else all_nil b
  end -> handler_inv p' L (S ++ concat Wr) (match sent with Some _ => out ++ Q3 | None => out end) live s1.
Proof.
  intros Hh Ha Hst Hwr Hsent. apply (handler_inv_same p p' _ _ _ _ s Ha) in Hh as (Q1 & Q2 & good & nils & Hb & Hg1 & Hn & Hg & Hpre & Hlive).
  rewrite <- Hst in Hb. rewrite Hg1 in Hwr. destruct sent as [b|].
  - destruct live.
    + destruct (Hlive eq_refl) as [-> Hout]. destruct Hsent as [Hbq Hpre3]. exists Q1, (Q2 ++ Q3), (good ++ [b]), []. rewrite app_nil_r in *.
      split; [done|]. split; [done|]. split; [constructor|]. split; [rewrite concat_app; cbn; rewrite app_nil_r; by apply holds_app|].
      rewrite Hout, <- !app_assoc in Hpre3. rewrite <- !app_assoc. split; [done|]. intros _. split; [done|]. by rewrite Hout, <- !app_assoc.
    + exists Q1, Q2, good, (nils ++ [b]). split; [done|]. split; [by rewrite app_assoc|]. split; [apply Forall_app; by repeat constructor|]. done.
  - rewrite app_nil_r in Hwr. by exists Q1, Q2, good, nils.
Qed.

Lemma replicator_ok a : step_ok (sess_step dynamicTimeout shutdown (SReplicator a) w p s).
Proof.
  destruct Hi as (Wr & out & Q3 & live & [Hw Hp Hr Hlv Hd] & Hh). cbn [sess_step].
  set (G := handler_ptrs s ++ F).
  assert (pool_ok p (slots (pc_batch (ss_pc s)) ++ G)) as Hok1.
  { eapply pool_ok_perm; [|exact Hok]. unfold sess_ptrs, G. rewrite <- !app_assoc. solve_Permutation. }
  destruct (rep_step_spec L w p _ _ out Q3 live G Hl Hr Hok1 a (if ss_ctx s then true else false) (length (walReceiver s) <? 2)%nat) as (x & Hrun & Hx).
  { intros Hcd. destruct (Hd Hcd) as [Hc|?]; [left; by destruct (ss_ctx s)|by right]. }
  destruct x as [[r sent]|]; rewrite Hrun; [|done]. cbn [mbind outcome_bind step_ok]. destruct Hx as (Hs & Ha & Hok2 & Heff).
  assert (~ exists e, ss_pc s = PReturned e) as Hpc by (intros [e He]; rewrite He in Hrun; done).
  assert (ctxDone (ss_rep s) = true -> ss_ctx s <> None) as Hd' by (intros Hcd; by destruct (Hd Hcd)).
  set (s1 := match sent with Some b => _ | None => _ end).
  assert (ss_rep s1 = rs_rep r /\ ss_pc s1 = rs_pc r /\ wire s1 = wire s /\ ss_ctx s1 = ss_ctx s /\ returned s1 = returned s /\ streaming s1 = streaming s /\
          walReceiver s1 = walReceiver s ++ (match sent with Some b => [b] | None => [] end)) as (E1 & E2 & E3 & E4 & E5 & E6 & E7).
  { destruct sent; cbn; [done|]. by rewrite app_nil_r. }
  assert (ctxDone (ss_rep s1) = true -> ss_ctx s1 <> None \/ exists e, ss_pc s1 = PReturned e) as Hd1.
  { rewrite E1, E2, E4. intros Hcd. apply rep_step_open in Hrun as [Hc|[Hk|?]]; [left; by destruct (ss_ctx s)| |by right].
    left. apply Hd'. cbn in Hk. by rewrite <- Hk. }
  split; [done|]. split; [eapply agrees_subset; [|exact Ha]; unfold G; set_solver|]. split.
  - eapply pool_ok_perm; [|exact Hok2]. unfold sess_ptrs, G, handler_ptrs. rewrite E2, E6, E7, slots_concat_app.
    destruct sent; cbn [concat default]; rewrite ?app_nil_r, <- !app_assoc; solve_Permutation.
  - assert (agrees (handler_ptrs s) p (rs_pool r)) as Hah by (eapply agrees_subset; [|exact Ha]; unfold G; set_solver).
    assert (forall out' Q3' live', rep_inv (rs_log r) (rs_pool r) (rs_rep r) (rs_pc r) L out' Q3' live' -> (live' = false -> ss_ctx s <> None) ->
      (returned s = None -> handler_inv (rs_pool r) L (S ++ concat Wr) out' live' s1) -> sess_inv (rs_log r) (rs_pool r) L S s1) as Hmk.
    { intros out' Q3' live' Hr' Hlv' Hh'. exists Wr, out', Q3', live'. split; [split|by rewrite E5]; rewrite ?E1, ?E2, ?E3, ?E4; try done. by rewrite <- E1, <- E2, <- E4. }
    destruct sent as [b|].
    + destruct live.
      * destruct Heff as [Hb Hr']. apply (Hmk _ _ _ Hr'); [done|]. intros Hret. apply (handler_after_send (rs_pool r) Wr out Q3 true s1 (Some b)); try done; [by apply Hh|].
        split; [done|]. destruct Hr' as [_ (ahead & HL & _)]. rewrite HL, app_nil_r. by apply prefix_app_r.
      * destruct Heff as [Hb Hr']. apply (Hmk _ _ _ Hr'); [done|]. intros Hret.
        destruct (handler_after_send (rs_pool r) Wr out Q3 false s1 (Some b)) as (Q1 & Q2 & good & nils & Hrest); try done; [by apply Hh|].
        exists Q1, Q2, good, nils. by intuition.
    + destruct Heff as (Q3' & live' & Hr' & Hlt & Hcd). apply (Hmk _ _ _ Hr').
      * intros ->. destruct (ctxDone (ss_rep s)); [by apply Hd'|]. apply Hlv. by rewrite <- Hcd.
      * intros Hret. destruct (handler_after_send (rs_pool r) Wr out Q3 live s1 None) as (Q1 & Q2 & good & nils & H1 & H2 & H3 & H4 & H5 & H6); try done; [by apply Hh|].
        exists Q1, Q2, good, nils. split; [done|]. split; [done|]. split; [done|]. split; [done|]. split; [done|]. intros Hlt'. apply H6. by apply Hlt.
Qed.

Lemma is_done_returned : is_done s = match returned s with Some _ => true | None => false end.
Proof. done. Qed.

(** The flushes of the handler. *)
Lemma flusher_ok sendOk k fails : (k = (fun s => s) \/ exists x, k = return_status x) -> (exists x, fails = return_status x) ->
  step_ok (if is_done s then Ret None else '(p, s) ← Ret (flush_then sendOk p s k fails); Ret (Some (w, p, s))).
Proof.
  intros Hk Hf. rewrite is_done_returned. destruct (returned s) eqn:Hret; [done|]. cbn [mbind outcome_bind step_ok].
  pose proof (flush_then_spec sendOk k fails Hret) as Hsp. destruct (flush_then sendOk p s k fails) as [p' s']. apply Hsp; [|done].
  intros [p1 s1] Hi1 Hr1. cbn [fst snd] in *. destruct Hk as [->|[x ->]]; [done|]. split; [apply returned_ptrs|].
  destruct Hi1 as (Wr & out & Q3 & live & Hc & _). by eapply returned_inv.
Qed.

Lemma return_ok x s' : (forall Wr out Q3 live, sess_core w p L S s Wr out Q3 live -> sess_core w p L S s' Wr out Q3 live) -> sess_ptrs s' = sess_ptrs s ->
  step_ok (if is_done s then Ret None else '(p, s) ← Ret (p, return_status x s'); Ret (Some (w, p, s))).
Proof.
  intros Hs Hptr. destruct (is_done s); [done|]. cbn [mbind outcome_bind step_ok]. apply unchanged_ok; [|by rewrite returned_ptrs].
  destruct Hi as (Wr & out & Q3 & live & Hc & _). eapply returned_inv. by apply Hs.
Qed.

(** A batch comes from the channel. *)
Lemma records_ok now sendOk b rest : walReceiver s = b :: rest -> returned s = None ->
  step_ok ('(p, st, sent, ok) ← receive_records now sendOk p (streaming s) b;
           let s := with_streaming st sent (with_receiver rest s) in
           '(p, s) ← Ret (p, if (ok : bool) then s else send_failed s); Ret (Some (w, p, s))).
Proof.
  intros Hrcv Hret. destruct Hi as (Wr & out & Q3 & live & Hc & Hh). destruct (Hh Hret) as (Q1 & Q2 & good & nils & Hb & Hwr & Hn & Hg & Hpre & Hlive).
  destruct good as [|b' good].
  - rewrite Hrcv in Hwr. cbn in Hwr. subst nils. apply Forall_cons in Hn as [Hb0 Hn]. destruct b as [|slot b].
    + apply holds_nil_inv in Hg as ->. rewrite app_nil_r in *. cbn [receive_records mbind outcome_bind step_ok]. split; [done|]. split; [done|].
      split; [unfold sess_ptrs, handler_ptrs in *; by rewrite Hrcv in Hok|]. exists Wr, out, Q3, live. split; [destruct Hc; split; try done; cbn; by rewrite app_nil_r|].
      intros _. exists Q1, [], [], rest. cbn. rewrite app_nil_r. split; [done|]. split; [done|]. split; [done|]. split; [constructor|]. split; [done|].
      intros Hlv. by destruct (Hlive Hlv).
    + apply Forall_cons in Hb0 as [-> _]. cbn [receive_records mbind outcome_bind step_ok]. apply (sp_live _ _ _ _ _ _ _ _ _ Hc).
      destruct live; [|done]. by destruct (Hlive eq_refl).
  - rewrite Hrcv in Hwr. injection Hwr as <- ->. cbn [concat] in Hg. apply holds_split in Hg as (X & Q2' & -> & Hbx & Hg).
    unfold sess_ptrs, handler_ptrs in Hok. rewrite Hrcv in Hok. cbn [concat] in Hok. rewrite slots_app, <- !app_assoc in Hok.
    destruct (receive_records_spec b now sendOk p (streaming s) Q1 X _ Hb Hbx Hok) as (p' & st & Y & ok & -> & Ha & Hok' & Hres). cbn [mbind outcome_bind step_ok].
    assert (agrees (slots (pc_batch (ss_pc s))) p p' /\ agrees (slots (concat good)) p p' /\ agrees F p p') as (Ha1 & Ha2 & Ha3).
    { rewrite slots_concat_app in Ha. split; [|split]; (eapply agrees_subset; [|exact Ha]); set_solver. }
    set (s1 := with_streaming st (messages Y) (with_receiver (good ++ nils) s)).
    assert (sess_ptrs s1 ++ F = slots (s_batch st) ++ slots (concat (good ++ nils)) ++ slots (pc_batch (ss_pc s)) ++ F) as Hptr.
    { unfold sess_ptrs, handler_ptrs. cbn. by rewrite <- !app_assoc. }
    assert (concat Y `prefix_of` Q1 ++ X) as [T HT] by (destruct ok; [destruct Hres as (Q' & _ & <-); by apply prefix_app_r|done]).
    assert (S ++ concat (Wr ++ Y) `prefix_of` L) as Hpre1.
    { etrans; [|exact Hpre]. exists (T ++ Q2'). by rewrite concat_app, (app_assoc Q1 X), HT, <- !app_assoc. }
    assert (sess_core w p' L S s1 (Wr ++ Y) out Q3 live) as Hc1.
    { destruct Hc as [Hw Hp Hr Hlv Hd]. split; try done; [cbn; by rewrite Hw, messages_app|by eapply rep_inv_same]. }
    split; [done|]. split; [done|]. destruct ok.
    + split; [by rewrite Hptr|]. exists (Wr ++ Y), out, Q3, live. split; [done|]. intros _. destruct Hres as (Q' & Hq & HY).
      assert ((S ++ concat Wr) ++ Q1 ++ X ++ Q2' = (S ++ concat (Wr ++ Y)) ++ Q' ++ Q2') as Heq.
      { by rewrite (app_assoc Q1 X), <- HY, concat_app, <- !app_assoc. }
      exists Q', Q2', good, nils. rewrite <- Heq. split; [done|]. split; [done|]. split; [done|]. split; [by eapply holds_agrees|done].
    + unfold send_failed. rewrite returned_ptrs. split; [by rewrite Hptr|]. by eapply returned_inv.
Qed.

(** Every step of a stream. *)
Lemma sess_step_spec t : step_ok (sess_step dynamicTimeout shutdown t w p s).
Proof.
  destruct t as [a| |send|now sendOk|sendOk|sendOk|sendOk|now sendOk| |e]; [apply replicator_ok|..]; cbn [sess_step].
  - destruct (ss_ctx s) as [e|] eqn:Ec; [|done]. cbn. apply unchanged_ok; [|done]. destruct Hi as (Wr & out & Q3 & live & [Hw Hp Hr Hlv Hd] & Hh).
    exists Wr, out, Q3, live. split; [|done]. split; try done; [by apply rep_inv_closeChannel|]. intros _. left. cbn. by rewrite Ec.
  - destruct (ss_pc s) as [| | | | |e] eqn:Epc; try done. destruct (walReceiver_closed s); [done|].
    assert (forall e', sess_inv w p L S (with_channels_closed e' s)) as Hcc.
    { intros e'. destruct Hi as (Wr & out & Q3 & live & [Hw Hp Hr Hlv Hd] & Hh). exists Wr, out, Q3, live. by split; [split|]. }
    destruct send; [by apply unchanged_ok|]. destruct (ss_ctx s); [|done]. by apply unchanged_ok.
  - destruct (dynamicTimeout <? now - lastReceived (streaming s)); [apply flusher_ok; [right|]; by eexists|].
    destruct (is_done s); [done|]. cbn. by apply unchanged_ok.
  - apply flusher_ok; [by left|by eexists].
  - destruct shutdown; [|done]. apply flusher_ok; [right|]; by eexists.
  - destruct (ss_ctx s) as [e|]; [|done]. apply flusher_ok; [right|]; by eexists.
  - destruct (walReceiver s) as [|b rest] eqn:Ew.
    + destruct (walReceiver_closed s); [|done]. apply flusher_ok; [right|]; by eexists.
    + rewrite is_done_returned. destruct (returned s) eqn:Hret; [done|]. pose proof (records_ok now sendOk b rest Ew Hret) as Hrec.
      destruct (receive_records now sendOk p (streaming s) b) as [[[[p' st] sent] ok]| |]; exact Hrec.
  - destruct (replicatorErr s); [|destruct (replicatorErr_closed s); [|done]].
    + apply return_ok; [|done]. intros Wr out Q3 live [Hw Hp Hr Hlv Hd]. by split.
    + by apply return_ok.
  - cbn. apply unchanged_ok; [|apply cancel_ptrs]. destruct Hi as (Wr & out & Q3 & live & Hc & Hh). exists Wr, out, Q3, live.
    split; [by apply cancel_core|]. unfold cancel. by destruct (ss_ctx s).
Qed.
End step.
End session.
