(* ===== verification/StreamClient.v ===== *)
(** The follower's end of a stream: internal/services/streamer/grpc_streamer_client.go.

    [StreamWAL] opens a stream, receives from it and opens another one when it
    breaks; a second goroutine writes the batches to the local log.  [Client] is
    the state of both goroutines and each definition below takes one of them
    from one point at which the other (or the network) can act to the next.  The
    local log is the class [WalSink]. *)

From stdpp Require Import prelude list numbers.
From Stdlib Require Import ZArith Lia.
From S2P Require Import Prelude Bytes Segment WalIO GrpcUtils Replicator.

(** [WriteBatch] of the interface WalIO; its errors are not status errors. *)
Class WalSink (K X : Type) := { sk_WriteBatch : K -> list WALRecord -> outcome (K * option X) }.

Definition Millisecond : Z := 10 ^ 6.
Definition initialBackoff : Z := 500 * Millisecond.
Definition maxBackoff : Z := 5 * Second.
Definition maxRetries : Z := 5.

(** [int64(lastRecord.Offset)] *)
Definition int64 (n : Z) : Z := (n + 2 ^ 63) mod 2 ^ 64 - 2 ^ 63.

Definition record_offset (r : WALRecord) : RecordPosition := mkPos (wr_SegmentId r) (int64 (wr_Offset r)).

Record batchJob := mkJob { job_records : list WALRecord; job_offset : RecordPosition }.

(** Where a stream comes from: a session of the server, or a refusal. *)
Inductive stream := Attached (i : nat) | Refused (s : status).

(** Errors of [Recv], and of [StreamWAL]. *)
Inductive recv_error := RecvEOF | RecvStatus (s : status).
Inductive client_error (X : Type) := ClientCtx (e : bytes) | ClientMaxRetries | ClientStatus (s : status) | ClientSink (x : X).
Arguments ClientCtx {X}.
Arguments ClientMaxRetries {X}.
Arguments ClientStatus {X}.
Arguments ClientSink {X}.

Inductive client_pc (X : Type) :=
| KTop                          (* the head of the loop of StreamWAL *)
| KBackoff                      (* waiting before the next attempt *)
| KCheck                        (* the head of the loop of receiveWALRecords *)
| KRecv                         (* in client.Recv *)
| KPush (job : batchJob)        (* in the select that hands over a batch *)
| KDrain (e : recv_error)       (* batchChan is closed, waiting for the writer *)
| KReturned (e : client_error X).
Arguments KTop {X}.
Arguments KBackoff {X}.
Arguments KCheck {X}.
Arguments KRecv {X}.
Arguments KPush {X}.
Arguments KDrain {X}.
Arguments KReturned {X}.

(** [batchChan] with its closed flag, [errChan] and the state of the writer. *)
Record Client (X : Type) := mkClient {
  c_offset : option RecordPosition;
  retryCount : Z;
  backoff : Z;
  c_stream : option stream;
  batchChan : list batchJob;
  batchChan_closed : bool;
  errChan : option (option X);
  writer_running : bool;
  c_pc : client_pc X
}.
Arguments mkClient {X}.
Arguments c_offset {X}.
Arguments retryCount {X}.
Arguments backoff {X}.
Arguments c_stream {X}.
Arguments batchChan {X}.
Arguments batchChan_closed {X}.
Arguments errChan {X}.
Arguments writer_running {X}.
Arguments c_pc {X}.

Definition NewGrpcStreamerClient {X} (offset : bytes) : outcome (Client X) :=
  o ← DecodeOffset offset;
  Ret (mkClient o 0 initialBackoff None [] false None false KTop).

(** The answer of the leader to [GetLatestOffset]. *)
Definition client_GetLatestOffset (resp : result status bytes) : outcome (result status (option RecordPosition)) :=
  match resp with
  | Err s => Ret (Err s)
  | Ok offset => if blen offset =? 0 then Ret (Ok None) else o ← DecodeOffset offset; Ret (Ok o)
  end.

(** status.Convert gives other errors the code Unknown. *)
Definition shouldRetry {X} (e : client_error X) : bool :=
  match e with
  | ClientStatus s => bool_decide (Code s = Unavailable) || bool_decide (Code s = ResourceExhausted)
  | _ => false
  end.

(** The delay is the old value with a random factor between 0.8 and 1.2. *)
Definition getJitteredBackoff (b : Z) : Z := Z.min (b * 2) maxBackoff.

Section client.
Context {X : Type}.
Notation Client := (Client X).

Definition at_pc (pc : client_pc X) (c : Client) : Client :=
  mkClient (c_offset c) (retryCount c) (backoff c) (c_stream c) (batchChan c) (batchChan_closed c) (errChan c) (writer_running c) pc.

(** An attempt has failed with [e]: wait and try again, or give up. *)
Definition attempt_failed (e : client_error X) (c : Client) : Client :=
  if shouldRetry e then
    mkClient (c_offset c) (retryCount c + 1) (getJitteredBackoff (backoff c)) (c_stream c) (batchChan c) (batchChan_closed c) (errChan c)
      (writer_running c) KBackoff
  else at_pc (KReturned e) c.

(** [receiveWALRecords] returns. *)
Definition received (e : option (client_error X)) (c : Client) : Client :=
  match e with
  | Some e => attempt_failed e c
  | None => mkClient (c_offset c) 0 initialBackoff (c_stream c) (batchChan c) (batchChan_closed c) (errChan c) (writer_running c) KTop
  end.

Definition ctx_done (e : bytes) (c : Client) : option Client :=
  match c_pc c with KTop | KBackoff => Some (at_pc (KReturned (ClientCtx e)) c) | _ => None end.

(** The bytes of the request. *)
Definition offsetBytes (c : Client) : bytes := match c_offset c with Some p => Encode p | None => [] end.

(** The stream could not be opened, or was: new channels and a new writer. *)
Definition connect (r : result status stream) (c : Client) : option Client :=
  match c_pc c with
  | KTop =>
      if maxRetries <? retryCount c then Some (at_pc (KReturned ClientMaxRetries) c)
      else Some (match r with
        | Err s => attempt_failed (ClientStatus s) c
        | Ok st => mkClient (c_offset c) (retryCount c) (backoff c) (Some st) [] false None true KCheck
        end)
  | _ => None
  end.

Definition backoff_over (c : Client) : option Client :=
  match c_pc c with KBackoff => Some (at_pc KTop c) | _ => None end.

Definition with_errChan (e : option (option X)) (c : Client) : Client :=
  mkClient (c_offset c) (retryCount c) (backoff c) (c_stream c) (batchChan c) (batchChan_closed c) e (writer_running c) (c_pc c).
Definition close_batchChan (c : Client) : Client :=
  mkClient (c_offset c) (retryCount c) (backoff c) (c_stream c) (batchChan c) true (errChan c) (writer_running c) (c_pc c).

(** [select { case err := <-errChan: return err; default: }] *)
Definition check (c : Client) : option Client :=
  match c_pc c with
  | KCheck =>
      Some (match errChan c with
        | Some e => received (ClientSink <$> e) (with_errChan None c)
        | None => at_pc KRecv c
        end)
  | _ => None
  end.

Definition last_offset (records : list WALRecord) : RecordPosition := default NilRecordPosition (record_offset <$> list.last records).

(** [Recv] returns. *)
Definition recv (r : result recv_error (list WALRecord)) (c : Client) : option Client :=
  match c_pc c with
  | KRecv =>
      Some (match r with
        | Err e => at_pc (KDrain e) (close_batchChan c)
        | Ok [] => at_pc KCheck c
        | Ok records => at_pc (KPush (mkJob records (last_offset records))) c
        end)
  | _ => None
  end.

(** The batch goes to the writer, or the writer has failed. *)
Definition push (take : bool) (c : Client) : option Client :=
  match c_pc c with
  | KPush job =>
      if take then
        if (length (batchChan c) <? 4)%nat then
          Some (mkClient (c_offset c) (retryCount c) (backoff c) (c_stream c) (batchChan c ++ [job]) (batchChan_closed c) (errChan c)
                  (writer_running c) KCheck)
        else None
      else
        match errChan c with
        | Some e => Some (received (ClientSink <$> e) (close_batchChan (with_errChan None c)))
        | None => None
        end
  | _ => None
  end.

(** [writerErr := <-errChan] *)
Definition drain (c : Client) : option Client :=
  match c_pc c, errChan c with
  | KDrain e, Some writerErr =>
      Some (received (match writerErr, e with
                      | Some x, _ => Some (ClientSink x)
                      | None, RecvEOF => None
                      | None, RecvStatus s => Some (ClientStatus s)
                      end) (with_errChan None c))
  | _, _ => None
  end.

(** One turn of the writer: a batch is written, or the closed channel ends it. *)
Definition write {K} `{WalSink K X} (c : Client) (k : K) : outcome (option (Client * K)) :=
  if negb (writer_running c) then Ret None else
  match batchChan c with
  | job :: rest =>
      '(k, err) ← sk_WriteBatch k (job_records job);
      Ret (Some (match err with
                 | Some x => mkClient (c_offset c) (retryCount c) (backoff c) (c_stream c) rest (batchChan_closed c) (Some (Some x)) false (c_pc c)
                 | None => mkClient (Some (job_offset job)) (retryCount c) (backoff c) (c_stream c) rest (batchChan_closed c) (errChan c) true (c_pc c)
                 end, k))
  | [] =>
      Ret (if batchChan_closed c
           then Some (mkClient (c_offset c) (retryCount c) (backoff c) (c_stream c) [] true (Some None) false (c_pc c), k)
           else None)
  end.

(** [StreamWAL] is called on a client: the offset is the one the last call left. *)
Definition StreamWAL (c : Client) : option Client :=
  match c_pc c with
  | KReturned _ => Some (mkClient (c_offset c) 0 initialBackoff None [] false None false KTop)
  | _ => None
  end.

(** The steps of the client that need neither the network nor the local log. *)
Inductive client_tag := TCtxDone (e : bytes) | TBackoffOver | TCheck | TPush (take : bool) | TDrain | TStreamWAL.

Definition client_step (t : client_tag) (c : Client) : option Client :=
  match t with
  | TCtxDone e => ctx_done e c
  | TBackoffOver => backoff_over c
  | TCheck => check c
  | TPush take => push take c
  | TDrain => drain c
  | TStreamWAL => StreamWAL c
  end.
End client.
