(* ===== verification/Replication.v ===== *)
(** Replication from a leader to a follower, end to end: a leader that appends
    to its log and serves any number of streams, a network that fails at any
    time, and a follower that reconnects.

    [sys_step] interleaves the steps of the log, of the streams (their two
    goroutines each), of the follower's client (two goroutines) and of the other
    followers.  [delivery] is the contract of the whole: the batches handed to
    the follower's log are the leader's records in order, each batch continuing
    the ones that were accepted. *)

From stdpp Require Import prelude list numbers gmap sorting relations.
From Stdlib Require Import ZArith Lia.
From S2P Require Import Prelude Bytes Segment WalIO WalIOFacts WalTail GrpcUtils Replicator ReplicatorFacts Streamer StreamerFacts StreamClient.

(** ** The system *)

Section system.
Context {W R K X : Type} `{TailLaws W R} `{!WalSink K X}.
Context (CurrentOffset : W -> option RecordPosition) (namespace : bytes) (ctx : Ctx) (dynamicTimeout : Z).

(** [y_calls] are the batches given to the follower's log, with its answers. *)
Record System := mkSystem {
  y_log : W; y_pool : Pool; y_sessions : list (Session R);
  y_client : Client X; y_sink : K; y_calls : list (list WALRecord * option X)
}.

Definition with_client (c : Client X) (y : System) : System := mkSystem (y_log y) (y_pool y) (y_sessions y) c (y_sink y) (y_calls y).
Definition with_sessions (l : list (Session R)) (y : System) : System := mkSystem (y_log y) (y_pool y) l (y_client y) (y_sink y) (y_calls y).

(** The batch the writer takes next, with the answer of the log. *)
Definition next_call (y : System) : list (list WALRecord * option X) :=
  match batchChan (y_client y) with
  | [] => []
  | job :: _ => match sk_WriteBatch (y_sink y) (job_records job) with Ret (_, err) => [(job_records job, err)] | _ => [] end
  end.

Inductive sys_step : System -> System -> Prop :=
| sys_log y w' : tl_step (y_log y) w' ->
    sys_step y (mkSystem w' (y_pool y) (y_sessions y) (y_client y) (y_sink y) (y_calls y))
| sys_session y i s shutdown t w' p' s' : y_sessions y !! i = Some s ->
    sess_step dynamicTimeout shutdown t (y_log y) (y_pool y) s = Ret (Some (w', p', s')) ->
    sys_step y (mkSystem w' p' (<[i := s']> (y_sessions y)) (y_client y) (y_sink y) (y_calls y))
| sys_other_stream y A d p B now : tl_log (y_log y) (A ++ (d, p) :: B) ->
    sys_step y (with_sessions (y_sessions y ++ [new_session (Some p) now]) y)
| sys_other_first y now : sys_step y (with_sessions (y_sessions y ++ [new_session None now]) y)
| sys_other_recv y j s m rest : y_sessions y !! j = Some s -> c_stream (y_client y) <> Some (Attached j) -> wire s = m :: rest ->
    sys_step y (with_sessions (<[j := with_wire rest s]> (y_sessions y)) y)
| sys_open y meta now c' : retryCount (y_client y) <= maxRetries ->
    open_stream CurrentOffset {[ namespace := y_log y ]} ctx (offsetBytes (y_client y)) = Ret (Ok meta) ->
    connect (Ok (Attached (length (y_sessions y)))) (y_client y) = Some c' ->
    sys_step y (with_client c' (with_sessions (y_sessions y ++ [new_session meta now]) y))
| sys_refused y st s c' : open_stream CurrentOffset {[ namespace := y_log y ]} ctx (offsetBytes (y_client y)) = Ret (Err s) ->
    st = Refused s -> connect (Ok st) (y_client y) = Some c' -> sys_step y (with_client c' y)
| sys_unreachable y s c' : connect (Err s) (y_client y) = Some c' -> sys_step y (with_client c' y)
| sys_recv y i s m rest c' : c_stream (y_client y) = Some (Attached i) -> y_sessions y !! i = Some s -> wire s = m :: rest ->
    recv (Ok m) (y_client y) = Some c' ->
    sys_step y (with_client c' (with_sessions (<[i := with_wire rest s]> (y_sessions y)) y))
| sys_broken y e c' : recv (Err e) (y_client y) = Some c' -> sys_step y (with_client c' y)
| sys_client y t c' : client_step t (y_client y) = Some c' -> sys_step y (with_client c' y)
| sys_write y c' k' : write (y_client y) (y_sink y) = Ret (Some (c', k')) ->
    sys_step y (mkSystem (y_log y) (y_pool y) (y_sessions y) c' k' (y_calls y ++ next_call y)).

(** ** The contract *)

(** The records the follower's log has accepted. *)
Definition accepted (calls : list (list WALRecord * option X)) : list WALRecord :=
  concat ((fun x => match x.2 with None => x.1 | Some _ => [] end) <$> calls).

(** [P] is the part of the log the follower had at the beginning. *)
Definition in_order (P L : wal_log) (calls : list (list WALRecord * option X)) : Prop :=
  forall before m e after, calls = before ++ (m, e) :: after ->
    (wire_of <$> P) ++ accepted before ++ m `prefix_of` wire_of <$> L.

Definition offset_of (A : wal_log) : option RecordPosition := snd <$> list.last A.

Definition job_of (B : wal_log) : batchJob := mkJob (wire_of <$> B) (default NilRecordPosition (offset_of B)).

(** The batch the client is handing over. *)
Definition pushing (pc : client_pc X) : list batchJob := match pc with KPush job => [job] | _ => [] end.

Definition idle (pc : client_pc X) : Prop := match pc with KTop | KBackoff | KReturned _ => True | _ => False end.

(** [A] is what the follower has; while the writer runs, the batches between the
    stream and the log continue it up to [S], what the stream has delivered. *)
Definition client_inv (A : wal_log) (Ss : list wal_log) (c : Client X) : Prop :=
  c_offset c = offset_of A /\
  (errChan c <> None -> writer_running c = false) /\ (idle (c_pc c) -> writer_running c = false) /\
  (writer_running c = true -> exists Bs, batchChan c ++ pushing (c_pc c) = job_of <$> Bs /\ Forall (fun B => B <> []) Bs /\
     match c_stream c with
     | Some (Attached i) => Ss !! i = Some (A ++ concat Bs)
     | _ => Bs = []
     end).

Record sys_inv (P : wal_log) (y : System) (L : wal_log) (Ss : list wal_log) (G : wal_log) : Prop := {
  si_log : tl_log (y_log y) L;
  si_sessions : Forall2 (fun s S => sess_inv (y_log y) (y_pool y) L S s) (y_sessions y) Ss;
  si_pool : pool_ok (y_pool y) (concat (sess_ptrs <$> y_sessions y));
  si_prefix : P ++ G `prefix_of` L;
  si_accepted : accepted (y_calls y) = wire_of <$> G;
  si_order : in_order P L (y_calls y);
  si_client : client_inv (P ++ G) Ss (y_client y)
}.

(** ** The streams *)

Notation all_ptrs l := (concat (sess_ptrs <$> l)).

Lemma split_ptrs (l : list (Session R)) i s : l !! i = Some s -> forall s', all_ptrs (<[i := s']> l) ≡ₚ sess_ptrs s' ++ all_ptrs (delete i l).
Proof.
  intros Hi s'. pose proof (lookup_lt_Some _ _ _ Hi). rewrite insert_take_drop by done. rewrite delete_take_drop, !fmap_app, fmap_cons, !concat_app. cbn [concat]. solve_Permutation.
Qed.

Lemma other_ptrs (l : list (Session R)) i j s : l !! j = Some s -> i <> j -> sess_ptrs s ⊆ all_ptrs (delete i l).
Proof.
  intros Hj Hij r Hr. apply list_elem_of_In, in_concat. exists (sess_ptrs s). split; [|by apply list_elem_of_In]. apply list_elem_of_In. apply list_elem_of_fmap. exists s. split; [done|].
  apply list_elem_of_lookup. destruct (decide (j < i)%nat).
  - exists j. by rewrite list_lookup_delete_lt.
  - exists (j - 1)%nat. rewrite list_lookup_delete_ge by lia. by replace (S (j - 1)) with j by lia.
Qed.

Lemma sessions_grow w w' p L Y l Ss : (forall rd A B, tl_at w rd A B -> tl_at w' rd A (B ++ Y)) ->
  Forall2 (fun s S => sess_inv w p L S s) l Ss -> Forall2 (fun s S => sess_inv w' p (L ++ Y) S s) l Ss.
Proof. intros Hg Hf. eapply Forall2_impl; [done|]. cbn. intros s S Hs. by eapply sess_inv_grows. Qed.

(** A step of one stream. *)
Lemma sessions_step w p w' p' L l Ss i s s' shutdown t : tl_log w L -> Forall2 (fun s S => sess_inv w p L S s) l Ss -> pool_ok p (all_ptrs l) ->
  l !! i = Some s -> sess_step dynamicTimeout shutdown t w p s = Ret (Some (w', p', s')) ->
  tl_log w' L /\ Forall2 (fun s S => sess_inv w' p' L S s) (<[i := s']> l) Ss /\ pool_ok p' (all_ptrs (<[i := s']> l)).
Proof.
  intros Hl Hf Hok Hi Hst. destruct (Forall2_lookup_l _ _ _ _ _ Hf Hi) as (S & HS & Hinv).
  pose proof (split_ptrs l i s Hi s) as Hperm. rewrite list_insert_id in Hperm by done.
  pose proof (sess_step_spec dynamicTimeout shutdown w p L S (all_ptrs (delete i l)) s Hl Hinv (pool_ok_perm _ _ _ Hperm Hok) t) as Hsp.
  rewrite Hst in Hsp. destruct Hsp as (Hs & Ha & Hok' & Hinv'). split; [apply Hs|]. split.
  - apply Forall2_same_length_lookup_2; [by rewrite length_insert, (Forall2_length _ _ _ Hf)|]. intros j x S' Hj HS'. destruct (decide (i = j)) as [<-|Hne].
    + rewrite list_lookup_insert_eq in Hj by (by eapply lookup_lt_Some). injection Hj as <-. by simplify_eq.
    + rewrite list_lookup_insert_ne in Hj by done. eapply sess_inv_same; [done| |exact (Forall2_lookup_lr _ _ _ _ _ _ Hf Hj HS')]. eapply agrees_subset; [by eapply other_ptrs|done].
  - eapply pool_ok_perm; [|exact Hok']. symmetry. by eapply split_ptrs.
Qed.

Lemma sessions_open w p L l Ss A ahead meta now : tl_log w L -> Forall2 (fun s S => sess_inv w p L S s) l Ss -> pool_ok p (all_ptrs l) ->
  L = A ++ ahead -> last_is A (default NilRecordPosition meta) ->
  Forall2 (fun s S => sess_inv w p L S s) (l ++ [new_session meta now]) (Ss ++ [A]) /\ pool_ok p (all_ptrs (l ++ [new_session meta now])).
Proof.
  intros Hl Hf Hok HL Hla. destruct (new_session_inv w p L A ahead meta now Hl HL Hla) as [Hn Hp]. split.
  - apply Forall2_app; [done|]. by repeat constructor.
  - rewrite fmap_app, concat_app. cbn. by rewrite !app_nil_r.
Qed.

(** A message is received. *)
Lemma sessions_recv w p L l Ss i s m rest : Forall2 (fun s S => sess_inv w p L S s) l Ss -> pool_ok p (all_ptrs l) -> l !! i = Some s -> wire s = m :: rest ->
  exists S B, Ss !! i = Some S /\ m = wire_of <$> B /\ Forall2 (fun s S => sess_inv w p L S s) (<[i := with_wire rest s]> l) (<[i := S ++ B]> Ss) /\
    pool_ok p (all_ptrs (<[i := with_wire rest s]> l)).
Proof.
  intros Hf Hok Hi Hm. destruct (Forall2_lookup_l _ _ _ _ _ Hf Hi) as (S & HS & Hinv). destruct (receive_inv w p L S s m rest Hinv Hm) as (B & HB & _ & Hinv').
  exists S, B. split; [done|]. split; [done|]. split; [by apply Forall2_insert|].
  pose proof (split_ptrs l i s Hi s) as Hperm. rewrite list_insert_id in Hperm by done.
  eapply pool_ok_perm; [symmetry; by eapply split_ptrs|]. by eapply pool_ok_perm; [exact Hperm|].
Qed.

(** ** Offsets on the wire *)

Lemma record_offset_wire x : real_pos x.2 -> record_offset (wire_of x) = x.2.
Proof.
  destruct x as [d [i o]]. intros [_ Ho]. cbn in Ho. unfold record_offset, wire_of, fill. cbn [fst snd wr_Offset wr_SegmentId Offset SegmentID].
  f_equal. unfold int64, u64. rewrite (Z.mod_small o) by lia. rewrite Z.mod_small by lia. lia.
Qed.

Lemma last_offset_wire B : Forall (fun x => real_pos x.2) B -> last_offset (wire_of <$> B) = default NilRecordPosition (offset_of B).
Proof.
  intros HB. unfold last_offset, offset_of. rewrite fmap_last. destruct (list.last B) as [x|] eqn:E; [|done]. cbn. apply record_offset_wire.
  rewrite Forall_forall in HB. apply HB. by apply last_Some_elem_of.
Qed.

Lemma offset_of_app A B : B <> [] -> offset_of (A ++ B) = offset_of B.
Proof. intros HB. destruct B as [|x B _] using rev_ind; [done|]. unfold offset_of. by rewrite app_assoc, !last_snoc. Qed.

Lemma last_is_offset A : last_is A (default NilRecordPosition (offset_of A)).
Proof. unfold last_is, offset_of. by destruct (list.last A). Qed.

Lemma offset_real A p : Forall (fun x => real_pos x.2) A -> offset_of A = Some p -> real_pos p.
Proof.
  unfold offset_of. intros HA Hp. destruct (list.last A) as [x|] eqn:E; [|done]. injection Hp as <-. rewrite Forall_forall in HA. apply HA. by apply last_Some_elem_of.
Qed.

(** The stream starts where the follower's log ends. *)
Lemma open_stream_meta A w (c : Client X) meta : Forall (fun x => real_pos x.2) A -> c_offset c = offset_of A ->
  open_stream CurrentOffset {[ namespace := w ]} ctx (offsetBytes c) = Ret (Ok meta) -> meta = offset_of A.
Proof.
  intros HA Hc. unfold open_stream. destruct (find_engine _ ctx) as [e|]; [|done].
  assert (decodeMetadata (offsetBytes c) = Ret (Ok (offset_of A))) as ->.
  { unfold decodeMetadata, offsetBytes. rewrite Hc. destruct (offset_of A) as [p|] eqn:E; [|done].
    assert (blen (Encode p) = 12) as -> by (unfold Encode; by rewrite blen_app, !blen_le_bytes). cbn [Z.eqb].
    by rewrite DecodeOffset_Encode by by eapply offset_real. }
  cbn [mbind outcome_bind]. destruct (offset_of A) as [p|], (CurrentOffset e); try case_match; congruence.
Qed.

(** ** The client *)

Lemma stopped_inv A Ss c c' : client_inv A Ss c -> c_offset c' = c_offset c -> writer_running c' = false -> client_inv A Ss c'.
Proof. intros (Ho & _) Hc Hw. split; [by rewrite Hc|]. rewrite Hw. by repeat split. Qed.

Lemma attempt_failed_same e (c : Client X) : c_offset (attempt_failed e c) = c_offset c /\ writer_running (attempt_failed e c) = writer_running c.
Proof. unfold attempt_failed. by destruct (shouldRetry e). Qed.

Lemma received_same e (c : Client X) : c_offset (received e c) = c_offset c /\ writer_running (received e c) = writer_running c.
Proof. destruct e; [apply attempt_failed_same|done]. Qed.

Lemma client_step_inv A Ss t c c' : client_inv A Ss c -> client_step t c = Some c' -> client_inv A Ss c'.
Proof.
  intros Hi Hst. pose proof Hi as (Ho & He & Hid & Hrun). destruct t as [e| | |take| |]; cbn [client_step] in Hst.
  - unfold ctx_done in Hst. destruct (c_pc c) eqn:Epc; simplify_eq; (eapply stopped_inv; [done..|]); by apply Hid.
  - unfold backoff_over in Hst. destruct (c_pc c) eqn:Epc; simplify_eq; (eapply stopped_inv; [done..|]); by apply Hid.
  - unfold check in Hst. destruct (c_pc c) eqn:Epc; simplify_eq. destruct (errChan c) as [e|] eqn:Ee.
    + destruct (received_same (ClientSink <$> e) (with_errChan None c)) as [H1 H2]. eapply stopped_inv; [done|done|]. rewrite H2. by apply He.
    + split; [done|]. split; [by cbn; rewrite Ee|]. split; [done|]. exact Hrun.
  - unfold push in Hst. destruct (c_pc c) as [| | | |job| |] eqn:Epc; simplify_eq. destruct take.
    + destruct (length (batchChan c) <? 4)%nat; simplify_eq. split; [done|]. split; [done|]. split; [done|]. intros Hw. cbn.
      destruct (Hrun Hw) as (Bs & HB & Hrest). exists Bs. by rewrite app_nil_r.
    + destruct (errChan c) as [e|] eqn:Ee; simplify_eq. destruct (received_same (ClientSink <$> e) (close_batchChan (with_errChan None c))) as [H1 H2].
      eapply stopped_inv; [done|done|]. rewrite H2. by apply He.
  - unfold drain in Hst. destruct (c_pc c) eqn:Epc; simplify_eq. destruct (errChan c) as [w|] eqn:Ee; simplify_eq.
    match goal with |- context [received ?x ?y] => destruct (received_same x y) as [H1 H2] end. eapply stopped_inv; [done|done|]. rewrite H2. by apply He.
  - unfold StreamWAL in Hst. destruct (c_pc c) eqn:Epc; simplify_eq. by eapply stopped_inv.
Qed.

Lemma connect_inv A Ss r c c' : client_inv A Ss c -> connect r c = Some c' ->
  match r with Ok (Attached i) => retryCount c <= maxRetries /\ Ss !! i = Some A | _ => True end -> client_inv A Ss c'.
Proof.
  intros Hi Hst Hr. pose proof Hi as (Ho & He & Hid & Hrun). unfold connect in Hst. destruct (c_pc c) eqn:Epc; simplify_eq.
  destruct (maxRetries <? retryCount c) eqn:Em; simplify_eq; [eapply stopped_inv; [done..|]; by apply Hid|].
  destruct r as [st|s]; [|destruct (attempt_failed_same (ClientStatus s) c) as [H1 H2]; eapply stopped_inv; [done|done|rewrite H2; by apply Hid]].
  split; [done|]. split; [done|]. split; [done|]. intros _. exists []. split; [done|]. split; [constructor|]. cbn. rewrite app_nil_r. destruct st; [apply Hr|done].
Qed.

Lemma recv_inv A Ss i S B c c' : client_inv A Ss c -> c_stream c = Some (Attached i) -> Ss !! i = Some S -> Forall (fun x => real_pos x.2) B ->
  recv (Ok (wire_of <$> B)) c = Some c' -> client_inv A (<[i := S ++ B]> Ss) c'.
Proof.
  intros Hi Hs HS Hreal Hst. pose proof Hi as (Ho & He & Hid & Hrun). unfold recv in Hst. destruct (c_pc c) eqn:Epc; simplify_eq.
  pose proof (lookup_lt_Some _ _ _ HS) as Hlt. rewrite <- Epc in Hrun. destruct B as [|x B].
  - cbn. rewrite app_nil_r, list_insert_id by done. split; [done|]. split; [done|]. split; [done|]. cbn. by rewrite Epc in Hrun.
  - assert (exists r m, wire_of <$> x :: B = r :: m) as (r & m & Hm) by by eexists _, _. rewrite Hm. rewrite <- Hm. split; [done|]. split; [done|]. split; [done|]. intros Hw.
    destruct (Hrun Hw) as (Bs & HB & Hne & HA). rewrite Epc in HB. cbn [pushing] in HB. rewrite app_nil_r in HB. exists (Bs ++ [x :: B]).
    split; [|split; [apply Forall_app; by repeat constructor|]].
    + cbn [pushing at_pc c_pc batchChan]. rewrite last_offset_wire by done. rewrite HB, fmap_app. done.
    + cbn [c_stream at_pc]. rewrite Hs in *. rewrite list_lookup_insert_eq by done. simplify_eq. rewrite concat_app. cbn. by rewrite app_nil_r, app_assoc.
Qed.

Lemma broken_inv A Ss e c c' : client_inv A Ss c -> recv (Err e) c = Some c' -> client_inv A Ss c'.
Proof.
  intros (Ho & He & Hid & Hrun) Hst. unfold recv in Hst. destruct (c_pc c) eqn:Epc; simplify_eq. split; [done|]. split; [done|]. split; [done|]. exact Hrun.
Qed.

Lemma streams_change A Ss Ss' c : client_inv A Ss c -> (forall i S, c_stream c = Some (Attached i) -> Ss !! i = Some S -> Ss' !! i = Some S) -> client_inv A Ss' c.
Proof.
  intros (Ho & He & Hid & Hrun) Hk. split; [done|]. split; [done|]. split; [done|]. intros Hw. destruct (Hrun Hw) as (Bs & HB & Hne & HA). exists Bs.
  split; [done|]. split; [done|]. destruct (c_stream c) as [[i|]|]; [|done..]. by apply Hk.
Qed.

(** The writer takes a batch: it continues what the follower has. *)
Lemma write_inv A Ss y c' k' : client_inv A Ss (y_client y) -> write (y_client y) (y_sink y) = Ret (Some (c', k')) ->
  (next_call y = [] /\ client_inv A Ss c') \/
  exists B err i, next_call y = [(wire_of <$> B, err)] /\ (exists S, Ss !! i = Some S /\ A ++ B `prefix_of` S) /\
    client_inv (match err with None => A ++ B | Some _ => A end) Ss c'.
Proof.
  intros Hi Hst. pose proof Hi as (Ho & He & Hid & Hrun). unfold write in Hst. destruct (writer_running (y_client y)) eqn:Hw; [|done]. cbn [negb] in Hst.
  destruct (Hrun eq_refl) as (Bs & HB & Hne & HA). unfold next_call. destruct (batchChan (y_client y)) as [|job rest] eqn:Eb.
  - left. split; [done|]. destruct (batchChan_closed (y_client y)); simplify_eq. by eapply stopped_inv.
  - right. destruct Bs as [|B Bs]; [done|]. cbn [fmap list_fmap app] in HB. injection HB as -> HB. apply Forall_cons in Hne as [HneB Hne]. cbn [job_of job_records] in *.
    destruct (sk_WriteBatch (y_sink y) (wire_of <$> B)) as [[k err]| |]; cbn [mbind outcome_bind] in Hst; try done.
    destruct (c_stream (y_client y)) as [[i|]|] eqn:Es; [|done..]. exists B, err, i. split; [done|]. cbn [concat] in HA. rewrite app_assoc in HA.
    split; [eexists; split; [done|]; by apply prefix_app_r|]. destruct err as [x|]; simplify_eq; [by eapply stopped_inv|].
    split; [cbn; rewrite offset_of_app by done; destruct (offset_of B) eqn:E; [done|]; destruct B using rev_ind; [done|]; unfold offset_of in E; by rewrite last_snoc in E|].
    split; [done|]. split; [intros Hidle; by specialize (Hid Hidle)|]. intros _. exists Bs. split; [done|]. split; [done|]. exact HA.
Qed.

(** ** Every step keeps the contract *)

Lemma accepted_snoc calls m err : accepted (calls ++ [(m, err)]) = accepted calls ++ match err with None => m | Some _ => [] end.
Proof. unfold accepted. rewrite fmap_app, concat_app. cbn. by rewrite app_nil_r. Qed.

Lemma in_order_grows P L Y calls : in_order P L calls -> in_order P (L ++ Y) calls.
Proof. intros Ho before m e after Hc. rewrite fmap_app. apply prefix_app_r. by eapply Ho. Qed.

Lemma in_order_snoc P L calls m err : in_order P L calls -> (wire_of <$> P) ++ accepted calls ++ m `prefix_of` wire_of <$> L -> in_order P L (calls ++ [(m, err)]).
Proof.
  intros Ho Hm before m' e after Hc. destruct after as [|x after _] using rev_ind.
  - apply app_inj_2 in Hc as [-> [= -> ->]]; done.
  - rewrite app_comm_cons, app_assoc in Hc. apply app_inj_2 in Hc as [-> _]; [|done]. by eapply Ho.
Qed.

Lemma prefix_fmap {A B} (f : A -> B) (l k : list A) : l `prefix_of` k -> f <$> l `prefix_of` f <$> k.
Proof. intros [z ->]. rewrite fmap_app. by apply prefix_app_r. Qed.

Lemma real_prefix w L A : tl_log w L -> A `prefix_of` L -> Forall (fun x => real_pos x.2) A.
Proof. intros Hl [B ->]. destruct (tl_positions w _ Hl) as [_ Hr]. rewrite fmap_app in Hr. apply Forall_app in Hr as [Hr _]. rewrite Forall_fmap in Hr. exact Hr. Qed.

Section invariant.
Context (P : wal_log) (y : System) (L : wal_log) (Ss : list wal_log) (G : wal_log).
Hypothesis Hy : sys_inv P y L Ss G.

Lemma stream_prefix i S : Ss !! i = Some S -> S `prefix_of` L.
Proof.
  intros Hi. destruct (Forall2_lookup_r _ _ _ _ _ (si_sessions _ _ _ _ _ Hy) Hi) as (s & _ & Wr & out & Q3 & live & Hc & _).
  etrans; [|exact (sp_prefix _ _ _ _ _ _ _ _ _ Hc)]. by apply prefix_app_r.
Qed.

(** Only the client changes. *)
Lemma client_change c' : client_inv (P ++ G) Ss c' -> sys_inv P (with_client c' y) L Ss G.
Proof. intros Hc. by destruct Hy. Qed.

(** A stream is added, behind the records [A]. *)
Lemma open_change A meta now : A `prefix_of` L -> last_is A (default NilRecordPosition meta) ->
  sys_inv P (with_sessions (y_sessions y ++ [new_session meta now]) y) L (Ss ++ [A]) G.
Proof.
  intros [ahead HL] Hla. destruct Hy as [Hl Hs Hp Hpre Hacc Hord Hc].
  destruct (sessions_open _ _ _ _ _ A ahead meta now Hl Hs Hp HL Hla) as [Hs' Hp']. split; try done.
  eapply streams_change; [done|]. intros i S _ HS. by apply lookup_app_l_Some.
Qed.

Lemma write_change c' k' : write (y_client y) (y_sink y) = Ret (Some (c', k')) ->
  exists G', sys_inv P (mkSystem (y_log y) (y_pool y) (y_sessions y) c' k' (y_calls y ++ next_call y)) L Ss G'.
Proof.
  intros Hw. destruct Hy as [Hl Hs Hp Hpre Hacc Hord Hc]. destruct (write_inv _ _ y c' k' Hc Hw) as [[-> Hc']|(B & err & i & -> & (S & HS & HB) & Hc')].
  - exists G. rewrite app_nil_r. by split.
  - assert (P ++ G ++ B `prefix_of` L) as HPB by (rewrite app_assoc; etrans; [exact HB|by eapply stream_prefix]).
    exists (match err with None => G ++ B | Some _ => G end). split; try done.
    + by destruct err.
    + cbn [y_calls]. rewrite accepted_snoc, Hacc. destruct err; [by rewrite app_nil_r|]. by rewrite fmap_app.
    + cbn [y_calls]. apply in_order_snoc; [done|]. rewrite Hacc, <- !fmap_app. by apply prefix_fmap.
    + cbn [y_client]. destruct err; [done|]. by rewrite app_assoc.
Qed.
End invariant.

Lemma sys_step_inv P y y' L Ss G : sys_inv P y L Ss G -> sys_step y y' -> exists L' Ss' G', sys_inv P y' L' Ss' G' /\ L `prefix_of` L'.
Proof.
  intros Hy Hst. pose proof Hy as [Hl Hs Hp Hpre Hacc Hord Hc].
  destruct Hst as [y w' Hgr|y i s shutdown t w' p' s' Hi Hst|y A d p B now Hlg|y now|y j s m rest Hj Hne Hm|y meta now c' Hr Hopen Hcon|y st s c' Hopen Hst Hcon|y s c' Hcon
    |y i s m rest c' Hstr Hi Hm Hrecv|y e c' Hrecv|y t c' Hcl|y c' k' Hw].
  - destruct (tl_grows _ _ _ Hgr Hl) as (Y & Hl' & Hk). exists (L ++ Y), Ss, G. split; [|by apply prefix_app_r].
    split; try done; [by eapply sessions_grow|by apply prefix_app_r|by apply in_order_grows].
  - destruct (sessions_step _ _ _ _ _ _ _ _ _ _ _ _ Hl Hs Hp Hi Hst) as (Hl' & Hs' & Hp'). exists L, Ss, G. split; [|done]. by split.
  - rewrite (tl_unique _ _ _ Hl Hlg) in *. exists (A ++ (d, p) :: B), (Ss ++ [A ++ [(d, p)]]), G. split; [|done]. apply open_change; [done| |by apply last_is_snoc].
    exists B. by rewrite <- app_assoc.
  - exists L, (Ss ++ [[]]), G. split; [|done]. apply open_change; [done|apply prefix_nil|done].
  - destruct (sessions_recv _ _ _ _ _ _ _ _ _ Hs Hp Hj Hm) as (S & B & HS & -> & Hs' & Hp'). exists L, (<[j := S ++ B]> Ss), G. split; [|done].
    split; try done. eapply streams_change; [done|]. intros i S' Hstr HS'. rewrite list_lookup_insert_ne; [done|]. by intros ->.
  - pose proof (real_prefix _ _ _ Hl Hpre) as Hreal. pose proof (open_stream_meta _ _ _ _ Hreal (proj1 Hc) Hopen) as ->.
    pose proof (open_change P y L Ss G Hy (P ++ G) (offset_of (P ++ G)) now Hpre (last_is_offset _)) as Hy'. exists L, (Ss ++ [P ++ G]), G. split; [|done].
    apply client_change; [done|]. eapply connect_inv; [exact (si_client _ _ _ _ _ Hy')|exact Hcon|]. split; [done|].
    rewrite (Forall2_length _ _ _ Hs). by rewrite lookup_app_r, Nat.sub_diag.
  - exists L, Ss, G. split; [|done]. apply client_change; [done|]. subst st. by eapply connect_inv.
  - exists L, Ss, G. split; [|done]. apply client_change; [done|]. by eapply connect_inv.
  - destruct (sessions_recv _ _ _ _ _ _ _ _ _ Hs Hp Hi Hm) as (S & B & HS & -> & Hs' & Hp'). exists L, (<[i := S ++ B]> Ss), G. split; [|done].
    split; try done. eapply recv_inv; [done..| |done]. destruct (Forall2_lookup_r _ _ _ i (S ++ B) Hs') as (s' & _ & Wr & out & Q3 & live & Hcore & _).
    { apply list_lookup_insert_eq. by eapply lookup_lt_Some. }
    pose proof (real_prefix _ _ _ Hl (sp_prefix _ _ _ _ _ _ _ _ _ Hcore)) as Hreal. by do 2 apply Forall_app in Hreal as [Hreal ?].
  - exists L, Ss, G. split; [|done]. apply client_change; [done|]. by eapply broken_inv.
  - exists L, Ss, G. split; [|done]. apply client_change; [done|]. by eapply client_step_inv.
  - destruct (write_change P y L Ss G Hy c' k' Hw) as (G' & Hy'). by exists L, Ss, G'.
Qed.

Lemma sys_reachable P y y' L Ss G : sys_inv P y L Ss G -> rtc sys_step y y' -> exists L' Ss' G', sys_inv P y' L' Ss' G' /\ L `prefix_of` L'.
Proof.
  intros Hy Hr. revert L Ss G Hy. induction Hr as [y|y y1 y2 Hst _ IH]; intros L Ss G Hy; [by exists L, Ss, G|].
  destruct (sys_step_inv P y y1 L Ss G Hy Hst) as (L1 & Ss1 & G1 & Hy1 & Hp1). destruct (IH _ _ _ Hy1) as (L2 & Ss2 & G2 & Hy2 & Hp2).
  exists L2, Ss2, G2. split; [done|]. by etrans.
Qed.

(** A leader without streams and a follower that holds the records [P]. *)
Definition initial (w : W) (c : Client X) (k : K) : System := mkSystem w (mkPool [] []) [] c k [].

Definition offset_bytes (P : wal_log) : bytes := match offset_of P with Some p => Encode p | None => [] end.

Lemma initial_inv P ahead w c k : tl_log w (P ++ ahead) -> NewGrpcStreamerClient (offset_bytes P) = Ret c -> sys_inv P (initial w c k) (P ++ ahead) [] [].
Proof.
  intros Hl Hc. assert (Forall (fun x => real_pos x.2) P) as Hreal by (eapply real_prefix; [done|]; by apply prefix_app_r).
  assert (c_offset c = offset_of P /\ writer_running c = false) as [Ho Hw].
  { unfold NewGrpcStreamerClient, offset_bytes in Hc. destruct (offset_of P) as [p|] eqn:E; [|by injection Hc as <-].
    rewrite DecodeOffset_Encode in Hc by by eapply offset_real. by injection Hc as <-. }
  split; cbn; rewrite ?app_nil_r; try done; [split; constructor|by apply prefix_app_r|by intros ? ? ? ? ?%app_cons_not_nil|].
  split; [done|]. rewrite Hw. by repeat split.
Qed.

(** The state of the follower's log comes from the calls. *)
Inductive calls_run : K -> list (list WALRecord * option X) -> K -> Prop :=
| run_nil k : calls_run k [] k
| run_snoc k calls k1 m err k2 : calls_run k calls k1 -> sk_WriteBatch k1 m = Ret (k2, err) -> calls_run k (calls ++ [(m, err)]) k2.

Lemma sys_step_calls k y y' : calls_run k (y_calls y) (y_sink y) -> sys_step y y' -> calls_run k (y_calls y') (y_sink y').
Proof.
  intros Hr Hst. destruct Hst as [y w'| | | | | | | | | | |y c' k' Hw]; try done. cbn [y_calls y_sink]. unfold write in Hw. unfold next_call.
  destruct (writer_running (y_client y)); [|done]. cbn [negb] in Hw. destruct (batchChan (y_client y)) as [|job rest].
  - destruct (batchChan_closed (y_client y)); simplify_eq. by rewrite app_nil_r.
  - destruct (sk_WriteBatch (y_sink y) (job_records job)) as [[k1 err]| |] eqn:E; cbn [mbind outcome_bind] in Hw; try done. simplify_eq. by eapply run_snoc.
Qed.

Lemma reachable_calls k y y' : calls_run k (y_calls y) (y_sink y) -> rtc sys_step y y' -> calls_run k (y_calls y') (y_sink y').
Proof. intros Hr Hs. induction Hs as [|y y1 y2 Hst _ IH]; [done|]. apply IH. by eapply sys_step_calls. Qed.

Section contract.
Context (P ahead : wal_log) (w : W) (c : Client X) (k : K).
Hypothesis (Hw : tl_log w (P ++ ahead)) (Hc : NewGrpcStreamerClient (offset_bytes P) = Ret c).

(** C7. Records are delivered in order and exactly once.  A follower that holds
    the records [P] of a leader follows it: however the goroutines of leader
    and follower, the other streams, the writers of the leader's log and the
    failures of the network, of the context and of the follower's log are
    interleaved, every batch that reaches the follower's log continues the
    records accepted before, without a gap, a repetition or a nil record, and
    the offset from which the client resumes is that of the last record
    accepted. *)
Theorem delivery y : rtc sys_step (initial w c k) y ->
  exists L G, tl_log (y_log y) L /\ P ++ ahead `prefix_of` L /\ in_order P L (y_calls y) /\
    accepted (y_calls y) = wire_of <$> G /\ P ++ G `prefix_of` L /\ NoDup (P ++ G).*2 /\ c_offset (y_client y) = offset_of (P ++ G).
Proof.
  intros Hr. destruct (sys_reachable P _ y _ _ _ (initial_inv P ahead w c k Hw Hc) Hr) as (L & Ss & G & [Hl _ _ Hpre Hacc Hord Hcl] & HL).
  exists L, G. do 5 (split; [done|]). split; [|apply Hcl]. destruct (tl_positions _ _ Hl) as [Hnd _]. destruct Hpre as [Z ->]. rewrite fmap_app in Hnd. by apply NoDup_app in Hnd as [? _].
Qed.

End contract.

(** ** Running the system *)

Inductive label :=
| LSession (i : nat) (shutdown : bool) (t : sess_tag)
| LOpen (now : Z)
| LRecv
| LBroken (e : recv_error)
| LClient (t : client_tag)
| LWrite.

Definition exec (l : label) (y : System) : option System :=
  match l with
  | LSession i shutdown t =>
      s ← y_sessions y !! i;
      match sess_step dynamicTimeout shutdown t (y_log y) (y_pool y) s with
      | Ret (Some (w', p', s')) => Some (mkSystem w' p' (<[i := s']> (y_sessions y)) (y_client y) (y_sink y) (y_calls y))
      | _ => None
      end
  | LOpen now =>
      if maxRetries <? retryCount (y_client y) then None else
      match open_stream CurrentOffset {[ namespace := y_log y ]} ctx (offsetBytes (y_client y)) with
      | Ret (Ok meta) =>
          c' ← connect (Ok (Attached (length (y_sessions y)))) (y_client y);
          Some (with_client c' (with_sessions (y_sessions y ++ [new_session meta now]) y))
      | _ => None
      end
  | LRecv =>
      match c_stream (y_client y) with
      | Some (Attached i) =>
          s ← y_sessions y !! i;
          match wire s with
          | m :: rest => c' ← recv (Ok m) (y_client y); Some (with_client c' (with_sessions (<[i := with_wire rest s]> (y_sessions y)) y))
          | [] => None
          end
      | _ => None
      end
  | LBroken e => c' ← recv (Err e) (y_client y); Some (with_client c' y)
  | LClient t => c' ← client_step t (y_client y); Some (with_client c' y)
  | LWrite =>
      match write (y_client y) (y_sink y) with
      | Ret (Some (c', k')) => Some (mkSystem (y_log y) (y_pool y) (y_sessions y) c' k' (y_calls y ++ next_call y))
      | _ => None
      end
  end.

Fixpoint exec_all (ls : list label) (y : System) : option System :=
  match ls with [] => Some y | l :: ls => y ← exec l y; exec_all ls y end.

Lemma exec_sound l y y' : exec l y = Some y' -> sys_step y y'.
Proof.
  destruct l as [i shutdown t|now| |e|t|]; cbn [exec]; intros Hx.
  - destruct (y_sessions y !! i) as [s|] eqn:Hi; cbn in Hx; [|done]. destruct (sess_step _ _ _ _ _ _) as [[[[w' p'] s']|]| |] eqn:E; simplify_eq. by econstructor.
  - destruct (Z.ltb_spec maxRetries (retryCount (y_client y))); [done|]. destruct (open_stream _ _ _ _) as [[meta|]| |] eqn:E; try done.
    destruct (connect _ _) as [c'|] eqn:Ec; cbn in Hx; simplify_eq. by econstructor.
  - destruct (c_stream (y_client y)) as [[i|]|] eqn:Es; try done. destruct (y_sessions y !! i) as [s|] eqn:Hi; cbn in Hx; [|done].
    destruct (wire s) as [|m rest] eqn:Ew; [done|]. destruct (recv _ _) as [c'|] eqn:Ec; cbn in Hx; simplify_eq. by econstructor.
  - destruct (recv _ _) as [c'|] eqn:Ec; cbn in Hx; simplify_eq. by econstructor.
  - destruct (client_step _ _) as [c'|] eqn:Ec; cbn in Hx; simplify_eq. by econstructor.
  - destruct (write _ _) as [[[c' k']|]| |] eqn:E; simplify_eq. by econstructor.
Qed.

Lemma exec_all_sound ls : forall y y', exec_all ls y = Some y' -> rtc sys_step y y'.
Proof.
  induction ls as [|l ls IH]; intros y y' Hx; cbn in Hx; [by simplify_eq|]. destruct (exec l y) as [y1|] eqn:E; cbn in Hx; [|done].
  eapply rtc_l; [by eapply exec_sound|by apply IH].
Qed.
End system.

(** ** Examples *)

Section examples.
Import Stdlib.Strings.String.StringSyntax.

(** A follower that takes everything. *)
#[export] Instance list_sink : WalSink (list WALRecord) unit := { sk_WriteBatch k m := Ret (k ++ m, None) }.

Definition example_log : wal_log := [([Byte.x61], mkPos 1 64); ([Byte.x62], mkPos 1 96); ([Byte.x63], mkPos 1 128)].
Definition example_namespace : bytes := str "default".
Definition example_ctx : Ctx := mkCtx (Some {[ str "x-namespace" := [example_namespace] ]}) [].
Definition example_client : Client unit := mkClient (Some (mkPos 1 64)) 0 initialBackoff None [] false None false KTop.
Definition example_start : System (W := wal_log) (R := nat * bool) (K := list WALRecord) (X := unit) := initial example_log example_client [].
Definition example_exec := exec_all (W := wal_log) (R := nat * bool) (K := list WALRecord) (X := unit) (fun w => snd <$> list.last w) example_namespace example_ctx (30 * Second).

Definition go : label := LSession 0 false (SReplicator (mkAnswer true 0)).
(** One batch of two records is delivered, then the stream breaks and another
    one is opened. *)
Definition example_run : list label :=
  [LOpen 0; go; go; go; go; go; go; go; LSession 0 false (SRecords (fun _ => 1) (fun _ => true)); LSession 0 false (SFlush true);
   LClient TCheck; LRecv; LClient (TPush true); LWrite; LClient TCheck; LBroken (RecvStatus (mkStatus Unavailable [])); LWrite; LClient TDrain;
   LClient TBackoffOver; LOpen 2].

Lemma example_positions : tl_log example_log ([([Byte.x61], mkPos 1 64)] ++ tail example_log).
Proof. split; [done|]. apply positions_ok_dec. reflexivity. Qed.

Lemma example_client_new : NewGrpcStreamerClient (offset_bytes [([Byte.x61], mkPos 1 64)]) = Ret example_client.
Proof. vm_compute. reflexivity. Qed.

Lemma example_delivers : exists y, example_exec example_run example_start = Some y /\ y_calls y = [(wire_of <$> tail example_log, None)].
Proof.
  assert (y_calls <$> example_exec example_run example_start = Some [(wire_of <$> tail example_log, None)]) as Hr by (vm_compute; reflexivity).
  destruct (example_exec example_run example_start) as [y|]; [|done]. injection Hr as Hr. by exists y.
Qed.

Lemma delivery_witness : exists (y : System (W := wal_log) (R := nat * bool) (K := list WALRecord) (X := unit)) L G, y_calls y = [(wire_of <$> tail example_log, None)] /\
  tl_log (y_log y) L /\ accepted (y_calls y) = wire_of <$> G /\ c_offset (y_client y) = offset_of ([([Byte.x61], mkPos 1 64)] ++ G).
Proof.
  destruct example_delivers as (y & Hy & Hc).
  destruct (delivery (fun w => snd <$> list.last w) example_namespace example_ctx (30 * Second) [([Byte.x61], mkPos 1 64)] (tail example_log) example_log example_client []
    example_positions example_client_new y (exec_all_sound _ _ _ _ _ _ _ Hy)) as (L & G & Hl & _ & _ & Ha & _ & _ & Ho).
  exists y, L, G. exact (conj Hc (conj Hl (conj Ha Ho))).
Defined.

(** A full batch is given up because the context has ended, and the empty slots
    are sent: the handler dereferences one of them. *)
Definition long_log : wal_log := (fun i => ([Byte.x61], mkPos 1 (64 + 32 * Z.of_nat i))) <$> seq 0 20.
Definition first_client : Client unit := mkClient None 0 initialBackoff None [] false None false KTop.
Definition nil_batch_run : list label :=
  [LOpen 0] ++ replicate 23 go ++ [LSession 0 false (SCancel CtxCanceled); LSession 0 false SMonitor;
    LSession 0 false (SReplicator (mkAnswer false 0)); go; go].

Lemma long_positions : tl_log long_log ([] ++ long_log).
Proof. split; [done|]. apply positions_ok_dec. vm_compute. reflexivity. Qed.

Lemma first_client_new : NewGrpcStreamerClient (offset_bytes []) = Ret first_client.
Proof. reflexivity. Qed.

Lemma nil_batch_panics : exists y s, example_exec nil_batch_run (initial long_log first_client []) = Some y /\ y_sessions y !! 0%nat = Some s /\
  sess_step (30 * Second) false (SRecords (fun _ => 1) (fun _ => true)) (y_log y) (y_pool y) s = Panic /\ y_calls y = [].
Proof.
  assert (match example_exec nil_batch_run (initial long_log first_client []) with
    | Some y => match y_sessions y !! 0%nat with
                | Some s => match sess_step (30 * Second) false (SRecords (fun _ => 1) (fun _ => true)) (y_log y) (y_pool y) s with Panic => y_calls y = [] | _ => False end
                | None => False end
    | None => False end) as Hr by (vm_compute; reflexivity).
  destruct (example_exec nil_batch_run (initial long_log first_client [])) as [y|]; [|destruct Hr]. destruct (y_sessions y !! 0%nat) as [s|] eqn:Hs; [|destruct Hr].
  destruct (sess_step (30 * Second) false (SRecords (fun _ => 1) (fun _ => true)) (y_log y) (y_pool y) s) eqn:Hp; [destruct Hr| |destruct Hr].
  exists y, s. exact (conj eq_refl (conj Hs (conj Hp Hr))).
Qed.

End examples.

(** * The retries of a follower's client: it waits between half a second and five
    seconds before an attempt, and gives up after the fifth retry in a row. *)

Section bounds.
Context {W R K X : Type} `{TailLaws W R} `{!WalSink K X}.
Context (CurrentOffset : W -> option RecordPosition) (namespace : bytes) (ctx : Ctx) (dynamicTimeout : Z).

(** The retries allowed at a point of the client. *)
Definition retries_at (pc : client_pc X) : Z := match pc with KTop | KBackoff | KReturned _ => maxRetries + 1 | _ => maxRetries end.

Definition retry_bounded (c : Client X) : Prop := initialBackoff <= backoff c <= maxBackoff /\ 0 <= retryCount c <= retries_at (c_pc c).

Lemma jitter_bounded b : initialBackoff <= b <= maxBackoff -> b <= getJitteredBackoff b <= maxBackoff.
Proof. unfold getJitteredBackoff, initialBackoff, Millisecond. lia. Qed.

Lemma attempt_failed_bounded e (c : Client X) : initialBackoff <= backoff c <= maxBackoff -> 0 <= retryCount c <= maxRetries -> retry_bounded (attempt_failed e c).
Proof.
  intros Hb Hr. pose proof (jitter_bounded _ Hb). unfold attempt_failed, retry_bounded. destruct (shouldRetry e); cbn; lia.
Qed.

Lemma received_bounded e (c : Client X) : initialBackoff <= backoff c <= maxBackoff -> 0 <= retryCount c <= maxRetries -> retry_bounded (received e c).
Proof. destruct e; [apply attempt_failed_bounded|]. intros _ _. by vm_compute. Qed.

Lemma client_step_bounded t (c c' : Client X) : retry_bounded c -> client_step t c = Some c' -> retry_bounded c'.
Proof.
  intros [Hb Hr] Hst. unfold retry_bounded. destruct t as [e| | |take| |]; cbn [client_step] in Hst.
  - unfold ctx_done in Hst. destruct (c_pc c); simplify_eq; by split.
  - unfold backoff_over in Hst. destruct (c_pc c); simplify_eq; by split.
  - unfold check in Hst. destruct (c_pc c); simplify_eq. destruct (errChan c); [by apply received_bounded|by split].
  - unfold push in Hst. destruct (c_pc c); simplify_eq. destruct take; [destruct (length (batchChan c) <? 4)%nat; simplify_eq; by split|].
    destruct (errChan c); simplify_eq. by apply received_bounded.
  - unfold drain in Hst. destruct (c_pc c); simplify_eq. destruct (errChan c); simplify_eq. by apply received_bounded.
  - unfold StreamWAL in Hst. destruct (c_pc c); simplify_eq. by vm_compute.
Qed.

Lemma connect_bounded r (c c' : Client X) : retry_bounded c -> connect r c = Some c' -> retry_bounded c'.
Proof.
  intros [Hb Hr] Hst. unfold connect in Hst. destruct (c_pc c) eqn:E; simplify_eq. cbn in Hr.
  destruct (Z.ltb_spec maxRetries (retryCount c)); simplify_eq; [by split|]. destruct r; [split; cbn; lia|]. apply attempt_failed_bounded; lia.
Qed.

Lemma recv_bounded r (c c' : Client X) : retry_bounded c -> recv r c = Some c' -> retry_bounded c'.
Proof.
  intros [Hb Hr] Hst. unfold recv in Hst. destruct (c_pc c) eqn:E; simplify_eq. by destruct r as [[|]|].
Qed.

Lemma write_bounded (c c' : Client X) k k' : retry_bounded c -> write c k = Ret (Some (c', k')) -> retry_bounded c'.
Proof.
  intros [Hb Hr] Hst. unfold write in Hst. destruct (negb (writer_running c)); [done|]. destruct (batchChan c) as [|job rest].
  - destruct (batchChan_closed c); simplify_eq. by split.
  - destruct (sk_WriteBatch k (job_records job)) as [[k1 [x|]]| |]; cbn in Hst; simplify_eq; by split.
Qed.

Lemma sys_step_bounded y y' : retry_bounded (y_client y) -> sys_step (K := K) CurrentOffset namespace ctx dynamicTimeout y y' -> retry_bounded (y_client y').
Proof.
  intros Hb Hst. destruct Hst; try done.
  - by eapply connect_bounded.
  - by eapply connect_bounded.
  - by eapply connect_bounded.
  - by eapply recv_bounded.
  - by eapply recv_bounded.
  - by eapply client_step_bounded.
  - by eapply write_bounded.
Qed.

Lemma reachable_bounded y y' : rtc (sys_step (K := K) CurrentOffset namespace ctx dynamicTimeout) y y' -> retry_bounded (y_client y) -> retry_bounded (y_client y').
Proof. induction 1 as [|y0 y1 y2 Hst _ IH]; [done|]. intros Hb. apply IH. by eapply sys_step_bounded. Qed.

End bounds.

