(* ===== verification/Engine.v ===== *)
(** The storage engine: dbkernel/{engine,engine_public,common}.go.

    [Engine] is the state of one namespace: the log, the active and the sealed
    memory tables, the store, the counters and the queue of checkpoints.  The
    writes take the clock readings they use as arguments; the background
    goroutines' work is [handleFlush] and [fSyncStore], and the signals that
    start it are counters of the channels.  Metrics and log lines have no effect
    on the state and are left out; log.Fatal ends the process and is [Panic]. *)

From stdpp Require Import prelude list numbers gmap.
From Stdlib Require Import ZArith Lia.
From S2P Require Import Prelude Bytes Segment KeyCodec KVStore KVSpec KVQueue BTree LogCodec WalIO MemTable Notify.

Inductive engine_error :=
| ErrEngineReadOnly
| ErrInCloseProcess
| ErrUnsupportedTxnType
| ErrKeyChangedForChunkedType
| ErrEmptyColumns
| ErrTxnAlreadyCommitted
| ErrInvalidLSN
| ErrInvalidOffset
| ErrRecordsMismatch
| ErrArenaTooSmall
| ErrMkdir
| ErrLock
| ErrDatabaseDirInUse
| ErrUnsupportedEngine
| ERandom
| EWal (e : error)
| EMem (e : mt_error)
| EStore (e : kv_error)
| ETxn (e : txn_error).

Definition metaNoOp : Z := LogOperationTypeNoOperation.
Definition metaDelete : Z := LogOperationTypeDelete.
Definition metaDeleteRowByKey : Z := LogOperationTypeDeleteRowByKey.

Definition minArenaSize : Z := 1024 * 200.

(** [effectiveBTreeFlushInterval], in nanoseconds *)
Definition effectiveBTreeFlushInterval (interval : Z) : Z * bool :=
  if interval <? 10 ^ 9 then (0, false) else (interval, true).

Record flushedMetadata := mkFlushed { fm_metadata : Metadata; fm_recordProcessed : Z; fm_bytesFlushed : Z }.

Section engine.
Context {L F W R D : Type} `{SkipList L} `{BloomFilter F} `{WalLog W R} `{BTreeStore D} `{FlatBuffers}.

Record Engine := mkEngine {
  writeSeenCounter : Z;
  opsFlushedCounter : Z;
  currentOffset : option RecordPosition;
  dataStore : D;
  walIO : W;
  activeMemTable : MemTable L F;
  sealedMemTables : list (MemTable L F);
  pendingMetadata : list flushedMetadata;
  flushReqSignal : Z;
  fsyncReqSignal : Z;
  notifier : Notifier;
  changes : list (bytes * Z * Z);
  startMetadata : Metadata;
  recoveredEntriesCount : Z;
  ArenaSize : Z;
  readOnly : bool;
  shutdown : bool;
  flushPaused : bool;
  btreeFlushIntervalEnabled : bool
}.

Definition with_counter (n : Z) (e : Engine) : Engine :=
  mkEngine n (opsFlushedCounter e) (currentOffset e) (dataStore e) (walIO e) (activeMemTable e) (sealedMemTables e)
    (pendingMetadata e) (flushReqSignal e) (fsyncReqSignal e) (notifier e) (changes e) (startMetadata e)
    (recoveredEntriesCount e) (ArenaSize e) (readOnly e) (shutdown e) (flushPaused e) (btreeFlushIntervalEnabled e).

Definition with_wal (w : W) (e : Engine) : Engine :=
  mkEngine (writeSeenCounter e) (opsFlushedCounter e) (currentOffset e) (dataStore e) w (activeMemTable e) (sealedMemTables e)
    (pendingMetadata e) (flushReqSignal e) (fsyncReqSignal e) (notifier e) (changes e) (startMetadata e)
    (recoveredEntriesCount e) (ArenaSize e) (readOnly e) (shutdown e) (flushPaused e) (btreeFlushIntervalEnabled e).

Definition with_store (d : D) (e : Engine) : Engine :=
  mkEngine (writeSeenCounter e) (opsFlushedCounter e) (currentOffset e) d (walIO e) (activeMemTable e) (sealedMemTables e)
    (pendingMetadata e) (flushReqSignal e) (fsyncReqSignal e) (notifier e) (changes e) (startMetadata e)
    (recoveredEntriesCount e) (ArenaSize e) (readOnly e) (shutdown e) (flushPaused e) (btreeFlushIntervalEnabled e).

Definition with_tables (active : MemTable L F) (sealed : list (MemTable L F)) (e : Engine) : Engine :=
  mkEngine (writeSeenCounter e) (opsFlushedCounter e) (currentOffset e) (dataStore e) (walIO e) active sealed
    (pendingMetadata e) (flushReqSignal e) (fsyncReqSignal e) (notifier e) (changes e) (startMetadata e)
    (recoveredEntriesCount e) (ArenaSize e) (readOnly e) (shutdown e) (flushPaused e) (btreeFlushIntervalEnabled e).

Definition with_offset (off : option RecordPosition) (n : Notifier) (e : Engine) : Engine :=
  mkEngine (writeSeenCounter e) (opsFlushedCounter e) off (dataStore e) (walIO e) (activeMemTable e) (sealedMemTables e)
    (pendingMetadata e) (flushReqSignal e) (fsyncReqSignal e) n (changes e) (startMetadata e)
    (recoveredEntriesCount e) (ArenaSize e) (readOnly e) (shutdown e) (flushPaused e) (btreeFlushIntervalEnabled e).

Definition with_pending (flushed : Z) (ms : list flushedMetadata) (e : Engine) : Engine :=
  mkEngine (writeSeenCounter e) flushed (currentOffset e) (dataStore e) (walIO e) (activeMemTable e) (sealedMemTables e)
    ms (flushReqSignal e) (fsyncReqSignal e) (notifier e) (changes e) (startMetadata e)
    (recoveredEntriesCount e) (ArenaSize e) (readOnly e) (shutdown e) (flushPaused e) (btreeFlushIntervalEnabled e).

(** A send on a buffered channel that gives up when the buffer is full. *)
Definition try_send (cap n : Z) : Z := if n <? cap then n + 1 else n.

Definition with_signals (flush fsync : Z) (e : Engine) : Engine :=
  mkEngine (writeSeenCounter e) (opsFlushedCounter e) (currentOffset e) (dataStore e) (walIO e) (activeMemTable e) (sealedMemTables e)
    (pendingMetadata e) flush fsync (notifier e) (changes e) (startMetadata e)
    (recoveredEntriesCount e) (ArenaSize e) (readOnly e) (shutdown e) (flushPaused e) (btreeFlushIntervalEnabled e).

Definition with_change (c : bytes * Z * Z) (e : Engine) : Engine :=
  mkEngine (writeSeenCounter e) (opsFlushedCounter e) (currentOffset e) (dataStore e) (walIO e) (activeMemTable e) (sealedMemTables e)
    (pendingMetadata e) (flushReqSignal e) (fsyncReqSignal e) (notifier e) (changes e ++ [c]) (startMetadata e)
    (recoveredEntriesCount e) (ArenaSize e) (readOnly e) (shutdown e) (flushPaused e) (btreeFlushIntervalEnabled e).

Definition with_recovered (n : Z) (e : Engine) : Engine :=
  mkEngine (writeSeenCounter e) (opsFlushedCounter e) (currentOffset e) (dataStore e) (walIO e) (activeMemTable e) (sealedMemTables e)
    (pendingMetadata e) (flushReqSignal e) (fsyncReqSignal e) (notifier e) (changes e) (startMetadata e)
    n (ArenaSize e) (readOnly e) (shutdown e) (flushPaused e) (btreeFlushIntervalEnabled e).

Definition with_shutdown (e : Engine) : Engine :=
  mkEngine (writeSeenCounter e) (opsFlushedCounter e) (currentOffset e) (dataStore e) (walIO e) (activeMemTable e) (sealedMemTables e)
    (pendingMetadata e) (flushReqSignal e) (fsyncReqSignal e) (notifier e) (changes e) (startMetadata e)
    (recoveredEntriesCount e) (ArenaSize e) (readOnly e) true (flushPaused e) (btreeFlushIntervalEnabled e).

Definition pauseFlush (e : Engine) : Engine :=
  mkEngine (writeSeenCounter e) (opsFlushedCounter e) (currentOffset e) (dataStore e) (walIO e) (activeMemTable e) (sealedMemTables e)
    (pendingMetadata e) (flushReqSignal e) (fsyncReqSignal e) (notifier e) (changes e) (startMetadata e)
    (recoveredEntriesCount e) (ArenaSize e) (readOnly e) (shutdown e) true (btreeFlushIntervalEnabled e).

(** ** Writing *)

Definition rotateMemTable (e : Engine) : Engine :=
  with_signals (try_send 2 (flushReqSignal e)) (fsyncReqSignal e)
    (with_tables (NewMemTable (ArenaSize e)) (sealedMemTables e ++ [activeMemTable e]) e).

Definition decodeOperation (v : ValueStruct) : Z := Meta v.
Definition decodeEntryType (v : ValueStruct) : Z := UserMeta v.

Definition memTableWrite (now : Z) (e : Engine) (key : bytes) (v : ValueStruct) : outcome (Engine * option engine_error) :=
  let notify e := with_change (key, decodeOperation v, decodeEntryType v) e in
  '(t, err) ← Put now (activeMemTable e) key v;
  match err with
  | None => Ret (notify (with_tables t (sealedMemTables e) e), None)
  | Some ErrArenaSizeWillExceed =>
      let e := rotateMemTable e in
      '(t, err) ← Put now (activeMemTable e) key v;
      let e := with_tables t (sealedMemTables e) e in
      match err with
      | Some err => Ret (e, Some (EMem err))
      | None => Ret (notify e, None)
      end
  end.

Definition writeOffset (offset : option RecordPosition) (e : Engine) : outcome Engine :=
  match offset with
  | None => Ret e
  | Some off =>
      let e := with_tables (SetOffset off (activeMemTable e)) (sealedMemTables e) e in
      n ← notifyAppend (notifier e);
      Ret (with_offset (Some off) n e)
  end.

Definition writeNilOffset (e : Engine) : Engine :=
  with_tables (IncrOffset (activeMemTable e)) (sealedMemTables e) e.

(** A sequence of writes to the memory table, ended by the first error; [after]
    is what follows each write. *)
Fixpoint mem_writes (after : Engine -> Engine) (now : nat -> Z) (e : Engine) (puts : list (bytes * ValueStruct))
  : outcome (Engine * option engine_error) :=
  match puts with
  | [] => Ret (e, None)
  | (key, v) :: rest =>
      '(e, err) ← memTableWrite (now 0%nat) e key v;
      match err with
      | Some _ => Ret (e, err)
      | None => mem_writes after (fun n => now (S n)) (after e) rest
      end
  end.

(** A record is appended to the log; then its entries go to the memory table
    and the position of the record becomes the current offset. *)
Definition append_record (e : Engine) (encoded : bytes) : outcome (Engine * result error RecordPosition) :=
  '(w, r) ← wl_Append (walIO e) encoded;
  Ret (with_wal w e, r).

Definition nextLSN (e : Engine) : Z := u64 (writeSeenCounter e + 1).

Fixpoint kv_entries (op : Z) (keys values : list bytes) : outcome (list bytes) :=
  match keys with
  | [] => Ret []
  | key :: keys =>
      if op =? LogOperationTypeDelete then
        rest ← kv_entries op keys (tail values);
        Ret (SerializeKVEntry key [] :: rest)
      else
        match values with
        | [] => Panic
        | v :: values => rest ← kv_entries op keys values; Ret (SerializeKVEntry key v :: rest)
        end
  end.

Fixpoint kv_puts (op : Z) (keys values : list bytes) : outcome (list (bytes * ValueStruct)) :=
  match keys with
  | [] => Ret []
  | key :: keys =>
      if op =? LogOperationTypeDelete then
        rest ← kv_puts op keys (tail values);
        Ret ((key, getValueStruct op EntryTypeKV []) :: rest)
      else
        match values with
        | [] => Panic
        | v :: values => rest ← kv_puts op keys values; Ret ((key, getValueStruct op EntryTypeKV v) :: rest)
        end
  end.

Definition hintSize (entries : list bytes) : Z := foldr (fun e n => blen e + n) 512 entries.

(** The checksum that the loop computes is not kept. *)
Definition persistKeyValue (hlc : Z) (now : nat -> Z) (e : Engine) (keys values : list bytes) (op : Z)
  : outcome (Engine * option engine_error) :=
  if readOnly e then Ret (e, Some ErrEngineReadOnly) else
  kvEntries ← kv_entries op keys values;
  let e := with_counter (nextLSN e) e in
  let record := mkLogRecord (writeSeenCounter e) hlc 0 op TransactionStateNone LogEntryTypeKV [] [] kvEntries in
  '(e, r) ← append_record e (FBEncode record (hintSize kvEntries));
  match r with
  | Err err => Ret (e, Some (EWal err))
  | Ok offset =>
      puts ← kv_puts op keys values;
      '(e, err) ← mem_writes (fun e => e) now e puts;
      match err with
      | Some _ => Ret (e, err)
      | None => e ← writeOffset (Some offset) e; Ret (e, None)
      end
  end.

(** A map of columns is a list without repeated names, in the order in which it
    is ranged over. *)
Notation column_map := (list (bytes * bytes)).

Fixpoint row_entries (op : Z) (rowKeys : list bytes) (columnsEntries : list column_map) : outcome (list bytes) :=
  match rowKeys with
  | [] => Ret []
  | row :: rowKeys =>
      if op =? LogOperationTypeDeleteRowByKey then
        rest ← row_entries op rowKeys (tail columnsEntries);
        Ret (SerializeRowUpdateEntry row [] :: rest)
      else
        match columnsEntries with
        | [] => Panic
        | cols :: columnsEntries => rest ← row_entries op rowKeys columnsEntries; Ret (SerializeRowUpdateEntry row cols :: rest)
        end
  end.

Definition row_puts (op : Z) (rowKeys rowEntries : list bytes) : list (bytes * ValueStruct) :=
  zip_with (fun row entry => (row, getValueStruct op EntryTypeRow entry)) rowKeys rowEntries.

Definition persistRowColumnAction (hlc : Z) (now : nat -> Z) (e : Engine) (op : Z) (rowKeys : list bytes) (columnsEntries : list column_map)
  : outcome (Engine * option engine_error) :=
  if readOnly e then Ret (e, Some ErrEngineReadOnly) else
  rowEntries ← row_entries op rowKeys columnsEntries;
  let e := with_counter (nextLSN e) e in
  let record := mkLogRecord (writeSeenCounter e) hlc 0 op TransactionStateNone LogEntryTypeRow [] [] rowEntries in
  '(e, r) ← append_record e (FBEncode record (hintSize rowEntries));
  match r with
  | Err err => Ret (e, Some (EWal err))
  | Ok offset =>
      '(e, err) ← mem_writes (fun e => e) now e (row_puts op rowKeys rowEntries);
      match err with
      | Some _ => Ret (e, err)
      | None => e ← writeOffset (Some offset) e; Ret (e, None)
      end
  end.

(** ** The public operations that write *)

Definition unless_closing {A} (e : Engine) (a : Engine -> outcome (Engine * option A)) (err : A) : outcome (Engine * option A) :=
  if shutdown e then Ret (e, Some err) else a e.

Definition PutKV hlc now (e : Engine) (key value : bytes) :=
  unless_closing e (fun e => persistKeyValue hlc now e [KeyKV key] [value] LogOperationTypeInsert) ErrInCloseProcess.
Definition BatchPutKV hlc now (e : Engine) (key value : list bytes) :=
  unless_closing e (fun e => persistKeyValue hlc now e (KeyKV <$> key) value LogOperationTypeInsert) ErrInCloseProcess.
Definition DeleteKV hlc now (e : Engine) (key : bytes) :=
  unless_closing e (fun e => persistKeyValue hlc now e [KeyKV key] [] LogOperationTypeDelete) ErrInCloseProcess.
Definition BatchDeleteKV hlc now (e : Engine) (keys : list bytes) :=
  unless_closing e (fun e => persistKeyValue hlc now e (KeyKV <$> keys) [] LogOperationTypeDelete) ErrInCloseProcess.

Definition PutColumnsForRow hlc now (e : Engine) (rowKey : bytes) (columnEntries : column_map) :=
  unless_closing e (fun e => persistRowColumnAction hlc now e LogOperationTypeInsert [RowKey rowKey] [columnEntries]) ErrInCloseProcess.
Definition PutColumnsForRows hlc now (e : Engine) (rowKeys : list bytes) (columnEntriesPerRow : list column_map) :=
  unless_closing e (fun e => persistRowColumnAction hlc now e LogOperationTypeInsert (RowKey <$> rowKeys) columnEntriesPerRow) ErrInCloseProcess.
Definition DeleteColumnsForRow hlc now (e : Engine) (rowKey : bytes) (columnEntries : column_map) :=
  unless_closing e (fun e => persistRowColumnAction hlc now e LogOperationTypeDelete [RowKey rowKey] [columnEntries]) ErrInCloseProcess.
Definition DeleteColumnsForRows hlc now (e : Engine) (rowKeys : list bytes) (columnEntries : list column_map) :=
  unless_closing e (fun e => persistRowColumnAction hlc now e LogOperationTypeDelete (RowKey <$> rowKeys) columnEntries) ErrInCloseProcess.
Definition DeleteRow hlc now (e : Engine) (rowKey : bytes) :=
  unless_closing e (fun e => persistRowColumnAction hlc now e LogOperationTypeDeleteRowByKey [RowKey rowKey] []) ErrInCloseProcess.
Definition BatchDeleteRows hlc now (e : Engine) (rowKeys : list bytes) :=
  unless_closing e (fun e => persistRowColumnAction hlc now e LogOperationTypeDeleteRowByKey (RowKey <$> rowKeys) []) ErrInCloseProcess.

(** ** Reading *)

Definition store_result {A} (r : result kv_error A) : result engine_error A :=
  match r with Ok a => Ok a | Err e => Err (EStore e) end.

(** The newest table that knows the key: the active one, then the sealed ones
    from the last to the first. *)
Fixpoint newest (key : bytes) (tables : list (MemTable L F)) : ValueStruct :=
  match tables with
  | [] => zero_value
  | t :: rest => let v := Get t key in if negb (Meta v =? metaNoOp) then v else newest key rest
  end.

Definition GetKV (e : Engine) (key : bytes) : outcome (result engine_error bytes) :=
  if shutdown e then Ret (Err ErrInCloseProcess) else
  let key := KeyKV key in
  let yValue := newest key (activeMemTable e :: reverse (sealedMemTables e)) in
  if negb (Meta yValue =? metaNoOp) then
    Ret (if Meta yValue =? metaDelete then Err (EStore ErrKeyNotFound) else Ok (Value yValue))
  else
    r ← ds_GetKV (dataStore e) key;
    Ret (store_result r).

Definition is_row_deletion (v : option ValueStruct) : bool :=
  match v with Some v => Meta v =? metaDeleteRowByKey | None => false end.

Definition matches (predicate : option (bytes -> bool)) (column : bytes) : bool :=
  match predicate with Some p => p column | None => true end.

Definition GetRowColumns (e : Engine) (rowKey : bytes) (predicate : option (bytes -> bool)) : outcome (result engine_error kvmap) :=
  if shutdown e then Ret (Err ErrInCloseProcess) else
  let key := RowKey rowKey in
  let first := GetRowYValue (activeMemTable e) key in
  if is_row_deletion (list.last first) then Ret (Err (EStore ErrKeyNotFound)) else
  let vs := (sealedMemTables e ≫= fun sm => GetRowYValue sm key) ++ first in
  r ← ds_ScanRowCells (dataStore e) key (matches predicate);
  let merge (foundInDataStore : bool) (columnsValue : kvmap) :=
    columnsValue ← BuildColumnMap columnsValue vs;
    let columnsValue := filter (fun kv => matches predicate kv.1 = true) columnsValue in
    if bool_decide (columnsValue = ∅) && bool_decide (vs = []) && negb foundInDataStore
    then Ret (Err (EStore ErrKeyNotFound)) else Ret (Ok columnsValue) in
  match r with
  | Ok columnsValue => merge true columnsValue
  | Err ErrKeyNotFound => merge false ∅
  | Err err => Ret (Err (EStore err))
  end.

Definition reconstructChunkedValue (fuel : nat) (e : Engine) (record : fb_log) : outcome (result engine_error bytes) :=
  prev ← DecodeOffset (PrevTxnWalIndexBytes record);
  r ← GetTransactionRecords fuel (walIO e) prev;
  match r with
  | Err err => Ret (Err (ETxn err))
  | Ok records =>
      preparedRecords ← drop_begin records;
      values ← chunk_values preparedRecords;
      Ret (Ok (concat values))
  end.

Definition GetLOB (fuel : nat) (e : Engine) (key : bytes) : outcome (result engine_error bytes) :=
  if shutdown e then Ret (Err ErrInCloseProcess) else
  let key := KeyBlobChunk key 0 in
  let yv := newest key (activeMemTable e :: reverse (sealedMemTables e)) in
  if UserMeta yv =? EntryTypeChunked then
    r ← GetWalRecord yv (walIO e);
    match r with
    | Err err => Ret (Err (EWal err))
    | Ok rec => reconstructChunkedValue fuel e rec
    end
  else
    r ← ds_GetLOBChunks (dataStore e) key;
    Ret (match r with Ok chunks => Ok (concat chunks) | Err err => Err (EStore err) end).

(** ** Background work *)

(** [ctx] and [order] are those of [Flush].  A flush that fails ends the process. *)
Definition handleFlush (fuel : nat) (ctx : nat -> bool) (order : list bytes -> list bytes) (e : Engine) : outcome Engine :=
  if flushPaused e then Ret e else
  match sealedMemTables e with
  | [] => Ret e
  | mt :: rest =>
      if IsEmpty mt then Ret e else
      '(mt, d, r) ← Flush fuel (walIO e) ctx order mt (dataStore e);
      match r with
      | Err _ => Panic
      | Ok recordProcessed =>
          let flushed := u64 (opsFlushedCounter e + recordProcessed) in
          let fm := mkFlushed (mkMetadata flushed (GetLastOffset mt)) recordProcessed (GetBytesStored mt) in
          let e := with_pending flushed (pendingMetadata e ++ [fm]) (with_store d e) in
          let e := with_tables (activeMemTable e) rest e in
          Ret (if btreeFlushIntervalEnabled e then e else with_signals (flushReqSignal e) (try_send 1 (fsyncReqSignal e)) e)
      end
  end.

Definition SaveMetadata (d : D) (pos : option RecordPosition) (index : Z) : outcome (D * option kv_error) :=
  value ← MarshalBinary (mkMetadata index pos);
  ds_StoreMetadata d SysKeyWalCheckPoint value.

Definition fSyncStore (e : Engine) : outcome Engine :=
  if flushPaused e then Ret e else
  match list.last (pendingMetadata e) with
  | None => Ret e
  | Some fm =>
      let e := with_pending (opsFlushedCounter e) [] e in
      '(d, err) ← SaveMetadata (dataStore e) (Pos (fm_metadata fm)) (RecordProcessed (fm_metadata fm));
      match err with
      | Some _ => Panic
      | None => match ds_FSync d with Some _ => Panic | None => Ret (with_store d e) end
      end
  end.

(** The answers of the parts that are closed: the sync and the close of the
    log, the close of the store, the lock file. *)
Record CloseIO := mkCloseIO { cl_waited : bool; cl_walSync : bool; cl_walClose : bool; cl_storeClose : bool; cl_unlock : bool }.

Definition close (io : CloseIO) (e : Engine) : outcome (Engine * bool) :=
  let e := with_shutdown e in
  e ← fSyncStore e;
  let synced := match ds_FSync (dataStore e) with Some _ => false | None => true end in
  Ret (e, cl_waited io && cl_walSync io && cl_walClose io && synced && cl_storeClose io && cl_unlock io).

Definition Close (io : CloseIO) (e : Engine) : outcome (Engine * result engine_error bool) :=
  if shutdown e then Ret (e, Err ErrInCloseProcess) else
  '(e, ok) ← close io e;
  Ret (e, Ok ok).

(** ** Counters and checkpoint *)

Definition OpsReceivedCount (e : Engine) : Z := writeSeenCounter e.
Definition OpsFlushedCount (e : Engine) : Z := opsFlushedCounter e.
Definition SealedMemTableCount (e : Engine) : Z := blen (sealedMemTables e).
Definition CurrentOffset (e : Engine) : option RecordPosition := currentOffset e.

Definition GetWalCheckPoint (e : Engine) : outcome (result engine_error (option Metadata)) :=
  r ← ds_RetrieveMetadata (dataStore e) SysKeyWalCheckPoint;
  match r with
  | Err ErrKeyNotFound => Ret (Ok None)
  | Err err => Ret (Err (EStore err))
  | Ok [] => Ret (Ok None)
  | Ok data => m ← UnmarshalMetadata data; Ret (Ok (Some m))
  end.
End engine.
Arguments Engine L F W D : clear implicits.
