(* ===== verification/Txn.v ===== *)
(** Transactions: dbkernel/txn.go.

    Every operation of a transaction appends a record to the log at once; the
    entries reach the memory table when it commits.  A transaction holds a
    pointer to its engine, so the operations take and return both. *)

From stdpp Require Import prelude list numbers gmap.
From Stdlib Require Import ZArith Lia.
From S2P Require Import Prelude Bytes Crc32 Segment KeyCodec KVStore KVSpec KVQueue BTree LogCodec WalIO MemTable Notify Engine.

Record Txn := mkTxn {
  t_err : option engine_error;
  prevOffset : RecordPosition;
  memTableEntries : list (bytes * ValueStruct);
  rowKey : option bytes;
  txnID : bytes;
  valuesCount : Z;
  checksum : Z;
  chunkedValueChecksum : Z;
  txnOperation : Z;
  txnEntryType : Z
}.

Definition txn_failed (e : engine_error) (t : Txn) : Txn :=
  mkTxn (Some e) (prevOffset t) (memTableEntries t) (rowKey t) (txnID t) (valuesCount t) (checksum t)
    (chunkedValueChecksum t) (txnOperation t) (txnEntryType t).

Section txn.
Context {L F W R D : Type} `{SkipList L} `{BloomFilter F} `{WalLog W R} `{BTreeStore D} `{FlatBuffers}.
Notation Engine := (Engine L F W D).

(** [uuid] is the identifier that ksuid generates, or nothing when it fails. *)
Definition NewTxn (uuid : option bytes) (hlc : Z) (e : Engine) (txnType valueType : Z) : outcome (Engine * result engine_error Txn) :=
  if readOnly e then Ret (e, Err ErrEngineReadOnly) else
  if txnType =? LogOperationTypeNoOperation then Ret (e, Err ErrUnsupportedTxnType) else
  if (txnType =? LogOperationTypeDelete) && (valueType =? LogEntryTypeChunked) then Ret (e, Err ErrUnsupportedTxnType) else
  match uuid with
  | None => Ret (e, Err ERandom)
  | Some uuid =>
      let e := with_counter (nextLSN e) e in
      let record := mkLogRecord (writeSeenCounter e) hlc 0 LogOperationTypeNoOperation TransactionStateBegin valueType uuid [] [] in
      '(e, r) ← append_record e (FBEncode record 512);
      match r with
      | Err err => Ret (e, Err (EWal err))
      | Ok offset => Ret (e, Ok (mkTxn None offset [] None uuid 0 0 0 txnType valueType))
      end
  end.

(** The record of one operation of the transaction. *)
Definition txn_record (hlc lsn crc state : Z) (t : Txn) (entry : bytes) : bytes :=
  FBEncode (mkLogRecord lsn hlc crc (txnOperation t) state (txnEntryType t) (txnID t) (Encode (prevOffset t)) [entry]) (blen entry + 128).

Definition AppendKVTxn (hlc : Z) (e : Engine) (t : Txn) (key value : bytes) : outcome (Engine * Txn * option engine_error) :=
  match t_err t with
  | Some err => Ret (e, t, Some err)
  | None =>
      if txnEntryType t =? LogEntryTypeRow then Ret (e, t, Some ErrUnsupportedTxnType) else
      let inserts_blob := (txnOperation t =? LogOperationTypeInsert) && negb (txnEntryType t =? LogEntryTypeKV) in
      let rowKey' := match rowKey t with None => if inserts_blob then Some (KeyBlobChunk key 0) else None | r => r end in
      let key := if txnEntryType t =? LogEntryTypeChunked then KeyBlobChunk key 0 else KeyKV key in
      let t := mkTxn None (prevOffset t) (memTableEntries t) rowKey' (txnID t) (valuesCount t) (checksum t)
                 (chunkedValueChecksum t) (txnOperation t) (txnEntryType t) in
      if inserts_blob && negb (bool_decide (default [] rowKey' = key))
      then Ret (e, txn_failed ErrKeyChangedForChunkedType t, Some ErrKeyChangedForChunkedType) else
      let kvEncoded := SerializeKVEntry key value in
      let chunkedSum := crc32.Update (chunkedValueChecksum t) crc32.IEEETable value in
      let t := mkTxn None (prevOffset t) (memTableEntries t) rowKey' (txnID t) (valuesCount t) (checksum t)
                 chunkedSum (txnOperation t) (txnEntryType t) in
      let e := with_counter (nextLSN e) e in
      '(e, r) ← append_record e (txn_record hlc (writeSeenCounter e) (crc32.ChecksumIEEE kvEncoded) TransactionStatePrepare t kvEncoded);
      match r with
      | Err err => Ret (e, txn_failed (EWal err) t, Some (EWal err))
      | Ok offset =>
          let entries :=
            if negb (txnEntryType t =? LogEntryTypeChunked)
            then memTableEntries t ++ [(key, getValueStruct (txnOperation t) (txnEntryType t) value)]
            else memTableEntries t in
          Ret (e, mkTxn None offset entries rowKey' (txnID t) (valuesCount t + 1) (crc32.Update (checksum t) crc32.IEEETable kvEncoded)
                    chunkedSum (txnOperation t) (txnEntryType t), None)
      end
  end.

Definition AppendColumnTxn (hlc : Z) (e : Engine) (t : Txn) (row : bytes) (columnEntries : list (bytes * bytes))
  : outcome (Engine * Txn * option engine_error) :=
  match t_err t with
  | Some err => Ret (e, t, Some err)
  | None =>
      if negb (txnEntryType t =? LogEntryTypeRow) then Ret (e, t, Some ErrUnsupportedTxnType) else
      if blen columnEntries =? 0 then Ret (e, t, Some ErrEmptyColumns) else
      let row := RowKey row in
      let rce := SerializeRowUpdateEntry row columnEntries in
      let e := with_counter (nextLSN e) e in
      let encoded := txn_record hlc (writeSeenCounter e) (crc32.ChecksumIEEE rce) TransactionStatePrepare t rce in
      '(e, r) ← append_record e encoded;
      match r with
      | Err err => Ret (e, txn_failed (EWal err) t, Some (EWal err))
      | Ok offset =>
          let memValue := getValueStruct (txnOperation t) (txnEntryType t) rce in
          Ret (e, mkTxn None offset (memTableEntries t ++ [(row, memValue)]) (rowKey t) (txnID t) (valuesCount t + 1)
                    (crc32.Update (checksum t) crc32.IEEETable encoded) (chunkedValueChecksum t) (txnOperation t) (txnEntryType t), None)
      end
  end.

Definition memWriteChunk (now : Z) (e : Engine) (t : Txn) (encoded : bytes) : outcome (Engine * option engine_error) :=
  let memValue := getValueStruct LogOperationTypeInsert LogEntryTypeChunked encoded in
  '(e, err) ← memTableWrite now e (default [] (rowKey t)) memValue;
  match err with
  | Some _ => Ret (e, err)
  | None => e ← writeOffset (Some (prevOffset t)) e; Ret (e, None)
  end.

Definition memWriteFull (now : nat -> Z) (e : Engine) (t : Txn) : outcome (Engine * option engine_error) :=
  '(e, err) ← mem_writes writeNilOffset now e (memTableEntries t);
  match err with
  | Some _ => Ret (e, err)
  | None => e ← writeOffset (Some (prevOffset t)) e; Ret (e, None)
  end.

Definition Commit (hlc : Z) (now : nat -> Z) (e : Engine) (t : Txn) : outcome (Engine * Txn * option engine_error) :=
  match t_err t with
  | Some err => Ret (e, t, Some err)
  | None =>
      let kv := SerializeKVEntry (default [] (rowKey t)) [] in
      let e := with_counter (nextLSN e) e in
      '(e, r) ← append_record e (txn_record hlc (writeSeenCounter e) (checksum t) TransactionStateCommit t kv);
      match r with
      | Err err => Ret (e, txn_failed (EWal err) t, Some (EWal err))
      | Ok offset =>
          let t := mkTxn None offset (memTableEntries t) (rowKey t) (txnID t) (valuesCount t) (checksum t)
                     (chunkedValueChecksum t) (txnOperation t) (txnEntryType t) in
          '(e, mErr) ←
            (if (txnEntryType t =? LogEntryTypeKV) || (txnEntryType t =? LogEntryTypeRow) then memWriteFull now e t
             else if txnEntryType t =? LogEntryTypeChunked then memWriteChunk (now 0%nat) e t (Encode offset)
             else Ret (e, None));
          match mErr with
          | Some err => Ret (e, txn_failed err t, Some err)
          | None => Ret (e, txn_failed ErrTxnAlreadyCommitted t, None)
          end
      end
  end.

Definition TxnID (t : Txn) : bytes := txnID t.
Definition TxnChecksum (t : Txn) : Z := checksum t.
Definition ChunkedValueChecksum (t : Txn) : Z := chunkedValueChecksum t.
Definition CommitOffset (t : Txn) : RecordPosition := prevOffset t.
End txn.
