(* ===== verification/Recovery.v ===== *)
(** Recovery of the log: dbkernel/internal/recovery/wal_recovery.go, with
    loadMetaValues and recoverWAL of dbkernel/engine.go, and the opening of an
    engine. *)

From stdpp Require Import prelude list numbers gmap.
From Stdlib Require Import ZArith Lia.
From S2P Require Import Prelude Bytes Segment KeyCodec KVStore KVSpec KVQueue BTree LogCodec WalIO MemTable Notify Engine.

Inductive recovery_error := RecStore (e : kv_error) | RecTxn (e : txn_error) | RecWal (e : error).

Section recovery.
Context {L F W R D : Type} `{SkipList L} `{BloomFilter F} `{WalLog W R} `{BTreeStore D} `{FlatBuffers}.

Record walRecovery := mkRecovery {
  wr_store : D;
  wr_wal : W;
  recoveredCount : Z;
  lastRecoveredPos : option RecordPosition
}.

Definition counted (n : Z) (wr : walRecovery) : walRecovery :=
  mkRecovery (wr_store wr) (wr_wal wr) (recoveredCount wr + n) (lastRecoveredPos wr).

(** A call of the store. *)
Definition wr_call (op : kv_op) (wr : walRecovery) : outcome (walRecovery * option recovery_error) :=
  '(d, e) ← ds_call (wr_store wr) op;
  Ret (mkRecovery d (wr_wal wr) (recoveredCount wr) (lastRecoveredPos wr), match e with Some e => Some (RecStore e) | None => None end).

Fixpoint kv_list (entries : list bytes) : outcome (list KeyValueEntry) :=
  match entries with
  | [] => Ret []
  | entry :: rest => kv ← DeserializeKVEntry entry; kvs ← kv_list rest; Ret (kv :: kvs)
  end.

Fixpoint row_list (entries : list bytes) : outcome (list RowEntry) :=
  match entries with
  | [] => Ret []
  | entry :: rest => re ← DeserializeRowUpdateEntry entry; res ← row_list rest; Ret (re :: res)
  end.

Definition handleInsert (record : fb_log) (wr : walRecovery) : outcome (walRecovery * option recovery_error) :=
  let entries := Entries (DeserializeFBRootLogRecord record) in
  if fb_entry_type record =? LogEntryTypeKV then
    kvs ← kv_list entries; wr_call (OBatchSetKV (kv_Key <$> kvs) (kv_Value <$> kvs)) wr
  else if fb_entry_type record =? LogEntryTypeRow then
    res ← row_list entries; wr_call (OBatchSetCells (row_Key <$> res) (row_Columns <$> res)) wr
  else Ret (wr, None).

Definition handleDelete (record : fb_log) (wr : walRecovery) : outcome (walRecovery * option recovery_error) :=
  let entries := Entries (DeserializeFBRootLogRecord record) in
  if fb_entry_type record =? LogEntryTypeKV then
    kvs ← kv_list entries; wr_call (OBatchDeleteKV (kv_Key <$> kvs)) wr
  else if fb_entry_type record =? LogEntryTypeRow then
    res ← row_list entries; wr_call (OBatchDeleteCells (row_Key <$> res) (row_Columns <$> res)) wr
  else Ret (wr, None).

Definition handleDeleteRowByKey (record : fb_log) (wr : walRecovery) : outcome (walRecovery * option recovery_error) :=
  res ← row_list (Entries (DeserializeFBRootLogRecord record));
  wr_call (OBatchDeleteRows (row_Key <$> res)) wr.

(** The records of the transaction that [record] commits, without the first. *)
Definition txn_records (fuel : nat) (record : fb_log) (w : W) : outcome (result txn_error (list fb_log * list fb_log)) :=
  prev ← DecodeOffset (PrevTxnWalIndexBytes record);
  r ← GetTransactionRecords fuel w prev;
  match r with
  | Err e => Ret (Err e)
  | Ok records => preparedRecords ← drop_begin records; Ret (Ok (records, preparedRecords))
  end.

Definition all_entries (records : list fb_log) : list bytes := records ≫= fun r => Entries (DeserializeFBRootLogRecord r).

Definition handleKVValuesTxn (fuel : nat) (record : fb_log) (wr : walRecovery) : outcome (walRecovery * option recovery_error) :=
  r ← txn_records fuel record (wr_wal wr);
  match r with
  | Err e => Ret (wr, Some (RecTxn e))
  | Ok (records, preparedRecords) =>
      kvs ← kv_list (all_entries preparedRecords);
      let wr := counted (blen records) wr in
      if fb_operation_type record =? LogOperationTypeInsert then wr_call (OBatchSetKV (kv_Key <$> kvs) (kv_Value <$> kvs)) wr
      else if fb_operation_type record =? LogOperationTypeDelete then wr_call (OBatchDeleteKV (kv_Key <$> kvs)) wr
      else Ret (wr, None)
  end.

Definition handleRowColumnTxn (fuel : nat) (record : fb_log) (wr : walRecovery) : outcome (walRecovery * option recovery_error) :=
  r ← txn_records fuel record (wr_wal wr);
  match r with
  | Err e => Ret (wr, Some (RecTxn e))
  | Ok (records, preparedRecords) =>
      res ← row_list (all_entries preparedRecords);
      let wr := counted (blen records) wr in
      if fb_operation_type record =? LogOperationTypeInsert then wr_call (OBatchSetCells (row_Key <$> res) (row_Columns <$> res)) wr
      else if fb_operation_type record =? LogOperationTypeDelete then wr_call (OBatchDeleteCells (row_Key <$> res) (row_Columns <$> res)) wr
      else if fb_operation_type record =? LogOperationTypeDeleteRowByKey then wr_call (OBatchDeleteRows (row_Key <$> res)) wr
      else Ret (wr, None)
  end.

Definition handleChunkedValuesTxn (fuel : nat) (record : fb_log) (wr : walRecovery) : outcome (walRecovery * option recovery_error) :=
  kv ← first_entry record;
  r ← txn_records fuel record (wr_wal wr);
  match r with
  | Err e => Ret (wr, Some (RecTxn e))
  | Ok (records, preparedRecords) =>
      values ← chunk_values preparedRecords;
      '(wr, e) ← wr_call (OSetLobChunks (kv_Key kv) values (fb_crc32_checksum record)) wr;
      Ret (counted (blen records) wr, e)
  end.

Definition handleTxnCommited (fuel : nat) (record : fb_log) (wr : walRecovery) : outcome (walRecovery * option recovery_error) :=
  let wr := counted 1 wr in
  if fb_entry_type record =? LogEntryTypeKV then handleKVValuesTxn fuel record wr
  else if fb_entry_type record =? LogEntryTypeChunked then handleChunkedValuesTxn fuel record wr
  else if fb_entry_type record =? LogEntryTypeRow then handleRowColumnTxn fuel record wr
  else Ret (wr, None).

Definition handleRecord (fuel : nat) (record : fb_log) (wr : walRecovery) : outcome (walRecovery * option recovery_error) :=
  if fb_txn_state record =? TransactionStateNone then
    let wr := counted 1 wr in
    if fb_operation_type record =? LogOperationTypeInsert then handleInsert record wr
    else if fb_operation_type record =? LogOperationTypeDelete then handleDelete record wr
    else if fb_operation_type record =? LogOperationTypeDeleteRowByKey then handleDeleteRowByKey record wr
    else Ret (wr, None)
  else if fb_txn_state record =? TransactionStateCommit then handleTxnCommited fuel record wr
  else Ret (wr, None).

(** The loop over the reader; [fuel] also bounds the walks back through
    transactions. *)
Fixpoint recover_loop (steps fuel : nat) (rd : R) (wr : walRecovery) : outcome (walRecovery * option recovery_error) :=
  match steps with
  | O => NoFuel
  | S steps =>
      '(w, rd, r) ← wl_Next (wr_wal wr) rd;
      let wr := mkRecovery (wr_store wr) w (recoveredCount wr) (lastRecoveredPos wr) in
      match r with
      | Err EOF => Ret (wr, None)
      | Err e => Ret (wr, Some (RecWal e))
      | Ok (value, pos) =>
          record ← GetRootAsLogRecord value;
          '(wr, e) ← handleRecord fuel record wr;
          let wr := mkRecovery (wr_store wr) (wr_wal wr) (recoveredCount wr) (Some pos) in
          match e with
          | Some _ => Ret (wr, e)
          | None => recover_loop steps fuel rd wr
          end
      end
  end.

Definition checkpoint_offset (checkPoint : bytes) : outcome RecordPosition :=
  if blen checkPoint =? 0 then Ret NilRecordPosition else
  m ← UnmarshalMetadata checkPoint;
  match Pos m with Some p => Ret p | None => Panic end.

Definition recoverWAL (steps fuel : nat) (checkPoint : bytes) (wr : walRecovery) : outcome (walRecovery * option recovery_error) :=
  offset ← checkpoint_offset checkPoint;
  r ← wl_NewReaderWithStart (wr_wal wr) offset;
  match r with
  | Err e => Ret (wr, Some (RecWal e))
  | Ok rd =>
      if blen checkPoint =? 0 then recover_loop steps fuel rd wr else
      '(w, rd, r) ← wl_Next (wr_wal wr) rd;
      let wr := mkRecovery (wr_store wr) w (recoveredCount wr) (lastRecoveredPos wr) in
      match r with
      | Err EOF | Ok _ => recover_loop steps fuel rd wr
      | Err e => Ret (wr, Some (RecWal e))
      end
  end.

Definition NewWalRecovery (d : D) (w : W) : walRecovery := mkRecovery d w 0 None.

(** ** Opening an engine *)

Notation Engine := (Engine L F W D).

Definition recovery_result (e : recovery_error) : engine_error :=
  match e with RecStore e => EStore e | RecTxn e => ETxn e | RecWal e => EWal e end.

Definition loadMetaValues (e : Engine) : outcome (Engine * option engine_error) :=
  r ← ds_RetrieveMetadata (dataStore e) SysKeyWalCheckPoint;
  match r with
  | Err ErrKeyNotFound => Ret (e, None)
  | Err err => Ret (e, Some (EStore err))
  | Ok data =>
      metadata ← UnmarshalMetadata data;
      Ret (mkEngine (RecordProcessed metadata) (RecordProcessed metadata) (currentOffset e) (dataStore e) (walIO e)
             (activeMemTable e) (sealedMemTables e) (pendingMetadata e) (flushReqSignal e) (fsyncReqSignal e) (notifier e)
             (changes e) metadata (recoveredEntriesCount e) (ArenaSize e) (readOnly e) (shutdown e) (flushPaused e)
             (btreeFlushIntervalEnabled e), None)
  end.

(** [recoverWAL] of the engine, once the checkpoint has been read; a full signal
    channel panics. *)
Definition recover_from (steps fuel : nat) (e : Engine) (checkpoint : bytes) : outcome (Engine * option engine_error) :=
  '(wr, err) ← recoverWAL steps fuel checkpoint (NewWalRecovery (dataStore e) (walIO e));
  let e := with_store (wr_store wr) (with_wal (wr_wal wr) e) in
  match err with
  | Some err => Ret (e, Some (recovery_result err))
  | None =>
      let n := recoveredCount wr in
      let flushed := u64 (opsFlushedCounter e + n) in
      let e := with_recovered n (with_pending flushed (pendingMetadata e) (with_counter (u64 (writeSeenCounter e + n)) e)) in
      offset ← (if blen checkpoint =? 0 then Ret None else m ← UnmarshalMetadata checkpoint; Ret (Pos m));
      let offset := match lastRecoveredPos wr with Some p => Some p | None => offset end in
      let e := with_offset offset (notifier e) e in
      if 0 <? n then
        let fm := mkFlushed (mkMetadata flushed (lastRecoveredPos wr)) n 0 in
        let e := with_pending flushed (pendingMetadata e ++ [fm]) e in
        if fsyncReqSignal e <? 1 then Ret (with_signals (flushReqSignal e) (fsyncReqSignal e + 1) e, None) else Panic
      else Ret (e, None)
  end.

Definition recover_engine (steps fuel : nat) (e : Engine) : outcome (Engine * option engine_error) :=
  r ← ds_RetrieveMetadata (dataStore e) SysKeyWalCheckPoint;
  match r with
  | Ok checkpoint => recover_from steps fuel e checkpoint
  | Err ErrKeyNotFound => recover_from steps fuel e []
  | Err err => Ret (e, Some (EStore err))
  end.

Inductive DBEngine := BoltDBEngine | LMDBEngine | OtherEngine.

Record EngineConfig := mkConfig {
  cf_ArenaSize : Z; cf_ReadOnly : bool; cf_BTreeFlushInterval : Z; cf_coalescing : bool; cf_DBEngine : DBEngine
}.

(** The answers of the file system, of the lock file ([None] is an error), of the
    log and of the drivers. *)
Record OpenIO := mkOpenIO {
  io_backupDir : bool; io_nsDir : bool; io_walDir : bool; io_lock : option bool;
  io_NewWalIO : result error W; io_NewBoltdb : result kv_error D; io_NewLmdb : result kv_error D
}.

Definition tryFileLock (locked : option bool) : option engine_error :=
  match locked with None => Some ErrLock | Some false => Some ErrDatabaseDirInUse | Some true => None end.

Definition initKVDriver (conf : EngineConfig) (io : OpenIO) : result engine_error D :=
  match cf_DBEngine conf with
  | BoltDBEngine => store_result (io_NewBoltdb io)
  | LMDBEngine => store_result (io_NewLmdb io)
  | OtherEngine => Err ErrUnsupportedEngine
  end.

Definition initStorage (conf : EngineConfig) (io : OpenIO) : result engine_error Engine :=
  if negb (io_nsDir io) then Err ErrMkdir else
  if negb (io_walDir io) then Err ErrMkdir else
  match tryFileLock (io_lock io) with
  | Some err => Err err
  | None =>
      match io_NewWalIO io with
      | Err err => Err (EWal err)
      | Ok w =>
          match initKVDriver conf io with
          | Err err => Err err
          | Ok d =>
              if cf_ArenaSize conf <? minArenaSize then Err ErrArenaTooSmall else
              Ok (mkEngine 0 0 None d w (NewMemTable (cf_ArenaSize conf)) [] [] 0 0 (mkNotifier (cf_coalescing conf) false None [] 0 0) []
                    (mkMetadata 0 None) 0 (cf_ArenaSize conf) (cf_ReadOnly conf) false false (effectiveBTreeFlushInterval (cf_BTreeFlushInterval conf)).2)
          end
      end
  end.

(** [engine.appendNotify = make(chan struct{})] *)
Definition make_notify (e : Engine) : Engine :=
  let n := notifier e in
  with_offset (currentOffset e) (mkNotifier (coalescing n) (coalesceFlag n) (Some (fresh n)) (closed n) (S (fresh n)) (sleeping n)) e.

(** The background tasks that are started before the metadata is loaded have
    nothing to do yet. *)
Definition NewStorageEngine (steps fuel : nat) (conf : EngineConfig) (io : OpenIO) : outcome (result engine_error Engine) :=
  if negb (io_backupDir io) then Ret (Err ErrMkdir) else
  match initStorage conf io with
  | Err err => Ret (Err err)
  | Ok e =>
      '(e, err) ← loadMetaValues e;
      match err with
      | Some err => Ret (Err err)
      | None =>
          '(e, err) ← recover_engine steps fuel e;
          match err with
          | Some err => Ret (Err err)
          | None => Ret (Ok (make_notify e))
          end
      end
  end.

(** The segments that the cleanup of the log may delete. *)
Definition delPredicate (e : Engine) (segID : Z) : outcome bool :=
  match currentOffset e with Some currOff => Ret (segID <? SegmentID currOff) | None => Panic end.
End recovery.
Arguments walRecovery W D : clear implicits.
Arguments OpenIO W D : clear implicits.
