(* ===== verification/Replica.v ===== *)
(** Applying the log of a leader: dbkernel/replica.go.

    A replica appends the records it receives to its own log, which must give
    them the position they have in the leader's, and writes their entries to
    its memory table. *)

From stdpp Require Import prelude list numbers gmap.
From Stdlib Require Import ZArith Lia.
From S2P Require Import Prelude Bytes Segment KeyCodec KVStore KVSpec KVQueue BTree LogCodec WalIO MemTable Notify Engine Recovery.

Section replica.
Context {L F W R D : Type} `{SkipList L} `{BloomFilter F} `{WalLog W R} `{BTreeStore D} `{FlatBuffers}.
Notation Engine := (Engine L F W D).

Definition isEqualOffset (local remote : RecordPosition) : bool :=
  (SegmentID local =? SegmentID remote) && (Offset local =? Offset remote).

(** What an entry puts into the memory table. *)
Definition kv_entry_put (op : Z) (entry : bytes) : outcome (bytes * ValueStruct) :=
  kvEntry ← DeserializeKVEntry entry;
  Ret (kv_Key kvEntry, getValueStruct op EntryTypeKV (kv_Value kvEntry)).

Definition row_entry_put (op : Z) (entry : bytes) : outcome (bytes * ValueStruct) :=
  rowEntry ← GetRootAsRowUpdateEntry entry;
  Ret (vector (fb_row_key rowEntry), getValueStruct op EntryTypeRow entry).

Definition row_txn_put (op : Z) (entry : bytes) : outcome (bytes * ValueStruct) :=
  rowEntry ← DeserializeRowUpdateEntry entry;
  Ret (row_Key rowEntry, getValueStruct op EntryTypeRow entry).

Fixpoint entry_writes (decode : bytes -> outcome (bytes * ValueStruct)) (after : Engine -> Engine) (now : nat -> Z) (e : Engine) (entries : list bytes)
  : outcome (Engine * option engine_error) :=
  match entries with
  | [] => Ret (e, None)
  | entry :: rest =>
      '(key, memValue) ← decode entry;
      '(e, err) ← memTableWrite (now 0%nat) e key memValue;
      match err with
      | Some _ => Ret (e, err)
      | None => entry_writes decode after (fun n => now (S n)) (after e) rest
      end
  end.

(** The entries, then the offset of the record. *)
Definition apply_entries (decode : bytes -> outcome (bytes * ValueStruct)) (after : Engine -> Engine) (now : nat -> Z) (entries : list bytes)
    (offset : RecordPosition) (e : Engine) : outcome (Engine * option engine_error) :=
  '(e, err) ← entry_writes decode after now e entries;
  match err with
  | Some _ => Ret (e, err)
  | None => e ← writeOffset (Some offset) e; Ret (e, None)
  end.

Definition handleInsert (now : nat -> Z) (record : fb_log) (offset : RecordPosition) (e : Engine) : outcome (Engine * option engine_error) :=
  let entries := Entries (DeserializeFBRootLogRecord record) in
  if fb_entry_type record =? LogEntryTypeKV then apply_entries (kv_entry_put LogOperationInsert) (fun e => e) now entries offset e
  else if fb_entry_type record =? LogEntryTypeRow then apply_entries (row_entry_put LogOperationInsert) (fun e => e) now entries offset e
  else Ret (e, None).

Definition handleDelete (now : nat -> Z) (record : fb_log) (offset : RecordPosition) (e : Engine) : outcome (Engine * option engine_error) :=
  let entries := Entries (DeserializeFBRootLogRecord record) in
  if fb_entry_type record =? LogEntryTypeKV then apply_entries (kv_entry_put LogOperationDelete) (fun e => e) now entries offset e
  else if fb_entry_type record =? LogEntryTypeRow then apply_entries (row_entry_put LogOperationDelete) (fun e => e) now entries offset e
  else Ret (e, None).

Definition handleDeleteRowByKey (now : nat -> Z) (record : fb_log) (offset : RecordPosition) (e : Engine) : outcome (Engine * option engine_error) :=
  apply_entries (row_entry_put LogOperationDeleteRowByKey) (fun e => e) now (Entries (DeserializeFBRootLogRecord record)) offset e.

Definition handleKVValuesTxn (fuel : nat) (now : nat -> Z) (record : fb_log) (offset : RecordPosition) (e : Engine)
  : outcome (Engine * option engine_error) :=
  r ← txn_records fuel record (walIO e);
  match r with
  | Err err => Ret (e, Some (ETxn err))
  | Ok (_, preparedRecords) =>
      let e := writeNilOffset e in
      apply_entries (kv_entry_put (fb_operation_type record)) writeNilOffset now (all_entries preparedRecords) offset e
  end.

(** [writeOffset(nil)] at its start changes nothing. *)
Definition handleRowColumnTxn (fuel : nat) (now : nat -> Z) (record : fb_log) (offset : RecordPosition) (e : Engine)
  : outcome (Engine * option engine_error) :=
  r ← txn_records fuel record (walIO e);
  match r with
  | Err err => Ret (e, Some (ETxn err))
  | Ok (_, preparedRecords) =>
      e ← writeOffset None e;
      apply_entries (row_txn_put (fb_operation_type record)) writeNilOffset now (all_entries preparedRecords) offset e
  end.

Definition handleChunkedValuesTxn (now : nat -> Z) (record : fb_log) (offset : RecordPosition) (e : Engine) : outcome (Engine * option engine_error) :=
  kvEntry ← first_entry record;
  '(e, err) ← memTableWrite (now 0%nat) e (kv_Key kvEntry) (getValueStruct LogOperationTypeInsert LogEntryTypeChunked (Encode offset));
  match err with
  | Some _ => Ret (e, err)
  | None => e ← writeOffset (Some offset) e; Ret (e, None)
  end.

Definition handleTxnCommited (fuel : nat) (now : nat -> Z) (record : fb_log) (offset : RecordPosition) (e : Engine)
  : outcome (Engine * option engine_error) :=
  if fb_entry_type record =? LogEntryTypeKV then handleKVValuesTxn fuel now record offset e
  else if fb_entry_type record =? LogEntryTypeChunked then handleChunkedValuesTxn now record offset e
  else if fb_entry_type record =? LogEntryTypeRow then handleRowColumnTxn fuel now record offset e
  else Ret (e, None).

Definition handleRecord (fuel : nat) (now : nat -> Z) (record : fb_log) (offset : RecordPosition) (e : Engine)
  : outcome (Engine * option engine_error) :=
  if fb_txn_state record =? TransactionStateNone then
    if fb_operation_type record =? LogOperationTypeInsert then handleInsert now record offset e
    else if fb_operation_type record =? LogOperationTypeDelete then handleDelete now record offset e
    else if fb_operation_type record =? LogOperationTypeDeleteRowByKey then handleDeleteRowByKey now record offset e
    else Ret (e, None)
  else if fb_txn_state record =? TransactionStateCommit then handleTxnCommited fuel now record offset e
  else Ret (e, None).

(** The measured latency is only a metric. *)
Definition ApplyRecord (fuel : nat) (now : nat -> Z) (e : Engine) (encodedWal : bytes) (receivedOffset : RecordPosition)
  : outcome (Engine * option engine_error) :=
  if Offset receivedOffset =? 0 then Ret (e, Some ErrInvalidOffset) else
  let lsn := nextLSN e in
  decoded ← GetRootAsLogRecord encodedWal;
  if negb (lsn =? fb_lsn decoded) then Ret (e, Some ErrInvalidLSN) else
  let e := with_counter (nextLSN e) e in
  '(e, r) ← append_record e encodedWal;
  match r with
  | Err err => Ret (e, Some (EWal err))
  | Ok offset =>
      if negb (isEqualOffset offset receivedOffset) then Ret (e, Some ErrInvalidOffset) else
      handleRecord fuel now decoded offset e
  end.

(** The checks before the batch is appended. *)
Fixpoint decode_records (expectedLSN : Z) (encodedWals : list bytes) (receivedOffsets : list RecordPosition)
  : outcome (result engine_error (list fb_log)) :=
  match encodedWals, receivedOffsets with
  | encodedWal :: wals, off :: offs =>
      if Offset off =? 0 then Ret (Err ErrInvalidOffset) else
      decoded ← GetRootAsLogRecord encodedWal;
      if negb (u64 expectedLSN =? fb_lsn decoded) then Ret (Err ErrInvalidLSN) else
      r ← decode_records (expectedLSN + 1) wals offs;
      Ret (match r with Ok rest => Ok (decoded :: rest) | Err e => Err e end)
  | _, _ => Ret (Ok [])
  end.

Fixpoint apply_decoded (fuel : nat) (now : nat -> nat -> Z) (rs : list (fb_log * RecordPosition)) (e : Engine)
  : outcome (Engine * option engine_error) :=
  match rs with
  | [] => Ret (e, None)
  | (decoded, offset) :: rest =>
      '(e, err) ← handleRecord fuel (now 0%nat) decoded offset e;
      match err with
      | Some _ => Ret (e, err)
      | None => apply_decoded fuel (fun n => now (S n)) rest e
      end
  end.

Definition ApplyRecords (fuel : nat) (now : nat -> nat -> Z) (e : Engine) (encodedWals : list bytes) (receivedOffsets : list RecordPosition)
  : outcome (Engine * option engine_error) :=
  if blen encodedWals =? 0 then Ret (e, None) else
  if negb (blen encodedWals =? blen receivedOffsets) then Ret (e, Some ErrRecordsMismatch) else
  r ← decode_records (writeSeenCounter e + 1) encodedWals receivedOffsets;
  match r with
  | Err err => Ret (e, Some err)
  | Ok decodedRecords =>
      '(w, r) ← wl_BatchAppend (walIO e) encodedWals;
      let e := with_wal w e in
      match r with
      | Err err => Ret (e, Some (EWal err))
      | Ok offsets =>
          if negb (forallb (fun '(l, r) => isEqualOffset l r) (zip offsets receivedOffsets)) then Ret (e, Some ErrInvalidOffset) else
          let e := with_counter (u64 (writeSeenCounter e + blen encodedWals)) e in
          apply_decoded fuel now (zip decodedRecords offsets) e
      end
  end.
End replica.
