(* ===== verification/Relayer.v ===== *)
(** The relayer of a follower: internal/services/relayer/{relayer,retry,local}.go.

    [walIOHandler] gives the batches of a stream to the replica of [Replica];
    [RateLimitedWalIO] waits for a token per record first.  [Relayer] runs one
    client of [StreamClient] at a time, [RunLoop] runs it again after a failure,
    and [LocalWalRelayer] counts the records of a replicator in the same
    process.  The limiter and the values of the backoff come from other
    libraries.  Metrics and log lines are left out. *)

From stdpp Require Import prelude list numbers gmap.
From Stdlib Require Import ZArith Lia String.
From S2P Require Import Prelude Bytes Segment WalIO LogCodec MemTable BTree GrpcUtils Replicator StreamClient Engine Replica.

(** ** Writing to the replica *)

Section wal_io.
Context {L F W R D : Type} `{SkipList L} `{BloomFilter F} `{WalLog W R} `{BTreeStore D} `{FlatBuffers}.
Notation Engine := (Engine L F W D).

Definition walIOHandler_Write (fuel : nat) (now : nat -> Z) (e : Engine) (data : WALRecord) : outcome (Engine * option engine_error) :=
  ApplyRecord fuel now e (wr_Record data) (record_offset data).

Definition walIOHandler_WriteBatch (fuel : nat) (now : nat -> nat -> Z) (e : Engine) (records : list WALRecord) : outcome (Engine * option engine_error) :=
  match records with
  | [] => Ret (e, None)
  | _ => ApplyRecords fuel now e (wr_Record <$> records) (record_offset <$> records)
  end.

(** The replica as the log of a client; [clock] gives the times of each call. *)
Record Follower := mkFollower { fo_engine : Engine; clock : nat -> nat -> nat -> Z }.

Definition follower_sink (fuel : nat) : WalSink Follower engine_error := {|
  sk_WriteBatch f records :=
    '(e, err) ← walIOHandler_WriteBatch fuel (clock f 0%nat) (fo_engine f) records;
    Ret (mkFollower e (fun n => clock f (S n)), err)
|}.
End wal_io.
Arguments mkFollower {L F W D}.
Arguments fo_engine {L F W D}.
Arguments clock {L F W D}.

(** ** The rate limiter *)

(** golang.org/x/time/rate: [WaitN] takes [n] tokens, or fails. *)
Class RateLimiter (T : Type) := { rt_WaitN : T -> Z -> T * bool; rt_Burst : T -> Z }.

(** A request for more tokens than the burst fails. *)
Class RateLimiterLaws (T : Type) `{RateLimiter T} := {
  rt_burst_fixed t n : rt_Burst (fst (rt_WaitN t n)) = rt_Burst t;
  rt_over_burst t n : rt_Burst t < n -> snd (rt_WaitN t n) = false
}.

Inductive limited_error (X : Type) := RateLimitExceeded | Underlying (x : X).
Arguments RateLimitExceeded {X}.
Arguments Underlying {X}.

Section limited.
Context {T K X : Type} `{RateLimiter T} `{WalSink K X}.

Definition wrap (err : option X) : option (limited_error X) := Underlying <$> err.

Definition RateLimitedWalIO_WriteBatch (r : T * K) (records : list WALRecord) : outcome (T * K * option (limited_error X)) :=
  match records with
  | [] => Ret (r, None)
  | _ =>
      let '(t, ok) := rt_WaitN (fst r) (blen records) in
      if negb ok then Ret (t, snd r, Some RateLimitExceeded) else
      '(k, err) ← sk_WriteBatch (snd r) records;
      Ret (t, k, wrap err)
  end.

Definition RateLimitedWalIO_Write (write : K -> WALRecord -> outcome (K * option X)) (r : T * K) (data : WALRecord)
  : outcome (T * K * option (limited_error X)) :=
  let '(t, ok) := rt_WaitN (fst r) 1 in
  if negb ok then Ret (t, snd r, Some RateLimitExceeded) else
  '(k, err) ← write (snd r) data;
  Ret (t, k, wrap err).

Definition limited_sink : WalSink (T * K) (limited_error X) := {| sk_WriteBatch := RateLimitedWalIO_WriteBatch |}.
End limited.

(** ** The relayer *)

Inductive relay_error (X : Type) :=
| RelayAlreadyRunning | ErrSegmentLagThresholdExceeded (threshold : Z) | RelayStatus (s : status) | RelayClient (e : client_error X).
Arguments RelayAlreadyRunning {X}.
Arguments ErrSegmentLagThresholdExceeded {X}.
Arguments RelayStatus {X}.
Arguments RelayClient {X}.

Section relayer.
Context {X : Type}.

Record Relayer := mkRelayer {
  rl_namespace : bytes; rl_client : Client X; segmentLagThreshold : Z;
  started : bool; startSegmentID : Z; startOffset : option RecordPosition; rateLimited : bool
}.

Definition segment_of (o : option RecordPosition) : Z := match o with Some p => SegmentID p | None => 0 end.

Definition encode_offset (o : option RecordPosition) : bytes := match o with Some p => Encode p | None => [] end.

(** [currentOffset] is the one of the engine. *)
Definition NewRelayer (currentOffset : option RecordPosition) (namespace : bytes) (threshold : Z) : outcome Relayer :=
  client ← NewGrpcStreamerClient (encode_offset currentOffset);
  Ret (mkRelayer namespace client threshold false (segment_of currentOffset) currentOffset false).

Definition EnableRateLimitedWalIO (walIO : bool) (r : Relayer) : outcome Relayer :=
  if negb walIO then Ret r
  else if started r then Panic
  else
    client ← NewGrpcStreamerClient (encode_offset (startOffset r));
    Ret (mkRelayer (rl_namespace r) client (segmentLagThreshold r) (started r) (startSegmentID r) (startOffset r) true).

Definition with_relay (running : bool) (c : Client X) (r : Relayer) : Relayer :=
  mkRelayer (rl_namespace r) c (segmentLagThreshold r) running (startSegmentID r) (startOffset r) (rateLimited r).

(** [StartRelay] up to the call of [StreamWAL]: an error, or the client runs.
    [remote] is the answer of the leader to [GetLatestOffset]. *)
Definition StartRelay (remote : result status (option RecordPosition)) (r : Relayer) : Relayer * option (relay_error X) :=
  if started r then (r, Some RelayAlreadyRunning) else
  match remote with
  | Err s => (r, Some (RelayStatus s))
  | Ok remoteOffset =>
      let lag := match remoteOffset with Some p => segmentLagThreshold r <? SegmentID p - startSegmentID r | None => false end in
      if lag then (r, Some (ErrSegmentLagThresholdExceeded (segmentLagThreshold r)))
      else (with_relay true (default (rl_client r) (StreamWAL (rl_client r))) r, None)
  end.

(** [StreamWAL] has returned: the deferred calls run. *)
Definition StartRelay_return (r : Relayer) : option (Relayer * relay_error X) :=
  match c_pc (rl_client r) with
  | KReturned e => if started r then Some (with_relay false (rl_client r) r, RelayClient e) else None
  | _ => None
  end.

Definition reAssignIfNil (offset : option RecordPosition) : RecordPosition := default NilRecordPosition offset.

(** [monitor]: the value of the gauge, and whether a warning is logged. *)
Definition monitor (currentOffset : option RecordPosition) (remote : result status (option RecordPosition)) (r : Relayer) : option (Z * bool) :=
  match remote with
  | Ok (Some p) =>
      let segmentLag := SegmentID p - segment_of currentOffset in
      Some (segmentLag, segmentLagThreshold r <? segmentLag)
  | _ => None
  end.
End relayer.
Arguments Relayer : clear implicits.

(** ** The retry loop *)

Inductive ErrorKind := Transient | Permanent.

(** An error with a status, or with a text only. *)
Inductive go_error := GStatus (s : status) | GText (t : bytes).

Definition DefaultClassifier (err : option go_error) : ErrorKind :=
  match err with
  | None => Transient
  | Some (GStatus s) => match Code s with Unavailable | ResourceExhausted | DeadlineExceeded => Transient | _ => Permanent end
  | Some (GText t) => if Contains t (str "invalid") || Contains t (str "denied") then Permanent else Transient
  end.

(** What the outside world answers in one turn of the loop: the context at its
    head, the limiter, the result and duration of [Run], the context after it,
    the next value of the backoff and the context while waiting. *)
Record turn := mkTurn {
  t_done : bool; t_limiter : bool; t_run : option go_error; t_duration : Z; t_done_after : bool; t_wait : Z; t_done_waiting : bool
}.

Inductive loop_event := Ran (err : option go_error) | Waited (d : Z) | BackoffReset | OnPermanentErr (err : go_error).

(** The events of the loop, and whether it has returned. *)
Fixpoint RunLoop (classify : option go_error -> ErrorKind) (turns : list turn) : list loop_event * bool :=
  match turns with
  | [] => ([], false)
  | t :: turns =>
      if t_done t then ([], true)
      else if negb (t_limiter t) then ([], true)
      else
        match t_run t with
        | None => ([Ran None], true)
        | Some err =>
            if t_done_after t then ([Ran (Some err)], true) else
            match classify (Some err) with
            | Permanent => ([Ran (Some err); OnPermanentErr err], true)
            | Transient =>
                if t_wait t <? t_duration t then
                  let '(events, over) := RunLoop classify turns in (Ran (Some err) :: BackoffReset :: events, over)
                else if t_done_waiting t then ([Ran (Some err)], true)
                else let '(events, over) := RunLoop classify turns in (Ran (Some err) :: Waited (t_wait t) :: events, over)
            end
        end
  end.

(** ** The relayer in the same process *)

Section local.
Context `{FlatBuffers}.

Record LocalWalRelayer := mkLocal { lr_lastOffset : option RecordPosition; replicatedCount : Z; lr_lsn : Z }.

Definition NewLocalWalRelayer : LocalWalRelayer := mkLocal None 0 0.

(** The numbers of the records follow each other. *)
Fixpoint check_lsns (lsn : Z) (p : Pool) (records : slice) : outcome Z :=
  match records with
  | [] => Ret lsn
  | None :: _ => Panic
  | Some r :: rest =>
      fbRecord ← GetRootAsLogRecord (wr_Record (default nilRecord (cells p !! r)));
      if negb (fb_lsn fbRecord =? u64 (lsn + 1)) then Panic
      else check_lsns (u64 (lsn + 1)) p rest
  end.

(** A batch comes from the channel; [histOk] is the answer of the histogram. *)
Definition local_receive (histOk : bool) (records : slice) (p : Pool) (n : LocalWalRelayer) : outcome (Pool * LocalWalRelayer * bool) :=
  match list.last records with
  | None => Ret (p, n, true)
  | Some None => Ret (fst (ReleaseRecords records p), n, true)
  | Some (Some i) =>
      let lastRecord := default nilRecord (cells p !! i) in
      match wr_Record lastRecord with
      | [] => Ret (fst (ReleaseRecords records p), n, true)
      | data =>
          _ ← GetRootAsLogRecord data;
          if negb histOk then Ret (fst (ReleaseRecords records p), n, false) else
          lsn ← check_lsns (lr_lsn n) p records;
          Ret (fst (ReleaseRecords records p), mkLocal (Some (record_offset lastRecord)) (replicatedCount n + blen records) lsn, true)
      end
  end.

(** What the relayer's select takes next: the end of the context, a batch, the
    end of the replicator, of which a cancelled context and the end of the log
    are expected, or a tick; [current] is the engine's offset then. *)
Inductive local_event :=
| LocalDone (current : option RecordPosition)
| LocalBatch (histOk : bool) (records : slice)
| LocalEnded (expected : bool)
| LocalTick (current : option RecordPosition).

(** The lag is only logged, but the offsets are dereferenced. *)
Definition segment_lag (current : option RecordPosition) (n : LocalWalRelayer) : outcome unit :=
  match lr_lastOffset n, current with Some _, None => Panic | _, _ => Ret tt end.

(** The last component says whether the loop goes on. *)
Definition local_step (ev : local_event) (p : Pool) (n : LocalWalRelayer) : outcome (Pool * LocalWalRelayer * bool) :=
  match ev with
  | LocalDone current => _ ← segment_lag current n; Ret (p, n, false)
  | LocalBatch histOk records => local_receive histOk records p n
  | LocalEnded expected => if expected then Ret (p, n, false) else Panic
  | LocalTick current => _ ← segment_lag current n; Ret (p, n, true)
  end.

Fixpoint LocalWalRelayer_Run (evs : list local_event) (p : Pool) (n : LocalWalRelayer) : outcome (Pool * LocalWalRelayer * bool) :=
  match evs with
  | [] => Ret (p, n, true)
  | ev :: evs => '(p, n, goes_on) ← local_step ev p n; if goes_on : bool then LocalWalRelayer_Run evs p n else Ret (p, n, false)
  end.
End local.
