(* ===== verification/RelayerLoop.v ===== *)
(** Around the follower's client: the rate limiter, the start of a relay, the
    retry loop and the relayer in the same process. *)

From stdpp Require Import prelude list numbers gmap sorting.
From Stdlib Require Import ZArith Lia.
From S2P Require Import Prelude Bytes Segment WalIO LogCodec MemTable BTree GrpcUtils Replicator ReplicatorFacts StreamClient Engine Replica Replication Relayer.
Import Stdlib.Strings.String.StringSyntax.

(** ** The rate limiter *)

Section limited.
Context {T K X : Type} `{RateLimiterLaws T} `{!WalSink K X}.

(** A batch larger than the burst never reaches the log: the call fails and the
    next one fails in the same way. *)
Lemma oversized_batch_never_written (t : T) (k : K) records : records <> [] -> rt_Burst t < blen records ->
  exists t', RateLimitedWalIO_WriteBatch (t, k) records = Ret (t', k, Some RateLimitExceeded) /\ rt_Burst t' = rt_Burst t.
Proof.
  intros Hne Hb. pose proof (rt_over_burst t (blen records) Hb) as Hf. pose proof (rt_burst_fixed t (blen records)) as Hb2.
  exists (fst (rt_WaitN t (blen records))). split; [|done]. unfold RateLimitedWalIO_WriteBatch. destruct records as [|r records]; [done|]. cbn [fst snd].
  destruct (rt_WaitN t (blen (r :: records))) as [t2 ok]. cbn in Hf. by subst ok.
Qed.

(** Otherwise it is the batch of the log behind it, once the tokens are there. *)
Lemma limited_batch_written (t t' : T) (k : K) records : records <> [] -> rt_WaitN t (blen records) = (t', true) ->
  RateLimitedWalIO_WriteBatch (t, k) records = ('(k, err) ← sk_WriteBatch k records; Ret (t', k, wrap err)).
Proof. intros Hne Hw. unfold RateLimitedWalIO_WriteBatch. destruct records as [|r records]; [done|]. cbn [fst snd]. by rewrite Hw. Qed.
End limited.

(** ** The start of a relay *)

Section start.
Context {X : Type}.
Notation Relayer := (Relayer X).

(** One relay at a time. *)
Lemma StartRelay_running remote (r : Relayer) : started r = true -> StartRelay remote r = (r, Some RelayAlreadyRunning).
Proof. intros Hs. unfold StartRelay. by rewrite Hs. Qed.

(** The lag is measured from the segment of the engine when the relayer was made,
    not from where the client is: [c] is any client. *)
Lemma StartRelay_lag (c : Client X) p (r : Relayer) :
  snd (StartRelay (Ok (Some p)) (with_relay false c r)) =
    (if segmentLagThreshold r <? SegmentID p - startSegmentID r then Some (ErrSegmentLagThresholdExceeded (segmentLagThreshold r)) else None).
Proof. unfold StartRelay. cbn. by destruct (_ <? _). Qed.

(** A relay that returns can be started again, from the offset of its client. *)
Lemma StartRelay_again (r r' : Relayer) e : StartRelay_return r = Some (r', e) ->
  started r' = false /\ exists r2, StartRelay (Ok None) r' = (r2, None) /\ started r2 = true /\ c_pc (rl_client r2) = KTop /\ c_offset (rl_client r2) = c_offset (rl_client r).
Proof.
  unfold StartRelay_return. destruct (c_pc (rl_client r)) eqn:E; try done. destruct (started r); [|done]. intros [= <- <-]. split; [done|].
  eexists. split; [done|]. cbn. unfold StreamWAL. by rewrite E.
Qed.
End start.

(** A follower that started with an empty log and has caught up with segment 5 of
    its leader is refused, and tries again for ever. *)
Lemma caught_up_relayer_refused : exists r r2 : Relayer unit, NewRelayer None (str "default") 2 = Ret r /\
  StartRelay (Ok None) r = (r2, None) /\
  let done_ := with_relay false (mkClient (Some (mkPos 5 640)) 0 initialBackoff None [] false None false (KReturned ClientMaxRetries)) r2 in
  snd (StartRelay (Ok (Some (mkPos 5 640))) done_) = Some (ErrSegmentLagThresholdExceeded 2) /\
  monitor (Some (mkPos 5 640)) (Ok (Some (mkPos 5 640))) done_ = Some (0, false) /\
  DefaultClassifier (Some (GText (str "segment lag threshold exceeded 2"))) = Transient.
Proof. by eexists _, _. Qed.

(** The error of a replica whose log has other positions is tried again, that of
    a record out of order is not. *)
Lemma position_error_is_transient :
  DefaultClassifier (Some (GText (str "appendLog: offset does not match record"))) = Transient /\
  DefaultClassifier (Some (GText (str "invalid LSN"))) = Permanent.
Proof. done. Qed.

(** ** The retry loop *)

(** A turn after which the loop goes on. *)
Definition retries (classify : option go_error -> ErrorKind) (t : turn) : bool :=
  negb (t_done t) && t_limiter t && negb (t_done_after t) &&
  match t_run t with
  | Some err => match classify (Some err) with Transient => (t_wait t <? t_duration t) || negb (t_done_waiting t) | Permanent => false end
  | None => false
  end.

Definition ran (e : loop_event) : option (option go_error) := match e with Ran err => Some err | _ => None end.

Definition runs (t : turn) : bool := negb (t_done t) && t_limiter t.

(** The loop runs until the first turn that is not a failure to be retried, and
    not once more; every run has its token of the limiter. *)
Lemma RunLoop_spec classify turns : forall rest,
  Forall (fun t => retries classify t = true) turns ->
  let '(events, over) := RunLoop classify (turns ++ rest) in
  match rest with
  | [] => over = false /\ omap ran events = t_run <$> turns
  | t :: _ => retries classify t = false -> over = true /\ omap ran events = (t_run <$> turns) ++ (if runs t then [t_run t] else [])
  end.
Proof.
  intros rest Hall. induction Hall as [|t turns Ht _ IH]; cbn [app RunLoop].
  - destruct rest as [|t rest]; [done|]. cbn [RunLoop]. unfold retries, runs. destruct (t_done t); [done|]. destruct (t_limiter t); [|done]. cbn [negb andb].
    destruct (t_run t) as [err|]; [|done]. destruct (t_done_after t); [done|]. destruct (classify (Some err)); [|done]. cbn [negb andb].
    destruct (t_wait t <? t_duration t); cbn [orb]; [by destruct (RunLoop classify rest)|]. destruct (t_done_waiting t); [done|]. by destruct (RunLoop classify rest).
  - unfold retries in Ht. destruct (t_done t); [done|]. destruct (t_limiter t); [|done]. destruct (t_done_after t); [done|]. cbn [negb andb] in Ht.
    destruct (t_run t) as [err|] eqn:E; [|done]. destruct (classify (Some err)); [|done]. cbn [negb].
    assert (forall ev, ran ev = None -> let '(events, over) := (let '(events, over) := RunLoop classify (turns ++ rest) in (Ran (Some err) :: ev :: events, over)) in
      match rest with
      | [] => over = false /\ omap ran events = Some err :: (t_run <$> turns)
      | t0 :: _ => retries classify t0 = false -> over = true /\ omap ran events = Some err :: (t_run <$> turns) ++ (if runs t0 then [t_run t0] else [])
      end) as Hgo.
    { intros ev Hev. destruct (RunLoop classify (turns ++ rest)) as [events over]. cbn [omap list_omap ran]. rewrite Hev.
      destruct rest; [destruct IH as [-> IH]; split; [done|]; f_equal; exact IH|]. intros Hr. destruct (IH Hr) as [-> IH']. split; [done|]. f_equal. exact IH'. }
    rewrite fmap_cons, E. destruct (t_wait t <? t_duration t); [by apply (Hgo BackoffReset)|]. destruct (t_done_waiting t); [done|]. by apply (Hgo (Waited (t_wait t))).
Qed.

(** ** The relayer in the same process *)

Section local.
Context `{FlatBuffers}.

(** Records whose numbers follow [lsn]. *)
Fixpoint numbered (lsn : Z) (X : wal_log) : Prop :=
  match X with
  | [] => True
  | (d, _) :: X => (exists r, GetRootAsLogRecord d = Ret r /\ fb_lsn r = u64 (lsn + 1)) /\ numbered (u64 (lsn + 1)) X
  end.

Definition numbered_to (lsn : Z) (X : wal_log) : Z := foldl (fun n _ => u64 (n + 1)) lsn X.

Lemma check_lsns_spec p b X : holds p b X -> forall lsn, numbered lsn X -> check_lsns lsn p b = Ret (numbered_to lsn X).
Proof.
  induction 1 as [|slot [d q] b X (i & -> & Hi) _ IH]; intros lsn Hn; [done|]. destruct Hn as [(r & Hr & Hl) Hn]. cbn [check_lsns]. rewrite Hi.
  change (wr_Record (default nilRecord (Some (wire_of (d, q))))) with d. rewrite Hr. cbn [mbind outcome_bind]. rewrite Hl, Z.eqb_refl. cbn [negb]. by apply IH.
Qed.

(** A batch of the log in order is counted, and its records go back to the pool. *)
Lemma local_receive_spec p b X n F : holds p b X -> X <> [] -> numbered (lr_lsn n) X -> Forall (fun x => x.1 <> [] /\ real_pos x.2) X -> pool_ok p (slots b ++ F) ->
  exists p', local_receive true b p n = Ret (p', mkLocal (offset_of X) (replicatedCount n + blen X) (numbered_to (lr_lsn n) X), true) /\
    pool_ok p' F /\ agrees F p p'.
Proof.
  intros Hb Hne Hn Hx Hok. destruct X as [|x X _] using rev_ind; [done|]. apply Forall_app in Hx as [_ Hx]. apply Forall_cons in Hx as [[Hd Hq] _].
  pose proof (check_lsns_spec p b _ Hb (lr_lsn n) Hn) as Hck. destruct (release_spec b p F Hok) as (p' & Hrel & Hok' & Ha').
  pose proof (holds_length _ _ _ Hb) as Hlen. unfold holds in Hb. apply Forall2_app_inv_r in Hb as (b1 & b2 & Hb1 & Hb2 & ->).
  apply Forall2_cons_inv_r in Hb2 as (slot & b3 & (i & -> & Hi) & Hb3 & ->). apply Forall2_nil_inv_r in Hb3 as ->.
  assert (exists r, GetRootAsLogRecord x.1 = Ret r) as (r & Hr).
  { clear -Hn. generalize dependent (lr_lsn n). induction X as [|[d q] X IH]; intros lsn Hn; cbn in Hn; [destruct x, Hn as [(r0 & Hr0 & _) _]; by exists r0|]. destruct Hn as [_ Hn]. by eapply IH. }
  exists p'. split; [|done]. unfold local_receive. rewrite last_snoc, Hi, Hrel. change (default nilRecord (Some (wire_of x))) with (wire_of x). cbn [wire_of fill wr_Record].
  destruct (x.1) as [|c d] eqn:Ed; [done|]. rewrite Hr. cbn [mbind outcome_bind negb]. rewrite Hck. cbn [mbind outcome_bind fst].
  unfold offset_of. rewrite last_snoc. cbn [fmap option_fmap option_map].
  rewrite (record_offset_wire x Hq).
  unfold blen. by rewrite Hlen.
Qed.

Lemma numbered_app lsn X Y : numbered lsn (X ++ Y) <-> numbered lsn X /\ numbered (numbered_to lsn X) Y.
Proof. revert lsn. induction X as [|[d q] X IH]; intros lsn; cbn; [tauto|]. rewrite IH. unfold numbered_to. cbn. tauto. Qed.

(** Batches that follow each other are all counted. *)
Lemma local_run_spec bs Xs : forall p n F, Forall2 (holds p) bs Xs -> Forall (fun X => X <> []) Xs -> numbered (lr_lsn n) (concat Xs) ->
  Forall (fun x => x.1 <> [] /\ real_pos x.2) (concat Xs) -> pool_ok p (slots (concat bs) ++ F) ->
  exists p' off, LocalWalRelayer_Run (LocalBatch true <$> bs) p n = Ret (p', mkLocal off (replicatedCount n + blen (concat Xs)) (numbered_to (lr_lsn n) (concat Xs)), true) /\
    pool_ok p' F.
Proof.
  revert Xs. induction bs as [|b bs IH]; intros Xs p n F Hh Hne Hn Hx Hok.
  { apply Forall2_nil_inv_l in Hh as ->. exists p, (lr_lastOffset n). destruct n. unfold blen. cbn. by rewrite Z.add_0_r. }
  apply Forall2_cons_inv_l in Hh as (X & Xs' & Hb & Hbs & ->). apply Forall_cons in Hne as [Hne Hnes]. cbn [concat] in *. apply numbered_app in Hn as [Hn Hns].
  apply Forall_app in Hx as [Hx Hxs]. rewrite slots_app, <- app_assoc in Hok.
  destruct (local_receive_spec p b X n _ Hb Hne Hn Hx Hok) as (p1 & Hr & Hok1 & Ha1).
  assert (Forall2 (holds p1) bs Xs') as Hbs1.
  { clear -Hbs Ha1. induction Hbs as [|b X bs Xs Hb _ IH]; [constructor|]. cbn [concat] in Ha1. rewrite slots_app, <- app_assoc in Ha1. constructor.
    - eapply holds_agrees; [exact Hb|]. eapply agrees_subset; [|exact Ha1]. set_solver.
    - apply IH. eapply agrees_subset; [|exact Ha1]. set_solver. }
  destruct (IH Xs' p1 (mkLocal (offset_of X) (replicatedCount n + blen X) (numbered_to (lr_lsn n) X)) F Hbs1 Hnes Hns Hxs Hok1) as (p2 & off & Hr2 & Hok2).
  exists p2, off. split; [|done]. rewrite fmap_cons. cbn [LocalWalRelayer_Run local_step]. rewrite Hr. cbn [mbind outcome_bind]. rewrite Hr2. cbn [replicatedCount lr_lsn].
  rewrite blen_app. unfold numbered_to. rewrite foldl_app. do 3 f_equal. f_equal. lia.
Qed.
End local.
