(* ===== verification/LogMeaning.v ===== *)
(** What a log means.

    Each record of the log stands for a list of operations on the store: a
    plain record for its entries, the commit of a transaction for the entries
    of all its records, the other records of a transaction for nothing.  The
    contents that a log describes are these operations applied in order; the
    engine, recovery and a replica are measured against it. *)

From stdpp Require Import prelude list numbers gmap.
From Stdlib Require Import ZArith Lia.
From S2P Require Import Prelude Bytes Segment KeyCodec KVKeys KVStore KVSpec KVReads KVQueue KVQueueFacts Overlay BTree.
From S2P Require Import LogCodec WalIO WalIOFacts TxnLog MemTable MemTableFacts FlushFacts Recovery.

Section meaning.
Context `{FlatBuffers}.

(** An entry of a record with operation [op] and entry type [et]. *)
Inductive entry_means (op et : Z) (entry : bytes) : queued_op -> Prop :=
| em_put kv : op = LogOperationTypeInsert -> et = LogEntryTypeKV -> DeserializeKVEntry entry = Ret kv -> value_key (kv_Key kv) ->
    entry_means op et entry (QPutKV (kv_Key kv) [kv_Value kv] 0)
| em_delete kv : op = LogOperationTypeDelete -> et = LogEntryTypeKV -> DeserializeKVEntry entry = Ret kv -> value_key (kv_Key kv) ->
    entry_means op et entry (QDeleteKV (kv_Key kv))
| em_set_cells re : op = LogOperationTypeInsert -> et = LogEntryTypeRow -> DeserializeRowUpdateEntry entry = Ret re -> row_key (row_Key re) ->
    entry_means op et entry (QSetCells (row_Key re) (row_Columns re))
| em_delete_cells re : op = LogOperationTypeDelete -> et = LogEntryTypeRow -> DeserializeRowUpdateEntry entry = Ret re -> row_key (row_Key re) ->
    entry_means op et entry (QDeleteCells (row_Key re) (row_Columns re))
| em_delete_row re : op = LogOperationTypeDeleteRowByKey -> et = LogEntryTypeRow -> DeserializeRowUpdateEntry entry = Ret re -> row_key (row_Key re) ->
    entry_means op et entry (QDeleteRow (row_Key re)).

Lemma entry_means_ok op et entry o : entry_means op et entry o -> op_wf o /\ op_obj o.
Proof. destruct 1; cbn; try rewrite row_key_self by done; (split; [|done]); (done || lia). Qed.

(** Not every store can delete several rows at once. *)
Context (rows_ok : nat -> Prop).

Definition entries_mean (op et : Z) (entries : list bytes) (ops : list queued_op) : Prop :=
  entries <> [] /\ Forall2 (entry_means op et) entries ops /\
  (op = LogOperationTypeDeleteRowByKey -> rows_ok (length entries)).

(** A record that follows the log [A]. *)
Inductive record_means (A : wal_log) (r : fb_log) : list queued_op -> Prop :=
| rm_plain ops : fb_txn_state r = TransactionStateNone ->
    entries_mean (fb_operation_type r) (fb_entry_type r) (Entries (DeserializeFBRootLogRecord r)) ops -> record_means A r ops
| rm_open : fb_txn_state r = TransactionStateBegin \/ fb_txn_state r = TransactionStatePrepare -> record_means A r []
| rm_txn p b rest ops : fb_txn_state r = TransactionStateCommit -> DecodeOffset (PrevTxnWalIndexBytes r) = Ret (Some p) ->
    chain A p (b :: rest) -> entries_mean (fb_operation_type r) (fb_entry_type r) (all_entries rest) ops -> record_means A r ops
| rm_chunks kv p b rest chunks : fb_txn_state r = TransactionStateCommit -> fb_entry_type r = LogEntryTypeChunked ->
    first_entry r = Ret kv -> blob_key (kv_Key kv) -> DecodeOffset (PrevTxnWalIndexBytes r) = Ret (Some p) ->
    chain A p (b :: rest) -> chunk_values rest = Ret chunks -> chunks <> [] -> blen chunks < 2 ^ 32 ->
    record_means A r [QSetLobChunks (kv_Key kv) chunks (fb_crc32_checksum r)].

Lemma entries_mean_ok op et entries ops : entries_mean op et entries ops -> ops_ok ops.
Proof.
  intros (_ & Hf & _). apply Forall_forall. intros o (i & Hi)%list_elem_of_lookup.
  destruct (Forall2_lookup_r _ _ _ _ _ Hf Hi) as (entry & _ & He). by eapply entry_means_ok.
Qed.

Lemma record_means_ok A r ops : record_means A r ops -> ops_ok ops.
Proof.
  destruct 1; [by eapply entries_mean_ok|constructor|by eapply entries_mean_ok|]. by apply Forall_singleton.
Qed.

Inductive log_means : wal_log -> list (list queued_op) -> Prop :=
| lm_nil : log_means [] []
| lm_snoc A opss d p r ops : log_means A opss -> GetRootAsLogRecord d = Ret r -> record_means A r ops ->
    log_means (A ++ [(d, p)]) (opss ++ [ops]).

(** The contents. *)
Definition contents_of (opss : list (list queued_op)) : kvmap := foldl a_queued ∅ (concat opss).

Lemma log_means_length Lg opss : log_means Lg opss -> length Lg = length opss.
Proof. induction 1; [done|]. rewrite !length_app. cbn. lia. Qed.

Lemma log_means_ok Lg opss : log_means Lg opss -> ops_ok (concat opss).
Proof.
  induction 1 as [|A opss d p r ops _ IH _ Hr]; [constructor|]. rewrite concat_app. cbn. rewrite app_nil_r. apply Forall_app.
  split; [done|]. by eapply record_means_ok.
Qed.

(** The records from some point on. *)
Lemma log_means_drop B : forall A opss, log_means (A ++ B) opss -> exists opss1 opss2, opss = opss1 ++ opss2 /\ log_means A opss1 /\ length opss1 = length A.
Proof.
  induction B as [|[d p] B IH] using rev_ind; intros A opss Hl.
  - rewrite app_nil_r in Hl. exists opss, []. rewrite app_nil_r. split_and!; [done..|]. symmetry. by apply log_means_length.
  - inversion Hl as [Heq|A' opss' d' p' r ops HA Hr Hm Heq Heq2]; [by destruct A; destruct B|].
    rewrite app_assoc in Heq. apply app_inj_tail in Heq as [-> _]. destruct (IH A opss' HA) as (o1 & o2 & -> & H1 & H2).
    exists o1, (o2 ++ [ops]). rewrite app_assoc. done.
Qed.
End meaning.
