(* ===== verification/EngineFacts.v ===== *)
(** The engine against the contents that its log describes.

    [core] relates an engine to its log, to the operations written so far and
    to where they are: in the store, in the sealed tables in order, in the
    active table.  Every operation of the engine keeps it; between operations
    the operations written are those of the log. *)

From stdpp Require Import prelude list numbers gmap sorting.
From Stdlib Require Import ZArith Lia.
From S2P Require Import Prelude Bytes Segment KeyCodec KVKeys KVStore KVSpec KVReads KVQueue KVQueueFacts Overlay BTree.
From S2P Require Import LogCodec WalIO WalIOFacts TxnLog MemTable MemTableFacts FlushFacts FlushSpec Notify Engine Recovery LogMeaning.

(** ** Notifications do not panic *)

Definition notifier_ok (n : Notifier) : Prop :=
  Forall (fun c => (c < fresh n)%nat) (closed n) /\
  match appendNotify n with Some c => (c < fresh n)%nat /\ c ∉ closed n | None => True end.

Lemma notifyAppend_ok n : notifier_ok n -> exists n', notifyAppend n = Ret n' /\ notifier_ok n'.
Proof.
  intros [Hc Ha]. unfold notifyAppend. destruct (coalescing n); cbn [negb]; [destruct (coalesceFlag n); by eexists|].
  assert (Forall (fun c => (c < S (fresh n))%nat) (closed n)) as Hc' by (eapply Forall_impl; [exact Hc|]; cbn; intros; lia).
  assert (fresh n ∉ closed n) as Hf by (intros Hin; rewrite Forall_forall in Hc; specialize (Hc _ Hin); lia).
  unfold fire. destruct (appendNotify n) as [c|]; [rewrite bool_decide_false by apply Ha|]; (eexists; split; [done|]); split; cbn; try done.
  - constructor; [lia|done].
  - split; [lia|]. apply not_elem_of_cons. split; [lia|done].
  - split; [lia|done].
Qed.

Section core.
Context {L F W R D : Type} `{SkipListLaws L} `{BloomLaws F} `{WalLaws W R} `{BTreeLaws D} `{FlatBuffersLaws}.
Context (rows_ok : nat -> Prop).
Notation Engine := (Engine L F W D).
Notation log_means := (log_means rows_ok).

(** All records up to the position [p] are among [ops]. *)
Definition covers (Lg : wal_log) (opss : list (list queued_op)) (p : RecordPosition) (ops : list queued_op) : Prop :=
  exists i d, Lg !! i = Some (d, p) /\ concat (take (S i) opss) `prefix_of` ops.

Definition covered (Lg : wal_log) (opss : list (list queued_op)) (p : option RecordPosition) (ops : list queued_op) : Prop :=
  match p with Some p => covers Lg opss p ops | None => True end.

(** The tables with the operations that they and all before them hold. *)
Fixpoint offsets_ok (Lg : wal_log) (opss : list (list queued_op)) (before : list queued_op) (ts : list (MemTable L F)) (tabs : list put_ops) : Prop :=
  match ts, tabs with
  | t :: ts, po :: tabs => covered Lg opss (lastOffset t) (before ++ po.*2) /\ offsets_ok Lg opss (before ++ po.*2) ts tabs
  | [], [] => True
  | _, _ => False
  end.

(** The checkpoint in the store. *)
Definition checkpoint_ok (Lg : wal_log) (opss : list (list queued_op)) (md : kvmap) (base : list queued_op) : Prop :=
  match md !! SysKeyWalCheckPoint with
  | None => True
  | Some data => exists n p, data <> [] /\ UnmarshalMetadata data = Ret (mkMetadata n (Some p)) /\ covers Lg opss p base
  end.

Record core (n : nat) (e : Engine) (Lg : wal_log) (opss : list (list queued_op)) (base : list queued_op)
    (tabs : list put_ops) (act : put_ops) (md : kvmap) : Prop := {
  co_wal : wl_repr n (walIO e) Lg;
  co_log : log_means Lg opss;
  co_base : ops_ok base;
  co_store : ds_repr (dataStore e) (foldl a_queued ∅ base) md;
  co_tables : Forall2 (fun t po => table_of t po.*1) (sealedMemTables e) tabs;
  co_active : table_of (activeMemTable e) act.*1;
  co_arena : capacity (activeMemTable e) = ArenaSize e;
  co_means : Forall (Forall (fun x => means Lg x.1 x.2)) tabs /\ Forall (fun x => means Lg x.1 x.2) act;
  co_room : blen act + Z.of_nat n <= 2 ^ 62;
  co_offsets : offsets_ok Lg opss base (sealedMemTables e ++ [activeMemTable e]) (tabs ++ [act]);
  co_pending : Forall (fun fm => covered Lg opss (Pos (fm_metadata fm)) base) (pendingMetadata e);
  co_checkpoint : checkpoint_ok Lg opss md base;
  co_notifier : notifier_ok (notifier e)
}.

(** The operations written so far. *)
Definition written (base : list queued_op) (tabs : list put_ops) (act : put_ops) : list queued_op :=
  base ++ (tabs ≫= fun po => po.*2) ++ act.*2.

(** ** The log grows *)

Lemma covers_more Lg opss p ops X Y Z : length Lg = length opss -> covers Lg opss p ops -> covers (Lg ++ X) (opss ++ Y) p (ops ++ Z).
Proof.
  intros Hl (i & d & Hi & Hp). exists i, d. split; [by apply lookup_app_l_Some|]. pose proof (lookup_lt_Some _ _ _ Hi) as Hlt.
  rewrite take_app_le by lia. by apply prefix_app_r.
Qed.

Lemma covered_more Lg opss p ops X Y Z : length Lg = length opss -> covered Lg opss p ops -> covered (Lg ++ X) (opss ++ Y) p (ops ++ Z).
Proof. intros Hl. destruct p; [by apply covers_more|done]. Qed.

Lemma covered_grow Lg opss p ops X Y : length Lg = length opss -> covered Lg opss p ops -> covered (Lg ++ X) (opss ++ Y) p ops.
Proof. intros Hl Hc. rewrite <- (app_nil_r ops). by apply covered_more. Qed.

Lemma checkpoint_grow Lg opss md base X Y : length Lg = length opss -> checkpoint_ok Lg opss md base -> checkpoint_ok (Lg ++ X) (opss ++ Y) md base.
Proof.
  intros Hl. unfold checkpoint_ok. destruct (md !! SysKeyWalCheckPoint) as [data|]; [|done]. intros (z & p & Hd & Hu & Hc). exists z, p. split_and!; [done..|].
  exact (covered_grow _ _ (Some p) base X Y Hl Hc).
Qed.

Lemma offsets_grow Lg opss X Y : length Lg = length opss -> forall ts tabs before, offsets_ok Lg opss before ts tabs -> offsets_ok (Lg ++ X) (opss ++ Y) before ts tabs.
Proof.
  intros Hl. induction ts as [|t ts IH]; intros [|po tabs] before Ho; try done. destruct Ho as [H1' H2']. split; [by apply covered_grow|by apply IH].
Qed.

Lemma core_weaken n e Lg opss base tabs act md : core (S n) e Lg opss base tabs act md -> core n e Lg opss base tabs act md.
Proof. intros []. split; try done; [by apply wl_weaken|lia]. Qed.

(** More records in the log, whose operations are still to be written. *)
Lemma core_extend k n e w Lg X opss Y base tabs act md : core k e Lg opss base tabs act md -> (n <= k)%nat -> wl_repr n w (Lg ++ X) ->
  log_means (Lg ++ X) (opss ++ Y) -> core n (with_wal w e) (Lg ++ X) (opss ++ Y) base tabs act md.
Proof.
  intros Hc Hn Hw Hl. pose proof (log_means_length _ _ _ (co_log _ _ _ _ _ _ _ _ Hc)) as Hlen. pose proof Hc as []. split; cbn; try done.
  - destruct co_means0 as [Hs Ha']. split; [|eapply Forall_impl; [exact Ha'|]; intros; by apply means_grow].
    eapply Forall_impl; [exact Hs|]. intros po Hpo. eapply Forall_impl; [exact Hpo|]. intros; by apply means_grow.
  - lia.
  - by apply offsets_grow.
  - eapply Forall_impl; [exact co_pending0|]. intros fm Hfm. by apply covered_grow.
  - by apply checkpoint_grow.
Qed.

Lemma core_append n e Lg opss base tabs act md encoded r ops :
  core (S n) e Lg opss base tabs act md -> GetRootAsLogRecord encoded = Ret r -> record_means rows_ok Lg r ops ->
  exists e' res, append_record e encoded = Ret (e', res) /\
    activeMemTable e' = activeMemTable e /\ sealedMemTables e' = sealedMemTables e /\ currentOffset e' = currentOffset e /\
    match res with
    | Ok p => core n e' (Lg ++ [(encoded, p)]) (opss ++ [ops]) base tabs act md
    | Err _ => core n e' Lg opss base tabs act md
    end.
Proof.
  intros Hc Hr Hm. destruct (wl_Append_law n _ _ encoded (co_wal _ _ _ _ _ _ _ _ Hc)) as (w' & res & Ha & Hw'). unfold append_record. rewrite Ha. cbn [mbind outcome_bind].
  eexists _, res. split; [done|]. split_and!; [done..|]. destruct res as [p|err].
  - apply (core_extend (S n)); [done|lia|done|]. eapply lm_snoc; [apply (co_log _ _ _ _ _ _ _ _ Hc)|done..].
  - apply core_weaken in Hc. by destruct Hc.
Qed.

(** ** Writes to the memory tables *)

Lemma offsets_app Lg opss ts tabs : forall before ts' tabs', length ts = length tabs ->
  offsets_ok Lg opss before (ts ++ ts') (tabs ++ tabs') <->
  offsets_ok Lg opss before ts tabs /\ offsets_ok Lg opss (before ++ (tabs ≫= fun po => po.*2)) ts' tabs'.
Proof.
  revert tabs. induction ts as [|t ts IH]; intros [|po tabs] before ts' tabs' Hl; try done.
  - cbn. rewrite app_nil_r. tauto.
  - cbn [app offsets_ok]. rewrite IH by (cbn in Hl; lia). rewrite bind_cons, app_assoc. tauto.
Qed.

(** What the writes leave alone. *)
Definition frame (e e' : Engine) : Prop :=
  ArenaSize e' = ArenaSize e /\ readOnly e' = readOnly e /\ shutdown e' = shutdown e /\ flushPaused e' = flushPaused e /\
  writeSeenCounter e' = writeSeenCounter e /\ walIO e' = walIO e /\ dataStore e' = dataStore e.

Lemma frame_refl e : frame e e.
Proof. by repeat split. Qed.
Lemma frame_trans e1 e2 e3 : frame e1 e2 -> frame e2 e3 -> frame e1 e3.
Proof. unfold frame. intuition congruence. Qed.

Lemma co_tables_length n e Lg opss base tabs act md : core n e Lg opss base tabs act md -> length (sealedMemTables e) = length tabs.
Proof. intros Hc. eapply Forall2_length, co_tables, Hc. Qed.

Lemma core_put n e Lg opss base tabs act md t key v op : core (S n) e Lg opss base tabs act md -> means Lg (key, v) op ->
  table_of t (act.*1 ++ [(key, v)]) -> capacity t = capacity (activeMemTable e) -> lastOffset t = lastOffset (activeMemTable e) ->
  core n (with_tables t (sealedMemTables e) e) Lg opss base tabs (act ++ [((key, v), op)]) md.
Proof.
  intros Hc Hm Ht Hcap Hoff. pose proof (co_tables_length _ _ _ _ _ _ _ _ Hc) as Hlen. pose proof Hc as []. split; cbn; try done.
  - by apply wl_weaken.
  - by rewrite fmap_app.
  - congruence.
  - destruct co_means0 as [Hs Ha]. split; [done|]. apply Forall_app. split; [done|]. by apply Forall_singleton.
  - unfold blen in *. rewrite length_app. cbn [length]. lia.
  - rewrite offsets_app in co_offsets0 |- * by done. destruct co_offsets0 as [Hs [Ha _]]. split; [done|]. split; [|done]. rewrite Hoff, fmap_app, app_assoc.
    unfold covered in *. destruct (lastOffset (activeMemTable e)) as [p|]; [|done]. destruct Ha as (i & d & Hi & Hp). exists i, d. split; [done|]. by apply prefix_app_r.
Qed.

Lemma core_rotate n e Lg opss base tabs act md : core n e Lg opss base tabs act md ->
  core n (rotateMemTable e) Lg opss base (tabs ++ [act]) [] md.
Proof.
  intros Hc. pose proof (co_tables_length _ _ _ _ _ _ _ _ Hc) as Hlen. pose proof Hc as []. split; cbn; try done.
  - apply Forall2_app; [done|]. by constructor.
  - apply new_table.
  - destruct co_means0 as [Hs Ha]. split; [|constructor]. apply Forall_app. split; [done|]. by apply Forall_singleton.
  - unfold blen in *. cbn. lia.
  - rewrite offsets_app by (rewrite !length_app; cbn; lia). split; [done|]. by split.
Qed.

Lemma written_snoc base tabs act x : written base tabs (act ++ [x]) = written base tabs act ++ [x.2].
Proof. unfold written. by rewrite fmap_app, !app_assoc. Qed.

Lemma written_rotate base tabs act : written base (tabs ++ [act]) [] = written base tabs act.
Proof. unfold written. rewrite bind_app. cbn. by rewrite !app_nil_r. Qed.

Lemma core_change n e Lg opss base tabs act md c : core n e Lg opss base tabs act md -> core n (with_change c e) Lg opss base tabs act md.
Proof. by intros []. Qed.

(** A write is added to what has been written, or the entry does not even fit an
    empty table. *)
Lemma memTableWrite_spec n e Lg opss base tabs act md now key v op : core (S n) e Lg opss base tabs act md -> 0 <= now < 2 ^ 63 ->
  means Lg (key, v) op ->
  exists e' err tabs' act', memTableWrite now e key v = Ret (e', err) /\ core n e' Lg opss base tabs' act' md /\ frame e e' /\
    currentOffset e' = currentOffset e /\
    match err with
    | None => written base tabs' act' = written base tabs act ++ [op]
    | Some err => written base tabs' act' = written base tabs act /\ canPut (NewMemTable (L := L) (F := F) (ArenaSize e)) key v = false
    end.
Proof.
  intros Hc Hnow Hm. pose proof (blen_nonneg act) as Hb. pose proof (co_room _ _ _ _ _ _ _ _ Hc) as Hroom.
  assert (blen act.*1 = blen act) as Hbl by (unfold blen; by rewrite length_fmap).
  destruct (Put_spec now (activeMemTable e) act.*1 key v (co_active _ _ _ _ _ _ _ _ Hc) Hnow ltac:(lia)) as (t & err & HP & Ht).
  unfold memTableWrite. rewrite HP. cbn [mbind outcome_bind]. destruct err as [[]|].
  - apply core_rotate in Hc as Hr.
    destruct (Put_spec now (NewMemTable (L := L) (F := F) (ArenaSize e)) [] key v (new_table _) Hnow ltac:(unfold blen; cbn; lia)) as (t2 & err & HP2 & Ht2).
    cbn [activeMemTable rotateMemTable with_signals with_tables]. rewrite HP2. cbn [mbind outcome_bind]. destruct err as [[]|].
    + destruct Ht2 as [-> Hcan]. eexists _, _, (tabs ++ [act]), []. split; [done|].
      split; [apply core_weaken in Hr; by destruct Hr|]. split; [done|]. split; [done|]. by rewrite written_rotate.
    + destruct Ht2 as (Ht2 & _ & Hcap & Hoff & _). eexists _, _, (tabs ++ [act]), ([] ++ [((key, v), op)]). split; [done|].
      split; [by apply core_change, (core_put n (rotateMemTable e) Lg opss base (tabs ++ [act]) [] md t2 key v op)|]. split; [done|]. split; [done|].
      rewrite written_snoc, written_rotate. done.
  - destruct Ht as (Ht & _ & Hcap & Hoff & _). eexists _, _, tabs, (act ++ [((key, v), op)]). split; [done|].
    split; [by apply core_change, (core_put n e Lg opss base tabs act md t key v op)|]. split; [done|]. split; [done|]. by rewrite written_snoc.
Qed.

Lemma core_table n e Lg opss base tabs act md t : core n e Lg opss base tabs act md -> table_of t act.*1 ->
  capacity t = capacity (activeMemTable e) -> covered Lg opss (lastOffset t) (written base tabs act) ->
  core n (with_tables t (sealedMemTables e) e) Lg opss base tabs act md.
Proof.
  intros Hc Ht Hcap Hcov. pose proof (co_tables_length _ _ _ _ _ _ _ _ Hc) as Hlen. pose proof Hc as []. split; cbn; try done; [congruence|].
  rewrite offsets_app in co_offsets0 |- * by done. destruct co_offsets0 as [Hs _]. split; [done|]. split; [|done]. unfold written in Hcov. by rewrite <- app_assoc.
Qed.

Lemma active_covered n e Lg opss base tabs act md : core n e Lg opss base tabs act md ->
  covered Lg opss (lastOffset (activeMemTable e)) (written base tabs act).
Proof.
  intros Hc. pose proof (co_tables_length _ _ _ _ _ _ _ _ Hc) as Hlen. pose proof (co_offsets _ _ _ _ _ _ _ _ Hc) as Ho.
  rewrite offsets_app in Ho by done. destruct Ho as [_ [Ha _]]. unfold written. by rewrite app_assoc.
Qed.

Lemma writeNilOffset_spec n e Lg opss base tabs act md : core n e Lg opss base tabs act md ->
  core n (writeNilOffset e) Lg opss base tabs act md /\ frame e (writeNilOffset e) /\ currentOffset (writeNilOffset e) = currentOffset e.
Proof.
  intros Hc. split; [|done]. apply core_table; [done| |done|by eapply active_covered]. by destruct (co_active _ _ _ _ _ _ _ _ Hc).
Qed.

Lemma writeOffset_spec n e Lg opss base tabs act md p : core n e Lg opss base tabs act md -> covers Lg opss p (written base tabs act) ->
  exists e', writeOffset (Some p) e = Ret e' /\ core n e' Lg opss base tabs act md /\ frame e e' /\ currentOffset e' = Some p.
Proof.
  intros Hc Hp. destruct (notifyAppend_ok _ (co_notifier _ _ _ _ _ _ _ _ Hc)) as (nf & Hn & Hok).
  unfold writeOffset. cbn [notifier with_tables]. rewrite Hn. cbn [mbind outcome_bind]. eexists. split; [done|].
  assert (core n (with_tables (SetOffset p (activeMemTable e)) (sealedMemTables e) e) Lg opss base tabs act md) as Hc'.
  { apply core_table; [done| |done|done]. by destruct (co_active _ _ _ _ _ _ _ _ Hc). }
  split; [by destruct Hc'|done].
Qed.

(** What may follow each write of a sequence. *)
Definition neutral (after : Engine -> Engine) : Prop :=
  forall n e Lg opss base tabs act md, core n e Lg opss base tabs act md ->
  core n (after e) Lg opss base tabs act md /\ frame e (after e) /\ currentOffset (after e) = currentOffset e.

Lemma neutral_id : neutral (fun e => e).
Proof. intros n e * Hc. split; [done|]. split; [apply frame_refl|done]. Qed.
Lemma neutral_nil : neutral writeNilOffset.
Proof. intros n e * Hc. by apply writeNilOffset_spec. Qed.

Definition fits (arena : Z) (p : put) : Prop := canPut (NewMemTable (L := L) (F := F) arena) p.1 p.2 = true.

Lemma mem_writes_spec after puts : neutral after -> forall n e Lg opss base tabs act md now ops, core (length puts + n) e Lg opss base tabs act md ->
  (forall i, 0 <= now i < 2 ^ 63) -> Forall2 (means Lg) puts ops ->
  exists e' err tabs' act' dn rest, mem_writes after now e puts = Ret (e', err) /\ core n e' Lg opss base tabs' act' md /\ frame e e' /\
    currentOffset e' = currentOffset e /\ ops = dn ++ rest /\ written base tabs' act' = written base tabs act ++ dn /\
    (err = None -> rest = []) /\ (Forall (fits (ArenaSize e)) puts -> err = None).
Proof.
  intros Hn. induction puts as [|[key v] puts IH]; intros n e Lg opss base tabs act md now ops Hc Hnow Hm.
  - apply Forall2_nil_inv_l in Hm as ->. exists e, None, tabs, act, [], []. split; [done|]. rewrite !app_nil_r. by split_and!.
  - apply Forall2_cons_inv_l in Hm as (op & ops' & Hop & Hm & ->).
    destruct (memTableWrite_spec (length puts + n) e Lg opss base tabs act md (now 0%nat) key v op Hc (Hnow 0%nat) Hop)
      as (e1 & err & tabs1 & act1 & Hw & Hc1 & Hf1 & Ho1 & He). cbn [mem_writes]. rewrite Hw. cbn [mbind outcome_bind]. destruct err as [err|].
    + destruct He as [Hwr Hcan]. exists e1, (Some err), tabs1, act1, [], (op :: ops'). rewrite app_nil_r. split; [done|]. split_and!; try done.
      * clear -Hc1. induction (length puts); [done|]. by apply IHn0, core_weaken.
      * intros [Hfit _]%Forall_cons. unfold fits in Hfit. cbn in Hfit. congruence.
    + destruct (Hn _ _ _ _ _ _ _ _ Hc1) as (Hc2 & Hf2 & Ho2).
      destruct (IH n (after e1) Lg opss base tabs1 act1 md (fun i => now (S i)) ops' Hc2 (fun i => Hnow (S i)) Hm)
        as (e' & err & tabs' & act' & dn & rest & Hrun & Hc' & Hf' & Ho' & -> & Hwr & Hnone & Hfit).
      exists e', err, tabs', act', (op :: dn), rest. split; [done|]. split; [done|]. split; [exact (frame_trans _ _ _ Hf1 (frame_trans _ _ _ Hf2 Hf'))|].
      split; [congruence|]. split; [done|]. split; [rewrite Hwr, He, <- app_assoc; done|]. split; [done|]. intros [_ Hfs]%Forall_cons. apply Hfit.
      destruct Hf2 as [-> _], Hf1 as [-> _]. done.
Qed.

(** ** A record and its entries *)

(** Between operations everything in the log has been written. *)
Definition engine_inv (n : nat) (e : Engine) (Lg : wal_log) (opss : list (list queued_op)) (md : kvmap) : Prop :=
  exists base tabs act, core n e Lg opss base tabs act md /\ written base tabs act = concat opss.

Lemma core_weaken_by k n e Lg opss base tabs act md : core (k + n) e Lg opss base tabs act md -> core n e Lg opss base tabs act md.
Proof. induction k as [|k IH]; [done|]. intros Hc. by apply IH, core_weaken. Qed.

Lemma engine_inv_weaken k n e Lg opss md : engine_inv (k + n) e Lg opss md -> engine_inv n e Lg opss md.
Proof. intros (base & tabs & act & Hc & Hw). exists base, tabs, act. split; [|done]. by eapply core_weaken_by. Qed.

Definition finish_record (after : Engine -> Engine) (now : nat -> Z) (puts : list put) (p : RecordPosition) (e : Engine)
  : outcome (Engine * option engine_error) :=
  '(e, err) ← mem_writes after now e puts;
  match err with
  | Some _ => Ret (e, err)
  | None => e ← writeOffset (Some p) e; Ret (e, None)
  end.

(** The record may be followed by others whose entries come later. *)
Lemma finish_record_within n e Lg X opss Y d p ops base tabs act md after now puts : neutral after -> length Lg = length opss ->
  core (length puts + n) e (Lg ++ (d, p) :: X) (opss ++ ops :: Y) base tabs act md -> written base tabs act = concat opss ->
  (forall i, 0 <= now i < 2 ^ 63) -> Forall2 (means (Lg ++ (d, p) :: X)) puts ops -> Forall (fits (ArenaSize e)) puts ->
  exists e' tabs' act', finish_record after now puts p e = Ret (e', None) /\ core n e' (Lg ++ (d, p) :: X) (opss ++ ops :: Y) base tabs' act' md /\
    written base tabs' act' = concat (opss ++ [ops]) /\ frame e e' /\ currentOffset e' = Some p.
Proof.
  intros Hn Hlen Hc Hwr Hnow Hm Hfit.
  destruct (mem_writes_spec after puts Hn n e _ _ _ _ _ _ now ops Hc Hnow Hm) as (e1 & err & tabs1 & act1 & dn & rest & Hrun & Hc1 & Hf1 & _ & -> & Hw1 & Hnone & Herr).
  rewrite (Herr Hfit) in *. rewrite (Hnone eq_refl), app_nil_r in *.
  assert (written base tabs1 act1 = concat (opss ++ [dn])) as Hw2 by (rewrite Hw1, Hwr, concat_app; cbn; by rewrite app_nil_r).
  destruct (writeOffset_spec n e1 _ _ _ _ _ _ p Hc1) as (e2 & Hw & Hc2 & Hf2 & Ho2).
  { rewrite Hw2. exists (length Lg), d. split; [by apply list_lookup_middle|]. rewrite Hlen. change (dn :: Y) with ([dn] ++ Y).
    rewrite app_assoc, take_app_length' by (rewrite length_app; cbn; lia). done. }
  exists e2, tabs1, act1. unfold finish_record. rewrite Hrun. cbn [mbind outcome_bind]. rewrite Hw. split; [done|].
  split; [done|]. split; [done|]. split; [exact (frame_trans _ _ _ Hf1 Hf2)|done].
Qed.

Lemma finish_record_spec n e Lg opss d p ops base tabs act md after now puts : neutral after ->
  core (length puts + n) e (Lg ++ [(d, p)]) (opss ++ [ops]) base tabs act md -> written base tabs act = concat opss ->
  (forall i, 0 <= now i < 2 ^ 63) -> Forall2 (means (Lg ++ [(d, p)])) puts ops -> Forall (fits (ArenaSize e)) puts ->
  exists e', finish_record after now puts p e = Ret (e', None) /\ engine_inv n e' (Lg ++ [(d, p)]) (opss ++ [ops]) md /\
    frame e e' /\ currentOffset e' = Some p.
Proof.
  intros Hn Hc Hwr Hnow Hm Hfit.
  assert (length Lg = length opss) as Hlen by (apply co_log, log_means_length in Hc; rewrite !length_app in Hc; cbn in Hc; lia).
  destruct (finish_record_within n e Lg [] opss [] d p ops base tabs act md after now puts Hn Hlen Hc Hwr Hnow Hm Hfit) as (e' & tabs' & act' & Hrun & Hc' & Hw' & Hf & Ho).
  exists e'. split; [done|]. split; [by exists base, tabs', act'|done].
Qed.

(** The frame of an operation that appends a record. *)
Definition stable (e e' : Engine) : Prop :=
  ArenaSize e' = ArenaSize e /\ readOnly e' = readOnly e /\ shutdown e' = shutdown e /\ flushPaused e' = flushPaused e.

Lemma core_counter n e Lg opss base tabs act md c : core n e Lg opss base tabs act md -> core n (with_counter c e) Lg opss base tabs act md.
Proof. by intros []. Qed.

(** The whole of a write: the counter, the record, the entries. *)
Lemma write_record n e Lg opss md encoded r ops after now puts k : neutral after -> engine_inv (S (k + n)) e Lg opss md ->
  GetRootAsLogRecord encoded = Ret r -> record_means rows_ok Lg r ops -> (forall i, 0 <= now i < 2 ^ 63) ->
  (forall p, length (puts p) = k /\ Forall (fits (ArenaSize e)) (puts p)) ->
  (forall p, real_pos p -> Forall2 (means (Lg ++ [(encoded, p)])) (puts p) ops) ->
  exists e' err, ('(e, r) ← append_record (with_counter (nextLSN e) e) encoded;
      match r with Err err => Ret (e, Some (EWal err)) | Ok offset => finish_record after now (puts offset) offset e end) = Ret (e', err) /\
    stable e e' /\ writeSeenCounter e' = nextLSN e /\
    match err with
    | None => exists p, engine_inv n e' (Lg ++ [(encoded, p)]) (opss ++ [ops]) md /\ currentOffset e' = Some p
    | Some _ => engine_inv n e' Lg opss md /\ currentOffset e' = currentOffset e
    end.
Proof.
  intros Hn (base & tabs & act & Hc & Hw) Hr Hm Hnow Hputs Hmeans.
  destruct (core_append _ _ Lg opss base tabs act md encoded r ops (core_counter _ _ _ _ _ _ _ _ (nextLSN e) Hc) Hr Hm) as (e1 & res & Ha & Hact & Hse & Hoff & Hres).
  assert (stable e e1 /\ writeSeenCounter e1 = nextLSN e) as [Hst Hlsn].
  { unfold append_record in Ha. destruct (wl_Append _ encoded) as [[w res']| |]; [|done..]. by injection Ha as <- <-. }
  rewrite Ha. cbn [mbind outcome_bind]. destruct res as [p|err].
  - destruct (Hputs p) as [Hlen Hfit]. rewrite <- Hlen in Hres.
    assert (real_pos p) as Hp.
    { destruct (wl_positions _ _ _ (co_wal _ _ _ _ _ _ _ _ Hres)) as [_ Hall]. rewrite fmap_app in Hall. apply Forall_app in Hall as [_ Hall]. cbn in Hall. by apply Forall_cons in Hall as [? _]. }
    destruct (finish_record_spec n e1 Lg opss encoded p ops base tabs act md after now (puts p) Hn Hres Hw Hnow (Hmeans p Hp)) as (e2 & Hrun & Hinv & Hf & Ho);
      [by destruct Hst as [-> _]|]. exists e2, None. split; [done|]. unfold stable, frame in *. split; [intuition congruence|].
    split; [intuition congruence|]. by exists p.
  - exists e1, (Some (EWal err)). split; [done|]. split; [done|]. split; [done|]. split; [|done].
    exists base, tabs, act. split; [by eapply core_weaken_by|done].
Qed.
End core.
