(* ===== verification/EngineWrites.v ===== *)
(** The public writes and the transactions of the engine: each is one record
    whose operations join the contents, or an error that leaves them alone. *)

From stdpp Require Import prelude list numbers gmap sorting.
From Stdlib Require Import ZArith Lia.
From S2P Require Import Prelude Bytes Segment KeyCodec KVKeys KVStore KVSpec KVReads KVQueue KVQueueFacts Overlay BTree.
From S2P Require Import LogCodec WalIO WalIOFacts TxnLog MemTable MemTableFacts FlushFacts FlushSpec Notify Engine Recovery LogMeaning EngineFacts.

(** ** Lists in step *)

Lemma zip_Forall2 {A B X Y} (R : X -> Y -> Prop) (P : A -> Prop) (Q : B -> Prop) (f : A -> B -> X) (g : A -> B -> Y) l k :
  (forall a b, P a -> Q b -> R (f a b) (g a b)) -> Forall P l -> Forall Q k -> Forall2 R (zip_with f l k) (zip_with g l k).
Proof.
  intros HR HP. revert k. induction HP as [|a l Ha HP IH]; intros k HQ; [constructor|]. destruct HQ as [|b k Hb HQ]; [constructor|].
  cbn. constructor; [by apply HR|by apply IH].
Qed.

Lemma Forall_true {A} (l : list A) : Forall (fun _ => True) l.
Proof. by induction l; constructor. Qed.

Lemma fmap_Forall2 {A X Y} (R : X -> Y -> Prop) (P : A -> Prop) (f : A -> X) (g : A -> Y) l :
  (forall a, P a -> R (f a) (g a)) -> Forall P l -> Forall2 R (f <$> l) (g <$> l).
Proof. intros HR. induction 1; cbn; constructor; auto. Qed.

(** ** Calls *)

(** The engine types keys with the key codec, like the drivers do. *)
#[local] Notation KeyKV := KeyCodec.KeyKV.
#[local] Notation RowKey := KeyCodec.RowKey.
#[local] Notation KeyBlobChunk := KeyCodec.KeyBlobChunk.

Inductive write_call :=
| CallPut (keys values : list bytes)
| CallDelete (keys : list bytes)
| CallSetCells (rows : list bytes) (cols : list columns)
| CallDeleteCells (rows : list bytes) (cols : list columns)
| CallDeleteRows (rows : list bytes).

Definition call_ops (c : write_call) : list queued_op :=
  match c with
  | CallPut keys values => zip_with (fun k v => QPutKV (KeyKV k) [v] 0) keys values
  | CallDelete keys => (fun k => QDeleteKV (KeyKV k)) <$> keys
  | CallSetCells rows cols => zip_with (fun r c => QSetCells (RowKey r) c) rows cols
  | CallDeleteCells rows cols => zip_with (fun r c => QDeleteCells (RowKey r) c) rows cols
  | CallDeleteRows rows => (fun r => QDeleteRow (RowKey r)) <$> rows
  end.

Section writes.
Context {L F W R D : Type} `{SkipListLaws L} `{BloomLaws F} `{WalLaws W R} `{BTreeLaws D} `{FlatBuffersLaws}.
Context (rows_ok : nat -> Prop).
Notation Engine := (Engine L F W D).
Notation engine_inv := (engine_inv rows_ok).

Definition run_write (hlc : Z) (now : nat -> Z) (e : Engine) (c : write_call) : outcome (Engine * option engine_error) :=
  match c with
  | CallPut keys values => BatchPutKV hlc now e keys values
  | CallDelete keys => BatchDeleteKV hlc now e keys
  | CallSetCells rows cols => PutColumnsForRows hlc now e rows cols
  | CallDeleteCells rows cols => DeleteColumnsForRows hlc now e rows cols
  | CallDeleteRows rows => BatchDeleteRows hlc now e rows
  end.

(** The operations on one key or row are the batches of one. *)
Lemma single_writes hlc now (e : Engine) :
  (forall k v, PutKV hlc now e k v = run_write hlc now e (CallPut [k] [v])) /\
  (forall k, DeleteKV hlc now e k = run_write hlc now e (CallDelete [k])) /\
  (forall r c, PutColumnsForRow hlc now e r c = run_write hlc now e (CallSetCells [r] [c])) /\
  (forall r c, DeleteColumnsForRow hlc now e r c = run_write hlc now e (CallDeleteCells [r] [c])) /\
  (forall r, DeleteRow hlc now e r = run_write hlc now e (CallDeleteRows [r])).
Proof. done. Qed.

(** What the memory table gets. *)
Definition call_puts (c : write_call) : list put :=
  match c with
  | CallPut keys values => zip_with (fun k v => (KeyKV k, mkValue LogOperationInsert EntryTypeKV v)) keys values
  | CallDelete keys => (fun k => (KeyKV k, mkValue LogOperationDelete EntryTypeKV [])) <$> keys
  | CallSetCells rows cols => zip_with (fun r c => (RowKey r, mkValue LogOperationInsert EntryTypeRow (SerializeRowUpdateEntry (RowKey r) c))) rows cols
  | CallDeleteCells rows cols => zip_with (fun r c => (RowKey r, mkValue LogOperationDelete EntryTypeRow (SerializeRowUpdateEntry (RowKey r) c))) rows cols
  | CallDeleteRows rows => (fun r => (RowKey r, mkValue LogOperationDeleteRowByKey EntryTypeRow (SerializeRowUpdateEntry (RowKey r) []))) <$> rows
  end.

Definition call_entries (c : write_call) : list bytes :=
  match c with
  | CallPut keys values => zip_with (fun k v => SerializeKVEntry (KeyKV k) v) keys values
  | CallDelete keys => (fun k => SerializeKVEntry (KeyKV k) []) <$> keys
  | CallSetCells rows cols | CallDeleteCells rows cols => zip_with (fun r c => SerializeRowUpdateEntry (RowKey r) c) rows cols
  | CallDeleteRows rows => (fun r => SerializeRowUpdateEntry (RowKey r) []) <$> rows
  end.

Definition call_op (c : write_call) : Z :=
  match c with
  | CallPut _ _ | CallSetCells _ _ => LogOperationTypeInsert
  | CallDelete _ | CallDeleteCells _ _ => LogOperationTypeDelete
  | CallDeleteRows _ => LogOperationTypeDeleteRowByKey
  end.
Definition call_et (c : write_call) : Z :=
  match c with CallPut _ _ | CallDelete _ => LogEntryTypeKV | _ => LogEntryTypeRow end.

(** A call in order: something to do, matching lengths, columns that form a map,
    rows whose name can be encoded, and entries that fit a table. *)
Definition call_ok (arena : Z) (c : write_call) : Prop :=
  Forall (fits (L := L) (F := F) arena) (call_puts c) /\
  match c with
  | CallPut keys values => keys <> [] /\ length keys = length values
  | CallDelete keys => keys <> []
  | CallSetCells rows cols | CallDeleteCells rows cols =>
      rows <> [] /\ length rows = length cols /\ Forall (fun r => row_key (RowKey r)) rows /\ Forall (fun c => NoDup c.*1) cols
  | CallDeleteRows rows => rows <> [] /\ Forall (fun r => row_key (RowKey r)) rows /\ rows_ok (length rows)
  end.

Definition call_record (hlc lsn : Z) (c : write_call) : LogRecord :=
  mkLogRecord lsn hlc 0 (call_op c) TransactionStateNone (call_et c) [] [] (call_entries c).

Lemma call_entries_mean arena c : call_ok arena c -> entries_mean rows_ok (call_op c) (call_et c) (call_entries c) (call_ops c).
Proof.
  intros [_ Hok]. destruct c as [keys values|keys|rows cols|rows cols|rows]; cbn [call_entries call_op call_et call_ops].
  - destruct Hok as [Hne Hl]. split_and!; [by destruct keys, values| |done].
    eapply (zip_Forall2 _ (fun _ => True) (fun _ => True)); [|apply Forall_true..]. intros k v _ _.
    apply (em_put _ _ _ (mkKV (KeyKV k) v)); [done..|apply kv_roundtrip|apply typed_KeyKV].
  - split_and!; [by destruct keys| |done]. eapply (fmap_Forall2 _ (fun _ => True)); [|apply Forall_true]. intros k _.
    apply (em_delete _ _ _ (mkKV (KeyKV k) [])); [done..|apply kv_roundtrip|apply typed_KeyKV].
  - destruct Hok as (Hne & Hl & Hr & Hc). split_and!; [by destruct rows, cols| |done].
    eapply zip_Forall2; [|exact Hr|exact Hc]. intros r c Hk Hnd. by apply (em_set_cells _ _ _ (mkRow (RowKey r) c)); [..|apply row_roundtrip|].
  - destruct Hok as (Hne & Hl & Hr & Hc). split_and!; [by destruct rows, cols| |done].
    eapply zip_Forall2; [|exact Hr|exact Hc]. intros r c Hk Hnd. by apply (em_delete_cells _ _ _ (mkRow (RowKey r) c)); [..|apply row_roundtrip|].
  - destruct Hok as (Hne & Hr & Hrows). split_and!; [by destruct rows| |by rewrite length_fmap].
    eapply fmap_Forall2; [|exact Hr]. intros r Hk. apply (em_delete_row _ _ _ (mkRow (RowKey r) [])); [done..|apply row_roundtrip; constructor|done].
Qed.

Lemma call_puts_mean arena c Lg : call_ok arena c -> Forall2 (means Lg) (call_puts c) (call_ops c).
Proof.
  intros [_ Hok]. destruct c as [keys values|keys|rows cols|rows cols|rows]; cbn [call_puts call_ops].
  - eapply (zip_Forall2 _ (fun _ => True) (fun _ => True)); [|apply Forall_true..]. intros k v _ _. apply means_put, typed_KeyKV.
  - eapply (fmap_Forall2 _ (fun _ => True)); [|apply Forall_true]. intros k _. apply means_delete, typed_KeyKV.
  - destruct Hok as (Hne & Hl & Hr & Hc). eapply zip_Forall2; [|exact Hr|exact Hc]. intros r c Hk Hnd.
    apply (means_set_cells _ _ _ (mkRow (RowKey r) c)); [done|by apply row_roundtrip].
  - destruct Hok as (Hne & Hl & Hr & Hc). eapply zip_Forall2; [|exact Hr|exact Hc]. intros r c Hk Hnd.
    apply (means_delete_cells _ _ _ (mkRow (RowKey r) c)); [done|by apply row_roundtrip].
  - destruct Hok as (Hne & Hr & _). eapply fmap_Forall2; [|exact Hr]. intros r Hk. by apply means_delete_row.
Qed.

Lemma call_record_fits hlc lsn c : 0 <= hlc < 2 ^ 64 -> 0 <= lsn < 2 ^ 64 -> record_fits (call_record hlc lsn c).
Proof. intros Hh Hl. unfold record_fits. cbn. by destruct c; cbn; repeat split; first [lia|by vm_compute]. Qed.

Lemma call_record_means arena hlc lsn c Lg : call_ok arena c -> record_means rows_ok Lg (fb_of_record (call_record hlc lsn c)) (call_ops c).
Proof.
  intros Hok. apply rm_plain; [done|]. rewrite record_of_fb. by apply (call_entries_mean arena).
Qed.

(** ** The functions of the engine *)

Lemma kv_lists_insert keys : forall values, length keys = length values ->
  kv_entries LogOperationTypeInsert (KeyKV <$> keys) values = Ret (call_entries (CallPut keys values)) /\
  kv_puts LogOperationTypeInsert (KeyKV <$> keys) values = Ret (call_puts (CallPut keys values)).
Proof.
  induction keys as [|k keys IH]; intros [|v values] Hl; try done. injection Hl as Hl. destruct (IH values Hl) as [H1' H2'].
  rewrite fmap_cons. cbn [kv_entries kv_puts]. change (LogOperationTypeInsert =? LogOperationTypeDelete) with false. cbv iota.
  rewrite H1', H2'. done.
Qed.

Lemma kv_lists_delete keys : kv_entries LogOperationTypeDelete (KeyKV <$> keys) [] = Ret (call_entries (CallDelete keys)) /\
  kv_puts LogOperationTypeDelete (KeyKV <$> keys) [] = Ret (call_puts (CallDelete keys)).
Proof.
  induction keys as [|k keys [H1' H2']]; [done|]. rewrite fmap_cons. cbn [kv_entries kv_puts]. change (LogOperationTypeDelete =? LogOperationTypeDelete) with true.
  cbv iota. cbn [tail]. rewrite H1', H2'. done.
Qed.

Lemma row_list_cols op rows : (op =? LogOperationTypeDeleteRowByKey) = false -> forall cols, length rows = length cols ->
  row_entries op (RowKey <$> rows) cols = Ret (zip_with (fun r c => SerializeRowUpdateEntry (RowKey r) c) rows cols).
Proof.
  intros Hop. induction rows as [|r rows IH]; intros [|c cols] Hl; try done. injection Hl as Hl. rewrite fmap_cons. cbn [row_entries]. rewrite Hop.
  by rewrite (IH cols Hl).
Qed.

Lemma row_list_delete rows : row_entries LogOperationTypeDeleteRowByKey (RowKey <$> rows) [] = Ret (call_entries (CallDeleteRows rows)).
Proof. induction rows as [|r rows IH]; [done|]. rewrite fmap_cons. cbn [row_entries]. change (LogOperationTypeDeleteRowByKey =? LogOperationTypeDeleteRowByKey) with true. cbv iota. cbn [tail]. by rewrite IH. Qed.

Lemma row_puts_zip op rows : forall cols,
  row_puts op (RowKey <$> rows) (zip_with (fun r c => SerializeRowUpdateEntry (RowKey r) c) rows cols) =
  zip_with (fun r c => (RowKey r, mkValue op EntryTypeRow (SerializeRowUpdateEntry (RowKey r) c))) rows cols.
Proof. unfold row_puts. induction rows as [|r rows IH]; intros [|c cols]; cbn; [done..|]. by rewrite <- IH. Qed.

Lemma row_puts_fmap op rows :
  row_puts op (RowKey <$> rows) ((fun r => SerializeRowUpdateEntry (RowKey r) []) <$> rows) =
  (fun r => (RowKey r, mkValue op EntryTypeRow (SerializeRowUpdateEntry (RowKey r) []))) <$> rows.
Proof. unfold row_puts. induction rows as [|r rows IH]; cbn; [done|]. by rewrite <- IH. Qed.

(** Every write is the counter, the record and its entries. *)
Lemma run_write_unfold arena hlc now e c : call_ok arena c -> readOnly e = false -> shutdown e = false ->
  run_write hlc now e c =
  ('(e, r) ← append_record (with_counter (nextLSN e) e) (FBEncode (call_record hlc (nextLSN e) c) 512);
   match r with Err err => Ret (e, Some (EWal err)) | Ok offset => finish_record (fun e => e) now (call_puts c) offset e end).
Proof.
  intros [_ Hok] Hro Hsd. destruct c as [keys values|keys|rows cols|rows cols|rows]; cbn [run_write];
    unfold BatchPutKV, BatchDeleteKV, PutColumnsForRows, DeleteColumnsForRows, BatchDeleteRows, unless_closing; rewrite Hsd;
    unfold persistKeyValue, persistRowColumnAction; rewrite Hro.
  - destruct Hok as [_ Hl]. destruct (kv_lists_insert keys values Hl) as [-> ->]. done.
  - destruct (kv_lists_delete keys) as [-> ->]. done.
  - destruct Hok as (_ & Hl & _). rewrite row_list_cols by done. cbn [mbind outcome_bind]. rewrite row_puts_zip. done.
  - destruct Hok as (_ & Hl & _). rewrite row_list_cols by done. cbn [mbind outcome_bind]. rewrite row_puts_zip. done.
  - rewrite row_list_delete. cbn [mbind outcome_bind call_entries]. rewrite row_puts_fmap. done.
Qed.

Lemma nextLSN_range (e : Engine) : 0 <= nextLSN e < 2 ^ 64.
Proof. unfold nextLSN. apply u64_range. Qed.

Lemma run_write_spec n e Lg opss md hlc now c : engine_inv (S (length (call_puts c) + n)) e Lg opss md -> call_ok (ArenaSize e) c ->
  0 <= hlc < 2 ^ 64 -> (forall i, 0 <= now i < 2 ^ 63) -> readOnly e = false -> shutdown e = false ->
  exists e' err, run_write hlc now e c = Ret (e', err) /\ stable e e' /\ writeSeenCounter e' = nextLSN e /\
    match err with
    | None => exists d p, engine_inv n e' (Lg ++ [(d, p)]) (opss ++ [call_ops c]) md /\ currentOffset e' = Some p
    | Some _ => engine_inv n e' Lg opss md /\ currentOffset e' = currentOffset e
    end.
Proof.
  intros Hinv Hok Hh Hnow Hro Hsd. rewrite (run_write_unfold (ArenaSize e)) by done. pose proof (nextLSN_range e) as Hl.
  destruct (write_record rows_ok n e Lg opss md (FBEncode (call_record hlc (nextLSN e) c) 512) _ (call_ops c) (fun e => e) now (fun _ => call_puts c) (length (call_puts c))
    (neutral_id rows_ok) Hinv (root_of_record _ 512 (call_record_fits hlc (nextLSN e) c Hh Hl)) (call_record_means (ArenaSize e) _ _ _ _ Hok) Hnow)
    as (e' & err & Hrun & Hst & Hlsn & Hres).
  - intros p. split; [done|]. by destruct Hok.
  - intros p _. by eapply call_puts_mean.
  - exists e', err. split; [exact Hrun|]. split; [done|]. split; [done|]. destruct err; [done|]. destruct Hres as (p & ? & ?). by eexists _, p.
Qed.
End writes.
