(* ===== verification/TxnFacts.v ===== *)
(** Transactions against the contents: nothing of a transaction is visible
    before it commits, and the commit adds all of it. *)

From stdpp Require Import prelude list numbers gmap sorting.
From Stdlib Require Import ZArith Lia.
From S2P Require Import Prelude Bytes Crc32 Segment KeyCodec KVKeys KVStore KVSpec KVReads KVQueue KVQueueFacts Overlay BTree.
From S2P Require Import LogCodec WalIO WalIOFacts TxnLog MemTable MemTableFacts FlushFacts FlushSpec Notify Engine Txn Recovery LogMeaning EngineFacts EngineWrites.

#[local] Notation KeyKV := KeyCodec.KeyKV.
#[local] Notation RowKey := KeyCodec.RowKey.
#[local] Notation KeyBlobChunk := KeyCodec.KeyBlobChunk.

(** What a transaction has gathered: operations, or the chunks of a blob. *)
Inductive gathered := GOps (ops : list queued_op) | GChunks (key : option bytes) (chunks : list bytes).

(** The kinds of transactions whose commits recovery knows. *)
Definition txn_kind (op et : Z) : Prop :=
  (et = LogEntryTypeKV /\ (op = LogOperationTypeInsert \/ op = LogOperationTypeDelete)) \/
  (et = LogEntryTypeRow /\ (op = LogOperationTypeInsert \/ op = LogOperationTypeDelete \/ op = LogOperationTypeDeleteRowByKey)) \/
  (et = LogEntryTypeChunked /\ op = LogOperationTypeInsert).

(** The record of a transaction depends on what never changes in it. *)
Ltac record_of_txn t :=
  match goal with |- context [txn_record ?h ?l ?c ?s ?x ?k] => change (txn_record h l c s x k) with (txn_record h l c s t k) end.

Section txns.
Context {L F W R D : Type} `{SkipListLaws L} `{BloomLaws F} `{WalLaws W R} `{BTreeLaws D} `{FlatBuffersLaws}.
Context (rows_ok : nat -> Prop).
Notation Engine := (Engine L F W D).
Notation engine_inv := (engine_inv rows_ok).
Notation fits := (fits (L := L) (F := F)).

Definition gathers (Lg : wal_log) (arena : Z) (t : Txn) (rest : list fb_log) (g : gathered) : Prop :=
  match g with
  | GOps ops => txnEntryType t <> LogEntryTypeChunked /\ Forall2 (means Lg) (memTableEntries t) ops /\
      Forall (fits arena) (memTableEntries t) /\ Forall2 (entry_means (txnOperation t) (txnEntryType t)) (all_entries rest) ops
  | GChunks key chunks => txnEntryType t = LogEntryTypeChunked /\ rowKey t = key /\ chunk_values rest = Ret chunks /\
      match key with Some k => blob_key k | None => chunks = [] end
  end.

Record txn_inv (Lg : wal_log) (arena : Z) (t : Txn) (g : gathered) : Prop := {
  ti_err : t_err t = None;
  ti_kind : txn_kind (txnOperation t) (txnEntryType t);
  ti_sum : 0 <= checksum t < 2 ^ 32;
  ti_chain : exists b rest, chain Lg (prevOffset t) (b :: rest) /\ gathers Lg arena t rest g
}.

(** Other writes in between do not matter. *)
Lemma txn_inv_grow Lg X arena t g : txn_inv Lg arena t g -> txn_inv (Lg ++ X) arena t g.
Proof.
  intros [He Hk Hs (b & rest & Hc & Hg)]. split; [done..|]. exists b, rest. split; [by apply chain_grow|].
  destruct g as [ops|key chunks]; [|done]. destruct Hg as (Ht & Hm & Hrest). split; [done|]. split; [|done].
  eapply Forall2_impl; [exact Hm|]. intros; by apply means_grow.
Qed.

Lemma chain_in Lg p rs : chain Lg p rs -> exists d, (d, p) ∈ Lg.
Proof. destruct 1; eexists; apply elem_of_app; right; by left. Qed.

Lemma chain_real n w Lg p rs : wl_repr n w Lg -> chain Lg p rs -> real_pos p.
Proof.
  intros Hw Hc. destruct (chain_in _ _ _ Hc) as [d Hd]. destruct (wl_positions _ _ _ Hw) as [_ Hall].
  rewrite Forall_forall in Hall. apply Hall. by apply (list_elem_of_fmap_2' snd _ (d, p)).
Qed.

Lemma kind_small op et : txn_kind op et -> 0 <= op < 256 /\ 0 <= et < 256.
Proof. intros [[-> [-> | ->]]|[[-> [-> |[-> | ->]]]|[-> ->]]]; by vm_compute. Qed.

Lemma Encode_length p : blen (Encode p) = 12.
Proof. unfold Encode. by rewrite blen_app, !blen_le_bytes. Qed.

(** A record of the transaction is the next link of the chain. *)
Lemma txn_record_links Lg t b rest hlc lsn crc state entry : real_pos (prevOffset t) -> chain Lg (prevOffset t) (b :: rest) ->
  txn_kind (txnOperation t) (txnEntryType t) -> 0 <= hlc < 2 ^ 64 -> 0 <= lsn < 2 ^ 64 -> 0 <= crc < 2 ^ 32 -> 0 <= state < 256 ->
  let d := txn_record hlc lsn crc state t entry in
  let r := fb_of_record (mkLogRecord lsn hlc crc (txnOperation t) state (txnEntryType t) (txnID t) (Encode (prevOffset t)) [entry]) in
  GetRootAsLogRecord d = Ret r /\ DecodeOffset (PrevTxnWalIndexBytes r) = Ret (Some (prevOffset t)) /\
  forall p, chain (Lg ++ [(d, p)]) p (b :: (rest ++ [r])).
Proof.
  intros Hp Hc Hk Hh Hl Hcr Hs d r. destruct (kind_small _ _ Hk) as [Ho Ht].
  assert (GetRootAsLogRecord d = Ret r) as Hr by (apply root_of_record; unfold record_fits; cbn; tauto).
  assert (PrevTxnWalIndexBytes r = Encode (prevOffset t)) as Hprev by apply prev_of_fb.
  split; [done|]. split; [rewrite Hprev; by apply DecodeOffset_Encode|]. intros p.
  apply (chain_next Lg d p [] r (prevOffset t) (b :: rest)); [done| |rewrite Hprev; by apply DecodeOffset_Encode|done].
  unfold PrevTxnWalIndexLength. rewrite Hprev, Encode_length. lia.
Qed.

Lemma core_append_open n e Lg opss md d r : engine_inv (S n) e Lg opss md -> GetRootAsLogRecord d = Ret r -> record_means rows_ok Lg r [] ->
  exists e' res, append_record (with_counter (nextLSN e) e) d = Ret (e', res) /\ stable e e' /\ writeSeenCounter e' = nextLSN e /\
    currentOffset e' = currentOffset e /\
    match res with
    | Ok p => engine_inv n e' (Lg ++ [(d, p)]) (opss ++ [[]]) md /\ real_pos p
    | Err _ => engine_inv n e' Lg opss md
    end.
Proof.
  intros (base & tabs & act & Hc & Hw) Hr Hm.
  destruct (core_append rows_ok n _ Lg opss base tabs act md d r [] (core_counter _ _ _ _ _ _ _ _ _ (nextLSN e) Hc) Hr Hm) as (e1 & res & Ha & _ & _ & Hoff & Hres).
  exists e1, res. split; [done|]. unfold append_record in Ha. destruct (wl_Append _ d) as [[w' res']| |]; [|done..]. injection Ha as <- <-.
  split; [done|]. split; [done|]. split; [done|]. destruct res' as [p|]; [|by exists base, tabs, act]. split.
  - exists base, tabs, act. split; [done|]. rewrite Hw, concat_app. cbn. by rewrite !app_nil_r.
  - destruct (wl_positions _ _ _ (co_wal _ _ _ _ _ _ _ _ _ Hres)) as [_ Hall]. rewrite fmap_app in Hall. apply Forall_app in Hall as [_ Hall].
    cbn in Hall. by apply Forall_cons in Hall as [? _].
Qed.

(** ** Begin *)

Lemma NewTxn_spec n e Lg opss md id hlc op et : engine_inv (S n) e Lg opss md -> readOnly e = false -> txn_kind op et -> 0 <= hlc < 2 ^ 64 ->
  exists e' res, NewTxn (Some id) hlc e op et = Ret (e', res) /\ stable e e' /\ writeSeenCounter e' = nextLSN e /\ currentOffset e' = currentOffset e /\
    match res with
    | Ok t => exists d p, engine_inv n e' (Lg ++ [(d, p)]) (opss ++ [[]]) md /\
        txn_inv (Lg ++ [(d, p)]) (ArenaSize e) t (if et =? LogEntryTypeChunked then GChunks None [] else GOps [])
    | Err _ => engine_inv n e' Lg opss md
    end.
Proof.
  intros Hinv Hro Hk Hh. destruct (kind_small _ _ Hk) as [Ho Ht]. pose proof (nextLSN_range e) as Hl. unfold NewTxn. rewrite Hro.
  assert ((op =? LogOperationTypeNoOperation) = false /\ (op =? LogOperationTypeDelete) && (et =? LogEntryTypeChunked) = false) as [-> ->].
  { by destruct Hk as [[-> [-> | ->]]|[[-> [-> |[-> | ->]]]|[-> ->]]]. }
  set (rec := mkLogRecord _ hlc 0 _ _ et id [] []). assert (record_fits rec) as Hfit by (unfold record_fits; cbn; repeat split; first [lia|by vm_compute|tauto]).
  destruct (core_append_open n e Lg opss md (FBEncode rec 512) (fb_of_record rec) Hinv (root_of_record rec 512 Hfit)) as (e1 & res & Ha & Hst & Hlsn & Hoff & Hres);
    [apply rm_open; by left|].
  rewrite Ha. cbn [mbind outcome_bind]. destruct res as [p|err]; (eexists e1, _; split; [done|]); split_and!; try done.
  destruct Hres as [Hinv' Hp]. exists (FBEncode rec 512), p. split; [done|]. split; cbn; try done.
  exists (fb_of_record rec), []. split; [apply (chain_begin Lg _ p []); [by apply root_of_record|done]|].
  destruct (Z.eqb_spec et LogEntryTypeChunked); [done|]. split_and!; [done|constructor..].
Qed.

(** ** Prepare *)

Definition txn_kv_op (op : Z) (key value : bytes) : queued_op :=
  if op =? LogOperationTypeInsert then QPutKV key [value] 0 else QDeleteKV key.
Definition txn_row_op (op : Z) (row : bytes) (cols : columns) : queued_op :=
  if op =? LogOperationTypeInsert then QSetCells row cols else if op =? LogOperationTypeDelete then QDeleteCells row cols else QDeleteRow row.

Lemma all_entries_snoc rest r entry : Entries (DeserializeFBRootLogRecord r) = [entry] -> all_entries (rest ++ [r]) = all_entries rest ++ [entry].
Proof. intros He. unfold all_entries. rewrite bind_app. cbn [mbind list_bind]. by rewrite He, app_nil_r. Qed.

Lemma chunk_values_snoc rest r kv chunks : chunk_values rest = Ret chunks -> first_entry r = Ret kv -> chunk_values (rest ++ [r]) = Ret (chunks ++ [kv_Value kv]).
Proof.
  intros Hc Hr. revert chunks Hc. induction rest as [|r0 rest IH]; intros chunks Hc.
  - injection Hc as <-. cbn. rewrite Hr. done.
  - cbn [app chunk_values] in *. destruct (first_entry r0) as [kv0| |]; [|done..]. cbn [mbind outcome_bind] in *.
    destruct (chunk_values rest) as [vs| |]; [|done..]. injection Hc as <-. by rewrite (IH vs eq_refl).
Qed.

Lemma sum_range crc b : 0 <= crc < 2 ^ 32 -> 0 <= crc32.Update crc crc32.IEEETable b < 2 ^ 32.
Proof. intros Hc. apply crc32.Update_range; [exact crc32.IEEETable_word|done]. Qed.

(** The result of a call that prepares: the record is in the log and in the
    transaction, or the transaction is over. *)
Definition prepared (n : nat) (e : Engine) (Lg : wal_log) (opss : list (list queued_op)) (md : kvmap) (t : Txn) (g : gathered)
    (r : outcome (Engine * Txn * option engine_error)) : Prop :=
  exists e' t' err, r = Ret (e', t', err) /\ stable e e' /\ currentOffset e' = currentOffset e /\
    match err with
    | None => exists d p, engine_inv n e' (Lg ++ [(d, p)]) (opss ++ [[]]) md /\ txn_inv (Lg ++ [(d, p)]) (ArenaSize e) t' g /\
        txnOperation t' = txnOperation t /\ txnEntryType t' = txnEntryType t
    | Some _ => engine_inv n e' Lg opss md /\ t_err t' <> None
    end.

Lemma prepare_kv n e Lg opss md hlc t ops key value : engine_inv (S n) e Lg opss md -> txn_inv Lg (ArenaSize e) t (GOps ops) ->
  txnEntryType t = LogEntryTypeKV -> 0 <= hlc < 2 ^ 64 -> fits (ArenaSize e) (KeyKV key, mkValue (txnOperation t) EntryTypeKV value) ->
  prepared n e Lg opss md t (GOps (ops ++ [txn_kv_op (txnOperation t) (KeyKV key) value])) (AppendKVTxn hlc e t key value).
Proof.
  intros Hinv [He Hk Hs (b & rest & Hc & Hg)] Het Hh Hfit. destruct Hg as (Hnc & Hm & Hfits & Hent).
  pose proof Hinv as (base & tabs & act & Hcore & _). pose proof (chain_real _ _ _ _ _ (co_wal _ _ _ _ _ _ _ _ _ Hcore) Hc) as Hp. pose proof (nextLSN_range e) as Hl.
  assert ((txnEntryType t =? LogEntryTypeRow) = false /\ (txnEntryType t =? LogEntryTypeKV) = true /\ (txnEntryType t =? LogEntryTypeChunked) = false) as (E1 & E2 & E3) by by rewrite Het.
  unfold AppendKVTxn. rewrite He, E1, E2, E3. cbn [negb andb]. rewrite andb_false_r. cbn [andb txnEntryType txnOperation]. rewrite E3. cbn [negb].
  set (kvE := SerializeKVEntry (KeyKV key) value). record_of_txn t.
  destruct (txn_record_links Lg t b rest hlc (nextLSN e) (crc32.ChecksumIEEE kvE) TransactionStatePrepare kvE Hp Hc Hk Hh Hl) as (Hr & Hdec & Hch);
    [apply sum_range; lia|by vm_compute|].
  cbn zeta in Hr, Hdec, Hch. set (r := fb_of_record _) in *.
  destruct (core_append_open n e Lg opss md _ r Hinv Hr) as (e1 & res & Ha & Hst & Hlsn & Hoff & Hres); [apply rm_open; by right|].
  change (writeSeenCounter (with_counter (nextLSN e) e)) with (nextLSN e). rewrite Ha. cbn [mbind outcome_bind].
  destruct res as [p|err]; (eexists e1, _, _; split; [done|]); split_and!; try done.
  destruct Hres as [Hinv' Hp']. eexists _, p. split; [exact Hinv'|]. split; [|done].
  split; cbn; [done|done|by apply sum_range|]. exists b, (rest ++ [r]). split; [apply Hch|]. cbn. split; [done|]. split_and!.
  - apply Forall2_app; [eapply Forall2_impl; [exact Hm|]; intros; by apply means_grow|]. constructor; [|constructor].
    destruct Hk as [[_ [Hop|Hop]]|[[Hx _]|[Hx _]]]; [| |congruence..]; rewrite Hop, Het; [apply means_put|apply means_delete]; apply typed_KeyKV.
  - apply Forall_app. split; [done|]. apply Forall_singleton. by rewrite Het.
  - rewrite (all_entries_snoc rest r kvE) by (unfold r; by rewrite record_of_fb). apply Forall2_app; [done|]. constructor; [|constructor].
    destruct Hk as [[_ [Hop|Hop]]|[[Hx _]|[Hx _]]]; [| |congruence..]; rewrite Hop, Het.
    + apply (em_put _ _ _ (mkKV (KeyKV key) value)); [done..|apply kv_roundtrip|apply typed_KeyKV].
    + apply (em_delete _ _ _ (mkKV (KeyKV key) value)); [done..|apply kv_roundtrip|apply typed_KeyKV].
Qed.

Lemma prepare_chunk n e Lg opss md hlc t k chunks key value : engine_inv (S n) e Lg opss md -> txn_inv Lg (ArenaSize e) t (GChunks k chunks) ->
  k = None \/ k = Some (KeyBlobChunk key 0) -> blob_key (KeyBlobChunk key 0) -> 0 <= hlc < 2 ^ 64 ->
  prepared n e Lg opss md t (GChunks (Some (KeyBlobChunk key 0)) (chunks ++ [value])) (AppendKVTxn hlc e t key value).
Proof.
  intros Hinv [He Hk Hs (b & rest & Hc & Hg)] Hkey Hblob Hh. destruct Hg as (Het & Hrow & Hch0 & Hb0).
  pose proof Hinv as (base & tabs & act & Hcore & _). pose proof (chain_real _ _ _ _ _ (co_wal _ _ _ _ _ _ _ _ _ Hcore) Hc) as Hp. pose proof (nextLSN_range e) as Hl.
  assert (txnOperation t = LogOperationTypeInsert) as Hop by (destruct Hk as [[Hx _]|[[Hx _]|[_ ?]]]; [rewrite Het in Hx; discriminate Hx..|done]).
  assert ((txnEntryType t =? LogEntryTypeRow) = false /\ (txnEntryType t =? LogEntryTypeKV) = false /\ (txnEntryType t =? LogEntryTypeChunked) = true /\
    (txnOperation t =? LogOperationTypeInsert) = true) as (E1 & E2 & E3 & E4) by by rewrite Het, Hop.
  unfold AppendKVTxn. rewrite He, E1, E2, E3, E4. cbn [negb andb].
  assert (match rowKey t with Some _ as r => r | None => Some (KeyBlobChunk key 0) end = Some (KeyBlobChunk key 0)) as -> by (rewrite Hrow; by destruct Hkey as [-> | ->]).
  cbn [default from_option id]. rewrite bool_decide_true by done. cbn [negb andb txnEntryType]. rewrite E3. cbn [negb].
  set (kvE := SerializeKVEntry (KeyBlobChunk key 0) value). record_of_txn t.
  destruct (txn_record_links Lg t b rest hlc (nextLSN e) (crc32.ChecksumIEEE kvE) TransactionStatePrepare kvE Hp Hc Hk Hh Hl) as (Hr & Hdec & Hch);
    [apply sum_range; lia|by vm_compute|].
  cbn zeta in Hr, Hdec, Hch. set (r := fb_of_record _) in *.
  destruct (core_append_open n e Lg opss md _ r Hinv Hr) as (e1 & res & Ha & Hst & Hlsn & Hoff & Hres); [apply rm_open; by right|].
  change (writeSeenCounter (with_counter (nextLSN e) e)) with (nextLSN e). rewrite Ha. cbn [mbind outcome_bind].
  destruct res as [p|err]; (eexists e1, _, _; split; [done|]); split_and!; try done.
  destruct Hres as [Hinv' Hp']. eexists _, p. split; [exact Hinv'|]. split; [|done].
  split; cbn; [done|done|by apply sum_range|]. exists b, (rest ++ [r]). split; [apply Hch|]. cbn. split_and!; try done.
  apply (chunk_values_snoc rest r (mkKV (KeyBlobChunk key 0) value)); [done|]. unfold first_entry, r. rewrite record_of_fb. cbn. apply kv_roundtrip.
Qed.

Lemma prepare_row n e Lg opss md hlc t ops row cols : engine_inv (S n) e Lg opss md -> txn_inv Lg (ArenaSize e) t (GOps ops) ->
  txnEntryType t = LogEntryTypeRow -> 0 <= hlc < 2 ^ 64 -> cols <> [] -> NoDup cols.*1 -> row_key (RowKey row) ->
  fits (ArenaSize e) (RowKey row, mkValue (txnOperation t) EntryTypeRow (SerializeRowUpdateEntry (RowKey row) cols)) ->
  prepared n e Lg opss md t (GOps (ops ++ [txn_row_op (txnOperation t) (RowKey row) cols])) (AppendColumnTxn hlc e t row cols).
Proof.
  intros Hinv [He Hk Hs (b & rest & Hc & Hg)] Het Hh Hne Hnd Hrow Hfit. destruct Hg as (Hnc & Hm & Hfits & Hent).
  pose proof Hinv as (base & tabs & act & Hcore & _). pose proof (chain_real _ _ _ _ _ (co_wal _ _ _ _ _ _ _ _ _ Hcore) Hc) as Hp. pose proof (nextLSN_range e) as Hl.
  assert ((txnEntryType t =? LogEntryTypeRow) = true) as E1 by by rewrite Het.
  assert ((blen cols =? 0) = false) as E2 by (unfold blen; destruct cols; [done|]; apply Z.eqb_neq; cbn [length]; lia).
  unfold AppendColumnTxn. rewrite He, E1, E2. cbn [negb]. set (rce := SerializeRowUpdateEntry (RowKey row) cols).
  destruct (txn_record_links Lg t b rest hlc (nextLSN e) (crc32.ChecksumIEEE rce) TransactionStatePrepare rce Hp Hc Hk Hh Hl) as (Hr & Hdec & Hch);
    [apply sum_range; lia|by vm_compute|].
  cbn zeta in Hr, Hdec, Hch. set (r := fb_of_record _) in *.
  destruct (core_append_open n e Lg opss md _ r Hinv Hr) as (e1 & res & Ha & Hst & Hlsn & Hoff & Hres); [apply rm_open; by right|].
  change (writeSeenCounter (with_counter (nextLSN e) e)) with (nextLSN e). rewrite Ha. cbn [mbind outcome_bind].
  destruct res as [p|err]; (eexists e1, _, _; split; [done|]); split_and!; try done.
  destruct Hres as [Hinv' Hp']. eexists _, p. split; [exact Hinv'|]. split; [|done].
  split; cbn; [done|done|by apply sum_range|]. exists b, (rest ++ [r]). split; [apply Hch|]. cbn. split; [done|].
  pose proof (row_roundtrip (RowKey row) cols Hnd) as Hrt. destruct Hk as [[Hx _]|[[_ Hop]|[Hx _]]]; [rewrite Het in Hx; discriminate Hx| |rewrite Het in Hx; discriminate Hx]. split_and!.
  - apply Forall2_app; [eapply Forall2_impl; [exact Hm|]; intros; by apply means_grow|]. constructor; [|constructor]. rewrite Het.
    destruct Hop as [-> |[-> | ->]]; [by apply (means_set_cells _ _ _ _ Hrow Hrt)|by apply (means_delete_cells _ _ _ _ Hrow Hrt)|by apply means_delete_row].
  - apply Forall_app. split; [done|]. apply Forall_singleton. by rewrite Het.
  - rewrite (all_entries_snoc rest r rce) by (unfold r; by rewrite record_of_fb). apply Forall2_app; [done|]. constructor; [|constructor]. rewrite Het.
    destruct Hop as [-> |[-> | ->]]; [by apply (em_set_cells _ _ _ _ eq_refl eq_refl Hrt)|by apply (em_delete_cells _ _ _ _ eq_refl eq_refl Hrt)|
      by apply (em_delete_row _ _ _ _ eq_refl eq_refl Hrt)].
Qed.

(** ** Commit *)

Definition commit_ops (t : Txn) (g : gathered) : list queued_op :=
  match g with
  | GOps ops => ops
  | GChunks (Some key) chunks => [QSetLobChunks key chunks (checksum t)]
  | GChunks None _ => []
  end.

Definition commit_ok (arena : Z) (t : Txn) (g : gathered) : Prop :=
  match g with
  | GOps ops => ops <> [] /\ (txnOperation t = LogOperationTypeDeleteRowByKey -> rows_ok (length ops))
  | GChunks key chunks => chunks <> [] /\ blen chunks < 2 ^ 32 /\
      forall k p, key = Some k -> fits arena (k, mkValue LogOperationInsert EntryTypeChunked (Encode p))
  end.

(** What the commit writes to the memory table. *)
Definition commit_puts (t : Txn) (p : RecordPosition) : list put :=
  if txnEntryType t =? LogEntryTypeChunked
  then [(default [] (rowKey t), mkValue LogOperationInsert EntryTypeChunked (Encode p))] else memTableEntries t.

Definition commit_after (t : Txn) : Engine -> Engine := if txnEntryType t =? LogEntryTypeChunked then (fun e => e) else writeNilOffset.

Lemma commit_after_neutral t : neutral rows_ok (commit_after t).
Proof. unfold commit_after. destruct (_ =? _); [apply neutral_id|apply neutral_nil]. Qed.

Lemma Commit_unfold hlc now (e : Engine) t : t_err t = None -> txn_kind (txnOperation t) (txnEntryType t) ->
  Commit hlc now e t =
  ('(e, r) ← append_record (with_counter (nextLSN e) e)
     (txn_record hlc (nextLSN e) (checksum t) TransactionStateCommit t (SerializeKVEntry (default [] (rowKey t)) []));
   match r with
   | Err err => Ret (e, txn_failed (EWal err) t, Some (EWal err))
   | Ok p =>
       let t' := mkTxn None p (memTableEntries t) (rowKey t) (txnID t) (valuesCount t) (checksum t) (chunkedValueChecksum t) (txnOperation t) (txnEntryType t) in
       '(e, mErr) ← finish_record (commit_after t) now (commit_puts t p) p e;
       Ret (e, txn_failed (match mErr with Some err => err | None => ErrTxnAlreadyCommitted end) t', mErr)
   end).
Proof.
  intros He Hk. unfold Commit. rewrite He. destruct (append_record _ _) as [[e1 [p|err]]| |]; [|done..]. cbn [mbind outcome_bind].
  unfold commit_after, commit_puts. destruct Hk as [[Het _]|[[Het _]|[Het _]]]; cbn [txnEntryType]; rewrite Het; cbn.
  - unfold memWriteFull, finish_record. cbn [memTableEntries prevOffset]. destruct (mem_writes _ _ _ _) as [[e2 [err|]]| |]; [done| |done..].
    cbn [mbind outcome_bind]. by destruct (notifyAppend _).
  - unfold memWriteFull, finish_record. cbn [memTableEntries prevOffset]. destruct (mem_writes _ _ _ _) as [[e2 [err|]]| |]; [done| |done..].
    cbn [mbind outcome_bind]. by destruct (notifyAppend _).
  - unfold memWriteChunk, finish_record. cbn [mem_writes rowKey prevOffset]. change LogEntryTypeChunked with EntryTypeChunked. change LogOperationTypeInsert with LogOperationInsert.
    unfold getValueStruct. destruct (memTableWrite _ _ _ _) as [[e2 [err|]]| |]; [done| |done..]. unfold writeOffset. cbn [mbind outcome_bind notifier with_tables].
    by destruct (notifyAppend (notifier e2)).
Qed.

Lemma commit_record_means Lg arena t g b rest hlc lsn : real_pos (prevOffset t) -> chain Lg (prevOffset t) (b :: rest) -> gathers Lg arena t rest g ->
  commit_ok arena t g ->
  let r := fb_of_record (mkLogRecord lsn hlc (checksum t) (txnOperation t) TransactionStateCommit (txnEntryType t) (txnID t) (Encode (prevOffset t))
             [SerializeKVEntry (default [] (rowKey t)) []]) in
  record_means rows_ok Lg r (commit_ops t g).
Proof.
  intros Hp Hc Hg Hok r.
  assert (DecodeOffset (PrevTxnWalIndexBytes r) = Ret (Some (prevOffset t))) as Hdec by (unfold r; rewrite prev_of_fb; by apply DecodeOffset_Encode).
  destruct g as [ops|key chunks]; cbn [gathers commit_ok commit_ops] in *.
  - destruct Hg as (Hnc & _ & _ & Hent). destruct Hok as [Hne Hrows]. apply (rm_txn _ _ _ (prevOffset t) b rest); [done..|].
    pose proof (Forall2_length _ _ _ Hent) as Hlen. split_and!; [intros Hnil; rewrite Hnil in Hlen; by destruct ops|done|]. rewrite Hlen. exact Hrows.
  - destruct Hg as (Het & Hrow & Hch & Hkey). destruct Hok as (Hne & Hn & _). destruct key as [key|]; [|done].
    change (checksum t) with (fb_crc32_checksum r). change key with (kv_Key (mkKV key [])) at 1.
    apply (rm_chunks rows_ok Lg r (mkKV key []) (prevOffset t) b rest chunks); try done. unfold first_entry, r. rewrite record_of_fb, Hrow. apply kv_roundtrip.
Qed.

Lemma commit_puts_mean Lg arena t g b rest hlc lsn p : real_pos (prevOffset t) -> real_pos p -> chain Lg (prevOffset t) (b :: rest) -> gathers Lg arena t rest g ->
  commit_ok arena t g -> txn_kind (txnOperation t) (txnEntryType t) -> 0 <= hlc < 2 ^ 64 -> 0 <= lsn < 2 ^ 64 -> 0 <= checksum t < 2 ^ 32 ->
  Forall2 (means (Lg ++ [(txn_record hlc lsn (checksum t) TransactionStateCommit t (SerializeKVEntry (default [] (rowKey t)) []), p)])) (commit_puts t p) (commit_ops t g).
Proof.
  intros Hp Hp' Hc Hg Hok Hk Hh Hl Hs.
  destruct (txn_record_links Lg t b rest hlc lsn (checksum t) TransactionStateCommit (SerializeKVEntry (default [] (rowKey t)) []) Hp Hc Hk Hh Hl Hs) as (Hr & Hdec & _);
    [by vm_compute|]. unfold commit_puts. destruct g as [ops|key chunks]; cbn [gathers commit_ok commit_ops] in *.
  - destruct Hg as (Hnc & Hm & _). destruct (Z.eqb_spec (txnEntryType t) LogEntryTypeChunked); [done|].
    eapply Forall2_impl; [exact Hm|]. intros; by apply means_grow.
  - destruct Hg as (Het & Hrow & Hch & Hkey). rewrite Het. change (LogEntryTypeChunked =? LogEntryTypeChunked) with true. cbv iota.
    destruct Hok as (Hne & Hn & _). destruct key as [key|]; [|done]. rewrite Hrow. cbn [default from_option id]. constructor; [|constructor].
    apply (means_chunks _ _ _ p); [done..|by apply DecodeOffset_Encode|]. rewrite Hrow in Hr, Hdec. cbn [default from_option id] in Hr, Hdec.
    eexists Lg, _, [], _, (mkKV key []), (prevOffset t), b, rest. split; [done|]. split; [exact Hr|]. split_and!; try done.
    unfold first_entry. rewrite record_of_fb. apply kv_roundtrip.
Qed.

Lemma Commit_spec n e Lg opss md hlc now t g k : engine_inv (S (k + n)) e Lg opss md -> txn_inv Lg (ArenaSize e) t g -> commit_ok (ArenaSize e) t g ->
  (forall p, length (commit_puts t p) = k) -> 0 <= hlc < 2 ^ 64 -> (forall i, 0 <= now i < 2 ^ 63) ->
  exists e' t' err, Commit hlc now e t = Ret (e', t', err) /\ stable e e' /\ t_err t' <> None /\
    match err with
    | None => exists d p, engine_inv n e' (Lg ++ [(d, p)]) (opss ++ [commit_ops t g]) md /\ currentOffset e' = Some p
    | Some _ => engine_inv n e' Lg opss md /\ currentOffset e' = currentOffset e
    end.
Proof.
  intros Hinv [He Hk Hs (b & rest & Hc & Hg)] Hok Hlen Hh Hnow.
  pose proof Hinv as (base & tabs & act & Hcore & _). pose proof (chain_real _ _ _ _ _ (co_wal _ _ _ _ _ _ _ _ _ Hcore) Hc) as Hp. pose proof (nextLSN_range e) as Hl.
  destruct (txn_record_links Lg t b rest hlc (nextLSN e) (checksum t) TransactionStateCommit (SerializeKVEntry (default [] (rowKey t)) []) Hp Hc Hk Hh Hl Hs) as (Hr & _ & _);
    [by vm_compute|].
  destruct (write_record rows_ok n e Lg opss md _ _ (commit_ops t g) (commit_after t) now (commit_puts t) k (commit_after_neutral t) Hinv Hr
    (commit_record_means Lg (ArenaSize e) t g b rest hlc (nextLSN e) Hp Hc Hg Hok) Hnow) as (e' & err & Hrun & Hst & Hlsn & Hres).
  - intros p. split; [done|]. unfold commit_puts. destruct g as [ops|key chunks]; cbn [gathers commit_ok] in *.
    + destruct Hg as (Hnc & _ & Hf & _). by destruct (Z.eqb_spec (txnEntryType t) LogEntryTypeChunked).
    + destruct Hg as (-> & -> & _ & Hkey). change (LogEntryTypeChunked =? LogEntryTypeChunked) with true. cbv iota. destruct Hok as (Hne & _ & Hf).
      destruct key as [key|]; [|done]. apply Forall_singleton. by apply Hf.
  - intros p Hp'. by eapply commit_puts_mean.
  - rewrite Commit_unfold by done. destruct (append_record _ _) as [[e1 [p|werr]]| |]; [|..|done|done]; cbn [mbind outcome_bind] in Hrun |- *.
    + rewrite Hrun. cbn [mbind outcome_bind]. eexists e', _, err. split; [done|]. split; [done|]. split; [done|]. destruct err; [done|].
      destruct Hres as (p' & ? & ?). by eexists _, p'.
    + injection Hrun as <- <-. eexists e1, _, _. split; [done|]. split; [done|]. split; [done|]. done.
Qed.
End txns.
