(* ===== verification/EngineReads.v ===== *)
(** Reads of the engine: the newest table that knows a key, and the store below
    them, give what the operations written so far give. *)

From stdpp Require Import prelude list numbers gmap sorting.
From Stdlib Require Import ZArith Lia.
From S2P Require Import Prelude Bytes Segment KeyCodec KVKeys KVStore KVSpec KVReads KVQueue KVQueueFacts Overlay BTree.
From S2P Require Import LogCodec WalIO WalIOFacts TxnLog MemTable MemTableFacts FlushFacts FlushSpec Notify Engine Recovery LogMeaning EngineFacts.

(** A read answers [a], or the read of the store that it makes, [store], failed
    in the library. *)
Definition answers {A B} (store : outcome (result kv_error B)) (r : outcome (result engine_error A)) (a : result engine_error A) : Prop :=
  r = Ret a \/ exists x, store = Ret (Err (ErrLib x)) /\ r = Ret (Err (EStore (ErrLib x))).

(** ** Columns *)

Lemma set_columns_lookup (cols : columns) : forall (m : kvmap) c,
  foldl (fun m '(cn, cv) => <[cn := cv]> m) m cols !! c = overlay (Some <$> assoc_last cols c) (m !! c).
Proof.
  induction cols as [|[c' v] cols IH]; intros m c; cbn [foldl assoc_last]; [done|]. rewrite IH. destruct (assoc_last cols c); [done|].
  case_bool_decide as Hc; cbn; [subst; by rewrite lookup_insert_eq|by rewrite lookup_insert_ne].
Qed.

Lemma delete_columns_lookup (cols : columns) : forall (m : kvmap) c,
  foldl (fun m '(cn, _) => delete cn m) m cols !! c = overlay (if bool_decide (c ∈ cols.*1) then Some None else None) (m !! c).
Proof.
  induction cols as [|[c' v] cols IH]; intros m c; cbn [foldl].
  - rewrite bool_decide_false by by apply not_elem_of_nil. done.
  - rewrite IH. destruct (decide (c = c')) as [->|Hne].
    + rewrite (bool_decide_true (c' ∈ ((c', v) :: cols).*1)) by by left. rewrite lookup_delete_eq. by case_bool_decide.
    + rewrite lookup_delete_ne by done. rewrite (bool_decide_ext (c ∈ ((c', v) :: cols).*1) (c ∈ cols.*1)); [done|].
      cbn. rewrite elem_of_cons. naive_solver.
Qed.

Section columns.
Context `{FlatBuffers}.

Lemma cell_prefix key c : row_key key -> HasPrefix (key ++ c) (KVKeys.RowKey key) = true /\ drop (length (KVKeys.RowKey key)) (key ++ c) = c.
Proof. intros Hk. rewrite row_key_self by done. split; [apply HasPrefix_spec; by eexists|by rewrite drop_app_length]. Qed.

Lemma build_columns Lg key vs ops : row_key key -> Forall2 (fun v op => means Lg (key, v) op) vs ops -> forall m0 : kvmap,
  exists M, BuildColumnMap m0 vs = Ret M /\ forall c, M !! c = overlay (effs ops (key ++ c)) (m0 !! c).
Proof.
  intros Hk. induction 1 as [|v op vs ops Hm _ IH]; intros m0; [by exists m0|]. cbn [BuildColumnMap].
  assert (exists m1, (forall c, m1 !! c = overlay (eff op (key ++ c)) (m0 !! c)) /\
    BuildColumnMap m0 (v :: vs) = BuildColumnMap m1 vs) as (m1 & Hm1 & Hb).
  { inversion Hm as [k' value Hk'|k' value Hk'|k' value re Hk' Hre|k' value re Hk' Hre|k' value Hk'|k' value p chunks sum Hk' Hn' Hd Hcm]; subst.
    - exfalso. apply value_head in Hk'. by rewrite (row_head _ Hk) in Hk'.
    - exfalso. apply value_head in Hk'. by rewrite (row_head _ Hk) in Hk'.
    - exists (foldl (fun m '(cn, cv) => <[cn := cv]> m) m0 (row_Columns re)). split; [|cbn; unfold extractColumns; by rewrite Hre].
      intros c. cbn [eff]. destruct (cell_prefix key c Hk) as [-> ->]. apply set_columns_lookup.
    - exists (foldl (fun m '(cn, _) => delete cn m) m0 (row_Columns re)). split; [|cbn; unfold extractColumns; by rewrite Hre].
      intros c. cbn [eff]. destruct (cell_prefix key c Hk) as [-> ->]. apply delete_columns_lookup.
    - exists ∅. split; [|done]. intros c. cbn [eff]. by destruct (cell_prefix key c Hk) as [-> _].
    - exfalso. apply blob_head in Hk'. by rewrite (row_head _ Hk) in Hk'. }
  cbn [BuildColumnMap] in Hb. rewrite Hb. destruct (IH m1) as (M & -> & HM). exists M. split; [done|]. intros c. by rewrite HM, Hm1, effs_cons, overlay_then.
Qed.
End columns.

Section reads.
Context {L F W R D : Type} `{SkipListLaws L} `{BloomLaws F} `{WalLaws W R} `{BTreeLaws D} `{FlatBuffersLaws}.
Context (rows_ok : nat -> Prop).
Notation Engine := (Engine L F W D).
Notation core := (core rows_ok).

(** ** One table *)

Lemma table_knows Lg (t : MemTable L F) po key : Forall (fun x => means Lg x.1 x.2) po -> table_of t po.*1 -> ~ row_key key ->
  (Get t key = zero_value /\ forall k, owner key k -> effs po.*2 k = None) \/
  exists v op, Get t key = v /\ means Lg (key, v) op /\ forall k, owner key k -> effs po.*2 k = eff op k.
Proof.
  intros Hpo Ht Hr. rewrite (Get_spec t po.*1 key Ht). destruct (last_value po.*1 key) as [v|] eqn:Hv.
  - right. destruct (last_value_vop Lg po Hpo key v Hv) as (op & Hop & Hm). exists v, op. split; [done|]. split; [done|]. intros k Hown.
    rewrite (effs_about key) by (done || by eapply po_ok). destruct (vop_elem Lg po Hpo key op Hop) as (_ & Hk & _ & l & Hl). rewrite Hl, last_whole; [apply effs_one|].
    rewrite <- Hl, Forall_forall. intros o Ho. rewrite Hk. by apply (about_whole Lg po Hpo).
  - left. split; [done|]. intros k Hown. rewrite (effs_about key) by (done || by eapply po_ok). unfold about. rewrite filter_none; [done|].
    assert (vop po key = None) as Hn by (destruct (vop po key) as [op|] eqn:Hop; [|done]; destruct (vop_last_value po key op Hop) as (v & Hv' & _); congruence).
    intros op Hop. by apply (vop_none Lg po Hpo).
Qed.

(** ** The newest of several, newest first *)

Fixpoint tables_eff (pos : list put_ops) (k : bytes) : option (option bytes) :=
  match pos with [] => None | po :: rest => then_eff (tables_eff rest k) (effs po.*2 k) end.

Lemma tables_eff_reverse tabs k : tables_eff (reverse tabs) k = effs (tabs ≫= fun po => po.*2) k.
Proof.
  induction tabs as [|po tabs IH] using rev_ind; [done|]. rewrite reverse_app, bind_app, effs_app. cbn [reverse app tables_eff].
  change (reverse [po]) with [po]. cbn [app tables_eff]. rewrite IH. cbn. by rewrite app_nil_r.
Qed.

Lemma means_meta Lg p op : means Lg p op -> (Meta p.2 =? metaNoOp) = false.
Proof. by destruct 1. Qed.

Lemma newest_knows Lg (ts : list (MemTable L F)) pos key : Forall2 (fun t po => table_of t po.*1) ts pos ->
  Forall (Forall (fun x => means Lg x.1 x.2)) pos -> ~ row_key key ->
  (newest key ts = zero_value /\ forall k, owner key k -> tables_eff pos k = None) \/
  exists v op, newest key ts = v /\ means Lg (key, v) op /\ forall k, owner key k -> eff op k <> None -> tables_eff pos k = eff op k.
Proof.
  intros Hts Hm Hr. induction Hts as [|t po ts pos Ht Hts IH]; [by left|]. apply Forall_cons in Hm as [Hpo Hm]. cbn [newest tables_eff].
  destruct (table_knows Lg t po key Hpo Ht Hr) as [[-> Hnone]|(v & op & -> & Hop & Heff)].
  - cbn [negb Meta zero_value]. change (0 =? metaNoOp) with true. cbn [negb].
    destruct (IH Hm) as [[-> Hn]|(v & op & -> & Hop & Heff)]; [left|right; exists v, op]; split; try done.
    + intros k Hk. rewrite Hn, Hnone by done. done.
    + split; [done|]. intros k Hk Hne. rewrite Heff, Hnone by done. done.
  - pose proof (means_meta _ _ _ Hop) as Hmeta. cbn in Hmeta. rewrite Hmeta. cbn [negb]. right. exists v, op. split; [done|]. split; [done|].
    intros k Hk Hne. rewrite Heff by done. by destruct (eff op k).
Qed.

(** ** The engine *)

Section engine.
Context (n : nat) (e : Engine) (Lg : wal_log) (opss : list (list queued_op)) (base : list queued_op) (tabs : list put_ops) (act : put_ops) (md : kvmap).
Hypothesis (Hc : core n e Lg opss base tabs act md) (Hopen : shutdown e = false).

Definition view : kvmap := foldl a_queued ∅ (written base tabs act).

Lemma tables_ok : ops_ok ((tabs ≫= fun po => po.*2) ++ act.*2).
Proof.
  destruct (co_means _ _ _ _ _ _ _ _ _ Hc) as [Hs Ha]. apply Forall_app. split; [|by eapply po_ok].
  apply Forall_forall. intros op (po & Hop & Hin)%list_elem_of_bind. rewrite Forall_forall in Hs. pose proof (po_ok Lg po (Hs po Hin)) as Hok.
  unfold ops_ok in Hok. rewrite Forall_forall in Hok. by apply Hok.
Qed.

Lemma view_lookup k : view !! k = overlay (tables_eff (act :: reverse tabs) k) (foldl a_queued ∅ base !! k).
Proof.
  unfold view, written. rewrite foldl_app. destruct (queued_all_eff base ∅ (co_base _ _ _ _ _ _ _ _ _ Hc) lobs_ok_empty) as [Hl _].
  destruct (queued_all_eff _ _ tables_ok Hl) as [_ ->]. rewrite effs_app. cbn [tables_eff]. by rewrite tables_eff_reverse.
Qed.

Lemma engine_newest key : ~ row_key key ->
  (newest key (activeMemTable e :: reverse (sealedMemTables e)) = zero_value /\ forall k, owner key k -> tables_eff (act :: reverse tabs) k = None) \/
  exists v op, newest key (activeMemTable e :: reverse (sealedMemTables e)) = v /\ means Lg (key, v) op /\
    forall k, owner key k -> eff op k <> None -> tables_eff (act :: reverse tabs) k = eff op k.
Proof.
  intros Hr. destruct (co_means _ _ _ _ _ _ _ _ _ Hc) as [Hs Ha]. apply newest_knows; [| |done].
  - constructor; [apply (co_active _ _ _ _ _ _ _ _ _ Hc)|]. apply Forall2_reverse, (co_tables _ _ _ _ _ _ _ _ _ Hc).
  - constructor; [done|]. by apply Forall_reverse.
Qed.

Lemma value_not_row key : value_key key -> ~ row_key key.
Proof. intros Hv Hr. apply row_head in Hr. by rewrite (value_head _ Hv) in Hr. Qed.

Lemma blob_not_row key : blob_key key -> ~ row_key key.
Proof. intros Hv Hr. apply row_head in Hr. by rewrite (blob_head _ Hv) in Hr. Qed.

Lemma GetKV_spec key : answers (ds_GetKV (dataStore e) (KeyCodec.KeyKV key)) (GetKV e key) (match view !! KeyCodec.KeyKV key with Some v => Ok v | None => Err (EStore ErrKeyNotFound) end).
Proof.
  set (k := KeyCodec.KeyKV key). assert (value_key k) as Hk by apply typed_KeyKV. assert (owner k k) as Hown by by apply own_value.
  unfold GetKV. rewrite Hopen. fold k. rewrite view_lookup. destruct (engine_newest k (value_not_row k Hk)) as [[-> Hn]|(v & op & -> & Hm & Heff)].
  - cbn [Meta zero_value]. change (0 =? metaNoOp) with true. cbn [negb]. rewrite Hn by done. cbn [overlay default from_option id].
    destruct (ds_GetKV_law _ _ _ k (co_store _ _ _ _ _ _ _ _ _ Hc)) as [->|[x ->]]; [left|right; by exists x].
    rewrite (value_key_self k Hk). cbn. by destruct (foldl a_queued ∅ base !! k).
  - left. pose proof (means_meta _ _ _ Hm) as Hmeta. cbn in Hmeta. rewrite Hmeta. cbn [negb].
    inversion Hm as [k' value Hk'|k' value Hk'|k' value re Hk' Hre|k' value re Hk' Hre|k' value Hk'|k' value p chunks sum Hk' Hn' Hd Hcm]; subst;
      try (exfalso; by apply (value_not_row k)); try (exfalso; apply blob_head in Hk'; by rewrite (value_head _ Hk) in Hk').
    + assert (eff (QPutKV k [value] 0) k = Some (Some value)) as Ev by (cbn [eff]; by rewrite (value_key_self k Hk), bool_decide_true).
      by rewrite Heff, Ev by (done || by rewrite Ev).
    + assert (eff (QDeleteKV k) k = Some None) as Ev by (cbn [eff]; by rewrite (value_key_self k Hk), bool_decide_true).
      by rewrite Heff, Ev by (done || by rewrite Ev).
Qed.

(** ** Blobs *)

(** The contents hold the blob [key] with these chunks. *)
Definition holds (V : kvmap) (key : bytes) (chunks : list bytes) (sum : Z) : Prop :=
  forall k v, eff (QSetLobChunks key chunks sum) k = Some v -> V !! k = v.

Lemma chunk_eff key chunks sum i : blob_key key -> 0 <= i -> i + 1 < 2 ^ 32 ->
  eff (QSetLobChunks key chunks sum) (KVKeys.KeyBlobChunk key (i + 1)) = Some (chunks !! Z.to_nat i).
Proof.
  intros Hk Hi Hi'. pose proof (blob_key_typed _ Hk) as Ht. cbn [eff]. rewrite bool_decide_false.
  - rewrite chunk_key_index by (done || lia). destruct (Z.eqb_spec (i + 1) 0); [lia|]. by replace (i + 1 - 1) with i by lia.
  - intros Heq. apply (chunk_key_longer key (i + 1) Ht); [lia|]. by rewrite Heq, blob_key_meta.
Qed.

Lemma holds_unique V key chunks sum chunks' sum' : blob_key key -> blen chunks < 2 ^ 32 -> blen chunks' < 2 ^ 32 ->
  holds V key chunks sum -> holds V key chunks' sum' -> chunks = chunks'.
Proof.
  intros Hk Hn Hn' H1' H2'. unfold blen in *. apply list_eq. intros i. destruct (decide (Z.of_nat i + 1 < 2 ^ 32)) as [Hi|Hi].
  - pose proof (H1' _ _ (chunk_eff key chunks sum (Z.of_nat i) Hk ltac:(lia) Hi)) as E1.
    pose proof (H2' _ _ (chunk_eff key chunks' sum' (Z.of_nat i) Hk ltac:(lia) Hi)) as E2. rewrite Nat2Z.id in *. congruence.
  - rewrite !lookup_ge_None_2 by lia. done.
Qed.

Lemma blob_owner key chunks sum k v : blob_key key -> eff (QSetLobChunks key chunks sum) k = Some v -> owner key k.
Proof. intros Hk He. apply (eff_owner (QSetLobChunks key chunks sum)); [done|]. by rewrite He. Qed.

Lemma GetLOB_table fuel v key chunks sum : means Lg (key, v) (QSetLobChunks key chunks sum) -> (length Lg < fuel)%nat ->
  UserMeta v = EntryTypeChunked /\
  (r ← GetWalRecord v (walIO e); match r with Err err => Ret (Err (EWal err)) | Ok rec => reconstructChunkedValue fuel e rec end) = Ret (Ok (concat chunks)).
Proof.
  intros Hm Hf. inversion Hm as [| | | | |k' value p chunks' sum' Hk' Hn Hd Hcm]; subst. split; [done|].
  destruct Hcm as (A & dd & B & r & kv & p' & b & rest & HLg & Hr & _ & _ & _ & _ & _ & Hprev & Hch & Hvs).
  pose proof (co_wal _ _ _ _ _ _ _ _ _ Hc) as Hw. unfold GetWalRecord. cbn [Value]. rewrite Hd. cbn [mbind outcome_bind].
  rewrite (wl_Read_law n (walIO e) Lg dd p Hw) by (rewrite HLg; set_solver). cbn [mbind outcome_bind]. rewrite Hr. cbn [mbind outcome_bind].
  unfold reconstructChunkedValue. rewrite Hprev. cbn [mbind outcome_bind].
  rewrite (GetTransactionRecords_spec n (walIO e) Lg p' (b :: rest) fuel) by (done || (rewrite HLg; by apply chain_grow)). cbn [mbind outcome_bind drop_begin].
  by rewrite Hvs.
Qed.

Lemma GetLOB_spec fuel key : blob_key (KeyCodec.KeyBlobChunk key 0) -> (length Lg < fuel)%nat ->
  (forall chunks sum, blen chunks < 2 ^ 32 -> holds view (KeyCodec.KeyBlobChunk key 0) chunks sum -> answers (ds_GetLOBChunks (dataStore e) (KeyCodec.KeyBlobChunk key 0)) (GetLOB fuel e key) (Ok (concat chunks))) /\
  (view !! KeyCodec.KeyBlobChunk key 0 = None -> answers (ds_GetLOBChunks (dataStore e) (KeyCodec.KeyBlobChunk key 0)) (GetLOB fuel e key) (Err (EStore ErrKeyNotFound))).
Proof.
  intros Hk Hf. set (k := KeyCodec.KeyBlobChunk key 0) in *. unfold GetLOB. rewrite Hopen. fold k.
  assert (owner k k) as Hown by by apply own_meta.
  destruct (engine_newest k (blob_not_row k Hk)) as [[-> Hn]|(v & op & -> & Hm & Heff)].
  - cbn [UserMeta zero_value]. change (0 =? EntryTypeChunked) with false. cbv iota. split.
    + intros chunks sum Hlen Hh.
      destruct (ds_GetLOBChunks_law _ _ _ k chunks sum (co_store _ _ _ _ _ _ _ _ _ Hc) Hk Hlen) as [->|[x ->]]; [|left; done|right; by exists x].
      intros k' v Hv. rewrite <- (Hh k' v Hv), view_lookup, Hn by by eapply blob_owner. done.
    + intros Hnone. rewrite view_lookup, Hn in Hnone by done. cbn in Hnone.
      destruct (ds_GetLOBChunks_missing _ _ _ k (co_store _ _ _ _ _ _ _ _ _ Hc) Hk Hnone) as [->|[x ->]]; [left; done|right; by exists x].
  - assert (exists chunks sum, op = QSetLobChunks k chunks sum) as (chunks & sum & ->).
    { inversion Hm as [k' value Hk'|k' value Hk'|k' value re Hk' Hre|k' value re Hk' Hre|k' value Hk'|k' value p chunks sum Hk' Hn' Hd Hcm]; subst; [..|by eexists _, _];
        exfalso; first [by apply (blob_not_row k)|apply value_head in Hk'; by rewrite (blob_head _ Hk) in Hk']. }
    destruct (GetLOB_table fuel v k chunks sum Hm Hf) as [-> Hget]. change (EntryTypeChunked =? EntryTypeChunked) with true. cbv iota. rewrite Hget.
    assert (blen chunks < 2 ^ 32) as Hlen by (by inversion Hm).
    assert (holds view k chunks sum) as Hh.
    { intros k' v' Hv'. rewrite view_lookup, Heff, Hv' by (by eapply blob_owner || by rewrite Hv'). done. }
    split.
    + intros chunks' sum' Hlen' Hh'. left. by rewrite (holds_unique view k chunks sum chunks' sum').
    + intros Hnone. exfalso. rewrite (Hh k (Some (chunk_metadata (blen chunks) sum))) in Hnone; [done|]. cbn [eff]. by rewrite bool_decide_true.
Qed.

(** ** Rows *)

Definition row_operations (key : bytes) : list queued_op := (tabs ≫= fun po => row_os po key) ++ row_os act key.

Lemma row_values_mean key : row_key key ->
  Forall2 (fun v op => means Lg (key, v) op) ((sealedMemTables e ≫= fun sm => GetRowYValue sm key) ++ GetRowYValue (activeMemTable e) key) (row_operations key).
Proof.
  intros Hk. destruct (co_means _ _ _ _ _ _ _ _ _ Hc) as [Hs Ha]. apply Forall2_app.
  - pose proof (co_tables _ _ _ _ _ _ _ _ _ Hc) as Ht. revert Hs Ht. generalize (sealedMemTables e) tabs. clear Hc Hopen.
    intros ts pos Hs Ht. revert Hs. induction Ht as [|t po ts pos Ht _ IH]; intros Hs; [constructor|].
    apply Forall_cons in Hs as [Hpo Hs]. rewrite !bind_cons. apply Forall2_app; [by apply row_means|by apply IH].
  - apply row_means; [done|apply (co_active _ _ _ _ _ _ _ _ _ Hc)|done].
Qed.

Lemma row_operations_eff key k : row_key key -> owner key k -> tables_eff (act :: reverse tabs) k = effs (row_operations key) k.
Proof.
  intros Hk Hown. destruct (co_means _ _ _ _ _ _ _ _ _ Hc) as [Hs Ha]. cbn [tables_eff]. rewrite tables_eff_reverse. unfold row_operations. rewrite effs_app. f_equal.
  - revert Hs. generalize tabs. clear -Hk Hown. induction 1 as [|po pos Hpo Hs IH]; [done|]. rewrite !bind_cons, !effs_app, IH. f_equal.
    rewrite (effs_about key) by (done || by eapply po_ok). by rewrite (about_row Lg po Hpo).
  - rewrite (effs_about key) by (done || by eapply po_ok). by rewrite (about_row Lg act Ha).
Qed.

Lemma last_deletes key vs ops : Forall2 (fun v op => means Lg (key, v) op) vs ops -> is_row_deletion (list.last vs) = true ->
  exists l, ops = l ++ [QDeleteRow key].
Proof.
  intros Hm Hl. destruct (list.last vs) as [v|] eqn:Ev; [|done]. apply last_Some in Ev as [vs' ->]. apply Forall2_app_inv_l in Hm as (l & l2 & _ & Hm & ->).
  apply Forall2_cons_inv_l in Hm as (op & l3 & Hop & Hm & ->). apply Forall2_nil_inv_l in Hm as ->. exists l. do 2 f_equal.
  unfold is_row_deletion in Hl. inversion Hop; subst; first [done|discriminate Hl].
Qed.

Lemma cell_owner key c : row_key key -> owner key (key ++ c).
Proof. intros Hk. apply own_cell; [done|]. apply HasPrefix_spec. by eexists. Qed.

(** The cells of a row that the predicate accepts. *)
Definition cells_of (V : kvmap) (key : bytes) (predicate : option (bytes -> bool)) (M : kvmap) : Prop :=
  forall c, c <> [] \/ ds_bare = true -> M !! c = if matches predicate c then V !! (key ++ c) else None.

Lemma GetRowColumns_spec row predicate : row_key (KeyCodec.RowKey row) ->
  exists r, GetRowColumns e row predicate = Ret r /\
    ((exists x, ds_ScanRowCells (dataStore e) (KeyCodec.RowKey row) (matches predicate) = Ret (Err (ErrLib x)) /\ r = Err (EStore (ErrLib x))) \/
     exists M, cells_of view (KeyCodec.RowKey row) predicate M /\ (r = Ok M \/ (r = Err (EStore ErrKeyNotFound) /\ M = ∅))).
Proof.
  set (key := KeyCodec.RowKey row). intros Hk. unfold GetRowColumns. rewrite Hopen. fold key.
  destruct (is_row_deletion _) eqn:Hdel.
  - eexists. split; [done|]. right. exists ∅. split; [|by right]. intros c _. rewrite lookup_empty.
    pose proof (row_means Lg act (activeMemTable e) (proj2 (co_means _ _ _ _ _ _ _ _ _ Hc)) (co_active _ _ _ _ _ _ _ _ _ Hc) key Hk) as Hm.
    destruct (last_deletes key _ _ Hm Hdel) as [l Hl]. rewrite view_lookup, (row_operations_eff key) by (done || by apply cell_owner).
    unfold row_operations. rewrite Hl, app_assoc, effs_snoc. cbn [eff]. destruct (cell_prefix key c Hk) as [-> _]. by destruct (matches predicate c).
  - destruct (ds_ScanRowCells_law _ _ _ key (matches predicate) (co_store _ _ _ _ _ _ _ _ _ Hc)) as (V0 & HV0 & Hr).
    set (vs := _ ++ GetRowYValue (activeMemTable e) key).
    destruct Hr as [->|[x ->]]; [|eexists; split; [done|]; left; by exists x]. cbn [mbind outcome_bind].
    destruct (build_columns Lg key vs (row_operations key) Hk (row_values_mean key Hk) V0) as (M & HM & Hlook).
    assert (cells_of view key predicate (filter (fun kv => matches predicate kv.1 = true) M)) as Hcells.
    { intros c Hbare. rewrite map_lookup_filter, Hlook, HV0, view_lookup, (row_operations_eff key) by (done || by apply cell_owner).
      rewrite KeyColumn_RowKey, (row_key_self key Hk).
      assert (wanted ds_bare (matches predicate) c = matches predicate c) as ->.
      { unfold wanted. destruct Hbare as [Hne| ->]; [rewrite bool_decide_false, orb_true_r by done|]; done. }
      destruct (matches predicate c) eqn:Em; destruct (effs (row_operations key) (key ++ c)) as [[v|]|]; cbn; try done;
        try (destruct (foldl a_queued ∅ base !! (key ++ c)); cbn); try case_guard; cbn; congruence. }
    unfold scan_answer. case_bool_decide as HV.
    + rewrite HV in HM. rewrite HM. cbn [mbind outcome_bind negb]. rewrite andb_true_r. destruct (bool_decide (_ = ∅) && _) eqn:Hempty; (eexists; split; [done|]); right; eexists.
      * apply andb_prop in Hempty as [He%bool_decide_eq_true _]. split; [exact Hcells|]. right. done.
      * split; [exact Hcells|]. by left.
    + rewrite HM. cbn [mbind outcome_bind negb]. rewrite andb_false_r. eexists. split; [done|]. right. eexists. split; [exact Hcells|]. by left.
Qed.
End engine.
End reads.
