(* ===== verification/EngineFlush.v ===== *)
(** The background work of the engine: a flush moves the oldest sealed table to
    the store, a sync records how far the store has come.  Neither changes what
    has been written; both stop the process when the store fails. *)

From stdpp Require Import prelude list numbers gmap sorting.
From Stdlib Require Import ZArith Lia.
From S2P Require Import Prelude Bytes Segment KeyCodec KVKeys KVStore KVSpec KVReads KVQueue KVQueueFacts Overlay BTree.
From S2P Require Import LogCodec WalIO WalIOFacts TxnLog MemTable MemTableFacts FlushFacts FlushSpec Notify Engine Recovery LogMeaning EngineFacts.

Section background.
Context {L F W R D : Type} `{SkipListLaws L} `{BloomLaws F} `{WalLaws W R} `{BTreeLaws D} `{FlatBuffersLaws}.
Context (rows_ok : nat -> Prop).
Notation Engine := (Engine L F W D).
Notation core := (core rows_ok).

Lemma base_lobs base : ops_ok base -> lobs_ok (foldl a_queued ∅ base).
Proof. intros Hb. by destruct (queued_all_eff base ∅ Hb lobs_ok_empty). Qed.

Lemma covers_longer Lg opss p ops X : covers Lg opss p ops -> covers Lg opss p (ops ++ X).
Proof. intros (i & d & Hi & Hp). exists i, d. split; [done|]. by apply prefix_app_r. Qed.

Lemma checkpoint_longer Lg opss md base X : checkpoint_ok Lg opss md base -> checkpoint_ok Lg opss md (base ++ X).
Proof.
  unfold checkpoint_ok. destruct (md !! SysKeyWalCheckPoint); [|done]. intros (n & p & Hd & Hu & Hc). exists n, p. split_and!; [done..|]. by apply covers_longer.
Qed.

(** ** Flush *)

(** The flush of the oldest sealed table fails in the store. *)
Definition flush_fails (fuel : nat) (order : list bytes -> list bytes) (e : Engine) : Prop :=
  exists mt rest t d x, sealedMemTables e = mt :: rest /\ Flush fuel (walIO e) (fun _ => false) order mt (dataStore e) = Ret (t, d, Err (FlushKV x)).

Lemma core_flushed n e Lg opss base po tabs act md mt rest d fm z sig : core n e Lg opss base (po :: tabs) act md -> sealedMemTables e = mt :: rest ->
  ds_repr d (foldl a_queued ∅ (base ++ po.*2)) md -> Pos (fm_metadata fm) = lastOffset mt ->
  let e' := with_tables (activeMemTable e) rest (with_pending z (pendingMetadata e ++ [fm]) (with_store d e)) in
  core n (with_signals (flushReqSignal e') sig e') Lg opss (base ++ po.*2) tabs act md.
Proof.
  intros Hc Hse Hd Hpos e'. pose proof Hc as [Hwal Hlog Hbase Hstore Htables Hactive Harena Hmeans Hroom Hoffsets Hpending Hcheckpoint Hnotifier]. rewrite Hse in *. destruct Hmeans as [Hs Ha]. apply Forall_cons in Hs as [Hpo Hs].
  destruct Hoffsets as [Hcov Hoff]. split; cbn; try done.
  - apply Forall_app. split; [done|]. by eapply po_ok.
  - by apply Forall2_cons in Htables as [_ ?].
  - apply Forall_app. split; [|apply Forall_singleton; by rewrite Hpos]. eapply Forall_impl; [exact Hpending|]. intros fm' Hfm. cbn in *.
    destruct (Pos (fm_metadata fm')); [by apply covers_longer|done].
  - by apply checkpoint_longer.
Qed.

Lemma handleFlush_spec n e Lg opss base tabs act md fuel order : core n e Lg opss base tabs act md -> (length Lg < fuel)%nat -> (forall l, order l ≡ₚ l) ->
  (handleFlush fuel (fun _ => false) order e = Panic /\ flush_fails fuel order e) \/
  exists e' base' tabs', handleFlush fuel (fun _ => false) order e = Ret e' /\ core n e' Lg opss base' tabs' act md /\
    written base' tabs' act = written base tabs act /\ stable e e' /\ currentOffset e' = currentOffset e.
Proof.
  intros Hc Hfuel Horder. unfold handleFlush. destruct (flushPaused e) eqn:Hp; [right; by exists e, base, tabs|].
  destruct (sealedMemTables e) as [|mt rest] eqn:Hse; [right; by exists e, base, tabs|].
  destruct (IsEmpty mt); [right; by exists e, base, tabs|]. pose proof Hc as [Hwal Hlog Hbase Hstore Htables Hactive Harena Hmeans Hroom Hoffsets Hpending Hcheckpoint Hnotifier]. rewrite Hse in *.
  destruct tabs as [|po tabs]; [by inversion Htables|]. apply Forall2_cons in Htables as [Ht _]. destruct Hmeans as [Hs _]. apply Forall_cons in Hs as [Hpo _].
  destruct (Flush_spec fuel (walIO e) n Lg _ md po mt (dataStore e) Hwal Hfuel (base_lobs base Hbase) Hstore Hpo Ht order Horder) as (n' & d & r & Hf & Hr).
  rewrite Hf. cbn [mbind outcome_bind]. destruct r as [z|err].
  - right. rewrite <- foldl_app in Hr. destruct (btreeFlushIntervalEnabled _); (eexists _, (base ++ po.*2), tabs; split; [done|]; split;
      [refine (core_flushed n e Lg opss base po tabs act md mt rest d _ _ _ Hc Hse Hr _)|]; [done|]); (split; [|done]); unfold written; by rewrite bind_cons, !app_assoc.
  - left. destruct Hr as [(x & ->) _]. split; [done|]. by eexists mt, rest, _, d, x.
Qed.

(** ** Sync *)

Definition fsync_fails (e : Engine) : Prop :=
  exists fm, list.last (pendingMetadata e) = Some fm /\
    (Pos (fm_metadata fm) = None \/
     (exists d x, SaveMetadata (dataStore e) (Pos (fm_metadata fm)) (RecordProcessed (fm_metadata fm)) = Ret (d, Some x)) \/
     (exists d x, SaveMetadata (dataStore e) (Pos (fm_metadata fm)) (RecordProcessed (fm_metadata fm)) = Ret (d, None) /\ ds_FSync d = Some x)).

Lemma covers_real n (w : W) Lg opss p ops : wl_repr n w Lg -> covers Lg opss p ops -> real_pos p.
Proof.
  intros Hw (i & d & Hi & _). destruct (wl_positions _ _ _ Hw) as [_ Hall]. rewrite Forall_forall in Hall. apply Hall.
  apply (list_elem_of_fmap_2' snd _ (d, p)); [|done]. by eapply list_elem_of_lookup_2.
Qed.

(** The store after a checkpoint has been saved, or not. *)
Lemma SaveMetadata_spec n (w : W) (d : D) Lg opss base md m p z : wl_repr n w Lg -> ds_repr d m md -> checkpoint_ok Lg opss md base -> covers Lg opss p base ->
  exists d' err md', SaveMetadata d (Some p) z = Ret (d', err) /\ ds_repr d' m md' /\ checkpoint_ok Lg opss md' base.
Proof.
  intros Hw Hd Hck Hcov. destruct (metadata_decoded z p (covers_real _ _ _ _ _ _ Hw Hcov)) as (data & Hm & Hl & Hu).
  unfold SaveMetadata. rewrite Hm. cbn [mbind outcome_bind]. destruct (ds_StoreMetadata_law d m md SysKeyWalCheckPoint data Hd) as (d' & err & -> & Hr).
  destruct err as [err|]; [destruct Hr as [_ Hr]; by exists d', (Some err), md|]. exists d', None, (<[SysKeyWalCheckPoint := data]> md). split_and!; [done..|].
  unfold checkpoint_ok. rewrite lookup_insert_eq. exists (u64 z), p. split_and!; [|done..]. intros ->. done.
Qed.

Lemma fSyncStore_spec n e Lg opss base tabs act md : core n e Lg opss base tabs act md ->
  (fSyncStore e = Panic /\ fsync_fails e) \/
  exists e' md', fSyncStore e = Ret e' /\ core n e' Lg opss base tabs act md' /\ stable e e' /\ currentOffset e' = currentOffset e.
Proof.
  intros Hc. unfold fSyncStore. destruct (flushPaused e) eqn:Hp; [right; by exists e, md|].
  destruct (list.last (pendingMetadata e)) as [fm|] eqn:Hl; [|right; by exists e, md]. pose proof Hc as [Hwal Hlog Hbase Hstore Htables Hactive Harena Hmeans Hroom Hoffsets Hpending Hcheckpoint Hnotifier].
  assert (covered Lg opss (Pos (fm_metadata fm)) base) as Hcov.
  { rewrite Forall_forall in Hpending. apply Hpending. by apply last_Some_elem_of. }
  cbn [dataStore with_pending]. destruct (Pos (fm_metadata fm)) as [p|] eqn:Hpos.
  - destruct (SaveMetadata_spec n (walIO e) (dataStore e) Lg opss base md _ p (RecordProcessed (fm_metadata fm)) Hwal Hstore Hcheckpoint Hcov) as (d' & err & md' & Hs & Hd & Hck).
    rewrite Hs. cbn [mbind outcome_bind]. destruct err as [err|]; [left; split; [done|]; exists fm; split; [done|]; right; left; rewrite Hpos; by exists d', err|].
    destruct (ds_FSync d') as [x|] eqn:Hf; [left; split; [done|]; exists fm; split; [done|]; right; right; rewrite Hpos; by exists d', x|].
    right. eexists _, md'. split; [done|]. split; [|done]. by split.
  - left. split; [done|]. exists fm. split; [done|]. by left.
Qed.
End background.
