(* ===== verification/EngineSpec.v ===== *)
(** What the engine promises: a map with transactions.

    The state of the promise, [astate], is a map of typed keys and the
    transactions that are open with what they have gathered.  A call either
    fails and leaves the map alone, or does to the map what [a_step] says; the
    background work does nothing to it.  [sim] relates an engine and its
    transactions to such a state. *)

From stdpp Require Import prelude list numbers gmap sorting.
From Stdlib Require Import ZArith Lia.
From S2P Require Import Prelude Bytes Crc32 Segment KeyCodec KVKeys KVStore KVBolt KVSpec KVReads KVQueue KVQueueFacts Overlay BTree.
From S2P Require Import LogCodec WalIO WalIOFacts TxnLog MemTable MemTableFacts Samples FlushFacts FlushSpec Notify Engine Txn Recovery LogMeaning EngineFacts EngineWrites TxnFacts EngineReads EngineFlush.

#[local] Notation KeyKV := KeyCodec.KeyKV.
#[local] Notation RowKey := KeyCodec.RowKey.
#[local] Notation KeyBlobChunk := KeyCodec.KeyBlobChunk.

(** ** The promise *)

Record a_txn := mkATxn { at_op : Z; at_type : Z; at_gathered : gathered }.

(** A transaction that has ended is [None]. *)
Record astate := mkAState { a_map : kvmap; a_txns : list (option a_txn) }.

Inductive engine_call :=
| DoWrite (hlc : Z) (now : nat -> Z) (c : write_call)
| DoBegin (id : bytes) (hlc op et : Z)
| DoAppendKV (i : nat) (hlc : Z) (key value : bytes)
| DoAppendColumns (i : nat) (hlc : Z) (row : bytes) (cols : columns)
| DoCommit (i : nat) (hlc : Z) (now : nat -> Z)
| DoFlush (fuel : nat) (order : list bytes -> list bytes)
| DoSync.

(** What a transaction gathers from a call; [None] is a refusal that leaves it
    open, [Some None] one that ends it. *)
Definition gather_kv (key value : bytes) (t : a_txn) : option (option gathered) :=
  match at_gathered t with
  | GOps ops => if at_type t =? LogEntryTypeRow then None else Some (Some (GOps (ops ++ [txn_kv_op (at_op t) (KeyKV key) value])))
  | GChunks k chunks =>
      if bool_decide (default (KeyBlobChunk key 0) k = KeyBlobChunk key 0)
      then Some (Some (GChunks (Some (KeyBlobChunk key 0)) (chunks ++ [value]))) else Some None
  end.

Definition gather_columns (row : bytes) (cols : columns) (t : a_txn) : option (option gathered) :=
  match at_gathered t with
  | GOps ops => if (at_type t =? LogEntryTypeRow) && negb (bool_decide (cols = [])) then Some (Some (GOps (ops ++ [txn_row_op (at_op t) (RowKey row) cols]))) else None
  | GChunks _ _ => None
  end.

Definition with_txn (i : nat) (t : option a_txn) (a : astate) : astate := mkAState (a_map a) (<[i := t]> (a_txns a)).

(** The effect of a gathering call, by whether it failed. *)
Definition a_gather (i : nat) (g : a_txn -> option (option gathered)) (failed : bool) (a : astate) : astate :=
  match a_txns a !! i with
  | Some (Some t) =>
      match g t with
      | None => a
      | Some (Some g) => with_txn i (if failed then None else Some (mkATxn (at_op t) (at_type t) g)) a
      | Some None => with_txn i None a
      end
  | _ => a
  end.

(** What a commit does to the map; the checksum of a blob is some number. *)
Definition committed (sum : Z) (g : gathered) : list queued_op :=
  match g with GOps ops => ops | GChunks (Some key) chunks => [QSetLobChunks key chunks sum] | GChunks None _ => [] end.

Inductive a_step (a : astate) : engine_call -> option engine_error -> astate -> Prop :=
| as_write hlc now c : a_step a (DoWrite hlc now c) None (mkAState (foldl a_queued (a_map a) (call_ops c)) (a_txns a))
| as_write_fails hlc now c err : a_step a (DoWrite hlc now c) (Some err) a
| as_begin id hlc op et : a_step a (DoBegin id hlc op et) None
    (mkAState (a_map a) (a_txns a ++ [Some (mkATxn op et (if et =? LogEntryTypeChunked then GChunks None [] else GOps []))]))
| as_begin_fails id hlc op et err : a_step a (DoBegin id hlc op et) (Some err) a
| as_append_kv i hlc key value t g : a_txns a !! i = Some (Some t) -> gather_kv key value t = Some (Some g) ->
    a_step a (DoAppendKV i hlc key value) None (a_gather i (gather_kv key value) false a)
| as_append_kv_fails i hlc key value err : a_step a (DoAppendKV i hlc key value) (Some err) (a_gather i (gather_kv key value) true a)
| as_append_columns i hlc row cols t g : a_txns a !! i = Some (Some t) -> gather_columns row cols t = Some (Some g) ->
    a_step a (DoAppendColumns i hlc row cols) None (a_gather i (gather_columns row cols) false a)
| as_append_columns_fails i hlc row cols err : a_step a (DoAppendColumns i hlc row cols) (Some err) (a_gather i (gather_columns row cols) true a)
| as_commit i hlc now t sum : a_txns a !! i = Some (Some t) ->
    a_step a (DoCommit i hlc now) None (mkAState (foldl a_queued (a_map a) (committed sum (at_gathered t))) (<[i := None]> (a_txns a)))
| as_commit_fails i hlc now err : a_step a (DoCommit i hlc now) (Some err) (with_txn i None a)
| as_flush fuel order : a_step a (DoFlush fuel order) None a
| as_sync : a_step a DoSync None a.

Section spec.
Context {L F W R D : Type} `{SkipListLaws L} `{BloomLaws F} `{WalLaws W R} `{BTreeLaws D} `{FlatBuffersLaws}.
Context (rows_ok : nat -> Prop).
Notation Engine := (Engine L F W D).
Notation engine_inv := (engine_inv rows_ok).
Notation fits := (fits (L := L) (F := F)).

(** ** Running a call *)

Definition on_txn (i : nat) (f : Txn -> outcome (Engine * Txn * option engine_error)) (ts : list Txn) : outcome (Engine * list Txn * option engine_error) :=
  match ts !! i with
  | None => Panic
  | Some t => '(e, t, err) ← f t; Ret (e, <[i := t]> ts, err)
  end.

Definition run_call (c : engine_call) (e : Engine) (ts : list Txn) : outcome (Engine * list Txn * option engine_error) :=
  match c with
  | DoWrite hlc now c => '(e, err) ← run_write hlc now e c; Ret (e, ts, err)
  | DoBegin id hlc op et =>
      '(e, r) ← NewTxn (Some id) hlc e op et;
      match r with Ok t => Ret (e, ts ++ [t], None) | Err err => Ret (e, ts, Some err) end
  | DoAppendKV i hlc key value => on_txn i (fun t => AppendKVTxn hlc e t key value) ts
  | DoAppendColumns i hlc row cols => on_txn i (fun t => AppendColumnTxn hlc e t row cols) ts
  | DoCommit i hlc now => on_txn i (fun t => Commit hlc now e t) ts
  | DoFlush fuel order => e ← handleFlush fuel (fun _ => false) order e; Ret (e, ts, None)
  | DoSync => e ← fSyncStore e; Ret (e, ts, None)
  end.

(** ** The relation *)

Definition txn_sim (Lg : wal_log) (arena : Z) (t : Txn) (g : option a_txn) : Prop :=
  match g with
  | None => t_err t <> None
  | Some g => txn_inv Lg arena t (at_gathered g) /\ txnOperation t = at_op g /\ txnEntryType t = at_type g
  end.

(** [n] more records fit the log. *)
Definition sim (n : nat) (Lg : wal_log) (e : Engine) (ts : list Txn) (a : astate) : Prop :=
  exists opss md, engine_inv n e Lg opss md /\ a_map a = contents_of opss /\
    Forall2 (txn_sim Lg (ArenaSize e)) ts (a_txns a) /\ readOnly e = false /\ shutdown e = false.

(** What is asked of a call: arguments in order, and entries that fit a table. *)
Definition call_pre (arena : Z) (Lg : wal_log) (a : astate) (c : engine_call) : Prop :=
  match c with
  | DoWrite hlc now c => call_ok (L := L) (F := F) rows_ok arena c /\ 0 <= hlc < 2 ^ 64 /\ (forall i, 0 <= now i < 2 ^ 63)
  | DoBegin id hlc op et => txn_kind op et /\ 0 <= hlc < 2 ^ 64
  | DoAppendKV i hlc key value => 0 <= hlc < 2 ^ 64 /\
      exists t, a_txns a !! i = Some t /\ forall t', t = Some t' ->
        match at_gathered t' with
        | GOps _ => fits arena (KeyKV key, mkValue (at_op t') EntryTypeKV value)
        | GChunks _ _ => blob_key (KeyBlobChunk key 0)
        end
  | DoAppendColumns i hlc row cols => 0 <= hlc < 2 ^ 64 /\ NoDup cols.*1 /\ row_key (RowKey row) /\
      exists t, a_txns a !! i = Some t /\ forall t', t = Some t' -> fits arena (RowKey row, mkValue (at_op t') EntryTypeRow (SerializeRowUpdateEntry (RowKey row) cols))
  | DoCommit i hlc now => 0 <= hlc < 2 ^ 64 /\ (forall i, 0 <= now i < 2 ^ 63) /\
      exists t, a_txns a !! i = Some t /\ forall t', t = Some t' ->
        match at_gathered t' with
        | GOps ops => ops <> [] /\ (at_op t' = LogOperationTypeDeleteRowByKey -> rows_ok (length ops))
        | GChunks key chunks => chunks <> [] /\ blen chunks < 2 ^ 32 /\
            forall k p, key = Some k -> fits arena (k, mkValue LogOperationInsert EntryTypeChunked (Encode p))
        end
  | DoFlush fuel order => (length Lg < fuel)%nat /\ forall l, order l ≡ₚ l
  | DoSync => True
  end.

(** How much of the log a call may take. *)
Definition call_cost (a : astate) (c : engine_call) : nat :=
  match c with
  | DoWrite _ _ c => S (length (call_ops c))
  | DoBegin _ _ _ _ | DoAppendKV _ _ _ _ | DoAppendColumns _ _ _ _ => 1
  | DoCommit i _ _ => match a_txns a !! i with Some (Some (mkATxn _ _ (GOps ops))) => S (length ops) | _ => 2 end
  | DoFlush _ _ | DoSync => 0
  end.

(** When a call stops the process. *)
Definition stops (c : engine_call) (e : Engine) : Prop :=
  match c with
  | DoFlush fuel order => flush_fails fuel order e
  | DoSync => fsync_fails e
  | _ => False
  end.

(** ** Each call *)

Lemma txns_grow Lg X arena ts gs : Forall2 (txn_sim Lg arena) ts gs -> Forall2 (txn_sim (Lg ++ X) arena) ts gs.
Proof.
  intros Hs. eapply Forall2_impl; [exact Hs|]. intros t [g|]; [|done]. intros (Hi & Ho & Ht). split; [|done]. by apply txn_inv_grow.
Qed.

Lemma contents_snoc opss ops : contents_of (opss ++ [ops]) = foldl a_queued (contents_of opss) ops.
Proof. unfold contents_of. rewrite concat_app, foldl_app. cbn. by rewrite app_nil_r. Qed.

(** What the theorem says of a call. *)
Definition simulates (n : nat) (Lg : wal_log) (e : Engine) (ts : list Txn) (a : astate) (c : engine_call) : Prop :=
  (run_call c e ts = Panic /\ stops c e) \/
  exists e' ts' err a' Lg', run_call c e ts = Ret (e', ts', err) /\ a_step a c err a' /\ sim n Lg' e' ts' a' /\ Lg `prefix_of` Lg'.

(** The engine after a call that put a record on the log, or did not. *)
Lemma sim_logged n Lg d p e e' ts gs ops opss md m : engine_inv n e' (Lg ++ [(d, p)]) (opss ++ [ops]) md -> stable e e' ->
  m = contents_of opss -> Forall2 (txn_sim (Lg ++ [(d, p)]) (ArenaSize e)) ts gs -> readOnly e = false -> shutdown e = false ->
  sim n (Lg ++ [(d, p)]) e' ts (mkAState (foldl a_queued m ops) gs).
Proof.
  intros Hi (Ha & Hr & Hs & _) -> Ht Hro Hsd. exists (opss ++ [ops]), md. rewrite Ha, Hr, Hs. split_and!; try done. cbn. by rewrite contents_snoc.
Qed.

Lemma sim_unlogged n Lg e e' ts gs opss md m : engine_inv n e' Lg opss md -> stable e e' ->
  m = contents_of opss -> Forall2 (txn_sim Lg (ArenaSize e)) ts gs -> readOnly e = false -> shutdown e = false ->
  sim n Lg e' ts (mkAState m gs).
Proof. intros Hi (Ha & Hr & Hs & _) -> Ht Hro Hsd. exists opss, md. by rewrite Ha, Hr, Hs. Qed.

Lemma astate_eta a : mkAState (a_map a) (a_txns a) = a.
Proof. by destruct a. Qed.

Lemma call_puts_length arena c : call_ok (L := L) (F := F) rows_ok arena c -> length (call_puts c) = length (call_ops c).
Proof. intros Hok. eapply Forall2_length. by apply (call_puts_mean rows_ok arena c []). Qed.

Lemma simulates_write n Lg e ts a hlc now c : sim (call_cost a (DoWrite hlc now c) + n) Lg e ts a -> call_pre (ArenaSize e) Lg a (DoWrite hlc now c) ->
  simulates n Lg e ts a (DoWrite hlc now c).
Proof.
  intros (opss & md & Hi & Hm & Ht & Hro & Hsd) (Hok & Hh & Hnow). cbn [call_cost] in Hi. rewrite <- (call_puts_length _ _ Hok) in Hi.
  destruct (run_write_spec rows_ok n e Lg opss md hlc now c Hi Hok Hh Hnow Hro Hsd) as (e' & err & Hrun & Hst & _ & Hr).
  right. exists e', ts, err. cbn [run_call]. rewrite Hrun. cbn [mbind outcome_bind]. destruct err as [err|].
  - destruct Hr as [Hi' _]. exists a, Lg. split; [done|]. split; [constructor|]. split; [|done]. rewrite <- (astate_eta a). by eapply sim_unlogged.
  - destruct Hr as (d & p & Hi' & _). eexists _, _. split; [done|]. split; [constructor|]. split; [eapply sim_logged; try done; by apply txns_grow|by eexists].
Qed.

Lemma simulates_begin n Lg e ts a id hlc op et : sim (1 + n) Lg e ts a -> call_pre (ArenaSize e) Lg a (DoBegin id hlc op et) ->
  simulates n Lg e ts a (DoBegin id hlc op et).
Proof.
  intros (opss & md & Hi & Hm & Ht & Hro & Hsd) (Hk & Hh).
  destruct (NewTxn_spec rows_ok n e Lg opss md id hlc op et Hi Hro Hk Hh) as (e' & res & Hrun & Hst & _ & _ & Hr).
  right. cbn [run_call]. rewrite Hrun. cbn [mbind outcome_bind]. destruct res as [t|err].
  - destruct Hr as (d & p & Hi' & Hti). eexists e', _, None, _, _. split; [done|]. split; [constructor|]. split; [|by eexists].
    eapply (sim_logged n Lg d p e e' _ _ [] opss md _ Hi' Hst Hm); [|done..]. apply Forall2_app; [by apply txns_grow|]. constructor; [|constructor]. split; [done|].
    unfold NewTxn in Hrun. repeat (match type of Hrun with context [if ?b then _ else _] => destruct b; [done|] end).
    destruct (append_record _ _) as [[e1 [p1|]]| |]; [|done..]. by injection Hrun as _ <-.
  - exists e', ts, (Some err), a, Lg. split; [done|]. split; [constructor|]. split; [|done]. rewrite <- (astate_eta a). by eapply sim_unlogged.
Qed.

(** A call on a transaction that has put a record on the log. *)
Lemma simulates_prepared n Lg e ts a c i f g t at' g' opss md : sim (1 + n) Lg e ts a ->
  run_call c e ts = on_txn i f ts -> ts !! i = Some t -> a_txns a !! i = Some (Some at') -> txn_sim Lg (ArenaSize e) t (Some at') -> g at' = Some (Some g') ->
  a_map a = contents_of opss -> prepared rows_ok n e Lg opss md t g' (f t) ->
  a_step a c None (a_gather i g false a) -> (forall err, a_step a c (Some err) (a_gather i g true a)) -> simulates n Lg e ts a c.
Proof.
  intros (_ & _ & _ & _ & Ht & Hro & Hsd) Hrun Hti Hai (_ & Hop & Hty) Hg Hm (e' & t' & err & Hf & Hst & _ & Hr) Hok Hfail. right.
  rewrite Hrun. unfold on_txn. rewrite Hti, Hf. cbn [mbind outcome_bind]. unfold a_gather, with_txn in *. rewrite Hai, Hg in Hok, Hfail. destruct err as [err|].
  - destruct Hr as [Hi Hend]. eexists e', _, _, _, Lg. split; [done|]. split; [apply Hfail|]. split; [|done]. eapply sim_unlogged; try done. by apply Forall2_insert.
  - destruct Hr as (d & p & Hi & Hinv & Ho' & Ht'). eexists e', _, _, _, _. split; [done|]. split; [apply Hok|]. split; [|by eexists].
    eapply (sim_logged n Lg d p e e' _ _ [] opss md _ Hi Hst Hm); [|done..]. apply Forall2_insert; [by apply txns_grow|]. split; [done|]. cbn. split; congruence.
Qed.

(** One that refuses; [x] is what becomes of the transaction. *)
Lemma simulates_refused k n Lg e ts a c i f t t' x err : sim (k + n) Lg e ts a -> run_call c e ts = on_txn i f ts -> ts !! i = Some t ->
  f t = Ret (e, t', Some err) -> txn_sim Lg (ArenaSize e) t' x -> a_step a c (Some err) (with_txn i x a) -> simulates n Lg e ts a c.
Proof.
  intros (opss & md & Hi & Hm & Ht & Hro & Hsd) Hrun Hti Hf Hx Hstep. right. rewrite Hrun. unfold on_txn. rewrite Hti, Hf. cbn [mbind outcome_bind].
  eexists e, _, _, _, Lg. split; [done|]. split; [exact Hstep|]. split; [|done]. exists opss, md. split_and!; try done.
  - by eapply engine_inv_weaken.
  - by apply Forall2_insert.
Qed.

Lemma with_same_txn i x a : a_txns a !! i = Some x -> with_txn i x a = a.
Proof. intros Hx. unfold with_txn. rewrite list_insert_id by done. apply astate_eta. Qed.

(** The transaction of a call, and what stands for it. *)
Lemma sim_txn n Lg e ts a i x : sim n Lg e ts a -> a_txns a !! i = Some x -> exists t, ts !! i = Some t /\ txn_sim Lg (ArenaSize e) t x.
Proof. intros (_ & _ & _ & _ & Ht & _) Hx. destruct (Forall2_lookup_r _ _ _ _ _ Ht Hx) as (t & ? & ?). by exists t. Qed.

Lemma changed_key Lg arena t k chunks hlc (e : Engine) key value : txn_inv Lg arena t (GChunks (Some k) chunks) -> k <> KeyBlobChunk key 0 ->
  AppendKVTxn hlc e t key value = Ret (e, txn_failed ErrKeyChangedForChunkedType t, Some ErrKeyChangedForChunkedType).
Proof.
  intros [He Hk _ (b & rest & _ & (Hty & Hrow & _))] Hne.
  assert (txnOperation t = LogOperationTypeInsert) as Hop by (destruct Hk as [[Hx _]|[[Hx _]|[_ ?]]]; [rewrite Hty in Hx; discriminate Hx..|done]).
  unfold AppendKVTxn. rewrite He, Hty, Hop, Hrow. cbn. rewrite bool_decide_false by done. cbn. f_equal. f_equal. f_equal. destruct t; cbn in *. unfold txn_failed; cbn. by subst.
Qed.

Lemma simulates_append_kv n Lg e ts a i hlc key value : sim (1 + n) Lg e ts a -> call_pre (ArenaSize e) Lg a (DoAppendKV i hlc key value) ->
  simulates n Lg e ts a (DoAppendKV i hlc key value).
Proof.
  intros Hs (Hh & x & Hx & Hpre). destruct (sim_txn _ _ _ _ _ _ _ Hs Hx) as (t & Hti & Htx). set (c := DoAppendKV i hlc key value).
  set (f := fun t : Txn => AppendKVTxn hlc e t key value). assert (run_call c e ts = on_txn i f ts) as Hrun by done.
  assert (forall err, a_step a c (Some err) (a_gather i (gather_kv key value) true a)) as Hfail by constructor. pose proof Hfail as Hfail'.
  unfold a_gather in Hfail'. rewrite Hx in Hfail'. destruct x as [at'|].
  - specialize (Hpre at' eq_refl). destruct Htx as (Hinv & Hop & Hty). pose proof Hs as (opss & md & Hi & Hm & _).
    assert (forall g, gather_kv key value at' = Some (Some g) -> a_step a c None (a_gather i (gather_kv key value) false a)) as Hok by (intros g Hg; by econstructor).
    unfold gather_kv in Hok, Hfail'. destruct (at_gathered at') as [ops|k chunks] eqn:Hg.
    + destruct (Z.eqb_spec (at_type at') LogEntryTypeRow) as [Hrow|Hrow].
      * eapply (simulates_refused 1 n Lg e ts a c i f t t (Some at') ErrUnsupportedTxnType); try done; [|by split; [rewrite Hg|]|by rewrite with_same_txn].
        unfold f, AppendKVTxn. rewrite (ti_err _ _ _ _ Hinv), Hty, Hrow. done.
      * assert (txnEntryType t = LogEntryTypeKV) as Hkv.
        { destruct (ti_kind _ _ _ _ Hinv) as [[? _]|[[? _]|[? _]]]; [done|congruence|]. destruct (ti_chain _ _ _ _ Hinv) as (? & ? & _ & [? _]). done. }
        eapply (simulates_prepared n Lg e ts a c i f (gather_kv key value) t at'); try done; [by split; [rewrite Hg|]|..|].
        -- unfold gather_kv. rewrite Hg. by destruct (Z.eqb_spec (at_type at') LogEntryTypeRow).
        -- rewrite <- Hop in Hpre |- *. by apply prepare_kv.
        -- by eapply Hok.
    + case_bool_decide as Hkey.
      * eapply (simulates_prepared n Lg e ts a c i f (gather_kv key value) t at'); try done; [by split; [rewrite Hg|]|..|by eapply Hok].
        -- unfold gather_kv. rewrite Hg. by rewrite bool_decide_true.
        -- eapply prepare_chunk; try done. destruct k as [k|]; [right|by left]. cbn in Hkey. by subst.
      * destruct k as [k|]; [|done]. cbn in Hkey.
        by eapply (simulates_refused 1 n Lg e ts a c i f t _ None); [..|by eapply changed_key| |].
  - destruct (t_err t) as [err|] eqn:He; [|by destruct Htx].
    eapply (simulates_refused 1 n Lg e ts a c i f t t None err); try done; [unfold f, AppendKVTxn; by rewrite He|by rewrite with_same_txn].
Qed.

Lemma simulates_append_columns n Lg e ts a i hlc row cols : sim (1 + n) Lg e ts a -> call_pre (ArenaSize e) Lg a (DoAppendColumns i hlc row cols) ->
  simulates n Lg e ts a (DoAppendColumns i hlc row cols).
Proof.
  intros Hs (Hh & Hnd & Hrow & x & Hx & Hpre). destruct (sim_txn _ _ _ _ _ _ _ Hs Hx) as (t & Hti & Htx). set (c := DoAppendColumns i hlc row cols).
  set (f := fun t : Txn => AppendColumnTxn hlc e t row cols). assert (run_call c e ts = on_txn i f ts) as Hrun by done.
  assert (forall err, a_step a c (Some err) (a_gather i (gather_columns row cols) true a)) as Hfail by constructor. pose proof Hfail as Hfail'.
  unfold a_gather in Hfail'. rewrite Hx in Hfail'. destruct x as [at'|].
  - specialize (Hpre at' eq_refl). pose proof Htx as (Hinv & Hop & Hty). pose proof Hs as (opss & md & Hi & Hm & _).
    destruct (gather_columns row cols at') as [g|] eqn:Hg.
    + pose proof Hg as Hg'. unfold gather_columns in Hg'. destruct (at_gathered at') as [ops|] eqn:Hga; [|done].
      destruct (Z.eqb_spec (at_type at') LogEntryTypeRow) as [Hr|]; [|done]. case_bool_decide; [done|]. injection Hg' as <-.
      eapply (simulates_prepared n Lg e ts a c i f (gather_columns row cols) t at'); try done; [|by econstructor].
      rewrite <- Hop in Hpre |- *. apply prepare_row; try done. congruence.
    + assert (exists err, f t = Ret (e, t, Some err)) as (err & Hf).
      { unfold f, AppendColumnTxn. rewrite (ti_err _ _ _ _ Hinv), Hty. unfold gather_columns in Hg. destruct (Z.eqb_spec (at_type at') LogEntryTypeRow) as [Hr|]; [|by eexists]. cbn [negb].
        destruct (at_gathered at') as [ops|k chunks] eqn:Hga; [case_bool_decide; [subst; by eexists|done]|].
        destruct (ti_chain _ _ _ _ Hinv) as (? & ? & _ & [Hc _]). rewrite Hty, Hr in Hc. discriminate Hc. }
      eapply (simulates_refused 1 n Lg e ts a c i f t t (Some at') err); try done. by rewrite with_same_txn.
  - destruct (t_err t) as [err|] eqn:He; [|by destruct Htx].
    eapply (simulates_refused 1 n Lg e ts a c i f t t None err); try done; [unfold f, AppendColumnTxn; by rewrite He|by rewrite with_same_txn].
Qed.

Lemma commit_ops_committed t g : commit_ops t g = committed (checksum t) g.
Proof. by destruct g as [ops|[key|] chunks]. Qed.

Lemma simulates_commit n Lg e ts a i hlc now : sim (call_cost a (DoCommit i hlc now) + n) Lg e ts a -> call_pre (ArenaSize e) Lg a (DoCommit i hlc now) ->
  simulates n Lg e ts a (DoCommit i hlc now).
Proof.
  intros Hs (Hh & Hnow & x & Hx & Hpre). destruct (sim_txn _ _ _ _ _ _ _ Hs Hx) as (t & Hti & Htx). set (c := DoCommit i hlc now).
  set (f := fun t : Txn => Commit hlc now e t). assert (run_call c e ts = on_txn i f ts) as Hrun by done.
  assert (forall err, a_step a c (Some err) (with_txn i None a)) as Hfail by constructor. destruct x as [at'|].
  - specialize (Hpre at' eq_refl). destruct Htx as (Hinv & Hop & Hty). destruct Hs as (opss & md & Hi & Hm & Hts & Hro & Hsd).
    assert (commit_ok (L := L) (F := F) rows_ok (ArenaSize e) t (at_gathered at')) as Hok by (unfold commit_ok; rewrite Hop; done).
    assert (exists k, (forall p, length (commit_puts t p) = k) /\ call_cost a c = S k) as (k & Hlen & Hcost).
    { destruct (ti_chain _ _ _ _ Hinv) as (b & rest & _ & Hg). unfold commit_puts. cbn [call_cost c]. rewrite Hx. destruct at' as [op et [ops|key chunks]]; cbn in Hg |- *.
      - destruct Hg as (Hnc & Hmm & _). apply Z.eqb_neq in Hnc. rewrite Hnc. exists (length ops). split; [|done]. intros _. by eapply Forall2_length.
      - destruct Hg as (-> & _). by exists 1%nat. }
    fold c in Hi. rewrite Hcost in Hi. destruct (Commit_spec rows_ok n e Lg opss md hlc now t (at_gathered at') k Hi Hinv Hok Hlen Hh Hnow) as (e' & t' & err & Hf & Hst & Hend & Hr).
    right. rewrite Hrun. unfold on_txn. rewrite Hti. unfold f. rewrite Hf. cbn [mbind outcome_bind]. destruct err as [err|].
    + destruct Hr as [Hi' _]. eexists e', _, _, _, Lg. split; [done|]. split; [apply Hfail|]. split; [|done]. eapply sim_unlogged; try done. by apply Forall2_insert.
    + destruct Hr as (d & p & Hi' & _). rewrite commit_ops_committed in Hi'. eexists e', _, _, _, _. split; [done|]. split; [by eapply (as_commit a i hlc now at' (checksum t))|]. split; [|by eexists].
      eapply sim_logged; try done. apply Forall2_insert; [by apply txns_grow|done].
  - destruct (t_err t) as [err|] eqn:He; [|by destruct Htx].
    eapply (simulates_refused _ n Lg e ts a c i f t t None err); try done. unfold f, Commit. by rewrite He.
Qed.

(** A flush or a sync that returns has changed nothing that can be seen. *)
Lemma sim_flush n Lg e ts a fuel order : sim n Lg e ts a -> (length Lg < fuel)%nat -> (forall l, order l ≡ₚ l) ->
  (handleFlush fuel (fun _ => false) order e = Panic /\ flush_fails fuel order e) \/
  exists e', handleFlush fuel (fun _ => false) order e = Ret e' /\ sim n Lg e' ts a.
Proof.
  intros (opss & md & (base & tabs & act & Hc & Hw) & Hm & Ht & Hro & Hsd) Hf Ho.
  destruct (handleFlush_spec rows_ok n e Lg opss base tabs act md fuel order Hc Hf Ho) as [Hp|(e' & base' & tabs' & Hrun & Hc' & Hw' & Hst & _)]; [by left|].
  right. exists e'. split; [done|]. rewrite <- (astate_eta a). eapply sim_unlogged; try done. exists base', tabs', act. split; [done|congruence].
Qed.

Lemma sim_sync n Lg e ts a : sim n Lg e ts a ->
  (fSyncStore e = Panic /\ fsync_fails e) \/ exists e', fSyncStore e = Ret e' /\ sim n Lg e' ts a.
Proof.
  intros (opss & md & (base & tabs & act & Hc & Hw) & Hm & Ht & Hro & Hsd).
  destruct (fSyncStore_spec rows_ok n e Lg opss base tabs act md Hc) as [Hp|(e' & md' & Hrun & Hc' & Hst & _)]; [by left|].
  right. exists e'. split; [done|]. rewrite <- (astate_eta a). eapply sim_unlogged; try done. by exists base, tabs, act.
Qed.

Lemma simulates_background n Lg e ts a c : sim n Lg e ts a -> call_pre (ArenaSize e) Lg a c ->
  match c with DoFlush _ _ | DoSync => simulates n Lg e ts a c | _ => True end.
Proof.
  intros Hs Hpre. destruct c as [| | | | |fuel order|]; try done; unfold simulates; cbn [run_call].
  - destruct Hpre as [Hf Ho]. destruct (sim_flush n Lg e ts a fuel order Hs Hf Ho) as [[-> Hp]|(e' & -> & Hs')]; [by left|].
    right. exists e', ts, None, a, Lg. split; [done|]. split; [constructor|done].
  - destruct (sim_sync n Lg e ts a Hs) as [[-> Hp]|(e' & -> & Hs')]; [by left|].
    right. exists e', ts, None, a, Lg. split; [done|]. split; [constructor|done].
Qed.

Lemma simulates_call n Lg e ts a c : sim (call_cost a c + n) Lg e ts a -> call_pre (ArenaSize e) Lg a c -> simulates n Lg e ts a c.
Proof.
  intros Hs Hp. destruct c; [by apply simulates_write|by apply simulates_begin|by apply simulates_append_kv|by apply simulates_append_columns|by apply simulates_commit|..];
    exact (simulates_background _ _ _ _ _ _ Hs Hp).
Qed.


(** C6. Reads see the map.  A value is what the map holds for its key, a blob is
    the chunks the map holds joined together, a row is its cells that the
    predicate accepts, whether they are in the active table, in sealed ones or
    in the store.  Only a row without cells may be answered in two ways.  A read
    fails otherwise only when its read of the store fails. *)
Theorem reads_see_the_map n Lg e ts a : sim n Lg e ts a ->
  (forall key, answers (ds_GetKV (dataStore e) (KeyKV key)) (GetKV e key)
     (match a_map a !! KeyKV key with Some v => Ok v | None => Err (EStore ErrKeyNotFound) end)) /\
  (forall row predicate, row_key (RowKey row) -> exists r, GetRowColumns e row predicate = Ret r /\
     ((exists x, ds_ScanRowCells (dataStore e) (RowKey row) (matches predicate) = Ret (Err (ErrLib x)) /\ r = Err (EStore (ErrLib x))) \/
      exists M, cells_of (a_map a) (RowKey row) predicate M /\ (r = Ok M \/ (r = Err (EStore ErrKeyNotFound) /\ M = ∅)))) /\
  (forall fuel key, blob_key (KeyBlobChunk key 0) -> (length Lg < fuel)%nat ->
     (forall chunks sum, blen chunks < 2 ^ 32 -> holds (a_map a) (KeyBlobChunk key 0) chunks sum ->
        answers (ds_GetLOBChunks (dataStore e) (KeyBlobChunk key 0)) (GetLOB fuel e key) (Ok (concat chunks))) /\
     (a_map a !! KeyBlobChunk key 0 = None ->
        answers (ds_GetLOBChunks (dataStore e) (KeyBlobChunk key 0)) (GetLOB fuel e key) (Err (EStore ErrKeyNotFound)))).
Proof.
  intros (opss & md & (base & tabs & act & Hc & Hw) & Hm & _ & _ & Hsd).
  assert (a_map a = view base tabs act) as -> by (rewrite Hm; unfold view; by rewrite Hw). split_and!.
  - intros key. by eapply GetKV_spec.
  - intros row predicate Hrow. by eapply GetRowColumns_spec.
  - intros fuel key Hk Hf. by eapply GetLOB_spec.
Qed.

(** An engine on an empty log and an empty store. *)
Lemma initial_sim n conf io (w : W) (d : D) e : wl_repr n w [] -> ds_repr d ∅ ∅ -> Z.of_nat n <= 2 ^ 62 -> cf_ReadOnly conf = false ->
  io_NewWalIO io = Ok w -> initKVDriver conf io = Ok d ->
  initStorage conf io = Ok e -> sim n [] e [] (mkAState ∅ []) /\ ArenaSize e = cf_ArenaSize conf.
Proof.
  intros Hw Hd Hn Hro Hio Hkv. unfold initStorage. rewrite Hio, Hkv. destruct (negb _); [done|]. destruct (negb _); [done|]. destruct (tryFileLock _); [done|].
  destruct (_ <? _); [done|]. injection 1 as <-. split; [|done]. exists [], ∅. split; [|by split_and!].
  exists [], [], []. split; [|done]. split; cbn; try done; try (by constructor).
  apply new_table.
Qed.
End spec.

(** ** An example *)

Section example.
#[local] Existing Instance demo_codec.
#[local] Existing Instance demo_codec_laws.

Definition sample_config : EngineConfig := mkConfig (1024 * 1024) false 0 false BoltDBEngine.
Definition opened {W D} (w : W) (d : D) : OpenIO W D := mkOpenIO true true true (Some true) (Ok w) (Ok d) (Ok d).
Definition any_rows (n : nat) : Prop := True.

Notation SampleEngine := (Engine map_list (list bytes) WalWorld (BoltWorld kvmap)).

Lemma sample_sim : exists e : SampleEngine, sim any_rows 1000 [] e [] (mkAState ∅ []) /\ ArenaSize e = 1024 * 1024.
Proof.
  destruct sample_log as [w Hw]. destruct (initStorage sample_config (opened w (sample_store ∅))) as [e|err] eqn:He; [|discriminate He].
  exists e. eapply (initial_sim any_rows 1000 sample_config (opened w (sample_store ∅)) w (sample_store ∅) e); [done|apply sample_store_repr|vm_compute; discriminate|done..].
Qed.

Definition sample_write : write_call := CallPut [[Byte.x61]; [Byte.x62]] [[Byte.x01]; [Byte.x02]].


Lemma reads_see_the_map_witness : exists e : SampleEngine,
  sim any_rows 1000 [] e [] (mkAState ∅ []) /\
  answers (ds_GetKV (dataStore e) (KeyKV [Byte.x61])) (GetKV e [Byte.x61]) (Err (EStore ErrKeyNotFound)).
Proof.
  destruct sample_sim as (e & He & _). exists e. split; [exact He|].
  destruct (reads_see_the_map any_rows 1000 [] e [] (mkAState ∅ []) He) as [Hget _]. exact (Hget [Byte.x61]).
Defined.
End example.
