(* ===== verification/RecoveryFacts.v ===== *)
(** Recovery against the meaning of the log: replaying a record does to the
    store what the record means, and opening an engine after a crash gives back
    the contents that the log describes. *)

From stdpp Require Import prelude list numbers gmap sorting.
From Stdlib Require Import ZArith Lia.
From S2P Require Import Prelude Bytes Segment KeyCodec KVKeys KVStore KVBolt KVLmdb KVSpec KVReads KVQueue KVQueueFacts Overlay BTree BTreeLmdb.
From S2P Require Import LogCodec WalIO WalIOFacts TxnLog MemTable MemTableFacts Samples FlushFacts FlushSpec Notify Engine Txn Recovery LogMeaning EngineFacts EngineWrites TxnFacts EngineReads EngineFlush EngineSpec.

Section recovery.
Context {L F W R D : Type} `{SkipListLaws L} `{BloomLaws F} `{WalLaws W R} `{BTreeLaws D} `{FlatBuffersLaws}.
Context (rows_ok : nat -> Prop).
(** What the store can do with a deletion of several rows. *)
Hypothesis (Hsafe : forall m op, (forall rows, op = OBatchDeleteRows rows -> rows_ok (length rows)) -> ds_op_ok m op).
Notation Engine := (Engine L F W D).
Notation walRecovery := (walRecovery W D).

(** ** Entries as one call of the store *)

(** The call [o] has the effect of [ops]. *)
Definition call_is (o : kv_op) (ops : list queued_op) : Prop :=
  (forall m, a_apply o m = foldl a_queued m ops) /\ (forall m, lobs_ok m -> args_ok m o) /\
  (forall rows, o = OBatchDeleteRows rows -> rows_ok (length rows)).

Lemma kv_entries_list op entries ops : Forall2 (entry_means op LogEntryTypeKV) entries ops ->
  exists kvs, kv_list entries = Ret kvs /\ length kvs = length entries /\
    (op = LogOperationTypeInsert -> forall m, a_apply (OBatchSetKV (kv_Key <$> kvs) (kv_Value <$> kvs)) m = foldl a_queued m ops) /\
    (op = LogOperationTypeDelete -> forall m, a_apply (OBatchDeleteKV (kv_Key <$> kvs)) m = foldl a_queued m ops).
Proof.
  induction 1 as [|entry o entries ops He _ (kvs & Hl & Hlen & Hi & Hd)]; [by exists []|]. inversion He as [kv Hop _ Hk|kv Hop _ Hk|? _ Hx|? _ Hx|? _ Hx]; subst; try discriminate Hx;
    exists (kv :: kvs); cbn [kv_list]; rewrite Hk, Hl; (split; [done|]); (split; [by cbn; rewrite Hlen|]); split; intros Hop' m; try discriminate Hop'; cbn in *; auto.
Qed.

Lemma row_entries_list op entries ops : Forall2 (entry_means op LogEntryTypeRow) entries ops ->
  exists res, row_list entries = Ret res /\ length res = length entries /\
    (op = LogOperationTypeInsert -> forall m, a_apply (OBatchSetCells (row_Key <$> res) (row_Columns <$> res)) m = foldl a_queued m ops) /\
    (op = LogOperationTypeDelete -> forall m, a_apply (OBatchDeleteCells (row_Key <$> res) (row_Columns <$> res)) m = foldl a_queued m ops) /\
    (op = LogOperationTypeDeleteRowByKey -> forall m, a_apply (OBatchDeleteRows (row_Key <$> res)) m = foldl a_queued m ops).
Proof.
  induction 1 as [|entry o entries ops He _ (res & Hl & Hlen & Hi & Hd & Hr)]; [by exists []|]. inversion He as [? _ Hx|? _ Hx|re Hop _ Hk|re Hop _ Hk|re Hop _ Hk]; subst; try discriminate Hx;
    exists (re :: res); cbn [row_list]; rewrite Hk, Hl; (split; [done|]); (split; [by cbn; rewrite Hlen|]); split_and!; intros Hop' m; try discriminate Hop'; cbn in *; auto.
Qed.

(** The kinds of records, and the call that recovery makes for each. *)
Lemma entries_call op et entries ops : entries_mean rows_ok op et entries ops ->
  (et = LogEntryTypeKV /\ exists kvs, kv_list entries = Ret kvs /\
     ((op = LogOperationTypeInsert /\ call_is (OBatchSetKV (kv_Key <$> kvs) (kv_Value <$> kvs)) ops) \/
      (op = LogOperationTypeDelete /\ call_is (OBatchDeleteKV (kv_Key <$> kvs)) ops))) \/
  (et = LogEntryTypeRow /\ exists res, row_list entries = Ret res /\
     ((op = LogOperationTypeInsert /\ call_is (OBatchSetCells (row_Key <$> res) (row_Columns <$> res)) ops) \/
      (op = LogOperationTypeDelete /\ call_is (OBatchDeleteCells (row_Key <$> res) (row_Columns <$> res)) ops) \/
      (op = LogOperationTypeDeleteRowByKey /\ call_is (OBatchDeleteRows (row_Key <$> res)) ops))).
Proof.
  intros (Hne & Hf & Hrows). destruct entries as [|entry entries]; [done|].
  assert ((et = LogEntryTypeKV /\ (op = LogOperationTypeInsert \/ op = LogOperationTypeDelete)) \/
    (et = LogEntryTypeRow /\ (op = LogOperationTypeInsert \/ op = LogOperationTypeDelete \/ op = LogOperationTypeDeleteRowByKey))) as [[-> Hop]|[-> Hop]].
  { inversion Hf as [|? o ? ? He]; subst. destruct He; tauto. }
  - left. split; [done|]. destruct (kv_entries_list _ _ _ Hf) as (kvs & Hl & Hlen & Hi & Hd). exists kvs. split; [done|].
    assert (kvs <> []) as Hk by (by intros ->). destruct Hop as [-> | ->]; [left|right]; (split; [done|]); split_and!; try done; auto.
    intros m _. split; [by destruct kvs|by rewrite !length_fmap].
  - right. split; [done|]. destruct (row_entries_list _ _ _ Hf) as (res & Hl & Hlen & Hi & Hd & Hr). exists res. split; [done|].
    destruct Hop as [-> |[-> | ->]]; [left|right; left|right; right]; (split; [done|]); split_and!; try done; auto.
    + intros m _. cbn. by rewrite !length_fmap.
    + intros m _. cbn. by rewrite !length_fmap.
    + intros rows [= <-]. rewrite length_fmap, Hlen. by apply Hrows.
Qed.

(** ** A record *)

(** What a handler does: the store has the operations, or the library failed. *)
Definition replays (wr : walRecovery) (m md : kvmap) (ops : list queued_op) (r : outcome (walRecovery * option recovery_error)) : Prop :=
  exists wr' err, r = Ret (wr', err) /\ wr_wal wr' = wr_wal wr /\
    match err with
    | None => ds_repr (wr_store wr') (foldl a_queued m ops) md
    | Some err => (exists x, err = RecStore (ErrLib x)) /\ ds_repr (wr_store wr') m md
    end.

Lemma wr_call_spec wr m md o ops : ds_repr (wr_store wr) m md -> lobs_ok m -> call_is o ops -> replays wr m md ops (wr_call o wr).
Proof.
  intros Hd Hl (Ha & Hargs & Hrows). destruct (ds_call_law _ _ _ o Hd (Hsafe m o Hrows) (Hargs m Hl)) as (d' & e & Hc & Hr).
  unfold wr_call. rewrite Hc. cbn [mbind outcome_bind]. eexists _, _. split; [done|]. split; [done|]. destruct e as [e|].
  - destruct Hr as [[x ->] Hr]. split; [by exists x|done].
  - by rewrite <- Ha.
Qed.

Lemma replays_counted k wr m md ops r : replays (counted k wr) m md ops r -> replays wr m md ops r.
Proof. done. Qed.

Lemma txn_records_spec n Lg X r w p b rest fuel : wl_repr n w (Lg ++ X) -> DecodeOffset (PrevTxnWalIndexBytes r) = Ret (Some p) -> chain Lg p (b :: rest) ->
  (length (Lg ++ X) < fuel)%nat -> txn_records fuel r w = Ret (Ok (b :: rest, rest)).
Proof.
  intros Hw Hp Hc Hf. unfold txn_records. rewrite Hp. cbn [mbind outcome_bind].
  rewrite (GetTransactionRecords_spec n w (Lg ++ X) p (b :: rest) fuel) by (done || by apply chain_grow). done.
Qed.

Lemma handleRecord_spec n A X r ops fuel wr m md : record_means rows_ok A r ops -> wl_repr n (wr_wal wr) (A ++ X) -> (length (A ++ X) < fuel)%nat ->
  ds_repr (wr_store wr) m md -> lobs_ok m -> replays wr m md ops (handleRecord fuel r wr).
Proof.
  intros Hm Hw Hf Hd Hl. destruct Hm as [ops Hst He|Hst|p b rest ops Hst Hp Hc He|kv p b rest chunks Hst Het Hkv Hk Hp Hc Hch Hne Hn]; unfold handleRecord.
  - rewrite Hst. cbn [Z.eqb TransactionStateNone]. apply (replays_counted 1).
    destruct (entries_call _ _ _ _ He) as [(Het & kvs & Hls & Hop)|(Het & res & Hls & Hop)].
    + unfold handleInsert, handleDelete. rewrite Het, Hls. destruct Hop as [[-> Hc]|[-> Hc]]; by apply wr_call_spec.
    + unfold handleInsert, handleDelete, handleDeleteRowByKey. rewrite Het, Hls. destruct Hop as [[-> Hc]|[[-> Hc]|[-> Hc]]]; by apply wr_call_spec.
  - assert ((fb_txn_state r =? TransactionStateNone) = false /\ (fb_txn_state r =? TransactionStateCommit) = false) as [-> ->] by (by destruct Hst as [-> | ->]). by exists wr, None.
  - rewrite Hst. cbn [Z.eqb TransactionStateNone TransactionStateCommit]. unfold handleTxnCommited. pose proof (txn_records_spec n A X r (wr_wal wr) p b rest fuel Hw Hp Hc Hf) as Ht.
    apply (replays_counted 1). destruct (entries_call _ _ _ _ He) as [(Het & kvs & Hls & Hop)|(Het & res & Hls & Hop)]; rewrite Het.
    + change (LogEntryTypeKV =? LogEntryTypeKV) with true. cbv iota. unfold handleKVValuesTxn. cbn [wr_wal counted]. rewrite Ht. cbn [mbind outcome_bind]. rewrite Hls. cbn [mbind outcome_bind].
      apply (replays_counted (blen (b :: rest))). destruct Hop as [[-> Hcl]|[-> Hcl]]; by apply wr_call_spec.
    + change (LogEntryTypeRow =? LogEntryTypeKV) with false. change (LogEntryTypeRow =? LogEntryTypeChunked) with false. change (LogEntryTypeRow =? LogEntryTypeRow) with true. cbv iota.
      unfold handleRowColumnTxn. cbn [wr_wal counted]. rewrite Ht. cbn [mbind outcome_bind]. rewrite Hls. cbn [mbind outcome_bind].
      apply (replays_counted (blen (b :: rest))). destruct Hop as [[-> Hcl]|[[-> Hcl]|[-> Hcl]]]; by apply wr_call_spec.
  - rewrite Hst. cbn [Z.eqb TransactionStateNone TransactionStateCommit]. unfold handleTxnCommited. rewrite Het.
    change (LogEntryTypeChunked =? LogEntryTypeKV) with false. change (LogEntryTypeChunked =? LogEntryTypeChunked) with true. cbv iota.
    unfold handleChunkedValuesTxn. rewrite Hkv. cbn [mbind outcome_bind wr_wal counted].
    rewrite (txn_records_spec n A X r (wr_wal wr) p b rest fuel Hw Hp Hc Hf). cbn [mbind outcome_bind]. rewrite Hch. cbn [mbind outcome_bind].
    destruct (wr_call_spec (counted 1 wr) m md (OSetLobChunks (kv_Key kv) chunks (fb_crc32_checksum r)) [QSetLobChunks (kv_Key kv) chunks (fb_crc32_checksum r)] Hd Hl) as (wr' & err & Hr & Hw' & Hres).
    { split_and!; [done| |done]. intros m' Hl'. cbn. split_and!; [done..|by apply Hl']. }
    rewrite Hr. cbn [mbind outcome_bind]. by eexists _, err.
Qed.

(** ** The loop *)

Lemma log_means_at Lg opss : log_means rows_ok Lg opss ->
  Forall2 (fun x ops => exists A B r, Lg = A ++ x :: B /\ GetRootAsLogRecord x.1 = Ret r /\ record_means rows_ok A r ops) Lg opss.
Proof.
  induction 1 as [|A opss d p r ops HA IH Hr Hm]; [constructor|]. apply Forall2_app.
  - eapply Forall2_impl; [exact IH|]. intros x ops' (A' & B & r' & -> & Hr' & Hm'). exists A', (B ++ [(d, p)]), r'. by rewrite <- app_assoc.
  - constructor; [|constructor]. by exists A, [], r.
Qed.

(** The state of a run of recovery that has replayed [dn]. *)
Definition replayed (n : nat) (Lg : wal_log) (m md : kvmap) (dn : list (list queued_op)) (wr : walRecovery) : Prop :=
  wl_repr n (wr_wal wr) Lg /\ ds_repr (wr_store wr) (foldl a_queued m (concat dn)) md.

Definition last_pos (old : option RecordPosition) (items : wal_log) : option RecordPosition :=
  match list.last items with Some x => Some x.2 | None => old end.

Lemma engine_recover_loop_spec n Lg fuel md items : forall opss, (length Lg < fuel)%nat ->
  Forall2 (fun x ops => exists A B r, Lg = A ++ x :: B /\ GetRootAsLogRecord x.1 = Ret r /\ record_means rows_ok A r ops) items opss -> ops_ok (concat opss) ->
  forall steps rd wr m, (length items < steps)%nat -> wl_reading n (wr_wal wr) rd Lg items -> ds_repr (wr_store wr) m md -> lobs_ok m ->
  exists wr' err dn rest, recover_loop steps fuel rd wr = Ret (wr', err) /\ opss = dn ++ rest /\ replayed n Lg m md dn wr' /\
    match err with
    | None => rest = [] /\ lastRecoveredPos wr' = last_pos (lastRecoveredPos wr) items /\ (items = [] -> recoveredCount wr' = recoveredCount wr)
    | Some err => exists x, err = RecStore (ErrLib x)
    end.
Proof.
  induction items as [|x items IH]; intros opss Hf Hm Hok [|steps] rd wr m Hsteps Hrd Hd Hl; try (cbn in Hsteps; lia);
    destruct (wl_Next_law _ _ _ _ _ Hrd) as (w' & rd' & Hn & Hw' & Hrd'); cbn [recover_loop]; rewrite Hn; cbn [mbind outcome_bind].
  - apply Forall2_nil_inv_l in Hm as ->. by eexists _, None, [], [].
  - apply Forall2_cons_inv_l in Hm as (ops & opss' & (A & B & r & HL & Hr & Hrm) & Hm & ->). destruct x as [value pos]. cbn [fst] in Hr. rewrite Hr. cbn [mbind outcome_bind].
    cbn [concat] in Hok. apply Forall_app in Hok as [Hok1 Hok2]. specialize (Hrd' ltac:(done)). cbn [tail] in Hrd'.
    destruct (handleRecord_spec n A ((value, pos) :: B) r ops fuel (mkRecovery (wr_store wr) w' (recoveredCount wr) (lastRecoveredPos wr)) m md Hrm) as (wr1 & err & Hh & Hw1 & Hres);
      [by rewrite <- HL..|done|done|]. rewrite Hh. cbn [mbind outcome_bind]. destruct err as [err|].
    + destruct Hres as [Hx Hd1]. eexists _, (Some err), [], (ops :: opss'). split; [done|]. split; [done|]. split; [|done]. split; cbn; [by rewrite Hw1|done].
    + destruct (queued_all_eff ops m Hok1 Hl) as [Hl1 _]. cbn in Hw1.
      destruct (IH opss' Hf Hm Hok2 steps rd' (mkRecovery (wr_store wr1) (wr_wal wr1) (recoveredCount wr1) (Some pos)) (foldl a_queued m ops)) as (wr' & err & dn & rest & Hrun & -> & Hrep & Hres');
        [cbn in Hsteps; lia|by rewrite Hw1|done|done|].
      exists wr', err, (ops :: dn), rest. split; [done|]. split; [done|]. split; [unfold replayed in *; cbn [concat]; by rewrite foldl_app|].
      destruct err as [err|]; [done|]. destruct Hres' as (-> & Hlast & _). split_and!; [done| |done]. rewrite Hlast. unfold last_pos. cbn [lastRecoveredPos]. rewrite last_cons. by destruct (list.last items).
Qed.

(** ** After a crash *)

(** What a crash leaves: a log that means [opss], and a store with a part of it:
    first [base], which the checkpoint does not exceed, and then some operations
    that come later in the log. *)
Definition durable (n : nat) (w : W) (d : D) (Lg : wal_log) (opss : list (list queued_op)) (md : kvmap) : Prop :=
  wl_repr n w Lg /\ log_means rows_ok Lg opss /\
  exists base part rest, concat opss = base ++ rest /\ ds_repr d (foldl a_queued ∅ (base ++ part)) md /\
    (forall op, op ∈ part -> op ∈ rest) /\ checkpoint_ok Lg opss md base.

(** The records that recovery replays give the contents. *)
Lemma replay_contents opss i base part rest : ops_ok (concat opss) -> concat opss = base ++ rest -> (forall op, op ∈ part -> op ∈ rest) ->
  concat (take i opss) `prefix_of` base ->
  foldl a_queued (foldl a_queued ∅ (base ++ part)) (concat (drop i opss)) = contents_of opss.
Proof.
  intros Hok Hb Hp [more ->]. assert (concat opss = concat (take i opss) ++ concat (drop i opss)) as Hcut by (by rewrite <- concat_app, take_drop).
  rewrite Hcut, <- app_assoc in Hb. apply app_inv_head in Hb. rewrite Hcut in Hok. apply Forall_app in Hok as [Hok1 Hok2].
  unfold contents_of. rewrite Hcut, <- app_assoc, !(foldl_app _ (concat (take i opss))). apply redo; [done|by apply base_lobs|].
  intros op [Hop|Hop]%elem_of_app; rewrite Hb; apply elem_of_app; [by left|right; by apply Hp].
Qed.

(** Where recovery begins: after the record of the checkpoint. *)
Lemma recovery_begins n (w : W) (d : D) Lg opss md base steps fuel : wl_repr n w Lg -> checkpoint_ok Lg opss md base ->
  exists i (wr0 : walRecovery) rd, recoverWAL steps fuel (default [] (md !! SysKeyWalCheckPoint)) (NewWalRecovery d w) = recover_loop steps fuel rd wr0 /\
    wl_reading n (wr_wal wr0) rd Lg (drop i Lg) /\ wr_store wr0 = d /\ recoveredCount wr0 = 0 /\ lastRecoveredPos wr0 = None /\
    concat (take i opss) `prefix_of` base /\ checkpoint_ok Lg opss md (concat (take i opss)).
Proof.
  intros Hw Hck. unfold checkpoint_ok in Hck. destruct (md !! SysKeyWalCheckPoint) as [data|] eqn:Hmd; [change (default [] (Some data)) with data|change (default [] None) with (@nil Byte.byte)];
    unfold recoverWAL, checkpoint_offset.
  - destruct Hck as (z & p & Hne & Hun & i & dd & Hi & Hpre). assert ((blen data =? 0) = false) as -> by (destruct data; [done|]; apply Z.eqb_neq; unfold blen; cbn [length]; lia).
    rewrite Hun. cbn [mbind outcome_bind Pos wr_wal NewWalRecovery]. rewrite <- (take_drop_middle Lg i (dd, p) Hi) in Hw.
    destruct (wl_start_law _ _ _ _ _ _ Hw) as (rd & -> & Hrd). cbn [mbind outcome_bind]. rewrite (take_drop_middle Lg i (dd, p) Hi) in Hrd.
    destruct (wl_Next_law _ _ _ _ _ Hrd) as (w' & rd' & -> & Hw' & Hrd'). cbn [mbind outcome_bind]. specialize (Hrd' ltac:(done)). cbn [tail] in Hrd'.
    exists (S i), (mkRecovery d w' 0 None), rd'. split_and!; try done. unfold checkpoint_ok. rewrite Hmd. exists z, p. split_and!; try done. by exists i, dd.
  - change (blen (@nil Byte.byte) =? 0) with true. cbn [wr_wal NewWalRecovery mbind outcome_bind]. destruct (wl_begin_law _ _ _ Hw) as (rd & -> & Hrd). cbn [mbind outcome_bind].
    exists 0%nat, (NewWalRecovery d w), rd. split_and!; try done; [apply prefix_nil|]. unfold checkpoint_ok. by rewrite Hmd.
Qed.

Lemma recoverWAL_spec n (w : W) (d : D) Lg opss md steps fuel : durable n w d Lg opss md -> (length Lg < steps)%nat -> (length Lg < fuel)%nat ->
  exists wr err, recoverWAL steps fuel (default [] (md !! SysKeyWalCheckPoint)) (NewWalRecovery d w) = Ret (wr, err) /\
    match err with
    | None => wl_repr n (wr_wal wr) Lg /\ ds_repr (wr_store wr) (contents_of opss) md /\ checkpoint_ok Lg opss md (concat opss) /\
        (recoveredCount wr <> 0 -> covered Lg opss (lastRecoveredPos wr) (concat opss))
    | Some err => (exists x, err = RecStore (ErrLib x)) /\ durable n (wr_wal wr) (wr_store wr) Lg opss md
    end.
Proof.
  intros (Hw & Hm & base & part & rest & Hb & Hd & Hp & Hck) Hsteps Hf. pose proof (log_means_ok _ _ _ Hm) as Hok. pose proof (log_means_length _ _ _ Hm) as Hlen.
  destruct (recovery_begins n w d Lg opss md base steps fuel Hw Hck) as (i & wr0 & rd & Hrun & Hrd & Hst & Hcnt & Hlast & Hpre & Hck').
  assert (ops_ok (concat (drop i opss))) as Hok2 by (rewrite <- (take_drop i opss), concat_app in Hok; by apply Forall_app in Hok as [_ ?]).
  destruct (engine_recover_loop_spec n Lg fuel md (drop i Lg) (drop i opss) Hf (Forall2_drop _ _ _ i (log_means_at _ _ Hm)) Hok2 steps rd wr0 (foldl a_queued ∅ (base ++ part)))
    as (wr & err & dn & left & Hloop & Hdrop & [Hw' Hd'] & Hres); [rewrite length_drop; lia|done|by rewrite Hst|apply base_lobs; apply Forall_app; split|].
  - rewrite Hb in Hok. by apply Forall_app in Hok as [? _].
  - rewrite Hb in Hok. apply Forall_app in Hok as [_ Hok]. unfold ops_ok in *. rewrite Forall_forall in Hok |- *. intros op Hop. by apply Hok, Hp.
  - rewrite Hrun, Hloop. exists wr, err. split; [done|]. destruct err as [err|].
    + split; [done|]. split; [done|]. split; [done|]. destruct Hpre as [more ->].
      assert (concat opss = concat (take i opss) ++ concat (drop i opss)) as Hcut by (by rewrite <- concat_app, take_drop).
      assert (concat (drop i opss) = more ++ rest) as Htail by (rewrite Hcut, <- app_assoc in Hb; by apply app_inv_head in Hb).
      exists (concat (take i opss)), (more ++ part ++ concat dn), (concat (drop i opss)). split; [done|]. split; [by rewrite <- foldl_app, <- !app_assoc in Hd'|]. split; [|done].
      intros op [Hop|[Hop|Hop]%elem_of_app]%elem_of_app.
      * rewrite Htail. apply elem_of_app. by left.
      * rewrite Htail. apply elem_of_app. right. by apply Hp.
      * rewrite Hdrop, concat_app. apply elem_of_app. by left.
    + destruct Hres as (-> & Hpos & Hzero). rewrite app_nil_r in Hdrop. subst dn. split; [done|]. split; [by rewrite <- (replay_contents opss i base part rest)|].
      split; [rewrite Hb; by apply checkpoint_longer|]. intros Hn. rewrite Hpos, Hlast. unfold last_pos. destruct (list.last (drop i Lg)) as [[dd p]|] eqn:Hl; [|done].
      apply last_Some in Hl as [l Hl]. rewrite <- (take_drop i Lg), Hl, app_assoc in Hm, Hlen |- *.
      exists (length (take i Lg ++ l)), dd. split; [by apply list_lookup_middle|]. rewrite length_app in Hlen. cbn in Hlen. rewrite firstn_all2 by lia. done.
Qed.

(** ** Opening an engine *)

Lemma read_checkpoint (d : D) m md Lg opss base : ds_repr d m md -> checkpoint_ok Lg opss md base ->
  (exists x, ds_RetrieveMetadata d SysKeyWalCheckPoint = Ret (Err (ErrLib x))) \/
  (ds_RetrieveMetadata d SysKeyWalCheckPoint = Ret (Err ErrKeyNotFound) /\ default [] (md !! SysKeyWalCheckPoint) = []) \/
  exists data z p, ds_RetrieveMetadata d SysKeyWalCheckPoint = Ret (Ok data) /\ default [] (md !! SysKeyWalCheckPoint) = data /\
    UnmarshalMetadata data = Ret (mkMetadata z (Some p)).
Proof.
  intros Hd Hck. unfold checkpoint_ok in Hck. destruct (ds_RetrieveMetadata_law _ _ _ SysKeyWalCheckPoint Hd) as [Hr|[x Hr]]; [|by left; exists x]. right.
  destruct (md !! SysKeyWalCheckPoint) as [data|]; cbn in Hr; [|by left]. destruct Hck as (z & p & _ & Hu & _). right. by exists data, z, p.
Qed.

(** An engine that has nothing in its tables. *)
Definition at_rest (e : Engine) : Prop :=
  sealedMemTables e = [] /\ activeMemTable e = NewMemTable (ArenaSize e) /\ pendingMetadata e = [] /\ fsyncReqSignal e = 0 /\
  closed (notifier e) = [] /\ readOnly e = false /\ shutdown e = false.

(** Any engine with the recovered log and store and nothing in its tables. *)
Lemma core_recovered n (e : Engine) Lg opss md : log_means rows_ok Lg opss -> Z.of_nat n <= 2 ^ 62 ->
  wl_repr n (walIO e) Lg -> ds_repr (dataStore e) (contents_of opss) md -> checkpoint_ok Lg opss md (concat opss) ->
  Forall (fun fm => covered Lg opss (Pos (fm_metadata fm)) (concat opss)) (pendingMetadata e) ->
  sealedMemTables e = [] -> activeMemTable e = NewMemTable (ArenaSize e) -> notifier_ok (notifier e) ->
  core rows_ok n e Lg opss (concat opss) [] [] md.
Proof.
  intros Hm Hroom Hw Hd Hck Hpend Hse Hact Hn. split; rewrite ?Hse, ?Hact; cbn; try done; try by constructor.
  - by eapply log_means_ok.
  - apply new_table.
Qed.

Lemma make_notify_ok (e : Engine) : closed (notifier e) = [] -> notifier_ok (notifier (make_notify e)).
Proof. intros Hcl. split; cbn; rewrite Hcl; [constructor|]. split; [lia|apply not_elem_of_nil]. Qed.

Lemma recover_from_spec n (e : Engine) Lg opss md steps fuel off : durable n (walIO e) (dataStore e) Lg opss md -> at_rest e -> Z.of_nat n <= 2 ^ 62 ->
  (length Lg < steps)%nat -> (length Lg < fuel)%nat -> let checkpoint := default [] (md !! SysKeyWalCheckPoint) in
  (if blen checkpoint =? 0 then Ret None else m ← UnmarshalMetadata checkpoint; Ret (Pos m)) = Ret off ->
  (exists e' x, recover_from steps fuel e checkpoint = Ret (e', Some (EStore (ErrLib x)))) \/
  exists e', recover_from steps fuel e checkpoint = Ret (e', None) /\ sim rows_ok n Lg (make_notify e') [] (mkAState (contents_of opss) []).
Proof.
  intros Hdur (Hse & Hact & Hpe & Hsig & Hcl & Hro & Hsd) Hn Hsteps Hf checkpoint Hoff.
  destruct (recoverWAL_spec n _ _ Lg opss md steps fuel Hdur Hsteps Hf) as (wr & err & Hrun & Hres).
  unfold recover_from. unfold checkpoint. rewrite Hrun. cbn [mbind outcome_bind]. destruct err as [err|]; [left; destruct Hres as [[x ->] _]; by eexists _, x|].
  destruct Hres as (Hw & Hd & Hck & Hpos). destruct Hdur as (_ & Hm & _). fold checkpoint. rewrite Hoff. cbn [mbind outcome_bind]. right.
  destruct (Z.ltb_spec 0 (recoveredCount wr)) as [Hc|Hc]; cbn [fsyncReqSignal with_pending with_offset with_recovered with_counter with_store with_wal]; [rewrite Hsig; cbn [Z.ltb Z.compare]|];
    (eexists; split; [done|]); exists opss, md; (split; [|by split_and!; cbn]); exists (concat opss), [], []; (split; [|unfold written; cbn; by rewrite !app_nil_r]);
    (apply core_recovered; cbn; try done; [|by apply make_notify_ok]); rewrite Hpe; [|constructor].
  apply Forall_singleton. apply Hpos. lia.
Qed.

(** The files can be opened, and hold [w] and [d]. *)
Definition opens (io : OpenIO W D) (conf : EngineConfig) (w : W) (d : D) : Prop :=
  io_backupDir io = true /\ io_nsDir io = true /\ io_walDir io = true /\ io_lock io = Some true /\ io_NewWalIO io = Ok w /\ initKVDriver conf io = Ok d.

Lemma NewStorageEngine_spec n io (w : W) (d : D) Lg opss md steps fuel conf : durable n w d Lg opss md -> Z.of_nat n <= 2 ^ 62 -> opens io conf w d ->
  (length Lg < steps)%nat -> (length Lg < fuel)%nat -> minArenaSize <= cf_ArenaSize conf -> cf_ReadOnly conf = false ->
  (exists x, NewStorageEngine (L := L) (F := F) steps fuel conf io = Ret (Err (EStore (ErrLib x)))) \/
  exists e, NewStorageEngine (L := L) (F := F) steps fuel conf io = Ret (Ok e) /\ sim rows_ok n Lg e [] (mkAState (contents_of opss) []).
Proof.
  intros Hdur Hn (Hio1 & Hio2 & Hio3 & Hio4 & Hio5 & Hio6) Hsteps Hf Harena Hro. pose proof Hdur as (_ & _ & base & part & rest & _ & Hd & _ & Hck).
  unfold NewStorageEngine, initStorage. rewrite Hio1, Hio2, Hio3, Hio4, Hio5, Hio6. cbn [negb tryFileLock].
  destruct (Z.ltb_spec (cf_ArenaSize conf) minArenaSize); [lia|]. set (e0 := mkEngine _ _ _ d _ _ _ _ _ _ _ _ _ _ _ _ _ _ _).
  unfold loadMetaValues. change (dataStore e0) with d.
  destruct (read_checkpoint d _ md Lg opss base Hd Hck) as [[x Hr]|[[Hr Hmd]|(data & z & p & Hr & Hmd & Hu)]]; rewrite Hr; cbn [mbind outcome_bind]; [left; by exists x|..].
  - unfold recover_engine. change (dataStore e0) with d. rewrite Hr. cbn [mbind outcome_bind]. rewrite <- Hmd.
    destruct (recover_from_spec n e0 Lg opss md steps fuel None Hdur) as [(e' & x & ->)|(e' & -> & Hs)]; try done; [by rewrite Hmd|left; by exists x|right; by eexists].
  - rewrite Hu. cbn [mbind outcome_bind]. set (e1 := mkEngine _ _ _ _ _ _ _ _ _ _ _ _ _ _ _ _ _ _ _). unfold recover_engine. change (dataStore e1) with d. rewrite Hr.
    cbn [mbind outcome_bind]. rewrite <- Hmd.
    destruct (recover_from_spec n e1 Lg opss md steps fuel (if blen data =? 0 then None else Some p) Hdur) as [(e' & x & ->)|(e' & -> & Hs)]; try done;
      [rewrite Hmd, Hu; by destruct (blen data =? 0)|left; by exists x|right; by eexists].
Qed.

(** ** Crashes *)

(** The stores that the process can leave behind when it ends: between
    operations, in a flush whatever its result, while a checkpoint is saved. *)
Inductive crashed (Lg : wal_log) (e : Engine) : D -> Prop :=
| crash_idle : crashed Lg e (dataStore e)
| crash_in_flush fuel order mt rest t d r : sealedMemTables e = mt :: rest -> (length Lg < fuel)%nat -> (forall l, order l ≡ₚ l) ->
    Flush fuel (walIO e) (fun _ => false) order mt (dataStore e) = Ret (t, d, r) -> crashed Lg e d
| crash_in_sync fm d err : list.last (pendingMetadata e) = Some fm ->
    SaveMetadata (dataStore e) (Pos (fm_metadata fm)) (RecordProcessed (fm_metadata fm)) = Ret (d, err) -> crashed Lg e d.

(** The log may have one more record, of a call that had not returned. *)
Definition unfinished (Lg X : wal_log) (ops : list queued_op) : Prop :=
  (X = [] /\ ops = []) \/ exists d p r, X = [(d, p)] /\ GetRootAsLogRecord d = Ret r /\ record_means rows_ok Lg r ops.

Lemma durable_unfinished n (w : W) (d : D) Lg X opss md ops : log_means rows_ok Lg opss -> wl_repr n w (Lg ++ X) -> unfinished Lg X ops ->
  (exists base part rest, concat opss = base ++ rest /\ ds_repr d (foldl a_queued ∅ (base ++ part)) md /\
    (forall op, op ∈ part -> op ∈ rest) /\ checkpoint_ok Lg opss md base) ->
  exists opss', durable n w d (Lg ++ X) opss' md /\ contents_of opss' = foldl a_queued (contents_of opss) ops.
Proof.
  intros Hm Hw [[-> ->]|(dd & p & r & -> & Hr & Hrm)] (base & part & rest & Hb & Hd & Hp & Hck).
  - rewrite app_nil_r in *. exists opss. split; [|done]. split; [done|]. split; [done|]. by exists base, part, rest.
  - exists (opss ++ [ops]). split; [|apply contents_snoc]. split; [done|]. split; [by eapply lm_snoc|].
    exists base, part, (rest ++ ops). split_and!; [| done| |apply checkpoint_grow; [by eapply log_means_length|done]].
    + rewrite concat_app, Hb. cbn. by rewrite app_nil_r, app_assoc.
    + intros op Hop. apply elem_of_app. left. by apply Hp.
Qed.

Lemma crashed_store n Lg e d opss base tabs act md : core rows_ok n e Lg opss base tabs act md -> written base tabs act = concat opss -> crashed Lg e d ->
  exists md' part rest, concat opss = base ++ rest /\ ds_repr d (foldl a_queued ∅ (base ++ part)) md' /\
    (forall op, op ∈ part -> op ∈ rest) /\ checkpoint_ok Lg opss md' base.
Proof.
  intros Hc Hwr Hcr. pose proof Hc as [Hwal Hlog Hbase Hstore Htables Hactive Harena [Hms _] Hroom Hoffsets Hpending Hcheckpoint Hnotifier].
  unfold written in Hwr. set (rest := _ ++ act.*2) in Hwr. destruct Hcr as [|fuel order mt rest' t d r Hse Hf Ho Hrun|fm d err Hl Hrun].
  - exists md, [], rest. rewrite app_nil_r. split_and!; try done. intros op Hop%elem_of_nil. done.
  - rewrite Hse in Htables. destruct tabs as [|po tabs]; [by inversion Htables|]. apply Forall2_cons in Htables as [Ht _]. apply Forall_cons in Hms as [Hpo _].
    destruct (Flush_spec fuel (walIO e) n Lg _ md po mt (dataStore e) Hwal Hf (base_lobs base Hbase) Hstore Hpo Ht order Ho) as (n' & d' & r' & Hfl & Hr).
    rewrite Hrun in Hfl. injection Hfl as _ <- <-.
    assert (some_applied (foldl a_queued ∅ base) md po d) as (part & Hsub & Hd) by (destruct r; [by exists po.*2|by destruct Hr]).
    exists md, part, rest. rewrite foldl_app. split_and!; try done. intros op Hop. unfold rest. rewrite bind_cons, <- app_assoc. apply elem_of_app. left. by apply Hsub.
  - assert (covered Lg opss (Pos (fm_metadata fm)) base) as Hcov by (rewrite Forall_forall in Hpending; apply Hpending; by apply last_Some_elem_of).
    destruct (Pos (fm_metadata fm)) as [p|]; [|done].
    destruct (SaveMetadata_spec n (walIO e) (dataStore e) Lg opss base md _ p (RecordProcessed (fm_metadata fm)) Hwal Hstore Hcheckpoint Hcov) as (d' & err' & md' & Hs & Hd & Hck).
    rewrite Hrun in Hs. injection Hs as <- <-. exists md', [], rest. rewrite app_nil_r. split_and!; try done. intros op Hop%elem_of_nil. done.
Qed.

(** C2. Nothing is lost in a crash.  The process ends between operations, in the
    middle of a flush, or while a checkpoint is saved, perhaps with one more
    record in the log whose call had not returned.  An engine that is then opened
    on the same log and the store that was left stands for the same map, with
    all of the unfinished call or none of it, and with no transaction open;
    only the storage library can keep it from opening. *)
Theorem nothing_is_lost_in_a_crash n Lg (e : Engine) ts a d k w X ops steps fuel conf io : sim rows_ok n Lg e ts a -> crashed Lg e d ->
  wl_repr k w (Lg ++ X) -> unfinished Lg X ops -> opens io conf w d -> Z.of_nat k <= 2 ^ 62 -> (length (Lg ++ X) < steps)%nat -> (length (Lg ++ X) < fuel)%nat ->
  minArenaSize <= cf_ArenaSize conf -> cf_ReadOnly conf = false ->
  (exists x, NewStorageEngine (L := L) (F := F) steps fuel conf io = Ret (Err (EStore (ErrLib x)))) \/
  exists e', NewStorageEngine (L := L) (F := F) steps fuel conf io = Ret (Ok e') /\ sim rows_ok k (Lg ++ X) e' [] (mkAState (foldl a_queued (a_map a) ops) []).
Proof.
  intros (opss & md & (base & tabs & act & Hc & Hwr) & Hm & _) Hcr Hw Hun Hio Hk Hsteps Hf Harena Hro.
  destruct (crashed_store _ _ _ _ _ _ _ _ _ Hc Hwr Hcr) as (md' & part & rest & Hst).
  destruct (durable_unfinished k w d Lg X opss md' ops (co_log _ _ _ _ _ _ _ _ _ Hc) Hw Hun) as (opss' & Hdur & Hcont); [by exists base, part, rest|].
  rewrite Hm, <- Hcont. by eapply NewStorageEngine_spec.
Qed.
End recovery.

(** ** The drivers *)

(** Bolt deletes any number of rows, LMDB reliably one at a time. *)
Lemma bolt_rows {B : Type} `{BoltLaws B} (m : kvmap) op : (forall rows, op = OBatchDeleteRows rows -> any_rows (length rows)) -> ds_op_ok (D := BoltWorld B) m op.
Proof. done. Qed.

Definition one_row (n : nat) : Prop := (n <= 1)%nat.

Lemma lmdb_rows {T : Type} `{LmdbLaws T} (del_ok : forall (t : T) k t' e, l_Del t k = (t', Some e) -> e = NotFound) (m : kvmap) op :
  (forall rows, op = OBatchDeleteRows rows -> one_row (length rows)) -> @ds_op_ok _ _ (lmdb_store_laws del_ok) m op.
Proof.
  intros Hr. destruct op as [| | | | |rows| | |]; try done. specialize (Hr rows eq_refl). unfold one_row in Hr.
  destruct rows as [|row [|row' rows]]; [done| |cbn in Hr; lia]. cbn. split; [by left|done].
Qed.

Section example.
#[local] Existing Instance demo_codec.
#[local] Existing Instance demo_codec_laws.

Lemma nothing_is_lost_in_a_crash_witness : exists (e : Engine map_list (list bytes) WalWorld (BoltWorld kvmap)),
  sim any_rows 1000 [] e [] (mkAState ∅ []) /\
  ((exists x, NewStorageEngine (L := map_list) (F := list bytes) 1 1 sample_config (opened (walIO e) (dataStore e)) = Ret (Err (EStore (ErrLib x)))) \/
   exists e', NewStorageEngine (L := map_list) (F := list bytes) 1 1 sample_config (opened (walIO e) (dataStore e)) = Ret (Ok e') /\
     sim any_rows 1000 [] e' [] (mkAState ∅ [])).
Proof.
  destruct sample_sim as (e & He & _). exists e. split; [exact He|].
  assert (wl_repr 1000 (walIO e) ([] ++ [])) as Hw by (destruct He as (opss & md & (base & tabs & act & Hc & _) & _); exact (co_wal _ _ _ _ _ _ _ _ _ Hc)).
  apply (nothing_is_lost_in_a_crash any_rows bolt_rows 1000 [] e [] (mkAState ∅ []) (dataStore e) 1000 (walIO e) [] [] 1 1 sample_config (opened (walIO e) (dataStore e)) He);
    [constructor|exact Hw|by left|by repeat split|vm_compute; discriminate|apply Nat.lt_0_1|apply Nat.lt_0_1|vm_compute; discriminate|reflexivity].
Defined.
End example.
