(* ===== verification/ReplicaFacts.v ===== *)
(** A replica against the meaning of its leader's log: applying a record gives
    the replica the record and the operations it stands for. *)

From stdpp Require Import prelude list numbers gmap sorting.
From Stdlib Require Import ZArith Lia.
From S2P Require Import Prelude Bytes Segment KeyCodec KVKeys KVStore KVBolt KVSpec KVReads KVQueue KVQueueFacts Overlay BTree.
From S2P Require Import LogCodec WalIO WalIOFacts TxnLog MemTable MemTableFacts Samples FlushFacts FlushSpec Notify Engine Recovery Replica LogMeaning EngineFacts EngineWrites EngineSpec RecoveryFacts.

Section replica.
Context {L F W R D : Type} `{SkipListLaws L} `{BloomLaws F} `{WalLaws W R} `{BTreeLaws D} `{FlatBuffersLaws}.
Context (rows_ok : nat -> Prop).
Notation Engine := (Engine L F W D).
Notation fits := (fits (L := L) (F := F)).

(** ** What a record puts into the memory table *)

Definition entry_put (op et : Z) (entry : bytes) : option put :=
  if et =? LogEntryTypeKV
  then match DeserializeKVEntry entry with Ret kv => Some (kv_Key kv, mkValue op EntryTypeKV (kv_Value kv)) | _ => None end
  else match DeserializeRowUpdateEntry entry with Ret re => Some (row_Key re, mkValue op EntryTypeRow entry) | _ => None end.

Inductive record_puts (A : wal_log) (r : fb_log) (p : RecordPosition) : list put -> Prop :=
| rp_plain : fb_txn_state r = TransactionStateNone ->
    record_puts A r p (omap (entry_put (fb_operation_type r) (fb_entry_type r)) (Entries (DeserializeFBRootLogRecord r)))
| rp_txn p' b rest : fb_txn_state r = TransactionStateCommit -> DecodeOffset (PrevTxnWalIndexBytes r) = Ret (Some p') -> chain A p' (b :: rest) ->
    record_puts A r p (omap (entry_put (fb_operation_type r) (fb_entry_type r)) (all_entries rest))
| rp_chunks kv : fb_txn_state r = TransactionStateCommit -> fb_entry_type r = LogEntryTypeChunked -> first_entry r = Ret kv ->
    record_puts A r p [(kv_Key kv, mkValue LogOperationInsert EntryTypeChunked (Encode p))].

Lemma entries_decode op et entries ops Lg : entries_mean rows_ok op et entries ops ->
  let puts := omap (entry_put op et) entries in
  Forall2 (means Lg) puts ops /\
  (et = LogEntryTypeKV /\ (op = LogOperationTypeInsert \/ op = LogOperationTypeDelete) /\ Forall2 (fun entry x => kv_entry_put op entry = Ret x) entries puts \/
   et = LogEntryTypeRow /\ (op = LogOperationTypeInsert \/ op = LogOperationTypeDelete \/ op = LogOperationTypeDeleteRowByKey) /\
     Forall2 (fun entry x => row_entry_put op entry = Ret x) entries puts /\ Forall2 (fun entry x => row_txn_put op entry = Ret x) entries puts).
Proof.
  intros (Hne & Hf & _) puts.
  assert (et = LogEntryTypeKV /\ (op = LogOperationTypeInsert \/ op = LogOperationTypeDelete) \/
    et = LogEntryTypeRow /\ (op = LogOperationTypeInsert \/ op = LogOperationTypeDelete \/ op = LogOperationTypeDeleteRowByKey)) as Hkind.
  { destruct entries as [|entry entries]; [done|]. inversion Hf as [|? o ? ? He]; subst. destruct He; tauto. }
  assert (forall entry o, entry_means op et entry o -> exists x, entry_put op et entry = Some x /\ means Lg x o /\
    (et = LogEntryTypeKV -> kv_entry_put op entry = Ret x) /\ (et = LogEntryTypeRow -> row_entry_put op entry = Ret x /\ row_txn_put op entry = Ret x)) as Hone.
  { intros entry o He. unfold entry_put, kv_entry_put, row_entry_put, row_txn_put, getValueStruct.
    destruct He as [kv -> -> Hd Hk|kv -> -> Hd Hk|re -> -> Hd Hk|re -> -> Hd Hk|re -> -> Hd Hk]; rewrite Hd; cbn [Z.eqb LogEntryTypeKV LogEntryTypeRow Pos.eqb]; eexists; (split; [done|]); split.
    1,3,5,7,9: by constructor.
    all: split; [first [done|discriminate]|].
    all: try discriminate.
    all: intros _; unfold DeserializeRowUpdateEntry in Hd; destruct (GetRootAsRowUpdateEntry entry); [|discriminate Hd..].
    all: by injection Hd as <-. }
  clear Hne. subst puts. assert (Forall2 (means Lg) (omap (entry_put op et) entries) ops /\
    (et = LogEntryTypeKV -> Forall2 (fun entry x => kv_entry_put op entry = Ret x) entries (omap (entry_put op et) entries)) /\
    (et = LogEntryTypeRow -> Forall2 (fun entry x => row_entry_put op entry = Ret x) entries (omap (entry_put op et) entries) /\
       Forall2 (fun entry x => row_txn_put op entry = Ret x) entries (omap (entry_put op et) entries))) as (H1' & H2' & H3').
  { clear Hkind. induction Hf as [|entry o entries ops He _ (I1 & I2 & I3)]; [by split_and!; constructor|]. destruct (Hone entry o He) as (x & Hx & Hm & Hkv & Hrow).
    cbn [omap list_omap]. rewrite Hx. split; [by constructor|]. split; [intros Het; constructor; auto|]. intros Het. destruct (Hrow Het), (I3 Het). by split; constructor. }
  split; [done|]. destruct Hkind as [[-> Hop]|[-> Hop]]; [left|right]; split_and!; auto; by apply H3'.
Qed.

Lemma entry_writes_decoded decode after entries puts : Forall2 (fun entry x => decode entry = Ret x) entries puts ->
  forall now (e : Engine), entry_writes decode after now e entries = mem_writes after now e puts.
Proof.
  induction 1 as [|entry [key v] entries puts Hx _ IH]; intros now e; [done|]. cbn [entry_writes mem_writes]. rewrite Hx. cbn [mbind outcome_bind].
  destruct (memTableWrite _ _ _ _) as [[e' [err|]]| |]; [done| |done..]. cbn [mbind outcome_bind]. apply IH.
Qed.

Lemma apply_entries_decoded decode after entries puts now p (e : Engine) : Forall2 (fun entry x => decode entry = Ret x) entries puts ->
  apply_entries decode after now entries p e = finish_record after now puts p e.
Proof. intros Hx. unfold apply_entries, finish_record. by rewrite (entry_writes_decoded _ _ _ _ Hx). Qed.

(** ** One record *)

(** The record is in the log of the replica, perhaps with others after it, and
    its operations are next. *)
Section record.
Context (n : nat) (e : Engine) (Lg : wal_log) (opss : list (list queued_op)) (d : bytes) (p : RecordPosition) (r : fb_log) (ops : list queued_op).
Context (X : wal_log) (Y : list (list queued_op)).
Context (base : list queued_op) (tabs : list put_ops) (act : put_ops) (md : kvmap) (fuel : nat) (now : nat -> Z).
Notation Lg' := (Lg ++ (d, p) :: X).
Notation opss' := (opss ++ ops :: Y).
Hypothesis (Hlen : length Lg = length opss) (Hc : core rows_ok (length ops + n) e Lg' opss' base tabs act md) (Hwr : written base tabs act = concat opss).
Hypothesis (Hr : GetRootAsLogRecord d = Ret r) (Hm : record_means rows_ok Lg r ops) (Hf : (length Lg' < fuel)%nat) (Hnow : forall i, 0 <= now i < 2 ^ 63).
Hypothesis (Hfit : forall puts, record_puts Lg r p puts -> Forall (fits (ArenaSize e)) puts).

Definition record_applied (x : outcome (Engine * option engine_error)) : Prop :=
  exists e' tabs' act', x = Ret (e', None) /\ core rows_ok n e' Lg' opss' base tabs' act' md /\ written base tabs' act' = concat (opss ++ [ops]) /\ frame e e'.

Lemma finish_applied after puts e1 : neutral rows_ok after -> core rows_ok (length ops + n) e1 Lg' opss' base tabs act md -> frame e e1 ->
  Forall2 (means Lg') puts ops -> record_puts Lg r p puts -> record_applied (finish_record after now puts p e1).
Proof.
  intros Hn Hc1 Hfr Hmm Hp. rewrite <- (Forall2_length _ _ _ Hmm) in Hc1.
  destruct (finish_record_within rows_ok n e1 Lg X opss Y d p ops base tabs act md after now puts Hn Hlen Hc1 Hwr Hnow Hmm) as (e' & tabs' & act' & Hrun & Hc' & Hw' & Hfr' & _).
  - destruct Hfr as [-> _]. by apply Hfit.
  - exists e', tabs', act'. split; [done|]. split; [done|]. split; [done|]. exact (frame_trans _ _ _ Hfr Hfr').
Qed.

Lemma txn_of_record p' b rest : DecodeOffset (PrevTxnWalIndexBytes r) = Ret (Some p') -> chain Lg p' (b :: rest) ->
  txn_records fuel r (walIO e) = Ret (Ok (b :: rest, rest)).
Proof. intros Hp Hch. eapply (txn_records_spec (length ops + n) Lg ((d, p) :: X)); try done. apply (co_wal _ _ _ _ _ _ _ _ _ Hc). Qed.

Lemma record_position : real_pos p.
Proof.
  destruct (wl_positions _ _ _ (co_wal _ _ _ _ _ _ _ _ _ Hc)) as [_ Hall]. rewrite fmap_app in Hall. apply Forall_app in Hall as [_ Hall].
  rewrite fmap_cons in Hall. by apply Forall_cons in Hall as [? _].
Qed.

Lemma apply_plain : fb_txn_state r = TransactionStateNone ->
  entries_mean rows_ok (fb_operation_type r) (fb_entry_type r) (Entries (DeserializeFBRootLogRecord r)) ops -> record_applied (Replica.handleRecord fuel now r p e).
Proof.
  intros Hst He. unfold Replica.handleRecord. rewrite Hst. cbn [Z.eqb TransactionStateNone]. pose proof (rp_plain Lg r p Hst) as Hp.
  destruct (entries_decode _ _ _ _ Lg' He) as [Hmm [(Het & Hop & Hdec)|(Het & Hop & Hdec & _)]].
  - unfold Replica.handleInsert, Replica.handleDelete. rewrite Het in *. change (LogEntryTypeKV =? LogEntryTypeKV) with true. cbv iota.
    destruct Hop as [Hop|Hop]; rewrite Hop in *; cbn [Z.eqb Pos.eqb LogOperationTypeInsert LogOperationTypeDelete LogOperationTypeDeleteRowByKey];
      rewrite (apply_entries_decoded _ _ _ _ _ _ _ Hdec); by apply (finish_applied _ _ e (neutral_id rows_ok)).
  - unfold Replica.handleInsert, Replica.handleDelete, Replica.handleDeleteRowByKey. rewrite Het in *. change (LogEntryTypeRow =? LogEntryTypeKV) with false. change (LogEntryTypeRow =? LogEntryTypeRow) with true. cbv iota.
    destruct Hop as [Hop|[Hop|Hop]]; rewrite Hop in *; cbn [Z.eqb Pos.eqb LogOperationTypeInsert LogOperationTypeDelete LogOperationTypeDeleteRowByKey];
      rewrite (apply_entries_decoded _ _ _ _ _ _ _ Hdec); by apply (finish_applied _ _ e (neutral_id rows_ok)).
Qed.

Lemma apply_open : fb_txn_state r = TransactionStateBegin \/ fb_txn_state r = TransactionStatePrepare -> ops = [] -> record_applied (Replica.handleRecord fuel now r p e).
Proof.
  intros Hst Hops. unfold Replica.handleRecord.
  assert ((fb_txn_state r =? TransactionStateNone) = false /\ (fb_txn_state r =? TransactionStateCommit) = false) as [-> ->] by (by destruct Hst as [-> | ->]).
  exists e, tabs, act. split; [done|]. split; [by eapply core_weaken_by|]. split; [|apply frame_refl]. by rewrite Hwr, Hops, concat_app, app_nil_r.
Qed.

Lemma apply_txn p' b rest : fb_txn_state r = TransactionStateCommit -> DecodeOffset (PrevTxnWalIndexBytes r) = Ret (Some p') -> chain Lg p' (b :: rest) ->
  entries_mean rows_ok (fb_operation_type r) (fb_entry_type r) (all_entries rest) ops -> record_applied (Replica.handleRecord fuel now r p e).
Proof.
  intros Hst Hp Hch He. unfold Replica.handleRecord. rewrite Hst. cbn [Z.eqb TransactionStateNone TransactionStateCommit]. pose proof (rp_txn Lg r p p' b rest Hst Hp Hch) as Hrp.
  unfold Replica.handleTxnCommited, Replica.handleKVValuesTxn, Replica.handleRowColumnTxn. rewrite (txn_of_record p' b rest Hp Hch).
  destruct (entries_decode _ _ _ _ Lg' He) as [Hmm [(Het & Hop & Hdec)|(Het & Hop & _ & Hdec)]]; rewrite Het in *.
  - change (LogEntryTypeKV =? LogEntryTypeKV) with true. cbv iota. cbn [mbind outcome_bind]. rewrite (apply_entries_decoded _ _ _ _ _ _ _ Hdec).
    destruct (writeNilOffset_spec rows_ok _ _ _ _ _ _ _ _ Hc) as (Hc1 & Hfr & _). by apply (finish_applied _ _ _ (neutral_nil rows_ok)).
  - change (LogEntryTypeRow =? LogEntryTypeKV) with false. change (LogEntryTypeRow =? LogEntryTypeChunked) with false. change (LogEntryTypeRow =? LogEntryTypeRow) with true.
    cbv iota. cbn [mbind outcome_bind writeOffset]. rewrite (apply_entries_decoded _ _ _ _ _ _ _ Hdec). by apply (finish_applied _ _ e (neutral_nil rows_ok)).
Qed.

Lemma apply_chunks kv p' b rest chunks : fb_txn_state r = TransactionStateCommit -> fb_entry_type r = LogEntryTypeChunked -> first_entry r = Ret kv -> blob_key (kv_Key kv) ->
  DecodeOffset (PrevTxnWalIndexBytes r) = Ret (Some p') -> chain Lg p' (b :: rest) -> chunk_values rest = Ret chunks -> blen chunks < 2 ^ 32 ->
  ops = [QSetLobChunks (kv_Key kv) chunks (fb_crc32_checksum r)] -> record_applied (Replica.handleRecord fuel now r p e).
Proof.
  intros Hst Het Hkv Hk Hp Hch Hvs Hcl Hops. unfold Replica.handleRecord. rewrite Hst. cbn [Z.eqb TransactionStateNone TransactionStateCommit]. pose proof (rp_chunks Lg r p kv Hst Het Hkv) as Hrp.
  unfold Replica.handleTxnCommited, Replica.handleChunkedValuesTxn. rewrite Het. change (LogEntryTypeChunked =? LogEntryTypeKV) with false. change (LogEntryTypeChunked =? LogEntryTypeChunked) with true.
  cbv iota. rewrite Hkv. cbn [mbind outcome_bind].
  assert (record_applied (finish_record (fun e => e) now [(kv_Key kv, mkValue LogOperationInsert EntryTypeChunked (Encode p))] p e)) as Happ.
  { apply (finish_applied _ _ e (neutral_id rows_ok)); [done|apply frame_refl| |done]. rewrite Hops. constructor; [|constructor].
    apply (means_chunks _ _ _ p); [done..|apply DecodeOffset_Encode, record_position|]. by eexists Lg, d, X, r, kv, p', b, rest. }
  unfold finish_record in Happ. cbn [mem_writes] in Happ. change LogEntryTypeChunked with EntryTypeChunked. change LogOperationTypeInsert with LogOperationInsert. unfold getValueStruct.
  destruct (memTableWrite _ _ _ _) as [[e1 [err|]]| |]; exact Happ.
Qed.

Lemma replica_handleRecord : record_applied (Replica.handleRecord fuel now r p e).
Proof.
  pose proof Hm as Hm'. remember ops as o eqn:Ho in Hm'. destruct Hm' as [ops' Hst He|Hst|p' b rest ops' Hst Hp Hch He|kv p' b rest chunks Hst Het Hkv Hk Hp Hch Hvs Hne Hcl].
  - rewrite Ho in He. by apply apply_plain.
  - by apply apply_open.
  - rewrite Ho in He. by eapply apply_txn.
  - by eapply apply_chunks.
Qed.
End record.

(** ** A batch *)

(** The entries of the records [X] that follow [Lg] fit the tables. *)
Definition entries_fit (arena : Z) (Lg X : wal_log) : Prop :=
  forall X1 d p X2 r puts, X = X1 ++ (d, p) :: X2 -> GetRootAsLogRecord d = Ret r -> record_puts (Lg ++ X1) r p puts -> Forall (fits arena) puts.

Lemma log_means_head B : forall A d p o1 o o2, log_means rows_ok (A ++ (d, p) :: B) (o1 ++ o :: o2) -> length A = length o1 ->
  exists r, GetRootAsLogRecord d = Ret r /\ record_means rows_ok A r o.
Proof.
  induction B as [|[d' p'] B IH] using rev_ind; intros A d p o1 o o2 Hl Hlen; pose proof (log_means_length _ _ _ Hl) as Hll; rewrite !length_app in Hll; cbn [length] in Hll; rewrite ?length_app in Hll; cbn in Hll.
  - destruct o2; [|cbn in Hll; lia]. inversion Hl as [Heq|A' opss' d'' p'' r ops HA Hr Hm Heq Heq2]; [by destruct A|].
    apply app_inj_tail in Heq as [-> [= -> ->]]. apply app_inj_tail in Heq2 as [-> ->]. by exists r.
  - destruct o2 as [|y o2 _] using rev_ind; [cbn in Hll; lia|].
    inversion Hl as [Heq|A' opss' d'' p'' r ops HA Hr Hm Heq Heq2]; [by destruct A|].
    rewrite app_comm_cons, app_assoc in Heq. apply app_inj_tail in Heq as [-> _]. rewrite app_comm_cons, app_assoc in Heq2. apply app_inj_tail in Heq2 as [-> _].
    by eapply IH.
Qed.

(** The records of [X] carry the numbers that follow [c]. *)
Definition lsns_follow (c : Z) (X : wal_log) : Prop :=
  forall i d p r, X !! i = Some (d, p) -> GetRootAsLogRecord d = Ret r -> fb_lsn r = u64 (c + Z.of_nat i).

Lemma decode_records_spec X rs : Forall2 (fun x r => GetRootAsLogRecord x.1 = Ret r) X rs -> forall c,
  (decode_records c X.*1 X.*2 = Ret (Ok rs) /\ lsns_follow c X) \/
  (decode_records c X.*1 X.*2 = Ret (Err ErrInvalidOffset) /\ exists x, x ∈ X /\ Offset x.2 = 0) \/
  (decode_records c X.*1 X.*2 = Ret (Err ErrInvalidLSN) /\ ~ lsns_follow c X).
Proof.
  induction 1 as [|[d p] r X rs Hr _ IH]; intros c; [left; split; [done|]; intros i; by rewrite lookup_nil|]. cbn [fst] in Hr. rewrite !fmap_cons. cbn [decode_records fst snd].
  destruct (Z.eqb_spec (Offset p) 0) as [Ho|Ho]; [right; left; split; [done|]; exists (d, p); split; [by left|done]|]. rewrite Hr. cbn [mbind outcome_bind].
  destruct (Z.eqb_spec (u64 c) (fb_lsn r)) as [Hl|Hl]; cbn [negb].
  - destruct (IH (c + 1)) as [[-> Hf]|[[-> (x & Hx & Hz)]|[-> Hf]]]; cbn [mbind outcome_bind].
    + left. split; [done|]. intros [|i] d' p' r' Hi Hr'; cbn in Hi; [injection Hi as <- <-; replace (c + Z.of_nat 0) with c by lia; congruence|].
      rewrite (Hf i d' p' r' Hi Hr'). f_equal. lia.
    + right. left. split; [done|]. exists x. split; [by right|done].
    + right. right. split; [done|]. intros Hall. apply Hf. intros i d' p' r' Hi Hr'. rewrite (Hall (S i) d' p' r' Hi Hr'). f_equal. lia.
  - right. right. split; [done|]. intros Hall. apply Hl. rewrite (Hall 0%nat d p r eq_refl Hr). f_equal. lia.
Qed.

Lemma apply_decoded_spec n base md fuel X : forall Lg opss Y rs e tabs act now, length Lg = length opss -> log_means rows_ok (Lg ++ X) (opss ++ Y) ->
  Forall2 (fun x r => GetRootAsLogRecord x.1 = Ret r) X rs -> core rows_ok (length (concat Y) + n) e (Lg ++ X) (opss ++ Y) base tabs act md ->
  written base tabs act = concat opss -> (length (Lg ++ X) < fuel)%nat -> (forall i j, 0 <= now i j < 2 ^ 63) -> entries_fit (ArenaSize e) Lg X ->
  exists e', apply_decoded fuel now (zip rs X.*2) e = Ret (e', None) /\ engine_inv rows_ok n e' (Lg ++ X) (opss ++ Y) md /\ frame e e'.
Proof.
  induction X as [|[d p] X IH]; intros Lg opss Y rs e tabs act now Hlen Hl Hrs Hc Hwr Hf Hnow Hfit.
  - apply Forall2_nil_inv_l in Hrs as ->. pose proof (log_means_length _ _ _ Hl) as Hll. rewrite !length_app in Hll. destruct Y; [|cbn in Hll; lia].
    cbn in Hc. rewrite !app_nil_r in *. exists e. split; [done|]. split; [by exists base, tabs, act|apply frame_refl].
  - apply Forall2_cons_inv_l in Hrs as (r & rs' & Hr & Hrs & ->). cbn [fst] in Hr. pose proof (log_means_length _ _ _ Hl) as Hll. rewrite !length_app in Hll. destruct Y as [|ops Y]; [cbn in Hll; lia|].
    destruct (log_means_head X Lg d p opss ops Y Hl Hlen) as (r' & Hr' & Hrm). assert (r' = r) as -> by congruence. rewrite fmap_cons. cbn [zip zip_with apply_decoded].
    cbn [concat] in Hc. rewrite length_app, <- Nat.add_assoc in Hc.
    destruct (replica_handleRecord (length (concat Y) + n) e Lg opss d p r ops X Y base tabs act md fuel (now 0%nat) Hlen Hc Hwr Hr Hrm Hf (Hnow 0%nat)) as (e1 & tabs1 & act1 & Hrun & Hc1 & Hwr1 & Hfr1).
    { intros puts Hp. eapply (Hfit []); [done|done|]. by rewrite app_nil_r. }
    cbn [snd]. rewrite Hrun. cbn [mbind outcome_bind].
    replace (Lg ++ (d, p) :: X) with ((Lg ++ [(d, p)]) ++ X) in * by by rewrite <- app_assoc.
    replace (opss ++ ops :: Y) with ((opss ++ [ops]) ++ Y) in * by by rewrite <- app_assoc.
    destruct (IH (Lg ++ [(d, p)]) (opss ++ [ops]) Y rs' e1 tabs1 act1 (fun i => now (S i))) as (e' & Hrun' & Hinv & Hfr); try done; [rewrite !length_app; cbn; lia|..].
    + destruct Hfr1 as [-> _]. intros X1 d1 p1 X2 r1 puts -> Hr1 Hp. eapply (Hfit ((d, p) :: X1)); [done|done|]. by rewrite <- app_assoc in Hp.
    + exists e'. split; [done|]. split; [done|]. exact (frame_trans _ _ _ Hfr1 Hfr).
Qed.

Lemma entries_fit_one arena Lg d p r : GetRootAsLogRecord d = Ret r -> (forall puts, record_puts Lg r p puts -> Forall (fits arena) puts) -> entries_fit arena Lg [(d, p)].
Proof.
  intros Hr Hall X1 d' p' X2 r' puts HX Hr' Hp. destruct X1 as [|x X1]; [|by destruct X1]. injection HX as <- <- <-. rewrite app_nil_r in Hp.
  assert (r' = r) as -> by congruence. by apply Hall.
Qed.

(** ** Following the leader *)

Lemma isEqualOffset_spec p q : isEqualOffset p q = true <-> p = q.
Proof.
  unfold isEqualOffset. rewrite andb_true_iff, !Z.eqb_eq. destruct p, q; cbn. split; [intros [-> ->]; done|by intros [= -> ->]].
Qed.

Lemma equal_offsets ps : forall qs, length ps = length qs -> forallb (fun '(l, r) => isEqualOffset l r) (zip ps qs) = true <-> ps = qs.
Proof.
  induction ps as [|p ps IH]; intros [|q qs] Hl; try done. cbn [zip zip_with forallb]. rewrite andb_true_iff, isEqualOffset_spec. injection Hl as Hl.
  rewrite (IH qs Hl). split; [intros [-> ->]; done|by intros [= -> ->]].
Qed.

(** The answer of a replica to the records [X] that follow its log [Lg] in the
    log of the leader; [append] is what its own log answers. *)
Definition follows (n : nat) (e : Engine) (Lg X : wal_log) (opss Y : list (list queued_op)) (md : kvmap)
    (append : result error (list RecordPosition) -> Prop) (res : outcome (Engine * option engine_error)) : Prop :=
  exists e' err, res = Ret (e', err) /\
  match err with
  | None => lsns_follow (writeSeenCounter e + 1) X /\ append (Ok X.*2) /\ engine_inv rows_ok n e' (Lg ++ X) (opss ++ Y) md /\
      writeSeenCounter e' = u64 (writeSeenCounter e + blen X) /\ ArenaSize e' = ArenaSize e
  | Some ErrInvalidOffset => (e' = e /\ exists x, x ∈ X /\ Offset x.2 = 0) \/ exists ps, append (Ok ps) /\ ps <> X.*2
  | Some ErrInvalidLSN => e' = e /\ ~ lsns_follow (writeSeenCounter e + 1) X
  | Some (EWal x) => append (Err x) /\ engine_inv rows_ok n e' Lg opss md /\ ArenaSize e' = ArenaSize e
  | Some _ => False
  end.

Definition batch_answer (w : W) (ds : list bytes) (r : result error (list RecordPosition)) : Prop := exists w', wl_BatchAppend w ds = Ret (w', r).
Definition append_answer (w : W) (d : bytes) (r : result error (list RecordPosition)) : Prop :=
  exists w' r', wl_Append w d = Ret (w', r') /\ r = match r' with Ok p => Ok [p] | Err x => Err x end.

Section stream.
Context (n : nat) (e : Engine) (Lg X : wal_log) (opss Y : list (list queued_op)) (md : kvmap) (fuel : nat).
Hypothesis (Hl : log_means rows_ok (Lg ++ X) (opss ++ Y)) (Hf : (length (Lg ++ X) < fuel)%nat) (Hfit : entries_fit (ArenaSize e) Lg X).

Lemma decoded_records : exists rs, Forall2 (fun x r => GetRootAsLogRecord x.1 = Ret r) X rs.
Proof.
  pose proof (log_means_at _ _ _ Hl) as Hat. assert (Forall (fun x => exists r, GetRootAsLogRecord x.1 = Ret r) (Lg ++ X)) as Hall.
  { apply Forall_forall. intros x (i & Hi)%list_elem_of_lookup. destruct (Forall2_lookup_l _ _ _ _ _ Hat Hi) as (o & _ & A & B & r & _ & Hr & _). by exists r. }
  apply Forall_app in Hall as [_ Hall]. clear -Hall. induction Hall as [|x X [r Hr] _ [rs IH]]; [by exists []|]. exists (r :: rs). by constructor.
Qed.

Lemma ApplyRecords_follows now : engine_inv rows_ok (length X + S (length (concat Y) + n)) e Lg opss md -> X <> [] -> (forall i j, 0 <= now i j < 2 ^ 63) ->
  follows n e Lg X opss Y md (batch_answer (walIO e) X.*1) (ApplyRecords fuel now e X.*1 X.*2).
Proof.
  intros (base & tabs & act & Hc & Hwr) Hne Hnow. unfold ApplyRecords. unfold blen at 1 2 3. rewrite !length_fmap, Z.eqb_refl. cbn [negb].
  assert ((Z.of_nat (length X) =? 0) = false) as -> by (destruct X; [done|]; cbn [length]; apply Z.eqb_neq; lia).
  destruct decoded_records as [rs Hrs]. unfold follows.
  destruct (decode_records_spec X rs Hrs (writeSeenCounter e + 1)) as [[-> Hlsn]|[[-> Hz]|[-> Hlsn]]]; cbn [mbind outcome_bind]; [|by eexists e, _; split; [done|]; left|by eexists e, _].
  pose proof (co_wal _ _ _ _ _ _ _ _ _ Hc) as Hw. rewrite <- (length_fmap fst X) in Hw.
  destruct (wl_BatchAppend_law _ _ _ _ Hw) as (w' & res & Hb & Hres). rewrite Hb. cbn [mbind outcome_bind]. destruct res as [ps|x].
  - destruct Hres as [Hlen Hw']. rewrite length_fmap in Hlen. assert (length ps = length X.*2) as Hlen2 by by rewrite length_fmap.
    pose proof (equal_offsets ps X.*2 Hlen2) as Heq. destruct (forallb _ _); cbn [negb].
    + assert (ps = X.*2) as -> by by apply Heq. rewrite zip_fst_snd in Hw'.
      pose proof (core_extend rows_ok _ (length (concat Y) + n) e w' Lg X opss Y base tabs act md Hc ltac:(lia) Hw' Hl) as Hc'.
      assert (length Lg = length opss) as Hll by exact (log_means_length _ _ _ (co_log _ _ _ _ _ _ _ _ _ Hc)).
      destruct (apply_decoded_spec n base md fuel X Lg opss Y rs (with_counter (u64 (writeSeenCounter (with_wal w' e) + blen X.*1)) (with_wal w' e)) tabs act now Hll Hl Hrs
        (core_counter rows_ok _ _ _ _ _ _ _ _ _ Hc') Hwr Hf Hnow Hfit) as (e' & -> & Hinv & Hfr).
      eexists e', None. split; [done|]. split; [done|]. split; [by exists w'|]. split; [done|]. destruct Hfr as (-> & _ & _ & _ & -> & _). cbn. unfold blen. by rewrite length_fmap.
    + eexists _, _. split; [done|]. right. exists ps. split; [by exists w'|]. intros Heq'. by apply Heq in Heq'.
  - eexists _, _. split; [done|]. split; [by exists w'|]. split; [|done]. exists base, tabs, act. split; [|done]. rewrite <- (app_nil_r Lg), <- (app_nil_r opss).
    apply (core_extend rows_ok (length X + S (length (concat Y) + n))); [done|lia|rewrite app_nil_r|rewrite !app_nil_r; apply (co_log _ _ _ _ _ _ _ _ _ Hc)].
    clear -Hres. induction (length (concat Y)); [done|]. by apply IHn0, wl_weaken.
Qed.

Lemma ApplyRecord_follows now d p : X = [(d, p)] -> engine_inv rows_ok (S (length (concat Y) + n)) e Lg opss md -> (forall i, 0 <= now i < 2 ^ 63) ->
  follows n e Lg X opss Y md (append_answer (walIO e) d) (ApplyRecord fuel now e d p).
Proof.
  intros HX (base & tabs & act & Hc & Hwr) Hnow. destruct decoded_records as [rs Hrs]. rewrite HX in Hrs. apply Forall2_cons_inv_l in Hrs as (r & rs' & Hr & _ & ->). cbn [fst] in Hr.
  unfold ApplyRecord, follows. destruct (Z.eqb_spec (Offset p) 0) as [Ho|Ho]; [eexists e, _; split; [done|]; left; split; [done|]; exists (d, p); rewrite HX; split; [by left|done]|].
  rewrite Hr. cbn [mbind outcome_bind]. destruct (Z.eqb_spec (nextLSN e) (fb_lsn r)) as [Hlsn|Hlsn]; cbn [negb].
  - pose proof (log_means_length _ _ _ Hl) as Hll. pose proof (log_means_length _ _ _ (co_log _ _ _ _ _ _ _ _ _ Hc)) as Hll'. rewrite HX, !length_app in Hll. cbn [length] in Hll.
    destruct Y as [|ops [|]]; [cbn in Hll; lia| |cbn in Hll; lia]. cbn [concat] in *. rewrite app_nil_r in *.
    pose proof Hl as Hl'. rewrite HX in Hl'. destruct (log_means_head [] Lg d p opss ops [] Hl' Hll') as (r' & Hr' & Hrm). assert (r' = r) as -> by congruence.
    destruct (core_append rows_ok _ _ Lg opss base tabs act md d r ops (core_counter rows_ok _ _ _ _ _ _ _ _ (nextLSN e) Hc) Hr Hrm) as (e1 & res & Ha & _ & _ & _ & Hres).
    rewrite Ha. cbn [mbind outcome_bind]. unfold append_record in Ha. cbn [walIO with_counter] in Ha. destruct (wl_Append (walIO e) d) as [[w1 res1]| |] eqn:Hap; [|done..]. injection Ha as <- <-.
    destruct res1 as [p1|x].
    + pose proof (isEqualOffset_spec p1 p) as Heq. destruct (isEqualOffset p1 p); cbn [negb].
      * assert (p1 = p) as -> by by apply Heq.
        destruct (replica_handleRecord n _ Lg opss d p r ops [] [] base tabs act md fuel now Hll' Hres Hwr Hr Hrm ltac:(by rewrite <- HX) Hnow) as (e' & tabs' & act' & Hrun & Hc' & Hwr' & Hfr).
        { intros puts Hp. eapply (Hfit []); [exact HX|done|]. by rewrite app_nil_r. }
        rewrite Hrun. eexists e', None. split; [done|]. rewrite HX. split; [|split; [by exists w1, (Ok p)|]; split; [by exists base, tabs', act'|destruct Hfr as (-> & _ & _ & _ & -> & _); done]].
        intros [|i] d' p' r' Hi Hr''; [|done]. injection Hi as <- <-. unfold nextLSN in Hlsn. replace (writeSeenCounter e + 1 + Z.of_nat 0) with (writeSeenCounter e + 1) by lia. congruence.
      * eexists _, _. split; [done|]. right. exists [p1]. split; [by exists w1, (Ok p1)|]. rewrite HX. intros [= Hpp]. by apply Heq in Hpp.
    + eexists _, _. split; [done|]. split; [by exists w1, (Err x)|]. split; [|done]. exists base, tabs, act. split; [by eapply core_weaken_by|done].
  - eexists e, _. split; [done|]. split; [done|]. intros Hall. apply Hlsn. rewrite (Hall 0%nat d p r); [|by rewrite HX|done]. unfold nextLSN. f_equal. lia.
Qed.
End stream.

(** C4. A replica follows its leader.  The records [X] come after the replica's
    log in the log of the leader.  If the replica takes them, one at a time or
    as a batch, its log is the leader's and it stands for the leader's
    contents, transactions and blobs included; it refuses them, unchanged, when
    their numbers do not follow its own, and it notices when its log would give
    them other positions than the leader's. *)
Theorem replica_follows_its_leader n e Lg X opss Y md fuel now : log_means rows_ok (Lg ++ X) (opss ++ Y) ->
  engine_inv rows_ok (length X + S (length (concat Y) + n)) e Lg opss md -> X <> [] -> (length (Lg ++ X) < fuel)%nat ->
  (forall i j, 0 <= now i j < 2 ^ 63) -> entries_fit (ArenaSize e) Lg X ->
  follows n e Lg X opss Y md (batch_answer (walIO e) X.*1) (ApplyRecords fuel now e X.*1 X.*2) /\
  (forall d p, X = [(d, p)] -> follows n e Lg X opss Y md (append_answer (walIO e) d) (ApplyRecord fuel (now 0%nat) e d p)).
Proof.
  intros Hl Hinv Hne Hf Hnow Hfit. split; [by apply ApplyRecords_follows|]. intros d p HX. apply ApplyRecord_follows; try done. by eapply engine_inv_weaken.
Qed.
End replica.

Section example.
#[local] Existing Instance demo_codec.
#[local] Existing Instance demo_codec_laws.

Definition sample_record : LogRecord := call_record 1 1 sample_write.
Definition sample_stream : wal_log := [(FBEncode sample_record 512, mkPos 1 64)].

Lemma sample_record_ok : call_ok (L := map_list) (F := list bytes) any_rows (1024 * 1024) sample_write.
Proof. split; [|done]. repeat constructor; by vm_compute. Qed.

Lemma sample_root : GetRootAsLogRecord (FBEncode sample_record 512) = Ret (fb_of_record sample_record).
Proof. apply root_of_record, call_record_fits; lia. Qed.

Lemma sample_stream_means : log_means any_rows sample_stream [call_ops sample_write].
Proof. apply (lm_snoc any_rows [] [] _ _ _ _ (lm_nil any_rows) sample_root). by apply (call_record_means any_rows (1024 * 1024)), sample_record_ok. Qed.

Lemma sample_stream_fits : entries_fit (L := map_list) (F := list bytes) (1024 * 1024) [] sample_stream.
Proof.
  apply (entries_fit_one _ _ _ _ _ sample_root). intros puts Hp.
  assert (fb_txn_state (fb_of_record sample_record) = TransactionStateNone) as Hst by reflexivity. destruct Hp as [_|p' b rest Hst' _ _|kv Hst' _ _]; [|by rewrite Hst in Hst'..].
  apply Forall_forall. intros x Hx%list_elem_of_In. refine (proj1 (forallb_forall (fun y => canPut (NewMemTable (1024 * 1024)) y.1 y.2) _) _ x Hx). vm_compute. reflexivity.
Qed.

Lemma replica_follows_its_leader_witness : exists (e : Engine map_list (list bytes) WalWorld (BoltWorld kvmap)) md,
  follows any_rows 900 e [] sample_stream [] [call_ops sample_write] md (batch_answer (walIO e) sample_stream.*1)
    (ApplyRecords 2 (fun _ _ => 7) e sample_stream.*1 sample_stream.*2).
Proof.
  destruct sample_sim as (e & (opss & md & Hinv & _) & Ha). exists e, md.
  assert (opss = []) as -> by (destruct Hinv as (base & tabs & act & Hc & _); pose proof (log_means_length _ _ _ (co_log _ _ _ _ _ _ _ _ _ Hc)); by destruct opss).
  assert (engine_inv any_rows (length sample_stream + S (length (concat [call_ops sample_write]) + 900)) e [] [] md) as Hinv' by exact (engine_inv_weaken any_rows 96 904 e [] [] md Hinv).
  assert (entries_fit (L := map_list) (F := list bytes) (ArenaSize e) [] sample_stream) as Hfit by (rewrite Ha; exact sample_stream_fits).
  assert (forall i j : nat, 0 <= (fun _ _ : nat => 7) i j < 2 ^ 63) as Hnow by (intros; lia).
  exact (proj1 (replica_follows_its_leader any_rows 900 e [] sample_stream [] [call_ops sample_write] md 2 (fun _ _ => 7) sample_stream_means Hinv' ltac:(discriminate) Nat.lt_1_2 Hnow Hfit)).
Defined.
End example.
