(* ===== verification/RelayerFacts.v ===== *)
(** The relayer, end to end: a replica fed by the stream of its leader stands for
    what the leader's log says up to the last record it accepted; what the rate
    limiter and the retry loop do to that. *)

From stdpp Require Import prelude list numbers gmap sorting relations.
From Stdlib Require Import ZArith Lia.
From S2P Require Import Prelude Bytes Segment KeyCodec KVKeys KVStore KVBolt KVSpec KVReads KVQueue KVQueueFacts Overlay BTree.
From S2P Require Import WALog WALogFacts WALogRecovery LogCodec WalIO WalIOFacts TxnLog MemTable MemTableFacts Samples FlushFacts FlushSpec Notify Engine Recovery Replica LogMeaning EngineFacts EngineWrites EngineSpec RecoveryFacts ReplicaFacts.
From S2P Require Import WalTail GrpcUtils Replicator ReplicatorFacts Streamer StreamerFacts StreamClient Replication Relayer.

(** ** The replica behind the stream *)

Section follower.
Context {L F W R D : Type} `{SkipListLaws L} `{BloomLaws F} `{WalLaws W R} `{BTreeLaws D} `{FlatBuffersLaws}.
Context (rows_ok : nat -> Prop) (fuel : nat).
Notation Engine := (Engine L F W D).
Notation Follower := (Follower (L := L) (F := F) (W := W) (D := D)).
#[local] Instance the_sink : WalSink Follower engine_error := follower_sink fuel.

Lemma entries_fit_split arena A G X Z : entries_fit (L := L) (F := F) arena A (G ++ X ++ Z) -> entries_fit (L := L) (F := F) arena (A ++ G) X.
Proof.
  intros Hf X1 d p X2 r puts -> Hr Hp. apply (Hf (G ++ X1) d p (X2 ++ Z) r puts); [by rewrite <- !app_assoc|done|]. by rewrite app_assoc.
Qed.

(** The operations of the first records. *)
Lemma log_means_take A B opss : log_means rows_ok (A ++ B) opss -> log_means rows_ok A (take (length A) opss).
Proof. intros Hl. destruct (log_means_drop rows_ok B A opss Hl) as (o1 & o2 & -> & Hl1 & Hlen). by rewrite take_app_length' by done. Qed.

(** A batch of the leader's records is what the replica applies. *)
Lemma WriteBatch_records now (e : Engine) B : Forall (fun x => real_pos x.2) B -> B <> [] ->
  walIOHandler_WriteBatch fuel now e (wire_of <$> B) = ApplyRecords fuel now e B.*1 B.*2.
Proof.
  intros HB Hne. unfold walIOHandler_WriteBatch. destruct (wire_of <$> B) as [|m ms] eqn:E; [by destruct B|]. rewrite <- E. rewrite <- !list_fmap_compose. f_equal.
  induction HB as [|x B Hx HB IH]; [done|]. rewrite !fmap_cons. cbn [compose]. rewrite record_offset_wire by done. f_equal. clear -HB.
  induction HB as [|y B Hy HB IH]; [done|]. rewrite !fmap_cons. cbn [compose]. by rewrite record_offset_wire, IH.
Qed.

Section calls.
Context (P Lg : wal_log) (opss : list (list queued_op)) (md : kvmap) (e0 : Engine).
Hypothesis (Hreal : Forall (fun x => real_pos x.2) Lg) (Hmeans : log_means rows_ok Lg opss) (Hfuel : (length Lg < fuel)%nat).

(** What a call may use up of the space of the replica's log. *)
Definition call_cost : nat := length Lg + S (length (concat opss)).

(** The replica has applied [P ++ G]. *)
Definition applied (n : nat) (f : Follower) (G : wal_log) : Prop :=
  P ++ G `prefix_of` Lg /\ engine_inv rows_ok n (fo_engine f) (P ++ G) (take (length (P ++ G)) opss) md /\ ArenaSize (fo_engine f) = ArenaSize e0 /\
  forall i j k, 0 <= clock f i j k < 2 ^ 63.

Lemma applied_weaken k n f G : applied (k + n) f G -> applied n f G.
Proof. intros (Hp & Hi & Ha & Hc). split; [done|]. split; [by eapply engine_inv_weaken|done]. Qed.

Lemma call_applied n f G m err f' : P `prefix_of` Lg -> entries_fit (L := L) (F := F) (ArenaSize e0) P (drop (length P) Lg) ->
  applied (call_cost + n) f G -> (wire_of <$> P) ++ (wire_of <$> G) ++ m `prefix_of` wire_of <$> Lg ->
  sk_WriteBatch f m = Ret (f', err) -> err <> Some ErrInvalidOffset ->
  exists B, m = wire_of <$> B /\ applied n f' (match err with None => G ++ B | Some _ => G end).
Proof.
  intros HP Hfit Hap [z Hz] Hw Herr. pose proof Hap as ([Z HZ] & Hinv & Ha & Hclk).
  rewrite HZ, <- app_assoc, !fmap_app in Hz. rewrite <- !app_assoc in Hz. apply app_inv_head, app_inv_head in Hz. apply fmap_app_inv in Hz as (B & Z' & -> & _ & ->).
  exists B. split; [done|].
  assert (applied n (mkFollower (fo_engine f) (fun k => clock f (S k))) G) as Hkeep.
  { apply (applied_weaken call_cost n). split; [by eexists|]. split; [done|]. split; [done|]. intros i j k. apply Hclk. }
  destruct (decide (B = [])) as [->|HB].
  { cbn in Hw. injection Hw as <- <-. by rewrite app_nil_r. }
  assert (Forall (fun x => real_pos x.2) B) as HrB by (rewrite HZ in Hreal; do 2 apply Forall_app in Hreal as [? Hreal]; done).
  cbn [sk_WriteBatch the_sink follower_sink] in Hw. rewrite WriteBatch_records in Hw by done.
  set (Y := take (length B) (drop (length (P ++ G)) opss)). assert (take (length ((P ++ G) ++ B)) opss = take (length (P ++ G)) opss ++ Y) as HY.
  { by rewrite length_app, <- take_take_drop. }
  assert (log_means rows_ok ((P ++ G) ++ B) (take (length (P ++ G)) opss ++ Y)) as HlB.
  { rewrite <- HY. apply (log_means_take _ Z'). by rewrite <- app_assoc, <- HZ. }
  assert (entries_fit (L := L) (F := F) (ArenaSize (fo_engine f)) (P ++ G) B) as HfB.
  { rewrite Ha. apply (entries_fit_split _ P G B Z'). by rewrite HZ, <- app_assoc, drop_app_length in Hfit. }
  assert (engine_inv rows_ok (length B + S (length (concat Y) + n)) (fo_engine f) (P ++ G) (take (length (P ++ G)) opss) md) as HiB.
  { assert (length B + length (P ++ G) <= length Lg)%nat by (rewrite HZ, !length_app; lia).
    assert (length (concat Y) <= length (concat opss))%nat.
    { assert (opss = take (length (P ++ G)) opss ++ Y ++ drop (length B) (drop (length (P ++ G)) opss)) as Ho by (unfold Y; by rewrite !take_drop).
      apply (f_equal (fun l => length (concat l))) in Ho. rewrite !concat_app, !length_app in Ho. lia. }
    replace (call_cost + n)%nat with ((length Lg - length B + (length (concat opss) - length (concat Y))) + (length B + S (length (concat Y) + n)))%nat in Hinv by (unfold call_cost; lia).
    by eapply engine_inv_weaken. }
  assert (length ((P ++ G) ++ B) < fuel)%nat as HfuelB by (rewrite HZ, !length_app in Hfuel; rewrite !length_app; lia).
  destruct (ApplyRecords_follows rows_ok n (fo_engine f) (P ++ G) B _ Y md fuel HlB HfuelB HfB (clock f 0%nat) HiB HB (Hclk 0%nat)) as (e' & err' & Hrun & Hres).
  rewrite Hrun in Hw. cbn [mbind outcome_bind] in Hw. injection Hw as <- <-. cbn [fo_engine clock].
  destruct err' as [x|].
  - destruct x; try done.
    + by destruct Hres as [-> _].
    + destruct Hres as (_ & Hi' & Ha'). split; [by eexists|]. split; [done|]. split; [by rewrite <- Ha|]. intros i j k. apply Hclk.
  - destruct Hres as (_ & _ & Hi' & _ & Ha'). unfold applied. rewrite app_assoc. split; [exists Z'; by rewrite <- app_assoc|].
    split; [by rewrite HY|]. split; [by rewrite <- Ha|]. intros i j k. apply Hclk.
Qed.

Lemma calls_applied f0 calls f : calls_run f0 calls f -> fo_engine f0 = e0 -> forall n, P `prefix_of` Lg ->
  entries_fit (L := L) (F := F) (ArenaSize e0) P (drop (length P) Lg) -> (forall i j k, 0 <= clock f0 i j k < 2 ^ 63) ->
  engine_inv rows_ok (length calls * call_cost + n) e0 P (take (length P) opss) md -> in_order P Lg calls ->
  Forall (fun x => x.2 <> Some ErrInvalidOffset) calls ->
  exists G, accepted calls = wire_of <$> G /\ applied n f G.
Proof.
  intros Hrun He0. induction Hrun as [f0|f0 calls f1 m err f2 Hrun IH Hw]; intros n HP Hfit Hclk Hinv Hord Herr.
  - exists []. split; [done|]. unfold applied. rewrite app_nil_r. subst e0. done.
  - apply Forall_app in Herr as [Herr Hm]. apply Forall_cons in Hm as [Hm _]. cbn in Hm.
    assert (in_order P Lg calls) as Hord1.
    { intros before m' e' after Hc. apply (Hord before m' e' (after ++ [(m, err)])). by rewrite Hc, <- app_assoc. }
    destruct (IH He0 (call_cost + n)%nat HP Hfit Hclk) as (G & HG & Hap); [|done..|].
    { rewrite length_app in Hinv. cbn [length] in Hinv. by replace (length calls * call_cost + (call_cost + n))%nat with ((length calls + 1) * call_cost + n)%nat by lia. }
    specialize (Hord calls m err [] eq_refl). rewrite HG in Hord.
    destruct (call_applied n f1 G m err f2 HP Hfit Hap Hord Hw Hm) as (B & -> & Hap').
    exists (match err with None => G ++ B | Some _ => G end). split; [|done]. rewrite accepted_snoc, HG. destruct err; [by rewrite app_nil_r|by rewrite fmap_app].
Qed.
End calls.
End follower.

Section end_to_end.
Context {W0 R0 : Type} `{TailLaws W0 R0}.
Context {L F W R D : Type} `{SkipListLaws L} `{BloomLaws F} `{WalLaws W R} `{BTreeLaws D} `{FlatBuffersLaws}.
Context (rows_ok : nat -> Prop) (fuel : nat).
Context (CurrentOffset : W0 -> option RecordPosition) (namespace : bytes) (ctx : Ctx) (dynamicTimeout : Z).
#[local] Instance replica_sink : WalSink (Follower (L := L) (F := F) (W := W) (D := D)) engine_error := follower_sink fuel.

(** C3. A follower stands for what its leader's log says.  The replica starts with
    the records [P] of the leader and gets the rest through the streams of the
    leader, the network and its client, as [Replication] lets them run.  At any
    time the records it has accepted are a prefix of the leader's log and its
    contents are those of that prefix, transactions and blobs included, unless it
    has reported that its log gives the records other positions than the
    leader's. *)
Theorem follower_mirrors_leader n P ahead w c f0 y Lg opss md :
  tl_log w (P ++ ahead) -> NewGrpcStreamerClient (offset_bytes P) = Ret c ->
  rtc (sys_step CurrentOffset namespace ctx dynamicTimeout) (initial w c f0) y -> tl_log (y_log y) Lg -> log_means rows_ok Lg opss -> (length Lg < fuel)%nat ->
  engine_inv rows_ok (length (y_calls y) * call_cost Lg opss + n) (fo_engine f0) P (take (length P) opss) md ->
  entries_fit (L := L) (F := F) (ArenaSize (fo_engine f0)) P (drop (length P) Lg) -> (forall i j k, 0 <= clock f0 i j k < 2 ^ 63) ->
  Forall (fun x => x.2 <> Some ErrInvalidOffset) (y_calls y) ->
  exists G, accepted (y_calls y) = wire_of <$> G /\ P ++ G `prefix_of` Lg /\
    engine_inv rows_ok n (fo_engine (y_sink y)) (P ++ G) (take (length (P ++ G)) opss) md.
Proof.
  intros Hw Hc Hr Hl Hm Hf Hinv Hfit Hclk Herr.
  destruct (sys_reachable _ _ _ _ P _ y _ _ _ (initial_inv P ahead w c f0 Hw Hc) Hr) as (L' & Ss & G' & [Hl' _ _ Hpre _ Hord _] & _).
  rewrite (tl_unique _ _ _ Hl' Hl) in *.
  assert (calls_run f0 (y_calls y) (y_sink y)) as Hrun by (eapply reachable_calls; [|exact Hr]; constructor).
  assert (Forall (fun x => real_pos x.2) Lg) as Hreal by (eapply real_prefix; [exact Hl|done]).
  assert (P `prefix_of` Lg) as HP by (etrans; [|exact Hpre]; by apply prefix_app_r).
  destruct (calls_applied rows_ok fuel P Lg opss md (fo_engine f0) Hreal Hm Hf f0 (y_calls y) (y_sink y) Hrun eq_refl n HP Hfit Hclk Hinv Hord Herr) as (G & HG & HPG & Hi & _).
  by exists G.
Qed.
End end_to_end.

Section example.
#[local] Existing Instance demo_codec.
#[local] Existing Instance demo_codec_laws.
Notation SampleEngine := (Engine map_list (list bytes) WalWorld (BoltWorld kvmap)).

Definition sample_wal : WALog := match NewWALog good_ios [] [] ∅ (std_opts 4096 64 true 0 0 0 false) with Ret (Ok w) => w | _ => blankWALog ∅ end.
Definition sample_world : WalWorld := mkWW (mkWalIO sample_wal 0) (fun _ => good_ios).

Lemma sample_world_repr : wl_repr 1000 sample_world [].
Proof.
  destruct (NewWALog_empty good_ios [] [] 4096 64 true 0 0 0 false good_ios_good eq_refl ltac:(by vm_compute)) as (w & Hn & Hw & _).
  assert (sample_wal = w) as Hs by (unfold sample_wal; by rewrite Hn).
  unfold sample_world. rewrite Hs. exists (mkLog [] (1, [])). split; [done|]. split; [intros k; exact good_ios_good|]. split; [by vm_compute|done].
Qed.

Definition sample_replica : SampleEngine :=
  match initStorage sample_config (opened sample_world (sample_store ∅)) as r return (match r with Ok _ => SampleEngine | Err _ => unit end) with
  | Ok e => e
  | Err _ => tt
  end.

Lemma sample_replica_sim : sim any_rows 1000 [] sample_replica [] (mkAState ∅ []) /\ ArenaSize sample_replica = 1024 * 1024.
Proof.
  apply (initial_sim any_rows 1000 sample_config (opened sample_world (sample_store ∅)) sample_world (sample_store ∅));
    [apply sample_world_repr|apply sample_store_repr|vm_compute; discriminate|reflexivity..].
Qed.

Definition sample_follower := mkFollower sample_replica (fun _ _ _ => 7).
#[local] Instance sample_sink : WalSink (Follower (L := map_list) (F := list bytes) (W := WalWorld) (D := BoltWorld kvmap)) engine_error := follower_sink 2.

Definition sample_client : Client engine_error := mkClient None 0 initialBackoff None [] false None false KTop.

(** The record of [sample_stream] travels to the replica. *)
Definition sample_run : list label :=
  [LOpen 0; go; go; go; go; go; go; LSession 0 false (SRecords (fun _ => 1) (fun _ => true)); LSession 0 false (SFlush true);
   LClient TCheck; LRecv; LClient (TPush true); LWrite].
Definition sample_exec := exec_all (W := wal_log) (R := nat * bool) (fun w => snd <$> list.last w) example_namespace example_ctx (30 * Second).

Lemma sample_delivers : exists y, sample_exec sample_run (initial sample_stream sample_client sample_follower) = Some y /\
  y_calls y = [(wire_of <$> sample_stream, None)] /\ y_log y = sample_stream.
Proof.
  assert (match sample_exec sample_run (initial sample_stream sample_client sample_follower) with
    | Some y => y_calls y = [(wire_of <$> sample_stream, None)] /\ y_log y = sample_stream | None => False end) as Hr by (vm_compute; split; reflexivity).
  destruct (sample_exec sample_run (initial sample_stream sample_client sample_follower)) as [y|]; [|destruct Hr]. exists y. exact (conj eq_refl Hr).
Qed.

Lemma sample_stream_log : tl_log sample_stream sample_stream.
Proof. split; [reflexivity|]. apply positions_ok_dec. vm_compute. reflexivity. Qed.

Lemma follower_mirrors_leader_witness : exists (y : System (W := wal_log) (R := nat * bool) (X := engine_error)) G md, y_calls y = [(wire_of <$> sample_stream, None)] /\
  accepted (y_calls y) = wire_of <$> G /\ engine_inv any_rows 900 (fo_engine (y_sink y)) G (take (length G) [call_ops sample_write]) md.
Proof.
  destruct sample_delivers as (y & Hy & Hc & Hlog). destruct sample_replica_sim as [(opss & md & Hinv & _) Ha].
  assert (opss = []) as -> by (destruct Hinv as (base & tabs & act & Hco & _); pose proof (log_means_length _ _ _ (co_log _ _ _ _ _ _ _ _ _ Hco)); by destruct opss).
  destruct (follower_mirrors_leader any_rows 2 (fun w => snd <$> list.last w) example_namespace example_ctx (30 * Second) 900 [] sample_stream sample_stream sample_client sample_follower y
    sample_stream [call_ops sample_write] md sample_stream_log eq_refl (exec_all_sound _ _ _ _ _ _ _ Hy)) as (G & HG & _ & Hi).
  - rewrite Hlog. exact sample_stream_log.
  - exact sample_stream_means.
  - exact Nat.lt_1_2.
  - rewrite Hc. exact (engine_inv_weaken any_rows 96 904 sample_replica [] [] md Hinv).
  - change (fo_engine sample_follower) with sample_replica. rewrite Ha. exact sample_stream_fits.
  - intros i j k. change (0 <= 7 < 2 ^ 63). lia.
  - rewrite Hc. constructor; [discriminate|constructor].
  - exists y, G, md. exact (conj Hc (conj HG Hi)).
Defined.
End example.
