(* ===== verification/EngineAux.v ===== *)
(** The rest of the engine: readers of the log, backups, and the goroutines that
    do the background work (dbkernel/{engine,engine_public}.go). *)

From stdpp Require Import prelude list numbers gmap sorting.
From Stdlib Require Import ZArith Lia.
From S2P Require Import Prelude Bytes Segment WALog WALogRetention KeyCodec KVStore KVSpec KVQueue Overlay BTree LogCodec WalIO WalIOFacts TxnLog MemTable MemTableFacts FlushFacts FlushSpec Notify Paths.
From S2P Require Import Engine Txn Recovery LogMeaning EngineFacts EngineWrites TxnFacts EngineReads EngineFlush EngineSpec.

(** ** Readers of the log *)

Section readers.
Context {L F D : Type}.
Notation Engine := (Engine L F WalIO.WalIO D).

Definition NewReader (e : Engine) : outcome (result engine_error WalIO.Reader) := Ret (Ok (WalIO.NewReader (walIO e) false)).

Definition wal_result {A} (r : result error A) : result engine_error A := match r with Ok a => Ok a | Err x => Err (EWal x) end.

(** A panic is recovered. *)
Definition NewReaderWithStart (e : Engine) (startPos : option RecordPosition) : outcome (result engine_error WalIO.Reader) :=
  match startPos with
  | None => NewReader e
  | Some startPos =>
      match currentOffset e with
      | None => Ret (Err ErrInvalidOffset)
      | Some _ =>
          match WalIO.NewReaderWithStart (walIO e) startPos false with
          | Panic => Ret (Err ErrInvalidOffset)
          | NoFuel => NoFuel
          | Ret r => Ret (wal_result r)
          end
      end
  end.

Definition NewReaderWithTail (e : Engine) (startPos : option RecordPosition) : outcome (result engine_error WalIO.Reader) :=
  match startPos with
  | None => Ret (Ok (WalIO.NewReader (walIO e) true))
  | Some startPos => r ← WalIO.NewReaderWithStart (walIO e) startPos true; Ret (wal_result r)
  end.

(** Whatever position a client sends, a reader is answered with a value. *)
Lemma NewReaderWithStart_answers e startPos : (forall p, WalIO.NewReaderWithStart (walIO e) p false <> NoFuel) ->
  exists r, NewReaderWithStart e startPos = Ret r.
Proof.
  intros Hn. unfold NewReaderWithStart. destruct startPos as [p|]; [|by eexists]. destruct (currentOffset e); [|by eexists].
  specialize (Hn p). destruct (WalIO.NewReaderWithStart _ _ _); [by eexists|by eexists|done].
Qed.

Definition BackupWalSegmentsAfter (ios : nat -> IO) (c : nat -> CopyIO) (emptyDir mkdirOk walMkdirOk sameDir : bool) (root : bytes)
    (e : Engine) (afterID : Z) (backupDir : bytes) (dir : backup_dir)
  : outcome (Engine * backup_dir * result (path_error + backup_error) (list Z)) :=
  match resolveBackupDir mkdirOk root backupDir with
  | Err err => Ret (e, dir, Err (inl err))
  | Ok _ =>
      '(w, dir, r) ← WalIO.BackupSegmentsAfter ios c emptyDir walMkdirOk sameDir afterID (walIO e) dir;
      Ret (with_wal w e, dir, match r with Ok ids => Ok ids | Err err => Err (inr err) end)
  end.
End readers.

(** ** Backup of the store *)

Definition tmp_suffix : bytes := [Byte.x2e; Byte.x74; Byte.x6d; Byte.x70].  (* ".tmp" *)

(** The answers: opening the temporary file, what the driver writes and whether
    it fails, the sync, the close and the rename. *)
Record BackupIO := mkBackupIO {
  bk_mkdir : bool; bk_open : bool; bk_data : bytes; bk_snapshot : option lib_error; bk_sync : bool; bk_close : bool; bk_rename : bool
}.

Inductive snapshot_error := SnapPath (e : path_error) | SnapCreate | SnapLib (e : lib_error) | SnapSync | SnapClose | SnapRename.

(** [BtreeSnapshot]: the number of bytes written, counted by the writer. *)
Definition BtreeSnapshot (io : BackupIO) : Z * option lib_error := (blen (bk_data io), bk_snapshot io).

(** [files] is the directory; a removal of a missing file is ignored. *)
Definition BackupBtree (io : BackupIO) (root backupPath : bytes) (files : gmap bytes bytes) : gmap bytes bytes * result snapshot_error Z :=
  match resolveBackupFile (bk_mkdir io) root backupPath with
  | Err err => (files, Err (SnapPath err))
  | Ok resolvedPath =>
      let tmpPath := resolvedPath ++ tmp_suffix in
      if negb (bk_open io) then (files, Err SnapCreate) else
      let files := <[tmpPath := bk_data io]> files in
      let '(written, err) := BtreeSnapshot io in
      let snapshotErr := match err with Some x => Some (SnapLib x) | None => if negb (bk_sync io) then Some SnapSync else None end in
      let snapshotErr := match snapshotErr with None => if negb (bk_close io) then Some SnapClose else None | err => err end in
      match snapshotErr with
      | Some err => (delete tmpPath files, Err err)
      | None =>
          let files := delete resolvedPath files in
          if negb (bk_rename io) then (delete tmpPath files, Err SnapRename) else
          (<[resolvedPath := bk_data io]> (delete tmpPath files), Ok written)
      end
  end.

(** A backup that succeeds is the snapshot; one that fails keeps the backup that
    was there, unless it is the rename that fails: then the earlier backup is
    already gone. *)
Lemma BackupBtree_spec io root path files resolved : resolveBackupFile (bk_mkdir io) root path = Ok resolved ->
  let '(files', r) := BackupBtree io root path files in
  match r with
  | Ok n => files' !! resolved = Some (bk_data io) /\ n = blen (bk_data io)
  | Err SnapRename => files' !! resolved = None
  | Err _ => files' !! resolved = files !! resolved
  end.
Proof.
  intros Hr. unfold BackupBtree. rewrite Hr. assert (resolved ++ tmp_suffix <> resolved) as Hne.
  { intros Heq. apply (f_equal length) in Heq. rewrite length_app in Heq. cbn in Heq. lia. }
  assert (forall m : gmap bytes bytes, delete (resolved ++ tmp_suffix) (<[resolved ++ tmp_suffix := bk_data io]> m) !! resolved = m !! resolved) as Htmp.
  { intros m. by rewrite lookup_delete_ne, lookup_insert_ne. }
  destruct (bk_open io); cbn [negb]; [|done]. cbn [BtreeSnapshot]. destruct (bk_snapshot io); [apply Htmp|].
  destruct (bk_sync io); cbn [negb]; [|apply Htmp]. destruct (bk_close io); cbn [negb]; [|apply Htmp]. destruct (bk_rename io); cbn [negb].
  - by rewrite lookup_insert_eq.
  - rewrite lookup_delete_ne by done. by rewrite lookup_delete_eq.
Qed.

(** ** The background goroutines *)

Section workers.
Context {L F W R D : Type} `{SkipListLaws L} `{BloomLaws F} `{WalLaws W R} `{BTreeLaws D} `{FlatBuffersLaws}.
Context (rows_ok : nat -> Prop).
Notation Engine := (Engine L F W D).

(** How many further requests one round of [asyncFSync] takes: the count may
    reach eleven before the loop ends. *)
Definition coalesced (waiting : Z) : Z := Z.min waiting 11.

(** One round of a goroutine: the flusher is woken by a request or by its
    ticker, the syncer by a request or, when an interval is set, by its ticker;
    the sync of the log ends the process when it fails. *)
Inductive worker_step (fuel : nat) (order : list bytes -> list bytes) (e : Engine) : outcome Engine -> Prop :=
| flush_requested : 0 < flushReqSignal e ->
    worker_step fuel order e (handleFlush fuel (fun _ => false) order (with_signals (flushReqSignal e - 1) (fsyncReqSignal e) e))
| flush_tick : worker_step fuel order e (handleFlush fuel (fun _ => false) order e)
| sync_requested : 0 < fsyncReqSignal e ->
    worker_step fuel order e (fSyncStore (with_signals (flushReqSignal e) (fsyncReqSignal e - 1 - coalesced (fsyncReqSignal e - 1)) e))
| sync_tick : btreeFlushIntervalEnabled e = true -> worker_step fuel order e (fSyncStore e)
| wal_sync_tick (ok : bool) : worker_step fuel order e (if ok then Ret e else Panic).

Lemma sim_signals n Lg e ts a flush fsync : sim rows_ok n Lg e ts a -> sim rows_ok n Lg (with_signals flush fsync e) ts a.
Proof.
  intros (opss & md & (base & tabs & act & Hc & Hw) & Hm & Ht & Hro & Hsd). exists opss, md. split; [|done]. exists base, tabs, act. split; [|done]. by destruct Hc.
Qed.

Lemma worker_step_sim n Lg e ts a fuel order r : sim rows_ok n Lg e ts a -> (length Lg < fuel)%nat -> (forall l, order l ≡ₚ l) ->
  worker_step fuel order e r -> r = Panic \/ exists e', r = Ret e' /\ sim rows_ok n Lg e' ts a.
Proof.
  intros Hs Hf Ho. destruct 1 as [_| |_|_|[]]; [| | | |right; by exists e|by left].
  - destruct (sim_flush rows_ok n Lg _ ts a fuel order (sim_signals _ _ _ _ _ (flushReqSignal e - 1) (fsyncReqSignal e) Hs) Hf Ho) as [[? _]|?]; [by left|by right].
  - destruct (sim_flush rows_ok n Lg e ts a fuel order Hs Hf Ho) as [[? _]|?]; [by left|by right].
  - destruct (sim_sync rows_ok n Lg _ ts a (sim_signals _ _ _ _ _ (flushReqSignal e) (fsyncReqSignal e - 1 - coalesced (fsyncReqSignal e - 1)) Hs)) as [[? _]|?]; [by left|by right].
  - destruct (sim_sync rows_ok n Lg e ts a Hs) as [[? _]|?]; [by left|by right].
Qed.

(** However the goroutines interleave between two calls, the engine stands for
    the same map. *)
Inductive workers_run (fuel : nat) (order : list bytes -> list bytes) : Engine -> Engine -> Prop :=
| workers_idle e : workers_run fuel order e e
| workers_more e e1 e2 : worker_step fuel order e (Ret e1) -> workers_run fuel order e1 e2 -> workers_run fuel order e e2.

Lemma workers_are_invisible n Lg e e' ts a fuel order : workers_run fuel order e e' -> sim rows_ok n Lg e ts a -> (length Lg < fuel)%nat ->
  (forall l, order l ≡ₚ l) -> sim rows_ok n Lg e' ts a.
Proof.
  induction 1 as [|e e1 e2 Hstep _ IH]; intros Hs Hf Ho; [done|].
  destruct (worker_step_sim n Lg e ts a fuel order (Ret e1) Hs Hf Ho Hstep) as [|(e3 & [= <-] & Hs')]; [done|]. by apply IH.
Qed.
End workers.

(** * The clock: dbkernel/hlc.go, with the parts of package time that it uses.

    A time has a reading of the wall clock and, when it comes from time.Now, one
    of the monotonic clock; both in nanoseconds.  Durations do not overflow:
    the process does not run for 292 years. *)

(** ** Package time *)

Record Time := mkTime { wall : Z; mono : option Z }.

(** Add moves both readings. *)
Definition Add (t : Time) (d : Z) : Time := mkTime (wall t + d) ((fun m => m + d) <$> mono t).

(** Sub uses the monotonic readings when both times have one. *)
Definition Sub (t u : Time) : Z :=
  match mono t, mono u with
  | Some m, Some m' => m - m'
  | _, _ => wall t - wall u
  end.

(** The two clocks of the machine at one moment. *)
Record clocks := mkClocks { wall_clock : Z; mono_clock : Z }.

Definition Now (c : clocks) : Time := mkTime (wall_clock c) (Some (mono_clock c)).

Definition UnixMilli (t : Time) : Z := wall t / 10 ^ 6.

(** ** The monitor *)

Definition driftReportThreshold : Z := 5 * 10 ^ 6.

(** [start]: the clocks when the process started. *)
Definition measureClockDrift (start now : clocks) : Z :=
  let startTime := Now start in
  let now := Now now in
  let monotonicElapsed := Sub now startTime in
  let expected := Add startTime monotonicElapsed in
  Sub now expected.

(** What the monitor reports at a tick. *)
Definition drift_tick (start now : clocks) : option Z :=
  let drift := measureClockDrift start now in
  let drift := if drift <? 0 then - drift else drift in
  if driftReportThreshold <? drift then Some drift else None.

(** The ticks of [StartClockDriftMonitor], until the context is done. *)
Definition StartClockDriftMonitor (start : clocks) (ticks : list clocks) : list Z := omap (drift_tick start) ticks.

Definition HLCNow (c : clocks) : Z := u64 (UnixMilli (Now c)).

(** ** What is measured *)

(** How far the wall clock has moved against the monotonic one. *)
Definition drift (start now : clocks) : Z := (wall_clock now - wall_clock start) - (mono_clock now - mono_clock start).

(** The difference of the two times is taken on their monotonic readings again,
    which agree by construction. *)
Lemma measured_drift_is_zero start now : measureClockDrift start now = 0.
Proof. unfold measureClockDrift, Sub, Add, Now. cbn. lia. Qed.

(** The monitor never reports a drift, however far the wall clock has moved. *)
Theorem clock_drift_is_never_reported start ticks : StartClockDriftMonitor start ticks = [].
Proof. unfold StartClockDriftMonitor. induction ticks as [|c ticks IH]; [done|]. cbn. unfold drift_tick. by rewrite measured_drift_is_zero. Qed.

(** Without the monotonic reading of the current time, as time.Time.Round(0)
    gives it, the drift itself is measured. *)
Lemma drift_without_monotonic start now :
  let startTime := Now start in
  Sub (mkTime (wall_clock now) None) (Add startTime (Sub (Now now) startTime)) = drift start now.
Proof. unfold Sub, Add, Now, drift. cbn. lia. Qed.

(** A clock that is set back gives smaller times to later writes; the replay of
    the log does not compare them. *)
Lemma hlc_may_go_back : exists before after, mono_clock before < mono_clock after /\ HLCNow after < HLCNow before.
Proof. exists (mkClocks (10 ^ 9) 0), (mkClocks 0 1). by vm_compute. Qed.
