(* ===== verification/HttpApi.v ===== *)
(** The HTTP interface: internal/services/httpapi/{service,transactions}.go.

    A [Service] has the engines by namespace and the open transactions by name.
    Each handler takes the variables that the router has found in the path, the
    body of the request and the outside world of the engine's call ([Env]), and
    gives the service back with the response.  Values travel in base64.  The
    decoding of JSON into the request types is the class [JsonCodec]; the
    messages of error responses are left out.  A panic of a handler is [Panic]:
    net/http drops the connection. *)

From stdpp Require Import prelude list numbers gmap sorting.
From Stdlib Require Import ZArith Lia.
From S2P Require Import Prelude Bytes Base64 Segment WALog WALogRetention KeyCodec KVStore KVSpec KVQueue BTree LogCodec WalIO MemTable Notify Paths GrpcUtils Engine Txn EngineAux.
Import Stdlib.Strings.String.StringSyntax.

Definition operationPut : bytes := str "put".
Definition operationDelete : bytes := str "delete".
Definition maxRequestBodySize : Z := Z.shiftl 1 20.

(** ** Requests and responses *)

(** A body behind http.MaxBytesReader: what can be read of it, and whether an
    error comes behind that instead of its end. *)
Definition limited_body : Type := bytes * bool.
Definition MaxBytesReader (body : bytes) : limited_body := (take (Z.to_nat maxRequestBodySize) body, maxRequestBodySize <? blen body).

Record BatchKVRequest := mkBatchKV { bk_Operation : bytes; bk_Items : list (bytes * bytes); bk_Keys : list bytes }.
Record BatchRowsRequest := mkBatchRows { br_Operation : bytes; br_Rows : list (bytes * gmap bytes bytes) }.
Record BeginTransactionRequest := mkBegin { bt_Operation : bytes; bt_EntryType : bytes }.

(** json.NewDecoder(...).Decode for each request type. *)
Class JsonCodec := {
  json_PutKVRequest : limited_body -> option bytes;
  json_BatchKVRequest : limited_body -> option BatchKVRequest;
  json_ColumnsRequest : limited_body -> option (gmap bytes bytes);
  json_BatchRowsRequest : limited_body -> option BatchRowsRequest;
  json_BeginTransactionRequest : limited_body -> option BeginTransactionRequest;
  json_AppendKVRequest : limited_body -> option (bytes * bytes);
  json_AppendRowRequest : limited_body -> option (bytes * gmap bytes bytes);
  json_BackupSegmentsRequest : limited_body -> option (Z * bytes);
  json_BtreeBackupRequest : limited_body -> option bytes
}.

Definition StatusBadRequest : Z := 400.
Definition StatusNotFound : Z := 404.
Definition StatusInternalServerError : Z := 500.

(** All but [RespondError] have the status 200. *)
Inductive response :=
| RespondError (statusCode : Z)
| SuccessResponse
| BatchResponse (count : Z)
| GetKVResponse (value : option bytes)
| GetRowResponse (found : bool) (columns : gmap bytes bytes)
| LOBResponse (value : bytes)
| OffsetResponse (segmentID offset : Z)
| StatsResponse (namespace : bytes) (opsReceived opsFlushed currentSegment currentOffset : Z)
| CheckpointResponse (recordProcessed segmentID offset : Z)
| BackupSegmentsResponse (segmentIDs : list Z)
| BtreeBackupResponse (path : bytes) (written : Z)
| BeginTransactionResponse (txnID : bytes)
| CommitTransactionResponse (checksum : Z)
| HealthResponse (namespaces : list bytes).

(** ** Decoding of values *)

(** A map of columns, ranged over in [order]. *)
Definition decode_columns (order : list (bytes * bytes) -> list (bytes * bytes)) (columns : gmap bytes bytes) : option (list (bytes * bytes)) :=
  mapM (fun '(colName, encodedValue) => value ← DecodeString encodedValue; Some (colName, value)) (order (map_to_list columns)).

Definition decode_item (item : bytes * bytes) : option (bytes * bytes) :=
  match item.1 with [] => None | _ => value ← DecodeString item.2; Some (item.1, value) end.

Definition decode_row (order : list (bytes * bytes) -> list (bytes * bytes)) (row : bytes * gmap bytes bytes) : option (bytes * list (bytes * bytes)) :=
  match row.1 with [] => None | _ => columns ← decode_columns order row.2; Some (row.1, columns) end.

(** strings.Split(s, ",") *)
Fixpoint split_comma (s : bytes) : list bytes :=
  match s with
  | [] => [[]]
  | c :: s =>
      if bool_decide (c = Byte.x2c) then [] :: split_comma s
      else match split_comma s with h :: t => (c :: h) :: t | [] => [[c]] end
  end.

(** The predicate of [handleGetRow]: the query parameter "columns". *)
Definition column_predicate (columnFilter : bytes) (colName : bytes) : bool :=
  match columnFilter with [] => true | _ => bool_decide (colName ∈ (TrimSpace <$> split_comma columnFilter)) end.

(** ** The service *)

(** The clock, the identifier of a new transaction and the order in which maps
    are ranged over. *)
Record Env := mkEnv { env_hlc : nat -> Z; env_now : nat -> Z; env_uuid : option bytes; env_order : list (bytes * bytes) -> list (bytes * bytes) }.

Record transactionState := mkTxnState { ts_txn : Txn; ts_namespace : bytes; createdAt : Z }.

Section service.
Context {L F W R D : Type} `{SkipList L} `{BloomFilter F} `{WalLog W R} `{BTreeStore D} `{FlatBuffers} `{JsonCodec}.
Notation Engine := (Engine L F W D).

Record Service := mkService { engines : gmap bytes Engine; transactions : gmap bytes transactionState }.

Definition NewService (engines : gmap bytes Engine) : Service := mkService engines ∅.

Definition getEngine (namespace : bytes) (s : Service) : option Engine := engines s !! namespace.
Definition getTransaction (txnID : bytes) (s : Service) : option transactionState := transactions s !! txnID.
Definition storeTransaction (txnID : bytes) (t : transactionState) (s : Service) : Service := mkService (engines s) (<[txnID := t]> (transactions s)).
Definition deleteTransaction (txnID : bytes) (s : Service) : Service := mkService (engines s) (delete txnID (transactions s)).

(** The engine is a shared object: its new state is seen by all. *)
Definition with_engine (namespace : bytes) (e : Engine) (s : Service) : Service := mkService (<[namespace := e]> (engines s)) (transactions s).

(** Outcome of a write: 500 for any error of the engine. *)
Definition finish_write (namespace : bytes) (s : Service) (ok : response) (r : outcome (Engine * option engine_error)) : outcome (Service * response) :=
  '(e, err) ← r;
  Ret (with_engine namespace e s, match err with None => ok | Some _ => RespondError StatusInternalServerError end).

(** ** Key-value handlers *)

Definition handlePutKV (env : Env) (namespace key body : bytes) (s : Service) : outcome (Service * response) :=
  match key with
  | [] => Ret (s, RespondError StatusBadRequest)
  | _ =>
      match getEngine namespace s with
      | None => Ret (s, RespondError StatusNotFound)
      | Some engine =>
          match json_PutKVRequest (MaxBytesReader body) with
          | None => Ret (s, RespondError StatusBadRequest)
          | Some reqValue =>
              match DecodeString reqValue with
              | None => Ret (s, RespondError StatusBadRequest)
              | Some value => finish_write namespace s SuccessResponse (PutKV (env_hlc env 0%nat) (env_now env) engine key value)
              end
          end
      end
  end.

Definition handleGetKV (namespace key : bytes) (s : Service) : outcome (Service * response) :=
  match key with
  | [] => Ret (s, RespondError StatusBadRequest)
  | _ =>
      match getEngine namespace s with
      | None => Ret (s, RespondError StatusNotFound)
      | Some engine =>
          r ← GetKV engine key;
          Ret (s, match r with
                  | Ok value => GetKVResponse (Some (EncodeToString value))
                  | Err (EStore ErrKeyNotFound) => GetKVResponse None
                  | Err _ => RespondError StatusInternalServerError
                  end)
      end
  end.

Definition handleDeleteKV (env : Env) (namespace key : bytes) (s : Service) : outcome (Service * response) :=
  match key with
  | [] => Ret (s, RespondError StatusBadRequest)
  | _ =>
      match getEngine namespace s with
      | None => Ret (s, RespondError StatusNotFound)
      | Some engine => finish_write namespace s SuccessResponse (DeleteKV (env_hlc env 0%nat) (env_now env) engine key)
      end
  end.

Definition handleBatchKV (env : Env) (namespace body : bytes) (s : Service) : outcome (Service * response) :=
  match getEngine namespace s with
  | None => Ret (s, RespondError StatusNotFound)
  | Some engine =>
      match json_BatchKVRequest (MaxBytesReader body) with
      | None => Ret (s, RespondError StatusBadRequest)
      | Some req =>
          if bool_decide (bk_Operation req = operationPut) then
            match bk_Items req with
            | [] => Ret (s, RespondError StatusBadRequest)
            | items =>
                match mapM decode_item items with
                | None => Ret (s, RespondError StatusBadRequest)
                | Some kvs => finish_write namespace s (BatchResponse (blen items)) (BatchPutKV (env_hlc env 0%nat) (env_now env) engine kvs.*1 kvs.*2)
                end
            end
          else if bool_decide (bk_Operation req = operationDelete) then
            match bk_Keys req with
            | [] => Ret (s, RespondError StatusBadRequest)
            | keys =>
                if bool_decide ([] ∈ keys) then Ret (s, RespondError StatusBadRequest)
                else finish_write namespace s (BatchResponse (blen keys)) (BatchDeleteKV (env_hlc env 0%nat) (env_now env) engine keys)
            end
          else Ret (s, RespondError StatusBadRequest)
      end
  end.

(** ** Row handlers *)

(** [handlePutRow] and [handleDeleteColumns] differ in the call of the engine. *)
Definition columns_request (env : Env) (call : Engine -> list (bytes * bytes) -> outcome (Engine * option engine_error))
    (namespace rowKey body : bytes) (s : Service) : outcome (Service * response) :=
  match rowKey with
  | [] => Ret (s, RespondError StatusBadRequest)
  | _ =>
      match getEngine namespace s with
      | None => Ret (s, RespondError StatusNotFound)
      | Some engine =>
          match json_ColumnsRequest (MaxBytesReader body) with
          | None => Ret (s, RespondError StatusBadRequest)
          | Some reqColumns =>
              if bool_decide (reqColumns = ∅) then Ret (s, RespondError StatusBadRequest) else
              match decode_columns (env_order env) reqColumns with
              | None => Ret (s, RespondError StatusBadRequest)
              | Some columns => finish_write namespace s SuccessResponse (call engine columns)
              end
          end
      end
  end.

Definition handlePutRow (env : Env) (namespace rowKey body : bytes) (s : Service) : outcome (Service * response) :=
  columns_request env (fun engine => PutColumnsForRow (env_hlc env 0%nat) (env_now env) engine rowKey) namespace rowKey body s.

Definition handleDeleteColumns (env : Env) (namespace rowKey body : bytes) (s : Service) : outcome (Service * response) :=
  columns_request env (fun engine => DeleteColumnsForRow (env_hlc env 0%nat) (env_now env) engine rowKey) namespace rowKey body s.

Definition handleGetRow (namespace rowKey columnFilter : bytes) (s : Service) : outcome (Service * response) :=
  match rowKey with
  | [] => Ret (s, RespondError StatusBadRequest)
  | _ =>
      match getEngine namespace s with
      | None => Ret (s, RespondError StatusNotFound)
      | Some engine =>
          r ← GetRowColumns engine rowKey (Some (column_predicate columnFilter));
          Ret (s, match r with
                  | Ok columns => GetRowResponse true (EncodeToString <$> columns)
                  | Err (EStore ErrKeyNotFound) => GetRowResponse false ∅
                  | Err _ => RespondError StatusInternalServerError
                  end)
      end
  end.

Definition handleDeleteRow (env : Env) (namespace rowKey : bytes) (s : Service) : outcome (Service * response) :=
  match rowKey with
  | [] => Ret (s, RespondError StatusBadRequest)
  | _ =>
      match getEngine namespace s with
      | None => Ret (s, RespondError StatusNotFound)
      | Some engine => finish_write namespace s SuccessResponse (DeleteRow (env_hlc env 0%nat) (env_now env) engine rowKey)
      end
  end.

Definition handleBatchRows (env : Env) (namespace body : bytes) (s : Service) : outcome (Service * response) :=
  match getEngine namespace s with
  | None => Ret (s, RespondError StatusNotFound)
  | Some engine =>
      match json_BatchRowsRequest (MaxBytesReader body) with
      | None => Ret (s, RespondError StatusBadRequest)
      | Some req =>
          match br_Rows req with
          | [] => Ret (s, RespondError StatusBadRequest)
          | rows =>
              if bool_decide (br_Operation req = operationPut) then
                match mapM (decode_row (env_order env)) rows with
                | None => Ret (s, RespondError StatusBadRequest)
                | Some rcs => finish_write namespace s (BatchResponse (blen rows)) (PutColumnsForRows (env_hlc env 0%nat) (env_now env) engine rcs.*1 rcs.*2)
                end
              else if bool_decide (br_Operation req = operationDelete) then
                if bool_decide ([] ∈ rows.*1) then Ret (s, RespondError StatusBadRequest)
                else finish_write namespace s (BatchResponse (blen rows)) (BatchDeleteRows (env_hlc env 0%nat) (env_now env) engine rows.*1)
              else Ret (s, RespondError StatusBadRequest)
          end
      end
  end.

(** [fuel] bounds the walk over the chunks of the blob. *)
Definition handleGetLOB (fuel : nat) (namespace key : bytes) (s : Service) : outcome (Service * response) :=
  match key with
  | [] => Ret (s, RespondError StatusBadRequest)
  | _ =>
      match getEngine namespace s with
      | None => Ret (s, RespondError StatusNotFound)
      | Some engine =>
          r ← GetLOB fuel engine key;
          Ret (s, match r with
                  | Ok value => LOBResponse value
                  | Err (EStore ErrKeyNotFound) => RespondError StatusNotFound
                  | Err _ => RespondError StatusInternalServerError
                  end)
      end
  end.

(** ** Handlers about the engine *)

(** An engine without records has no offset: the handler dereferences nil. *)
Definition handleGetOffset (namespace : bytes) (s : Service) : outcome (Service * response) :=
  match getEngine namespace s with
  | None => Ret (s, RespondError StatusNotFound)
  | Some engine =>
      match CurrentOffset engine with
      | None => Panic
      | Some offset => Ret (s, OffsetResponse (SegmentID offset) (Offset offset))
      end
  end.

Definition handleGetStats (namespace : bytes) (s : Service) : outcome (Service * response) :=
  match getEngine namespace s with
  | None => Ret (s, RespondError StatusNotFound)
  | Some engine =>
      match CurrentOffset engine with
      | None => Panic
      | Some offset => Ret (s, StatsResponse namespace (OpsReceivedCount engine) (OpsFlushedCount engine) (SegmentID offset) (Offset offset))
      end
  end.

Definition handleGetCheckpoint (namespace : bytes) (s : Service) : outcome (Service * response) :=
  match getEngine namespace s with
  | None => Ret (s, RespondError StatusNotFound)
  | Some engine =>
      r ← GetWalCheckPoint engine;
      Ret (s, match r with
              | Err _ => RespondError StatusInternalServerError
              | Ok None => CheckpointResponse 0 0 0
              | Ok (Some metadata) =>
                  match Pos metadata with
                  | None => CheckpointResponse (RecordProcessed metadata) 0 0
                  | Some pos => CheckpointResponse (RecordProcessed metadata) (SegmentID pos) (Offset pos)
                  end
              end)
  end.

(** [root] is the engine's BackupRoot. *)
Definition handleBackupBTree (io : BackupIO) (root namespace body : bytes) (files : gmap bytes bytes) (s : Service) : gmap bytes bytes * response :=
  match getEngine namespace s with
  | None => (files, RespondError StatusNotFound)
  | Some _ =>
      match json_BtreeBackupRequest (MaxBytesReader body) with
      | None => (files, RespondError StatusBadRequest)
      | Some path =>
          match TrimSpace path with
          | [] => (files, RespondError StatusBadRequest)
          | _ =>
              let '(files, r) := BackupBtree io root path files in
              (files, match r with Ok written => BtreeBackupResponse (Join root path) written | Err _ => RespondError StatusInternalServerError end)
          end
      end
  end.

Definition HandleHealth (s : Service) : response := HealthResponse (map_to_list (engines s)).*1.

(** ** Transactions *)

Definition entry_type (name : bytes) : option Z :=
  if bool_decide (name = str "kv") then Some LogEntryTypeKV
  else if bool_decide (name = str "row") then Some LogEntryTypeRow
  else if bool_decide (name = str "lob") then Some LogEntryTypeChunked
  else None.

Definition operation_type (name : bytes) : option Z :=
  if bool_decide (name = operationPut) then Some LogOperationTypeInsert
  else if bool_decide (name = operationDelete) then Some LogOperationTypeDelete
  else None.

Definition handleBeginTransaction (env : Env) (now : Z) (namespace body : bytes) (s : Service) : outcome (Service * response) :=
  match getEngine namespace s with
  | None => Ret (s, RespondError StatusNotFound)
  | Some engine =>
      match json_BeginTransactionRequest (MaxBytesReader body) with
      | None => Ret (s, RespondError StatusBadRequest)
      | Some req =>
          match operation_type (bt_Operation req), entry_type (bt_EntryType req) with
          | Some opType, Some entryType =>
              '(engine, r) ← NewTxn (env_uuid env) (env_hlc env 0%nat) engine opType entryType;
              let s := with_engine namespace engine s in
              Ret (match r with
                   | Err _ => (s, RespondError StatusInternalServerError)
                   | Ok txn =>
                       let txnID := hex_EncodeToString (TxnID txn) in
                       (storeTransaction txnID (mkTxnState txn namespace now) s, BeginTransactionResponse txnID)
                   end)
          | _, _ => Ret (s, RespondError StatusBadRequest)
          end
      end
  end.

(** A call on a transaction, which holds its engine. *)
Definition on_transaction (txnID : bytes) (state : transactionState) (call : Engine -> Txn -> outcome (Engine * Txn * option engine_error)) (s : Service)
  : outcome (Service * Txn * option engine_error) :=
  match engines s !! ts_namespace state with
  | None => Panic
  | Some engine =>
      '(engine, txn, err) ← call engine (ts_txn state);
      Ret (storeTransaction txnID (mkTxnState txn (ts_namespace state) (createdAt state)) (with_engine (ts_namespace state) engine s), txn, err)
  end.

Definition finish_append (r : outcome (Service * Txn * option engine_error)) : outcome (Service * response) :=
  '(s, _, err) ← r;
  Ret (s, match err with None => SuccessResponse | Some _ => RespondError StatusInternalServerError end).

(** The namespace of the path is not looked at. *)
Definition handleAppendKV (env : Env) (txnID body : bytes) (s : Service) : outcome (Service * response) :=
  match getTransaction txnID s with
  | None => Ret (s, RespondError StatusNotFound)
  | Some state =>
      match json_AppendKVRequest (MaxBytesReader body) with
      | None => Ret (s, RespondError StatusBadRequest)
      | Some (reqKey, reqValue) =>
          match reqKey with
          | [] => Ret (s, RespondError StatusBadRequest)
          | _ =>
              match DecodeString reqValue with
              | None => Ret (s, RespondError StatusBadRequest)
              | Some value => finish_append (on_transaction txnID state (fun e t => AppendKVTxn (env_hlc env 0%nat) e t reqKey value) s)
              end
          end
      end
  end.

Definition handleAppendRow (env : Env) (txnID body : bytes) (s : Service) : outcome (Service * response) :=
  match getTransaction txnID s with
  | None => Ret (s, RespondError StatusNotFound)
  | Some state =>
      match json_AppendRowRequest (MaxBytesReader body) with
      | None => Ret (s, RespondError StatusBadRequest)
      | Some (reqKey, reqColumns) =>
          match reqKey with
          | [] => Ret (s, RespondError StatusBadRequest)
          | _ =>
              if bool_decide (reqColumns = ∅) then Ret (s, RespondError StatusBadRequest) else
              match decode_columns (env_order env) reqColumns with
              | None => Ret (s, RespondError StatusBadRequest)
              | Some columns => finish_append (on_transaction txnID state (fun e t => AppendColumnTxn (env_hlc env 0%nat) e t reqKey columns) s)
              end
          end
      end
  end.

(** The loop of [handleAppendLOB] over the pieces the body is read in; [eof]
    tells how it ends. *)
Fixpoint append_pieces (hlc : nat -> Z) (txnID : bytes) (state : transactionState) (key : bytes) (pieces : list bytes) (eof : bool) (s : Service)
  : outcome (Service * response) :=
  match pieces with
  | [] => Ret (s, if eof then SuccessResponse else RespondError StatusInternalServerError)
  | piece :: pieces =>
      '(s, txn, err) ← on_transaction txnID state (fun e t => AppendKVTxn (hlc 0%nat) e t key piece) s;
      match err with
      | Some _ => Ret (s, RespondError StatusInternalServerError)
      | None => append_pieces (fun n => hlc (S n)) txnID (mkTxnState txn (ts_namespace state) (createdAt state)) key pieces eof s
      end
  end.

Definition handleAppendLOB (env : Env) (txnID key : bytes) (pieces : list bytes) (eof : bool) (s : Service) : outcome (Service * response) :=
  match getTransaction txnID s with
  | None => Ret (s, RespondError StatusNotFound)
  | Some state =>
      match key with
      | [] => Ret (s, RespondError StatusBadRequest)
      | _ => append_pieces (env_hlc env) txnID state key pieces eof s
      end
  end.

Definition handleCommitTransaction (env : Env) (txnID : bytes) (s : Service) : outcome (Service * response) :=
  match getTransaction txnID s with
  | None => Ret (s, RespondError StatusNotFound)
  | Some state =>
      '(s, txn, err) ← on_transaction txnID state (fun e t => Commit (env_hlc env 0%nat) (env_now env) e t) s;
      Ret (match err with
           | Some _ => (s, RespondError StatusInternalServerError)
           | None => (deleteTransaction txnID s, CommitTransactionResponse (ChunkedValueChecksum txn))
           end)
  end.

Definition handleAbortTransaction (txnID : bytes) (s : Service) : outcome (Service * response) :=
  match getTransaction txnID s with
  | None => Ret (s, RespondError StatusNotFound)
  | Some _ => Ret (deleteTransaction txnID s, SuccessResponse)
  end.
End service.
Arguments Service : clear implicits.

(** The backup of log segments needs the log of the files. *)
Section backup.
Context {L F D : Type} `{JsonCodec}.

(** The answers of the disk, and the flags of the engine's operation. *)
Record SegmentBackupIO := mkSegmentBackupIO {
  sb_ios : nat -> IO; sb_copy : nat -> CopyIO; sb_emptyDir : bool; sb_mkdirOk : bool; sb_walMkdirOk : bool; sb_sameDir : bool
}.

Definition handleBackupSegmentsAfter (io : SegmentBackupIO) (root namespace body : bytes) (dir : backup_dir) (s : Service L F WalIO.WalIO D)
  : outcome (Service L F WalIO.WalIO D * backup_dir * response) :=
  match getEngine namespace s with
  | None => Ret (s, dir, RespondError StatusNotFound)
  | Some engine =>
      match json_BackupSegmentsRequest (MaxBytesReader body) with
      | None => Ret (s, dir, RespondError StatusBadRequest)
      | Some (afterSegmentID, backupDir) =>
          match TrimSpace backupDir with
          | [] => Ret (s, dir, RespondError StatusBadRequest)
          | _ =>
              '(engine, dir, r) ← BackupWalSegmentsAfter (sb_ios io) (sb_copy io) (sb_emptyDir io) (sb_mkdirOk io) (sb_walMkdirOk io) (sb_sameDir io) root
                  engine afterSegmentID backupDir dir;
              Ret (with_engine namespace engine s, dir,
                   match r with
                   | Ok ids => BackupSegmentsResponse (merge_sort Z.le ids)
                   | Err (inr (BkNotFound | BkNoRotated)) => RespondError StatusNotFound
                   | Err _ => RespondError StatusInternalServerError
                   end)
          end
      end
  end.
End backup.
