(* ===== verification/HttpSpec.v ===== *)
(** What the HTTP interface promises: every request is refused and changes
    nothing, or is a number of calls on one engine, in order up to the first that
    fails; the engines of the other namespaces are left alone, and a name of a
    transaction stands for one transaction. *)

From stdpp Require Import prelude list numbers gmap sorting.
From Stdlib Require Import ZArith Lia.
From S2P Require Import Prelude Bytes Base64 Crc32 Segment KeyCodec KVKeys KVStore KVBolt KVSpec KVReads KVQueue KVQueueFacts Overlay BTree.
From S2P Require Import LogCodec WalIO WalIOFacts TxnLog MemTable MemTableFacts Samples FlushFacts FlushSpec Notify Engine Txn Recovery LogMeaning EngineFacts EngineWrites TxnFacts EngineReads EngineFlush EngineSpec.
From S2P Require Import GrpcUtils Paths EngineAux HttpApi.

#[local] Notation KeyKV := KeyCodec.KeyKV.
#[local] Notation RowKey := KeyCodec.RowKey.
#[local] Notation KeyBlobChunk := KeyCodec.KeyBlobChunk.

(** ** Requests *)

(** The requests that call the engine to change something. *)
Inductive Request :=
| ReqPutKV (namespace key body : bytes)
| ReqDeleteKV (namespace key : bytes)
| ReqBatchKV (namespace body : bytes)
| ReqPutRow (namespace rowKey body : bytes)
| ReqDeleteColumns (namespace rowKey body : bytes)
| ReqDeleteRow (namespace rowKey : bytes)
| ReqBatchRows (namespace body : bytes)
| ReqBegin (now : Z) (namespace body : bytes)
| ReqAppendKV (txnID body : bytes)
| ReqAppendRow (txnID body : bytes)
| ReqAppendLOB (txnID key : bytes) (pieces : list bytes) (eof : bool)
| ReqCommit (txnID : bytes)
| ReqAbort (txnID : bytes).

(** The status of a response. *)
Definition status_of (r : response) : Z := match r with RespondError code => code | _ => 200 end.

(** Calls in order, up to the first that fails. *)
Inductive calls_step : astate -> list engine_call -> option engine_error -> astate -> Prop :=
| cs_nil a : calls_step a [] None a
| cs_ok a c a1 cs err a2 : a_step a c None a1 -> calls_step a1 cs err a2 -> calls_step a (c :: cs) err a2
| cs_fail a c a1 cs err : a_step a c (Some err) a1 -> calls_step a (c :: cs) (Some err) a1.

Section spec.
Context {L F W R D : Type} `{SkipListLaws L} `{BloomLaws F} `{WalLaws W R} `{BTreeLaws D} `{FlatBuffersLaws} `{JsonCodec}.
Context (rows_ok : nat -> Prop).
Notation Engine := (Engine L F W D).
Notation Service := (Service L F W D).

Definition serve (env : Env) (r : Request) (s : Service) : outcome (Service * response) :=
  match r with
  | ReqPutKV ns key body => handlePutKV env ns key body s
  | ReqDeleteKV ns key => handleDeleteKV env ns key s
  | ReqBatchKV ns body => handleBatchKV env ns body s
  | ReqPutRow ns row body => handlePutRow env ns row body s
  | ReqDeleteColumns ns row body => handleDeleteColumns env ns row body s
  | ReqDeleteRow ns row => handleDeleteRow env ns row s
  | ReqBatchRows ns body => handleBatchRows env ns body s
  | ReqBegin now ns body => handleBeginTransaction env now ns body s
  | ReqAppendKV id body => handleAppendKV env id body s
  | ReqAppendRow id body => handleAppendRow env id body s
  | ReqAppendLOB id key pieces eof => handleAppendLOB env id key pieces eof s
  | ReqCommit id => handleCommitTransaction env id s
  | ReqAbort id => handleAbortTransaction id s
  end.

(** ** Writes *)

(** The call a write request stands for, with the response when it succeeds. *)
Definition write_of (env : Env) (r : Request) : option (bytes * write_call * response) :=
  match r with
  | ReqPutKV ns key body =>
      value ← (json_PutKVRequest (MaxBytesReader body) ≫= DecodeString);
      match key with [] => None | _ => Some (ns, CallPut [key] [value], SuccessResponse) end
  | ReqDeleteKV ns key => match key with [] => None | _ => Some (ns, CallDelete [key], SuccessResponse) end
  | ReqBatchKV ns body =>
      req ← json_BatchKVRequest (MaxBytesReader body);
      if bool_decide (bk_Operation req = operationPut) then
        kvs ← mapM decode_item (bk_Items req);
        match bk_Items req with [] => None | _ => Some (ns, CallPut kvs.*1 kvs.*2, BatchResponse (blen (bk_Items req))) end
      else if bool_decide (bk_Operation req = operationDelete) then
        match bk_Keys req with
        | [] => None
        | _ => if bool_decide ([] ∈ bk_Keys req) then None else Some (ns, CallDelete (bk_Keys req), BatchResponse (blen (bk_Keys req)))
        end
      else None
  | ReqPutRow ns row body | ReqDeleteColumns ns row body =>
      cols ← json_ColumnsRequest (MaxBytesReader body);
      columns ← (if bool_decide (cols = ∅) then None else decode_columns (env_order env) cols);
      match row with
      | [] => None
      | _ => Some (ns, match r with ReqPutRow _ _ _ => CallSetCells [row] [columns] | _ => CallDeleteCells [row] [columns] end, SuccessResponse)
      end
  | ReqDeleteRow ns row => match row with [] => None | _ => Some (ns, CallDeleteRows [row], SuccessResponse) end
  | ReqBatchRows ns body =>
      req ← json_BatchRowsRequest (MaxBytesReader body);
      match br_Rows req with
      | [] => None
      | rows =>
          if bool_decide (br_Operation req = operationPut) then
            rcs ← mapM (decode_row (env_order env)) rows;
            Some (ns, CallSetCells rcs.*1 rcs.*2, BatchResponse (blen rows))
          else if bool_decide (br_Operation req = operationDelete) then
            if bool_decide ([] ∈ rows.*1) then None else Some (ns, CallDeleteRows rows.*1, BatchResponse (blen rows))
          else None
      end
  | _ => None
  end.

Definition is_write (r : Request) : bool :=
  match r with ReqBegin _ _ _ | ReqAppendKV _ _ | ReqAppendRow _ _ | ReqAppendLOB _ _ _ _ | ReqCommit _ | ReqAbort _ => false | _ => true end.

(** A write request is its call, or is refused. *)
Lemma serve_write env r s : is_write r = true ->
  match write_of env r with
  | None => exists code, (code = 400 \/ code = 404) /\ serve env r s = Ret (s, RespondError code)
  | Some (ns, c, ok) =>
      serve env r s = match engines s !! ns with None => Ret (s, RespondError 404) | Some e => finish_write ns s ok (run_write (env_hlc env 0%nat) (env_now env) e c) end
  end.
Proof.
  assert (exists code, (code = 400 \/ code = 404) /\ Ret (s, RespondError 400) = Ret (s, RespondError code)) as Hbad by (exists 400; auto).
  assert (exists code, (code = 400 \/ code = 404) /\ Ret (s, RespondError 404) = Ret (s, RespondError code)) as Hnf by (exists 404; auto).
  intros Hw. destruct r as [ns key body|ns key|ns body|ns row body|ns row body|ns row|ns body| | | | | |]; try done; cbn [serve write_of].
  - unfold handlePutKV, getEngine. destruct key as [|k key]; [by destruct (_ ≫= DecodeString)|]. destruct (json_PutKVRequest _) as [v|]; cbn; [|by destruct (engines s !! ns)].
    destruct (DecodeString v); cbn; by destruct (engines s !! ns).
  - unfold handleDeleteKV, getEngine. by destruct key; [|destruct (engines s !! ns)].
  - unfold handleBatchKV, getEngine. destruct (json_BatchKVRequest _) as [req|]; cbn [mbind option_bind]; [|by destruct (engines s !! ns)].
    case_bool_decide.
    + destruct (bk_Items req) as [|i items]; [cbn; by destruct (engines s !! ns)|].
      destruct (mapM decode_item (i :: items)) as [kvs|]; cbn [mbind option_bind]; by destruct (engines s !! ns).
    + case_bool_decide; [|by destruct (engines s !! ns)]. destruct (bk_Keys req) as [|k keys]; [by destruct (engines s !! ns)|]. case_bool_decide; by destruct (engines s !! ns).
  - unfold handlePutRow, columns_request, getEngine. destruct row as [|k row].
    + destruct (json_ColumnsRequest _) as [cols|]; [|done]. cbn. case_bool_decide; [done|]. by destruct (decode_columns _ _).
    + destruct (json_ColumnsRequest _) as [cols|]; cbn; [|by destruct (engines s !! ns)]. case_bool_decide; [by destruct (engines s !! ns)|]. destruct (decode_columns _ _); cbn [mbind option_bind]; by destruct (engines s !! ns).
  - unfold handleDeleteColumns, columns_request, getEngine. destruct row as [|k row].
    + destruct (json_ColumnsRequest _) as [cols|]; [|done]. cbn. case_bool_decide; [done|]. by destruct (decode_columns _ _).
    + destruct (json_ColumnsRequest _) as [cols|]; cbn; [|by destruct (engines s !! ns)]. case_bool_decide; [by destruct (engines s !! ns)|]. destruct (decode_columns _ _); cbn [mbind option_bind]; by destruct (engines s !! ns).
  - unfold handleDeleteRow, getEngine. by destruct row; [|destruct (engines s !! ns)].
  - unfold handleBatchRows, getEngine. destruct (json_BatchRowsRequest _) as [req|]; cbn [mbind option_bind]; [|by destruct (engines s !! ns)].
    destruct (br_Rows req) as [|r rows]; [by destruct (engines s !! ns)|]. case_bool_decide.
    + destruct (mapM _ _) as [rcs|]; cbn [mbind option_bind]; by destruct (engines s !! ns).
    + case_bool_decide; [|by destruct (engines s !! ns)]. case_bool_decide; by destruct (engines s !! ns).
Qed.

(** ** The engines and their promise *)

(** Every engine stands for a state of the promise; a name stands for one of its
    transactions, [I] tells which. *)
Record http_sim (n : nat) (s : Service) (A : gmap bytes astate) (Ts : gmap bytes (list Txn)) (I : gmap bytes nat) : Prop := {
  hs_engine ns e : engines s !! ns = Some e -> exists Lg ts a, Ts !! ns = Some ts /\ A !! ns = Some a /\ sim rows_ok n Lg e ts a;
  hs_only ns : engines s !! ns = None -> A !! ns = None;
  hs_txn id st : transactions s !! id = Some st ->
    exists ts i, is_Some (engines s !! ts_namespace st) /\ Ts !! ts_namespace st = Some ts /\ I !! id = Some i /\ ts !! i = Some (ts_txn st);
  hs_inj id1 id2 st1 st2 i : transactions s !! id1 = Some st1 -> transactions s !! id2 = Some st2 -> ts_namespace st1 = ts_namespace st2 ->
    I !! id1 = Some i -> I !! id2 = Some i -> id1 = id2
}.

Lemma sim_weaken k n Lg (e : Engine) ts a : sim rows_ok (k + n) Lg e ts a -> sim rows_ok n Lg e ts a.
Proof. intros (opss & md & Hi & Hrest). exists opss, md. split; [by eapply engine_inv_weaken|done]. Qed.

(** One engine has changed. *)
Lemma http_update k n s A Ts I ns e' Lg' ts' a' s' I' : http_sim (k + n) s A Ts I -> sim rows_ok n Lg' e' ts' a' -> engines s' = <[ns := e']> (engines s) ->
  (forall id st, transactions s' !! id = Some st ->
     (ts_namespace st = ns -> exists i, I' !! id = Some i /\ ts' !! i = Some (ts_txn st)) /\
     (ts_namespace st <> ns -> transactions s !! id = Some st /\ I' !! id = I !! id)) ->
  (forall id1 id2 st1 st2 i, transactions s' !! id1 = Some st1 -> transactions s' !! id2 = Some st2 -> ts_namespace st1 = ns -> ts_namespace st2 = ns ->
     I' !! id1 = Some i -> I' !! id2 = Some i -> id1 = id2) ->
  http_sim n s' (<[ns := a']> A) (<[ns := ts']> Ts) I'.
Proof.
  intros [He Ho Ht Hinj] Hs Heng Htx Hin. split.
  - intros ns' e. rewrite Heng. destruct (decide (ns = ns')) as [<-|Hne].
    + rewrite !lookup_insert_eq. intros [= <-]. by exists Lg', ts', a'.
    + rewrite !lookup_insert_ne by done. intros Hns. destruct (He ns' e Hns) as (Lg & ts & a & Hx1 & Hx2 & Hx3). exists Lg, ts, a. split; [done|]. split; [done|]. by eapply sim_weaken.
  - intros ns'. rewrite Heng. destruct (decide (ns = ns')) as [<-|Hne]; [by rewrite lookup_insert_eq|]. rewrite !lookup_insert_ne by done. apply Ho.
  - intros id st Hst. destruct (Htx id st Hst) as [Hsame Hother]. rewrite Heng. destruct (decide (ns = ts_namespace st)) as [->|Hne].
    + destruct (Hsame eq_refl) as (i & Hi & Hti). exists ts', i. by rewrite !lookup_insert_eq.
    + destruct (Hother (not_eq_sym Hne)) as [Hold HI]. destruct (Ht id st Hold) as (ts & i & Hx1 & Hx2 & Hx3 & Hx4). exists ts, i. rewrite !lookup_insert_ne by done. by rewrite HI.
  - intros id1 id2 st1 st2 i Hx1 Hx2 Hns Hi1 Hi2. destruct (decide (ts_namespace st1 = ns)) as [Heq|Hne]; [apply (Hin id1 id2 st1 st2 i); congruence|].
    destruct (Htx id1 st1 Hx1) as [_ Ho1]. destruct (Htx id2 st2 Hx2) as [_ Ho2]. destruct (Ho1 Hne) as [Hold1 HI1]. destruct (Ho2 ltac:(congruence)) as [Hold2 HI2].
    apply (Hinj id1 id2 st1 st2 i); congruence.
Qed.

(** The transactions of a service whose transactions have not changed. *)
Lemma same_txns n s A Ts I ns ts : http_sim n s A Ts I -> Ts !! ns = Some ts -> forall id st, transactions s !! id = Some st ->
  (ts_namespace st = ns -> exists i, I !! id = Some i /\ ts !! i = Some (ts_txn st)) /\ (ts_namespace st <> ns -> transactions s !! id = Some st /\ I !! id = I !! id).
Proof.
  intros Hs Hts id st Hst. split; [|done]. intros <-. destruct (hs_txn _ _ _ _ _ Hs id st Hst) as (ts' & i & _ & Ht & Hi & Hti). exists i. split; [done|]. congruence.
Qed.

Lemma call_pre_log arena Lg Lg' a c : match c with DoFlush _ _ => False | _ => True end -> call_pre (L := L) (F := F) rows_ok arena Lg a c -> call_pre (L := L) (F := F) rows_ok arena Lg' a c.
Proof. by destruct c. Qed.

(** The calls of the HTTP interface: a write, the beginning of a transaction, or a
    call on one. *)
Definition front_call (c : engine_call) : Prop := match c with DoFlush _ _ | DoSync => False | _ => True end.

(** A call on an engine of the service. *)
Lemma engine_call_sim k n s A Ts I ns e a c : http_sim (k + n) s A Ts I -> engines s !! ns = Some e -> A !! ns = Some a -> front_call c ->
  call_pre (L := L) (F := F) rows_ok (ArenaSize e) [] a c -> (call_cost a c <= k)%nat ->
  exists ts Lg' e' ts' err a', Ts !! ns = Some ts /\ run_call c e ts = Ret (e', ts', err) /\ a_step a c err a' /\ sim rows_ok n Lg' e' ts' a'.
Proof.
  intros Hs He Ha Hf Hp Hk. destruct (hs_engine _ _ _ _ _ Hs ns e He) as (Lg & ts & a0 & Hts & Ha0 & Hsim). assert (a0 = a) as -> by congruence.
  replace (k + n)%nat with ((k - call_cost a c) + (call_cost a c + n))%nat in Hsim by lia. apply sim_weaken in Hsim.
  destruct (simulates_call rows_ok n Lg e ts a c Hsim) as [[_ Hst]|(e' & ts' & err & a' & Lg' & Hrun & Hstep & Hsim' & _)].
  { apply (call_pre_log _ [] Lg); [by destruct c|done]. }
  { by destruct c. }
  exists ts, Lg', e', ts', err, a'. done.
Qed.

(** ** What a request stands for *)

Definition begin_of (env : Env) (body : bytes) : option (bytes * Z * Z) :=
  req ← json_BeginTransactionRequest (MaxBytesReader body);
  op ← operation_type (bt_Operation req);
  et ← entry_type (bt_EntryType req);
  id ← env_uuid env;
  if (op =? LogOperationTypeDelete) && (et =? LogEntryTypeChunked) then None else Some (id, op, et).

(** What a request appends to the transaction [i]. *)
Definition append_of (env : Env) (r : Request) (i : nat) : option (list engine_call) :=
  match r with
  | ReqAppendKV _ body =>
      kv ← json_AppendKVRequest (MaxBytesReader body);
      value ← DecodeString kv.2;
      match kv.1 with [] => None | key => Some [DoAppendKV i (env_hlc env 0%nat) key value] end
  | ReqAppendRow _ body =>
      rc ← json_AppendRowRequest (MaxBytesReader body);
      columns ← (if bool_decide (rc.2 = ∅) then None else decode_columns (env_order env) rc.2);
      match rc.1 with [] => None | row => Some [DoAppendColumns i (env_hlc env 0%nat) row columns] end
  | ReqAppendLOB _ key pieces _ =>
      match key with [] => None | _ => Some (imap (fun j piece => DoAppendKV i (env_hlc env j) key piece) pieces) end
  | ReqCommit _ => Some [DoCommit i (env_hlc env 0%nat) (env_now env)]
  | ReqAbort _ => Some []
  | _ => None
  end.

Definition txn_of (r : Request) : option bytes :=
  match r with ReqAppendKV id _ | ReqAppendRow id _ | ReqAppendLOB id _ _ _ | ReqCommit id | ReqAbort id => Some id | _ => None end.

(** The namespace and the calls of a request that is not refused. *)
Definition requested (env : Env) (s : Service) (I : gmap bytes nat) (r : Request) : option (bytes * list engine_call) :=
  match r with
  | ReqBegin _ ns body => '(id, op, et) ← begin_of env body; Some (ns, [DoBegin id (env_hlc env 0%nat) op et])
  | _ =>
      match txn_of r with
      | Some id => st ← transactions s !! id; i ← I !! id; calls ← append_of env r i; Some (ts_namespace st, calls)
      | None => '(ns, c, _) ← write_of env r; Some (ns, [DoWrite (env_hlc env 0%nat) (env_now env) c])
      end
  end.

(** The calls can be made, and the log has room for them. *)
Fixpoint calls_ready (k : nat) (arena : Z) (a : astate) (calls : list engine_call) : Prop :=
  match calls with
  | [] => True
  | c :: calls =>
      call_pre (L := L) (F := F) rows_ok arena [] a c /\ (call_cost a c <= k)%nat /\
      forall a', a_step a c None a' -> calls_ready (k - call_cost a c) arena a' calls
  end.

(** A body that breaks off is answered with an error behind its last piece. *)
Definition whole (r : Request) : bool := match r with ReqAppendLOB _ _ _ eof => eof | _ => true end.

(** What the theorem says of a request that is not refused. *)
Definition performs (n : nat) (env : Env) (r : Request) (s : Service) (A : gmap bytes astate) (ns : bytes) (a : astate) (calls : list engine_call) : Prop :=
  exists s' resp err a' Ts' I', serve env r s = Ret (s', resp) /\ calls_step a calls err a' /\ http_sim n s' (<[ns := a']> A) Ts' I' /\
    status_of resp = (if bool_decide (err = None) && whole r then 200 else 500).

Lemma http_weaken k n s A Ts I : http_sim (k + n) s A Ts I -> http_sim n s A Ts I.
Proof.
  intros [He Ho Ht Hi]. split; try done. intros ns e Hns. destruct (He ns e Hns) as (Lg & ts & a & Hx1 & Hx2 & Hx3). exists Lg, ts, a.
  split; [done|]. split; [done|]. by eapply sim_weaken.
Qed.

Lemma write_performs k n env r s A Ts I ns c ok e a : is_write r = true -> write_of env r = Some (ns, c, ok) -> status_of ok = 200 ->
  http_sim (k + n) s A Ts I -> engines s !! ns = Some e -> A !! ns = Some a ->
  calls_ready k (ArenaSize e) a [DoWrite (env_hlc env 0%nat) (env_now env) c] -> performs n env r s A ns a [DoWrite (env_hlc env 0%nat) (env_now env) c].
Proof.
  intros Hw Hof Hok Hs He Ha (Hpre & Hcost & _).
  destruct (engine_call_sim k n s A Ts I ns e a (DoWrite (env_hlc env 0%nat) (env_now env) c) Hs He Ha Logic.I Hpre Hcost) as (ts & Lg' & e' & ts' & err & a' & Hts & Hrun & Hstep & Hsim).
  pose proof (serve_write env r s Hw) as Hserve. rewrite Hof, He in Hserve. cbn [run_call] in Hrun.
  destruct (run_write (env_hlc env 0%nat) (env_now env) e c) as [[e1 err1]| |]; cbn [mbind outcome_bind] in Hrun; try done. injection Hrun as <- <- <-.
  unfold finish_write in Hserve. cbn [mbind outcome_bind] in Hserve. eexists _, _, err1, a', _, I. split; [exact Hserve|].
  split; [destruct err1; [by apply cs_fail|by eapply cs_ok; [|constructor]]|]. split.
  - apply (http_update k n s A Ts I ns e1 Lg' ts a' _ I Hs Hsim); [done|exact (same_txns _ s A Ts I ns ts Hs Hts)|].
    intros id1 id2 st1 st2 i Hx1 Hx2 Hn1 Hn2. apply (hs_inj _ _ _ _ _ Hs id1 id2 st1 st2); [done|done|congruence].
  - assert (whole r = true) as -> by by destruct r. destruct err1; [by rewrite bool_decide_false|]. by rewrite bool_decide_true.
Qed.

Lemma begin_performs k n env now ns body s A Ts I id op et e a : begin_of env body = Some (id, op, et) ->
  http_sim (k + n) s A Ts I -> engines s !! ns = Some e -> A !! ns = Some a ->
  calls_ready k (ArenaSize e) a [DoBegin id (env_hlc env 0%nat) op et] -> performs n env (ReqBegin now ns body) s A ns a [DoBegin id (env_hlc env 0%nat) op et].
Proof.
  intros Hof Hs He Ha (Hpre & Hcost & _).
  destruct (engine_call_sim k n s A Ts I ns e a (DoBegin id (env_hlc env 0%nat) op et) Hs He Ha Logic.I Hpre Hcost) as (ts & Lg' & e' & ts' & err & a' & Hts & Hrun & Hstep & Hsim).
  unfold performs. cbn [serve]. unfold handleBeginTransaction, getEngine. rewrite He. unfold begin_of in Hof.
  destruct (json_BeginTransactionRequest _) as [req|]; [|done]. cbn in Hof. destruct (operation_type _) as [op'|]; [|done]. cbn in Hof. destruct (entry_type _) as [et'|]; [|done]. cbn in Hof.
  destruct (env_uuid env) as [uuid|]; [|done]. cbn in Hof. destruct (_ && _); [done|]. injection Hof as -> -> ->.
  cbn [run_call] in Hrun. destruct (NewTxn (Some id) (env_hlc env 0%nat) e op et) as [[e1 [t|x]]| |] eqn:Hn; cbn [mbind outcome_bind] in Hrun |- *; try done; injection Hrun as <- <- <-.
  - assert (TxnID t = id) as Hid.
    { unfold NewTxn in Hn. repeat (match type of Hn with context [if ?b then _ else _] => destruct b; [done|] end). destruct (append_record _ _) as [[e2 [p|]]| |]; cbn in Hn; try done. by injection Hn as _ <-. }
    assert (forall i, ts !! i = None -> forall id' st, transactions s !! id' = Some st -> ts_namespace st = ns -> I !! id' <> Some i) as Hnew.
    { intros i Hi id' st Hst Hns HI. destruct (hs_txn _ _ _ _ _ Hs id' st Hst) as (ts0 & i0 & _ & Ht0 & Hi0 & Hti). rewrite Hns, Hts in Ht0. injection Ht0 as <-. congruence. }
    eexists _, _, None, a', _, (<[hex_EncodeToString id := length ts]> I). split; [done|]. split; [by eapply cs_ok; [|constructor]|]. rewrite Hid. split; [|done].
    apply (http_update k n s A Ts I ns e1 Lg' (ts ++ [t]) a' _ _ Hs Hsim); [done|cbn [transactions storeTransaction with_engine]..].
    + intros id' st. destruct (decide (hex_EncodeToString id = id')) as [<-|Hne].
      * rewrite !lookup_insert_eq. intros [= <-]. cbn. split; [|done]. intros _. exists (length ts). split; [done|]. by rewrite list_lookup_middle.
      * rewrite !lookup_insert_ne by done. intros Hst. destruct (same_txns _ s A Ts I ns ts Hs Hts id' st Hst) as [Hsame Hother]. split; [|done].
        intros Hns. destruct (Hsame Hns) as (i & Hi & Hti). exists i. split; [done|]. by apply lookup_app_l_Some.
    + assert (ts !! length ts = None) as Hlen by by apply lookup_ge_None_2.
      intros id1 id2 st1 st2 i. destruct (decide (hex_EncodeToString id = id1)) as [<-|Hne1], (decide (hex_EncodeToString id = id2)) as [<-|Hne2];
        rewrite ?lookup_insert_eq, ?lookup_insert_ne by done; [done|..].
      * intros _ Hst2 _ Hn2 [= <-] HI. by destruct (Hnew _ Hlen id2 st2 Hst2 Hn2).
      * intros Hst1 _ Hn1 _ HI [= <-]. by destruct (Hnew _ Hlen id1 st1 Hst1 Hn1).
      * intros Hst1 Hst2 Hn1 Hn2. apply (hs_inj _ _ _ _ _ Hs id1 id2 st1 st2); [done|done|congruence].
  - eexists _, _, (Some x), a', _, I. split; [done|]. split; [by apply cs_fail|]. split; [|done].
    apply (http_update k n s A Ts I ns e1 Lg' ts a' _ I Hs Hsim); [done|exact (same_txns _ s A Ts I ns ts Hs Hts)|].
    intros id1 id2 st1 st2 i Hx1 Hx2 Hn1 Hn2. apply (hs_inj _ _ _ _ _ Hs id1 id2 st1 st2); [done|done|congruence].
Qed.

(** A call on a transaction by its name. *)
Lemma txn_call k n s A Ts I id st i e a c (f : Engine -> Txn -> outcome (Engine * Txn * option engine_error)) :
  http_sim (k + n) s A Ts I -> transactions s !! id = Some st -> I !! id = Some i -> engines s !! ts_namespace st = Some e -> A !! ts_namespace st = Some a ->
  front_call c -> (forall ts, run_call c e ts = on_txn i (f e) ts) -> call_pre (L := L) (F := F) rows_ok (ArenaSize e) [] a c -> (call_cost a c <= k)%nat ->
  exists s' e' t' err a' Ts', on_transaction id st f s = Ret (s', t', err) /\ f e (ts_txn st) = Ret (e', t', err) /\ a_step a c err a' /\
    http_sim n s' (<[ts_namespace st := a']> A) Ts' I /\ transactions s' = <[id := mkTxnState t' (ts_namespace st) (createdAt st)]> (transactions s) /\
    engines s' = <[ts_namespace st := e']> (engines s).
Proof.
  intros Hs Hst HI He Ha Hfc Hcall Hpre Hcost.
  destruct (engine_call_sim k n s A Ts I _ e a c Hs He Ha Hfc Hpre Hcost) as (ts & Lg' & e' & ts' & err & a' & Hts & Hrun & Hstep & Hsim).
  destruct (hs_txn _ _ _ _ _ Hs id st Hst) as (ts0 & i0 & _ & Ht0 & Hi0 & Hti). rewrite Hts in Ht0. injection Ht0 as <-. rewrite HI in Hi0. injection Hi0 as <-.
  rewrite Hcall in Hrun. unfold on_txn in Hrun. rewrite Hti in Hrun. destruct (f e (ts_txn st)) as [[[e1 t1] err1]| |] eqn:Hf; cbn [mbind outcome_bind] in Hrun; try done. injection Hrun as <- <- <-.
  unfold on_transaction. rewrite He, Hf. cbn [mbind outcome_bind]. eexists _, e1, t1, err1, a', _. split; [done|]. split; [done|]. split; [done|]. split; [|done].
  apply (http_update k n s A Ts I (ts_namespace st) e1 Lg' (<[i := t1]> ts) a' _ I Hs Hsim); [done|cbn [transactions storeTransaction with_engine]..].
  - intros id' st'. destruct (decide (id = id')) as [<-|Hne].
    + rewrite lookup_insert_eq. intros [= <-]. split; [|done]. intros _. exists i. split; [done|]. apply list_lookup_insert_eq. by eapply lookup_lt_Some.
    + rewrite lookup_insert_ne by done. intros Hst'. destruct (same_txns _ s A Ts I _ ts Hs Hts id' st' Hst') as [Hsame Hother]. split; [|done].
      intros Hns. destruct (Hsame Hns) as (j & Hj & Htj). exists j. split; [done|]. rewrite list_lookup_insert_ne; [done|]. intros <-. apply Hne. by eapply (hs_inj _ _ _ _ _ Hs id id' st st').
  - intros id1 id2 st1 st2 j Hx1 Hx2 Hn1 Hn2.
    assert (exists st1' st2', transactions s !! id1 = Some st1' /\ transactions s !! id2 = Some st2' /\ ts_namespace st1' = ts_namespace st2') as (st1' & st2' & Hy1 & Hy2 & Hy).
    { destruct (decide (id = id1)) as [<-|Hne1]; [rewrite lookup_insert_eq in Hx1|rewrite lookup_insert_ne in Hx1 by done];
        (destruct (decide (id = id2)) as [<-|Hne2]; [rewrite lookup_insert_eq in Hx2|rewrite lookup_insert_ne in Hx2 by done]);
        eexists _, _; (split; [eassumption|split; [eassumption|congruence]]). }
    by apply (hs_inj _ _ _ _ _ Hs id1 id2 st1' st2').
Qed.
(** A name is forgotten. *)
Lemma http_delete n s A Ts I id : http_sim n s A Ts I -> http_sim n (deleteTransaction id s) A Ts I.
Proof.
  intros [He Ho Ht Hi]. split; try done; cbn [deleteTransaction transactions engines].
  - intros id' st [_ Hst]%lookup_delete_Some. by apply Ht.
  - intros id1 id2 st1 st2 i [_ Hx1]%lookup_delete_Some [_ Hx2]%lookup_delete_Some. by apply (Hi id1 id2 st1 st2).
Qed.

Lemma one_call a c err a' : a_step a c err a' -> calls_step a [c] err a'.
Proof. intros Hs. destruct err; [by apply cs_fail|by eapply cs_ok; [|constructor]]. Qed.

Lemma AppendKVTxn_arena hlc (e e' : Engine) t key value t' err : AppendKVTxn hlc e t key value = Ret (e', t', err) -> ArenaSize e' = ArenaSize e.
Proof.
  unfold AppendKVTxn, append_record. intros Hr. repeat case_match; simplify_eq; try done; destruct (wl_Append _ _) as [[w x]| |]; cbn in *; repeat case_match; by simplify_eq.
Qed.

(** The pieces of a large object. *)
Lemma pieces_perform pieces n id i key eof : forall hlc k s A Ts I st e a,
  http_sim (k + n) s A Ts I -> transactions s !! id = Some st -> I !! id = Some i -> engines s !! ts_namespace st = Some e -> A !! ts_namespace st = Some a ->
  calls_ready k (ArenaSize e) a (imap (fun j piece => DoAppendKV i (hlc j) key piece) pieces) ->
  exists s' resp err a' Ts', append_pieces hlc id st key pieces eof s = Ret (s', resp) /\
    calls_step a (imap (fun j piece => DoAppendKV i (hlc j) key piece) pieces) err a' /\ http_sim n s' (<[ts_namespace st := a']> A) Ts' I /\
    status_of resp = (if bool_decide (err = None) && eof then 200 else 500).
Proof.
  induction pieces as [|piece pieces IH]; intros hlc k s A Ts I st e a Hs Hst HI He Ha Hready.
  - eexists s, _, None, a, Ts. split; [done|]. split; [constructor|]. rewrite insert_id by done. split; [by eapply http_weaken|]. by destruct eof.
  - cbn [imap] in Hready |- *. destruct Hready as (Hpre & Hcost & Hnext). cbn [call_cost] in Hcost, Hnext.
    replace (k + n)%nat with (1 + (k - 1 + n))%nat in Hs by lia.
    destruct (txn_call 1 (k - 1 + n) s A Ts I id st i e a (DoAppendKV i (hlc 0%nat) key piece) (fun e t => AppendKVTxn (hlc 0%nat) e t key piece) Hs Hst HI He Ha Logic.I ltac:(done) Hpre ltac:(done))
      as (s1 & e1 & t1 & err & a1 & Ts1 & Hon & Hf & Hstep & Hs1 & Htx & Heng).
    cbn [append_pieces]. rewrite Hon. cbn [mbind outcome_bind]. destruct err as [err|].
    + eexists s1, _, (Some err), a1, Ts1. split; [done|]. split; [by apply cs_fail|]. split; [by eapply http_weaken|done].
    + specialize (Hnext a1 Hstep).
      destruct (IH (fun m => hlc (S m)) (k - 1)%nat s1 (<[ts_namespace st := a1]> A) Ts1 I (mkTxnState t1 (ts_namespace st) (createdAt st)) e1 a1) as (s' & resp & err & a' & Ts' & Hrun & Hcs & Hs' & Hstat).
      * done.
      * rewrite Htx. apply lookup_insert_eq.
      * done.
      * rewrite Heng. apply lookup_insert_eq.
      * apply lookup_insert_eq.
      * by rewrite (AppendKVTxn_arena _ _ _ _ _ _ _ _ Hf).
      * exists s', resp, err, a', Ts'. split; [done|]. split; [by eapply cs_ok|]. cbn in Hs'. rewrite insert_insert_eq in Hs'. done.
Qed.
(** The other requests on a transaction: one call, and a name may be forgotten. *)
Lemma txn_performs k n env r s A Ts I id st i e a c (f : Engine -> Txn -> outcome (Engine * Txn * option engine_error)) ok :
  http_sim (k + n) s A Ts I -> transactions s !! id = Some st -> I !! id = Some i -> engines s !! ts_namespace st = Some e -> A !! ts_namespace st = Some a ->
  front_call c -> (forall ts, run_call c e ts = on_txn i (f e) ts) -> whole r = true -> (forall s t, status_of (ok s t).2 = 200 /\ ((ok s t).1 = s \/ (ok s t).1 = deleteTransaction id s)) ->
  serve env r s = ('(s, t, err) ← on_transaction id st f s; Ret (match err with Some _ => (s, RespondError 500) | None => ok s t end)) ->
  calls_ready k (ArenaSize e) a [c] -> performs n env r s A (ts_namespace st) a [c].
Proof.
  intros Hs Hst HI He Ha Hfc Hcall Hw Hok Hserve (Hpre & Hcost & _).
  destruct (txn_call k n s A Ts I id st i e a c f Hs Hst HI He Ha Hfc Hcall Hpre Hcost) as (s' & e' & t' & err & a' & Ts' & Hon & _ & Hstep & Hs' & _).
  rewrite Hon in Hserve. cbn [mbind outcome_bind] in Hserve. destruct (Hok s' t') as [Hstat Hkeep]. destruct (ok s' t') as [s'' resp] eqn:Heq. cbn in Hstat, Hkeep.
  destruct err as [err|]; [exists s', (RespondError 500), (Some err), a', Ts', I|exists s'', resp, None, a', Ts', I]; (split; [by rewrite Hserve, ?Heq|]); rewrite Hw;
    (split; [by apply one_call|]); (split; [|done]); [done|]. destruct Hkeep as [->| ->]; [done|by apply http_delete].
Qed.

(** A request on a transaction. *)
Lemma transaction_performs k n env r s A Ts I id st i calls e a : http_sim (k + n) s A Ts I -> txn_of r = Some id ->
  transactions s !! id = Some st -> I !! id = Some i -> append_of env r i = Some calls -> engines s !! ts_namespace st = Some e -> A !! ts_namespace st = Some a ->
  calls_ready k (ArenaSize e) a calls -> performs n env r s A (ts_namespace st) a calls.
Proof.
  intros Hs Hid Hst HI Hof He Ha Hready.
  destruct r as [| | | | | | | |id' body|id' body|id' key pieces eof|id'|id']; try done; injection Hid as ->; cbn [append_of] in Hof.
  - destruct (json_AppendKVRequest _) as [[key v]|] eqn:Hj; [|done]. cbn [mbind option_bind fst snd] in Hof. destruct (DecodeString v) as [value|] eqn:Hd; [|done]. cbn [mbind option_bind fst snd] in Hof. destruct key as [|b key]; [done|]. injection Hof as <-.
    apply (txn_performs k n env _ s A Ts I id st i e a _ (fun e t => AppendKVTxn (env_hlc env 0%nat) e t (b :: key) value) (fun s _ => (s, SuccessResponse))); try done; [by auto|].
    cbn [serve]. unfold handleAppendKV, getTransaction, finish_append. rewrite Hst, Hj. cbn -[on_transaction DecodeString]. rewrite Hd. cbn -[on_transaction]. destruct (on_transaction _ _ _ _) as [[[s' t'] [err|]]| |]; done.
  - destruct (json_AppendRowRequest _) as [[row cols]|] eqn:Hj; [|done]. cbn [mbind option_bind fst snd] in Hof. destruct (bool_decide (cols = ∅)) eqn:Hc; [done|].
    destruct (decode_columns _ _) as [columns|] eqn:Hd; [|done]. cbn [mbind option_bind fst snd] in Hof. destruct row as [|b row]; [done|]. injection Hof as <-.
    apply (txn_performs k n env _ s A Ts I id st i e a _ (fun e t => AppendColumnTxn (env_hlc env 0%nat) e t (b :: row) columns) (fun s _ => (s, SuccessResponse))); try done; [by auto|].
    cbn [serve]. unfold handleAppendRow, getTransaction, finish_append. rewrite Hst, Hj. cbn -[on_transaction decode_columns bool_decide]. rewrite Hc, Hd. destruct (on_transaction _ _ _ _) as [[[s' t'] [err|]]| |]; done.
  - destruct key as [|b key]; [done|]. injection Hof as <-.
    destruct (pieces_perform pieces n id i (b :: key) eof (env_hlc env) k s A Ts I st e a Hs Hst HI He Ha Hready) as (s' & resp & err & a' & Ts' & Hrun & Hcs & Hs' & Hstat).
    exists s', resp, err, a', Ts', I. split; [|done]. cbn [serve]. unfold handleAppendLOB, getTransaction. by rewrite Hst.
  - injection Hof as <-.
    apply (txn_performs k n env _ s A Ts I id st i e a _ (fun e t => Commit (env_hlc env 0%nat) (env_now env) e t) (fun s t => (deleteTransaction id s, CommitTransactionResponse (ChunkedValueChecksum t)))); try done; [by auto|].
    cbn [serve]. unfold handleCommitTransaction, getTransaction. rewrite Hst. destruct (on_transaction _ _ _ _) as [[[s' t'] [err|]]| |]; done.
  - injection Hof as <-. exists (deleteTransaction id s), SuccessResponse, None, a, Ts, I. cbn [serve]. unfold handleAbortTransaction, getTransaction. rewrite Hst, insert_id by done.
    split; [done|]. split; [constructor|]. split; [|done]. by eapply http_delete, http_weaken.
Qed.

Lemma write_of_ok env r ns c ok : write_of env r = Some (ns, c, ok) -> status_of ok = 200.
Proof.
  destruct r; cbn [write_of]; intros Hw; try done; repeat (case_match; try done; simplify_option_eq); try done; simplify_option_eq; repeat (case_match; try done; simplify_option_eq); done.
Qed.

(** A request that stands for nothing changes nothing. *)
Lemma refused_request env s A Ts I n r : http_sim n s A Ts I -> requested env s I r = None -> exists code, code ∈ [400; 404; 500] /\ serve env r s = Ret (s, RespondError code).
Proof.
  assert (forall code (x : outcome (Service * response)), code ∈ [400; 404; 500] -> x = Ret (s, RespondError code) -> exists code, code ∈ [400; 404; 500] /\ x = Ret (s, RespondError code)) as Hex by eauto.
  assert (400 ∈ [400; 404; 500] /\ 404 ∈ [400; 404; 500] /\ 500 ∈ [400; 404; 500]) as (Hin400 & Hin404 & Hin500) by set_solver.
  intros Hs Hreq. destruct (is_write r) eqn:Hw.
  { pose proof (serve_write env r s Hw) as Hserve. assert (write_of env r = None) as Hnone.
    { destruct r; try done; cbn [requested txn_of] in Hreq; destruct (write_of _ _) as [[[ns c] ok]|]; done. }
    rewrite Hnone in Hserve. destruct Hserve as (code & Hcode & Hserve). apply (Hex code); [by destruct Hcode as [->| ->]|done]. }
  destruct r as [| | | | | | |now ns body|id body|id body|id key pieces eof|id|id]; try done; cbn [requested txn_of serve append_of] in *.
  - unfold handleBeginTransaction, getEngine. destruct (engines s !! ns) as [e|] eqn:He; [|by apply (Hex 404)]. unfold begin_of in Hreq.
    destruct (json_BeginTransactionRequest _) as [req|]; [|by apply (Hex 400)]. cbn [mbind option_bind fst snd] in Hreq. destruct (operation_type _) as [op|]; [|by apply (Hex 400)]. cbn [mbind option_bind fst snd] in Hreq.
    destruct (entry_type _) as [et|]; [|by apply (Hex 400)]. cbn [mbind option_bind fst snd] in Hreq.
    assert (exists err, NewTxn (env_uuid env) (env_hlc env 0%nat) e op et = Ret (e, Err err)) as [err ->].
    { unfold NewTxn. destruct (readOnly e); [by eexists|]. destruct (op =? LogOperationTypeNoOperation); [by eexists|].
      destruct ((op =? LogOperationTypeDelete) && (et =? LogEntryTypeChunked)); [by eexists|]. destruct (env_uuid env); [done|by eexists]. }
    cbn. unfold with_engine. rewrite insert_id by done. apply (Hex 500); [done|]. by destruct s.
  - unfold handleAppendKV, getTransaction. destruct (transactions s !! id) as [st|] eqn:Hst; [|by apply (Hex 404)].
    destruct (hs_txn _ _ _ _ _ Hs id st Hst) as (_ & i & _ & _ & Hi & _). rewrite Hi in Hreq. cbn [mbind option_bind fst snd] in Hreq. destruct (json_AppendKVRequest _) as [[key v]|]; [|by apply (Hex 400)]. cbn [mbind option_bind fst snd] in Hreq.
    destruct key; [by apply (Hex 400)|]. destruct (DecodeString v); [done|by apply (Hex 400)].
  - unfold handleAppendRow, getTransaction. destruct (transactions s !! id) as [st|] eqn:Hst; [|by apply (Hex 404)].
    destruct (hs_txn _ _ _ _ _ Hs id st Hst) as (_ & i & _ & _ & Hi & _). rewrite Hi in Hreq. cbn [mbind option_bind fst snd] in Hreq. destruct (json_AppendRowRequest _) as [[row cols]|]; [|by apply (Hex 400)]. cbn [mbind option_bind fst snd] in Hreq.
    destruct row; [by apply (Hex 400)|]. destruct (bool_decide _); [by apply (Hex 400)|]. destruct (decode_columns _ _); [done|by apply (Hex 400)].
  - unfold handleAppendLOB, getTransaction. destruct (transactions s !! id) as [st|] eqn:Hst; [|by apply (Hex 404)].
    destruct (hs_txn _ _ _ _ _ Hs id st Hst) as (_ & i & _ & _ & Hi & _). rewrite Hi in Hreq. cbn [mbind option_bind fst snd] in Hreq. destruct key; [by apply (Hex 400)|done].
  - unfold handleCommitTransaction, getTransaction. destruct (transactions s !! id) as [st|] eqn:Hst; [|by apply (Hex 404)].
    destruct (hs_txn _ _ _ _ _ Hs id st Hst) as (_ & i & _ & _ & Hi & _). by rewrite Hi in Hreq.
  - unfold handleAbortTransaction, getTransaction. destruct (transactions s !! id) as [st|] eqn:Hst; [|by apply (Hex 404)].
    destruct (hs_txn _ _ _ _ _ Hs id st Hst) as (_ & i & _ & _ & Hi & _). by rewrite Hi in Hreq.
Qed.
(** ** Requests *)

Lemma requested_unknown env s A Ts I n r ns calls : http_sim n s A Ts I -> requested env s I r = Some (ns, calls) -> engines s !! ns = None -> serve env r s = Ret (s, RespondError 404).
Proof.
  intros Hs Hreq Hns. destruct (is_write r) eqn:Hw.
  { pose proof (serve_write env r s Hw) as Hserve. assert (exists c ok, write_of env r = Some (ns, c, ok)) as (c & ok & Hof).
    { destruct r; try done; cbn [requested txn_of] in Hreq; destruct (write_of _ _) as [[[ns' c] ok]|]; try done; injection Hreq as -> _; by exists c, ok. }
    by rewrite Hof, Hns in Hserve. }
  destruct r as [| | | | | | |now ns' body|id body|id body|id key pieces eof|id|id]; try done; cbn [requested txn_of serve] in *.
  { destruct (begin_of env body) as [[[id op] et]|]; [|done]. injection Hreq as -> _. unfold handleBeginTransaction, getEngine. by rewrite Hns. }
  all: destruct (transactions s !! id) as [st|] eqn:Hst; [|done]; destruct (hs_txn _ _ _ _ _ Hs id st Hst) as (_ & i & [e He] & _ & Hi & _);
    cbn [mbind option_bind] in Hreq; rewrite Hi in Hreq; cbn [mbind option_bind] in Hreq; destruct (append_of _ _ _); [|done]; injection Hreq as <- _; congruence.
Qed.

Lemma requested_performs k n env r s A Ts I ns calls e a : http_sim (k + n) s A Ts I -> requested env s I r = Some (ns, calls) -> engines s !! ns = Some e -> A !! ns = Some a ->
  calls_ready k (ArenaSize e) a calls -> performs n env r s A ns a calls.
Proof.
  intros Hs Hreq He Ha Hready. destruct (is_write r) eqn:Hw.
  { assert (exists c ok, write_of env r = Some (ns, c, ok) /\ calls = [DoWrite (env_hlc env 0%nat) (env_now env) c]) as (c & ok & Hof & ->).
    { destruct r; try done; cbn [requested txn_of] in Hreq; destruct (write_of _ _) as [[[ns' c] ok]|]; try done; injection Hreq as -> <-; by exists c, ok. }
    eapply write_performs; try done. by eapply write_of_ok. }
  destruct (txn_of r) as [id|] eqn:Hid.
  - assert (exists st i, transactions s !! id = Some st /\ I !! id = Some i /\ append_of env r i = Some calls /\ ns = ts_namespace st) as (st & i & Hst & HI & Hof & ->).
    { destruct r; try done; injection Hid as ->; cbn [requested txn_of] in Hreq; destruct (transactions s !! id) as [st|]; try done; cbn [mbind option_bind] in Hreq;
        destruct (I !! id) as [i|]; try done; cbn [mbind option_bind] in Hreq; destruct (append_of _ _ _) eqn:Hof; try done; injection Hreq as <- <-; by exists st, i. }
    by eapply transaction_performs.
  - destruct r as [| | | | | | |now ns' body| | | | |]; try done. cbn [requested] in Hreq. destruct (begin_of env body) as [[[id op] et]|] eqn:Hof; [|done]. injection Hreq as <- <-.
    by eapply begin_performs.
Qed.

(** The map behind a value that was put. *)
Lemma written_map a hlc now key value a' : calls_step a [DoWrite hlc now (CallPut [key] [value])] None a' -> a_map a' !! KeyKV key = Some value.
Proof.
  intros Hc. inversion Hc as [|? ? a1 ? ? ? Hstep Hrest|]; subst. inversion Hrest; subst. inversion Hstep; subst. cbn [a_map call_ops zip_with foldl a_queued lookup list_lookup]. rewrite KeyKV_idem. apply lookup_insert_eq.
Qed.

Lemma sim_GetKV n Lg e ts a key : sim rows_ok n Lg e ts a ->
  answers (ds_GetKV (dataStore e) (KeyKV key)) (GetKV e key) (match a_map a !! KeyKV key with Some v => Ok v | None => Err (EStore ErrKeyNotFound) end).
Proof.
  intros (opss & md & (base & tabs & act & Hc & Hw) & Hm & _ & _ & Hsd).
  assert (a_map a = view base tabs act) as -> by (rewrite Hm; unfold view; by rewrite Hw). by eapply GetKV_spec.
Qed.


(** C22. A value that was put is the value that a later request gets, in base64, for
    as long as nothing else has been written; the answer is an error only when
    the read of the store fails. *)
Theorem http_put_then_get k n env s A Ts I ns key body e encoded value : http_sim (k + n) s A Ts I -> (2 <= k)%nat -> engines s !! ns = Some e -> key <> [] ->
  json_PutKVRequest (MaxBytesReader body) = Some encoded -> DecodeString encoded = Some value ->
  call_ok (L := L) (F := F) rows_ok (ArenaSize e) (CallPut [key] [value]) -> 0 <= env_hlc env 0%nat < 2 ^ 64 -> (forall i, 0 <= env_now env i < 2 ^ 63) ->
  exists s' resp, handlePutKV env ns key body s = Ret (s', resp) /\
    (resp = RespondError 500 \/
     resp = SuccessResponse /\ exists e', engines s' !! ns = Some e' /\
       (handleGetKV ns key s' = Ret (s', GetKVResponse (Some (EncodeToString value))) \/
        (exists x, ds_GetKV (dataStore e') (KeyKV key) = Ret (Err (ErrLib x))) /\ handleGetKV ns key s' = Ret (s', RespondError 500))).
Proof.
  intros Hs Hk He Hkey Hj Hd Hok Hh Hnow. destruct (hs_engine _ _ _ _ _ Hs ns e He) as (_ & _ & a & _ & Ha & _).
  assert (write_of env (ReqPutKV ns key body) = Some (ns, CallPut [key] [value], SuccessResponse)) as Hof.
  { cbn [write_of]. rewrite Hj. cbn [mbind option_bind]. rewrite Hd. by destruct key. }
  destruct (write_performs k n env (ReqPutKV ns key body) s A Ts I ns _ SuccessResponse e a eq_refl Hof eq_refl Hs He Ha)
    as (s' & resp & err & a' & Ts' & I' & Hserve & Hcs & Hs' & Hstat); [by split_and!|].
  pose proof (serve_write env (ReqPutKV ns key body) s eq_refl) as Hput. rewrite Hof, He, Hserve in Hput. unfold finish_write in Hput.
  destruct (run_write _ _ _ _) as [[e' err']| |]; cbn [mbind outcome_bind] in Hput; try done. injection Hput as -> ->. eexists _, _. split; [exact Hserve|].
  destruct err' as [x|]; [by left|]. right. split; [done|]. exists e'. assert (engines (with_engine ns e' s) !! ns = Some e') as He' by apply lookup_insert_eq. split; [done|].
  assert (err = None) as -> by by (cbn in Hstat; case_bool_decide). apply written_map in Hcs.
  destruct (hs_engine _ _ _ _ _ Hs' ns e' He') as (Lg & ts & a2 & _ & Ha2 & Hsim). rewrite lookup_insert_eq in Ha2. injection Ha2 as <-.
  pose proof (sim_GetKV n Lg e' ts a' key Hsim) as Hget. rewrite Hcs in Hget. unfold handleGetKV, getEngine. rewrite He'. destruct key as [|b key]; [done|].
  destruct Hget as [->|(x & Hx & ->)]; [by left|right]. split; [by exists x|done].
Qed.
End spec.

(** ** A service *)

Import Stdlib.Strings.String.StringSyntax.

Section example.
#[local] Existing Instance demo_codec.
#[local] Existing Instance demo_codec_laws.
Notation SampleEngine := (Engine map_list (list bytes) WalWorld (BoltWorld kvmap)).

(** Requests whose body is the value. *)
Definition plain_json : JsonCodec := {|
  json_PutKVRequest b := Some b.1; json_BatchKVRequest _ := None; json_ColumnsRequest _ := None; json_BatchRowsRequest _ := None;
  json_BeginTransactionRequest _ := Some (mkBegin operationPut (str "kv")); json_AppendKVRequest b := Some ([Byte.x61], b.1); json_AppendRowRequest _ := None;
  json_BackupSegmentsRequest _ := None; json_BtreeBackupRequest _ := None |}.
#[local] Existing Instance plain_json.

Definition sample_env : Env := mkEnv (fun _ => 1) (fun _ => 7) (Some [Byte.x09]) (fun l => l).
Definition sample_service (e : SampleEngine) : Service _ _ _ _ := NewService {[ [Byte.x6e] := e ]}.

Lemma sample_http_sim : exists e : SampleEngine, ArenaSize e = 1024 * 1024 /\
  http_sim any_rows 1000 (sample_service e) {[ [Byte.x6e] := mkAState ∅ [] ]} {[ [Byte.x6e] := [] ]} ∅.
Proof.
  destruct sample_sim as (e & He & Ha). exists e. split; [done|]. split; cbn [sample_service NewService engines transactions].
  - intros ns e' [<- <-]%lookup_singleton_Some. exists [], [], (mkAState ∅ []). by rewrite !lookup_singleton_eq.
  - intros ns. by rewrite !lookup_singleton_None.
  - intros id st Hst. by rewrite lookup_empty in Hst.
  - intros id1 id2 st1 st2 i Hst. by rewrite lookup_empty in Hst.
Qed.


Lemma http_put_then_get_witness : exists e : SampleEngine, exists s' resp,
  handlePutKV sample_env [Byte.x6e] [Byte.x61] (str "AQ==") (sample_service e) = Ret (s', resp) /\
    (resp = RespondError 500 \/
     resp = SuccessResponse /\ exists e', engines s' !! [Byte.x6e] = Some e' /\
       (handleGetKV [Byte.x6e] [Byte.x61] s' = Ret (s', GetKVResponse (Some (str "AQ=="))) \/
        (exists x, ds_GetKV (dataStore e') (KeyKV [Byte.x61]) = Ret (Err (ErrLib x))) /\ handleGetKV [Byte.x6e] [Byte.x61] s' = Ret (s', RespondError 500))).
Proof.
  destruct sample_http_sim as (e & Ha & Hs). exists e.
  apply (http_put_then_get any_rows 100 900 sample_env (sample_service e) _ _ _ [Byte.x6e] [Byte.x61] (str "AQ==") e (str "AQ==") [Byte.x01] Hs);
    [lia|apply lookup_singleton_eq|done|by vm_compute|by vm_compute|rewrite Ha|by vm_compute|intros i; by vm_compute].
  split; [|done]. repeat constructor; by vm_compute.
Defined.
End example.
