(* ===== verification/LogNumbers.v ===== *)
(** The numbers of the records.

    Every record of the log carries a number (LSN) that the engine counts up; a
    replica and the local relayers accept only the number that follows the last
    one.  Here: what a sequence of calls does to the counter and to the numbers
    in the log, whether or not their arguments are in order. *)

From stdpp Require Import prelude list numbers gmap sorting.
From Stdlib Require Import ZArith Lia.
From S2P Require Import Prelude Bytes Crc32 Segment KeyCodec KVKeys KVStore KVBolt KVSpec KVReads KVQueue KVQueueFacts Overlay BTree.
From S2P Require Import LogCodec WalIO WalIOFacts TxnLog MemTable MemTableFacts Samples FlushFacts FlushSpec Notify Engine Txn Recovery Replica LogMeaning EngineFacts EngineWrites TxnFacts EngineReads EngineFlush EngineSpec.
From S2P Require Import Replicator ReplicatorFacts Relayer RelayerLoop.

Section numbers.
Context {L F W R D : Type} `{SkipListLaws L} `{BloomLaws F} `{WalLaws W R} `{BTreeLaws D} `{FlatBuffersLaws}.
Notation Engine := (Engine L F W D).

(** ** What leaves the log alone *)

Definition quiet (e e' : Engine) : Prop := walIO e' = walIO e /\ writeSeenCounter e' = writeSeenCounter e.

Lemma quiet_refl e : quiet e e.
Proof. done. Qed.
Lemma quiet_trans e1 e2 e3 : quiet e1 e2 -> quiet e2 e3 -> quiet e1 e3.
Proof. intros [Ha Hb] [Hc Hd]. split; congruence. Qed.

Lemma memTableWrite_quiet now e key v e' err : memTableWrite now e key v = Ret (e', err) -> quiet e e'.
Proof.
  unfold memTableWrite. intros Hw. inv_ret. destruct x as [t [[]|]]; [|by injection Hw as <- <-]. inv_ret. destruct x as [t' [[]|]]; by injection Hw as <- <-.
Qed.

Lemma mem_writes_quiet after puts : (forall e, quiet e (after e)) -> forall now e e' err, mem_writes after now e puts = Ret (e', err) -> quiet e e'.
Proof.
  intros Ha. induction puts as [|[key v] puts IH]; intros now e e' err Hw; cbn [mem_writes] in Hw; [by injection Hw as <- <-|].
  inv_ret. destruct x as [e1 [x|]]; apply memTableWrite_quiet in Hm; [by injection Hw as <- <-|]. apply IH in Hw. eapply quiet_trans; [exact Hm|]. by eapply quiet_trans.
Qed.

Lemma writeOffset_quiet o e e' : writeOffset o e = Ret e' -> quiet e e'.
Proof. unfold writeOffset. destruct o; intros Hw; [|by injection Hw as <-]. inv_ret. by inv_ret. Qed.

Lemma finish_quiet after now puts p e e' err : (forall e, quiet e (after e)) ->
  ('(e, err) ← mem_writes after now e puts; match err with Some _ => Ret (e, err) | None => e ← writeOffset (Some p) e; Ret (e, None) end) = Ret (e', err) -> quiet e e'.
Proof.
  intros Ha Hw. inv_ret. destruct x as [e1 [x|]]; apply (mem_writes_quiet _ _ Ha) in Hm; [by injection Hw as <- <-|]. inv_ret. apply writeOffset_quiet in Hm0. by eapply quiet_trans.
Qed.

Lemma handleFlush_quiet fuel ctx order e e' : handleFlush fuel ctx order e = Ret e' -> quiet e e'.
Proof.
  unfold handleFlush. intros Hw. destruct (flushPaused e); [by injection Hw as <-|]. destruct (sealedMemTables e); [by injection Hw as <-|].
  destruct (IsEmpty _); [by injection Hw as <-|]. inv_ret. destruct x as [[mt d] [n|]]; [|done]. injection Hw as <-. by destruct (btreeFlushIntervalEnabled _).
Qed.

Lemma fSyncStore_quiet e e' : fSyncStore e = Ret e' -> quiet e e'.
Proof.
  unfold fSyncStore. intros Hw. destruct (flushPaused e); [by injection Hw as <-|]. destruct (list.last _); [|by injection Hw as <-]. inv_ret.
  destruct x as [d [x|]]; [done|]. destruct (ds_FSync d); [done|]. by injection Hw as <-.
Qed.

(** ** What a call puts on the log *)

(** At most one record, with the next number; the counter moves whether or not
    the log takes the record. *)
Definition logs (e e' : Engine) : Prop :=
  quiet e e' \/
  exists r hint w res, LSN r = nextLSN e /\ record_fits r /\ wl_Append (walIO e) (FBEncode r hint) = Ret (w, res) /\ quiet (with_wal w (with_counter (nextLSN e) e)) e'.

(** The common course of the operations. *)
Lemma appended_logs e r hint e1 res e' : LSN r = nextLSN e -> record_fits r ->
  append_record (with_counter (nextLSN e) e) (FBEncode r hint) = Ret (e1, res) -> quiet e1 e' -> logs e e'.
Proof.
  intros Hl Hf Ha Hq. unfold append_record in Ha. apply bind_Ret_inv in Ha as ([w res'] & Hap & Ha). injection Ha as <- <-. right. by exists r, hint, w, res'.
Qed.

Ltac record_fits_now e := pose proof (nextLSN_range e); unfold record_fits; cbn [LSN HLC CRC32Checksum OperationType TxnState EntryType txnOperation txnEntryType]; repeat split; first [tauto|lia|by vm_compute].

Lemma persistKeyValue_logs hlc now e keys values op e' err : 0 <= hlc < 2 ^ 64 -> 0 <= op < 256 ->
  persistKeyValue hlc now e keys values op = Ret (e', err) -> logs e e'.
Proof.
  intros Hh Ho Hw. unfold persistKeyValue in Hw. destruct (readOnly e); [injection Hw as <- <-; by left|]. apply bind_Ret_inv in Hw as (kvs & _ & Hw).
  apply bind_Ret_inv in Hw as ([e1 res] & Ha & Hw). eapply appended_logs; [| |exact Ha|]; [done|record_fits_now e|].
  destruct res; [|by injection Hw as <- <-]. apply bind_Ret_inv in Hw as (puts & _ & Hw). eapply finish_quiet; [|exact Hw]. intros; apply quiet_refl.
Qed.

Lemma persistRowColumnAction_logs hlc now e op rows cols e' err : 0 <= hlc < 2 ^ 64 -> 0 <= op < 256 ->
  persistRowColumnAction hlc now e op rows cols = Ret (e', err) -> logs e e'.
Proof.
  intros Hh Ho Hw. unfold persistRowColumnAction in Hw. destruct (readOnly e); [injection Hw as <- <-; by left|]. apply bind_Ret_inv in Hw as (es & _ & Hw).
  apply bind_Ret_inv in Hw as ([e1 res] & Ha & Hw). eapply appended_logs; [| |exact Ha|]; [done|record_fits_now e|].
  destruct res; [|by injection Hw as <- <-]. eapply finish_quiet; [|exact Hw]. intros; apply quiet_refl.
Qed.

Lemma run_write_logs hlc now e c e' err : 0 <= hlc < 2 ^ 64 -> run_write hlc now e c = Ret (e', err) -> logs e e'.
Proof.
  intros Hh. assert (forall (f : Engine -> outcome (Engine * option engine_error)), (f e = Ret (e', err) -> logs e e') ->
    unless_closing e f ErrInCloseProcess = Ret (e', err) -> logs e e') as Hu.
  { intros f Hf. unfold unless_closing. destruct (shutdown e); [intros [= <- <-]; by left|done]. }
  destruct c; cbn [run_write]; apply Hu; first [apply persistKeyValue_logs; [done|by vm_compute] | apply persistRowColumnAction_logs; [done|by vm_compute]].
Qed.

(** The fields of a transaction have the widths of their types. *)
Definition txn_small (t : Txn) : Prop := 0 <= txnOperation t < 256 /\ 0 <= txnEntryType t < 256 /\ 0 <= checksum t < 2 ^ 32.

(** The arguments of a call have the widths of their types. *)
Definition call_typed (c : engine_call) : Prop :=
  match c with
  | DoWrite hlc _ _ | DoAppendKV _ hlc _ _ | DoAppendColumns _ hlc _ _ | DoCommit _ hlc _ => 0 <= hlc < 2 ^ 64
  | DoBegin _ hlc op et => 0 <= hlc < 2 ^ 64 /\ 0 <= op < 256 /\ 0 <= et < 256
  | DoFlush _ _ | DoSync => True
  end.

Lemma NewTxn_logs uuid hlc e op et e' r : 0 <= hlc < 2 ^ 64 -> 0 <= op < 256 -> 0 <= et < 256 ->
  NewTxn uuid hlc e op et = Ret (e', r) -> logs e e' /\ match r with Ok t => txn_small t | Err _ => True end.
Proof.
  intros Hh Ho He Hw. unfold NewTxn in Hw. repeat (match type of Hw with context [if ?b then _ else _] => destruct b; [injection Hw as <- <-; split; [by left|done]|] end).
  destruct uuid as [id|]; [|injection Hw as <- <-; split; [by left|done]]. apply bind_Ret_inv in Hw as ([e1 res] & Ha & Hw). split.
  - eapply appended_logs; [| |exact Ha|]; [done|record_fits_now e|]. by destruct res; injection Hw as <- <-.
  - destruct res; injection Hw as <- <-; [|done]. unfold txn_small; cbn; lia.
Qed.

Lemma checksum_range p : 0 <= crc32.ChecksumIEEE p < 2 ^ 32.
Proof. by apply sum_range. Qed.

Lemma AppendKVTxn_logs hlc e t key value e' t' err : 0 <= hlc < 2 ^ 64 -> txn_small t -> AppendKVTxn hlc e t key value = Ret (e', t', err) -> logs e e' /\ txn_small t'.
Proof.
  intros Hh (Ho & He & Hs) Hw. unfold AppendKVTxn in Hw. destruct (t_err t); [injection Hw as <- <- <-; split; [by left|done]|].
  destruct (_ =? LogEntryTypeRow); [injection Hw as <- <- <-; split; [by left|done]|]. destruct (_ && negb (bool_decide _)); [injection Hw as <- <- <-; split; [by left|done]|].
  set (kv := SerializeKVEntry _ value) in *. pose proof (checksum_range kv). pose proof (sum_range _ kv Hs).
  apply bind_Ret_inv in Hw as ([e1 res] & Ha & Hw). split.
  - eapply appended_logs; [| |unfold txn_record in Ha; exact Ha|]; [done|record_fits_now e|]. by destruct res; injection Hw as <- <- <-.
  - by destruct res; injection Hw as <- <- <-.
Qed.

Lemma AppendColumnTxn_logs hlc e t row cols e' t' err : 0 <= hlc < 2 ^ 64 -> txn_small t -> AppendColumnTxn hlc e t row cols = Ret (e', t', err) -> logs e e' /\ txn_small t'.
Proof.
  intros Hh (Ho & He & Hs) Hw. unfold AppendColumnTxn in Hw. destruct (t_err t); [injection Hw as <- <- <-; split; [by left|done]|].
  destruct (negb _); [injection Hw as <- <- <-; split; [by left|done]|]. destruct (_ =? 0); [injection Hw as <- <- <-; split; [by left|done]|].
  set (rce := SerializeRowUpdateEntry _ cols) in *. pose proof (checksum_range rce).
  apply bind_Ret_inv in Hw as ([e1 res] & Ha & Hw). split.
  - eapply appended_logs; [| |unfold txn_record in Ha; exact Ha|]; [done|record_fits_now e|]. by destruct res; injection Hw as <- <- <-.
  - destruct res; injection Hw as <- <- <-; [|done]. split; [done|]. split; [done|]. by apply sum_range.
Qed.

Lemma memWrite_quiet now e t p e' err :
  (if (txnEntryType t =? LogEntryTypeKV) || (txnEntryType t =? LogEntryTypeRow) then memWriteFull now e t
   else if txnEntryType t =? LogEntryTypeChunked then memWriteChunk (now 0%nat) e t (Encode p) else Ret (e, None)) = Ret (e', err) -> quiet e e'.
Proof.
  intros Hw. destruct (_ || _); [eapply finish_quiet; [|exact Hw]; intros; done|]. destruct (_ =? LogEntryTypeChunked); [|by injection Hw as <- <-].
  unfold memWriteChunk in Hw. apply bind_Ret_inv in Hw as ([e1 [x|]] & Hm & Hw); apply memTableWrite_quiet in Hm; [by injection Hw as <- <-|].
  apply bind_Ret_inv in Hw as (e2 & Ho & Hw). injection Hw as <- <-. apply writeOffset_quiet in Ho. by eapply quiet_trans.
Qed.

Lemma Commit_logs hlc now e t e' t' err : 0 <= hlc < 2 ^ 64 -> txn_small t -> Commit hlc now e t = Ret (e', t', err) -> logs e e' /\ txn_small t'.
Proof.
  intros Hh (Ho & He & Hs) Hw. unfold Commit in Hw. destruct (t_err t); [injection Hw as <- <- <-; split; [by left|done]|].
  apply bind_Ret_inv in Hw as ([e1 res] & Ha & Hw). unfold txn_record in Ha. destruct res as [p|]; cycle 1.
  { injection Hw as <- <- <-. split; [|done]. eapply appended_logs; [| |exact Ha|]; [done|record_fits_now e|done]. }
  apply bind_Ret_inv in Hw as ([e2 mErr] & Hm & Hw). apply (memWrite_quiet now e1 (mkTxn None p _ _ _ _ _ _ _ _)) in Hm. split.
  - eapply appended_logs; [| |exact Ha|]; [done|record_fits_now e|]. by destruct mErr; injection Hw as <- <- <-.
  - by destruct mErr; injection Hw as <- <- <-.
Qed.

Lemma on_txn_logs i f e ts e' ts' err : (forall t e' t' err, txn_small t -> f t = Ret (e', t', err) -> logs e e' /\ txn_small t') ->
  Forall txn_small ts -> on_txn i f ts = Ret (e', ts', err) -> logs e e' /\ Forall txn_small ts'.
Proof.
  intros Hf Ht Hw. unfold on_txn in Hw. destruct (ts !! i) as [t|] eqn:Hi; [|done]. apply bind_Ret_inv in Hw as ([[e1 t1] err1] & Hr & Hw). injection Hw as <- <- <-.
  eapply Hf in Hr as [Hl Hs]; [|by eapply Forall_lookup_1]. split; [done|]. by apply Forall_insert.
Qed.

(** Whatever its arguments, a call that returns puts at most one record on the log. *)
Lemma call_logs c e ts e' ts' err : call_typed c -> Forall txn_small ts -> run_call c e ts = Ret (e', ts', err) -> logs e e' /\ Forall txn_small ts'.
Proof.
  intros Hc Ht Hw. destruct c; cbn [run_call call_typed] in *.
  - apply bind_Ret_inv in Hw as ([e1 x] & Hr & Hw). injection Hw as <- <- <-. split; [|done]. by eapply run_write_logs.
  - destruct Hc as (Hh & Ho & He). apply bind_Ret_inv in Hw as ([e1 r] & Hr & Hw). apply (NewTxn_logs _ _ _ _ _ _ _ Hh Ho He) in Hr as [Hl Hs].
    destruct r; injection Hw as <- <- <-; split; try done. apply Forall_app. split; [done|]. by constructor.
  - eapply on_txn_logs; [|done..]. intros ???? Hs Hr. exact (AppendKVTxn_logs _ _ _ _ _ _ _ _ Hc Hs Hr).
  - eapply on_txn_logs; [|done..]. intros ???? Hs Hr. exact (AppendColumnTxn_logs _ _ _ _ _ _ _ _ Hc Hs Hr).
  - eapply on_txn_logs; [|done..]. intros ???? Hs Hr. exact (Commit_logs _ _ _ _ _ _ _ Hc Hs Hr).
  - apply bind_Ret_inv in Hw as (e1 & Hr & Hw). injection Hw as <- <- <-. split; [|done]. left. by eapply handleFlush_quiet.
  - apply bind_Ret_inv in Hw as (e1 & Hr & Hw). injection Hw as <- <- <-. split; [|done]. left. by eapply fSyncStore_quiet.
Qed.

(** ** The numbers on the log *)

Definition has_lsn (x : bytes * RecordPosition) (lsn : Z) : Prop := exists r, GetRootAsLogRecord x.1 = Ret r /\ fb_lsn r = lsn.

(** The numbers grow, and do not pass the counter; they are 1, 2, ... while the
    counter is the number of the records. *)
Definition numbers_ok (Lg : wal_log) (counter : Z) : Prop :=
  exists lsns, Forall2 has_lsn Lg lsns /\ StronglySorted Z.lt lsns /\ Forall (fun lsn => 0 < lsn <= counter) lsns /\
    blen Lg <= counter /\ (blen Lg = counter -> numbered 0 Lg).

(** [n] more records fit the log and the counter. *)
Definition numbers_inv (n : nat) (Lg : wal_log) (e : Engine) : Prop :=
  wl_repr n (walIO e) Lg /\ numbers_ok Lg (writeSeenCounter e) /\ writeSeenCounter e + Z.of_nat n < 2 ^ 64.

Lemma numbered_to_small lsn X : 0 <= lsn -> lsn + blen X < 2 ^ 64 -> numbered_to lsn X = lsn + blen X.
Proof.
  revert lsn. induction X as [|x X IH]; intros lsn Hl Hs; unfold numbered_to, blen in *; cbn [foldl length] in *; [lia|].
  rewrite u64_small by lia. rewrite IH by lia. lia.
Qed.

Lemma blen_snoc {A} (X : list A) x : blen (X ++ [x]) = blen X + 1.
Proof. unfold blen. rewrite length_app. cbn [length]. lia. Qed.

(** The counter moves without a record. *)
Lemma numbers_gap Lg c : numbers_ok Lg c -> numbers_ok Lg (c + 1).
Proof.
  intros (lsns & Hl & Hs & Hr & Hc & Hn). exists lsns. split_and!; try done; [|lia..]. eapply Forall_impl; [exact Hr|]. cbn. lia.
Qed.

(** The counter moves with a record. *)
Lemma numbers_snoc Lg c d p : numbers_ok Lg c -> 0 <= c < 2 ^ 64 - 1 -> has_lsn (d, p) (c + 1) -> numbers_ok (Lg ++ [(d, p)]) (c + 1).
Proof.
  intros (lsns & Hl & Hs & Hr & Hc & Hn) Hlt Hd. exists (lsns ++ [c + 1]). split_and!.
  - apply Forall2_app; [done|]. by constructor.
  - apply StronglySorted_app_2; [|done|by repeat constructor]. intros x y Hx Hy. apply list_elem_of_singleton in Hy as ->. rewrite Forall_forall in Hr. apply Hr in Hx. lia.
  - apply Forall_app. split; [eapply Forall_impl; [exact Hr|]; cbn; lia|]. constructor; [lia|done].
  - rewrite blen_snoc. lia.
  - rewrite blen_snoc. intros Heq. assert (blen Lg = c) as Hb by lia. apply numbered_app. split; [by apply Hn|]. destruct Hd as (r & Hrt & Hlsn).
    rewrite numbered_to_small, Hb by lia. split; [|done]. exists r. split; [done|]. rewrite Hlsn, u64_small; lia.
Qed.

Lemma numbers_weaken n Lg e : numbers_inv (S n) Lg e -> numbers_inv n Lg e.
Proof. intros (Hw & Hn & Hs). split_and!; [by apply wl_weaken|done|lia]. Qed.

Lemma quiet_inv n Lg e e' : quiet e e' -> numbers_inv n Lg e -> numbers_inv n Lg e'.
Proof. intros [Hw Hc]. unfold numbers_inv. by rewrite Hw, Hc. Qed.

Lemma counter_nonneg n Lg e : numbers_inv n Lg e -> 0 <= writeSeenCounter e.
Proof. intros (_ & (lsns & _ & _ & _ & Hc & _) & _). unfold blen in Hc. lia. Qed.

(** A call leaves the log, or puts on it a record numbered one past the counter;
    a gap stays. *)
Lemma logs_inv n Lg e e' : numbers_inv (S n) Lg e -> logs e e' ->
  (numbers_inv n Lg e' /\ writeSeenCounter e <= writeSeenCounter e') \/
  exists d p, numbers_inv n (Lg ++ [(d, p)]) e' /\ writeSeenCounter e' = writeSeenCounter e + 1 /\ has_lsn (d, p) (writeSeenCounter e + 1).
Proof.
  intros Hi [Hq|(r & hint & w & res & Hl & Hf & Ha & Hq)].
  { left. pose proof (quiet_inv _ _ _ _ Hq (numbers_weaken _ _ _ Hi)) as Hi'. split; [done|]. destruct Hq as [_ ->]. lia. }
  pose proof (counter_nonneg _ _ _ Hi) as Hz. destruct Hi as (Hw & Hn & Hs). assert (nextLSN e = writeSeenCounter e + 1) as Hnx by (unfold nextLSN; rewrite u64_small; lia).
  destruct (wl_Append_law n (walIO e) Lg (FBEncode r hint) Hw) as (w' & res' & Ha' & Hw'). rewrite Ha in Ha'. injection Ha' as <- <-. rewrite Hnx in Hq.
  pose proof Hq as [_ Hc]. cbn in Hc. destruct res as [p|err].
  - right. assert (has_lsn (FBEncode r hint, p) (writeSeenCounter e + 1)) as Hh by (exists (fb_of_record r); split; [by apply root_of_record|]; cbn; congruence).
    exists (FBEncode r hint), p. split; [|done]. eapply quiet_inv; [exact Hq|]. split_and!; [done|apply numbers_snoc; [done|lia|done]|cbn; lia].
  - left. split; [|lia]. eapply quiet_inv; [exact Hq|]. split_and!; [done|by apply numbers_gap|cbn; lia].
Qed.

(** ** Runs *)

Fixpoint run_calls (cs : list engine_call) (e : Engine) (ts : list Txn) : outcome (Engine * list Txn * list (option engine_error)) :=
  match cs with
  | [] => Ret (e, ts, [])
  | c :: cs => '(e, ts, err) ← run_call c e ts; '(e, ts, errs) ← run_calls cs e ts; Ret (e, ts, err :: errs)
  end.

Lemma run_calls_numbers cs : forall n Lg e ts e' ts' errs, numbers_inv (length cs + n) Lg e -> Forall call_typed cs -> Forall txn_small ts ->
  run_calls cs e ts = Ret (e', ts', errs) -> exists Lg', numbers_inv n Lg' e' /\ Lg `prefix_of` Lg'.
Proof.
  induction cs as [|c cs IH]; intros n Lg e ts e' ts' errs Hi Hc Ht Hw; cbn [run_calls] in Hw; [injection Hw as <- <- <-; by exists Lg|].
  apply Forall_cons in Hc as [Hc Hcs]. apply bind_Ret_inv in Hw as ([[e1 ts1] err] & Hr & Hw). apply bind_Ret_inv in Hw as ([[e2 ts2] errs2] & Hrs & Hw). injection Hw as <- <- <-.
  destruct (call_logs _ _ _ _ _ _ Hc Ht Hr) as [Hl Ht1]. destruct (logs_inv _ _ _ _ Hi Hl) as [[Hi1 _]|(d & p & Hi1 & _)]; [by eapply IH|].
  destruct (IH _ _ _ _ _ _ _ Hi1 Hcs Ht1 Hrs) as (Lg' & Hi2 & Hp). exists Lg'. split; [done|]. etrans; [|exact Hp]. by eexists.
Qed.

(** A replica decodes records numbered from its counter on. *)
Lemma decode_numbered X : forall lsn, 0 <= lsn -> lsn + blen X < 2 ^ 64 -> numbered lsn X -> Forall real_pos X.*2 ->
  exists rs, decode_records (lsn + 1) X.*1 X.*2 = Ret (Ok rs) /\ length rs = length X.
Proof.
  induction X as [|[d q] X IH]; intros lsn Hl Hs Hn Hp; [by exists []|]. destruct Hn as [(r & Hr & Hlsn) Hn]. apply Forall_cons in Hp as [Hq Hp].
  unfold blen in Hs. cbn [length] in Hs. rewrite (u64_small (lsn + 1)) in Hn, Hlsn by lia. destruct (IH (lsn + 1)) as (rs & Hrs & Hlen); [lia|unfold blen; lia|done..|].
  exists (r :: rs). cbn [fmap list_fmap fst snd decode_records]. assert ((Offset q =? 0) = false) as -> by (apply Z.eqb_neq; destruct Hq as [_ Hq]; cbn in Hq; lia).
  rewrite Hr. cbn [mbind outcome_bind]. rewrite Hlsn, (u64_small (lsn + 1)), Z.eqb_refl by lia. cbn [negb]. rewrite Hrs. cbn. by rewrite Hlen.
Qed.


(** The counter moves before the append: after an append that failed, a record
    that does reach the log is refused by every replica that has the log before
    it, and the gap never closes. *)
Lemma gap_stops_replicas n Lg e ts c e' ts' err : numbers_inv (S n) Lg e -> blen Lg < writeSeenCounter e -> call_typed c -> Forall txn_small ts ->
  run_call c e ts = Ret (e', ts', err) ->
  exists Lg', numbers_inv n Lg' e' /\ blen Lg' < writeSeenCounter e' /\
    (Lg' = Lg \/ exists d p, Lg' = Lg ++ [(d, p)] /\
       forall fuel now (r : Engine), writeSeenCounter r = blen Lg -> ApplyRecord fuel now r d p = Ret (r, Some ErrInvalidLSN)).
Proof.
  intros Hi Hgap Hc Ht Hr. pose proof (blen_nonneg Lg). destruct (call_logs _ _ _ _ _ _ Hc Ht Hr) as [Hl _]. destruct (logs_inv _ _ _ _ Hi Hl) as [[Hi' Hle]|(d & p & Hi' & He & Hd)].
  { exists Lg. split; [done|]. split; [lia|by left]. }
  exists (Lg ++ [(d, p)]). rewrite blen_snoc. split; [done|]. split; [lia|]. right. exists d, p. split; [done|]. intros fuel now r Hcr. destruct Hd as (rec & Hrec & Hlsn).
  destruct Hi as (_ & _ & Hs). destruct Hi' as (Hw' & _). destruct (wl_positions _ _ _ Hw') as [_ Hp]. rewrite fmap_app in Hp. apply Forall_app in Hp as [_ [Hp _]%Forall_cons].
  unfold ApplyRecord. assert ((Offset p =? 0) = false) as -> by (apply Z.eqb_neq; destruct Hp as [_ Hp]; cbn in Hp; lia). cbn [fst] in Hrec. rewrite Hrec. cbn [mbind outcome_bind].
  unfold nextLSN. rewrite Hcr, Hlsn, u64_small by lia. assert ((blen Lg + 1 =? writeSeenCounter e + 1) = false) as -> by lia. done.
Qed.

(** An append that fails makes a gap. *)
Lemma failed_put_makes_gap n Lg e hlc now keys values kvs w x : numbers_inv (S n) Lg e -> readOnly e = false -> 0 <= hlc < 2 ^ 64 ->
  kv_entries LogOperationTypeInsert keys values = Ret kvs ->
  wl_Append (walIO e) (FBEncode (mkLogRecord (nextLSN e) hlc 0 LogOperationTypeInsert TransactionStateNone LogEntryTypeKV [] [] kvs) (hintSize kvs)) = Ret (w, Err x) ->
  exists e', persistKeyValue hlc now e keys values LogOperationTypeInsert = Ret (e', Some (EWal x)) /\ numbers_inv n Lg e' /\ blen Lg < writeSeenCounter e'.
Proof.
  intros Hi Hro Hh Hk Ha. pose proof (counter_nonneg _ _ _ Hi) as Hz. unfold persistKeyValue. rewrite Hro, Hk. cbn [mbind outcome_bind]. unfold append_record.
  cbn [walIO with_counter writeSeenCounter]. rewrite Ha. cbn [mbind outcome_bind]. eexists. split; [done|]. destruct Hi as (Hw & Hn & Hs).
  edestruct (wl_Append_law n (walIO e) Lg) as (w' & res & Ha' & Hw'); [exact Hw|]. rewrite Ha in Ha'. injection Ha' as <- <-.
  assert (nextLSN e = writeSeenCounter e + 1) as Hnx by (unfold nextLSN; rewrite u64_small; lia). pose proof Hn as (? & _ & _ & _ & Hb & _).
  unfold numbers_inv. cbn. rewrite Hnx. split_and!; [done|by apply numbers_gap|lia..].
Qed.
End numbers.

(** ** An example *)

Section example.
#[local] Existing Instance demo_codec.
#[local] Existing Instance demo_codec_laws.

Notation SampleEngine := (Engine map_list (list bytes) WalWorld (BoltWorld kvmap)).

Lemma sample_start : exists e : SampleEngine, wl_repr 1000 (walIO e) [] /\ writeSeenCounter e = 0 /\
  sim any_rows 1000 [] e [] (mkAState ∅ []) /\ ArenaSize e = 1024 * 1024.
Proof.
  destruct sample_log as [w Hw]. destruct (initStorage sample_config (opened w (sample_store ∅))) as [e|err] eqn:He; [|discriminate He]. exists e.
  assert (sim any_rows 1000 [] e [] (mkAState ∅ []) /\ ArenaSize e = 1024 * 1024) as Hs.
  { eapply (initial_sim any_rows 1000 sample_config (opened w (sample_store ∅)) w (sample_store ∅) e); [done|apply sample_store_repr|vm_compute; discriminate|done..]. }
  split; [|split; [|exact Hs]]; by injection He as <-.
Qed.

End example.
