(* ===== verification/Fuzzer.v ===== *)
(** The fuzzer: internal/services/fuzzer/{fuzz_engine,stats}.go.

    Random operations on an engine, from pools of keys, columns and values that
    are mutated while the workers run, and the statistics of the operations.
    The workers, the mutation loop, the requests for statistics and the monitor
    interleave; each of their rounds is one step, since the pools and the
    statistics are used under their locks and every call of the engine is one
    step of its own model.  math/rand is the sequence of its draws; the letters
    of gofakeit and the histogram are arguments.  The rate of a ticker is left
    out. *)

From stdpp Require Import prelude list numbers gmap sorting.
From Stdlib Require Import ZArith Lia.
From S2P Require Import Prelude Bytes Segment KeyCodec KVKeys KVStore KVSpec KVReads KVQueue KVQueueFacts Overlay BTree.
From S2P Require Import LogCodec WalIO WalIOFacts TxnLog MemTable MemTableFacts Samples FlushFacts FlushSpec Notify GrpcUtils Engine Txn Recovery LogMeaning EngineFacts EngineWrites TxnFacts EngineReads EngineFlush EngineSpec HttpApi HttpSpec.
Import Stdlib.Strings.String.StringSyntax.

(** ** Random numbers *)

Record Rand := mkRand { draws : nat -> Z; drawn : nat }.

(** A computation that draws numbers and may panic. *)
Definition M (A : Type) : Type := Rand -> outcome (Rand * A).
#[global] Instance M_ret : MRet M := fun A a r => Ret (r, a).
#[global] Instance M_bind : MBind M := fun A B f m r => '(r, a) ← m r; f a r.

Definition panicking {A} : M A := fun _ => Panic.

(** [rand.Intn] panics unless its argument is positive. *)
Definition Intn (n : Z) : M Z := fun r =>
  if n <=? 0 then Panic else Ret (mkRand (draws r) (S (drawn r)), draws r (drawn r) mod n).

(** A comparison with [rand.Float64()]. *)
Definition chance : M bool := fun r => Ret (mkRand (draws r) (S (drawn r)), Z.odd (draws r (drawn r))).

Fixpoint repeat_m {A} (n : nat) (m : M A) : M (list A) :=
  match n with
  | O => mret []
  | S n => a ← m; l ← repeat_m n m; mret (a :: l)
  end.

(** [make] with a negative length panics. *)
Definition times {A} (n : Z) (m : M A) : M (list A) := if n <? 0 then panicking else repeat_m (Z.to_nat n) m.

(** ** The pools *)

Definition charset : bytes := str "abcdefghijklmnopqrstuvwxyz0123456789".

Definition randKey (length : Z) : M bytes := times length (i ← Intn (blen charset); mret (default Byte.x00 (charset !! Z.to_nat i))).

Record KeyPool := mkKeyPool { kp_keys : list bytes; kp_size : Z; kp_minLen : Z; kp_maxLen : Z }.

Definition generateFuzzKeyPool (count minLen maxLen : Z) : M (list bytes) :=
  times count (l ← Intn (maxLen - minLen + 1); randKey (l + minLen)).

Definition NewKeyPool (size minLen maxLen : Z) : M KeyPool :=
  keys ← generateFuzzKeyPool size minLen maxLen; mret (mkKeyPool keys size minLen maxLen).

Definition pick {A} (l : list A) (d : A) : M A := idx ← Intn (blen l); mret (default d (l !! Z.to_nat idx)).

Definition KeyPool_Get (n : Z) (kp : KeyPool) : M (list bytes) := times n (pick (kp_keys kp) []).

(** One mutation: a new key, or a key twice. *)
Definition mutate_key (kp : KeyPool) : M KeyPool :=
  idx ← Intn (blen (kp_keys kp));
  action ← Intn 2;
  key ← (if action =? 0 then l ← Intn (kp_maxLen kp - kp_minLen kp + 1); randKey (l + kp_minLen kp) else pick (kp_keys kp) []);
  mret (mkKeyPool (<[Z.to_nat idx := key]> (kp_keys kp)) (kp_size kp) (kp_minLen kp) (kp_maxLen kp)).

Fixpoint iterate {A} (n : nat) (f : A -> M A) (a : A) : M A :=
  match n with O => mret a | S n => a ← f a; iterate n f a end.

Definition KeyPool_Mutate (kp : KeyPool) : M KeyPool :=
  k ← Intn (Z.quot (kp_size kp) 10); iterate (Z.to_nat (k + 1)) mutate_key kp.

Definition columnPrefix : bytes := str "col".
Definition randColumnName : M bytes := k ← randKey 4; mret (columnPrefix ++ k).

Record ColumnPool := mkColumnPool { cp_columns : list bytes; cp_size : Z }.

Definition NewColumnPool (size : Z) : M ColumnPool := columns ← times size randColumnName; mret (mkColumnPool columns size).

Definition mutate_column (cp : ColumnPool) : M ColumnPool :=
  idx ← Intn (blen (cp_columns cp)); name ← randColumnName;
  mret (mkColumnPool (<[Z.to_nat idx := name]> (cp_columns cp)) (cp_size cp)).

Definition ColumnPool_Mutate (cp : ColumnPool) : M ColumnPool :=
  k ← Intn (Z.quot (cp_size cp) 5); iterate (Z.to_nat (k + 1)) mutate_column cp.

Record ValuePool := mkValuePool { smallValues : list bytes; largeValues : list bytes }.

Definition fillRandomBytes (size : Z) : M bytes := times size (x ← Intn 256; mret (to_byte x)).

(** The values of one size. *)
Definition add_values (countPerSize : Z) (vp : ValuePool) (sz : Z) : M ValuePool :=
  vs ← repeat_m (Z.to_nat countPerSize) (fillRandomBytes sz);
  mret (if sz <=? 2048 then mkValuePool (smallValues vp ++ vs) (largeValues vp) else mkValuePool (smallValues vp) (largeValues vp ++ vs)).

Fixpoint fold_m {A X} (f : A -> X -> M A) (a : A) (xs : list X) : M A :=
  match xs with [] => mret a | x :: xs => a ← f a x; fold_m f a xs end.

Definition NewValuePool (sizes : list Z) (countPerSize : Z) : M ValuePool := fold_m (add_values countPerSize) (mkValuePool [] []) sizes.

(** Small values nine times out of ten. *)
Definition ValuePool_Get (vp : ValuePool) : M bytes :=
  chance ≫= (fun small : bool => if small then pick (smallValues vp) [] else pick (largeValues vp) []).

Section letters.
Context (LetterN : Z -> M bytes).

(** A column that is drawn twice has the value of the later draw. *)
Definition ColumnPool_Get (n : Z) (cp : ColumnPool) : M (gmap bytes bytes) :=
  if n <? 0 then panicking else
  iterate (Z.to_nat n) (fun out => col ← pick (cp_columns cp) []; v ← LetterN 256; mret (<[col := v]> out)) ∅.
End letters.

(** ** The statistics *)

(** The histogram of circonusllhist; a value that it refuses leaves it as it is. *)
Class Histogram (H : Type) := {
  h_New : H;
  h_RecordValue : H -> Z -> H;
  h_Count : H -> Z;
  h_ValueAtQuantile : H -> Z -> Z
}.

Section stats.
Context {H : Type} `{Histogram H}.

Record internalNS := mkNS { OpCount : gmap bytes Z; ErrorCount : Z; LastTotalOps : Z; LastUpdated : Z; LatencyHist : H }.

(** A rate is a count and the nanoseconds it took. *)
Record NamespaceStats := mkNamespaceStats {
  st_OpCount : gmap bytes Z; st_ErrorCount : Z; OpsRate : Z * Z; Uptime : Z; Throughput : Z * Z; Latency : list Z
}.

Record FuzzStats := mkStats { fs_startTime : Z; fs_stats : gmap bytes internalNS }.

Definition NewFuzzStats (now : Z) : FuzzStats := mkStats now ∅.

Definition ensureNS (now : Z) (namespace : bytes) (fs : FuzzStats) : internalNS :=
  default (mkNS ∅ 0 0 now h_New) (fs_stats fs !! namespace).

Definition with_ns (namespace : bytes) (ns : internalNS) (fs : FuzzStats) : FuzzStats := mkStats (fs_startTime fs) (<[namespace := ns]> (fs_stats fs)).

Definition Inc (now : Z) (namespace op : bytes) (fs : FuzzStats) : FuzzStats :=
  let ns := ensureNS now namespace fs in
  with_ns namespace (mkNS (<[op := i64 (default 0 (OpCount ns !! op) + 1)]> (OpCount ns)) (ErrorCount ns) (LastTotalOps ns) (LastUpdated ns) (LatencyHist ns)) fs.

Definition IncError (now : Z) (namespace : bytes) (fs : FuzzStats) : FuzzStats :=
  let ns := ensureNS now namespace fs in
  with_ns namespace (mkNS (OpCount ns) (i64 (ErrorCount ns + 1)) (LastTotalOps ns) (LastUpdated ns) (LatencyHist ns)) fs.

Definition ObserveLatency (now : Z) (namespace : bytes) (dur : Z) (fs : FuzzStats) : FuzzStats :=
  let ns := ensureNS now namespace fs in
  with_ns namespace (mkNS (OpCount ns) (ErrorCount ns) (LastTotalOps ns) (LastUpdated ns) (h_RecordValue (LatencyHist ns) dur)) fs.

(** The sum of the counts; a map is summed in some order. *)
Definition total_ops (m : gmap bytes Z) : Z := map_fold (fun _ v total => i64 (total + v)) 0 m.

(** The rate since the last snapshot, and the counts it starts from next time. *)
Definition snapshot_ns (start now : Z) (current : internalNS) : NamespaceStats :=
  let dt := now - LastUpdated current in
  let dt := if dt =? 0 then Second else dt in
  let uptime := now - start in
  mkNamespaceStats (OpCount current) (ErrorCount current) (i64 (total_ops (OpCount current) - LastTotalOps current), dt) uptime
    (h_Count (LatencyHist current), uptime) (h_ValueAtQuantile (LatencyHist current) <$> [50; 90; 99]).

Definition after_snapshot (now : Z) (current : internalNS) : internalNS :=
  mkNS (OpCount current) (ErrorCount current) (total_ops (OpCount current)) now (LatencyHist current).

Definition Snapshot (now : Z) (fs : FuzzStats) : FuzzStats * gmap bytes NamespaceStats :=
  (mkStats (fs_startTime fs) (after_snapshot now <$> fs_stats fs), snapshot_ns (fs_startTime fs) now <$> fs_stats fs).

(** [ServeHTTP] answers with a snapshot, encoded as JSON. *)
Definition ServeHTTP (now : Z) (fs : FuzzStats) : FuzzStats * gmap bytes NamespaceStats := Snapshot now fs.

(** A rate is zero when its count is. *)
Definition stalled (s : NamespaceStats) : bool := fst (OpsRate s) =? 0.

(** One tick of [StartStatsMonitor]: a namespace without operations since the
    last snapshot ends the process. *)
Definition monitor_tick (now : Z) (fs : FuzzStats) : outcome FuzzStats :=
  let '(fs, snapshot) := Snapshot now fs in
  if existsb (fun x => stalled (snd x)) (map_to_list snapshot) then Panic else Ret fs.
End stats.
Arguments internalNS : clear implicits.
Arguments FuzzStats : clear implicits.

(** ** The operations *)

Inductive fuzz_op := FPutKV | FBatchPutKV | FDeleteKV | FBatchDeleteKV | FPutColumnsForRow | FDeleteColumnsForRow | FGetKV | FGetRowColumns.

Definition op_name (op : fuzz_op) : bytes :=
  match op with
  | FPutKV => str "PutKV" | FBatchPutKV => str "BatchPutKV" | FDeleteKV => str "DeleteKV" | FBatchDeleteKV => str "BatchDeleteKV"
  | FPutColumnsForRow => str "PutColumnsForRow" | FDeleteColumnsForRow => str "DeleteColumnsForRow" | FGetKV => str "GetKV" | FGetRowColumns => str "GetRowColumns"
  end.

Definition fuzz_ops (getOPs : bool) : list fuzz_op :=
  [FPutKV; FBatchPutKV; FDeleteKV; FBatchDeleteKV; FPutColumnsForRow; FDeleteColumnsForRow] ++ (if getOPs then [FGetKV; FGetRowColumns] else []).

(** What a round has drawn. *)
Record Drawn := mkDrawn { d_keys : list bytes; d_values : list bytes; d_rowKey : bytes; d_columns : gmap bytes bytes; d_op : fuzz_op }.

Record Pools := mkPools { p_keys : KeyPool; p_rowKeys : KeyPool; p_columns : ColumnPool; p_values : ValuePool }.

Section engine.
Context {L F W R D : Type} `{SkipListLaws L} `{BloomLaws F} `{WalLaws W R} `{BTreeLaws D} `{FlatBuffersLaws}.
Context {G : Type} `{Histogram G}.
Context (LetterN : Z -> M bytes).
Notation Engine := (Engine L F W D).

(** The draws at the beginning of [executeRandomOp]. *)
Definition draw (getOPs : bool) (p : Pools) : M Drawn :=
  keys ← KeyPool_Get 3 (p_keys p);
  values ← repeat_m 3 (ValuePool_Get (p_values p));
  rowKeys ← KeyPool_Get 1 (p_rowKeys p);
  n ← Intn 5;
  columns ← ColumnPool_Get LetterN (n + 1) (p_columns p);
  op ← pick (fuzz_ops getOPs) FPutKV;
  mret (mkDrawn keys values (default [] (rowKeys !! 0%nat)) columns op).

(** What comes from outside in a round: the clocks, the order of a map, the
    answers of the predicate. *)
Record Round := mkRound { r_hlc : Z; r_now : nat -> Z; r_order : list (bytes * bytes) -> list (bytes * bytes); r_pred : bytes -> bool; r_start : Z; r_end : Z }.

(** [keys[i]] *)
Definition at_ (l : list bytes) (i : nat) : outcome bytes := match l !! i with Some x => Ret x | None => Panic end.

(** A read whose missing key is no error. *)
Definition found_or_missing {A} (r : result engine_error A) : option engine_error :=
  match r with Ok _ => None | Err (EStore ErrKeyNotFound) => None | Err e => Some e end.

Definition run_op (x : Round) (d : Drawn) (e : Engine) : outcome (Engine * option engine_error) :=
  let columns := r_order x (map_to_list (d_columns d)) in
  match d_op d with
  | FPutKV => k ← at_ (d_keys d) 0; v ← at_ (d_values d) 0; PutKV (r_hlc x) (r_now x) e k v
  | FBatchPutKV => BatchPutKV (r_hlc x) (r_now x) e (d_keys d) (d_values d)
  | FDeleteKV => k ← at_ (d_keys d) 1; DeleteKV (r_hlc x) (r_now x) e k
  | FBatchDeleteKV => BatchDeleteKV (r_hlc x) (r_now x) e (d_keys d)
  | FPutColumnsForRow => PutColumnsForRow (r_hlc x) (r_now x) e (d_rowKey d) columns
  | FDeleteColumnsForRow => DeleteColumnsForRow (r_hlc x) (r_now x) e (d_rowKey d) columns
  | FGetKV => k ← at_ (d_keys d) 0; r ← GetKV e k; Ret (e, found_or_missing r)
  | FGetRowColumns => r ← GetRowColumns e (d_rowKey d) (Some (r_pred x)); Ret (e, found_or_missing r)
  end.

(** An operation that fails is only logged. *)
Definition executeRandomOp (x : Round) (getOPs : bool) (namespace : bytes) (p : Pools) (stats : option (FuzzStats G)) (e : Engine) (r : Rand)
  : outcome (Rand * Engine * option (FuzzStats G)) :=
  '(r, d) ← draw getOPs p r;
  '(e, _) ← run_op x d e;
  Ret (r, e, (fun fs => Inc (r_end x) namespace (op_name (d_op d)) (ObserveLatency (r_end x) namespace (r_end x - r_start x) fs)) <$> stats).

(** ** The fuzzer as a whole *)

(** The pools of [FuzzEngineOps]. *)
Definition NewPools : M Pools :=
  keys ← NewKeyPool 500 5 256;
  rowKeys ← NewKeyPool 500 5 256;
  columns ← NewColumnPool 50;
  values ← NewValuePool [100; 500; 1024; 2048; 10 * 1024; 50 * 1024; 100 * 1024] 100;
  mret (mkPools keys rowKeys columns values).

(** A tick of [startMutationLoop]. *)
Definition mutation_tick (p : Pools) : M Pools :=
  keys ← KeyPool_Mutate (p_keys p);
  rowKeys ← KeyPool_Mutate (p_rowKeys p);
  columns ← ColumnPool_Mutate (p_columns p);
  mret (mkPools keys rowKeys columns (p_values p)).

Record Fuzzing := mkFuzzing { fz_engine : Engine; fz_pools : Pools; fz_stats : option (FuzzStats G); fz_rand : Rand }.

(** The rounds of the goroutines, in the order in which they happen: a worker's,
    the mutation's, a request for the statistics, a tick of the monitor, and the
    background work of the engine. *)
Inductive fuzz_event :=
| Work (x : Round)
| MutationTick
| StatsRequest (now : Z)
| MonitorTick (now : Z)
| Background (c : engine_call).

Definition fuzz_step (getOPs : bool) (namespace : bytes) (ev : fuzz_event) (s : Fuzzing) : outcome Fuzzing :=
  match ev with
  | Work x => '(r, e, stats) ← executeRandomOp x getOPs namespace (fz_pools s) (fz_stats s) (fz_engine s) (fz_rand s); Ret (mkFuzzing e (fz_pools s) stats r)
  | MutationTick => '(r, p) ← mutation_tick (fz_pools s) (fz_rand s); Ret (mkFuzzing (fz_engine s) p (fz_stats s) r)
  | StatsRequest now => Ret (mkFuzzing (fz_engine s) (fz_pools s) ((fun fs => fst (ServeHTTP now fs)) <$> fz_stats s) (fz_rand s))
  | MonitorTick now =>
      match fz_stats s with
      | None => Ret s
      | Some fs => fs ← monitor_tick now fs; Ret (mkFuzzing (fz_engine s) (fz_pools s) (Some fs) (fz_rand s))
      end
  | Background c => '(e, _, _) ← run_call c (fz_engine s) []; Ret (mkFuzzing e (fz_pools s) (fz_stats s) (fz_rand s))
  end.

Fixpoint fuzz_run (getOPs : bool) (namespace : bytes) (evs : list fuzz_event) (s : Fuzzing) : outcome Fuzzing :=
  match evs with
  | [] => Ret s
  | ev :: evs => s ← fuzz_step getOPs namespace ev s; fuzz_run getOPs namespace evs s
  end.
End engine.
Arguments Fuzzing : clear implicits.

(** ** Computations that always return *)

(** Whatever is drawn, [m] returns a value that satisfies [P]. *)
Definition always {A} (m : M A) (P : A -> Prop) : Prop := forall r, exists r' a, m r = Ret (r', a) /\ P a.

Lemma always_ret {A} (a : A) (P : A -> Prop) : P a -> always (mret a) P.
Proof. intros Ha r. by exists r, a. Qed.

Lemma always_bind {A B} (m : M A) (f : A -> M B) (P : A -> Prop) (Q : B -> Prop) :
  always m P -> (forall a, P a -> always (f a) Q) -> always (m ≫= f) Q.
Proof.
  intros Hm Hf r. destruct (Hm r) as (r1 & a & Ha & HP). destruct (Hf a HP r1) as (r2 & b & Hb & HQ). exists r2, b. split; [|done].
  unfold mbind, M_bind. rewrite Ha. exact Hb.
Qed.

Lemma always_mono {A} (m : M A) (P Q : A -> Prop) : (forall a, P a -> Q a) -> always m P -> always m Q.
Proof. intros HPQ Hm r. destruct (Hm r) as (r1 & a & Ha & HP). eauto. Qed.

Lemma always_Intn n : 0 < n -> always (Intn n) (fun x => 0 <= x < n).
Proof.
  intros Hn r. unfold Intn. destruct (Z.leb_spec n 0); [lia|]. do 2 eexists. split; [done|]. by apply Z.mod_pos_bound.
Qed.

Lemma always_chance : always chance (fun _ => True).
Proof. intros r. by do 2 eexists. Qed.

Lemma always_repeat {A} (m : M A) (P : A -> Prop) n : always m P -> always (repeat_m n m) (fun l => length l = n /\ Forall P l).
Proof.
  intros Hm. induction n as [|n IH]; cbn [repeat_m]; [by apply always_ret|].
  eapply always_bind; [exact Hm|]. intros a Ha. eapply always_bind; [exact IH|]. intros l [Hl HP]. apply always_ret. split; [cbn; lia|by constructor].
Qed.

Lemma always_times {A} (m : M A) (P : A -> Prop) n : 0 <= n -> always m P -> always (times n m) (fun l => blen l = n /\ Forall P l).
Proof.
  intros Hn Hm. unfold times. destruct (Z.ltb_spec n 0); [lia|]. eapply always_mono; [|by apply always_repeat]. intros l [Hl HP].
  split; [unfold blen; lia|done].
Qed.

Lemma always_iterate {A} (f : A -> M A) (P : A -> Prop) n : (forall a, P a -> always (f a) P) -> forall a, P a -> always (iterate n f a) P.
Proof.
  intros Hf. induction n as [|n IH]; intros a Ha; cbn [iterate]; [by apply always_ret|]. eapply always_bind; [by apply Hf|]. intros b Hb. by apply IH.
Qed.

Lemma always_fold {A X} (f : A -> X -> M A) (P : list X -> A -> Prop) xs : forall pre a, (forall pre a x, x ∈ xs -> P pre a -> always (f a x) (P (pre ++ [x]))) -> P pre a ->
  always (fold_m f a xs) (P (pre ++ xs)).
Proof.
  induction xs as [|x xs IH]; intros pre a Hf Ha; cbn [fold_m]; [apply always_ret; by rewrite app_nil_r|].
  eapply always_bind; [apply Hf; [by left|exact Ha]|]. intros b Hb. rewrite (cons_middle x pre xs), (app_assoc pre). apply IH; [|exact Hb].
  intros pre' a' y Hy. apply Hf. by right.
Qed.

Lemma always_pick {A} (l : list A) (d : A) (P : A -> Prop) : l <> [] -> Forall P l -> always (pick l d) P.
Proof.
  intros Hl HP. unfold pick. eapply always_bind; [apply always_Intn; destruct l; [done|rewrite blen_cons; pose proof (blen_nonneg l); lia]|].
  intros i Hi. apply always_ret. unfold blen in Hi. destruct (lookup_lt_is_Some_2 l (Z.to_nat i)) as [x Hx]; [lia|]. rewrite Hx. cbn. by eapply Forall_lookup_1.
Qed.

(** ** The pools *)

Definition key_in (lo hi : Z) (k : bytes) : Prop := lo <= blen k <= hi /\ Forall (.∈ charset) k.

Definition keys_ok (kp : KeyPool) : Prop :=
  10 <= kp_size kp /\ blen (kp_keys kp) = kp_size kp /\ 0 <= kp_minLen kp <= kp_maxLen kp /\ Forall (key_in (kp_minLen kp) (kp_maxLen kp)) (kp_keys kp).

Definition column_name (c : bytes) : Prop := exists k, c = columnPrefix ++ k /\ key_in 4 4 k.
Definition columns_ok (cp : ColumnPool) : Prop := 5 <= cp_size cp /\ blen (cp_columns cp) = cp_size cp /\ Forall column_name (cp_columns cp).

Definition values_ok (vp : ValuePool) : Prop :=
  smallValues vp <> [] /\ largeValues vp <> [] /\ Forall (fun v => blen v <= 2048) (smallValues vp) /\ Forall (fun v => 2048 < blen v <= 100 * 1024) (largeValues vp).

Definition pools_ok (p : Pools) : Prop :=
  keys_ok (p_keys p) /\ keys_ok (p_rowKeys p) /\ columns_ok (p_columns p) /\ values_ok (p_values p) /\
  5 <= kp_minLen (p_rowKeys p) /\ kp_maxLen (p_rowKeys p) <= 256 /\ 5 <= kp_minLen (p_keys p) /\ kp_maxLen (p_keys p) <= 256.

Lemma always_randKey n : 0 <= n -> always (randKey n) (key_in n n).
Proof.
  intros Hn. unfold randKey. eapply always_mono; [|apply always_times; [done|]].
  - intros l [Hl HP]. split; [lia|exact HP].
  - eapply always_bind; [by apply always_Intn|]. intros i Hi. apply always_ret. unfold blen in Hi.
    destruct (lookup_lt_is_Some_2 charset (Z.to_nat i)) as [x Hx]; [lia|]. rewrite Hx. cbn [default from_option id]. by eapply list_elem_of_lookup_2.
Qed.

Lemma always_randKey_between lo hi : 0 <= lo <= hi -> always (l ← Intn (hi - lo + 1); randKey (l + lo)) (key_in lo hi).
Proof.
  intros Hr. eapply always_bind; [apply always_Intn; lia|]. intros l Hl. cbv beta in Hl. eapply always_mono; [|apply always_randKey; lia]. intros k [Hk HP]. split; [lia|done].
Qed.

Lemma NewKeyPool_ok size lo hi : 10 <= size -> 0 <= lo <= hi ->
  always (NewKeyPool size lo hi) (fun kp => keys_ok kp /\ kp_minLen kp = lo /\ kp_maxLen kp = hi).
Proof.
  intros Hs Hr. eapply always_bind; [apply always_times; [lia|by apply always_randKey_between]|]. intros keys [Hl HP]. by apply always_ret.
Qed.

Lemma mutate_key_ok lo hi kp : keys_ok kp /\ kp_minLen kp = lo /\ kp_maxLen kp = hi ->
  always (mutate_key kp) (fun kp => keys_ok kp /\ kp_minLen kp = lo /\ kp_maxLen kp = hi).
Proof.
  intros ((Hs & Hl & Hr & HP) & <- & <-). eapply always_bind; [apply always_Intn; lia|]. intros i Hi. eapply always_bind; [by apply always_Intn|]. intros a _.
  apply (always_bind _ _ (key_in (kp_minLen kp) (kp_maxLen kp))).
  - destruct (a =? 0); [by apply always_randKey_between|]. apply always_pick; [|done]. intros Hn. rewrite Hn in Hl. unfold blen in Hl. cbn [length] in Hl. lia.
  - intros k Hk. apply always_ret. split; [|done]. split; [done|]. split; [unfold blen; cbn; by rewrite length_insert|]. split; [done|]. by apply Forall_insert.
Qed.

Lemma KeyPool_Mutate_ok lo hi kp : keys_ok kp /\ kp_minLen kp = lo /\ kp_maxLen kp = hi ->
  always (KeyPool_Mutate kp) (fun kp => keys_ok kp /\ kp_minLen kp = lo /\ kp_maxLen kp = hi).
Proof.
  intros Hok. pose proof Hok as ((Hs & _) & _). eapply always_bind; [apply always_Intn; apply Z.quot_str_pos; lia|]. intros k _.
  apply always_iterate; [|exact Hok]. intros a. apply mutate_key_ok.
Qed.

Lemma randColumnName_ok : always randColumnName column_name.
Proof. eapply always_bind; [by apply always_randKey|]. intros k Hk. apply always_ret. by exists k. Qed.

Lemma NewColumnPool_ok size : 5 <= size -> always (NewColumnPool size) columns_ok.
Proof. intros Hs. eapply always_bind; [apply always_times; [lia|apply randColumnName_ok]|]. intros cs [Hl HP]. by apply always_ret. Qed.

Lemma ColumnPool_Mutate_ok cp : columns_ok cp -> always (ColumnPool_Mutate cp) columns_ok.
Proof.
  intros Hok. pose proof Hok as (Hs & _). eapply always_bind; [apply always_Intn; apply Z.quot_str_pos; lia|]. intros k _.
  apply always_iterate; [|exact Hok]. clear. intros cp (Hs & Hl & HP). eapply always_bind; [apply always_Intn; lia|]. intros i _.
  eapply always_bind; [apply randColumnName_ok|]. intros c Hc. apply always_ret. split; [done|]. split; [unfold blen; cbn; by rewrite length_insert|]. by apply Forall_insert.
Qed.

Lemma add_values_ok count vp sz : 0 <= sz <= 100 * 1024 -> 0 < count ->
  Forall (fun v => blen v <= 2048) (smallValues vp) /\ Forall (fun v => 2048 < blen v <= 100 * 1024) (largeValues vp) ->
  always (add_values count vp sz) (fun vp' => (Forall (fun v => blen v <= 2048) (smallValues vp') /\ Forall (fun v => 2048 < blen v <= 100 * 1024) (largeValues vp')) /\
    (sz <= 2048 \/ smallValues vp <> [] -> smallValues vp' <> []) /\ (2048 < sz \/ largeValues vp <> [] -> largeValues vp' <> [])).
Proof.
  intros Hsz Hc [Hs Hl]. apply (always_bind _ _ (fun vs => length vs = Z.to_nat count /\ Forall (fun v => blen v = sz) vs)).
  - apply always_repeat. eapply always_mono; [|apply (always_times _ (fun _ => True)); [lia|]]; [by intros v [Hv _]|].
    eapply always_bind; [by apply always_Intn|]. intros x _. by apply always_ret.
  - intros vs [Hn HP]. assert (vs <> []) as Hne by (intros ->; cbn in Hn; lia).
    apply always_ret. destruct (Z.leb_spec sz 2048) as [Hle|Hgt]; cbn [smallValues largeValues].
    + split; [split; [apply Forall_app; split; [done|]; eapply Forall_impl; [exact HP|]; intros v ->; lia|done]|]. split; [|intros [?|?]; [lia|done]].
      intros _ Hx. by apply app_eq_nil in Hx as [_ ->].
    + split; [split; [done|apply Forall_app; split; [done|]; eapply Forall_impl; [exact HP|]; intros v ->; lia]|]. split; [intros [?|?]; [lia|done]|].
      intros _ Hx. by apply app_eq_nil in Hx as [_ ->].
Qed.

Lemma NewValuePool_ok sizes count : Forall (fun sz => 0 <= sz <= 100 * 1024) sizes -> 0 < count ->
  Exists (fun sz => sz <= 2048) sizes -> Exists (fun sz => 2048 < sz) sizes -> always (NewValuePool sizes count) values_ok.
Proof.
  intros Hsz Hc Hs Hl. unfold NewValuePool.
  eapply always_mono; [|apply (always_fold _ (fun pre vp => (Forall (fun v => blen v <= 2048) (smallValues vp) /\ Forall (fun v => 2048 < blen v <= 100 * 1024) (largeValues vp)) /\
    (Exists (fun sz => sz <= 2048) pre -> smallValues vp <> []) /\ (Exists (fun sz => 2048 < sz) pre -> largeValues vp <> [])) sizes [])].
  - cbn [app]. intros vp ([H1 H2] & H3 & H4). split; [by apply H3|]. split; [by apply H4|done].
  - intros pre vp sz Hin (Hok & H3 & H4). rewrite Forall_forall in Hsz. eapply always_mono; [|by apply add_values_ok; [apply Hsz|..]].
    intros vp' (Hok' & H1 & H2). split; [done|]. rewrite !Exists_app, !Exists_cons, !Exists_nil. split; intros Hx; [apply H1|apply H2]; naive_solver.
  - cbn [smallValues largeValues]. split; [done|]. by rewrite !Exists_nil.
Qed.

Lemma always_iterate_n {A} (f : A -> M A) (P : nat -> A -> Prop) n : (forall k a, P k a -> always (f a) (P (S k))) -> forall k a, P k a -> always (iterate n f a) (P (n + k)%nat).
Proof.
  intros Hf. induction n as [|n IH]; intros k a Ha; cbn [iterate]; [by apply always_ret|]. eapply always_bind; [by apply Hf|]. intros b Hb.
  replace (S n + k)%nat with (n + S k)%nat by lia. by apply IH.
Qed.

Section letters_ok.
Context (LetterN : Z -> M bytes) (LetterN_law : forall n, 0 <= n -> always (LetterN n) (fun s => blen s = n)).

Lemma ColumnPool_Get_ok n cp : 0 < n -> columns_ok cp ->
  always (ColumnPool_Get LetterN n cp) (fun m => 1 <= Z.of_nat (size m) <= n /\ map_Forall (fun c v => column_name c /\ blen v = 256) m).
Proof.
  intros Hn (Hs & Hl & HP). unfold ColumnPool_Get. destruct (Z.ltb_spec n 0); [lia|].
  eapply always_mono; [|apply (always_iterate_n _ (fun k m => (size m <= k)%nat /\ ((0 < k)%nat -> m <> ∅) /\ map_Forall (fun c v => column_name c /\ blen v = 256) m) (Z.to_nat n)) with (k := 0%nat)].
  - intros m (H1 & H2 & H3). split; [|done]. rewrite Nat.add_0_r in *. specialize (H2 ltac:(lia)). rewrite <- map_size_non_empty_iff in H2. lia.
  - intros k m (H1 & H2 & H3). apply (always_bind _ _ column_name).
    { apply always_pick; [|done]. intros Hx. rewrite Hx in Hl. unfold blen in Hl. cbn [length] in Hl. lia. }
    intros c Hc. eapply always_bind; [by apply LetterN_law|]. intros v Hv. apply always_ret. split.
    + rewrite map_size_insert. destruct (m !! c); cbn; lia.
    + split; [intros _; apply insert_non_empty|]. by apply map_Forall_insert_2.
  - split; [by rewrite map_size_empty|]. split; [lia|apply map_Forall_empty].
Qed.

(** What a round draws. *)
Definition drawn_ok (getOPs : bool) (d : Drawn) : Prop :=
  length (d_keys d) = 3%nat /\ Forall (key_in 5 256) (d_keys d) /\ length (d_values d) = 3%nat /\ Forall (fun v => blen v <= 100 * 1024) (d_values d) /\
  key_in 5 256 (d_rowKey d) /\ 1 <= Z.of_nat (size (d_columns d)) <= 5 /\ map_Forall (fun c v => column_name c /\ blen v = 256) (d_columns d) /\ d_op d ∈ fuzz_ops getOPs.

Lemma KeyPool_Get_ok n kp : 0 <= n -> keys_ok kp -> 5 <= kp_minLen kp -> kp_maxLen kp <= 256 ->
  always (KeyPool_Get n kp) (fun ks => blen ks = n /\ Forall (key_in 5 256) ks).
Proof.
  intros Hn (Hs & Hl & Hr & HP) Hlo Hhi. apply always_times; [done|]. apply always_pick.
  - intros Hx. rewrite Hx in Hl. unfold blen in Hl. cbn [length] in Hl. lia.
  - eapply Forall_impl; [exact HP|]. intros k [Hk Hc]. split; [lia|done].
Qed.

Lemma ValuePool_Get_ok vp : values_ok vp -> always (ValuePool_Get vp) (fun v => blen v <= 100 * 1024).
Proof.
  intros (Hs & Hl & HPs & HPl). eapply always_bind; [apply always_chance|]. intros [] _; (apply always_pick; [done|]);
    (eapply Forall_impl; [eassumption|]; cbn; lia).
Qed.

Lemma draw_ok getOPs p : pools_ok p -> always (draw LetterN getOPs p) (drawn_ok getOPs).
Proof.
  intros (Hk & Hr & Hc & Hv & Hr1 & Hr2 & Hk1 & Hk2). unfold draw.
  eapply always_bind; [by apply KeyPool_Get_ok|]. intros ks [Hks HPks].
  eapply always_bind; [by apply always_repeat, ValuePool_Get_ok|]. intros vs [Hvs HPvs].
  eapply always_bind; [by apply KeyPool_Get_ok|]. intros rs [Hrs HPrs].
  eapply always_bind; [by apply always_Intn|]. intros n Hn. cbv beta in Hn.
  eapply always_bind; [apply ColumnPool_Get_ok; [lia|done]|]. intros cs [Hcs HPcs].
  eapply always_bind; [apply (always_pick _ _ (.∈ fuzz_ops getOPs)); [done|by apply Forall_forall]|]. intros op Hop.
  apply always_ret. destruct rs as [|row rs]; [done|]. apply Forall_cons in HPrs as [Hrow _].
  split_and!; cbn; try done; [unfold blen in Hks; lia|lia|lia].
Qed.

Lemma mutation_tick_ok p : pools_ok p -> always (mutation_tick p) pools_ok.
Proof.
  intros (Hk & Hr & Hc & Hv & Hr1 & Hr2 & Hk1 & Hk2). unfold mutation_tick.
  eapply always_bind; [by apply (KeyPool_Mutate_ok (kp_minLen (p_keys p)) (kp_maxLen (p_keys p)))|]. intros ks (Hks & Hlo & Hhi).
  eapply always_bind; [by apply (KeyPool_Mutate_ok (kp_minLen (p_rowKeys p)) (kp_maxLen (p_rowKeys p)))|]. intros rs (Hrs & Hlo' & Hhi').
  eapply always_bind; [by apply ColumnPool_Mutate_ok|]. intros cs Hcs. apply always_ret. unfold pools_ok. cbn [p_keys p_rowKeys p_columns p_values].
  rewrite Hlo, Hhi, Hlo', Hhi'. done.
Qed.

Lemma NewPools_ok : always NewPools pools_ok.
Proof.
  unfold NewPools. eapply always_bind; [by apply NewKeyPool_ok|]. intros ks (Hks & Hlo & Hhi).
  eapply always_bind; [by apply NewKeyPool_ok|]. intros rs (Hrs & Hlo' & Hhi').
  eapply always_bind; [by apply NewColumnPool_ok|]. intros cs Hcs. eapply always_bind.
  { apply NewValuePool_ok; [repeat constructor; lia|done|apply Exists_cons_hd; lia|]. do 4 apply Exists_cons_tl. apply Exists_cons_hd. lia. }
  intros vs Hvs. apply always_ret. unfold pools_ok. cbn [p_keys p_rowKeys p_columns p_values]. rewrite Hlo, Hhi, Hlo', Hhi'. done.
Qed.

End letters_ok.

(** ** The statistics count the operations *)

Definition ops_sum (m : gmap bytes Z) : Z := map_fold (fun _ v total => total + v) 0 m.

Lemma i64_add_l x y : i64 (i64 x + y) = i64 (x + y).
Proof.
  unfold i64. replace ((x + 2 ^ 63) mod 2 ^ 64 - 2 ^ 63 + y + 2 ^ 63) with ((x + 2 ^ 63) mod 2 ^ 64 + y) by lia.
  rewrite Zplus_mod_idemp_l. by replace (x + 2 ^ 63 + y) with (x + y + 2 ^ 63) by lia.
Qed.

Lemma ops_sum_new op v m : m !! op = None -> ops_sum (<[op := v]> m) = ops_sum m + v.
Proof. intros Hop. unfold ops_sum. rewrite map_fold_insert_L; [done|intros; lia|done]. Qed.

Lemma total_ops_sum m : total_ops m = i64 (ops_sum m).
Proof.
  induction m as [|op v m Hop IH] using map_ind; [done|]. rewrite ops_sum_new by done. unfold total_ops in *.
  rewrite map_fold_insert_L; [by rewrite IH, i64_add_l|intros; rewrite !i64_add_l; f_equal; lia|done].
Qed.

Lemma ops_sum_split op v m : m !! op = Some v -> ops_sum m = ops_sum (delete op m) + v.
Proof. intros Hop. rewrite <- (insert_delete_id m op v Hop) at 1. apply ops_sum_new, lookup_delete_eq. Qed.

Lemma ops_sum_inc op m : ops_sum (<[op := default 0 (m !! op) + 1]> m) = ops_sum m + 1.
Proof.
  destruct (m !! op) as [v|] eqn:Hop; cbn.
  - rewrite (ops_sum_split op (v + 1)) by apply lookup_insert_eq. rewrite delete_insert_eq. rewrite (ops_sum_split op v m Hop). lia.
  - by rewrite ops_sum_new.
Qed.

Lemma ops_sum_nonneg m : map_Forall (fun _ v => 0 <= v) m -> 0 <= ops_sum m.
Proof.
  induction m as [|op v m Hop IH] using map_ind; [done|]. intros Hm. apply map_Forall_insert in Hm as [Hv Hm]; [|done]. rewrite ops_sum_new by done. specialize (IH Hm). lia.
Qed.

Section counting.
Context {G : Type} `{Histogram G}.

(** [total] operations have been counted for the namespace, and no error. *)
Definition counted (namespace : bytes) (total : Z) (fs : FuzzStats G) : Prop :=
  match fs_stats fs !! namespace with
  | None => total = 0
  | Some ns => ErrorCount ns = 0 /\ map_Forall (fun _ v => 0 <= v) (OpCount ns) /\ ops_sum (OpCount ns) = total
  end.

Lemma counted_ensure now namespace total fs : counted namespace total fs ->
  let ns := ensureNS now namespace fs in ErrorCount ns = 0 /\ map_Forall (fun _ v => 0 <= v) (OpCount ns) /\ ops_sum (OpCount ns) = total.
Proof. unfold counted, ensureNS. destruct (fs_stats fs !! namespace) as [ns|]; cbn; [done|]. intros ->. split_and!; [done|apply map_Forall_empty|done]. Qed.

Lemma counted_with namespace total ns fs : ErrorCount ns = 0 -> map_Forall (fun _ v => 0 <= v) (OpCount ns) -> ops_sum (OpCount ns) = total ->
  counted namespace total (with_ns namespace ns fs).
Proof. intros He Hm Hs. unfold counted, with_ns. cbn [fs_stats]. by rewrite lookup_insert_eq. Qed.

Lemma counted_observe now namespace total dur fs : counted namespace total fs -> counted namespace total (ObserveLatency now namespace dur fs).
Proof. intros Hc. destruct (counted_ensure now namespace total fs Hc) as (He & Hm & Hs). by apply counted_with. Qed.

Lemma counted_inc now namespace op total fs : counted namespace total fs -> total + 1 < 2 ^ 63 -> counted namespace (total + 1) (Inc now namespace op fs).
Proof.
  intros Hc Ht. destruct (counted_ensure now namespace total fs Hc) as (He & Hm & Hs). unfold Inc. set (ns := ensureNS now namespace fs) in *.
  assert (0 <= default 0 (OpCount ns !! op) <= total) as Hv.
  { destruct (OpCount ns !! op) as [v|] eqn:Hop; cbn.
    - pose proof (Hm op v Hop) as Hv. cbn in Hv. rewrite (ops_sum_split op v _ Hop) in Hs. pose proof (ops_sum_nonneg (delete op (OpCount ns))) as Hd.
      rewrite <- Hs. specialize (Hd ltac:(by apply map_Forall_delete)). lia.
    - rewrite <- Hs. split; [done|by apply ops_sum_nonneg]. }
  apply counted_with; cbn [ErrorCount OpCount]; [done| |].
  - apply map_Forall_insert_2; [|done]. rewrite i64_small by lia. lia.
  - rewrite i64_small by lia. rewrite ops_sum_inc. lia.
Qed.

Lemma counted_snapshot now namespace total fs : counted namespace total fs -> counted namespace total (fst (Snapshot now fs)).
Proof. unfold counted, Snapshot. cbn [fst fs_stats]. rewrite lookup_fmap. by destruct (fs_stats fs !! namespace). Qed.

(** A request for the statistics moves the point from which the monitor counts:
    a tick that follows it before the next operation ends the process. *)
Lemma stats_request_stops_the_fuzzer now now' fs : fs_stats fs <> ∅ ->
  monitor_tick now' (fst (ServeHTTP now fs)) = Panic.
Proof.
  intros Hne. unfold monitor_tick, ServeHTTP, Snapshot. cbn [fst fs_startTime fs_stats]. destruct (map_choose (fs_stats fs) Hne) as (ns & x & Hx).
  assert (existsb (fun y => stalled (snd y)) (map_to_list (snapshot_ns (fs_startTime fs) now' <$> (after_snapshot now <$> fs_stats fs))) = true) as ->; [|done].
  apply existsb_exists. exists (ns, snapshot_ns (fs_startTime fs) now' (after_snapshot now x)). split.
  - apply list_elem_of_In, elem_of_map_to_list. by rewrite !lookup_fmap, Hx.
  - unfold stalled, snapshot_ns, after_snapshot. cbn. rewrite Z.sub_diag. done.
Qed.
End counting.

(** ** The engine under the fuzzer *)

(** The write that a round makes; none for a read. *)
Definition work_call (x : Round) (d : Drawn) : option write_call :=
  let columns := r_order x (map_to_list (d_columns d)) in
  match d_op d with
  | FPutKV => Some (CallPut (take 1 (d_keys d)) (take 1 (d_values d)))
  | FBatchPutKV => Some (CallPut (d_keys d) (d_values d))
  | FDeleteKV => Some (CallDelete (take 1 (drop 1 (d_keys d))))
  | FBatchDeleteKV => Some (CallDelete (d_keys d))
  | FPutColumnsForRow => Some (CallSetCells [d_rowKey d] [columns])
  | FDeleteColumnsForRow => Some (CallDeleteCells [d_rowKey d] [columns])
  | FGetKV | FGetRowColumns => None
  end.

Section fuzz.
Context {L F W R D : Type} `{SkipListLaws L} `{BloomLaws F} `{WalLaws W R} `{BTreeLaws D} `{FlatBuffersLaws}.
Context (rows_ok : nat -> Prop).
Context {G : Type} `{Histogram G}.
Context (LetterN : Z -> M bytes) (LetterN_law : forall n, 0 <= n -> always (LetterN n) (fun s => blen s = n)).
Notation Engine := (Engine L F W D).
Notation Fuzzing := (Fuzzing L F W D G).
Notation fits := (fits (L := L) (F := F)).

Lemma charset_untyped k : key_in 5 256 k -> typed KeyTypeWideColumn k = false.
Proof.
  intros [_ HP]. destruct k as [|b k]; [done|]. apply Forall_cons in HP as [Hb _]. unfold typed. apply bool_decide_false. intros ->.
  revert Hb. by apply (bool_decide_unpack (KeyTypeWideColumn ∉ charset)).
Qed.

Lemma row_of_key k : key_in 5 256 k -> row_key (KeyCodec.RowKey k).
Proof.
  intros Hk. exists k. unfold KeyCodec.RowKey. rewrite (charset_untyped k Hk). split; [|done]. destruct Hk as [Hk _]. unfold short. lia.
Qed.

(** What is asked of a round: clocks in range, an order that is one, and entries
    that fit a table. *)
Definition round_ok (arena : Z) (x : Round) (d : Drawn) : Prop :=
  0 <= r_hlc x < 2 ^ 64 /\ (forall i, 0 <= r_now x i < 2 ^ 63) /\ (forall l, r_order x l ≡ₚ l) /\
  forall c, work_call x d = Some c -> Forall (fits arena) (call_puts c).

Lemma work_call_ok getOPs arena x d c : drawn_ok getOPs d -> round_ok arena x d -> work_call x d = Some c ->
  call_ok (L := L) (F := F) rows_ok arena c /\ (length (call_ops c) <= 3)%nat.
Proof.
  intros (Hlk & Hk & Hlv & Hv & Hrow & Hs & Hc & Hop) (_ & _ & Hord & Hfit) Hw. specialize (Hfit c Hw).
  assert (NoDup (r_order x (map_to_list (d_columns d))).*1) as Hnd by (rewrite Hord; apply NoDup_fst_map_to_list).
  pose proof (row_of_key _ Hrow) as Hrk. destruct (d_keys d) as [|k0 [|k1 [|k2 [|]]]] eqn:Ek; try done. destruct (d_values d) as [|v0 [|v1 [|v2 [|]]]] eqn:Ev; try done.
  unfold work_call in Hw. rewrite Ek, Ev in Hw. destruct (d_op d); cbn [take drop] in Hw; try done; injection Hw as <-; (split; [split; [done|]|cbn; lia]); try done;
    repeat split; try done; by repeat constructor.
Qed.

Lemma run_op_write getOPs x d (e : Engine) c : drawn_ok getOPs d -> work_call x d = Some c -> run_op x d e = run_write (r_hlc x) (r_now x) e c.
Proof.
  intros (Hlk & _ & Hlv & _) Hw. destruct (d_keys d) as [|k0 [|k1 [|k2 [|]]]] eqn:Ek; try done. destruct (d_values d) as [|v0 [|v1 [|v2 [|]]]] eqn:Ev; try done.
  unfold work_call in Hw. unfold run_op. rewrite Ek, Ev in Hw. rewrite ?Ek, ?Ev. destruct (d_op d); cbn [take drop] in Hw; try done; injection Hw as <-; reflexivity.
Qed.

Lemma sim_GetRowColumns n Lg (e : Engine) ts a row predicate : sim rows_ok n Lg e ts a -> row_key (KeyCodec.RowKey row) ->
  exists r, GetRowColumns e row predicate = Ret r.
Proof.
  intros (opss & md & (base & tabs & act & Hc & Hw) & Hm & _ & _ & Hsd) Hrow.
  destruct (GetRowColumns_spec rows_ok n e Lg opss base tabs act md Hc Hsd row predicate Hrow) as (r & Hr & _). by exists r.
Qed.

Lemma run_op_read getOPs n Lg x d (e : Engine) ts a : sim rows_ok n Lg e ts a -> drawn_ok getOPs d -> work_call x d = None -> exists err, run_op x d e = Ret (e, err).
Proof.
  intros Hs (Hlk & _ & _ & _ & Hrow & _) Hw. destruct (d_keys d) as [|k0 [|k1 [|k2 [|]]]] eqn:Ek; try done. unfold work_call in Hw. unfold run_op. rewrite ?Ek.
  destruct (d_op d); try done; cbn [at_ lookup list_lookup mbind outcome_bind].
  - destruct (sim_GetKV rows_ok n Lg e ts a k0 Hs) as [->|(z & _ & ->)]; cbn [mbind outcome_bind]; by eexists.
  - destruct (sim_GetRowColumns n Lg e ts a (d_rowKey d) (Some (r_pred x)) Hs (row_of_key _ Hrow)) as [r ->]. cbn [mbind outcome_bind]. by eexists.
Qed.

Context (getOPs : bool) (namespace : bytes).

Definition fuzz_ok (n : nat) (Lg : wal_log) (s : Fuzzing) (a : astate) (total : Z) : Prop :=
  sim rows_ok n Lg (fz_engine s) [] a /\ pools_ok (fz_pools s) /\ match fz_stats s with Some fs => counted namespace total fs | None => True end.

(** What is asked of an event; the background work of the engine is a flush with
    enough fuel or a sync. *)
Definition event_ok (ev : fuzz_event) (s : Fuzzing) : Prop :=
  match ev with
  | Work x => forall r d, draw LetterN getOPs (fz_pools s) (fz_rand s) = Ret (r, d) -> round_ok (ArenaSize (fz_engine s)) x d
  | Background (DoFlush fuel order) => (forall n Lg a, sim rows_ok n Lg (fz_engine s) [] a -> (length Lg < fuel)%nat) /\ (forall l, order l ≡ₚ l)
  | Background DoSync => True
  | Background _ => False
  | _ => True
  end.

(** When an event ends the process: a monitor that finds a namespace without
    progress, or a flush or sync whose store fails. *)
Definition ends (ev : fuzz_event) (s : Fuzzing) : Prop :=
  match ev with
  | MonitorTick now => exists fs ns x, fz_stats s = Some fs /\ snd (Snapshot now fs) !! ns = Some x /\ stalled x = true
  | Background c => stops c (fz_engine s)
  | _ => False
  end.

Definition work_of (ev : fuzz_event) : nat := match ev with Work _ => 1 | _ => 0 end.

(** The map after the writes of some rounds. *)
Definition wrote (a : astate) (cs : list write_call) (a' : astate) : Prop :=
  a_map a' = foldl a_queued (a_map a) (concat (call_ops <$> cs)) /\ Forall (fun c => exists x d, drawn_ok getOPs d /\ work_call x d = Some c) cs.

Lemma wrote_nothing a : wrote a [] a.
Proof. by split. Qed.

Lemma wrote_more a cs a' cs' a'' : wrote a cs a' -> wrote a' cs' a'' -> wrote a (cs ++ cs') a''.
Proof.
  intros [Hm HP] [Hm' HP']. split; [|by apply Forall_app]. by rewrite Hm', Hm, fmap_app, concat_app, foldl_app.
Qed.

Lemma work_step x n Lg s a total : fuzz_ok (4 + n) Lg s a total -> event_ok (Work x) s -> total + 1 < 2 ^ 63 ->
  exists s' a' Lg' cs, fuzz_step LetterN getOPs namespace (Work x) s = Ret s' /\ fuzz_ok n Lg' s' a' (total + 1) /\ wrote a cs a' /\ (length cs <= 1)%nat.
Proof.
  intros (Hs & Hp & Hc) Hok Ht. destruct (draw_ok LetterN LetterN_law getOPs (fz_pools s) Hp (fz_rand s)) as (r & d & Hd & Hdok). specialize (Hok r d Hd).
  cbn [fuzz_step]. unfold executeRandomOp. rewrite Hd. cbn [mbind outcome_bind].
  assert (exists e err a' Lg' cs, run_op x d (fz_engine s) = Ret (e, err) /\ sim rows_ok n Lg' e [] a' /\ wrote a cs a' /\ (length cs <= 1)%nat)
    as (e & err & a' & Lg' & cs & -> & Hs' & Hw & Hl).
  { destruct (work_call x d) as [c|] eqn:Hcall.
    - destruct (work_call_ok getOPs _ x d c Hdok Hok Hcall) as [Hcok Hlen]. rewrite (run_op_write getOPs x d _ c Hdok Hcall).
      assert (sim rows_ok (call_cost a (DoWrite (r_hlc x) (r_now x) c) + n) Lg (fz_engine s) [] a) as Hs0.
      { apply (sim_weaken rows_ok (3 - length (call_ops c))). cbn [call_cost]. by replace (3 - length (call_ops c) + (S (length (call_ops c)) + n))%nat with (4 + n)%nat by lia. }
      destruct Hok as (Hh & Hn & _). destruct (simulates_call rows_ok n Lg (fz_engine s) [] a _ Hs0 (conj Hcok (conj Hh Hn))) as [[_ []]|(e & ts & err & a' & Lg' & Hrun & Hstep & Hs' & _)].
      cbn [run_call] in Hrun. destruct (run_write _ _ _ c) as [[e1 err1]| |]; cbn [mbind outcome_bind] in Hrun; try done. injection Hrun as <- <- <-.
      exists e1, err1, a', Lg'. inversion Hstep; subst.
      + exists [c]. split; [done|]. split; [done|]. split; [split; [by cbn; rewrite app_nil_r|repeat constructor; by exists x, d]|done].
      + exists []. split; [done|]. split; [done|]. split; [apply wrote_nothing|cbn; lia].
    - destruct (run_op_read getOPs (4 + n) Lg x d (fz_engine s) [] a Hs Hdok Hcall) as [err ->]. exists (fz_engine s), err, a, Lg, [].
      split; [done|]. split; [by apply (sim_weaken rows_ok 4)|]. split; [apply wrote_nothing|cbn; lia]. }
  cbn [mbind outcome_bind]. eexists _, a', Lg', cs. split; [done|]. split; [|done]. split; [done|]. split; [done|]. cbn [fz_stats].
  destruct (fz_stats s) as [fs|]; [|done]. by apply counted_inc; [apply counted_observe|].
Qed.

Lemma fuzz_step_ok ev n Lg s a total : fuzz_ok (4 * work_of ev + n) Lg s a total -> event_ok ev s -> total + Z.of_nat (work_of ev) < 2 ^ 63 ->
  (fuzz_step LetterN getOPs namespace ev s = Panic /\ ends ev s) \/
  exists s' a' Lg' cs, fuzz_step LetterN getOPs namespace ev s = Ret s' /\ fuzz_ok n Lg' s' a' (total + Z.of_nat (work_of ev)) /\ wrote a cs a' /\ (length cs <= work_of ev)%nat.
Proof.
  intros Hok Hev Ht. destruct ev as [x| |now|now|c]; cbn [work_of] in *; try rewrite Z.add_0_r in *; try (change (4 * 0 + n)%nat with n in Hok).
  - right. by apply work_step with (Lg := Lg).
  - destruct Hok as (Hs & Hp & Hc). destruct (mutation_tick_ok (fz_pools s) Hp (fz_rand s)) as (r & p & Hm & Hp'). right. cbn [fuzz_step]. rewrite Hm. cbn [mbind outcome_bind].
    eexists _, a, Lg, []. split; [done|]. split; [by split|]. split; [apply wrote_nothing|done].
  - destruct Hok as (Hs & Hp & Hc). right. eexists _, a, Lg, []. split; [done|]. split; [|split; [apply wrote_nothing|done]]. split; [done|]. split; [done|]. cbn.
    destruct (fz_stats s) as [fs|]; [|done]. by apply counted_snapshot.
  - destruct Hok as (Hs & Hp & Hc). cbn [fuzz_step]. destruct (fz_stats s) as [fs|] eqn:Hfs.
    2: { right. exists s, a, Lg, []. split; [done|]. split; [split; [done|]; split; [done|]; by rewrite Hfs|]. split; [apply wrote_nothing|done]. }
    unfold monitor_tick, Snapshot. match goal with |- context [if ?b then _ else _] => destruct b eqn:Hex end.
    + left. split; [done|]. apply existsb_exists in Hex as ([ns x] & Hin & Hx). apply list_elem_of_In, elem_of_map_to_list in Hin. by exists fs, ns, x.
    + right. cbn [mbind outcome_bind]. eexists _, a, Lg, []. split; [done|]. split; [|split; [apply wrote_nothing|done]]. split; [done|]. split; [done|]. by apply (counted_snapshot now).
  - destruct Hok as (Hs & Hp & Hc). cbn [fuzz_step]. destruct c as [| | | | |fuel order|]; try done.
    + destruct Hev as [Hfuel Hord]. specialize (Hfuel _ _ _ Hs). cbn [run_call].
      destruct (sim_flush rows_ok n Lg (fz_engine s) [] a fuel order Hs Hfuel Hord) as [[-> Hst]|(e & -> & Hs')]; [by left|].
      right. eexists _, a, Lg, []. split; [done|]. split; [by split|]. split; [apply wrote_nothing|done].
    + cbn [run_call]. destruct (sim_sync rows_ok n Lg (fz_engine s) [] a Hs) as [[-> Hst]|(e & -> & Hs')]; [by left|].
      right. eexists _, a, Lg, []. split; [done|]. split; [by split|]. split; [apply wrote_nothing|done].
Qed.

(** The events of a run are in order, as far as it gets. *)
Fixpoint ready (evs : list fuzz_event) (s : Fuzzing) : Prop :=
  match evs with
  | [] => True
  | ev :: evs => event_ok ev s /\ forall s', fuzz_step LetterN getOPs namespace ev s = Ret s' -> ready evs s'
  end.

Definition works (evs : list fuzz_event) : nat := sum_list (work_of <$> evs).

End fuzz.

(** ** An example *)

Section example.
#[local] Existing Instance demo_codec.
#[local] Existing Instance demo_codec_laws.

(** A histogram that only counts. *)
#[local] Instance count_histogram : Histogram Z := {| h_New := 0; h_RecordValue h _ := h + 1; h_Count h := h; h_ValueAtQuantile _ _ := 0 |}.

Definition letters (n : Z) : M bytes := times n (mret Byte.x61).

Lemma letters_law n : 0 <= n -> always (letters n) (fun s => blen s = n).
Proof. intros Hn. eapply always_mono; [|by apply (always_times _ (fun _ => True)); [done|apply always_ret]]. by intros s [Hs _]. Qed.


Notation SampleEngine := (Engine map_list (list bytes) WalWorld (BoltWorld kvmap)).

Definition small_pools : Pools :=
  mkPools (mkKeyPool (replicate 10 (str "aaaaa")) 10 5 256) (mkKeyPool (replicate 10 (str "rowrow")) 10 5 256)
    (mkColumnPool (replicate 5 (str "colaaaa")) 5) (mkValuePool [str "v"] [replicate 2049 Byte.x00]).

Definition plain_round : Round := mkRound 1 (fun _ => 7) (fun l => l) (fun _ => true) 0 5.
Definition plain_rand : Rand := mkRand (fun _ => 1) 0.

Lemma small_pools_ok : pools_ok small_pools.
Proof.
  assert (forall k, forallb (fun b => bool_decide (b ∈ charset)) k = true -> 5 <= blen k <= 256 -> key_in 5 256 k) as Hk.
  { intros k Hk Hl. split; [done|]. apply Forall_forall. intros b Hb. rewrite forallb_forall in Hk. apply list_elem_of_In in Hb. specialize (Hk b Hb). by apply bool_decide_eq_true in Hk. }
  unfold pools_ok, keys_ok, columns_ok, values_ok. cbn [small_pools p_keys p_rowKeys p_columns p_values kp_keys kp_size kp_minLen kp_maxLen cp_columns cp_size smallValues largeValues].
  split_and!; try done; try (apply Forall_replicate; apply Hk; [by vm_compute|by split; vm_compute]).
  - apply Forall_replicate. exists (str "aaaa"). split; [done|]. destruct (Hk (str "aaaaa")) as [_ HP]; [by vm_compute|by split; vm_compute|]. split; [by split; vm_compute|]. by apply Forall_cons in HP as [_ HP].
  - by repeat constructor; vm_compute.
  - repeat constructor; by vm_compute.
Qed.

Lemma plain_draw :
  match draw letters false small_pools plain_rand with
  | Ret (_, d) => d_op d = FBatchPutKV /\ d_keys d = replicate 3 (str "aaaaa") /\ d_values d = replicate 3 (str "v")
  | _ => False
  end.
Proof. vm_compute. done. Qed.

End example.
