(* ===== verification/EngineLimits.v ===== *)
(** Where the engine does less than it should: inputs and failures after which
    it cannot flush, sync, recover or replicate any more. *)

From stdpp Require Import prelude list numbers gmap sorting.
From Stdlib Require Import ZArith Lia.
From S2P Require Import Prelude Bytes Segment KeyCodec KVKeys KVStore KVBolt KVLmdb KVSpec KVReads KVQueue KVQueueFacts Overlay BTree BTreeLmdb.
From S2P Require Import LogCodec WalIO WalIOFacts TxnLog MemTable MemTableFacts FlushFacts FlushSpec Notify Engine Txn Recovery Replica LogMeaning EngineFacts EngineWrites.

Section limits.
Context {L F W R D : Type} `{SkipListLaws L} `{BloomLaws F} `{WalLaws W R} `{BTreeStore D} `{FlatBuffersLaws}.
Notation Engine := (Engine L F W D).

(** ** A table without a position *)

Lemma Flush_table fuel w ctx order (t t' : MemTable L F) (d d' : D) r : Flush fuel w ctx order t d = Ret (t', d', r) -> lastOffset t' = lastOffset t.
Proof.
  unfold Flush. destruct (flush_values _ _ _ _ _ _ _ _) as [[[[[? ?] ?] ?] ?]| |]; [|done..]. cbn [mbind outcome_bind].
  destruct (flush_rows _ _ _ _ _ _ _) as [[[[? ?] ?] [|]]| |]; cbn [mbind outcome_bind]; try done; try (by injection 1 as <- <- <-); try (by injection 1 as <-).
  all: destruct (ds_txn _ _ _) as [[[? ?] [|]]| |]; cbn [mbind outcome_bind]; try done; by injection 1 as <- <- <-.
Qed.

(** A record whose entries fill a whole table leaves it without a position in
    the log: the position is set on the table that is active when the record is
    complete.  Once such a table has been flushed, the next sync dereferences
    the missing position. *)
Theorem table_without_position_stops_sync fuel ctx order (e e' : Engine) mt rest : flushPaused e = false -> sealedMemTables e = mt :: rest ->
  IsEmpty mt = false -> lastOffset mt = None -> handleFlush fuel ctx order e = Ret e' -> fSyncStore e' = Panic.
Proof.
  intros Hp Hse Hem Hoff. unfold handleFlush. rewrite Hp, Hse, Hem. destruct (Flush _ _ _ _ _ _) as [[[mt' d'] [z|x]]| |] eqn:Hf; [|done..]. cbn [mbind outcome_bind].
  apply Flush_table in Hf. unfold GetLastOffset. rewrite Hf, Hoff. intros [= <-]. unfold fSyncStore.
  destruct (btreeFlushIntervalEnabled _); cbn; rewrite Hp, last_snoc; done.
Qed.

(** ** An entry larger than a table *)

(** The entry is refused, but the empty table has been sealed; flushing looks at
    the oldest sealed table only and never removes an empty one. *)
Theorem oversized_entry_blocks_flushing now (e : Engine) key v : sealedMemTables e = [] -> activeMemTable e = NewMemTable (ArenaSize e) ->
  canPut (NewMemTable (L := L) (F := F) (ArenaSize e)) key v = false ->
  exists e' err, memTableWrite now e key v = Ret (e', Some err) /\ sealedMemTables e' = [NewMemTable (ArenaSize e)] /\
    forall fuel ctx order e2 rest, sealedMemTables e2 = NewMemTable (ArenaSize e) :: rest -> handleFlush fuel ctx order e2 = Ret e2.
Proof.
  intros Hse Hact Hcan. unfold memTableWrite, rotateMemTable. cbn [activeMemTable with_signals with_tables]. rewrite Hact, Hse. unfold Put. rewrite Hcan. cbn [negb mbind outcome_bind].
  eexists _, _. split; [done|]. split; [done|]. intros fuel ctx order e2 rest He2. unfold handleFlush. destruct (flushPaused e2); [done|]. rewrite He2.
  assert (IsEmpty (NewMemTable (L := L) (F := F) (ArenaSize e)) = true) as ->; [|done].
  unfold IsEmpty, NewMemTable. cbn [skipList]. rewrite skl_Empty_law. by destruct (skl_New_law (ArenaSize e)) as [-> _].
Qed.

(** ** A replica whose log fails once *)

Lemma next_differs x : u64 (u64 x + 1) <> u64 x.
Proof. unfold u64. intros Heq. pose proof (Z.mod_pos_bound x (2 ^ 64) ltac:(lia)). destruct (Z.eq_dec (x mod 2 ^ 64) (2 ^ 64 - 1)) as [E|E]; [rewrite E in Heq; discriminate Heq|]. rewrite Z.mod_small in Heq; lia. Qed.

(** The counter has moved although the record is not in the log: the same record,
    sent again, is refused. *)
Theorem failed_append_blocks_replication fuel now (e : Engine) w d p r x : GetRootAsLogRecord d = Ret r -> fb_lsn r = nextLSN e -> Offset p <> 0 ->
  wl_Append (walIO e) d = Ret (w, Err x) ->
  exists e', ApplyRecord fuel now e d p = Ret (e', Some (EWal x)) /\ forall fuel' now', ApplyRecord fuel' now' e' d p = Ret (e', Some ErrInvalidLSN).
Proof.
  intros Hr Hlsn Hp Hw. apply Z.eqb_neq in Hp. eexists. unfold ApplyRecord. rewrite Hp, Hr. cbn [mbind outcome_bind]. rewrite Hlsn, Z.eqb_refl. cbn [negb].
  unfold append_record. cbn [walIO with_counter]. rewrite Hw. split; [done|]. intros fuel' now'.
  assert ((nextLSN (with_wal w (with_counter (nextLSN e) e)) =? nextLSN e) = false) as ->; [|done].
  apply Z.eqb_neq. unfold nextLSN. cbn. apply next_differs.
Qed.

(** ** How a transaction is counted *)

Fixpoint append_all (hlc : Z) (kvs : list (bytes * bytes)) (e : Engine) (t : Txn) : outcome (Engine * Txn * option engine_error) :=
  match kvs with
  | [] => Ret (e, t, None)
  | (key, value) :: rest =>
      '(e, t, err) ← AppendKVTxn hlc e t key value;
      match err with Some _ => Ret (e, t, err) | None => append_all hlc rest e t end
  end.

Lemma u64_next c k : u64 (u64 c + k) = u64 (c + k).
Proof. unfold u64. by rewrite Z.add_mod_idemp_l. Qed.

Lemma append_tables (e e' : Engine) d r : append_record e d = Ret (e', r) ->
  writeSeenCounter e' = writeSeenCounter e /\ activeMemTable e' = activeMemTable e /\ sealedMemTables e' = sealedMemTables e.
Proof. unfold append_record. destruct (wl_Append _ _) as [[w r']| |]; [|done..]. by injection 1 as <- <-. Qed.

Lemma append_all_counts hlc kvs : forall (e e' : Engine) t t', append_all hlc kvs e t = Ret (e', t', None) -> t_err t = None ->
  txnOperation t = LogOperationTypeInsert -> txnEntryType t = LogEntryTypeKV ->
  u64 (writeSeenCounter e') = u64 (writeSeenCounter e + blen kvs) /\ activeMemTable e' = activeMemTable e /\ sealedMemTables e' = sealedMemTables e /\
  blen (memTableEntries t') = blen (memTableEntries t) + blen kvs /\ t_err t' = None /\ txnEntryType t' = LogEntryTypeKV.
Proof.
  induction kvs as [|[key value] kvs IH]; intros e e' t t' Hrun He Hop Het.
  - injection Hrun as <- <-. change (blen (@nil (bytes * bytes))) with 0. rewrite !Z.add_0_r. done.
  - cbn [append_all] in Hrun. unfold AppendKVTxn in Hrun. rewrite He, Het, Hop in Hrun. cbn [Z.eqb LogEntryTypeKV LogEntryTypeRow LogEntryTypeChunked LogOperationTypeInsert Pos.eqb negb andb txnEntryType txnOperation] in Hrun.
    destruct (append_record _ _) as [[e1 [p|x]]| |] eqn:Ha; [| |done..]; cbn [mbind outcome_bind] in Hrun; [|done]. apply append_tables in Ha as (Hc & Hact & Hse). cbn in Hc, Hact, Hse.
    apply IH in Hrun as (Hc' & Hact' & Hse' & Hlen & Herr & Het'); [|done..]. rewrite Hc', Hact', Hse', Hact, Hse, Hlen, Hc. cbn [memTableEntries].
    unfold nextLSN, blen. rewrite length_app. cbn [length]. split_and!; try done; [|lia]. rewrite u64_next. f_equal. lia.
Qed.

Lemma put_counts now (t t' : MemTable L F) key v err : Put now t key v = Ret (t', err) -> offsetCount t' = offsetCount t.
Proof.
  unfold Put. destruct (canPut t key v); cbn [negb]; [|by injection 1 as <- <-]. destruct (UserMeta v =? EntryTypeRow); cbv zeta;
    (match goal with |- context [skl_Put ?a ?b ?c] => destruct (skl_Put a b c) end); cbn [mbind outcome_bind]; try done; by injection 1 as <- <-.
Qed.

(** Without a rotation every entry of a transaction counts once. *)
Lemma commit_writes_count puts : forall now (e e' : Engine), mem_writes writeNilOffset now e puts = Ret (e', None) ->
  (length (sealedMemTables e) <= length (sealedMemTables e'))%nat /\ writeSeenCounter e' = writeSeenCounter e /\
  (sealedMemTables e' = sealedMemTables e -> offsetCount (activeMemTable e') = offsetCount (activeMemTable e) + blen puts).
Proof.
  induction puts as [|[key v] puts IH]; intros now e e' Hrun.
  - injection Hrun as <-. change (blen (@nil put)) with 0. split_and!; [done|done|]. intros _. lia.
  - cbn [mem_writes] in Hrun. unfold memTableWrite in Hrun. destruct (Put (now 0%nat) (activeMemTable e) key v) as [[t [[]|]]| |] eqn:HP; cbn [mbind outcome_bind] in Hrun; [| |done..].
    + destruct (Put _ _ _ _) as [[t2 [x|]]| |] in Hrun; cbn [mbind outcome_bind] in Hrun; [done| |done..]. apply IH in Hrun as (Hlen & Hc & _). cbn in Hlen, Hc. rewrite length_app in Hlen. cbn in Hlen.
      split_and!; [lia|done|]. intros Heq. rewrite Heq in Hlen. lia.
    + apply IH in Hrun as (Hlen & Hc & Hcnt). cbn in Hlen, Hc, Hcnt. split_and!; [done|done|]. intros Heq. rewrite (Hcnt Heq), (put_counts _ _ _ _ _ _ HP). unfold blen. cbn [length]. lia.
Qed.

(** A transaction with [k] values takes [k + 2] numbers, one for each of its
    records, but adds only [k + 1] to the count that its table reports when it is
    flushed.  That count is what the checkpoint stores and what the numbering
    starts from after a restart: numbers are used again. *)
Theorem transactions_lose_a_number hlc now id kvs (e e1 e2 e3 : Engine) t1 t2 t3 : NewTxn (Some id) hlc e LogOperationTypeInsert LogEntryTypeKV = Ret (e1, Ok t1) ->
  append_all hlc kvs e1 t1 = Ret (e2, t2, None) -> Commit hlc now e2 t2 = Ret (e3, t3, None) -> sealedMemTables e3 = sealedMemTables e ->
  u64 (writeSeenCounter e3) = u64 (writeSeenCounter e + (blen kvs + 2)) /\
  offsetCount (activeMemTable e3) = offsetCount (activeMemTable e) + (blen kvs + 1).
Proof.
  intros Hn Ha Hc Hse. unfold NewTxn in Hn. destruct (readOnly e); [done|]. cbn [Z.eqb LogOperationTypeInsert LogOperationTypeNoOperation LogOperationTypeDelete Pos.eqb andb] in Hn.
  destruct (append_record _ _) as [[e0 [p|x]]| |] eqn:Hap; cbn [mbind outcome_bind] in Hn; [|done..]. injection Hn as <- <-. apply append_tables in Hap as (Hc0 & Ha0 & Hs0). cbn in Hc0, Ha0, Hs0.
  apply append_all_counts in Ha as (Hc2 & Ha2 & Hs2 & Hlen & Herr & Het); [|done..]. cbn [memTableEntries] in Hlen. change (blen (@nil (bytes * ValueStruct))) with 0 in Hlen.
  unfold Commit in Hc. rewrite Herr in Hc. destruct (append_record _ _) as [[e4 [q|x]]| |] eqn:Hap; cbn [mbind outcome_bind] in Hc; [|done..]. apply append_tables in Hap as (Hc4 & Ha4 & Hs4). cbn in Hc4, Ha4, Hs4.
  cbn [txnEntryType] in Hc. rewrite Het in Hc. cbn [Z.eqb LogEntryTypeKV orb] in Hc. unfold memWriteFull in Hc. cbn [memTableEntries prevOffset] in Hc.
  destruct (mem_writes _ _ _ _) as [[e5 [x|]]| |] eqn:Hm; cbn [mbind outcome_bind] in Hc; [done| |done..]. apply commit_writes_count in Hm as (_ & Hc5 & Ho5).
  unfold writeOffset in Hc. destruct (notifyAppend _) as [nf| |]; cbn [mbind outcome_bind] in Hc; [|done..]. injection Hc as <- _. cbn in Hse |- *.
  rewrite Hc5, Hc4. split.
  - unfold nextLSN. rewrite <- (Z.add_0_r (u64 (writeSeenCounter e2 + 1))), u64_next, Z.add_0_r, <- (u64_next (writeSeenCounter e2)), Hc2, u64_next, Hc0.
    unfold nextLSN. rewrite <- Z.add_assoc, u64_next. f_equal. lia.
  - rewrite Ho5 by congruence. rewrite Ha4, Ha2, Ha0, Hlen. lia.
Qed.

(** ** A batch of nothing *)

(** The store refuses a batch without keys. *)
Hypothesis (Hrefuse : forall d : D, exists d', ds_call d (OBatchSetKV [] []) = Ret (d', Some ErrInvalidArguments)).

(** Writing it succeeds and leaves a record in the log; recovery cannot replay
    that record, and the engine does not open any more. *)
Theorem empty_batch_blocks_recovery hlc now (e : Engine) w q fuel : readOnly e = false -> shutdown e = false -> 0 <= hlc < 2 ^ 64 -> notifier_ok (notifier e) ->
  let d := FBEncode (mkLogRecord (nextLSN e) hlc 0 LogOperationTypeInsert TransactionStateNone LogEntryTypeKV [] [] []) 512 in
  wl_Append (walIO e) d = Ret (w, Ok q) ->
  exists e' r, BatchPutKV hlc now e [] [] = Ret (e', None) /\ walIO e' = w /\ GetRootAsLogRecord d = Ret r /\
    forall wr, exists wr', Recovery.handleRecord fuel r wr = Ret (wr', Some (RecStore ErrInvalidArguments)).
Proof.
  intros Hro Hsd Hh Hn d Hw. unfold BatchPutKV, unless_closing, persistKeyValue. rewrite Hsd, Hro. cbn [fmap list_fmap kv_entries kv_puts mbind outcome_bind].
  unfold append_record. cbn [walIO with_counter writeSeenCounter hintSize foldr]. fold d. rewrite Hw. cbn [mbind outcome_bind mem_writes].
  destruct (notifyAppend_ok _ Hn) as (nf & Hnf & _). unfold writeOffset. cbn [notifier with_tables with_wal with_counter]. rewrite Hnf. cbn [mbind outcome_bind].
  eexists _, _. split; [done|]. split; [done|]. split.
  - apply root_of_record. pose proof (nextLSN_range e). unfold record_fits. cbn. repeat split; first [lia|by vm_compute|tauto].
  - intros wr. unfold Recovery.handleRecord, Recovery.handleInsert. rewrite record_of_fb. cbn [fb_of_record fb_txn_state fb_operation_type fb_entry_type]. cbn [Z.eqb TransactionStateNone LogOperationTypeInsert Pos.eqb LogEntryTypeKV Entries kv_list mbind outcome_bind].
    unfold wr_call. cbn [wr_store counted]. destruct (Hrefuse (wr_store wr)) as [d' Hd']. cbn [fmap list_fmap]. rewrite Hd'. by eexists.
Qed.
End limits.

Lemma bolt_refuses {B : Type} `{BoltLaws B} (d : BoltWorld B) : exists d', ds_call d (OBatchSetKV [] []) = Ret (d', Some ErrInvalidArguments).
Proof. by eexists. Qed.

Lemma lmdb_refuses {T : Type} `{LmdbLaws T} (d : LmdbWorld T) : exists d', @ds_call _ lmdb_store d (OBatchSetKV [] []) = Ret (d', Some ErrInvalidArguments).
Proof. by eexists. Qed.
