(* ===== verification/GrpcStats.v ===== *)
(** What the server tells about its calls: internal/grpcutils/stats_handler.go and
    internal/grpcutils/stateful_interceptor.go.

    A gauge or counter is a map from its labels to a number, a histogram the list
    of its observations, and a log line its event type.  A call of the handler is
    one step: its operations on the metrics are atomic and those of different
    calls commute. *)

From stdpp Require Import prelude list numbers gmap.
From Stdlib Require Import ZArith Lia.
From S2P Require Import Prelude Bytes WalIO Paths GrpcUtils.
Import Stdlib.Strings.String.StringSyntax.

(** ** The handler *)

(** Service, method and type of a call. *)
Abbreviation labels := (bytes * bytes * stream_kind)%type.

Record streamInfo := mkInfo { si_service : bytes; si_method : bytes; si_start : Z; si_streamType : stream_kind }.

Record GRPCStatsHandler := mkStats {
  activeStreamsMap : gmap bytes streamInfo;
  activeStreamCount : gmap labels Z;
  streamAgeBucket : gmap (labels * bytes) Z;
  methodInfo : gmap bytes stream_kind;
  activeConn : Z;
  connTotalCount : Z;
  rpcHandled : gmap labels Z;
  rpcDuration : list (labels * Z);
  rpcInFlight : gmap labels Z;
  rpcErrorCounter : gmap (labels * bytes) Z;
  connDuration : list Z
}.

Definition NewGRPCStatsHandler (methodInfo : gmap bytes stream_kind) : GRPCStatsHandler := mkStats ∅ ∅ ∅ methodInfo 0 0 ∅ [] ∅ ∅ [].

(** WithLabelValues(...).Add *)
Definition add_to `{Countable K} (l : K) (d : Z) (v : gmap K Z) : gmap K Z := <[l := default 0 (v !! l) + d]> v.

(** What [TagRPC] puts into the context of a call. *)
Record RPCTag := mkTag { rpcService : bytes; rpcMethod : bytes; rpcID : bytes }.

Definition TagRPC (fresh fullMethodName : bytes) : RPCTag :=
  let '(service, method) := parseFullMethodName fullMethodName in mkTag service method fresh.

(** An error of a call: one with a status, or any other. *)
Inductive call_error := EStatus (s : status) | EPlain.

Definition code_String (c : code) : bytes :=
  match c with
  | Canceled => str "Canceled" | Unknown => str "Unknown" | InvalidArgument => str "InvalidArgument" | DeadlineExceeded => str "DeadlineExceeded"
  | NotFound => str "NotFound" | ResourceExhausted => str "ResourceExhausted" | FailedPrecondition => str "FailedPrecondition" | Aborted => str "Aborted"
  | Internal => str "Internal" | Unavailable => str "Unavailable" | DataLoss => str "DataLoss"
  end.

Definition getStatusCode (err : option call_error) : bytes :=
  match err with
  | None => str "OK"
  | Some (EStatus s) => code_String (Code s)
  | Some EPlain => code_String Unknown
  end.

Definition graceful (err : call_error) : bool := match err with EStatus s => isGracefulShutdown s | EPlain => false end.

Inductive RPCStats :=
| Begin (beginTime : Z)
| End_ (beginTime endTime : Z) (err : option call_error)
| OtherStats.

Definition kind_of (methodInfo : gmap bytes stream_kind) (tag : RPCTag) : stream_kind :=
  default unary (methodInfo !! fullMethodName (rpcService tag) (rpcMethod tag)).

Definition labels_of (methodInfo : gmap bytes stream_kind) (tag : RPCTag) : labels := (rpcService tag, rpcMethod tag, kind_of methodInfo tag).

Definition HandleRPC (tag : RPCTag) (rs : RPCStats) (h : GRPCStatsHandler) : GRPCStatsHandler :=
  let methodType := kind_of (methodInfo h) tag in
  let l := (rpcService tag, rpcMethod tag, methodType) in
  let stream := negb (bool_decide (methodType = unary)) in
  match rs with
  | Begin beginTime =>
      mkStats (if stream then <[rpcID tag := mkInfo (rpcService tag) (rpcMethod tag) beginTime methodType]> (activeStreamsMap h) else activeStreamsMap h)
        (if stream then add_to l 1 (activeStreamCount h) else activeStreamCount h)
        (streamAgeBucket h) (methodInfo h) (activeConn h) (connTotalCount h)
        (add_to l 1 (rpcHandled h)) (rpcDuration h) (add_to l 1 (rpcInFlight h)) (rpcErrorCounter h) (connDuration h)
  | End_ beginTime endTime err =>
      mkStats (if stream then delete (rpcID tag) (activeStreamsMap h) else activeStreamsMap h)
        (if stream then add_to l (-1) (activeStreamCount h) else activeStreamCount h)
        (streamAgeBucket h) (methodInfo h) (activeConn h) (connTotalCount h)
        (rpcHandled h) (rpcDuration h ++ [(l, endTime - beginTime)]) (add_to l (-1) (rpcInFlight h))
        (match err with
         | Some e => if graceful e then rpcErrorCounter h else add_to (l, getStatusCode err) 1 (rpcErrorCounter h)
         | None => rpcErrorCounter h
         end) (connDuration h)
  | OtherStats => h
  end.

(** [startTime]: what [TagConn] has put into the context. *)
Inductive ConnStats := ConnBegin | ConnEnd.

Definition HandleConn (startTime : option Z) (now : Z) (cs : ConnStats) (h : GRPCStatsHandler) : GRPCStatsHandler :=
  let with_conn active total durations :=
    mkStats (activeStreamsMap h) (activeStreamCount h) (streamAgeBucket h) (methodInfo h) active total
      (rpcHandled h) (rpcDuration h) (rpcInFlight h) (rpcErrorCounter h) durations in
  match cs with
  | ConnBegin => with_conn (activeConn h + 1) (connTotalCount h + 1) (connDuration h)
  | ConnEnd => with_conn (activeConn h - 1) (connTotalCount h) (match startTime with Some t => connDuration h ++ [now - t] | None => connDuration h end)
  end.

Definition Minute : Z := 60 * Second.
Definition Hour : Z := 60 * Minute.

Definition durationBucket (d : Z) : bytes :=
  if d <? Second then str "0s_1s"
  else if d <? 10 * Second then str "1s_10s"
  else if d <? 30 * Second then str "10s_30s"
  else if d <? Minute then str "30s_1m"
  else if d <? 10 * Minute then str "1m_10m"
  else if d <? 15 * Minute then str "10m_15m"
  else if d <? 30 * Minute then str "10m_30m"
  else if d <? Hour then str "30m_1h"
  else if d <? 6 * Hour then str "1h_6h"
  else if d <? 12 * Hour then str "6h_12h"
  else if d <? 24 * Hour then str "12h_24h"
  else str "24h_over".

Definition stream_labels (si : streamInfo) : labels := (si_service si, si_method si, si_streamType si).
Definition streamKey (now : Z) (si : streamInfo) : labels * bytes := (stream_labels si, durationBucket (now - si_start si)).

(** The range over the map sees it at one moment. *)
Definition UpdateStreamAgeBuckets (now : Z) (h : GRPCStatsHandler) : GRPCStatsHandler :=
  let counts := map_fold (fun _ si counts => add_to (streamKey now si) 1 counts) ∅ (activeStreamsMap h) in
  mkStats (activeStreamsMap h) (activeStreamCount h) counts (methodInfo h) (activeConn h) (connTotalCount h)
    (rpcHandled h) (rpcDuration h) (rpcInFlight h) (rpcErrorCounter h) (connDuration h).

(** ** Log lines of calls *)

Record Interceptor := mkInterceptor { LogRequestEnabledMethod : gmap bytes bool }.

Definition defaultLogRequestMethodDisabled : gmap bytes bool :=
  {[ str "/grpc.health.v1.Health/Check" := false; str "/grpc.health.v1.Health/Watch" := false ]}.

(** The clone of a nil map is nil, and copying into it panics. *)
Definition NewStatefulInterceptor (logRequestEnabledMethod : option (gmap bytes bool)) : outcome Interceptor :=
  match logRequestEnabledMethod with
  | None => Panic
  | Some m => Ret (mkInterceptor (defaultLogRequestMethodDisabled ∪ m))
  end.

Inductive log_event := RpcStarted | RpcFailed (c : bytes) | RpcCompleted.

Definition log_enabled (i : Interceptor) (fullMethod : bytes) : bool := default false (LogRequestEnabledMethod i !! fullMethod).

Section telemetry.
Context {A : Type}.

(** A stream that was ended by a shutdown is no failure. *)
Definition TelemetryStreamInterceptor (i : Interceptor) (fullMethod : bytes) (handler : Ctx -> result status A) (ctx : Ctx) : list log_event * result status A :=
  let logEnabled := log_enabled i fullMethod in
  let started := if logEnabled then [RpcStarted] else [] in
  let r := handler ctx in
  (started ++ match r with
              | Err e => if isGracefulShutdown e then [] else [RpcFailed (code_String (Code e))]
              | Ok _ => if logEnabled then [RpcCompleted] else []
              end, r).

Definition TelemetryUnaryInterceptor (i : Interceptor) (fullMethod : bytes) (handler : Ctx -> result status A) (ctx : Ctx) : list log_event * result status A :=
  let logEnabled := log_enabled i fullMethod in
  let started := if logEnabled then [RpcStarted] else [] in
  let r := handler ctx in
  (started ++ match r with
              | Err e => [RpcFailed (code_String (Code e))]
              | Ok _ => if logEnabled then [RpcCompleted] else []
              end, r).
End telemetry.

(** The stream of a slow consumer: what the wrapped stream answered, and whether
    it took too long. *)
Definition slowConsumerStream_SendMsg {E} (l : labels) (threshold elapsed : Z) (err : option E) (counter : gmap labels Z) : gmap labels Z * option E :=
  (if threshold <? elapsed then add_to l 1 counter else counter, err).

(** ** Names *)

(** The name that a call is tagged with is the one it was registered under. *)
Lemma parse_full_name service method : slash ∉ service -> slash ∉ method -> parseFullMethodName (fullMethodName service method) = (service, method).
Proof. intros Hs Hm. unfold parseFullMethodName, fullMethodName. rewrite bool_decide_true by done. by rewrite Split_app, !Split_plain. Qed.

Lemma registered_kind mi fresh service method : slash ∉ service -> slash ∉ method ->
  kind_of mi (TagRPC fresh (fullMethodName service method)) = default unary (mi !! fullMethodName service method).
Proof. intros Hs Hm. unfold TagRPC. by rewrite parse_full_name. Qed.

(** ** Calls and connections of a server *)

(** The calls that have begun and not ended, and the connections. *)
Record served := mkServed { sv_stats : GRPCStatsHandler; sv_open : gmap bytes (RPCTag * Z); sv_conns : nat }.

(** gRPC tells the beginning and the end of each call, in the context of its tag,
    and the identifiers are new. *)
Inductive serve_step : served -> served -> Prop :=
| sv_begin s fresh full t :
    sv_open s !! fresh = None ->
    serve_step s (mkServed (HandleRPC (TagRPC fresh full) (Begin t) (sv_stats s)) (<[fresh := (TagRPC fresh full, t)]> (sv_open s)) (sv_conns s))
| sv_end s id tag t t' err :
    sv_open s !! id = Some (tag, t) ->
    serve_step s (mkServed (HandleRPC tag (End_ t t' err) (sv_stats s)) (delete id (sv_open s)) (sv_conns s))
| sv_other s tag : serve_step s (mkServed (HandleRPC tag OtherStats (sv_stats s)) (sv_open s) (sv_conns s))
| sv_conn_begin s st now : serve_step s (mkServed (HandleConn st now ConnBegin (sv_stats s)) (sv_open s) (S (sv_conns s)))
| sv_conn_end s st now n : sv_conns s = S n -> serve_step s (mkServed (HandleConn st now ConnEnd (sv_stats s)) (sv_open s) n)
| sv_update s now : serve_step s (mkServed (UpdateStreamAgeBuckets now (sv_stats s)) (sv_open s) (sv_conns s)).

(** ** Counting *)

Definition count {A} (f : A -> bool) (m : gmap bytes A) : Z := map_fold (fun _ x n => n + Z.b2z (f x)) 0 m.

Lemma count_insert {A} (f : A -> bool) (m : gmap bytes A) k x : m !! k = None -> count f (<[k := x]> m) = count f m + Z.b2z (f x).
Proof. intros Hk. unfold count. by rewrite (map_fold_insert_L (fun _ x n => n + Z.b2z (f x)) 0 k x m) by (done || (intros; lia)). Qed.

Lemma count_delete {A} (f : A -> bool) (m : gmap bytes A) k x : m !! k = Some x -> count f (delete k m) = count f m - Z.b2z (f x).
Proof.
  intros Hk. pose proof (count_insert f (delete k m) k x (lookup_delete_eq _ _)) as Hc. rewrite insert_delete_id in Hc by done. lia.
Qed.

Lemma count_nonneg {A} (f : A -> bool) (m : gmap bytes A) : 0 <= count f m.
Proof. unfold count. apply (map_fold_weak_ind (fun n _ => 0 <= n)); [done|]. intros. destruct (f _); cbn; lia. Qed.

Lemma count_ext {A} (f g : A -> bool) (m : gmap bytes A) : (forall k x, m !! k = Some x -> f x = g x) -> count f m = count g m.
Proof.
  induction m as [|k x m Hk IH] using map_ind; intros Hfg; [done|]. rewrite !count_insert, (Hfg k x) by (done || apply lookup_insert_eq). f_equal. apply IH. intros k' x' Hk'.
  apply (Hfg k'). rewrite lookup_insert_ne; [done|]. congruence.
Qed.

Lemma add_to_lookup `{Countable K} (l l' : K) d (v : gmap K Z) : default 0 (add_to l d v !! l') = default 0 (v !! l') + (if decide (l' = l) then d else 0).
Proof. unfold add_to. destruct (decide (l' = l)) as [->|Hne]; [by rewrite lookup_insert_eq|]. rewrite lookup_insert_ne by done. lia. Qed.

Lemma add_to_comm `{Countable K} (l l' : K) d d' (v : gmap K Z) : add_to l d (add_to l' d' v) = add_to l' d' (add_to l d v).
Proof.
  unfold add_to. destruct (decide (l = l')) as [->|Hne]; [rewrite !lookup_insert_eq, !insert_insert_eq; f_equal; cbn; lia|].
  rewrite !lookup_insert_ne by done. by apply insert_insert_ne.
Qed.

(** ** What the metrics say *)

Definition has_labels (mi : gmap bytes stream_kind) (l : labels) (c : RPCTag * Z) : bool := bool_decide (labels_of mi c.1 = l).
Definition is_stream (l : labels) : bool := negb (bool_decide (l.2 = unary)).

Definition info_of (mi : gmap bytes stream_kind) (c : RPCTag * Z) : option streamInfo :=
  let k := kind_of mi c.1 in
  if bool_decide (k = unary) then None else Some (mkInfo (rpcService c.1) (rpcMethod c.1) c.2 k).

(** The observations of completed calls with these labels. *)
Definition completed (l : labels) (d : list (labels * Z)) : Z := blen (filter (fun x => x.1 = l) d).

Record stats_ok (mi : gmap bytes stream_kind) (s : served) : Prop := {
  so_info : methodInfo (sv_stats s) = mi;
  so_id id tag t : sv_open s !! id = Some (tag, t) -> rpcID tag = id;
  so_streams : activeStreamsMap (sv_stats s) = omap (info_of mi) (sv_open s);
  so_active l : default 0 (activeStreamCount (sv_stats s) !! l) = if is_stream l then count (has_labels mi l) (sv_open s) else 0;
  so_flight l : default 0 (rpcInFlight (sv_stats s) !! l) = count (has_labels mi l) (sv_open s);
  so_handled l : default 0 (rpcHandled (sv_stats s) !! l) = count (has_labels mi l) (sv_open s) + completed l (rpcDuration (sv_stats s));
  so_conns : activeConn (sv_stats s) = Z.of_nat (sv_conns s)
}.

Lemma completed_snoc l d x : completed l (d ++ [x]) = completed l d + Z.b2z (bool_decide (x.1 = l)).
Proof. unfold completed, blen. rewrite filter_app, length_app. cbn. destruct (decide (x.1 = l)); [rewrite bool_decide_true by done|rewrite bool_decide_false by done]; cbn; lia. Qed.

Lemma begin_ok mi s fresh full t : stats_ok mi s -> sv_open s !! fresh = None ->
  stats_ok mi (mkServed (HandleRPC (TagRPC fresh full) (Begin t) (sv_stats s)) (<[fresh := (TagRPC fresh full, t)]> (sv_open s)) (sv_conns s)).
Proof.
  intros [Hmi Hid Hst Ha Hf Hh Hc] Hnew. assert (rpcID (TagRPC fresh full) = fresh) as Htag by (unfold TagRPC; by destruct (parseFullMethodName full)).
  set (tag := TagRPC fresh full) in *. split; cbn [sv_stats sv_open sv_conns HandleRPC methodInfo activeStreamsMap activeStreamCount rpcInFlight rpcHandled rpcDuration activeConn]; rewrite ?Hmi.
  - done.
  - intros id tag' t'. destruct (decide (fresh = id)) as [<-|Hne]; [rewrite lookup_insert_eq; by intros [= <- <-]|rewrite lookup_insert_ne by done; apply Hid].
  - rewrite Htag, Hst, omap_insert. unfold info_of at 3. cbv zeta. cbn [fst snd]. case_bool_decide; cbn [negb]; [|done]. rewrite delete_id; [done|]. by rewrite lookup_omap, Hnew.
  - intros l. rewrite count_insert by done. fold (labels_of mi tag). change (has_labels mi l (tag, t)) with (bool_decide (labels_of mi tag = l)). case_bool_decide as Hu; cbn [negb].
    + rewrite Ha. destruct (is_stream l) eqn:Hs; [|done]. rewrite bool_decide_false; [cbn; lia|]. intros <-. unfold is_stream in Hs. cbn in Hs. by rewrite bool_decide_true in Hs.
    + rewrite add_to_lookup, Ha. destruct (decide (l = _)) as [->|Hne].
      * unfold is_stream. cbn. rewrite bool_decide_false, bool_decide_true by done. done.
      * rewrite (bool_decide_false (labels_of mi tag = l)) by done. cbn. destruct (is_stream l); lia.
  - intros l. rewrite count_insert, add_to_lookup, Hf by done. change (has_labels mi l (tag, t)) with (bool_decide (labels_of mi tag = l)). fold (labels_of mi tag).
    case_bool_decide; destruct (decide _); cbn; try lia; congruence.
  - intros l. rewrite count_insert, add_to_lookup, Hh by done. change (has_labels mi l (tag, t)) with (bool_decide (labels_of mi tag = l)). fold (labels_of mi tag).
    case_bool_decide; destruct (decide _); cbn; try lia; congruence.
  - done.
Qed.

Lemma end_ok mi s id tag t t' err : stats_ok mi s -> sv_open s !! id = Some (tag, t) ->
  stats_ok mi (mkServed (HandleRPC tag (End_ t t' err) (sv_stats s)) (delete id (sv_open s)) (sv_conns s)).
Proof.
  intros [Hmi Hid Hst Ha Hf Hh Hc] Hopen. pose proof (Hid id tag t Hopen) as Htag.
  split; cbn [sv_stats sv_open sv_conns HandleRPC methodInfo activeStreamsMap activeStreamCount rpcInFlight rpcHandled rpcDuration activeConn]; rewrite ?Hmi; fold (labels_of mi tag).
  - done.
  - intros id' tag' t'' [_ Hl]%lookup_delete_Some. by eapply Hid.
  - rewrite Htag, Hst, omap_delete. case_bool_decide as Hu; cbn [negb]; [|done]. rewrite delete_id; [done|]. rewrite lookup_omap, Hopen. cbn. unfold info_of. cbn. by rewrite bool_decide_true.
  - intros l. rewrite (count_delete _ _ _ _ Hopen). change (has_labels mi l (tag, t)) with (bool_decide (labels_of mi tag = l)). case_bool_decide as Hu; cbn [negb].
    + rewrite Ha. destruct (is_stream l) eqn:Hs; [|done]. rewrite bool_decide_false; [cbn; lia|]. intros <-. unfold is_stream in Hs. cbn in Hs. by rewrite bool_decide_true in Hs.
    + rewrite add_to_lookup, Ha. destruct (decide (l = _)) as [->|Hne].
      * unfold is_stream. cbn. rewrite bool_decide_false, bool_decide_true by done. done.
      * rewrite (bool_decide_false (labels_of mi tag = l)) by done. cbn. destruct (is_stream l); lia.
  - intros l. rewrite (count_delete _ _ _ _ Hopen), add_to_lookup, Hf. change (has_labels mi l (tag, t)) with (bool_decide (labels_of mi tag = l)).
    case_bool_decide; destruct (decide _); cbn; try lia; congruence.
  - intros l. rewrite (count_delete _ _ _ _ Hopen), completed_snoc, Hh. change (has_labels mi l (tag, t)) with (bool_decide (labels_of mi tag = l)). cbn [fst]. lia.
  - done.
Qed.

Lemma serve_step_ok mi s s' : stats_ok mi s -> serve_step s s' -> stats_ok mi s'.
Proof.
  intros Hok Hstep. destruct Hstep as [s0 fresh full t Hnew|s0 id tag t t' err Hopen|s0 tag|s0 st now|s0 st now n Hn|s0 now]; [by apply begin_ok|by apply end_ok|destruct s0; exact Hok|..]; destruct Hok as [Hmi Hid Hst Ha Hf Hh Hc];
    split; try done; cbn [sv_stats HandleConn activeConn sv_conns]; lia.
Qed.

(** Streams by age: each is in one bucket. *)
Definition age_buckets : list bytes :=
  [str "0s_1s"; str "1s_10s"; str "10s_30s"; str "30s_1m"; str "1m_10m"; str "10m_15m"; str "10m_30m"; str "30m_1h"; str "1h_6h"; str "6h_12h"; str "12h_24h"; str "24h_over"].

Lemma bucket_listed d : durationBucket d ∈ age_buckets.
Proof. unfold durationBucket. repeat case_match; apply (bool_decide_unpack _); by vm_compute. Qed.

Lemma bucket_counts (now : Z) (m : gmap bytes streamInfo) (k : labels * bytes) :
  default 0 (map_fold (fun _ si counts => add_to (streamKey now si) 1 counts) ∅ m !! k) = count (fun si => bool_decide (streamKey now si = k)) m.
Proof.
  induction m as [|id si m Hid IH] using map_ind; [by rewrite map_fold_empty, lookup_empty|]. rewrite count_insert by done.
  rewrite (map_fold_insert_L (fun _ si counts => add_to (streamKey now si) 1 counts)); [|..|done].
  - rewrite add_to_lookup, IH. case_bool_decide; destruct (decide _); cbn; try lia; congruence.
  - intros. apply add_to_comm.
Qed.

Definition sum (l : list Z) : Z := foldr Z.add 0 l.

Lemma one_bucket (bs : list bytes) (b : bytes) : NoDup bs -> b ∈ bs -> sum ((fun b' => Z.b2z (bool_decide (b = b'))) <$> bs) = 1.
Proof.
  intros Hnd. revert b. induction Hnd as [|x bs Hx Hnd IH]; intros b Hb; [by apply not_elem_of_nil in Hb|]. cbn. destruct (decide (b = x)) as [->|Hne].
  - rewrite bool_decide_true by done. cbn. enough (foldr Z.add 0 ((fun b' => Z.b2z (bool_decide (x = b'))) <$> bs) = 0) as -> by done. clear -Hx.
    induction bs as [|y bs IH]; [done|]. cbn. rewrite bool_decide_false by set_solver. cbn. apply IH. set_solver.
  - rewrite bool_decide_false by done. cbn. apply IH. set_solver.
Qed.

Lemma sum_add {A} (f g : A -> Z) (l : list A) : sum ((fun x => f x + g x) <$> l) = sum (f <$> l) + sum (g <$> l).
Proof. unfold sum. induction l as [|x l IH]; [done|]. rewrite !fmap_cons. cbn [foldr]. rewrite IH. lia. Qed.

Lemma buckets_total (now : Z) (m : gmap bytes streamInfo) (l : labels) :
  sum ((fun b => count (fun si => bool_decide (streamKey now si = (l, b))) m) <$> age_buckets) = count (fun si => bool_decide (stream_labels si = l)) m.
Proof.
  induction m as [|id si m Hid IH] using map_ind; [done|].
  rewrite (list_fmap_ext _ (fun b => count (fun si => bool_decide (streamKey now si = (l, b))) m + Z.b2z (bool_decide (streamKey now si = (l, b))))) by (intros; by rewrite count_insert).
  rewrite sum_add, IH, count_insert by done. f_equal. destruct (decide (stream_labels si = l)) as [<-|Hne].
  - rewrite (bool_decide_true (stream_labels si = _)) by done. cbn [Z.b2z].
    rewrite (list_fmap_ext _ (fun b => Z.b2z (bool_decide (durationBucket (now - si_start si) = b)))).
    + apply one_bucket; [apply (bool_decide_unpack _); by vm_compute|apply bucket_listed].
    + intros _ b _. f_equal. unfold streamKey. apply bool_decide_ext. naive_solver.
  - rewrite (bool_decide_false (stream_labels si = l)) by done. rewrite (list_fmap_ext _ (fun _ => 0)); [done|]. intros _ b _. rewrite bool_decide_false; [done|]. unfold streamKey. congruence.
Qed.

Lemma count_omap {A B} (f : A -> option B) (g : B -> bool) (m : gmap bytes A) : count g (omap f m) = count (fun x => match f x with Some y => g y | None => false end) m.
Proof.
  induction m as [|k x m Hk IH] using map_ind; [by rewrite omap_empty|]. rewrite omap_insert, count_insert, <- IH by done. assert (omap f m !! k = None) as Hn by by rewrite lookup_omap, Hk.
  destruct (f x) as [y|]; [by rewrite count_insert|]. rewrite delete_id by done. cbn. lia.
Qed.

(** C24. At every moment the metrics tell what the server is doing: a call in flight
    is one that has begun and not ended, handled calls are those in flight and the
    completed ones, the active streams are the open calls of streaming methods,
    connections are counted, and after an update every active stream is in one age
    bucket of its labels, so that the buckets add up to the active streams. *)
Theorem metrics_tell_the_open_calls mi s : rtc serve_step (mkServed (NewGRPCStatsHandler mi) ∅ 0) s ->
  stats_ok mi s /\
  forall now l, let h := UpdateStreamAgeBuckets now (sv_stats s) in
    (forall b, default 0 (streamAgeBucket h !! (l, b)) = count (fun si => bool_decide (streamKey now si = (l, b))) (activeStreamsMap h)) /\
    sum ((fun b => default 0 (streamAgeBucket h !! (l, b))) <$> age_buckets) = default 0 (activeStreamCount h !! l).
Proof.
  intros Hr. assert (stats_ok mi s) as Hok.
  { remember (mkServed (NewGRPCStatsHandler mi) ∅ 0) as s0 eqn:Hs0. assert (stats_ok mi s0) as H0 by (subst; split; try done; intros l; by destruct (is_stream l)). clear Hs0.
    induction Hr as [|x y z Hxy _ IH]; [done|]. apply IH. by eapply serve_step_ok. }
  split; [done|]. intros now l h. split; [intros b; apply bucket_counts|].
  rewrite (list_fmap_ext _ (fun b => count (fun si => bool_decide (streamKey now si = (l, b))) (activeStreamsMap (sv_stats s)))) by (intros _ b _; apply bucket_counts).
  rewrite buckets_total. change (activeStreamCount h) with (activeStreamCount (sv_stats s)). rewrite (so_active _ _ Hok), (so_streams _ _ Hok), count_omap.
  destruct (is_stream l) eqn:Hs.
  - apply count_ext. intros k [tag t] _. unfold info_of, has_labels, labels_of. cbn [fst snd]. case_bool_decide as Hu; [|done].
    symmetry. apply bool_decide_eq_false. intros <-. unfold is_stream in Hs. cbn in Hs. by rewrite bool_decide_true in Hs.
  - rewrite (count_ext _ (fun _ => false)).
    + generalize (sv_open s). intros m. induction m as [|k x m Hk IH] using map_ind; [done|]. by rewrite count_insert, IH.
    + intros k [tag t] _. unfold info_of. cbn [fst snd]. case_bool_decide as Hu; [done|]. apply bool_decide_eq_false. intros <-. unfold is_stream in Hs. cbn in Hs. by rewrite bool_decide_false in Hs.
Qed.

(** One stream of two that were opened has ended. *)
Lemma metrics_tell_the_open_calls_witness : exists s, sv_open s <> ∅ /\ stats_ok {[ str "/s/m" := serverStream ]} s.
Proof.
  eexists. refine (conj _ (proj1 (metrics_tell_the_open_calls {[ str "/s/m" := serverStream ]} _ _))); cycle 1.
  - eapply rtc_l; [apply (sv_begin _ [Byte.x01] (str "/s/m") 3); done|]. eapply rtc_l; [apply (sv_begin _ [Byte.x02] (str "/s/m") 4); done|].
    eapply rtc_l; [apply (sv_end _ [Byte.x01] (TagRPC [Byte.x01] (str "/s/m")) 3 9 None); done|]. apply rtc_refl.
  - intros Hm. apply (f_equal (lookup [Byte.x02])) in Hm. vm_compute in Hm. discriminate Hm.
Defined.
