(* ===== verification/Crdt.v ===== *)
(** The replicated data types of the example client:
    cmd/examples/crdt-multi-dc/golang-crdt-client/crdt.

    A state manager takes the changes that arrive from several data centers, in
    any order and any number of times.  The decoding of JSON is a class; a
    register's value is what the decoder gives for an interface.  Printing and
    the lock are left out: each update is one step under the lock. *)

From stdpp Require Import prelude list numbers gmap.
From Stdlib Require Import ZArith Lia.
From S2P Require Import Prelude Bytes Base64 GrpcUtils StreamClient.
Import Stdlib.Strings.String.StringSyntax.

(** ** Grow-only counter *)

Record GCounter := mkGCounter { gc_Key : bytes; Counts : gmap bytes Z }.

Definition NewGCounter (key : bytes) : GCounter := mkGCounter key ∅.

Definition Increment (replica : bytes) (amount : Z) (c : GCounter) : GCounter :=
  let current := default 0 (Counts c !! replica) in
  mkGCounter (gc_Key c) (<[replica := int64 (current + amount)]> (Counts c)).

Definition Merge (replica : bytes) (count : Z) (c : GCounter) : GCounter * bool :=
  match Counts c !! replica with
  | Some current => if current <? count then (mkGCounter (gc_Key c) (<[replica := count]> (Counts c)), true) else (c, false)
  | None => (mkGCounter (gc_Key c) (<[replica := count]> (Counts c)), true)
  end.

Definition gc_GetValue (c : GCounter) : Z := map_fold (fun _ count total => int64 (total + count)) 0 (Counts c).

(** ** Last-write-wins register *)

(** The order of strings: bytewise, a prefix first. *)
Fixpoint str_lt (a b : bytes) : bool :=
  match a, b with
  | _, [] => false
  | [], _ => true
  | x :: a, y :: b => (u8 x <? u8 y) || ((u8 x =? u8 y) && str_lt a b)
  end.

Section registers.
Context {V : Type}.

Record LWWRegister := mkLWW { lww_Key : bytes; lww_Value : option V; Timestamp : Z; Replica : bytes }.

Definition NewLWWRegister (key : bytes) : LWWRegister := mkLWW key None 0 [].

Definition Update (value : option V) (timestamp : Z) (replica : bytes) (r : LWWRegister) : LWWRegister * bool :=
  if (Timestamp r <? timestamp) || ((timestamp =? Timestamp r) && str_lt (Replica r) replica)
  then (mkLWW (lww_Key r) value timestamp replica, true) else (r, false).

Definition lww_GetValue (r : LWWRegister) : option V := lww_Value r.

(** ** The manager *)

Record StateManager := mkManager { lwwRegisters : gmap bytes LWWRegister; gCounters : gmap bytes GCounter }.

Definition NewStateManager : StateManager := mkManager ∅ ∅.

Record LWWData := mkLWWData { ld_Value : option V; ld_Timestamp : Z; ld_Replica : bytes }.
Record GCounterData := mkGCounterData { gd_Replica : bytes; gd_Count : Z }.

(** json.Unmarshal *)
Class CrdtJson := { json_LWWData : bytes -> option LWWData; json_GCounterData : bytes -> option GCounterData }.
Context `{CrdtJson}.

Inductive crdt_error := ErrDecodeKey | ErrDecodeValue | ErrUnmarshalLWW | ErrUnmarshalGCounter.

Definition HasPrefix (s prefix : bytes) : bool := bool_decide (prefix `prefix_of` s).

Definition processLWWUpdate (key valueBytes : bytes) (sm : StateManager) : StateManager * option crdt_error :=
  match json_LWWData valueBytes with
  | None => (sm, Some ErrUnmarshalLWW)
  | Some data =>
      let register := default (NewLWWRegister key) (lwwRegisters sm !! key) in
      let '(register, _) := Update (ld_Value data) (ld_Timestamp data) (ld_Replica data) register in
      (mkManager (<[key := register]> (lwwRegisters sm)) (gCounters sm), None)
  end.

Definition processGCounterUpdate (key valueBytes : bytes) (sm : StateManager) : StateManager * option crdt_error :=
  match json_GCounterData valueBytes with
  | None => (sm, Some ErrUnmarshalGCounter)
  | Some data =>
      let counter := default (NewGCounter key) (gCounters sm !! key) in
      let '(counter, _) := Merge (gd_Replica data) (gd_Count data) counter in
      (mkManager (lwwRegisters sm) (<[key := counter]> (gCounters sm)), None)
  end.

Definition ProcessUpdate (keyBase64 valueBase64 : bytes) (sm : StateManager) : StateManager * option crdt_error :=
  match DecodeString keyBase64 with
  | None => (sm, Some ErrDecodeKey)
  | Some key =>
      match DecodeString valueBase64 with
      | None => (sm, Some ErrDecodeValue)
      | Some valueBytes =>
          if HasPrefix key (str "lww:") then processLWWUpdate key valueBytes sm
          else if HasPrefix key (str "counter:") then processGCounterUpdate key valueBytes sm
          else (sm, None)
      end
  end.

Definition GetLWWRegister (key : bytes) (sm : StateManager) : option LWWRegister := lwwRegisters sm !! key.
Definition GetGCounter (key : bytes) (sm : StateManager) : option GCounter := gCounters sm !! key.

(** Updates in the order of their arrival. *)
Definition process_all (updates : list (bytes * bytes)) (sm : StateManager) : StateManager :=
  foldl (fun sm u => (ProcessUpdate u.1 u.2 sm).1) sm updates.
End registers.

(** ** The order of replicas *)

Lemma str_lt_irrefl a : str_lt a a = false.
Proof. induction a as [|x a IH]; [done|]. cbn. rewrite Z.ltb_irrefl, Z.eqb_refl. done. Qed.

Lemma str_lt_trans a b c : str_lt a b = true -> str_lt b c = true -> str_lt a c = true.
Proof.
  revert b c. induction a as [|x a IH]; intros [|y b] [|z c]; cbn; try done. rewrite !orb_true_iff, !andb_true_iff, !Z.ltb_lt, !Z.eqb_eq.
  intros [Hxy|[Hxy Hab]] [Hyz|[Hyz Hbc]]; [left; lia..|]. right. split; [lia|]. by eapply IH.
Qed.

Lemma str_lt_total a b : str_lt a b = true \/ a = b \/ str_lt b a = true.
Proof.
  revert b. induction a as [|x a IH]; intros [|y b]; cbn; auto. rewrite !orb_true_iff, !andb_true_iff, !Z.ltb_lt, !Z.eqb_eq.
  destruct (Z.lt_trichotomy (u8 x) (u8 y)) as [Hlt|[Heq|Hgt]]; [by auto| |by auto].
  apply u8_inj in Heq as ->. destruct (IH b) as [Hlt|[->|Hgt]]; auto.
Qed.

(** The stamps of writes: a time and a replica. *)
Definition newer (t : Z) (r : bytes) (t' : Z) (r' : bytes) : bool := (t' <? t) || ((t =? t') && str_lt r' r).

Lemma newer_irrefl t r : newer t r t r = false.
Proof. unfold newer. by rewrite Z.ltb_irrefl, Z.eqb_refl, str_lt_irrefl. Qed.

Lemma newer_trans t1 r1 t2 r2 t3 r3 : newer t1 r1 t2 r2 = true -> newer t2 r2 t3 r3 = true -> newer t1 r1 t3 r3 = true.
Proof.
  unfold newer. rewrite !orb_true_iff, !andb_true_iff, !Z.ltb_lt, !Z.eqb_eq. intros [Ha|[Ha Hb]] [Hc|[Hc Hd]]; [left; lia..|]. right. split; [lia|]. by eapply str_lt_trans.
Qed.

Lemma newer_total t1 r1 t2 r2 : newer t1 r1 t2 r2 = true \/ (t1 = t2 /\ r1 = r2) \/ newer t2 r2 t1 r1 = true.
Proof.
  unfold newer. rewrite !orb_true_iff, !andb_true_iff, !Z.ltb_lt, !Z.eqb_eq. destruct (Z.lt_trichotomy t1 t2) as [Hlt|[->|Hgt]]; [by auto| |by auto].
  destruct (str_lt_total r1 r2) as [Hlt|[->|Hgt]]; auto.
Qed.

Section convergence.
Context {V : Type} `{CrdtJson V}.
Notation StateManager := (StateManager (V := V)).

(** ** Updates commute *)

Definition max_count (old : option Z) (n : Z) : Z := match old with Some cur => Z.max cur n | None => n end.

Lemma Merge_max r n c : (Merge r n c).1 = mkGCounter (gc_Key c) (<[r := max_count (Counts c !! r) n]> (Counts c)).
Proof.
  unfold Merge. destruct (Counts c !! r) as [cur|] eqn:Hm; [|done]. cbn. destruct (Z.ltb_spec cur n); cbn.
  - by rewrite Z.max_r by lia.
  - rewrite Z.max_l by lia. rewrite insert_id by done. by destruct c.
Qed.

Lemma Merge_comm r1 n1 r2 n2 c : (Merge r1 n1 (Merge r2 n2 c).1).1 = (Merge r2 n2 (Merge r1 n1 c).1).1.
Proof.
  rewrite !Merge_max. cbn [Counts gc_Key]. f_equal. destruct (decide (r1 = r2)) as [->|Hne].
  - rewrite !lookup_insert_eq, !insert_insert_eq. f_equal. destruct (Counts c !! r2); cbn; lia.
  - rewrite !lookup_insert_ne by done. by apply insert_insert_ne.
Qed.

Lemma Merge_idem r n c : (Merge r n (Merge r n c).1).1 = (Merge r n c).1.
Proof. rewrite !Merge_max. cbn [Counts gc_Key]. rewrite lookup_insert_eq, insert_insert_eq. do 2 f_equal. destruct (Counts c !! r); cbn; lia. Qed.

Lemma Update_unfold (v : option V) t rp r : (Update v t rp r).1 = if newer t rp (Timestamp r) (Replica r) then mkLWW (lww_Key r) v t rp else r.
Proof. unfold Update, newer. by destruct (_ || _). Qed.

Lemma Update_idem (v : option V) t rp r : (Update v t rp (Update v t rp r).1).1 = (Update v t rp r).1.
Proof. rewrite (Update_unfold v t rp r). destruct (newer t rp (Timestamp r) (Replica r)) eqn:Hn; rewrite Update_unfold; cbn [Timestamp Replica]; [by rewrite newer_irrefl|by rewrite Hn]. Qed.

Lemma Update_comm (v1 v2 : option V) t1 r1 t2 r2 r : (t1 = t2 -> r1 = r2 -> v1 = v2) -> (Update v1 t1 r1 (Update v2 t2 r2 r).1).1 = (Update v2 t2 r2 (Update v1 t1 r1 r).1).1.
Proof.
  intros Hv. destruct (newer_total t1 r1 t2 r2) as [H12|[[-> ->]|H21]]; [| by rewrite Hv|]; rewrite !Update_unfold.
  - assert (newer t2 r2 t1 r1 = false) as Hno by (destruct (newer t2 r2 t1 r1) eqn:E; [|done]; pose proof (newer_trans _ _ _ _ _ _ H12 E) as Hc; by rewrite newer_irrefl in Hc).
    destruct (newer t2 r2 (Timestamp r) (Replica r)) eqn:E2.
    + rewrite (newer_trans _ _ _ _ _ _ H12 E2). cbn [Timestamp Replica lww_Key]. by rewrite H12, Hno.
    + destruct (newer t1 r1 (Timestamp r) (Replica r)); cbn [Timestamp Replica lww_Key]; [by rewrite Hno|by rewrite E2].
  - assert (newer t1 r1 t2 r2 = false) as Hno by (destruct (newer t1 r1 t2 r2) eqn:E; [|done]; pose proof (newer_trans _ _ _ _ _ _ H21 E) as Hc; by rewrite newer_irrefl in Hc).
    destruct (newer t1 r1 (Timestamp r) (Replica r)) eqn:E1.
    + rewrite (newer_trans _ _ _ _ _ _ H21 E1). cbn [Timestamp Replica lww_Key]. by rewrite H21, Hno.
    + destruct (newer t2 r2 (Timestamp r) (Replica r)); cbn [Timestamp Replica lww_Key]; [by rewrite Hno|by rewrite E1].
Qed.
(** An update as what it does: it is ignored, or changes a register or a counter. *)
Inductive change := NoChange | ChangeLWW (key : bytes) (d : LWWData (V := V)) | ChangeCounter (key : bytes) (d : GCounterData).

Definition change_of (u : bytes * bytes) : change :=
  match DecodeString u.1, DecodeString u.2 with
  | Some key, Some valueBytes =>
      if HasPrefix key (str "lww:") then match json_LWWData valueBytes with Some d => ChangeLWW key d | None => NoChange end
      else if HasPrefix key (str "counter:") then match json_GCounterData valueBytes with Some d => ChangeCounter key d | None => NoChange end
      else NoChange
  | _, _ => NoChange
  end.

Definition apply_change (c : change) (sm : StateManager) : StateManager :=
  match c with
  | NoChange => sm
  | ChangeLWW key d =>
      mkManager (<[key := (Update (ld_Value d) (ld_Timestamp d) (ld_Replica d) (default (NewLWWRegister key) (lwwRegisters sm !! key))).1]> (lwwRegisters sm)) (gCounters sm)
  | ChangeCounter key d => mkManager (lwwRegisters sm) (<[key := (Merge (gd_Replica d) (gd_Count d) (default (NewGCounter key) (gCounters sm !! key))).1]> (gCounters sm))
  end.

Lemma ProcessUpdate_change u sm : (ProcessUpdate u.1 u.2 sm).1 = apply_change (change_of u) sm.
Proof.
  unfold ProcessUpdate, change_of. destruct (DecodeString u.1) as [key|]; [|done]. destruct (DecodeString u.2) as [v|]; [|done]. unfold processLWWUpdate, processGCounterUpdate.
  destruct (HasPrefix key _); [destruct (json_LWWData v); [|done]; cbn; by destruct (Update _ _ _ _)|]. destruct (HasPrefix key _); [|done].
  destruct (json_GCounterData v); [|done]. cbn. by destruct (Merge _ _ _).
Qed.

Lemma apply_idem c sm : apply_change c (apply_change c sm) = apply_change c sm.
Proof.
  destruct c as [|key d|key d]; [done|..]; cbn; rewrite lookup_insert_eq, insert_insert_eq; cbn [default from_option id]; do 2 f_equal; [apply Update_idem|apply Merge_idem].
Qed.

(** Writes with one stamp are one write. *)
Definition agree (c c' : change) : Prop :=
  match c, c' with
  | ChangeLWW key d, ChangeLWW key' d' => key = key' -> ld_Timestamp d = ld_Timestamp d' -> ld_Replica d = ld_Replica d' -> ld_Value d = ld_Value d'
  | _, _ => True
  end.

Lemma apply_comm c c' sm : agree c c' -> apply_change c (apply_change c' sm) = apply_change c' (apply_change c sm).
Proof.
  intros Ha. destruct c as [|k d|k d], c' as [|k' d'|k' d']; try done; cbn; f_equal; destruct (decide (k = k')) as [->|Hne].
  - rewrite !lookup_insert_eq, !insert_insert_eq. cbn [default from_option id]. f_equal. apply Update_comm. intros Ht Hr. by apply Ha.
  - rewrite !lookup_insert_ne by done. by apply insert_insert_ne.
  - rewrite !lookup_insert_eq, !insert_insert_eq. cbn [default from_option id]. f_equal. apply Merge_comm.
  - rewrite !lookup_insert_ne by done. by apply insert_insert_ne.
Qed.

(** ** Folds of such updates depend on the set of updates only *)

Definition run (l : list change) (sm : StateManager) : StateManager := foldl (fun sm c => apply_change c sm) sm l.

Lemma run_cons c l sm : run (c :: l) sm = run l (apply_change c sm).
Proof. done. Qed.

Definition all_agree (l : list change) : Prop := forall c c', c ∈ l -> c' ∈ l -> agree c c'.

Lemma run_swap c l sm : (forall c', c' ∈ l -> agree c c') -> run l (apply_change c sm) = apply_change c (run l sm).
Proof.
  revert sm. induction l as [|c' l IH]; intros sm Ha; [done|]. rewrite !run_cons. rewrite <- apply_comm by (apply Ha; left). apply IH. intros c'' Hc. apply Ha. by right.
Qed.

Lemma run_absorb c l sm : c ∈ l -> all_agree l -> apply_change c (run l sm) = run l sm.
Proof.
  revert sm. induction l as [|c' l IH]; intros sm Hc Ha; [by apply not_elem_of_nil in Hc|]. rewrite !run_cons.
  assert (all_agree l) as Hl by (intros x y Hx Hy; apply Ha; by right). apply elem_of_cons in Hc as [->|Hc]; [|by apply IH].
  rewrite run_swap by (intros x Hx; apply Ha; [left|by right]). apply apply_idem.
Qed.

Lemma run_absorb_all l l' sm : (forall c, c ∈ l' -> c ∈ l) -> all_agree l -> run l' (run l sm) = run l sm.
Proof.
  revert sm. induction l' as [|c l' IH]; intros sm Hin Ha; [done|]. rewrite run_cons, run_absorb by (done || (apply Hin; left)).
  apply IH; [|done]. intros x Hx. apply Hin. by right.
Qed.

Lemma run_swap_all l l' sm : (forall c c', c ∈ l -> c' ∈ l' -> agree c c') -> run l' (run l sm) = run l (run l' sm).
Proof.
  revert sm. induction l as [|c l IH]; intros sm Ha; [done|]. rewrite !run_cons.
  rewrite IH by (intros x y Hx Hy; apply Ha; [by right|done]). f_equal. apply run_swap. intros y Hy. apply Ha; [left|done].
Qed.

Lemma run_set l l' sm : (forall c, c ∈ l <-> c ∈ l') -> all_agree l -> run l sm = run l' sm.
Proof.
  intros Hset Ha. rewrite <- (run_absorb_all l l' sm) by (done || (intros c; by apply Hset)). rewrite run_swap_all by (intros c c' Hc Hc'; apply Ha; [done|by apply Hset]).
  apply run_absorb_all; [intros c; by apply Hset|]. intros x y Hx Hy. apply Ha; by apply Hset.
Qed.

Lemma process_all_run updates sm : process_all updates sm = run (change_of <$> updates) sm.
Proof. unfold process_all, run. rewrite foldl_fmap. revert sm. induction updates as [|u l IH]; intros sm; [done|]. cbn. by rewrite ProcessUpdate_change, IH. Qed.
(** ** What the managers hold *)

Lemma run_snoc l c sm : run (l ++ [c]) sm = apply_change c (run l sm).
Proof. unfold run. by rewrite foldl_app. Qed.

(** A counter has for each replica the largest count that was sent. *)
Record counters_ok (l : list change) (m : gmap bytes GCounter) : Prop := {
  co_upper key d : ChangeCounter key d ∈ l -> exists c n, m !! key = Some c /\ Counts c !! gd_Replica d = Some n /\ gd_Count d <= n;
  co_sent key c r n : m !! key = Some c -> Counts c !! r = Some n -> ChangeCounter key (mkGCounterData r n) ∈ l
}.

(** A register has the newest write, if one is newer than the empty register. *)
Record registers_ok (l : list change) (m : gmap bytes (LWWRegister (V := V))) : Prop := {
  ro_newest key d : ChangeLWW key d ∈ l -> exists r, m !! key = Some r /\ newer (ld_Timestamp d) (ld_Replica d) (Timestamp r) (Replica r) = false;
  ro_written key r : m !! key = Some r -> r = NewLWWRegister key \/ (lww_Key r = key /\ ChangeLWW key (mkLWWData (lww_Value r) (Timestamp r) (Replica r)) ∈ l)
}.

Lemma run_counters l : counters_ok l (gCounters (run l NewStateManager)).
Proof.
  induction l as [|c l [Hup Hsent]] using rev_ind; [split; [by intros ? ? ?%elem_of_nil|intros ? ? ? ? Hc; cbn in Hc; by rewrite lookup_empty in Hc]|]. rewrite run_snoc.
  set (m := gCounters (run l NewStateManager)) in *.
  destruct c as [|k d|k d]; cbn [apply_change gCounters]; fold m; [split; [intros key d' [Hin|Hin%list_elem_of_singleton]%elem_of_app; [by apply Hup|done]|intros; apply elem_of_app; left; by eapply Hsent]..|].
  rewrite Merge_max. set (old := default (NewGCounter k) (m !! k)).
  assert (forall r n, Counts old !! r = Some n -> ChangeCounter k (mkGCounterData r n) ∈ l) as Hold.
  { intros r n. unfold old. destruct (m !! k) as [c|] eqn:Hm; cbn; [by apply Hsent|by rewrite lookup_empty]. }
  split.
  - intros key d' Hin. destruct (decide (k = key)) as [<-|Hne].
    + rewrite lookup_insert_eq. exists (mkGCounter (gc_Key old) (<[gd_Replica d := max_count (Counts old !! gd_Replica d) (gd_Count d)]> (Counts old))). cbn [Counts]. apply elem_of_app in Hin as [Hin|Hin%list_elem_of_singleton].
      * destruct (Hup k d' Hin) as (c & n & Hm & Hc & Hle). assert (old = c) as -> by (unfold old; by rewrite Hm). destruct (decide (gd_Replica d = gd_Replica d')) as [He|Hr].
        -- rewrite He, lookup_insert_eq, Hc. eexists. split; [done|]. split; [done|]. cbn. lia.
        -- rewrite lookup_insert_ne by done. by exists n.
      * injection Hin as ->. rewrite lookup_insert_eq. eexists. split; [done|]. split; [done|]. destruct (Counts old !! gd_Replica d); cbn; lia.
    + rewrite lookup_insert_ne by done. apply elem_of_app in Hin as [Hin|Hin%list_elem_of_singleton]; [by apply Hup|congruence].
  - intros key c r n. destruct (decide (k = key)) as [<-|Hne]; [|rewrite lookup_insert_ne by done; intros; apply elem_of_app; left; by eapply Hsent].
    rewrite lookup_insert_eq. intros [= <-]. cbn [Counts]. destruct (decide (gd_Replica d = r)) as [<-|Hr]; [|rewrite lookup_insert_ne by done; intros; apply elem_of_app; left; by apply Hold].
    rewrite lookup_insert_eq. intros [= <-]. apply elem_of_app. destruct (Counts old !! gd_Replica d) as [cur|] eqn:Hc; cbn.
    + destruct (Z.max_spec cur (gd_Count d)) as [[_ ->]|[_ ->]]; [right; apply list_elem_of_singleton; by destruct d|left; by apply Hold].
    + right. apply list_elem_of_singleton. by destruct d.
Qed.

Lemma run_registers l : registers_ok l (lwwRegisters (run l NewStateManager)).
Proof.
  induction l as [|c l [Hnew Hw]] using rev_ind; [split; [by intros ? ? ?%elem_of_nil|intros ? ? Hc; cbn in Hc; by rewrite lookup_empty in Hc]|]. rewrite run_snoc.
  set (m := lwwRegisters (run l NewStateManager)) in *.
  assert (forall key (r : LWWRegister (V := V)) l', m !! key = Some r -> r = NewLWWRegister key \/ (lww_Key r = key /\ ChangeLWW key (mkLWWData (lww_Value r) (Timestamp r) (Replica r)) ∈ l ++ l')) as Hw'.
  { intros key r l' Hm. destruct (Hw key r Hm) as [->|[Hk Hin]]; [by left|right]. split; [done|]. apply elem_of_app. by left. }
  destruct c as [|k d|k d]; cbn [apply_change lwwRegisters]; fold m;
    [split; [intros key d' [Hin|Hin%list_elem_of_singleton]%elem_of_app; [by apply Hnew|done]|intros; by apply Hw']| |split; [intros key d' [Hin|Hin%list_elem_of_singleton]%elem_of_app; [by apply Hnew|done]|intros; by apply Hw']].
  rewrite Update_unfold. set (old := default (NewLWWRegister k) (m !! k)).
  assert (lww_Key old = k) as Hk. { unfold old. destruct (m !! k) as [r|] eqn:Hm; [|done]. cbn. by destruct (Hw k r Hm) as [->|[Hk _]]. }
  split.
  - intros key d' Hin. destruct (decide (k = key)) as [<-|Hne]; [|rewrite lookup_insert_ne by done; apply elem_of_app in Hin as [Hin|Hin%list_elem_of_singleton]; [by apply Hnew|congruence]].
    rewrite lookup_insert_eq. eexists. split; [done|]. apply elem_of_app in Hin as [Hin|Hin%list_elem_of_singleton].
    + destruct (Hnew k d' Hin) as (r & Hm & Hn). assert (old = r) as -> by (unfold old; by rewrite Hm). destruct (newer (ld_Timestamp d) (ld_Replica d) (Timestamp r) (Replica r)) eqn:Hd; [|done]. cbn [Timestamp Replica].
      destruct (newer (ld_Timestamp d') (ld_Replica d') (ld_Timestamp d) (ld_Replica d)) eqn:E; [|done]. by rewrite (newer_trans _ _ _ _ _ _ E Hd) in Hn.
    + injection Hin as ->. destruct (newer (ld_Timestamp d) (ld_Replica d) (Timestamp old) (Replica old)) eqn:Hd; [apply newer_irrefl|done].
  - intros key r. destruct (decide (k = key)) as [<-|Hne]; [|rewrite lookup_insert_ne by done; apply Hw'].
    rewrite lookup_insert_eq. intros [= <-]. destruct (newer _ _ _ _).
    + right. split; [done|]. apply elem_of_app. right. apply list_elem_of_singleton. cbn. by destruct d.
    + unfold old in *. destruct (m !! k) as [r|] eqn:Hm; cbn; [by apply Hw'|by left].
Qed.

(** C25. Managers that have received the same updates, in any order and any number
    of times, are in the same state, when writes of a register with one time and
    replica carry one value.  In it each counter has for each replica the largest
    count that was sent, and each register the newest write. *)
Theorem managers_converge updates updates' : all_agree (change_of <$> updates) -> (forall u, u ∈ updates <-> u ∈ updates') ->
  process_all updates NewStateManager = process_all updates' NewStateManager /\
  counters_ok (change_of <$> updates) (gCounters (process_all updates NewStateManager)) /\
  registers_ok (change_of <$> updates) (lwwRegisters (process_all updates NewStateManager)).
Proof.
  intros Ha Hset. rewrite !process_all_run. split; [|split; [apply run_counters|apply run_registers]].
  apply run_set; [|done]. intros c. rewrite !list_elem_of_fmap. split; intros (u & -> & Hu); exists u; (split; [done|]); by apply Hset.
Qed.
End convergence.

(** Values that are numbers, written as they are. *)
Definition plain_crdt : CrdtJson (V := Z) := {|
  json_LWWData b := match b with [v; t] => Some (mkLWWData (Some (u8 v)) (u8 t) [t]) | _ => None end;
  json_GCounterData b := match b with [r; n] => Some (mkGCounterData [r] (u8 n)) | _ => None end
|}.

(** Two data centers get two counts and a write in different orders, one twice. *)
Lemma managers_converge_witness :
  let a := (EncodeToString (str "counter:x"), EncodeToString [Byte.x01; Byte.x05]) in
  let b := (EncodeToString (str "counter:x"), EncodeToString [Byte.x02; Byte.x07]) in
  let c := (EncodeToString (str "lww:y"), EncodeToString [Byte.x08; Byte.x09]) in
  process_all (H := plain_crdt) [a; b; c] NewStateManager = process_all (H := plain_crdt) [c; b; a; b] NewStateManager.
Proof.
  intros a b c. apply (managers_converge (H := plain_crdt) [a; b; c] [c; b; a; b]); [|intros u; rewrite !elem_of_cons, elem_of_nil; tauto].
  assert (change_of (H := plain_crdt) <$> [a; b; c] = [ChangeCounter (str "counter:x") (mkGCounterData [Byte.x01] 5); ChangeCounter (str "counter:x") (mkGCounterData [Byte.x02] 7);
    ChangeLWW (str "lww:y") (mkLWWData (Some 8) 9 [Byte.x09])]) as -> by (vm_compute; reflexivity).
  intros x y Hx Hy. rewrite !elem_of_cons, elem_of_nil in Hx, Hy. by destruct Hx as [->|[->|[->|[]]]], Hy as [->|[->|[->|[]]]].
Defined.
