(* ===== verification/Config.v ===== *)
(** Configuration of the server: cmd/unisondb/config/config.go,
    internal/etc/parse.go, pkg/svcutils/{relayer_conf,grpc_client_conf}.go and the
    parts of cmd/unisondb/cliapp/server.go that turn a configuration file into
    the settings of the engines and the connections of the relayers.

    The file is already decoded.  A Go map is ranged over in an order that the
    caller gives as a list.  [ParseDuration] of package time, SHA-256, the reading
    of certificates and the dialing of connections are arguments. *)

From stdpp Require Import prelude list numbers gmap.
From Stdlib Require Import ZArith Lia.
From S2P Require Import Prelude Bytes Base64 WALog WalIO Paths GrpcUtils StreamClient.
Import Stdlib.Strings.String.StringSyntax.

(** ** Sizes *)

(** strings.ToUpper and strings.ToLower on ASCII letters; other letters do not
    occur in what is compared. *)
Definition upper (b : byte) : byte := if (97 <=? u8 b) && (u8 b <=? 122) then default b (Byte.of_N (Byte.to_N b - 32)) else b.
Definition lower (b : byte) : byte := if (65 <=? u8 b) && (u8 b <=? 90) then default b (Byte.of_N (Byte.to_N b + 32)) else b.
Definition ToUpper (s : bytes) : bytes := upper <$> s.
Definition ToLower (s : bytes) : bytes := lower <$> s.

Definition HasSuffix (s suffix : bytes) : bool := bool_decide (suffix `suffix_of` s).
Definition TrimSuffix (s suffix : bytes) : bytes := if HasSuffix s suffix then take (length s - length suffix) s else s.

(** strconv.ParseUint: [None] is a syntax error; a value out of range is the
    largest one and ends the scan. *)
Fixpoint parse_uint (acc : Z) (s : bytes) : option Z :=
  match s with
  | [] => Some acc
  | c :: s =>
      if (48 <=? u8 c) && (u8 c <=? 57) then
        let n := acc * 10 + (u8 c - 48) in
        if 2 ^ 64 - 1 <? n then Some (2 ^ 64 - 1) else parse_uint n s
      else None
  end.

Definition ParseUint (s : bytes) : option Z := match s with [] => None | _ => parse_uint 0 s end.

(** The value that strconv.ParseInt(s, 10, 64) returns, with or without an error. *)
Definition ParseInt (s : bytes) : Z :=
  let '(neg, digits) :=
    match s with
    | Byte.x2b :: r => (false, r)
    | Byte.x2d :: r => (true, r)
    | _ => (false, s)
    end in
  match ParseUint digits with
  | None => 0
  | Some un => if neg then - Z.min un (2 ^ 63) else Z.min un (2 ^ 63 - 1)
  end.

(** The errors of ParseInt are dropped, and the products wrap around. *)
Definition ParseSize (sizeStr : bytes) : Z :=
  let sizeStr := ToUpper (TrimSpace sizeStr) in
  if HasSuffix sizeStr (str "KB") then int64 (ParseInt (TrimSuffix sizeStr (str "KB")) * 1024)
  else if HasSuffix sizeStr (str "MB") then int64 (int64 (ParseInt (TrimSuffix sizeStr (str "MB")) * 1024) * 1024)
  else if HasSuffix sizeStr (str "GB") then int64 (int64 (int64 (ParseInt (TrimSuffix sizeStr (str "GB")) * 1024) * 1024) * 1024)
  else ParseInt sizeStr.

Definition MaxInt64 : Z := 2 ^ 63 - 1.
Definition MaxUint32 : Z := 2 ^ 32 - 1.

Definition clampInt64 (value min max : Z) : Z := if value <? min then min else if max <? value then max else value.

Definition clampToUint32 (value min : Z) : Z :=
  if value <? 0 then min else if MaxUint32 <? value then MaxUint32 else if value <? min then min else value.

(** ** Logging *)

Inductive Level := LevelDebug | LevelInfo | LevelWarn | LevelError.

Definition parseLogLevel (levelStr : bytes) : option Level :=
  let l := ToLower (TrimSpace levelStr) in
  if bool_decide (l = str "debug") then Some LevelDebug
  else if bool_decide (l = str "info") then Some LevelInfo
  else if bool_decide (l = str "warn" \/ l = str "warning") then Some LevelWarn
  else if bool_decide (l = str "error") then Some LevelError
  else if bool_decide (l = []) then Some LevelInfo
  else None.

Section levels.
Context {P : Type}.

Record percents := mkPercents { pc_Debug : P; pc_Info : P; pc_Warn : P; pc_Error : P }.

Definition set_percent (out : percents) (k : bytes) (v : P) : option percents :=
  let k := ToLower k in
  if bool_decide (k = str "debug") then Some (mkPercents v (pc_Info out) (pc_Warn out) (pc_Error out))
  else if bool_decide (k = str "info") then Some (mkPercents (pc_Debug out) v (pc_Warn out) (pc_Error out))
  else if bool_decide (k = str "warn") then Some (mkPercents (pc_Debug out) (pc_Info out) v (pc_Error out))
  else if bool_decide (k = str "error") then Some (mkPercents (pc_Debug out) (pc_Info out) (pc_Warn out) v)
  else None.

Fixpoint level_percents (out : percents) (m : list (bytes * P)) : option percents :=
  match m with
  | [] => Some out
  | (k, v) :: m => match set_percent out k v with Some out => level_percents out m | None => None end
  end.

(** [p100] and [p25] are the numbers 100.0 and 25.0. *)
Definition ParseLevelPercents (p100 p25 : P) (minLevelPercents : list (bytes * P)) : option percents :=
  level_percents (mkPercents p100 p25 p100 p100) minLevelPercents.
End levels.

(** ** Settings of the engines *)

Record WALCleanupConfig := mkCleanup { wc_Enabled : bool; wc_MaxAge : bytes; wc_MinSegments : Z; wc_MaxSegments : Z; wc_Interval : bytes }.

Record StorageConfig := mkStorage {
  BaseDir : bytes; st_Namespaces : list bytes; st_BytesPerSync : bytes; st_SegmentSize : bytes; st_ArenaSize : bytes; WalFsyncInterval : bytes;
  st_Cleanup : WALCleanupConfig; st_DisableEntryTypeCheck : bool
}.

Record WriteNotifyConfig := mkWriteNotify { wn_Enabled : bool; wn_MaxDelay : bytes }.

(** The fields of dbkernel.EngineConfig that the server sets; the others keep
    their defaults. *)
Record EngineSettings := mkSettings {
  es_ArenaSize : Z; es_Wal : WalIO.Config; es_Coalescing : bool; es_CoalescingDuration : Z; es_DisableEntryTypeCheck : bool; es_ReadOnly : bool; es_notified : bool
}.

Definition NewDefaultEngineConfig : EngineSettings := mkSettings (Z.shiftl 4 20) NewDefaultConfig false 0 false false false.

Definition with_wal_config (w : WalIO.Config) (s : EngineSettings) : EngineSettings :=
  mkSettings (es_ArenaSize s) w (es_Coalescing s) (es_CoalescingDuration s) (es_DisableEntryTypeCheck s) (es_ReadOnly s) (es_notified s).

Inductive setup_error :=
| ErrDuration | ErrMaxDelay | ErrCleanupInterval | ErrCleanupMaxAge | ErrNotifierPort | ErrNotifier | ErrOpenEngine
| ErrDial | ErrDuplicateNamespace | ErrNoConnection | ErrCredentials | ErrLogPercents | ErrLogLevel.

Section settings.
Context (ParseDuration : bytes -> option Z).

Definition set_sync_interval (s : bytes) (c : EngineSettings) : result setup_error EngineSettings :=
  if bool_decide (s = []) then Ok c else
  match ParseDuration s with
  | None => Err ErrDuration
  | Some duration =>
      let w := es_Wal c in
      Ok (with_wal_config (WalIO.mkConfig (BytesPerSync w) (SegmentSize w) (FSync w) duration (AutoCleanup w) (MaxAge w) (MinSegment w) (MaxSegment w) (CleanupInterval w)) c)
  end.

Definition set_segment_size (s : bytes) (c : EngineSettings) : EngineSettings :=
  if bool_decide (s = []) then c else
  let value := clampInt64 (ParseSize s) (Z.shiftl 4 20) MaxInt64 in
  let w := es_Wal c in
  with_wal_config (WalIO.mkConfig (BytesPerSync w) value (FSync w) (SyncInterval w) (AutoCleanup w) (MaxAge w) (MinSegment w) (MaxSegment w) (CleanupInterval w)) c.

Definition set_bytes_per_sync (s : bytes) (c : EngineSettings) : EngineSettings :=
  if bool_decide (s = []) then c else
  let value := clampToUint32 (ParseSize s) 512 in
  let w := es_Wal c in
  with_wal_config (WalIO.mkConfig value (SegmentSize w) (FSync w) (SyncInterval w) (AutoCleanup w) (MaxAge w) (MinSegment w) (MaxSegment w) (CleanupInterval w)) c.

Definition set_arena_size (s : bytes) (c : EngineSettings) : EngineSettings :=
  if bool_decide (s = []) then c else
  let value := clampInt64 (ParseSize s) (Z.shiftl 1 20) MaxInt64 in
  mkSettings value (es_Wal c) (es_Coalescing c) (es_CoalescingDuration c) (es_DisableEntryTypeCheck c) (es_ReadOnly c) (es_notified c).

Definition set_write_notify (n : WriteNotifyConfig) (c : EngineSettings) : result setup_error EngineSettings :=
  if negb (wn_Enabled n) then Ok c else
  match ParseDuration (wn_MaxDelay n) with
  | None => Err ErrDuration
  | Some dur =>
      if dur <=? 1 then Err ErrMaxDelay else
      Ok (mkSettings (es_ArenaSize c) (es_Wal c) true dur (es_DisableEntryTypeCheck c) (es_ReadOnly c) (es_notified c))
  end.

Definition setupWalCleanup (cl : WALCleanupConfig) (c : EngineSettings) : result setup_error EngineSettings :=
  if negb (wc_Enabled cl) then Ok c else
  match ParseDuration (wc_Interval cl) with
  | None => Err ErrDuration
  | Some cleanUpDur =>
      if cleanUpDur <=? 1 then Err ErrCleanupInterval else
      match ParseDuration (wc_MaxAge cl) with
      | None => Err ErrDuration
      | Some dur =>
          if dur <=? 1 then Err ErrCleanupMaxAge else
          let w := es_Wal c in
          Ok (with_wal_config (WalIO.mkConfig (BytesPerSync w) (SegmentSize w) (FSync w) (SyncInterval w) true dur (wc_MinSegments cl) (wc_MaxSegments cl) cleanUpDur) c)
      end
  end.

Definition SetupStorageConfig (st : StorageConfig) (n : WriteNotifyConfig) : result setup_error EngineSettings :=
  match set_sync_interval (WalFsyncInterval st) NewDefaultEngineConfig with
  | Err e => Err e
  | Ok c =>
      let c := set_arena_size (st_ArenaSize st) (set_bytes_per_sync (st_BytesPerSync st) (set_segment_size (st_SegmentSize st) c)) in
      match set_write_notify n c with
      | Err e => Err e
      | Ok c =>
          let c := mkSettings (es_ArenaSize c) (es_Wal c) (es_Coalescing c) (es_CoalescingDuration c) (st_DisableEntryTypeCheck st) (es_ReadOnly c) (es_notified c) in
          setupWalCleanup (st_Cleanup st) c
      end
  end.

(** The interval and the burst of the limiter that restarts relayers. *)
Definition BuildLimiter (interval : bytes) (burst : Z) : option (Z * Z) :=
  let burst := if 0 <? burst then burst else 3 in
  if bool_decide (interval = []) then Some (Second, burst) else
  match ParseDuration interval with
  | None => None
  | Some parsed => Some (parsed, burst)
  end.
End settings.

(** ** Relays *)

Record RelayConfig := mkRelay {
  rc_Namespaces : list bytes; rc_CertPath : bytes; rc_KeyPath : bytes; rc_CAPath : bytes; UpstreamAddress : bytes; GrpcServiceConfig : bytes;
  SegmentLagThreshold : Z; rc_AllowInsecure : bool
}.

(** strconv.Itoa *)
Definition Itoa (z : Z) : bytes := if z <? 0 then Byte.x2d :: decimal 20 (- z) else decimal 20 z.

Definition bar : byte := Byte.x7c.

Definition relay_text (relay : RelayConfig) : bytes :=
  rc_CertPath relay ++ bar :: rc_KeyPath relay ++ bar :: rc_CAPath relay ++ bar :: UpstreamAddress relay ++ bar :: GrpcServiceConfig relay ++
    bar :: Itoa (SegmentLagThreshold relay).

Definition HashRelayConfig (sha256 : bytes -> bytes) (relay : RelayConfig) : bytes := hex_EncodeToString (sha256 (relay_text relay)).

(** pkg/svcutils *)
Record RetryPolicy := mkRetryPolicy { MaxAttempts : Z; InitialBackoff : bytes; MaxBackoff : bytes; BackoffMultiplier : Z * Z; RetryableStatusCodes : list bytes }.
Record MethodConfig := mkMethodConfig { mc_Name : list (bytes * bytes); mc_RetryPolicy : RetryPolicy; WaitForReady : bool }.
Record ServiceConfig := mkServiceConfig { ShuffleAddressList : bool; sc_MethodConfig : list MethodConfig }.

(** The multiplier 1.5 is the fraction 3/2. *)
Definition BuildDefaultRelayerServiceConfig : ServiceConfig :=
  let service := str "unisondb.streamer.v1.WalStreamerService" in
  mkServiceConfig true
    [mkMethodConfig [(service, str "StreamWalRecords"); (service, str "GetLatestOffset")]
       (mkRetryPolicy 5 (str "0.2s") (str "5s") (3, 2) [str "UNAVAILABLE"]) false].

(** A service configuration from the file, or the default one as JSON. *)
Inductive service_config := GivenConfig (json : bytes) | DefaultConfig (c : ServiceConfig).

Inductive credentials := InsecureCreds | MTLSCreds (cert key ca : bytes) | TLSCreds (ca : bytes).

(** What the connection was dialed with. *)
Record ClientConn := mkConn { conn_target : bytes; conn_creds : credentials; conn_service : service_config }.

Section relays.
Context (sha256 : bytes -> bytes).
(** Certificates can be loaded, and grpc.NewClient takes the options. *)
Context (credsOk : credentials -> bool) (NewClient : ClientConn -> bool).

Definition relay_creds (cfg : RelayConfig) : credentials :=
  if rc_AllowInsecure cfg then InsecureCreds
  else if bool_decide (rc_CertPath cfg <> [] /\ rc_KeyPath cfg <> []) then MTLSCreds (rc_CertPath cfg) (rc_KeyPath cfg) (rc_CAPath cfg)
  else TLSCreds (rc_CAPath cfg).

Definition NewRelayerGRPCConn (cfg : RelayConfig) : option ClientConn :=
  let creds := relay_creds cfg in
  if rc_AllowInsecure cfg || credsOk creds then
    let conn := mkConn (UpstreamAddress cfg) creds
      (if bool_decide (GrpcServiceConfig cfg = []) then DefaultConfig BuildDefaultRelayerServiceConfig else GivenConfig (GrpcServiceConfig cfg)) in
    if NewClient conn then Some conn else None
  else None.

(** The connections by hash and by namespace. *)
Fixpoint grpc_clients (relays : list RelayConfig) (relayHashToConn namespaceToConn : gmap bytes ClientConn) : result setup_error (gmap bytes ClientConn) :=
  match relays with
  | [] => Ok namespaceToConn
  | relay :: relays =>
      let hash := HashRelayConfig sha256 relay in
      match (match relayHashToConn !! hash with Some conn => Some conn | None => NewRelayerGRPCConn relay end) with
      | None => Err ErrDial
      | Some conn => grpc_clients relays (<[hash := conn]> relayHashToConn) (foldl (fun m ns => <[ns := conn]> m) namespaceToConn (rc_Namespaces relay))
      end
  end.

Definition buildNamespaceGrpcClients (relays : list RelayConfig) : result setup_error (gmap bytes ClientConn) := grpc_clients relays ∅ ∅.

Fixpoint lag_of_namespaces (threshold : Z) (namespaces : list bytes) (m : gmap bytes Z) : result setup_error (gmap bytes Z) :=
  match namespaces with
  | [] => Ok m
  | ns :: namespaces =>
      match m !! ns with
      | Some _ => Err ErrDuplicateNamespace
      | None => lag_of_namespaces threshold namespaces (<[ns := threshold]> m)
      end
  end.

Fixpoint lag_map (relays : list RelayConfig) (m : gmap bytes Z) : result setup_error (gmap bytes Z) :=
  match relays with
  | [] => Ok m
  | relay :: relays =>
      match lag_of_namespaces (SegmentLagThreshold relay) (rc_Namespaces relay) m with
      | Err e => Err e
      | Ok m => lag_map relays m
      end
  end.

Definition buildNamespaceSegmentLagMap (relays : list RelayConfig) : result setup_error (gmap bytes Z) := lag_map relays ∅.
End relays.
