(* ===== verification/Server.v ===== *)
(** The server: cmd/unisondb/cliapp/server.go and Run of cmd/unisondb/main.go.

    The steps of the set up build a [Server]; each leaves a callback for the
    shutdown, which runs them in the reverse order.  Engines and notifiers are
    opened by functions that are arguments.  Between set up and shutdown the
    services run as a group that ends with the first error or a signal; what each
    of them does meanwhile is modelled with the services.  Telemetry and log lines
    are left out, as is a panic, which ends the process at once. *)

From stdpp Require Import prelude list numbers gmap.
From Stdlib Require Import ZArith Lia.
From S2P Require Import Prelude Bytes WALog WalIO GrpcUtils GrpcStats Relayer Config.
Import Stdlib.Strings.String.StringSyntax.

Inductive run_mode := modeReplicator | modeRelayer | modeFuzzer.
#[global] Instance run_mode_eq_dec : EqDecision run_mode.
Proof. solve_decision. Defined.

(** ** Configuration *)

Record NotifierConfig := mkNotifierConfig { BindPort : Z; HighWaterMark : Z; LingerTime : Z }.

Record GrpcConfig := mkGrpcConfig { gr_ListenIP : bytes; gr_Port : Z; gr_CertPath : bytes; gr_KeyPath : bytes; gr_CAPath : bytes; gr_AllowInsecure : bool }.

Record FuzzConfig := mkFuzzConfig { OpsPerNamespace : Z; WorkersPerNamespace : Z; LocalRelayerCount : Z; StartupDelay : bytes; EnableReadOps : bool }.

Record Limiter := mkLimiter { li_Interval : bytes; li_Burst : Z }.

(** Percentages are kept as the bits of their floating-point numbers. *)
Record ServerConfig := mkServerConfig {
  cf_Grpc : GrpcConfig; cf_Storage : StorageConfig; cf_PProf : bool; cf_Relays : gmap bytes RelayConfig; cf_WalLimiter : option (Z * Z);
  cf_WriteNotify : WriteNotifyConfig; cf_Notifiers : gmap bytes NotifierConfig; cf_MinLevelPercents : list (bytes * Z); cf_LogLevel : bytes;
  cf_ListenIP : bytes; cf_HTTPPort : Z; cf_Limiter : Limiter; cf_Fuzz : FuzzConfig
}.

(** 100.0 and 25.0 *)
Definition float_100 : Z := 0x4059000000000000.
Definition float_25 : Z := 0x4039000000000000.

Definition isValidPort (port : Z) : bool := (1 <=? port) && (port <=? 65535).

(** ** The server *)

(** What a callback of the shutdown stops or closes. *)
Inductive callback := CloseMetrics | CloseNotifier (ns : bytes) | CloseEngine (ns : bytes) | StopGrpc | StopHttp | CloseConnections | StopPprof.

(** A relayer: its namespace, connection, lag threshold and, when there is one,
    the limiter shared by all. *)
Record relayerWithInfo := mkRelayerInfo { ri_namespace : bytes; ri_conn : ClientConn; ri_threshold : Z; ri_limiter : option (Z * Z) }.

Section server.
(** Engines and notifiers. *)
Context {E N : Type}.

Record Server := mkServer {
  sv_mode : run_mode; sv_cfg : ServerConfig; sv_relayerGRPC : bool;
  sv_engines : gmap bytes E; sv_storageConfig : option EngineSettings; sv_notifiers : gmap bytes N;
  sv_grpc : option (gmap bytes bool); sv_http : bool; sv_pprof : bool;
  sv_connections : gmap bytes ClientConn; sv_relayers : list relayerWithInfo;
  DeferCallback : list callback
}.

(** What lies outside: durations, notifiers, engines, certificates, connections,
    and the orders in which maps are ranged over. *)
Record World := mkWorld {
  w_ParseDuration : bytes -> option Z;
  w_sha256 : bytes -> bytes;
  w_NewNotifier : bytes -> NotifierConfig -> option N;
  w_NewStorageEngine : bytes -> EngineSettings -> option E;
  w_credsOk : credentials -> bool;
  w_NewClient : ClientConn -> bool;
  w_notifiers : list (bytes * NotifierConfig);
  w_relays : list RelayConfig;
  w_relays_lag : list RelayConfig;
  w_engines : list bytes
}.
Context (w : World).

Definition new_server (cfg : ServerConfig) (mode : run_mode) (relayerGRPC : bool) : Server :=
  mkServer mode cfg relayerGRPC ∅ None ∅ None false false ∅ [] [].

(** The file has been read and decoded. *)
Definition InitFromCLI (cfg : ServerConfig) (mode : run_mode) (relayerGRPC : bool) : result setup_error Server :=
  match ParseLevelPercents float_100 float_25 (cf_MinLevelPercents cfg) with
  | None => Err ErrLogPercents
  | Some _ =>
      match parseLogLevel (cf_LogLevel cfg) with
      | None => Err ErrLogLevel
      | Some _ => Ok (new_server cfg mode relayerGRPC)
      end
  end.

Definition defer (c : callback) (s : Server) : Server :=
  mkServer (sv_mode s) (sv_cfg s) (sv_relayerGRPC s) (sv_engines s) (sv_storageConfig s) (sv_notifiers s) (sv_grpc s) (sv_http s) (sv_pprof s)
    (sv_connections s) (sv_relayers s) (DeferCallback s ++ [c]).

Definition InitTelemetry (s : Server) : result setup_error Server := Ok (defer CloseMetrics s).

Definition with_storageConfig (c : EngineSettings) (s : Server) : Server :=
  mkServer (sv_mode s) (sv_cfg s) (sv_relayerGRPC s) (sv_engines s) (Some c) (sv_notifiers s) (sv_grpc s) (sv_http s) (sv_pprof s)
    (sv_connections s) (sv_relayers s) (DeferCallback s).

Definition setup_storage_config (s : Server) : result setup_error Server :=
  match SetupStorageConfig (w_ParseDuration w) (cf_Storage (sv_cfg s)) (cf_WriteNotify (sv_cfg s)) with
  | Err e => Err e
  | Ok c => Ok (with_storageConfig c s)
  end.

Definition with_notifier (ns : bytes) (n : N) (s : Server) : Server :=
  mkServer (sv_mode s) (sv_cfg s) (sv_relayerGRPC s) (sv_engines s) (sv_storageConfig s) (<[ns := n]> (sv_notifiers s)) (sv_grpc s) (sv_http s) (sv_pprof s)
    (sv_connections s) (sv_relayers s) (DeferCallback s).

Fixpoint setup_notifiers (l : list (bytes * NotifierConfig)) (s : Server) : result setup_error Server :=
  match l with
  | [] => Ok s
  | (ns, c) :: l =>
      if bool_decide (ns ∉ st_Namespaces (cf_Storage (sv_cfg s))) then setup_notifiers l s else
      if negb (isValidPort (BindPort c)) then Err ErrNotifierPort else
      match w_NewNotifier w ns c with
      | None => Err ErrNotifier
      | Some n => setup_notifiers l (defer (CloseNotifier ns) (with_notifier ns n s))
      end
  end.

Definition SetupNotifier (s : Server) : result setup_error Server := setup_notifiers (w_notifiers w) s.

(** The settings of one engine: a copy of the common ones. *)
Definition engine_settings (c : EngineSettings) (ns : bytes) (s : Server) : EngineSettings :=
  mkSettings (es_ArenaSize c) (es_Wal c) (es_Coalescing c) (es_CoalescingDuration c) (es_DisableEntryTypeCheck c)
    (es_ReadOnly c || bool_decide (sv_mode s = modeRelayer)) (bool_decide (is_Some (sv_notifiers s !! ns))).

Definition with_engine (ns : bytes) (e : E) (s : Server) : Server :=
  mkServer (sv_mode s) (sv_cfg s) (sv_relayerGRPC s) (<[ns := e]> (sv_engines s)) (sv_storageConfig s) (sv_notifiers s) (sv_grpc s) (sv_http s) (sv_pprof s)
    (sv_connections s) (sv_relayers s) (DeferCallback s).

Fixpoint open_engines (c : EngineSettings) (namespaces : list bytes) (s : Server) : result setup_error Server :=
  match namespaces with
  | [] => Ok s
  | ns :: namespaces =>
      match w_NewStorageEngine w ns (engine_settings c ns s) with
      | None => Err ErrOpenEngine
      | Some e => open_engines c namespaces (defer (CloseEngine ns) (with_engine ns e s))
      end
  end.

Definition SetupStorage (s : Server) : outcome (result setup_error Server) :=
  match st_Namespaces (cf_Storage (sv_cfg s)), sv_storageConfig s with
  | [], _ => Ret (Ok s)
  | _, None => Panic
  | namespaces, Some c => Ret (open_engines c namespaces s)
  end.

(** The methods of which requests are logged: all registered ones but one. *)
Definition logged_methods (grpcMethods : gmap bytes stream_kind) : gmap bytes bool :=
  <[str "/unisondb.streamer.v1.WalStreamerService/GetLatestOffset" := false]> ((fun _ => true) <$> grpcMethods).

Definition with_grpc (m : gmap bytes bool) (s : Server) : Server :=
  mkServer (sv_mode s) (sv_cfg s) (sv_relayerGRPC s) (sv_engines s) (sv_storageConfig s) (sv_notifiers s) (Some m) (sv_http s) (sv_pprof s)
    (sv_connections s) (sv_relayers s) (DeferCallback s).

Definition SetupGrpcServer (services : list ServiceDesc) (s : Server) : outcome (result setup_error Server) :=
  if bool_decide (sv_mode s = modeRelayer) && negb (sv_relayerGRPC s) then Ret (Ok s) else
  ir ← NewStatefulInterceptor (Some (logged_methods (RegisterGRPCSMethods services)));
  let g := cf_Grpc (sv_cfg s) in
  if negb (gr_AllowInsecure g) && negb (w_credsOk w (MTLSCreds (gr_CertPath g) (gr_KeyPath g) (gr_CAPath g))) then Ret (Err ErrCredentials) else
  Ret (Ok (defer StopGrpc (with_grpc (LogRequestEnabledMethod ir) s))).

Definition SetupHTTPServer (s : Server) : result setup_error Server :=
  Ok (defer StopHttp (mkServer (sv_mode s) (sv_cfg s) (sv_relayerGRPC s) (sv_engines s) (sv_storageConfig s) (sv_notifiers s) (sv_grpc s) true (sv_pprof s)
    (sv_connections s) (sv_relayers s) (DeferCallback s))).

Definition with_connections (conns : gmap bytes ClientConn) (s : Server) : Server :=
  mkServer (sv_mode s) (sv_cfg s) (sv_relayerGRPC s) (sv_engines s) (sv_storageConfig s) (sv_notifiers s) (sv_grpc s) (sv_http s) (sv_pprof s)
    conns (sv_relayers s) (DeferCallback s).

Definition with_relayer (r : relayerWithInfo) (s : Server) : Server :=
  mkServer (sv_mode s) (sv_cfg s) (sv_relayerGRPC s) (sv_engines s) (sv_storageConfig s) (sv_notifiers s) (sv_grpc s) (sv_http s) (sv_pprof s)
    (sv_connections s) (sv_relayers s ++ [r]) (DeferCallback s).

(** The loop over the engines; a missing threshold is zero. *)
Fixpoint relay_engines (conns : gmap bytes ClientConn) (lagConf : gmap bytes Z) (limiter : option (Z * Z)) (engines : list bytes) (s : Server) : result setup_error Server :=
  match engines with
  | [] => Ok s
  | ns :: engines =>
      match conns !! ns with
      | None => Err ErrNoConnection
      | Some conn => relay_engines conns lagConf limiter engines (with_relayer (mkRelayerInfo ns conn (default 0 (lagConf !! ns)) limiter) s)
      end
  end.

Definition SetupRelayer (s : Server) : result setup_error Server :=
  if negb (bool_decide (sv_mode s = modeRelayer)) then Ok s else
  match buildNamespaceGrpcClients (w_sha256 w) (w_credsOk w) (w_NewClient w) (w_relays w) with
  | Err e => Err e
  | Ok conns =>
      let s := defer CloseConnections (with_connections conns s) in
      match buildNamespaceSegmentLagMap (w_relays_lag w) with
      | Err e => Err e
      | Ok lagConf => relay_engines conns lagConf (cf_WalLimiter (sv_cfg s)) (w_engines w) s
      end
  end.

Definition SetupPprofServer (s : Server) : result setup_error Server :=
  if negb (cf_PProf (sv_cfg s)) then Ok s else
  Ok (defer StopPprof (mkServer (sv_mode s) (sv_cfg s) (sv_relayerGRPC s) (sv_engines s) (sv_storageConfig s) (sv_notifiers s) (sv_grpc s) (sv_http s) true
    (sv_connections s) (sv_relayers s) (DeferCallback s))).

(** ** Run *)

(** A step of the set up after the ones before it. *)
Definition and_then (r : outcome (result setup_error Server)) (f : Server -> outcome (result setup_error Server)) : outcome (result setup_error Server) :=
  x ← r; match x with Err e => Ret (Err e) | Ok s => f s end.

Definition setup (services : list ServiceDesc) (cfg : ServerConfig) (mode : run_mode) (relayerGRPC : bool) : outcome (result setup_error Server) :=
  let r := Ret (InitFromCLI cfg mode relayerGRPC) in
  let r := and_then r (fun s => Ret (InitTelemetry s)) in
  let r := and_then r (fun s => Ret (setup_storage_config s)) in
  let r := and_then r (fun s => Ret (SetupNotifier s)) in
  let r := and_then r SetupStorage in
  let r := and_then r (SetupGrpcServer services) in
  let r := and_then r (fun s => Ret (SetupHTTPServer s)) in
  let r := and_then r (fun s => Ret (SetupRelayer s)) in
  and_then r (fun s => Ret (SetupPprofServer s)).

(** The callbacks in the order in which they run. *)
Definition shutdown (s : Server) : list callback := reverse (DeferCallback s).

(** ** The services *)

Inductive service := SvcGrpc | SvcHTTP | SvcRelayer | SvcFuzzer | SvcPprof | SvcLogOffset | SvcStreamAge.
#[global] Instance service_eq_dec : EqDecision service.
Proof. solve_decision. Defined.

Definition runFns : list service := [SvcGrpc; SvcHTTP; SvcRelayer; SvcFuzzer; SvcPprof; SvcLogOffset; SvcStreamAge].

Inductive serve_error := ErrServerClosed | EServe.

Inductive run_error := ErrListen (ip : bytes) (port : Z) | ErrServed (e : serve_error) | ErrRetryInterval | ErrFuzzConfig | ErrStartupDelay.

(** A service: not scheduled yet, at its select, with the relayers whose loops
    still run, asleep before the fuzzing, fuzzing, or returned. *)
Inductive phase := Waiting | Serving | Relaying (loops : list bool) | Sleeping | Fuzzing | Returned (err : option run_error).

Definition listen_ip (ip : bytes) : bytes := if bool_decide (ip = []) then str "0.0.0.0" else ip.

(** [listens] says whether an address can be listened on. *)
Definition listen (listens : bytes -> Z -> bool) (ip : bytes) (port : Z) : phase :=
  if listens (listen_ip ip) port then Serving else Returned (Some (ErrListen (listen_ip ip) port)).

Definition RunGrpc (listens : bytes -> Z -> bool) (s : Server) : phase :=
  match sv_grpc s with
  | None => Returned None
  | Some _ => listen listens (gr_ListenIP (cf_Grpc (sv_cfg s))) (gr_Port (cf_Grpc (sv_cfg s)))
  end.

Definition RunHTTP (listens : bytes -> Z -> bool) (s : Server) : phase := listen listens (cf_ListenIP (sv_cfg s)) (cf_HTTPPort (sv_cfg s)).

(** The group of the loops waits for all of them; none returns an error. *)
Definition relay_group (loops : list bool) : phase := if existsb (fun b => b) loops then Relaying loops else Returned None.

Definition StartRelayer (s : Server) : phase :=
  if negb (bool_decide (sv_mode s = modeRelayer)) then Returned None else
  match BuildLimiter (w_ParseDuration w) (li_Interval (cf_Limiter (sv_cfg s))) (li_Burst (cf_Limiter (sv_cfg s))) with
  | None => Returned (Some ErrRetryInterval)
  | Some _ => relay_group (replicate (length (sv_relayers s)) true)
  end.

(** The workers, the monitor and the local relayers run until the context is
    done, and return no error. *)
Definition RunFuzzer (s : Server) : phase :=
  let f := cf_Fuzz (sv_cfg s) in
  if negb (bool_decide (sv_mode s = modeFuzzer)) then Returned None else
  if (OpsPerNamespace f =? 0) || (WorkersPerNamespace f =? 0) then Returned (Some ErrFuzzConfig) else
  if bool_decide (StartupDelay f = []) then Fuzzing else
  match w_ParseDuration w (StartupDelay f) with
  | None => Returned (Some ErrStartupDelay)
  | Some delay => if 0 <? delay then Sleeping else Fuzzing
  end.

Definition RunPprofServer (s : Server) : phase := if cf_PProf (sv_cfg s) then Serving else Returned None.

Definition PeriodicLogEngineOffset (s : Server) : phase := Serving.

(** The handler of the statistics is set up with the server. *)
Definition PeriodicGrpcUpdateStreamAgeBuckets (s : Server) : phase := match sv_grpc s with None => Returned None | Some _ => Serving end.

Definition begin_service (listens : bytes -> Z -> bool) (s : Server) (svc : service) : phase :=
  match svc with
  | SvcGrpc => RunGrpc listens s
  | SvcHTTP => RunHTTP listens s
  | SvcRelayer => StartRelayer s
  | SvcFuzzer => RunFuzzer s
  | SvcPprof => RunPprofServer s
  | SvcLogOffset => PeriodicLogEngineOffset s
  | SvcStreamAge => PeriodicGrpcUpdateStreamAgeBuckets s
  end.

(** What a service returns when its Serve has returned; the others have none. *)
Definition serve_returns (svc : service) (err : option serve_error) : option (option run_error) :=
  match svc with
  | SvcGrpc => Some (ErrServed <$> err)
  | SvcHTTP | SvcPprof => Some (match err with Some ErrServerClosed | None => None | Some e => Some (ErrServed e) end)
  | _ => None
  end.

(** ** The group of the services *)

(** The services, whether their context is done, and the error of the group. *)
Record Group := mkGroup { g_phases : service -> phase; g_done : bool; g_err : option run_error }.

Definition new_group : Group := mkGroup (fun _ => Waiting) false None.

Definition phase_error (ph : phase) : option run_error := match ph with Returned err => err | _ => None end.

(** The first error is kept, and cancels the context of the others. *)
Definition set_phase (svc : service) (ph : phase) (g : Group) : Group :=
  mkGroup (fun x => if decide (x = svc) then ph else g_phases g x) (g_done g || bool_decide (is_Some (phase_error ph)))
    (match g_err g with Some e => Some e | None => phase_error ph end).

(** A turn of a relayer's loop before the context is done. *)
Definition undisturbed (t : turn) : bool := negb (t_done t) && t_limiter t && negb (t_done_after t) && negb (t_done_waiting t).

Inductive service_event :=
| Signal
| Starts (listens : bytes -> Z -> bool) (svc : service)
| Serves (svc : service) (err : option serve_error)
| LoopOver (i : nat) (turns : list turn)
| Wakes
| SeesDone (svc : service).

(** A sleeping fuzzer does not look at the context. *)
Definition group_step (s : Server) (ev : service_event) (g : Group) : option Group :=
  match ev with
  | Signal => Some (mkGroup (g_phases g) true (g_err g))
  | Starts listens svc => match g_phases g svc with Waiting => Some (set_phase svc (begin_service listens s svc) g) | _ => None end
  | Serves svc err =>
      match g_phases g svc, serve_returns svc err with
      | Serving, Some r => Some (set_phase svc (Returned r) g)
      | _, _ => None
      end
  | LoopOver i turns =>
      match g_phases g SvcRelayer with
      | Relaying loops =>
          if bool_decide (loops !! i = Some true) && (g_done g || forallb undisturbed turns) && (RunLoop DefaultClassifier turns).2
          then Some (set_phase SvcRelayer (relay_group (<[i := false]> loops)) g) else None
      | _ => None
      end
  | Wakes => match g_phases g SvcFuzzer with Sleeping => Some (set_phase SvcFuzzer Fuzzing g) | _ => None end
  | SeesDone svc =>
      if negb (g_done g) then None else
      match g_phases g svc with Serving | Fuzzing => Some (set_phase svc (Returned None) g) | _ => None end
  end.

Fixpoint group_run (s : Server) (evs : list service_event) (g : Group) : option Group :=
  match evs with
  | [] => Some g
  | ev :: evs => match group_step s ev g with Some g => group_run s evs g | None => None end
  end.

Definition returned (ph : phase) : bool := match ph with Returned _ => true | _ => false end.

(** Wait returns when every service has. *)
Definition Wait (g : Group) : option (option run_error) := if forallb (fun svc => returned (g_phases g svc)) runFns then Some (g_err g) else None.

(** The callbacks that have run when the process ends and the error it ends
    with, [None] while it runs, or the error of the set up. *)
Definition Run (services : list ServiceDesc) (cfg : ServerConfig) (mode : run_mode) (relayerGRPC : bool) (evs : list service_event)
  : outcome (result setup_error (option (list callback * option run_error))) :=
  r ← setup services cfg mode relayerGRPC;
  Ret (match r with
       | Err e => Err e
       | Ok s => Ok (match group_run s evs new_group ≫= Wait with None => None | Some err => Some (shutdown s, err) end)
       end).
End server.
Arguments Server : clear implicits.
Arguments World : clear implicits.
