(* ===== verification/ServerFacts.v ===== *)
(** What a configuration becomes: settings in range, a connection and a threshold
    for every relayed namespace, services that run until they are told to stop,
    and an orderly shutdown. *)

From stdpp Require Import prelude list numbers gmap.
From Stdlib Require Import ZArith Lia.
From S2P Require Import Prelude Bytes Base64 WALog WalIO Engine Paths GrpcUtils StreamClient GrpcStats Relayer Config Server.
Import Stdlib.Strings.String.StringSyntax.

(** ** Settings *)

(** The least and largest values that the engines get. *)
Record settings_ok (c : EngineSettings) : Prop := {
  sk_segment : Z.shiftl 4 20 <= SegmentSize (es_Wal c) <= MaxInt64;
  sk_sync : 512 <= BytesPerSync (es_Wal c) <= MaxUint32;
  sk_arena : Z.shiftl 1 20 <= es_ArenaSize c <= MaxInt64;
  sk_coalescing : es_Coalescing c = true -> 1 < es_CoalescingDuration c;
  sk_cleanup : AutoCleanup (es_Wal c) = true -> 1 < MaxAge (es_Wal c) /\ 1 < CleanupInterval (es_Wal c);
  sk_readOnly : es_ReadOnly c = false
}.

Lemma clampInt64_range v lo hi : lo <= hi -> lo <= clampInt64 v lo hi <= hi.
Proof. unfold clampInt64. intros. destruct (Z.ltb_spec v lo); [lia|]. destruct (Z.ltb_spec hi v); lia. Qed.

Lemma clampToUint32_range v lo : 0 <= lo <= MaxUint32 -> lo <= clampToUint32 v lo <= MaxUint32.
Proof. unfold clampToUint32. intros. destruct (Z.ltb_spec v 0); [lia|]. destruct (Z.ltb_spec MaxUint32 v); [lia|]. destruct (Z.ltb_spec v lo); lia. Qed.

Lemma default_settings_ok : settings_ok NewDefaultEngineConfig.
Proof. by split; vm_compute. Qed.

Section settings.
Context (ParseDuration : bytes -> option Z).

Lemma set_sync_interval_ok s c c' : settings_ok c -> set_sync_interval ParseDuration s c = Ok c' -> settings_ok c'.
Proof. intros [] Hs. unfold set_sync_interval in Hs. repeat case_match; simplify_eq; by split. Qed.

Lemma set_segment_size_ok s c : settings_ok c -> settings_ok (set_segment_size s c).
Proof. intros [? ? ? ? ? ?]. unfold set_segment_size. case_bool_decide; [by split|]. split; try done. cbn. by apply clampInt64_range. Qed.

Lemma set_bytes_per_sync_ok s c : settings_ok c -> settings_ok (set_bytes_per_sync s c).
Proof. intros [? ? ? ? ? ?]. unfold set_bytes_per_sync. case_bool_decide; [by split|]. split; try done. cbn. by apply clampToUint32_range. Qed.

Lemma set_arena_size_ok s c : settings_ok c -> settings_ok (set_arena_size s c).
Proof. intros [? ? ? ? ? ?]. unfold set_arena_size. case_bool_decide; [by split|]. split; try done. cbn. by apply clampInt64_range. Qed.

Lemma set_write_notify_ok n c c' : settings_ok c -> set_write_notify ParseDuration n c = Ok c' -> settings_ok c'.
Proof.
  intros [? ? ? ? ? ?] Hs. unfold set_write_notify in Hs. destruct (negb _); [by injection Hs as <-|]. destruct (ParseDuration _) as [d|]; [|done].
  destruct (Z.leb_spec d 1); [done|]. injection Hs as <-. by split.
Qed.

Lemma setupWalCleanup_ok cl c c' : settings_ok c -> setupWalCleanup ParseDuration cl c = Ok c' -> settings_ok c'.
Proof.
  intros [? ? ? ? ? ?] Hs. unfold setupWalCleanup in Hs. destruct (negb _); [by injection Hs as <-|]. destruct (ParseDuration (wc_Interval cl)) as [i|]; [|done].
  destruct (Z.leb_spec i 1); [done|]. destruct (ParseDuration (wc_MaxAge cl)) as [d|]; [|done]. destruct (Z.leb_spec d 1); [done|]. injection Hs as <-. by split.
Qed.

Lemma storage_config_range st n :
  match SetupStorageConfig ParseDuration st n with
  | Ok c => settings_ok c /\ minArenaSize <= es_ArenaSize c
  | Err e => e = ErrDuration \/ e = ErrMaxDelay \/ e = ErrCleanupInterval \/ e = ErrCleanupMaxAge
  end.
Proof.
  assert (forall c, settings_ok c -> minArenaSize <= es_ArenaSize c) as Hmin by (intros c [? ? [? ?] ? ? ?]; unfold minArenaSize; change (Z.shiftl 1 20) with 1048576 in *; lia).
  unfold SetupStorageConfig. destruct (set_sync_interval _ _ _) as [c|e] eqn:Hs.
  2: { unfold set_sync_interval in Hs. repeat case_match; simplify_eq; auto. }
  apply set_sync_interval_ok in Hs; [|apply default_settings_ok].
  pose proof (set_arena_size_ok (st_ArenaSize st) _ (set_bytes_per_sync_ok (st_BytesPerSync st) _ (set_segment_size_ok (st_SegmentSize st) c Hs))) as Hc.
  destruct (set_write_notify _ _ _) as [c1|e] eqn:Hw.
  2: { unfold set_write_notify in Hw. repeat case_match; simplify_eq; auto. }
  apply set_write_notify_ok in Hw; [|done]. destruct (setupWalCleanup _ _ _) as [c2|e] eqn:Hcl.
  - apply setupWalCleanup_ok in Hcl; [auto|]. destruct Hw. by split.
  - unfold setupWalCleanup in Hcl. repeat case_match; simplify_eq; auto.
Qed.

(** Whatever sizes and durations the configuration file holds, the engines are
    set up with segments of at least 4 MiB, syncs after 512 bytes to 4 GiB, tables
    of at least 1 MiB, which is enough to be opened, and positive delays; or the
    set up is refused because of a duration. *)
Theorem settings_are_in_range st n :
  match SetupStorageConfig ParseDuration st n with
  | Ok c => settings_ok c /\ minArenaSize <= es_ArenaSize c
  | Err e => e = ErrDuration \/ e = ErrMaxDelay \/ e = ErrCleanupInterval \/ e = ErrCleanupMaxAge
  end.
Proof. apply storage_config_range. Qed.
End settings.

(** Sizes wrap around: a size beyond the range of int64 can become a small one,
    and a space in front of the unit makes it zero. *)
Lemma sizes_wrap_around : ParseSize (str "17179869185GB") = 2 ^ 30 /\ ParseSize (str "8589934592GB") = - 2 ^ 63 /\ ParseSize (str "64 MB") = 0 /\ ParseSize (str "64mb") = 64 * 2 ^ 20.
Proof. by vm_compute. Qed.

(** ** Thresholds *)

Lemma lag_of_namespaces_spec t nss : forall m m', lag_of_namespaces t nss m = Ok m' ->
  (forall ns, ns ∈ nss -> m !! ns = None /\ m' !! ns = Some t) /\ (forall ns, ns ∉ nss -> m' !! ns = m !! ns).
Proof.
  induction nss as [|ns nss IH]; intros m m'; cbn; [intros [= <-]; split; [by intros ? ?%elem_of_nil|done]|].
  destruct (m !! ns) eqn:Hns; [done|]. intros Hm. destruct (IH _ _ Hm) as [Hin Hout]. split.
  - intros ns' [->|Hns']%elem_of_cons.
    + split; [done|]. destruct (decide (ns ∈ nss)) as [Hd|Hd]; [by destruct (Hin ns Hd)|]. by rewrite Hout, lookup_insert_eq.
    + destruct (Hin ns' Hns') as [Hnone Hsome]. apply lookup_insert_None in Hnone as [Hnone _]. done.
  - intros ns' [Hne Hnin]%not_elem_of_cons. by rewrite Hout, lookup_insert_ne.
Qed.

Lemma lag_map_spec relays : forall m m', lag_map relays m = Ok m' ->
  (forall relay ns, relay ∈ relays -> ns ∈ rc_Namespaces relay -> m !! ns = None /\ m' !! ns = Some (SegmentLagThreshold relay)) /\
  (forall r1 r2 ns, r1 ∈ relays -> r2 ∈ relays -> ns ∈ rc_Namespaces r1 -> ns ∈ rc_Namespaces r2 -> r1 = r2) /\
  (forall ns t, m !! ns = Some t -> m' !! ns = Some t).
Proof.
  induction relays as [|relay relays IH]; intros m m'; cbn; [intros [= <-]; split_and!; [by intros ? ? ?%elem_of_nil|by intros ? ? ? ?%elem_of_nil|done]|].
  destruct (lag_of_namespaces _ _ m) as [m1|] eqn:Hm1; [|done]. intros Hm. destruct (lag_of_namespaces_spec _ _ _ _ Hm1) as [Hin Hout]. destruct (IH _ _ Hm) as (Hset & Huniq & Hkeep).
  assert (forall r ns, r ∈ relays -> ns ∈ rc_Namespaces r -> ns ∉ rc_Namespaces relay) as Hdisj.
  { intros r ns Hr Hns Hns'. destruct (Hset r ns Hr Hns) as [Hnone _]. destruct (Hin ns Hns') as [_ Hsome]. congruence. }
  split_and!.
  - intros r ns [->|Hr]%elem_of_cons Hns.
    + destruct (Hin ns Hns) as [Hnone Hsome]. split; [done|]. by apply Hkeep.
    + destruct (Hset r ns Hr Hns) as [Hnone Hsome]. split; [|done]. rewrite <- Hout; [done|]. by eapply Hdisj.
  - intros r1 r2 ns [->|Hr1]%elem_of_cons [->|Hr2]%elem_of_cons Hn1 Hn2; [done|..|by eapply Huniq].
    + by destruct (Hdisj r2 ns Hr2 Hn2).
    + by destruct (Hdisj r1 ns Hr1 Hn1).
  - intros ns t Hns. apply Hkeep. destruct (decide (ns ∈ rc_Namespaces relay)) as [Hd|Hd]; [destruct (Hin ns Hd); congruence|by rewrite Hout].
Qed.

(** ** Connections *)

Lemma bar_split a b x y : bar ∉ a -> bar ∉ b -> a ++ bar :: x = b ++ bar :: y -> a = b /\ x = y.
Proof.
  revert b. induction a as [|c a IH]; intros [|d b] Ha Hb; cbn; intros He; injection He.
  - done.
  - intros _ <-. apply not_elem_of_cons in Hb as [? _]. done.
  - intros _ ->. apply not_elem_of_cons in Ha as [? _]. done.
  - intros Heq ->. apply not_elem_of_cons in Ha as [_ Ha]. apply not_elem_of_cons in Hb as [_ Hb]. destruct (IH b Ha Hb Heq) as [-> ->]. done.
Qed.

Definition no_bar (r : RelayConfig) : Prop :=
  bar ∉ rc_CertPath r /\ bar ∉ rc_KeyPath r /\ bar ∉ rc_CAPath r /\ bar ∉ UpstreamAddress r /\ bar ∉ GrpcServiceConfig r.

(** What the hash tells apart. *)
Definition same_endpoint (r d : RelayConfig) : Prop :=
  rc_CertPath r = rc_CertPath d /\ rc_KeyPath r = rc_KeyPath d /\ rc_CAPath r = rc_CAPath d /\ UpstreamAddress r = UpstreamAddress d /\ GrpcServiceConfig r = GrpcServiceConfig d.

Lemma relay_text_inj r d : no_bar r -> no_bar d -> relay_text r = relay_text d -> same_endpoint r d.
Proof.
  intros (Hr1 & Hr2 & Hr3 & Hr4 & Hr5) (Hd1 & Hd2 & Hd3 & Hd4 & Hd5). unfold relay_text.
  intros [E1 [E2 [E3 [E4 [E5 _]%bar_split]%bar_split]%bar_split]%bar_split]%bar_split; done.
Qed.

Section connections.
Context (sha256 : bytes -> bytes) (credsOk : credentials -> bool) (NewClient : ClientConn -> bool).
Notation New := (NewRelayerGRPCConn credsOk NewClient).
Notation hash := (HashRelayConfig sha256).

(** A connection that was dialed for a configuration with the same hash. *)
Definition dialed (seen : list RelayConfig) (h : bytes) (conn : ClientConn) : Prop := exists d, d ∈ seen /\ hash d = h /\ New d = Some conn.

Lemma grpc_clients_spec relays : forall seen byHash byNs conns,
  (forall h conn, byHash !! h = Some conn -> dialed seen h conn) ->
  (forall ns conn, byNs !! ns = Some conn -> exists r, r ∈ seen /\ ns ∈ rc_Namespaces r /\ dialed seen (hash r) conn) ->
  grpc_clients sha256 credsOk NewClient relays byHash byNs = Ok conns ->
  forall ns conn, conns !! ns = Some conn -> exists r, r ∈ seen ++ relays /\ ns ∈ rc_Namespaces r /\ dialed (seen ++ relays) (hash r) conn.
Proof.
  induction relays as [|relay relays IH]; intros seen byHash byNs conns Hh Hn; cbn.
  { intros [= <-]. by rewrite app_nil_r. }
  set (found := match byHash !! hash relay with Some conn => Some conn | None => New relay end).
  destruct found as [conn|] eqn:Hf; [|done]. intros Hrun. replace (seen ++ relay :: relays) with ((seen ++ [relay]) ++ relays) by by rewrite <- app_assoc.
  assert (dialed (seen ++ [relay]) (hash relay) conn) as Hd.
  { unfold found in Hf. destruct (byHash !! hash relay) as [c|] eqn:Hb.
    - injection Hf as <-. destruct (Hh _ _ Hb) as (d & Hin & Hr). exists d. split; [apply elem_of_app; by left|done].
    - exists relay. split; [apply elem_of_app; right; by left|done]. }
  assert (forall h c, dialed seen h c -> dialed (seen ++ [relay]) h c) as Hmono by (intros h c (d & Hin & Hr); exists d; split; [apply elem_of_app; by left|done]).
  apply (IH (seen ++ [relay]) (<[hash relay := conn]> byHash) (foldl (fun m ns => <[ns := conn]> m) byNs (rc_Namespaces relay)) conns); [| |done].
  - intros h c. destruct (decide (hash relay = h)) as [<-|Hne]; [rewrite lookup_insert_eq; by intros [= <-]|rewrite lookup_insert_ne by done; intros Hc; by apply Hmono, Hh].
  - assert (forall nss (m : gmap bytes ClientConn), (forall ns, ns ∈ nss -> ns ∈ rc_Namespaces relay) ->
      (forall ns c, m !! ns = Some c -> exists r, r ∈ seen ++ [relay] /\ ns ∈ rc_Namespaces r /\ dialed (seen ++ [relay]) (hash r) c) ->
      forall ns c, foldl (fun m ns => <[ns := conn]> m) m nss !! ns = Some c -> exists r, r ∈ seen ++ [relay] /\ ns ∈ rc_Namespaces r /\ dialed (seen ++ [relay]) (hash r) c) as Hfold.
    { induction nss as [|ns nss IHn]; intros m Hsub Hm; [done|]. cbn. apply IHn; [intros; apply Hsub; by right|]. intros ns' c. destruct (decide (ns = ns')) as [<-|Hne].
      - rewrite lookup_insert_eq. intros [= <-]. exists relay. split; [apply elem_of_app; right; by left|]. split; [apply Hsub; by left|done].
      - rewrite lookup_insert_ne by done. apply Hm. }
    apply Hfold; [done|]. intros ns c Hc. destruct (Hn ns c Hc) as (r & Hin & Hns & Hdl). exists r. split; [apply elem_of_app; by left|]. split; [done|]. by apply Hmono.
Qed.
End connections.

(** ** Relayers *)

Section server.
Context {E N : Type} (w : World E N).
Notation Server := (Server E N).

Lemma relay_engines_spec conns lag limiter engines : forall (s s' : Server), relay_engines conns lag limiter engines s = Ok s' ->
  exists rs, sv_relayers s' = sv_relayers s ++ rs /\ ri_namespace <$> rs = engines /\
    Forall (fun r => conns !! ri_namespace r = Some (ri_conn r) /\ ri_threshold r = default 0 (lag !! ri_namespace r) /\ ri_limiter r = limiter) rs.
Proof.
  induction engines as [|ns engines IH]; intros s s'; cbn; [intros [= <-]; exists []; by rewrite app_nil_r|]. destruct (conns !! ns) as [conn|] eqn:Hc; [|done].
  intros Hr. destruct (IH _ _ Hr) as (rs & Hrs & Hns & Hall). eexists (_ :: rs). rewrite Hrs. cbn [with_relayer sv_relayers]. rewrite <- app_assoc. split; [done|]. cbn. rewrite Hns. split; [done|].
  constructor; [done|done].
Qed.

(** C29. A server that relays has one relayer per engine.  The namespace of each is
    named by one relay of the configuration; its threshold is that of this relay
    and its connection goes to this relay's upstream with its service
    configuration.  The connection is the one that this relay would dial itself,
    unless another relay to the same upstream with the same certificates
    disagrees on whether to use them. *)
Theorem relayers_follow_their_configuration (s s' : Server) :
  sv_mode s = modeRelayer -> sv_relayers s = [] -> w_relays w ≡ₚ w_relays_lag w -> Forall no_bar (w_relays w) ->
  (forall r d, r ∈ w_relays w -> d ∈ w_relays w -> w_sha256 w (relay_text r) = w_sha256 w (relay_text d) -> relay_text r = relay_text d) ->
  SetupRelayer w s = Ok s' ->
  ri_namespace <$> sv_relayers s' = w_engines w /\
  Forall (fun i => exists r, r ∈ w_relays w /\ (forall r', r' ∈ w_relays w -> ri_namespace i ∈ rc_Namespaces r' <-> r' = r) /\
    ri_threshold i = SegmentLagThreshold r /\ conn_target (ri_conn i) = UpstreamAddress r /\ ri_limiter i = cf_WalLimiter (sv_cfg s) /\
    ((forall d, d ∈ w_relays w -> same_endpoint r d -> rc_AllowInsecure d = rc_AllowInsecure r) -> NewRelayerGRPCConn (w_credsOk w) (w_NewClient w) r = Some (ri_conn i)))
    (sv_relayers s').
Proof.
  intros Hmode Hnil Hperm Hbar Hsha Hset. unfold SetupRelayer in Hset. rewrite bool_decide_true in Hset by done. cbn [negb] in Hset.
  destruct (buildNamespaceGrpcClients _ _ _ _) as [conns|] eqn:Hconns; [|done]. destruct (buildNamespaceSegmentLagMap _) as [lag|] eqn:Hlag; [|done].
  destruct (lag_map_spec _ _ _ Hlag) as (Hthr & Huniq & _).
  destruct (relay_engines_spec _ _ _ _ _ _ Hset) as (rs & Hrs & Hns & Hall). cbn [defer with_connections sv_relayers sv_cfg] in Hrs, Hall. rewrite Hnil in Hrs. cbn in Hrs. rewrite Hrs. split; [done|].
  eapply Forall_impl; [exact Hall|]. intros i (Hc & Ht & Hl).
  destruct (grpc_clients_spec _ _ _ (w_relays w) [] ∅ ∅ conns ltac:(intros ? ? Hx; by rewrite lookup_empty in Hx) ltac:(intros ? ? Hx; by rewrite lookup_empty in Hx) Hconns _ _ Hc)
    as (r & Hr & Hin & d & Hd & Hhash & Hdial). cbn [app] in Hr, Hd.
  assert (forall x, x ∈ w_relays w -> x ∈ w_relays_lag w) as Hp by (intros x Hx; by rewrite <- Hperm).
  rewrite Forall_forall in Hbar. apply hex_EncodeToString_inj in Hhash. pose proof (relay_text_inj r d (Hbar r Hr) (Hbar d Hd) (eq_sym (Hsha d r Hd Hr Hhash))) as Hsame.
  exists r. split_and!; try done.
  - intros r' Hr'. split; [|by intros ->]. intros Hin'. by eapply Huniq; eauto.
  - rewrite Ht. by destruct (Hthr r (ri_namespace i) (Hp r Hr) Hin) as [_ ->].
  - destruct Hsame as (_ & _ & _ & -> & _). unfold NewRelayerGRPCConn in Hdial. destruct (_ || _); [|done]. destruct (w_NewClient w _); [|done]. by injection Hdial as <-.
  - intros Hins. specialize (Hins d Hd Hsame). destruct Hsame as (Hs1 & Hs2 & Hs3 & Hs4 & Hs5). rewrite <- Hdial. unfold NewRelayerGRPCConn, relay_creds. by rewrite Hins, Hs1, Hs2, Hs3, Hs4, Hs5.
Qed.
(** ** Set up and shutdown *)

(** The parts that a step leaves alone. *)
Definition same_base (s s' : Server) : Prop := sv_mode s' = sv_mode s /\ sv_cfg s' = sv_cfg s /\ sv_relayerGRPC s' = sv_relayerGRPC s.

Lemma setup_notifiers_spec l : forall (s s' : Server), setup_notifiers w l s = Ok s' ->
  same_base s s' /\ sv_engines s' = sv_engines s /\ sv_storageConfig s' = sv_storageConfig s /\
  exists nots, DeferCallback s' = DeferCallback s ++ (CloseNotifier <$> nots) /\ forall ns, is_Some (sv_notifiers s' !! ns) <-> is_Some (sv_notifiers s !! ns) \/ ns ∈ nots.
Proof.
  induction l as [|[ns c] l IH]; intros s s'; cbn.
  { intros [= <-]. split_and!; try done. exists []. rewrite app_nil_r. split; [done|]. set_solver. }
  case_bool_decide; [apply IH|]. destruct (negb _); [done|]. destruct (w_NewNotifier w ns c) as [n|]; [|done]. intros Hs.
  destruct (IH _ _ Hs) as (Hb & He & Hc & nots & Hd & Hn). split; [done|]. split; [done|]. split; [done|]. exists (ns :: nots). rewrite Hd. cbn. rewrite <- app_assoc. split; [done|].
  intros ns'. rewrite Hn. cbn. rewrite lookup_insert_is_Some, elem_of_cons. destruct (decide (ns = ns')); naive_solver.
Qed.

Lemma open_engines_spec c nss : forall (s s' : Server), open_engines w c nss s = Ok s' ->
  same_base s s' /\ sv_notifiers s' = sv_notifiers s /\ DeferCallback s' = DeferCallback s ++ (CloseEngine <$> nss) /\
  (forall ns, is_Some (sv_engines s' !! ns) <-> is_Some (sv_engines s !! ns) \/ ns ∈ nss) /\
  (forall ns e, sv_engines s' !! ns = Some e -> sv_engines s !! ns = Some e \/ w_NewStorageEngine w ns (engine_settings c ns s) = Some e).
Proof.
  induction nss as [|ns nss IH]; intros s s'; cbn.
  { intros [= <-]. rewrite app_nil_r. split_and!; try done; [set_solver|auto]. }
  destruct (w_NewStorageEngine w ns _) as [e|] eqn:He; [|done]. intros Hs. destruct (IH _ _ Hs) as (Hb & Hn & Hd & Hdom & Hfrom).
  split; [done|]. split; [done|]. split; [rewrite Hd; cbn; by rewrite <- app_assoc|]. split.
  - intros ns'. rewrite Hdom. cbn. rewrite lookup_insert_is_Some, elem_of_cons. destruct (decide (ns = ns')); naive_solver.
  - intros ns' e' He'. destruct (Hfrom ns' e' He') as [Hold|Hnew]; [|by right]. cbn in Hold. destruct (decide (ns = ns')) as [<-|Hne].
    + rewrite lookup_insert_eq in Hold. injection Hold as <-. by right.
    + rewrite lookup_insert_ne in Hold by done. by left.
Qed.

Lemma relay_engines_same conns lag limiter engines : forall (s s' : Server), relay_engines conns lag limiter engines s = Ok s' ->
  same_base s s' /\ sv_engines s' = sv_engines s /\ sv_notifiers s' = sv_notifiers s /\ DeferCallback s' = DeferCallback s.
Proof.
  induction engines as [|ns engines IH]; intros s s'; cbn; [by intros [= <-]|]. destruct (conns !! ns) as [conn|]; [|done]. intros Hr.
  by destruct (IH _ _ Hr) as (Hb & He & Hn & Hd).
Qed.

Lemma setup_relayer_same (s s' : Server) : SetupRelayer w s = Ok s' -> same_base s s' /\ sv_engines s' = sv_engines s /\ sv_notifiers s' = sv_notifiers s /\
  DeferCallback s' = DeferCallback s ++ (if bool_decide (sv_mode s = modeRelayer) then [CloseConnections] else []).
Proof.
  unfold SetupRelayer. case_bool_decide; cbn [negb]; [|intros [= <-]; by rewrite app_nil_r].
  destruct (buildNamespaceGrpcClients _ _ _ _); [|done]. destruct (buildNamespaceSegmentLagMap _); [|done]. intros Hr. by destruct (relay_engines_same _ _ _ _ _ _ Hr) as (Hb & He & Hn & Hd).
Qed.

(** The server answers gRPC calls. *)
Definition serves_grpc (mode : run_mode) (relayerGRPC : bool) : bool := negb (bool_decide (mode = modeRelayer) && negb relayerGRPC).

Lemma setup_grpc_same services (s s' : Server) : SetupGrpcServer w services s = Ret (Ok s') -> same_base s s' /\ sv_engines s' = sv_engines s /\ sv_notifiers s' = sv_notifiers s /\
  DeferCallback s' = DeferCallback s ++ (if serves_grpc (sv_mode s) (sv_relayerGRPC s) then [StopGrpc] else []).
Proof.
  unfold SetupGrpcServer, serves_grpc. destruct (_ && negb (sv_relayerGRPC s)); cbn [negb]; [intros [= <-]; by rewrite app_nil_r|]. cbn [NewStatefulInterceptor mbind outcome_bind].
  destruct (_ && _); [done|]. by intros [= <-].
Qed.

Lemma and_then_ok (r : outcome (result setup_error Server)) f (s : Server) : and_then r f = Ret (Ok s) -> exists s0, r = Ret (Ok s0) /\ f s0 = Ret (Ok s).
Proof. unfold and_then. destruct r as [[s0|e]| |]; cbn; try done. by exists s0. Qed.

End server.

(** ** The services *)

Section services.
Context {E N : Type} (w : World E N).
Notation Server := (Server E N).

(** How many steps of its own a service has left at most. *)
Definition weight (s : Server) (ph : phase) : nat :=
  match ph with
  | Waiting => length (sv_relayers s) + 4
  | Relaying loops => length (filter (fun b => b = true) loops)
  | Sleeping => 3
  | Fuzzing => 2
  | Serving => 1
  | Returned _ => 0
  end.

Definition pending (s : Server) (g : Group) : nat := sum_list_with (fun svc => weight s (g_phases g svc)) runFns.

(** The steps that wait for nothing outside but the clock. *)
Definition own_step (ev : service_event) : Prop := match ev with Signal | Serves _ _ => False | _ => True end.

Definition is_signal (ev : service_event) : bool := match ev with Signal => true | _ => false end.

Lemma set_phase_same svc ph g : g_phases (set_phase svc ph g) svc = ph.
Proof. cbn. by rewrite decide_True. Qed.
Lemma set_phase_other svc x ph g : x <> svc -> g_phases (set_phase svc ph g) x = g_phases g x.
Proof. intros Hx. cbn. by rewrite decide_False. Qed.

Lemma set_phase_pending (s : Server) svc ph g : (weight s ph < weight s (g_phases g svc))%nat -> (pending s (set_phase svc ph g) < pending s g)%nat.
Proof. unfold pending, runFns. intros Hlt. destruct svc; cbn [sum_list_with]; rewrite set_phase_same, !set_phase_other by done; lia. Qed.

Lemma relay_group_weight (s : Server) loops : (weight s (relay_group loops) <= length (filter (fun b => b = true) loops))%nat.
Proof. unfold relay_group. destruct (existsb _ _); cbn; lia. Qed.

Lemma loop_over_weight loops i : loops !! i = Some true ->
  length (filter (fun b => b = true) loops) = S (length (filter (fun b => b = true) (<[i := false]> loops))).
Proof.
  revert i. induction loops as [|b loops IH]; intros [|i] Hi; cbn in Hi; try done.
  - injection Hi as ->. done.
  - cbn [insert list_insert]. specialize (IH i Hi). rewrite !filter_cons. destruct b; cbn [length decide decide_rel]; [|by destruct (decide _)].
    rewrite !decide_True by done. cbn [length]. by rewrite IH.
Qed.

Lemma begin_service_weight listens (s : Server) svc : (weight s (begin_service w listens s svc) < length (sv_relayers s) + 4)%nat.
Proof.
  assert (forall ip port, (weight s (listen listens ip port) < length (sv_relayers s) + 4)%nat) as Hl by (intros; unfold listen; destruct (listens _ _); cbn; lia).
  destruct svc; cbn [begin_service]; unfold RunGrpc, RunHTTP, StartRelayer, RunFuzzer, RunPprofServer, PeriodicLogEngineOffset, PeriodicGrpcUpdateStreamAgeBuckets.
  - destruct (sv_grpc s); [apply Hl|cbn; lia].
  - apply Hl.
  - destruct (negb _); [cbn; lia|]. destruct (BuildLimiter _ _ _); [|cbn; lia]. eapply Nat.le_lt_trans; [apply relay_group_weight|].
    eapply Nat.le_lt_trans; [apply length_filter|]. rewrite length_replicate. lia.
  - destruct (negb _); [cbn; lia|]. destruct (_ || _); [cbn; lia|]. destruct (bool_decide _); [cbn; lia|]. destruct (w_ParseDuration w _); [|cbn; lia]. destruct (0 <? _); cbn; lia.
  - destruct (cf_PProf _); cbn; lia.
  - cbn; lia.
  - destruct (sv_grpc s); cbn; lia.
Qed.

(** Only relayers relay, and only the fuzzer sleeps. *)
Definition phase_fits (svc : service) (ph : phase) : Prop :=
  match ph with Relaying loops => svc = SvcRelayer /\ true ∈ loops | Sleeping => svc = SvcFuzzer | _ => True end.

Lemma relay_group_fits loops : phase_fits SvcRelayer (relay_group loops).
Proof.
  unfold relay_group. destruct (existsb _ _) eqn:Hb; [|done]. split; [done|]. apply existsb_exists in Hb as (b & Hin & ->). by apply list_elem_of_In.
Qed.

Lemma begin_service_fits listens (s : Server) svc : phase_fits svc (begin_service w listens s svc).
Proof.
  assert (forall x ip port, phase_fits x (listen listens ip port)) as Hl by (intros; unfold listen; by destruct (listens _ _)).
  destruct svc; cbn [begin_service]; unfold RunGrpc, RunHTTP, StartRelayer, RunFuzzer, RunPprofServer, PeriodicLogEngineOffset, PeriodicGrpcUpdateStreamAgeBuckets.
  - destruct (sv_grpc s); [apply Hl|done].
  - apply Hl.
  - destruct (negb _); [done|]. destruct (BuildLimiter _ _ _); [|done]. apply relay_group_fits.
  - destruct (negb _); [done|]. destruct (_ || _); [done|]. destruct (bool_decide _); [done|]. destruct (w_ParseDuration w _); [|done]. by destruct (0 <? _).
  - by destruct (cf_PProf _).
  - done.
  - by destruct (sv_grpc s).
Qed.

(** A step other than the signal changes one service, and uses up one step. *)
Lemma group_step_spec (s : Server) ev g g' : group_step w s ev g = Some g' -> is_signal ev = false ->
  exists svc ph, g' = set_phase svc ph g /\ (weight s ph < weight s (g_phases g svc))%nat /\ returned (g_phases g svc) = false /\
    phase_fits svc ph /\ (ph = Returned None -> svc = SvcLogOffset -> g_done g = true).
Proof.
  intros Hs Hev. destruct ev as [|listens svc|svc err|i turns| |svc]; cbn in Hs; [done|..].
  - exists svc, (begin_service w listens s svc). destruct (g_phases g svc) eqn:Eph; try done. injection Hs as <-. split_and!; [done|apply begin_service_weight|done|apply begin_service_fits|]. intros Hp ->. discriminate Hp.
  - destruct (g_phases g svc) eqn:Eph; try done. destruct (serve_returns svc err) as [r|] eqn:Er; [|done]. injection Hs as <-. exists svc, (Returned r). rewrite Eph. split_and!; [done|cbn; lia|done|done|].
    intros _ ->. discriminate Er.
  - destruct (g_phases g SvcRelayer) eqn:Eph; try done. destruct (bool_decide (loops !! i = Some true)) eqn:Hi; [|done]. apply bool_decide_eq_true in Hi. cbn [andb] in Hs.
    destruct ((_ || _) && _); [|done]. injection Hs as <-. eexists SvcRelayer, _. rewrite Eph. split_and!; [done| |done|apply relay_group_fits|done].
    eapply Nat.le_lt_trans; [apply relay_group_weight|]. cbn. rewrite (loop_over_weight _ _ Hi). lia.
  - destruct (g_phases g SvcFuzzer) eqn:Eph; try done. injection Hs as <-. exists SvcFuzzer, Fuzzing. rewrite Eph. split_and!; [done|cbn; lia|done|done|done].
  - destruct (g_done g) eqn:Hd; [|done]. cbn in Hs. destruct (g_phases g svc) eqn:Eph; try done; injection Hs as <-; exists svc, (Returned None); rewrite Eph; (split_and!; [done|cbn; lia|done|done|done]).
Qed.

(** What holds between the services and the group. *)
Record group_ok (signalled : bool) (g : Group) : Prop := {
  go_error_kept : forall e, g_err g = Some e -> exists svc, g_phases g svc = Returned (Some e);
  go_error_seen : forall svc e, g_phases g svc = Returned (Some e) -> is_Some (g_err g);
  go_done : g_done g = signalled || bool_decide (is_Some (g_err g));
  go_log : returned (g_phases g SvcLogOffset) = true -> g_done g = true;
  go_fits : forall svc, phase_fits svc (g_phases g svc)
}.

Lemma group_step_ok (s : Server) ev signalled g g' : group_ok signalled g -> group_step w s ev g = Some g' -> group_ok (is_signal ev || signalled) g'.
Proof.
  intros [Hk Hs Hd Hl Hf] Hst. destruct (is_signal ev) eqn:Hev.
  { destruct ev; try done. injection Hst as <-. by split. }
  destruct (group_step_spec _ _ _ _ Hst Hev) as (svc & ph & -> & _ & Hnr & Hfit & Hlog). cbn [orb]. split.
  - intros e. cbn [g_err set_phase]. destruct (g_err g) as [e0|] eqn:Eg.
    + intros [= ->]. destruct (Hk e eq_refl) as [x Hx]. exists x. rewrite set_phase_other; [done|]. intros ->. by rewrite Hx in Hnr.
    + intros He. exists svc. rewrite set_phase_same. destruct ph; try done. cbn in He. by subst.
  - intros x e. destruct (decide (x = svc)) as [->|Hx].
    + rewrite set_phase_same. intros ->. cbn. destruct (g_err g); eauto.
    + rewrite set_phase_other by done. intros Hp. apply Hs in Hp as [e0 He0]. cbn. rewrite He0. eauto.
  - cbn [g_done g_err set_phase]. rewrite Hd. destruct (g_err g), (phase_error ph), signalled; done.
  - destruct (decide (svc = SvcLogOffset)) as [->|Hx].
    + rewrite set_phase_same. destruct ph as [| | | | |[e|]]; try done; intros _; cbn; [by rewrite orb_true_r|]. by rewrite Hlog.
    + rewrite set_phase_other by done. intros Hr. cbn. by rewrite Hl.
  - intros x. destruct (decide (x = svc)) as [->|Hx]; [by rewrite set_phase_same|]. by rewrite set_phase_other.
Qed.

Lemma group_run_ok (s : Server) evs : forall signalled g g', group_ok signalled g -> group_run w s evs g = Some g' -> group_ok (existsb is_signal evs || signalled) g'.
Proof.
  induction evs as [|ev evs IH]; intros signalled g g' Hok Hr; cbn in Hr; [by injection Hr as <-|]. destruct (group_step w s ev g) as [g1|] eqn:Hst; [|done].
  apply (group_step_ok _ _ _ _ _ Hok) in Hst. apply (IH _ _ _ Hst) in Hr. cbn [existsb]. rewrite (orb_comm (is_signal ev)), <- orb_assoc. done.
Qed.

Lemma new_group_ok : group_ok false new_group.
Proof. by split. Qed.

Lemma group_run_pending (s : Server) evs : forall g g', group_run w s evs g = Some g' ->
  (length (filter (fun ev => is_signal ev = false) evs) + pending s g' <= pending s g)%nat.
Proof.
  induction evs as [|ev evs IH]; intros g g' Hr; cbn in Hr; [injection Hr as <-; cbn; lia|]. destruct (group_step w s ev g) as [g1|] eqn:Hst; [|done]. apply IH in Hr. rewrite filter_cons.
  destruct (is_signal ev) eqn:Hev.
  - rewrite decide_False by done. destruct ev; try done. injection Hst as <-. exact Hr.
  - rewrite decide_True by done. destruct (group_step_spec _ _ _ _ Hst Hev) as (svc & ph & -> & Hlt & _). apply (set_phase_pending s) in Hlt. cbn [length]. lia.
Qed.

(** A turn that finds the context done. *)
Definition done_turn : turn := mkTurn true true None 0 true 0 true.

(** Once the context is done, a service that has not returned can go on. *)
Lemma services_go_on (s : Server) signalled g svc : group_ok signalled g -> g_done g = true -> returned (g_phases g svc) = false ->
  exists ev g', own_step ev /\ group_step w s ev g = Some g'.
Proof.
  intros Hok Hd Hr. pose proof (go_fits _ _ Hok svc) as Hf. destruct (g_phases g svc) eqn:Eph; try done; cbn in Hf.
  - eexists (Starts (fun _ _ => true) svc), _. cbn. by rewrite Eph.
  - eexists (SeesDone svc), _. cbn. by rewrite Hd, Eph.
  - destruct Hf as [-> Hin]. destruct (list_elem_of_lookup_1 _ _ Hin) as [i Hi]. eexists (LoopOver i [done_turn]), _. cbn. by rewrite Eph, bool_decide_true, Hd.
  - subst. eexists Wakes, _. cbn. by rewrite Eph.
  - eexists (SeesDone svc), _. cbn. by rewrite Hd, Eph.
Qed.

Lemma group_step_done (s : Server) ev g g' : group_step w s ev g = Some g' -> g_done g = true -> g_done g' = true.
Proof.
  intros Hst Hd. destruct (is_signal ev) eqn:Hev; [destruct ev; try done; by injection Hst as <-|].
  destruct (group_step_spec _ _ _ _ Hst Hev) as (svc & ph & -> & _). cbn. by rewrite Hd.
Qed.

Lemma services_wind_down (s : Server) n : forall signalled g, group_ok signalled g -> g_done g = true -> (pending s g <= n)%nat ->
  exists evs g' err, Forall own_step evs /\ (length evs <= n)%nat /\ group_run w s evs g = Some g' /\ Wait g' = Some err.
Proof.
  induction n as [n IH] using lt_wf_ind. intros signalled g Hok Hd Hn. destruct (forallb (fun svc => returned (g_phases g svc)) runFns) eqn:Hall.
  { exists [], g, (g_err g). split_and!; [done|cbn; lia|done|]. unfold Wait. by rewrite Hall. }
  assert (exists svc, returned (g_phases g svc) = false) as [svc Hsvc].
  { apply not_true_iff_false in Hall. rewrite forallb_forall in Hall. destruct (returned (g_phases g SvcGrpc)) eqn:H1; [|eauto]. destruct (returned (g_phases g SvcHTTP)) eqn:H2; [|eauto].
    destruct (returned (g_phases g SvcRelayer)) eqn:H3; [|eauto]. destruct (returned (g_phases g SvcFuzzer)) eqn:H4; [|eauto]. destruct (returned (g_phases g SvcPprof)) eqn:H5; [|eauto].
    destruct (returned (g_phases g SvcLogOffset)) eqn:H6; [|eauto]. destruct (returned (g_phases g SvcStreamAge)) eqn:H7; [|eauto]. destruct Hall. by intros []. }
  destruct (services_go_on s _ _ _ Hok Hd Hsvc) as (ev & g1 & Hown & Hst). assert (is_signal ev = false) as Hev by by destruct ev.
  destruct (group_step_spec _ _ _ _ Hst Hev) as (x & ph & Heq & Hlt & _). apply (set_phase_pending s) in Hlt. rewrite <- Heq in Hlt.
  destruct (IH (n - 1)%nat ltac:(lia) _ g1 (group_step_ok _ _ _ _ _ Hok Hst) (group_step_done _ _ _ _ Hst Hd) ltac:(lia)) as (evs & g' & err & Ho & Hl & Hr & Hw).
  exists (ev :: evs), g', err. split_and!; [by constructor|cbn; lia|cbn; by rewrite Hst|done].
Qed.

(** C27. The server runs until it is told to stop or a service fails: Wait does
    not return before that, and what it returns is nil after signals alone and
    otherwise an error that a service returned.  From then on a bounded number of
    steps, none of which waits for a request, a connection or a listener, brings
    every service to an end, so that the shutdown begins. *)
Theorem services_run_until_told (s : Server) evs g : group_run w s evs new_group = Some g ->
  let failed := exists svc e, g_phases g svc = Returned (Some e) in
  (g_done g = true <-> Exists (fun ev => is_signal ev = true) evs \/ failed) /\
  (forall err, Wait g = Some err -> g_done g = true /\
     match err with None => ~ failed | Some e => exists svc, g_phases g svc = Returned (Some e) end) /\
  (g_done g = true -> exists evs' g' err, Forall own_step evs' /\ (length evs' <= 7 * (length (sv_relayers s) + 4))%nat /\
     group_run w s (evs ++ evs') new_group = Some g' /\ Wait g' = Some err).
Proof.
  intros Hr failed. pose proof (group_run_ok _ _ _ _ _ new_group_ok Hr) as Hok. rewrite orb_false_r in Hok.
  assert (is_Some (g_err g) <-> failed) as Hf.
  { split; [intros [e He]; destruct (go_error_kept _ _ Hok e He) as [svc Hsvc]; by exists svc, e|]. intros (svc & e & Hsvc). by eapply go_error_seen. }
  split_and!.
  - rewrite (go_done _ _ Hok), orb_true_iff, bool_decide_eq_true, Hf. apply or_iff_compat_r. rewrite existsb_exists, Exists_exists. by setoid_rewrite list_elem_of_In.
  - intros err Hw. unfold Wait in Hw. destruct (forallb _ _) eqn:Hall; [|done]. injection Hw as <-. rewrite forallb_forall in Hall. split.
    + apply (go_log _ _ Hok), Hall. cbn. tauto.
    + destruct (g_err g) as [e|] eqn:He; [by apply (go_error_kept _ _ Hok)|]. rewrite <- Hf. by intros [].
  - intros Hd. pose proof (group_run_pending s _ _ _ Hr) as Hp. assert (pending s new_group = 7 * (length (sv_relayers s) + 4))%nat as Hnew by (cbn; lia).
    destruct (services_wind_down s (7 * (length (sv_relayers s) + 4)) _ g Hok Hd ltac:(lia)) as (evs' & g' & err & Ho & Hl & Hr' & Hw).
    exists evs', g', err. split_and!; try done. clear -Hr Hr'. revert Hr. generalize new_group. induction evs as [|ev evs IH]; intros g0 Hr; cbn in *; [by injection Hr as ->|].
    destruct (group_step w s ev g0); [|done]. by apply IH.
Qed.

(** A relayer whose loop gives up leaves the server as it was: no error, and no
    end while another loop runs. *)
Lemma relayer_stops_silently (s : Server) g i loops err t : g_phases g SvcRelayer = Relaying loops -> loops !! i = Some true -> true ∈ <[i := false]> loops ->
  t = mkTurn false true (Some err) 0 false 0 false -> DefaultClassifier (Some err) = Permanent ->
  group_step w s (LoopOver i [t]) g = Some (mkGroup (fun x => if decide (x = SvcRelayer) then Relaying (<[i := false]> loops) else g_phases g x) (g_done g) (g_err g)).
Proof.
  intros Hg Hi Hin -> Hc. cbn -[DefaultClassifier]. rewrite Hg, bool_decide_true by done. rewrite Hc. cbn [andb fst snd]. rewrite orb_true_r. cbn [andb].
  assert (relay_group (<[i := false]> loops) = Relaying (<[i := false]> loops)) as ->.
  { unfold relay_group. assert (existsb (fun b => b) (<[i := false]> loops) = true) as ->; [|done]. apply existsb_exists. exists true. split; [by apply list_elem_of_In|done]. }
  unfold set_phase. cbn. rewrite orb_false_r. by destruct (g_err g).
Qed.
End services.

(** ** Examples *)

Section example.
Definition demo_relay (namespaces : list bytes) (insecure : bool) : RelayConfig := mkRelay namespaces (str "cert") (str "key") (str "ca") (str "host:1") [] 5 insecure.
Definition demo_config : ServerConfig :=
  mkServerConfig (mkGrpcConfig [] 4000 [] [] [] true) (mkStorage (str "dir") [[Byte.x61]; [Byte.x62]] [] (str "8MB") [] [] (mkCleanup false [] 0 0 []) false) false
    {[ [Byte.x01] := demo_relay [[Byte.x61]] true; [Byte.x02] := demo_relay [[Byte.x62]] false ]} None (mkWriteNotify false []) ∅ [(str "Warn", 0)] (str " DEBUG")
    [] 4001 (mkLimiter [] 0) (mkFuzzConfig 0 0 0 [] false).
Definition demo_world (relays : list RelayConfig) : World nat nat :=
  mkWorld (fun _ => None) (fun b => b) (fun _ _ => None) (fun ns c => Some (Z.to_nat (es_ArenaSize c / 2 ^ 20))) (fun _ => true) (fun _ => true) [] relays relays [[Byte.x61]; [Byte.x62]].
Definition demo_relays : list RelayConfig := [demo_relay [[Byte.x61]] true; demo_relay [[Byte.x62]] false].

(** The hash leaves out whether certificates are used: a relay that asks for them
    gets the connection without, when that was dialed first. *)
Lemma shared_connection_is_insecure :
  match SetupRelayer (demo_world demo_relays) (new_server demo_config modeRelayer false) with
  | Ok s => (fun i => (ri_namespace i, conn_creds (ri_conn i))) <$> sv_relayers s !! 1%nat
  | Err _ => None
  end = Some ([Byte.x62], InsecureCreds) /\ rc_AllowInsecure (demo_relay [[Byte.x62]] false) = false.
Proof. split; [vm_compute; reflexivity|reflexivity]. Qed.

Lemma demo_setup : match setup (demo_world demo_relays) [] demo_config modeRelayer false with Ret (Ok s) => true | _ => false end = true.
Proof. vm_compute. reflexivity. Qed.

Lemma relayers_follow_their_configuration_witness : exists s,
  SetupRelayer (demo_world demo_relays) (new_server demo_config modeRelayer false) = Ok s /\ ri_namespace <$> sv_relayers s = [[Byte.x61]; [Byte.x62]].
Proof.
  pose proof shared_connection_is_insecure as [Hdemo _].
  destruct (SetupRelayer (demo_world demo_relays) (new_server demo_config modeRelayer false)) as [s|] eqn:Hs; [|discriminate Hdemo]. exists s. split; [reflexivity|].
  apply (relayers_follow_their_configuration (demo_world demo_relays) (new_server demo_config modeRelayer false) s); [reflexivity|reflexivity|reflexivity| |intros r d _ _ Heq; exact Heq|exact Hs].
  repeat constructor; apply (bool_decide_unpack _); by vm_compute.
Defined.


(** The server of the example, told to stop once its first services have
    started. *)
Definition demo_events : list service_event := [Starts (fun _ _ => true) SvcHTTP; Starts (fun _ _ => true) SvcRelayer; Signal].

Lemma services_run_until_told_witness : exists (s : Server nat nat) g evs g' err,
  setup (demo_world demo_relays) [] demo_config modeRelayer false = Ret (Ok s) /\ group_run (demo_world demo_relays) s demo_events new_group = Some g /\
  group_run (demo_world demo_relays) s (demo_events ++ evs) new_group = Some g' /\ Wait g' = Some err.
Proof.
  pose proof demo_setup as Hdemo.
  destruct (setup (demo_world demo_relays) [] demo_config modeRelayer false) as [[s|]| |] eqn:Hs; [|discriminate Hdemo..].
  destruct (group_run (demo_world demo_relays) s demo_events new_group) as [g|] eqn:Hg; [|discriminate Hg].
  destruct (services_run_until_told (demo_world demo_relays) s demo_events g Hg) as ([_ Hd] & _ & Hend).
  destruct Hend as (evs & g' & err & _ & _ & Hr & Hw); [apply Hd; left; do 2 apply Exists_cons_tl; by apply Exists_cons_hd|].
  exists s, g, evs, g', err. split; [reflexivity|]. split; [exact Hg|]. split; [exact Hr|exact Hw].
Defined.
End example.
