(* ===== verification/ZeroMq.v ===== *)
(** Change notifications over ZeroMQ: plugin/notifier/zeromq/zeromq.go and
    pkg/notifier.

    Calls of [Notify] and [Close] run at the same time; a thread is where it
    stands between two operations on shared memory.  The socket is that of the
    library: it may not be used once it is closed, nor closed twice, and it is not
    safe for use by several threads.  Counters do not overflow: there are fewer
    than 2^64 notifications. *)

From stdpp Require Import prelude list numbers.
From Stdlib Require Import ZArith Lia.
From S2P Require Import Prelude Bytes LogCodec GrpcUtils.
Import Stdlib.Strings.String.StringSyntax.

(** ** Data *)

Definition operationTypeToString (op : Z) : bytes :=
  if op =? LogOperationTypeInsert then str "put"
  else if op =? LogOperationTypeDelete then str "delete"
  else if op =? LogOperationTypeDeleteRowByKey then str "delete_row"
  else if op =? LogOperationTypeTxnMarker then str "txn_marker"
  else if op =? LogOperationTypeNoOperation then str "noop"
  else str "unknown".

Definition entryTypeToString (et : Z) : bytes :=
  if et =? LogEntryTypeKV then str "kv"
  else if et =? LogEntryTypeChunked then str "lob"
  else if et =? LogEntryTypeRow then str "row"
  else str "unknown".

Record Notification := mkNotification { n_Key : bytes; n_Namespace : bytes; n_Operation : bytes; n_EntryType : bytes; SeqNum : Z }.

(** The configuration, and its defaults. *)
Record ZConfig := mkZConfig { BindAddress : bytes; z_Namespace : bytes; z_HighWaterMark : Z; z_LingerTime : Z }.

Definition with_defaults (c : ZConfig) : ZConfig :=
  mkZConfig (if bool_decide (BindAddress c = []) then str "tcp://*:5555" else BindAddress c)
    (if bool_decide (z_Namespace c = []) then str "default" else z_Namespace c)
    (if z_HighWaterMark c =? 0 then 10000 else z_HighWaterMark c) (z_LingerTime c).

(** What has happened to the socket. *)
Inductive socket := Open | Closed | Misused.

Record ZeroMQNotifier := mkZ {
  z_socket : socket; z_mu : option nat; z_namespace : bytes; z_closed : bool; sentCount : Z; errorCount : Z; seqNum : Z;
  z_sent : list (bytes * Notification)
}.

(** Answers of the library while the socket is made. *)
Definition NewZeroMQNotifier (c : ZConfig) (newSocket sndhwm linger bind : bool) : option ZeroMQNotifier :=
  let c := with_defaults c in
  if newSocket && sndhwm && linger && bind then Some (mkZ Open None (z_Namespace c) false 0 0 0 []) else None.

Definition topic_of (ns : bytes) (entryType : Z) : bytes :=
  ns ++ (if entryType =? LogEntryTypeKV then str ".kv" else if entryType =? LogEntryTypeChunked then str ".lob" else if entryType =? LogEntryTypeRow then str ".row" else str ".kv").

(** ** Threads *)

Inductive thread :=
| NotifyStart (key : bytes) (op et : Z)          (* in front of the first check *)
| NotifyChecked (key : bytes) (op et : Z)        (* in front of the sequence number *)
| NotifyWaits (topic : bytes) (n : Notification) (* in front of the lock *)
| NotifyHolds (topic : bytes) (n : Notification) (* in front of the second check *)
| NotifySends (topic : bytes) (n : Notification)
| CloseStart
| CloseWaits
| CloseHolds
| Returned.

Definition notification_of (z : ZeroMQNotifier) (key : bytes) (op et seq : Z) : Notification :=
  mkNotification key (z_namespace z) (operationTypeToString op) (entryTypeToString et) seq.

Definition use_socket (s : socket) : socket := match s with Open => Open | _ => Misused end.
Definition close_socket (s : socket) : socket := match s with Open => Closed | _ => Misused end.

(** The next operation of thread [i]; [ok] is the answer of the encoder or of the
    socket.  [None]: the thread waits for the lock or has returned. *)
Definition thread_step (i : nat) (ok : bool) (t : thread) (z : ZeroMQNotifier) : option (thread * ZeroMQNotifier) :=
  let '(mkZ sock mu ns closed sent errs seq wire) := z in
  match t with
  | NotifyStart key op et => Some (if closed then Returned else NotifyChecked key op et, z)
  | NotifyChecked key op et =>
      let seq := seq + 1 in
      if ok then Some (NotifyWaits (topic_of ns et) (notification_of z key op et seq), mkZ sock mu ns closed sent errs seq wire)
      else Some (Returned, mkZ sock mu ns closed sent (errs + 1) seq wire)
  | NotifyWaits topic n => match mu with Some _ => None | None => Some (NotifyHolds topic n, mkZ sock (Some i) ns closed sent errs seq wire) end
  | NotifyHolds topic n => if closed then Some (Returned, mkZ sock None ns closed sent errs seq wire) else Some (NotifySends topic n, z)
  | NotifySends topic n =>
      if ok then Some (Returned, mkZ (use_socket sock) None ns closed (sent + 1) errs seq (wire ++ [(topic, n)]))
      else Some (Returned, mkZ (use_socket sock) None ns closed sent (errs + 1) seq wire)
  | CloseStart => Some (if closed then Returned else CloseWaits, mkZ sock mu ns true sent errs seq wire)
  | CloseWaits => match mu with Some _ => None | None => Some (CloseHolds, mkZ sock (Some i) ns closed sent errs seq wire) end
  | CloseHolds => Some (Returned, mkZ (close_socket sock) None ns closed sent errs seq wire)
  | Returned => None
  end.

Definition Stats (z : ZeroMQNotifier) : Z * Z := (sentCount z, errorCount z).

(** A new call, or a step of one that runs. *)
Inductive z_step : ZeroMQNotifier * list thread -> ZeroMQNotifier * list thread -> Prop :=
| zs_Notify z ts key op et : z_step (z, ts) (z, ts ++ [NotifyStart key op et])
| zs_Close z ts : z_step (z, ts) (z, ts ++ [CloseStart])
| zs_step z ts i ok t t' z' : ts !! i = Some t -> thread_step i ok t z = Some (t', z') -> z_step (z, ts) (z', <[i := t']> ts).

(** ** What holds in between *)

Definition holds_lock (t : thread) : bool := match t with NotifyHolds _ _ | NotifySends _ _ | CloseHolds => true | _ => false end.
Definition closing (t : thread) : bool := match t with CloseWaits | CloseHolds => true | _ => false end.
Definition numbered (t : thread) : option Z := match t with NotifyWaits _ n | NotifyHolds _ n | NotifySends _ n => Some (SeqNum n) | _ => None end.

Definition numbers (s : ZeroMQNotifier * list thread) : list Z := (SeqNum ∘ snd <$> z_sent s.1) ++ omap numbered s.2.

Definition how_many (f : thread -> bool) (ts : list thread) : Z := foldr (fun t n => Z.b2z (f t) + n) 0 ts.

Record z_ok (s : ZeroMQNotifier * list thread) : Prop := {
  zo_lock i t : s.2 !! i = Some t -> holds_lock t = true -> z_mu s.1 = Some i;
  zo_sends i topic n : s.2 !! i = Some (NotifySends topic n) -> z_socket s.1 = Open;
  zo_once : how_many closing s.2 = (if z_closed s.1 then 1 else 0) - (match z_socket s.1 with Open => 0 | _ => 1 end);
  zo_socket : z_socket s.1 <> Misused;
  zo_numbers : NoDup (numbers s) /\ Forall (fun q => 1 <= q <= seqNum s.1) (numbers s);
  zo_seq : 0 <= seqNum s.1;
  zo_count : sentCount s.1 = blen (z_sent s.1)
}.

Lemma how_many_app f a b : how_many f (a ++ b) = how_many f a + how_many f b.
Proof. unfold how_many. induction a as [|t a IH]; cbn; [lia|]. rewrite IH. lia. Qed.

Lemma how_many_nonneg f ts : 0 <= how_many f ts.
Proof. unfold how_many. induction ts as [|t ts IH]; cbn; [lia|]. destruct (f t); cbn; lia. Qed.

Lemma how_many_insert f ts i t t' : ts !! i = Some t -> how_many f (<[i := t']> ts) = how_many f ts - Z.b2z (f t) + Z.b2z (f t').
Proof.
  intros Ht. pose proof (lookup_lt_Some _ _ _ Ht) as Hlt. rewrite insert_take_drop by done. rewrite <- (take_drop_middle ts i t Ht) at 3.
  rewrite !how_many_app. cbn. unfold how_many. lia.
Qed.

Lemma how_many_pos f ts i t : ts !! i = Some t -> f t = true -> 1 <= how_many f ts.
Proof.
  intros Ht Hf. rewrite <- (take_drop_middle ts i t Ht), how_many_app. cbn. rewrite Hf. pose proof (how_many_nonneg f (take i ts)). pose proof (how_many_nonneg f (drop (S i) ts)). unfold how_many in *. cbn. lia.
Qed.

Lemma omap_insert_list {A B} (f : A -> option B) (l : list A) i x y : l !! i = Some x ->
  exists a b, omap f l = a ++ match f x with Some q => [q] | None => [] end ++ b /\ omap f (<[i := y]> l) = a ++ match f y with Some q => [q] | None => [] end ++ b.
Proof.
  intros Hx. pose proof (lookup_lt_Some _ _ _ Hx) as Hlt. exists (omap f (take i l)), (omap f (drop (S i) l)). rewrite insert_take_drop by done.
  rewrite <- (take_drop_middle l i x Hx) at 1. rewrite !omap_app. cbn. by destruct (f x), (f y).
Qed.

(** The parts of the invariant that a step of one thread touches. *)
Lemma numbers_insert z z' ts i t t' : ts !! i = Some t -> exists a b,
  numbers (z, ts) = (SeqNum ∘ snd <$> z_sent z) ++ a ++ match numbered t with Some q => [q] | None => [] end ++ b /\
  numbers (z', <[i := t']> ts) = (SeqNum ∘ snd <$> z_sent z') ++ a ++ match numbered t' with Some q => [q] | None => [] end ++ b.
Proof. intros Ht. destruct (omap_insert_list numbered ts i t t' Ht) as (a & b & E1 & E2). exists a, b. unfold numbers. cbn [fst snd]. by rewrite E1, E2. Qed.

Definition numbers_ok (last : Z) (l : list Z) : Prop := NoDup l /\ Forall (fun q => 1 <= q <= last) l.

Lemma numbers_ok_perm last l l' : l ≡ₚ l' -> numbers_ok last l -> numbers_ok last l'.
Proof. intros Hp [Hn Hf]. split; [by rewrite <- Hp|by rewrite <- Hp]. Qed.

Lemma numbers_ok_less last l q : numbers_ok last (q :: l) -> numbers_ok last l.
Proof. intros [Hn Hf]. split; [by eapply NoDup_cons_1_2|by eapply Forall_inv_tail]. Qed.

Lemma numbers_ok_next last l : numbers_ok last l -> numbers_ok (last + 1) l.
Proof. intros [Hn Hf]. split; [done|]. eapply Forall_impl; [|exact Hf]. cbn. lia. Qed.

Lemma numbers_ok_new last l : 0 <= last -> numbers_ok last l -> numbers_ok (last + 1) (last + 1 :: l).
Proof.
  intros Hl Hok. destruct (numbers_ok_next _ _ Hok) as [Hn Hf]. split; [|constructor; [lia|done]]. constructor; [|done]. destruct Hok as [_ Hf']. intros Hin.
  eapply list.Forall_forall in Hin; [|exact Hf']. cbn in Hin. lia.
Qed.

Lemma lock_step (ts : list thread) i t t' z z' : (forall j u, ts !! j = Some u -> holds_lock u = true -> z_mu z = Some j) -> ts !! i = Some t ->
  (holds_lock t' = true -> z_mu z' = Some i) -> (z_mu z' = z_mu z \/ z_mu z = Some i \/ z_mu z = None) ->
  forall j u, <[i := t']> ts !! j = Some u -> holds_lock u = true -> z_mu z' = Some j.
Proof.
  intros Hl Ht Hnew Hmu j u. destruct (decide (i = j)) as [<-|Hne].
  - rewrite list_lookup_insert_eq by (by eapply lookup_lt_Some). by intros [= <-].
  - rewrite list_lookup_insert_ne by done. intros Hu Hh. specialize (Hl j u Hu Hh). destruct Hmu as [->|[Hm|Hm]]; [done|congruence..].
Qed.

Lemma sends_step (ts : list thread) i t t' z z' : (forall j u, ts !! j = Some u -> holds_lock u = true -> z_mu z = Some j) ->
  (forall j topic n, ts !! j = Some (NotifySends topic n) -> z_socket z = Open) -> ts !! i = Some t ->
  (forall topic n, t' = NotifySends topic n -> z_socket z' = Open) -> (z_socket z' = z_socket z \/ z_mu z = Some i) ->
  forall j topic n, <[i := t']> ts !! j = Some (NotifySends topic n) -> z_socket z' = Open.
Proof.
  intros Hl Hs Ht Hnew Hsock j topic n. destruct (decide (i = j)) as [<-|Hne].
  - rewrite list_lookup_insert_eq by (by eapply lookup_lt_Some). intros [= ->]. by eapply Hnew.
  - rewrite list_lookup_insert_ne by done. intros Hj. destruct Hsock as [->|Hm]; [by eapply Hs|]. specialize (Hl j _ Hj eq_refl). congruence.
Qed.

Lemma thread_step_ok z ts i ok t t' z' : z_ok (z, ts) -> ts !! i = Some t -> thread_step i ok t z = Some (t', z') -> z_ok (z', <[i := t']> ts).
Proof.
  intros [Hlock Hsends Honce Hsock Hnum Hseq Hcount] Ht Hstep. cbn [fst snd] in *.
  pose proof (how_many_insert closing ts i t t' Ht) as Hclosing. pose proof (how_many_nonneg closing ts) as Hnn.
  assert (closing t = true -> 1 <= how_many closing ts) as Hpos by (intros; by eapply how_many_pos).
  assert (holds_lock t = true -> z_mu z = Some i) as Hmine by (intros; by eapply Hlock).
  assert (forall topic n, t = NotifySends topic n -> z_socket z = Open) as Hopen by (intros topic n ->; by eapply Hsends).
  pose proof (lock_step ts i t t' z z' Hlock Ht) as Hlock'. pose proof (sends_step ts i t t' z z' Hlock Hsends Ht) as Hsends'.
  destruct (numbers_insert z z' ts i t t' Ht) as (a & b & Ea & Eb). fold (numbers_ok (seqNum z) (numbers (z, ts))) in Hnum. rewrite Ea in Hnum.
  enough ((holds_lock t' = true -> z_mu z' = Some i) /\ (z_mu z' = z_mu z \/ z_mu z = Some i \/ z_mu z = None) /\
    (forall topic n, t' = NotifySends topic n -> z_socket z' = Open) /\ (z_socket z' = z_socket z \/ z_mu z = Some i) /\
    how_many closing (<[i := t']> ts) = (if z_closed z' then 1 else 0) - (match z_socket z' with Open => 0 | _ => 1 end) /\ z_socket z' <> Misused /\
    numbers_ok (seqNum z') (numbers (z', <[i := t']> ts)) /\ 0 <= seqNum z' /\ sentCount z' = blen (z_sent z')) as (X1 & X2 & X3 & X4 & X5 & X6 & X7 & X8 & X9) by (split; cbn [fst snd]; [exact (Hlock' X1 X2)|exact (Hsends' X3 X4)|exact X5|exact X6|exact X7|exact X8|exact X9]).
  rewrite Hclosing, Eb. clear Hlock' Hsends' Hlock Hsends Ht Ea Eb Hclosing. revert Hstep.
  destruct z as [sock mu ns closed sent errs seq wire]. cbn [z_socket z_mu z_closed sentCount seqNum z_sent] in *. intros Hstep.
  destruct t as [key op et|key op et|topic n|topic n|topic n| | | |]; cbn [thread_step] in Hstep; try done.
  - injection Hstep as <- <-. destruct closed; cbn in *; split_and!; try done; try lia; auto.
  - destruct ok; injection Hstep as <- <-; cbn in *; split_and!; try done; try lia; auto.
    + eapply numbers_ok_perm; [|by apply numbers_ok_new]. solve_Permutation.
    + by apply numbers_ok_next.
  - destruct mu; [done|]. injection Hstep as <- <-. cbn in *. split_and!; try done; try lia; auto.
  - specialize (Hmine eq_refl). destruct closed; injection Hstep as <- <-; cbn in *; split_and!; try done; try lia; auto.
    + eapply (numbers_ok_less _ _ (SeqNum n)), numbers_ok_perm; [|exact Hnum]. solve_Permutation.
    + intros topic' n' _. destruct sock; [done|lia|done].
  - specialize (Hmine eq_refl). specialize (Hopen _ _ eq_refl) as ->. destruct ok; injection Hstep as <- <-; cbn in *; split_and!; try done; try lia; auto.
    + rewrite fmap_app. cbn. eapply numbers_ok_perm; [|exact Hnum]. solve_Permutation.
    + unfold blen in *. rewrite length_app. cbn. lia.
    + eapply (numbers_ok_less _ _ (SeqNum n)), numbers_ok_perm; [|exact Hnum]. solve_Permutation.
  - injection Hstep as <- <-. destruct closed; cbn in *; split_and!; try done; try lia; auto.
  - destruct mu; [done|]. injection Hstep as <- <-. cbn in *. split_and!; try done; try lia; auto.
  - specialize (Hmine eq_refl). specialize (Hpos eq_refl). injection Hstep as <- <-. destruct closed, sock; cbn in *; split_and!; try done; try lia; auto.
Qed.

Lemma spawn_ok z ts t : z_ok (z, ts) -> holds_lock t = false -> closing t = false -> numbered t = None -> z_ok (z, ts ++ [t]).
Proof.
  intros [Hlock Hsends Honce Hsock Hnum Hseq Hcount] Hh Hc Hn. split; cbn [fst snd] in *; try done.
  - intros i u [Hi|[_ Hi]]%lookup_app_Some; [by apply Hlock|]. apply list_lookup_singleton_Some in Hi as [_ <-]. congruence.
  - intros i topic n [Hi|[_ Hi]]%lookup_app_Some; [by eapply Hsends|]. apply list_lookup_singleton_Some in Hi as [_ ->]. done.
  - rewrite how_many_app. cbn. rewrite Hc. cbn. lia.
  - unfold numbers in *. cbn [fst snd] in *. rewrite omap_app. cbn. rewrite Hn. by rewrite app_nil_r.
Qed.

(** C30. In every interleaving of notifications and closings the socket is used only
    while it is open, by one thread at a time, and is closed once; the messages on
    the wire have different sequence numbers and are as many as the statistics
    say.  When a closing has been started and none is under way the socket is
    closed. *)
Theorem socket_is_used_safely c a b d e z s : NewZeroMQNotifier c a b d e = Some z -> rtc z_step (z, []) s ->
  z_ok s /\ NoDup (SeqNum ∘ snd <$> z_sent s.1) /\ (Stats s.1).1 = blen (z_sent s.1) /\
  (z_closed s.1 = true -> how_many closing s.2 = 0 -> z_socket s.1 = Closed).
Proof.
  intros Hnew Hr. assert (z_ok (z, [])) as Hinit.
  { unfold NewZeroMQNotifier in Hnew. destruct (_ && _); [|done]. injection Hnew as <-. split; cbn; try done. split; constructor. }
  assert (z_ok s) as Hok.
  { clear Hnew. induction Hr as [|x y s' Hxy _ IH]; [done|]. apply IH. clear IH. destruct Hxy as [z' ts key op et|z' ts|z' ts i ok t t' z'' Ht Hstep]; [by apply spawn_ok..|by eapply thread_step_ok]. }
  split; [done|]. destruct Hok as [Hlock Hsends Honce Hsock [Hnum _] Hseq Hcount]. split; [by apply list.NoDup_app in Hnum as [? _]|]. split; [done|].
  intros Hc Hz. rewrite Hc, Hz in Honce. by destruct (z_socket s.1).
Qed.

(** A closing that overtakes a notification: it is not sent. *)
Lemma socket_is_used_safely_witness : exists s, z_socket s.1 = Closed /\ z_sent s.1 = [] /\ z_ok s.
Proof.
  eexists. refine (conj _ (conj _ (proj1 (socket_is_used_safely (mkZConfig [] [] 0 0) true true true true _ _ eq_refl _)))); cycle 2.
  - eapply rtc_l; [apply (zs_Notify _ _ [Byte.x01] 1 0)|]. eapply rtc_l; [apply zs_Close|].
    eapply rtc_l; [eapply (zs_step _ _ 0 true); reflexivity|]. eapply rtc_l; [eapply (zs_step _ _ 0 true); reflexivity|]. eapply rtc_l; [eapply (zs_step _ _ 1 true); reflexivity|].
    eapply rtc_l; [eapply (zs_step _ _ 0 true); reflexivity|]. eapply rtc_l; [eapply (zs_step _ _ 0 true); reflexivity|]. eapply rtc_l; [eapply (zs_step _ _ 1 true); reflexivity|]. eapply rtc_l; [eapply (zs_step _ _ 1 true); reflexivity|].
    apply rtc_refl.
  - reflexivity.
  - reflexivity.
Defined.
